(* ===== verification/_CoqProject ===== *)
-Q . S2P
Prelude.v
Event.v
EventQueue.v
Acknowledgment.v
Attachment.v
Command.v
Session.v
GroupState.v
StoreErrors.v
SignalTypes.v
Media.v
InlineGif.v
ProjectionState.v
Qr.v
Utf8.v
Paths.v
Ffi.v
Boundary.v
Effects.v
Backend.v
Repository.v
Groups.v
Outbox.v
Storage.v
Commands.v
Guard.v
Answers.v
Content.v
Delivery.v
Projecting.v
Snapshots.v
Tasks.v
Stopping.v
Worker.v
Account.v
Phases.v
Composition.v
Recording.v
Durability.v
Draining.v
Lifecycle.v
Teardown.v
Purple.v
PurpleWorld.v
Plugin.v
ReadReceipts.v
BuddyList.v
PluginGroups.v
AttachmentFile.v
InlineImage.v
Transfers.v
Adapter.v
UserActions.v
ProtocolTable.v
PluginSafety.v
TransferSafety.v
AdapterSafety.v
Polling.v
PluginClose.v
PluginLogin.v
PluginSystem.v
PluginGuards.v
PluginSnapshot.v
GroupsEndToEnd.v
PluginCore.v
