(* ===== verification/Prelude.v ===== *)
(** * signal-purple: a verification library

    signal-purple connects libpurple clients to Signal.  Its C plugin, [src],
    talks to a Rust library, [rust/signal-core], which runs one worker per
    account on top of the Signal libraries (presage, libsignal) and an
    encrypted SQLite store.  This library models the Rust core and the C
    plugin, proves what each promises, and puts them together.

    ** The program

    C hands commands to the worker and polls events from a bounded queue with
    a notification socket.  The worker connects, receives content, shows it
    (projects it) as events, and records it in the store as projected only
    once C has acknowledged the display, so that a crash replays what was not
    shown.  Text messages go through a durable outbox.  Groups are resolved
    through a metadata cache or the store and can be left; a lock keeps
    sending to a group and leaving it apart.  Attachments are admitted within
    limits, uploaded in tasks of their own, and can be cancelled.

    The plugin runs in the main loop of libpurple.  A login opens the store
    with a key from libsecret, makes a core and watches its descriptor; each
    wake-up polls events, shows them as conversations, buddies, chats, images
    and file transfers, and acknowledges projections.  What the user does
    becomes calls to the core.  libpurple calls back into the plugin while
    the plugin calls it.

    ** The files of the core (sources are under [rust/signal-core/src])

    - [Prelude]: machine integers, strings, lists, tactics, hint databases.
    - [Event]: [event.rs], events and the owned copies that C reads.
    - [EventQueue]: [event_queue.rs], a state ([EventQueueState]), its
      critical sections, and a step relation [qstep] of producers, consumer
      and [close].
    - [Acknowledgment]: [acknowledgment.rs], one function per method under
      the mutex, and a step relation with the [Notify] permit.
    - [Attachment]: [attachment.rs], admission table and a heap of shared
      controls.
    - [Command]: [backend/command.rs].
    - [Session], [GroupState]: timestamp allocator, metadata cache, recovery
      backoff, session phases, and the leave state of groups, from
      [backend/coordinator.rs] and [backend/group_state.rs].
    - [StoreErrors]: [store/errors.rs] and the error classifiers of
      [backend/coordinator.rs].
    - [SignalTypes]: the data of the Signal libraries; identifiers, digests
      and enumerations of the protocol are type classes, that is, parameters.
    - [Media]: [backend/media.rs].
    - [ProjectionState]: the state types of [backend/projection.rs].
    - [Effects]: programs as trees of operations, their traces, and a
      weakest-precondition calculus for properties of all traces.
    - [Backend]: the operations the backend performs (store, network, clock,
      files, events, shared state) and the state shared between tasks.
    - [Repository]: [store/repository.rs].
    - [Groups], [Commands], [Content]: the programs of
      [backend/coordinator.rs] for resolving groups, handling commands and
      handling received content.
    - [Outbox]: [backend/outbox.rs] and the projection marker of sent messages.
    - [Storage]: [store/traits.rs], the trait [StorageOps] as a class, its
      implementation by the repository, and the in-memory store of the tests.
    - [Projecting]: the programs of [backend/projection.rs].
    - [Guard], [Answers], [Delivery]: theorems of [Commands] and [Content].
    - [Snapshots]: contacts, groups, account and identity changes shown to C,
      and the background tasks, from [backend/coordinator.rs].
    - [Qr]: the image of the linking code, [qr_png].
    - [Tasks]: attachment and receipt tasks, their completions, deferred
      commands and the ways to stop a connection, from [backend/worker.rs],
      [backend/coordinator.rs] and [backend/projection.rs]; [Stopping] has
      the theorem about stopping.
    - [Worker]: [backend/worker.rs] from [run_worker] to the dispatch loop.  A
      [select!] is an operation that is told which branches are enabled and
      answers with the branch that completed.
    - [Account]: the specification of the worker as a state machine; [Phases]
      and [Lifecycle] prove that [Worker] implements it.
    - [Composition]: the worker as built from five parts; a property of
      programs that these have ([Compositional]) is one of the worker.
      [Recording] and [Durability] are its instances: received messages, and
      queued messages over several sessions with crashes.  [Draining]: passes
      over the outbox empty it.
    - [Utf8], [Paths]: the parts of the standard library the C interface uses,
      and the preparation of directories.
    - [Ffi]: [ffi.rs]; [Boundary] has its theorems, and [Teardown] ties it to
      the end of the worker.

    [backend/shutdown.rs] is in [Backend]: [until] races a program against a
    shutdown, a time limit or an abort, and may lose at every await.

    ** The files of the plugin (sources are under [src])

    - [Purple]: the calls into libpurple, GLib, the system and the core, as
      operations of [Effects]; [PurpleWorld] answers them for examples.
    - [Plugin]: [signal_purple.h], the state of a connection, and programs
      over it.  Undefined behaviour (a freed context, a null dereference, a walk
      over a table that was changed) is [Panic].
    - [ReadReceipts], [PluginGroups]: the read receipts, contacts and groups
      of [connection.c].
    - [BuddyList]: [blist_sync.c], [contact_sync.c], [group_sync.c].
    - [AttachmentFile]: [attachment_file.c].
    - [InlineGif], [InlineImage]: [inline_image.c]; the GIF validator reads
      memory with bounds.
    - [Transfers]: [connection_transfers.c], with the contexts of outgoing
      attachments as memory that is allocated and freed, the references that
      transfers hold, and the functions libpurple runs during a call.
    - [Adapter]: [signal_dispatch_event], its handlers and
      [signal_poll_backend]; [UserActions]: the requests of the user, login and
      close, from [connection.c] and [util.c].
    - [PluginSafety], [TransferSafety], [AdapterSafety]: the invariant
      [conn_ok] of a connection, which every function keeps.
    - [Polling], [PluginClose], [PluginLogin]: polling, close and login.
    - [PluginSystem]: sessions, a login and any calls of the protocol table in
      [plugin.c], timers and signals; [PluginGuards]: which calls they make.
    - [ProtocolTable]: the answers of [plugin.c] that need no connection, and
      the entries that name a chat.
    - [PluginSnapshot]: group snapshots in the plugin; [GroupsEndToEnd]: from
      the store to the plugin; [PluginCore]: sessions whose calls are answered by
      [Ffi].

    ** What the theorems show

    Programs ([Effects] upwards).  The theorems quantify over all answers of
    store, network, files and clock, and over every point at which a future
    can be dropped, unless they say that the program ran to its end.
    Projection: content is shown in full with its delivery number on the last
    event, or not at all, and is recorded only when that is right
    ([projection_settles], [delivery_number_is_last], [drain_asks_for_all]).
    Outbox: written before sent, removed only when settled
    ([outbox_write_ahead], [outbox_retry_settles]); the marker of a sent
    message is the same program over every storage, and on the in-memory store
    it succeeds exactly when the failures are no more than the delays
    ([mark_sent_over_repository], [mark_sent_over_fake]).  Groups: no send and no
    leave outside the lock or on a group not found active, also after an
    upload, and no leave half done ([group_operations_guarded],
    [attachment_send_guarded], [leave_never_half_done]).  Commands are
    answered ([command_answered]).  What a sender can cause is bounded
    ([fetches_bounded]); mentions are substituted in order
    ([mentions_in_place]).  A group snapshot shows every active group with all
    its members ([group_snapshot_complete]).

    The worker.  Whatever the store, the network and C answer, the worker is a
    refinement of the machine [Account] and never panics
    ([worker_refines_account]); so commands are handled in order, none twice
    and none lost but typing notices ([commands_in_order]), and READY and
    RECOVERING alternate and agree with the ready flag
    ([session_events_alternate]).  However a connection is stopped, every
    attachment under way is settled exactly once
    ([attachments_settled_on_stop]).  Received content is recorded only as an
    own message, as shown in full and acknowledged, or as handled with nothing
    to show ([recorded_when_settled]); the assumption is that C
    acknowledges only what it was shown, and the plugin acknowledges only events
    it polled ([poll_backend_exact]).  Over any number of sessions on one store,
    each stopped anywhere, no queued message is lost ([outbox_durable]), and
    five passes that come late enough settle every one ([outbox_drains]); there
    the encrypted store answers as the in-memory store does, or fails with or
    without the change made, and [outbox_drains] excludes failures.

    The C interface.  Strings are accepted exactly when they are non-empty
    UTF-8 within the limit ([boundary_strings_exact]); accepted calls become
    well-formed commands in order ([accepted_calls_become_commands]); refused
    calls leave nothing behind ([refused_call_changes_nothing]); polling hands
    over events in order and unchanged ([polled_event_roundtrip]); after a
    shutdown everything is refused ([shutdown_refuses_calls]).

    State machines.  The event queue is bounded, first in first out, loses no
    wake-up and keeps its descriptor readable; acknowledgments are neither
    lost nor processed twice; attachments stay within the limits and each has
    one winner between cancelling and finishing; deliveries, receipts and
    replay keep their invariants; timestamps increase; recovery invalidates
    the groups; a departure is final.

    Media.  The GIF validator is total and accepts exactly a declarative
    grammar within the limits; transcoding yields only such files; the avatar
    cache does not change results; the linking image shows exactly the modules
    of the code ([qr_image_exact]).

    The plugin.  Its theorems quantify over all answers of libpurple, GLib,
    the system and the core, and over all events.  No session is undefined,
    but for the timer below, every call ends, and closing releases everything
    ([plugin_sessions_defined], [close_releases_everything]); a login opens
    the store only with a key that libsecret holds ([login_owns_core]).  A
    wake-up handles, acknowledges and frees events as it should
    ([poll_backend_exact]).  What is sent is what the user asked for
    ([plugin_acts_on_request]), and to groups only while they are active
    ([group_requests_guarded]).  Read receipts are sent once
    ([read_receipts_sent_once]), files are read within their limit
    ([bounded_file_read_exact]), images are shown only after they were checked
    ([inline_image_checked]), and GIFs are judged as in the core
    ([gif_validators_agree]).  Two theorems show that the code does not
    do what it means to: rejected projections are acknowledged
    ([rejected_projection_acknowledged]), and the timer that gives up waiting for
    the groups walks a table that it changes ([group_sync_timeout_undefined]).

    Both together.  What the worker emits reaches the plugin in order and
    unchanged, and its projections are acknowledged
    ([events_reach_the_plugin]); the active groups of the store become those of
    the plugin ([groups_end_to_end], by [group_snapshot_adopted]).

    ** Fuel and bounds

    [u16], [u32], [u64] and [usize] values are [N] with the overflow behaviour
    of the operation used (checked, saturating, wrapping); [usize] is 64 bits
    wide.  The GIF scanner takes the number of input bytes as fuel, every
    round consumes at least one byte, and [bounded_inline_gif_exact] shows the
    fuel suffices.  Draining acknowledgments takes a number of rounds;
    [drain_asks_for_all] shows that one more than the accepted
    acknowledgments is enough.  Joining tasks takes one turn more than there
    are tasks.  Polling of the ffmpeg child is bounded by its timeout, as in
    the code.  The loops of the worker (connections, dispatch, recovery, start,
    linking, contact requests) run until something outside ends them, so they
    take a number of turns and say when these are used up; their theorems hold
    for every number of turns and at every await, so for unbounded runs.  So
    do the loops of the plugin that go on after an interrupted system call;
    [bounded_file_read_exact] says how many turns are enough.  The chunks for
    the image decoder take the number of bytes as fuel, which suffices.  The GIF
    validator of the plugin takes one more than the size, and
    [gif_validators_agree] shows that it suffices.

    ** What is a parameter, and what is left out

    presage, libsignal, sqlx, sha2, image decoding and ffmpeg are not part of
    the sources: their answers are arbitrary, or type-class parameters with
    the few documented facts the code relies on; so are the qrcode and png
    crates ([QrLibrary]), hex decoding ([HexDecoding]) and the channel of
    commands ([CommandChannel] with [CommandChannelLaws]).  tokio's tasks,
    timers and [select!] are operations whose answers are arbitrary among the
    enabled branches, so a timer may fire at any turn; building the runtime is
    one operation that may fail.  Logging is left out.  Not modelled: the memory
    of the boxed events and cores that C frees, the number of the descriptor C
    watches, and the tests with their fake of the Signal libraries (in
    [backend/protocol.rs]), which are not part of the running program.

    libpurple, GLib, gdk-pixbuf and libsecret answer arbitrarily; text and path
    functions are the class [GLib].  libpurple is taken to call back
    into the plugin where it documents it: the signal for updated conversations
    during every action and between calls, the functions of transfers during
    calls on their transfer and between calls; closing an account is a call of
    its own and does not interrupt another.  A walk over the buddy list
    takes its nodes at the start.  A hash table is walked in any order.  Not
    modelled of the plugin: the version record of [plugin.c], the
    normalisation of names, which libpurple does, the memory of strings, the
    clearing of secrets, and counters that are only logged. *)
From Stdlib Require Import Strings.Byte Strings.Ascii.
From stdpp Require Export base gmap strings list fin_maps sets pretty relations.
From Stdlib Require Export Lia.

#[export] Set Default Goal Selector "!".
#[export] Set Warnings "-clear-no-such-hyp".

(** ** Machine integers

    Unsigned Rust integers are kept as [N] together with their width.  The
    crate is built for 64-bit Linux, so [usize] has the width of [u64]. *)

Definition u32_max : N := 4294967295.
Definition u64_max : N := 18446744073709551615.
Definition usize_max : N := u64_max.

(** [a.checked_add(b)] at a width whose largest value is [m]. *)
Definition checked_add (m a b : N) : option N :=
  if decide (a + b <= m)%N then Some (a + b)%N else None.

(** [a.checked_mul(b)]. *)
Definition checked_mul (m a b : N) : option N :=
  if decide (a * b <= m)%N then Some (a * b)%N else None.

(** [a.saturating_add(b)]; [saturating_sub] is [N.sub], which stops at 0. *)
Definition saturating_add (m a b : N) : N := N.min m (a + b).

(** [a.saturating_mul(b)]. *)
Definition saturating_mul (m a b : N) : N := N.min m (a * b).

(** [a.wrapping_add(b)] and the wrap-around of [fetch_add] on an atomic. *)
Definition wrapping_add (m a b : N) : N := ((a + b) mod (m + 1))%N.

(** The wrap-around of [fetch_sub] on an atomic. *)
Definition wrapping_sub (m a b : N) : N := ((a + (m + 1) - b mod (m + 1)) mod (m + 1))%N.

(** [Option::is_none_or]. *)
Definition is_none_or {A} (o : option A) (f : A → bool) : bool :=
  match o with None => true | Some a => f a end.

(** [Option::is_some_and]. *)
Definition is_some_and {A} (o : option A) (f : A → bool) : bool :=
  match o with None => false | Some a => f a end.

(** [x as u64] for an [i64] value [x]. *)
Definition i64_as_u64 (x : Z) : N := Z.to_N (x mod 18446744073709551616)%Z.

(** The number of elements of a [Vec] as a [usize]. *)
Definition len {A} (l : list A) : N := N.of_nat (length l).

(** ** Results *)

Inductive result (A E : Type) : Type :=
| Ok (a : A)
| Err (e : E).
Arguments Ok {A E} _.
Arguments Err {A E} _.

Definition is_ok {A E} (r : result A E) : bool :=
  match r with Ok _ => true | Err _ => false end.

(** [Result::ok]. *)
Definition ok {A E} (r : result A E) : option A :=
  match r with Ok a => Some a | Err _ => None end.

Definition map_err {A E F} (f : E → F) (r : result A E) : result A F :=
  match r with Ok a => Ok a | Err e => Err (f e) end.

Definition ok_or {A E} (o : option A) (e : E) : result A E :=
  match o with Some a => Ok a | None => Err e end.

(** ** Bytes *)

Abbreviation byte := Byte.byte.

#[export] Instance byte_eq_dec : EqDecision byte := Byte.byte_eq_dec.

#[export] Program Instance byte_countable : Countable byte :=
  inj_countable Byte.to_N Byte.of_N _.
Next Obligation. intros b. apply Byte.of_to_N. Qed.

Definition byte_eqb (a b : byte) : bool := bool_decide (a = b).

(** [slice.starts_with(prefix)] on byte slices. *)
Fixpoint bytes_start_with (prefix data : list byte) : bool :=
  match prefix, data with
  | [], _ => true
  | _ :: _, [] => false
  | p :: ps, d :: ds => byte_eqb p d && bytes_start_with ps ds
  end.

(** The bytes of a Rust string literal. *)
Definition bytes_of (s : string) : list byte := String.list_byte_of_string s.

(** ** Strings

    A Rust [String] is its UTF-8 byte sequence. *)

Definition is_empty (s : string) : bool :=
  match s with "" => true | _ => false end.

(** [str::len], in bytes. *)
Definition str_len (s : string) : N := N.of_nat (String.length s).

(** [str::starts_with]. *)
Definition starts_with (s prefix : string) : bool := String.prefix prefix s.

(** [str::contains] with a string pattern. *)
Fixpoint contains (s pat : string) : bool :=
  starts_with s pat ||
  match s with "" => false | String _ s' => contains s' pat end.

Definition ascii_lower (c : Ascii.ascii) : Ascii.ascii :=
  let n := Ascii.N_of_ascii c in
  if ((65 <=? n) && (n <=? 90))%N then Ascii.ascii_of_N (n + 32) else c.

(** [str::to_ascii_lowercase]. *)
Fixpoint to_ascii_lowercase (s : string) : string :=
  match s with
  | "" => ""
  | String c s' => String (ascii_lower c) (to_ascii_lowercase s')
  end.

(** [str::eq_ignore_ascii_case]. *)
Definition eq_ignore_ascii_case (a b : string) : bool :=
  String.eqb (to_ascii_lowercase a) (to_ascii_lowercase b).

(** [Option::filter(|s| !s.is_empty())]. *)
Definition non_empty (o : option string) : option string :=
  match o with Some s => if is_empty s then None else Some s | None => None end.

(** [[T]::join] on strings. *)
Fixpoint join_with (sep : string) (l : list string) : string :=
  match l with
  | [] => ""
  | [s] => s
  | s :: rest => s +:+ sep +:+ join_with sep rest
  end.

(** Decimal printing of an unsigned integer by [format!]. *)
Definition show_N (n : N) : string := pretty n.

(** ** Shared lemmas *)

(** An invariant of every step holds along a sequence of steps. *)
Lemma rtc_invariant {A} (R : relation A) (I : A → Prop) :
  (∀ x y, I x → R x y → I y) → ∀ x y, rtc R x y → I x → I y.
Proof. intros Hstep x y Hrtc. induction Hrtc; eauto. Qed.

Lemma wrapping_add_small (m a b : N) : (a + b <= m)%N → wrapping_add m a b = (a + b)%N.
Proof. intros. unfold wrapping_add. apply N.mod_small. lia. Qed.

Lemma wrapping_sub_small (m a b : N) : (b <= a)%N → (a <= m)%N → wrapping_sub m a b = (a - b)%N.
Proof.
  intros. unfold wrapping_sub. rewrite (N.mod_small b) by lia.
  replace (a + (m + 1) - b)%N with ((a - b) + 1 * (m + 1))%N by lia.
  rewrite N.Div0.mod_add. apply N.mod_small. lia.
Qed.

Lemma checked_add_Some (m a b c : N) :
  checked_add m a b = Some c ↔ c = (a + b)%N ∧ (a + b <= m)%N.
Proof. unfold checked_add. case_decide; split; intros; destruct_and?; simplify_eq; try done; try lia. Qed.

Lemma len_app {A} (l k : list A) : len (l ++ k) = (len l + len k)%N.
Proof. unfold len. rewrite length_app. lia. Qed.

Lemma len_cons {A} (x : A) (l : list A) : len (x :: l) = (1 + len l)%N.
Proof. unfold len. simpl. lia. Qed.

Lemma len_zero {A} (l : list A) : len l = 0%N ↔ l = [].
Proof. unfold len. destruct l; simpl; split; intros; try done; lia. Qed.

(** ** Automation *)

Create HintDb signal discriminated.
Create Rewrite HintDb signal.
#[export] Hint Rewrite @len_app @len_cons : signal.

(** Splits boolean tests of the code into propositions. *)
Ltac bool_prop :=
  repeat match goal with
  | H : _ && _ = true |- _ => apply andb_true_iff in H; destruct H
  | H : _ || _ = false |- _ => apply orb_false_iff in H; destruct H
  | H : negb _ = true |- _ => apply negb_true_iff in H
  | H : negb _ = false |- _ => apply negb_false_iff in H
  | H : (_ =? _)%N = true |- _ => apply N.eqb_eq in H
  | H : (_ =? _)%N = false |- _ => apply N.eqb_neq in H
  | H : (_ <=? _)%N = true |- _ => apply N.leb_le in H
  | H : (_ <=? _)%N = false |- _ => apply N.leb_gt in H
  | H : (_ <? _)%N = true |- _ => apply N.ltb_lt in H
  | H : (_ <? _)%N = false |- _ => apply N.ltb_ge in H
  end.
