(* ===== verification/Event.v ===== *)
(** * Event: the values the backend hands to the C adapter

    Models [rust/signal-core/src/event.rs]: the [Event] record with its
    constructors, and [OwnedEvent], the owned copy whose NUL-terminated strings
    and byte buffer the C side reads. *)
From S2P Require Import Prelude.
From Stdlib Require Import Strings.Ascii.

(** ** Kinds and flags *)

Definition ABI_VERSION : N := 7.

Definition EVENT_LINK_QR : N := 1.
Definition EVENT_READY : N := 2.
Definition EVENT_CONTACT : N := 3.
Definition EVENT_GROUP : N := 4.
Definition EVENT_MESSAGE : N := 5.
Definition EVENT_GROUP_MESSAGE : N := 6.
Definition EVENT_TYPING : N := 7.
Definition EVENT_RECEIPT : N := 8.
Definition EVENT_NOTICE_RESERVED : N := 9.
Definition EVENT_ERROR : N := 10.
Definition EVENT_DISCONNECTED : N := 11.
Definition EVENT_CONTACT_SYNC_BEGIN : N := 12.
Definition EVENT_CONTACT_SYNC_END : N := 13.
Definition EVENT_GROUP_SYNC_BEGIN : N := 14.
Definition EVENT_GROUP_SYNC_END : N := 15.
Definition EVENT_GROUP_MEMBER : N := 16.
Definition EVENT_IDENTITY_CHANGE : N := 17.
Definition EVENT_IDENTITY_ACCEPTED : N := 18.
Definition EVENT_ATTACHMENT : N := 19.
Definition EVENT_ATTACHMENT_SENT : N := 20.
Definition EVENT_GROUP_LEFT : N := 21.
Definition EVENT_RECOVERING : N := 22.
Definition EVENT_ACCOUNT : N := 23.
Definition EVENT_SESSION_RESET : N := 24.
Definition EVENT_AVATAR : N := 25.

Definition FLAG_OUTGOING : N := N.shiftl 1 0.
Definition FLAG_FATAL : N := N.shiftl 1 1.
Definition FLAG_TRANSIENT : N := N.shiftl 1 2.

(** ** The event record and its constructors *)

Record Event := mkEvent {
  ev_kind : N;
  ev_flags : N;
  ev_request_id : N;
  ev_timestamp_ms : N;
  ev_value : Z;
  ev_peer_id : option string;
  ev_chat_id : option string;
  ev_title : option string;
  ev_text : option string;
  ev_data : list byte;
}.

#[export] Instance Event_eq_dec : EqDecision Event.
Proof. solve_decision. Defined.

(** [Event::default()]. *)
Definition default_event : Event :=
  mkEvent 0 0 0 0 0 None None None None [].

(** [Event { kind, ..Event::default() }]. *)
Definition plain_event (k : N) : Event :=
  mkEvent k 0 0 0 0 None None None None [].

(** [Event::error]. *)
Definition error (message : string) (fatal : bool) : Event :=
  mkEvent EVENT_ERROR (if fatal then FLAG_FATAL else 0%N) 0 0 0 None None
    (Some (if fatal then "Signal backend stopped" else "Signal operation failed"))
    (Some message) [].

(** The struct-update syntax [Self { flags, ..e }] and [Self { request_id, ..e }]. *)
Definition with_flags (f : N) (e : Event) : Event :=
  mkEvent (ev_kind e) f (ev_request_id e) (ev_timestamp_ms e) (ev_value e)
    (ev_peer_id e) (ev_chat_id e) (ev_title e) (ev_text e) (ev_data e).

Definition with_request_id (r : N) (e : Event) : Event :=
  mkEvent (ev_kind e) (ev_flags e) r (ev_timestamp_ms e) (ev_value e)
    (ev_peer_id e) (ev_chat_id e) (ev_title e) (ev_text e) (ev_data e).

Definition with_chat_id (c : option string) (e : Event) : Event :=
  mkEvent (ev_kind e) (ev_flags e) (ev_request_id e) (ev_timestamp_ms e) (ev_value e)
    (ev_peer_id e) c (ev_title e) (ev_text e) (ev_data e).

Definition with_peer_id (p : option string) (e : Event) : Event :=
  mkEvent (ev_kind e) (ev_flags e) (ev_request_id e) (ev_timestamp_ms e) (ev_value e)
    p (ev_chat_id e) (ev_title e) (ev_text e) (ev_data e).

(** [Event::request_error]. *)
Definition request_error (request_id : N) (message : string) : Event :=
  with_request_id request_id (error message false).

(** [Event::transient_error]. *)
Definition transient_error (message : string) : Event :=
  with_flags FLAG_TRANSIENT (error message false).

(** [Event::transient_request_error]. *)
Definition transient_request_error (request_id : N) (message : string) : Event :=
  with_flags FLAG_TRANSIENT (request_error request_id message).

(** [Event::group_request_error]. *)
Definition group_request_error (request_id : N) (chat_id message : string) : Event :=
  with_request_id request_id (with_chat_id (Some chat_id) (error message false)).

(** ** The owned C copy *)

(** [#[repr(C)]] places each field at the next multiple of its alignment and
    pads the struct to a multiple of the largest one.  A field is given by its
    size and alignment. *)
Definition align_up (a n : N) : N := ((n + a - 1) / a * a)%N.

Fixpoint repr_c_offsets (fields : list (N * N)) (offset : N) : list N * N :=
  match fields with
  | [] => ([], offset)
  | (size, align) :: rest =>
      let here := align_up align offset in
      let '(os, e) := repr_c_offsets rest (here + size)%N in
      (here :: os, e)
  end.

Definition repr_c_align (fields : list (N * N)) : N :=
  foldr (λ f a, N.max (snd f) a) 1%N fields.

Definition repr_c_size (fields : list (N * N)) : N :=
  align_up (repr_c_align fields) (snd (repr_c_offsets fields 0)).

(** The fields of [SignalEvent] in order: four [u32], two [u64], one [i32],
    four C-string pointers, the data pointer and its length. *)
Definition SignalEvent_fields : list (N * N) :=
  [(4, 4); (4, 4); (4, 4); (4, 4); (8, 8); (8, 8); (4, 4);
   (8, 8); (8, 8); (8, 8); (8, 8); (8, 8); (8, 8)]%N.

(** What the C side reads through a [*const SignalEvent].  A C-string pointer
    is [None] when null and otherwise the bytes of its NUL-terminated buffer;
    the data pointer is [None] when null. *)
Record SignalEvent := mkSignalEvent {
  se_abi_version : N;
  se_struct_size : N;
  se_kind : N;
  se_flags : N;
  se_request_id : N;
  se_timestamp_ms : N;
  se_value : Z;
  se_peer_id : option string;
  se_chat_id : option string;
  se_title : option string;
  se_text : option string;
  se_data : option (list byte);
  se_data_len : N;
}.

(** U+FFFD in UTF-8. *)
Definition replacement_character : string :=
  String "239"%char (String "191"%char (String "189"%char "")).

Definition is_nul (c : ascii) : bool := Ascii.eqb c "000"%char.

(** [value.replace('\0', "\u{FFFD}")]. *)
Fixpoint replace_nul (s : string) : string :=
  match s with
  | "" => ""
  | String c s' => if is_nul c then replacement_character +:+ replace_nul s' else String c (replace_nul s')
  end.

Fixpoint has_nul (s : string) : bool :=
  match s with "" => false | String c s' => is_nul c || has_nul s' end.

(** [CString::new]: fails on an interior NUL, otherwise appends the terminator. *)
Definition CString_new (s : string) : option string :=
  if has_nul s then None else Some (s +:+ String "000"%char "").

(** What [strlen]-style C code reads from a buffer: the bytes before the first NUL. *)
Fixpoint c_read (buffer : string) : string :=
  match buffer with
  | "" => ""
  | String c s => if is_nul c then "" else String c (c_read s)
  end.

(** [c_string]: the [expect] in it panics when [CString::new] fails, which the
    outer [None] stands for. *)
Definition c_string (value : option string) : option (option string) :=
  match value with
  | None => Some None
  | Some v => match CString_new (replace_nul v) with
              | None => None
              | Some buffer => Some (Some buffer)
              end
  end.

(** [OwnedEvent::new]; [None] when a [c_string] panics. *)
Definition OwnedEvent_new (e : Event) : option SignalEvent :=
  peer ← c_string (ev_peer_id e);
  chat ← c_string (ev_chat_id e);
  title ← c_string (ev_title e);
  text ← c_string (ev_text e);
  Some (mkSignalEvent ABI_VERSION (repr_c_size SignalEvent_fields)
    (ev_kind e) (ev_flags e) (ev_request_id e) (ev_timestamp_ms e) (ev_value e)
    peer chat title text
    (if decide (ev_data e = []) then None else Some (ev_data e))
    (len (ev_data e))).

(** The event a C caller sees: strings up to their terminator, [data_len] bytes
    behind the data pointer. *)
Definition c_view (s : SignalEvent) : Event :=
  mkEvent (se_kind s) (se_flags s) (se_request_id s) (se_timestamp_ms s) (se_value s)
    (c_read <$> se_peer_id s) (c_read <$> se_chat_id s)
    (c_read <$> se_title s) (c_read <$> se_text s)
    (take (N.to_nat (se_data_len s)) (default [] (se_data s))).

Definition sanitize (e : Event) : Event :=
  mkEvent (ev_kind e) (ev_flags e) (ev_request_id e) (ev_timestamp_ms e) (ev_value e)
    (replace_nul <$> ev_peer_id e) (replace_nul <$> ev_chat_id e)
    (replace_nul <$> ev_title e) (replace_nul <$> ev_text e) (ev_data e).

(** ** Lemmas *)

Lemma has_nul_app (a b : string) : has_nul (a +:+ b) = has_nul a || has_nul b.
Proof. induction a as [|c a IH]; simpl; [done|]. by rewrite IH, orb_assoc. Qed.

Lemma replace_nul_has_nul (s : string) : has_nul (replace_nul s) = false.
Proof.
  induction s as [|c s IH]; simpl; [done|].
  destruct (is_nul c) eqn:Hc; [|by simpl; rewrite Hc].
  by rewrite has_nul_app, IH.
Qed.

Lemma c_read_terminated (s rest : string) :
  has_nul s = false → c_read (s +:+ String "000"%char rest) = s.
Proof.
  induction s as [|c s IH]; simpl; [done|].
  intros [Hc Hs]%orb_false_iff. by rewrite Hc, IH.
Qed.

Lemma c_string_reads (o : option string) :
  ∃ b, c_string o = Some b ∧ c_read <$> b = replace_nul <$> o.
Proof.
  destruct o as [v|]; simpl; [|by exists None].
  unfold CString_new. rewrite replace_nul_has_nul.
  eexists; split; [done|]. simpl.
  by rewrite c_read_terminated by apply replace_nul_has_nul.
Qed.

Lemma owned_event_version e s : OwnedEvent_new e = Some s → se_abi_version s = ABI_VERSION.
Proof. unfold OwnedEvent_new. intros H. by simplify_option_eq. Qed.

(** Handing an event to C never panics, and what C reads back through the
    [SignalEvent] pointers is the event itself with every NUL inside a string
    replaced by U+FFFD: numbers, flags and payload are unchanged, a null string
    pointer is read exactly for an absent string. *)
Lemma owned_event_roundtrip (e : Event) :
  ∃ s, OwnedEvent_new e = Some s ∧ c_view s = sanitize e ∧
       se_struct_size s = 88%N ∧
       (se_data s = None ↔ ev_data e = []).
Proof.
  destruct (c_string_reads (ev_peer_id e)) as (p & Hp & Hp').
  destruct (c_string_reads (ev_chat_id e)) as (c & Hc & Hc').
  destruct (c_string_reads (ev_title e)) as (ti & Hti & Hti').
  destruct (c_string_reads (ev_text e)) as (te & Hte & Hte').
  unfold OwnedEvent_new. rewrite Hp, Hc, Hti, Hte. simpl.
  eexists; split; [done|]. unfold c_view, sanitize; simpl.
  rewrite Hp', Hc', Hti', Hte'.
  repeat split.
  - f_equal. unfold len. rewrite Nat2N.id. case_decide as Hd; simpl.
    + by rewrite Hd.
    + apply take_ge. lia.
  - by case_decide.
  - intros ->. done.
Qed.
