(* ===== verification/EventQueue.v ===== *)
(** * EventQueue: the bounded event channel between the worker and C

    Models [rust/signal-core/src/event_queue.rs].  Every producer section
    (from taking the [serial] mutex, or being woken on the condition variable,
    until returning or waiting again), every [poll] and every [close] runs
    under that mutex, so each is one atomic operation on [EventQueueState].
    [System] adds the producers that are blocked in [Condvar::wait] and
    [qstep] interleaves all of them. *)
From S2P Require Import Prelude Event.

(** ** State *)

Definition MAX_QUEUED_EVENT_BYTES : N := 64 * 1024 * 1024.

(** [EventQueueState] with the channel it guards and the notification socket:
    [q_unread] is the number of bytes the reader end holds. *)
Record EventQueueState := mkQueue {
  q_capacity : N;
  q_max_queued_bytes : N;
  q_channel : list Event;
  q_receiver_alive : bool;
  q_sender_alive : bool;
  q_receiver_poisoned : bool;
  q_notification_pending : bool;
  q_closed : bool;
  q_queued_bytes : N;
  q_waiting_producers : N;
  q_unread : N;
}.

Definition set_channel (c : list Event) (q : EventQueueState) : EventQueueState :=
  mkQueue (q_capacity q) (q_max_queued_bytes q) c (q_receiver_alive q) (q_sender_alive q)
    (q_receiver_poisoned q) (q_notification_pending q) (q_closed q) (q_queued_bytes q)
    (q_waiting_producers q) (q_unread q).

Definition set_pending (b : bool) (q : EventQueueState) : EventQueueState :=
  mkQueue (q_capacity q) (q_max_queued_bytes q) (q_channel q) (q_receiver_alive q) (q_sender_alive q)
    (q_receiver_poisoned q) b (q_closed q) (q_queued_bytes q)
    (q_waiting_producers q) (q_unread q).

Definition set_closed (b : bool) (q : EventQueueState) : EventQueueState :=
  mkQueue (q_capacity q) (q_max_queued_bytes q) (q_channel q) (q_receiver_alive q) (q_sender_alive q)
    (q_receiver_poisoned q) (q_notification_pending q) b (q_queued_bytes q)
    (q_waiting_producers q) (q_unread q).

Definition set_bytes (n : N) (q : EventQueueState) : EventQueueState :=
  mkQueue (q_capacity q) (q_max_queued_bytes q) (q_channel q) (q_receiver_alive q) (q_sender_alive q)
    (q_receiver_poisoned q) (q_notification_pending q) (q_closed q) n
    (q_waiting_producers q) (q_unread q).

Definition set_waiting (n : N) (q : EventQueueState) : EventQueueState :=
  mkQueue (q_capacity q) (q_max_queued_bytes q) (q_channel q) (q_receiver_alive q) (q_sender_alive q)
    (q_receiver_poisoned q) (q_notification_pending q) (q_closed q) (q_queued_bytes q)
    n (q_unread q).

Definition set_unread (n : N) (q : EventQueueState) : EventQueueState :=
  mkQueue (q_capacity q) (q_max_queued_bytes q) (q_channel q) (q_receiver_alive q) (q_sender_alive q)
    (q_receiver_poisoned q) (q_notification_pending q) (q_closed q) (q_queued_bytes q)
    (q_waiting_producers q) n.

(** [event_queue_with_byte_limit]; [os] is the outcome of the three socket
    calls ([UnixStream::pair] and the two [set_nonblocking]). *)
Definition event_queue_with_byte_limit (os : result unit string) (capacity max_queued_bytes : N)
  : result EventQueueState string :=
  if (capacity =? 0)%N then Err "event queue capacity must be positive"
  else match os with
       | Err e => Err e
       | Ok _ => Ok (mkQueue capacity max_queued_bytes [] true true false false false 0 0 0)
       end.

Definition event_queue (os : result unit string) (capacity : N) : result EventQueueState string :=
  event_queue_with_byte_limit os capacity MAX_QUEUED_EVENT_BYTES.

(** ** The notification socket *)

Inductive write_result :=
| Written (n : N)
| Interrupted
| WouldBlock
| WriteFailed.

(** The write loop of [notify_locked] over the successive results of [write];
    [None] while the loop has not returned. *)
Fixpoint notify_write (ws : list write_result) (q : EventQueueState) : option EventQueueState :=
  match ws with
  | [] => None
  | w :: rest =>
      match w with
      | Written 1 => Some (set_unread (q_unread q + 1) q)
      | Written _ => Some (set_pending false q)
      | Interrupted => notify_write rest q
      | WouldBlock => Some q
      | WriteFailed => Some (set_pending false q)
      end
  end.

Definition notify_locked (ws : list write_result) (q : EventQueueState) : option EventQueueState :=
  if q_notification_pending q then Some q else notify_write ws (set_pending true q).

(** [drain_notification] over the successive results of [read]: [Ok(n)] reads
    [n > 0] bytes of the buffer and goes on, [Ok(0)], [WouldBlock] and an error
    stop, [Interrupted] retries. *)
Inductive read_result :=
| ReadBytes (n : N)
| ReadInterrupted
| ReadStop.

Fixpoint drain_notification (rs : list read_result) (unread : N) : option N :=
  match rs with
  | [] => None
  | r :: rest =>
      match r with
      | ReadBytes 0 => Some unread
      | ReadBytes n => drain_notification rest (unread - n)%N
      | ReadInterrupted => drain_notification rest unread
      | ReadStop => Some unread
      end
  end.

(** ** Producers *)

Inductive try_send_result := Sent | Full | Disconnected.

(** [SyncSender::try_send]. *)
Definition try_send (e : Event) (q : EventQueueState) : try_send_result * EventQueueState :=
  if negb (q_receiver_alive q) then (Disconnected, q)
  else if (q_capacity q <=? len (q_channel q))%N then (Full, q)
  else (Sent, set_channel (q_channel q ++ [e]) q).

Definition over_budget (event_bytes : N) (q : EventQueueState) : bool :=
  negb (q_queued_bytes q =? 0)%N &&
  is_none_or (checked_add usize_max (q_queued_bytes q) event_bytes)
    (λ total, (q_max_queued_bytes q <? total)%N).

Inductive emit_outcome := Queued | Discarded | Waiting.

(** The counter updates around [Condvar::wait]. *)
Definition enter_wait (q : EventQueueState) : EventQueueState :=
  set_waiting (wrapping_add usize_max (q_waiting_producers q) 1) q.

Definition leave_wait (q : EventQueueState) : EventQueueState :=
  set_waiting (wrapping_sub usize_max (q_waiting_producers q) 1) q.

(** The two guarded updates [if event_bytes > 0 { queued_bytes.fetch_add/sub }]. *)
Definition add_bytes (n : N) (q : EventQueueState) : EventQueueState :=
  if (0 <? n)%N then set_bytes (wrapping_add usize_max (q_queued_bytes q) n) q else q.

Definition sub_bytes (n : N) (q : EventQueueState) : EventQueueState :=
  if (0 <? n)%N then set_bytes (wrapping_sub usize_max (q_queued_bytes q) n) q else q.

(** One turn of the loop in [EventSink::emit], with the mutex held: return, or
    wait on the condition variable (which releases it).  [None] while the
    notification write loop has not returned. *)
Definition emit_section (ws : list write_result) (e : Event) (q : EventQueueState)
  : option (emit_outcome * EventQueueState) :=
  let event_bytes := len (ev_data e) in
  if q_closed q then Some (Discarded, q)
  else if over_budget event_bytes q then Some (Waiting, enter_wait q)
  else
    match try_send e (add_bytes event_bytes q) with
    | (Sent, q') => q'' ← notify_locked ws q'; Some (Queued, q'')
    | (Full, q') => Some (Waiting, enter_wait (sub_bytes event_bytes q'))
    | (Disconnected, q') => Some (Discarded, sub_bytes event_bytes q')
    end.

(** ** Consumer *)

Inductive EventPoll :=
| PollEvent (e : Event)
| PollEmpty
| PollDisconnected.

(** [EventQueue::poll]; the returned flag says whether it signalled
    [space_available].  [rs] are the reads of [drain_notification]. *)
Definition poll (rs : list read_result) (q : EventQueueState)
  : option (EventPoll * bool * EventQueueState) :=
  if q_receiver_poisoned q then Some (PollDisconnected, false, q)
  else
    match q_channel q with
    | e :: rest =>
        let q' := set_channel rest q in
        let q'' := if decide (ev_data e = []) then q'
                   else set_bytes (wrapping_sub usize_max (q_queued_bytes q') (len (ev_data e))) q' in
        Some (PollEvent e, true, q'')
    | [] =>
        unread ← drain_notification rs (q_unread q);
        Some (if q_sender_alive q then PollEmpty else PollDisconnected,
              false, set_pending false (set_unread unread q))
    end.

(** [EventQueue::close], which also signals every waiting producer. *)
Definition close (q : EventQueueState) : EventQueueState := set_closed true q.

(** [EventQueue::drop]: [close], after which the receiver is gone. *)
Definition drop_queue (q : EventQueueState) : EventQueueState :=
  let q' := close q in
  mkQueue (q_capacity q') (q_max_queued_bytes q') (q_channel q') false (q_sender_alive q')
    (q_receiver_poisoned q') (q_notification_pending q') (q_closed q') (q_queued_bytes q')
    (q_waiting_producers q') (q_unread q').

(** ** The system of producers and one consumer *)

(** The queue, the producers blocked in [emit] (each with its event and whether
    it was signalled), and the history: events emitted so far, accepted by the
    channel, delivered by [poll], and discarded. *)
Record System := mkSystem {
  s_queue : EventQueueState;
  s_blocked : list (Event * bool);
  s_emitted : list Event;
  s_accepted : list Event;
  s_delivered : list Event;
  s_discarded : list Event;
}.

Definition init_system (q : EventQueueState) : System := mkSystem q [] [] [] [] [].

(** A full socket means its peer is readable; with [reliable], writes to the
    notification socket do not fail. *)
Definition legal_writes (reliable : bool) (q : EventQueueState) (ws : list write_result) : Prop :=
  (WouldBlock ∈ ws → (0 < q_unread q)%N) ∧
  (reliable = true → Forall (λ w, w = Written 1 ∨ w = Interrupted ∨ w = WouldBlock) ws).

(** The system after a producer section for event [e] ended with [out]: the
    producer is kept at its place among [before] and [after] if it waits. *)
Definition after_section (s : System) (e : Event) (before after : list (Event * bool))
  (out : emit_outcome) (q : EventQueueState) : System :=
  match out with
  | Queued => mkSystem q (before ++ after) (s_emitted s) (s_accepted s ++ [e]) (s_delivered s) (s_discarded s)
  | Discarded => mkSystem q (before ++ after) (s_emitted s) (s_accepted s) (s_delivered s) (s_discarded s ++ [e])
  | Waiting => mkSystem q (before ++ (e, false) :: after) (s_emitted s) (s_accepted s) (s_delivered s) (s_discarded s)
  end.

Definition note_emitted (e : Event) (s : System) : System :=
  mkSystem (s_queue s) (s_blocked s) (s_emitted s ++ [e]) (s_accepted s) (s_delivered s) (s_discarded s).

Definition notify_all (bl : list (Event * bool)) : list (Event * bool) :=
  (λ p, (p.1, true)) <$> bl.

Definition after_poll (s : System) (p : EventPoll) (signalled : bool) (q : EventQueueState) : System :=
  mkSystem q (if signalled then notify_all (s_blocked s) else s_blocked s)
    (s_emitted s) (s_accepted s)
    (match p with PollEvent e => s_delivered s ++ [e] | _ => s_delivered s end)
    (s_discarded s).

(** A new call of [emit], a blocked producer that wakes up (signalled or
    spuriously) and runs its loop again, a [poll], or a [close]. *)
Inductive qstep (reliable : bool) : System → System → Prop :=
| qstep_emit s e ws out q :
    (len (ev_data e) <= usize_max)%N →
    legal_writes reliable (s_queue s) ws →
    emit_section ws e (s_queue s) = Some (out, q) →
    qstep reliable s (after_section (note_emitted e s) e (s_blocked s) [] out q)
| qstep_resume s e b before after ws out q :
    s_blocked s = before ++ (e, b) :: after →
    legal_writes reliable (s_queue s) ws →
    emit_section ws e (leave_wait (s_queue s)) = Some (out, q) →
    qstep reliable s (after_section s e before after out q)
| qstep_poll s rs p signalled q :
    poll rs (s_queue s) = Some (p, signalled, q) →
    qstep reliable s (after_poll s p signalled q)
| qstep_close s :
    qstep reliable s
      (mkSystem (close (s_queue s)) (notify_all (s_blocked s)) (s_emitted s) (s_accepted s)
         (s_delivered s) (s_discarded s)).

(** States the system reaches from a freshly created queue. *)
Definition reachable (reliable : bool) (capacity max_queued_bytes : N) (s : System) : Prop :=
  ∃ os q, event_queue_with_byte_limit os capacity max_queued_bytes = Ok q ∧
          rtc (qstep reliable) (init_system q) s.

(** ** Invariant *)

Definition total_bytes (l : list Event) : N := foldr (λ e n, len (ev_data e) + n)%N 0%N l.

Definition carries_data (e : Event) : Prop := ev_data e ≠ [].

#[export] Instance carries_data_dec e : Decision (carries_data e).
Proof. unfold carries_data. apply _. Defined.

(** The tests that make [emit] wait. *)
Definition must_wait (e : Event) (q : EventQueueState) : bool :=
  negb (q_closed q) &&
  (over_budget (len (ev_data e)) q || (q_capacity q <=? len (q_channel q))%N).

Record queue_ok (q : EventQueueState) : Prop := {
  ok_alive : q_receiver_alive q = true;
  ok_capacity : (0 < q_capacity q)%N;
  ok_limit : (q_max_queued_bytes q <= usize_max)%N;
  ok_bytes : q_queued_bytes q = total_bytes (q_channel q);
  ok_width : (total_bytes (q_channel q) <= usize_max)%N;
  ok_count : (len (q_channel q) <= q_capacity q)%N;
  ok_budget : (q_queued_bytes q <= q_max_queued_bytes q)%N ∨
              length (filter carries_data (q_channel q)) = 1;
  ok_trigger : q_notification_pending q = true → (0 < q_unread q)%N;
}.

Record system_ok (reliable : bool) (s : System) : Prop := {
  sys_queue : queue_ok (s_queue s);
  sys_fifo : s_accepted s = s_delivered s ++ q_channel (s_queue s);
  sys_account : s_emitted s ≡ₚ s_accepted s ++ (fst <$> s_blocked s) ++ s_discarded s;
  sys_discard : s_discarded s ≠ [] → q_closed (s_queue s) = true;
  sys_wakeup : ∀ e, (e, false) ∈ s_blocked s → must_wait e (s_queue s) = true;
  sys_blocked_width : Forall (λ p, len (ev_data p.1) <= usize_max)%N (s_blocked s);
  sys_readable : reliable = true → q_channel (s_queue s) ≠ [] →
                 q_notification_pending (s_queue s) = true;
}.

(** ** One producer section *)

Lemma total_bytes_app l k : total_bytes (l ++ k) = (total_bytes l + total_bytes k)%N.
Proof. induction l as [|e l IH]; simpl; [done|]. rewrite IH. lia. Qed.

Lemma total_bytes_zero l : total_bytes l = 0%N → filter carries_data l = [].
Proof.
  induction l as [|e l IH]; [done|]. simpl. intros H.
  rewrite filter_cons_False; [apply IH; lia|].
  unfold carries_data. intros Hne. apply Hne, len_zero. lia.
Qed.

Lemma add_sub_bytes n q :
  (q_queued_bytes q + n <= usize_max)%N → sub_bytes n (add_bytes n q) = q.
Proof.
  intros H. unfold sub_bytes, add_bytes. destruct (0 <? n)%N eqn:E; [|done].
  simpl. rewrite wrapping_add_small, wrapping_sub_small by lia.
  destruct q; simpl in *. unfold set_bytes; simpl. f_equal. lia.
Qed.

Lemma over_budget_false n q :
  over_budget n q = false →
  q_queued_bytes q = 0%N ∨
  ((q_queued_bytes q + n <= usize_max)%N ∧ (q_queued_bytes q + n <= q_max_queued_bytes q)%N).
Proof.
  unfold over_budget. intros H. apply andb_false_iff in H as [H|H]; bool_prop; [auto|].
  right. destruct (checked_add _ _ _) eqn:E; simpl in H; [|done].
  apply checked_add_Some in E as [-> ?]. bool_prop. lia.
Qed.

Lemma over_budget_mono n q q' :
  q_max_queued_bytes q' = q_max_queued_bytes q →
  (q_queued_bytes q <= q_queued_bytes q')%N →
  over_budget n q = true → over_budget n q' = true.
Proof.
  unfold over_budget. intros -> Hle H. bool_prop. apply andb_true_iff. split.
  - apply negb_true_iff, N.eqb_neq. lia.
  - unfold checked_add in *. repeat case_decide; simpl in *; bool_prop; try done; try lia.
    apply N.ltb_lt. lia.
Qed.

(** The state after the channel accepted [e], before the notification. *)
Definition pushed (e : Event) (q : EventQueueState) : EventQueueState :=
  set_channel (q_channel q ++ [e]) (add_bytes (len (ev_data e)) q).

#[local] Arguments pushed : simpl never.

(** A section ends in one of three ways, decided by [q_closed] and [must_wait]. *)
Lemma emit_section_inv ws e q out q' :
  queue_ok q → (len (ev_data e) <= usize_max)%N →
  emit_section ws e q = Some (out, q') →
  (q_closed q = true ∧ out = Discarded ∧ q' = q) ∨
  (must_wait e q = true ∧ out = Waiting ∧ q' = enter_wait q) ∨
  (q_closed q = false ∧ must_wait e q = false ∧ out = Queued ∧
   notify_locked ws (pushed e q) = Some q').
Proof.
  intros Hok Hw. unfold emit_section, must_wait.
  destruct (q_closed q) eqn:Ec; simpl; [intros; simplify_eq; auto|].
  destruct (over_budget _ q) eqn:Eb; simpl; [intros; simplify_eq; auto|].
  assert (Hfit : (q_queued_bytes q + len (ev_data e) <= usize_max)%N)
    by (destruct (over_budget_false _ _ Eb); lia).
  assert (Hcap : q_capacity (add_bytes (len (ev_data e)) q) = q_capacity q)
    by (unfold add_bytes; by case_match).
  assert (Hch : q_channel (add_bytes (len (ev_data e)) q) = q_channel q)
    by (unfold add_bytes; by case_match).
  assert (Hal : q_receiver_alive (add_bytes (len (ev_data e)) q) = true)
    by (unfold add_bytes; case_match; apply Hok).
  unfold try_send. rewrite Hcap, Hch, Hal. simpl.
  destruct (q_capacity q <=? len (q_channel q))%N eqn:Ef; intros H; simplify_eq.
  - rewrite add_sub_bytes by done. auto.
  - destruct (notify_locked _ _) eqn:En in H; simplify_eq/=. unfold pushed. auto 10.
Qed.

(** What the notification leaves alone, and what it makes of the flag. *)
Lemma notify_locked_inv reliable ws q q' :
  legal_writes reliable q ws →
  (q_notification_pending q = true → (0 < q_unread q)%N) →
  notify_locked ws q = Some q' →
  ∃ b n, q' = set_pending b (set_unread n q) ∧
    (b = true → (0 < n)%N) ∧ (reliable = true → b = true).
Proof.
  intros [Hb Hr] Hp. unfold notify_locked. destruct (q_notification_pending q) eqn:Ep.
  { intros [= <-]. exists true, (q_unread q). split_and!; auto.
    destruct q; simpl in *. unfold set_pending; simpl. by subst. }
  clear Hp. revert Hb Hr. induction ws as [|w ws IH]; intros Hb Hr; [done|].
  assert (Hb' : WouldBlock ∈ ws → (0 < q_unread q)%N) by (intros; apply Hb; by right).
  assert (Hw : reliable = true → (w = Written 1 ∨ w = Interrupted ∨ w = WouldBlock) ∧
    Forall (λ w, w = Written 1 ∨ w = Interrupted ∨ w = WouldBlock) ws)
    by (intros E; exact (proj1 (Forall_cons _ _ _) (Hr E))).
  assert (Hfail : w ≠ Written 1 → w ≠ Interrupted → w ≠ WouldBlock → reliable = true → false = true)
    by (clear -Hw; intros ??? E; destruct (Hw E) as [? _]; tauto).
  simpl. destruct w as [[|[p|p|]]| | |]; intros H; [| | | |by apply IH; [done|apply Hw|]| |]; simplify_eq.
  all: try (exists false, (q_unread q); split_and!; [done|done|by apply Hfail]).
  - exists true, (q_unread q + 1)%N. split_and!; [done|lia|done].
  - exists true, (q_unread q). split_and!; [done|intros _; apply Hb; by left|done].
Qed.

(** ** Every step preserves the invariant *)

Lemma queue_ok_unread b n q :
  queue_ok q → (b = true → (0 < n)%N) → queue_ok (set_pending b (set_unread n q)).
Proof. intros [] ?. split; simpl; done. Qed.

Lemma queue_ok_wait n q : queue_ok q → queue_ok (set_waiting n q).
Proof. intros []. split; simpl; done. Qed.

#[export] Hint Resolve queue_ok_unread queue_ok_wait : signal.

(** [pushed] changes only the channel and the byte counter. *)
Lemma pushed_fields e q :
  q_receiver_alive (pushed e q) = q_receiver_alive q ∧
  q_capacity (pushed e q) = q_capacity q ∧
  q_max_queued_bytes (pushed e q) = q_max_queued_bytes q ∧
  q_notification_pending (pushed e q) = q_notification_pending q ∧
  q_unread (pushed e q) = q_unread q ∧
  q_closed (pushed e q) = q_closed q ∧
  q_channel (pushed e q) = q_channel q ++ [e].
Proof. unfold pushed, add_bytes. by case_match. Qed.

Lemma pushed_bytes e q :
  queue_ok q → (len (ev_data e) <= usize_max)%N → over_budget (len (ev_data e)) q = false →
  q_queued_bytes (pushed e q) = (q_queued_bytes q + len (ev_data e))%N.
Proof.
  intros Hok Hw Hb. apply over_budget_false in Hb. unfold pushed, add_bytes.
  destruct (0 <? len (ev_data e))%N eqn:E; simpl; bool_prop; [|lia].
  apply wrapping_add_small. lia.
Qed.

Lemma pushed_ok e q :
  queue_ok q → (len (ev_data e) <= usize_max)%N → q_closed q = false →
  must_wait e q = false → queue_ok (pushed e q).
Proof.
  unfold must_wait. intros Hok Hw -> Hm. simpl in Hm. bool_prop.
  assert (Hb := pushed_bytes e q Hok Hw H). apply over_budget_false in H.
  destruct (pushed_fields e q) as (Ha&Hc&Hmx&Hp&Hu&_&_).
  destruct Hok as [? ? ? Hbs ? ? Hbud ?].
  split; rewrite ?Ha, ?Hc, ?Hmx, ?Hp, ?Hu, ?Hb; try done; simpl;
    rewrite ?total_bytes_app, ?len_app; simpl; change (len [e]) with 1%N; [lia..|].
  destruct H as [Hz|?]; [|lia].
  rewrite filter_app, total_bytes_zero by lia.
  destruct (decide (carries_data e)) as [Hd|Hd].
  - right. by rewrite filter_cons_True.
  - left. unfold carries_data in Hd. apply dec_stable in Hd. rewrite Hz, Hd. apply N.le_0_l.
Qed.

Lemma poll_event_ok e rest q :
  queue_ok q → q_channel q = e :: rest →
  queue_ok (if decide (ev_data e = []) then set_channel rest q
            else set_bytes (wrapping_sub usize_max (q_queued_bytes q) (len (ev_data e)))
                   (set_channel rest q)).
Proof.
  intros [? ? ? Hbs Hwd Hct Hbud ?] Hch. rewrite Hch in *. simpl in *. rewrite len_cons in Hct.
  case_decide as Hd.
  - rewrite Hd in *. split; simpl; try done; [change (len []) with 0%N in *; lia..|].
    destruct Hbud as [?|Hb]; [by left|]. right.
    rewrite filter_cons_False in Hb; [done|]. unfold carries_data. tauto.
  - rewrite Hbs, wrapping_sub_small by lia. split; simpl; try done; try lia.
    rewrite filter_cons_True in Hbud by done. simpl in Hbud.
    destruct Hbud as [?|Hb]; left; [lia|].
    assert (Hz : filter carries_data rest = []) by (destruct (filter _ rest); done).
    assert (total_bytes rest = 0%N) as Hr; [|lia].
    clear -Hz. induction rest as [|x rest IH]; [done|]. rewrite filter_cons in Hz.
    case_decide as Hx; [done|]. simpl. rewrite IH by done.
    unfold carries_data in Hx. apply dec_stable in Hx. by rewrite Hx.
Qed.

Lemma must_wait_mono e q q' :
  q_closed q' = q_closed q → q_max_queued_bytes q' = q_max_queued_bytes q →
  q_capacity q' = q_capacity q →
  (q_queued_bytes q <= q_queued_bytes q')%N → (len (q_channel q) <= len (q_channel q'))%N →
  must_wait e q = true → must_wait e q' = true.
Proof.
  unfold must_wait. intros -> Hm -> Hb Hl H. bool_prop. apply andb_true_iff. split.
  - by apply negb_true_iff.
  - apply orb_true_iff in H0 as [H0|H0]; apply orb_true_iff.
    + left. by eapply over_budget_mono.
    + right. bool_prop. apply N.leb_le. lia.
Qed.

Lemma notify_all_signalled e bl : (e, false) ∉ notify_all bl.
Proof. unfold notify_all. rewrite list_elem_of_fmap. intros ([]&?&?). simplify_eq/=. Qed.

Lemma notify_all_fst bl : fst <$> notify_all bl = fst <$> bl.
Proof. unfold notify_all. rewrite <-list_fmap_compose. done. Qed.

Lemma notify_all_width bl :
  Forall (λ p, len (ev_data p.1) <= usize_max)%N bl →
  Forall (λ p, len (ev_data p.1) <= usize_max)%N (notify_all bl).
Proof. unfold notify_all. rewrite Forall_fmap. done. Qed.

(** A producer that runs its loop body is, before and after, one of the
    blocked producers or done: [emit] starts as a producer already signalled. *)
Definition enlist_producer (e : Event) (s : System) : System :=
  mkSystem (s_queue s) (s_blocked s ++ [(e, true)]) (s_emitted s ++ [e]) (s_accepted s)
    (s_delivered s) (s_discarded s).

Lemma enlist_producer_ok reliable e s :
  system_ok reliable s → (len (ev_data e) <= usize_max)%N →
  system_ok reliable (enlist_producer e s).
Proof.
  intros [? ? Hacc ? Hwake Hbw ?] ?. split; simpl; try done.
  - rewrite Hacc, fmap_app. simpl. solve_Permutation.
  - intros e'. rewrite elem_of_app, list_elem_of_singleton. intros [?|?]; [auto|done].
  - apply Forall_app. split; [done|]. by apply Forall_singleton.
Qed.

Lemma must_wait_pushed x e q :
  queue_ok q → (len (ev_data e) <= usize_max)%N → q_closed q = false → must_wait e q = false →
  must_wait x q = true → must_wait x (pushed e q) = true.
Proof.
  intros Hq Hlen Hc Hm. destruct (pushed_fields e q) as (_&Hcap&Hmx&_&_&Hcl&Hch).
  unfold must_wait in Hm. rewrite Hc in Hm. simpl in Hm. bool_prop.
  apply must_wait_mono; rewrite ?Hch, ?len_app, ?pushed_bytes by done; done || lia.
Qed.

Lemma section_ok reliable s e b before after ws n out q' :
  system_ok reliable s → s_blocked s = before ++ (e, b) :: after →
  legal_writes reliable (s_queue s) ws →
  emit_section ws e (set_waiting n (s_queue s)) = Some (out, q') →
  system_ok reliable (after_section s e before after out q').
Proof.
  intros [Hq Hfifo Hacc Hdisc Hwake Hbw Hread] Hbl Hleg Hsec. rewrite Hbl in *.
  rewrite fmap_app in Hacc. simpl in Hacc.
  assert (Hwake' : ∀ x, (x, false) ∈ before ++ after → must_wait x (s_queue s) = true).
  { intros x Hx. apply Hwake. rewrite elem_of_app, elem_of_cons. apply elem_of_app in Hx. tauto. }
  apply Forall_app in Hbw as [Hbw1 [Hlen Hbw2]%Forall_cons]. simpl in Hlen.
  assert (Hbw' := Forall_app_2 _ _ _ Hbw1 Hbw2).
  assert (Hq' := queue_ok_wait n _ Hq).
  destruct (emit_section_inv _ _ _ _ _ Hq' Hlen Hsec)
    as [(?&->&->)|[(Hm&->&->)|(Hc&Hm&->&Hn)]].
  - split; simpl; eauto. rewrite Hacc, fmap_app. solve_Permutation.
  - split; simpl; eauto; [eauto with signal|by rewrite Hacc, fmap_app| |].
    + intros x. rewrite elem_of_app, elem_of_cons.
      intros [?|[?|?]]; simplify_eq; [|exact Hm|]; apply Hwake', elem_of_app; tauto.
    + apply Forall_app. split; [done|]. by apply Forall_cons.
  - assert (Hok := pushed_ok e _ Hq' Hlen Hc Hm).
    destruct (pushed_fields e (set_waiting n (s_queue s))) as (_&_&_&_&Hu&Hcl&Hch).
    assert (Hleg' : legal_writes reliable (pushed e (set_waiting n (s_queue s))) ws)
      by (unfold legal_writes; by rewrite Hu).
    destruct (notify_locked_inv _ _ _ _ Hleg' (ok_trigger _ Hok) Hn) as (p&u&->&Hp&Hr).
    split; simpl; eauto with signal.
    + by rewrite Hfifo, <-app_assoc.
    + rewrite Hacc, fmap_app. solve_Permutation.
    + intros x Hx. apply (must_wait_pushed x e (set_waiting n (s_queue s))); auto.
      apply Hwake', Hx.
Qed.

Lemma queue_eta q : q = set_waiting (q_waiting_producers q) q.
Proof. by destruct q. Qed.

Lemma poll_ok reliable s rs p signalled q :
  system_ok reliable s → poll rs (s_queue s) = Some (p, signalled, q) →
  system_ok reliable (after_poll s p signalled q).
Proof.
  intros [Hq Hfifo Hacc Hdisc Hwake Hbw Hread]. unfold poll.
  destruct (q_receiver_poisoned _); [intros [= <- <- <-]; by split|].
  destruct (q_channel (s_queue s)) as [|e rest] eqn:Hch.
  - intros (u&_&?)%bind_Some. simplify_eq/=.
    destruct (q_sender_alive _); split; simpl; rewrite ?Hch; auto with signal.
    all: by apply queue_ok_unread.
  - intros [= <- <- <-]. assert (Hok := poll_event_ok _ _ _ Hq Hch).
    assert (Hcl : ∀ b, q_closed (if decide (ev_data e = []) then set_channel rest (s_queue s)
      else set_bytes b (set_channel rest (s_queue s))) = q_closed (s_queue s)
      ∧ q_channel (if decide (ev_data e = []) then set_channel rest (s_queue s)
      else set_bytes b (set_channel rest (s_queue s))) = rest
      ∧ q_notification_pending (if decide (ev_data e = []) then set_channel rest (s_queue s)
      else set_bytes b (set_channel rest (s_queue s))) = q_notification_pending (s_queue s))
      by (intros; by case_decide).
    split; simpl; rewrite ?(proj1 (Hcl _)), ?(proj1 (proj2 (Hcl _))), ?(proj2 (proj2 (Hcl _))); auto.
    + by rewrite Hfifo, <-app_assoc.
    + by rewrite notify_all_fst.
    + intros x []%notify_all_signalled.
    + by apply notify_all_width.
Qed.

Lemma step_ok reliable s s' : system_ok reliable s → qstep reliable s s' → system_ok reliable s'.
Proof.
  intros Hok Hstep. destruct Hstep as [s e ws out q Hlen Hleg Hsec
    |s e b before after ws out q Hbl Hleg Hsec|s rs p sig q Hp|s].
  - apply (enlist_producer_ok _ e) in Hok; [|done]. rewrite (queue_eta (s_queue s)) in Hsec.
    apply (section_ok _ _ e true (s_blocked s) [] _ _ _ _ Hok eq_refl Hleg Hsec).
  - by eapply section_ok.
  - by eapply poll_ok.
  - destruct Hok as [[] ? ? ? ? ? ?]. split; simpl; auto; [by split|by rewrite notify_all_fst| |].
    + intros x []%notify_all_signalled.
    + by apply notify_all_width.
Qed.

(** The two limits never change. *)
Definition limits (q : EventQueueState) : N * N := (q_capacity q, q_max_queued_bytes q).

Lemma emit_section_limits ws e n q out q' :
  queue_ok q → (len (ev_data e) <= usize_max)%N →
  emit_section ws e (set_waiting n q) = Some (out, q') → limits q' = limits q.
Proof.
  intros Hq Hlen Hs. unfold limits.
  destruct (emit_section_inv _ _ _ _ _ (queue_ok_wait n _ Hq) Hlen Hs)
    as [(_&_&->)|[(_&_&->)|(Hc&Hm&->&Hn)]]; [done..|].
  destruct (pushed_fields e (set_waiting n q)) as (_&Hcap&Hmx&_).
  assert (Hw : ∀ ws q q', notify_write ws q = Some q' → limits q' = limits q).
  { clear. induction ws as [|w ws IH]; intros q q' H; simplify_eq/=.
    repeat case_match; simplify_eq/=; eauto. }
  unfold notify_locked in Hn. case_match; simplify_eq; [by rewrite Hcap, Hmx|].
  apply Hw in Hn. unfold limits in Hn. rewrite Hn. exact (f_equal2 pair Hcap Hmx).
Qed.

Lemma step_limits reliable s s' :
  system_ok reliable s → qstep reliable s s' → limits (s_queue s') = limits (s_queue s).
Proof.
  intros Hok Hstep. destruct Hstep as [s e ws out q Hlen Hleg Hsec
    |s e b before after ws out q Hbl Hleg Hsec|s rs p sig q Hp|s].
  - rewrite (queue_eta (s_queue s)) in Hsec.
    apply emit_section_limits in Hsec; [by destruct out|apply Hok|done].
  - apply emit_section_limits in Hsec; [by destruct out|apply Hok|].
    assert (Hw := sys_blocked_width _ _ Hok). rewrite Hbl in Hw.
    by apply Forall_app in Hw as [_ [? _]%Forall_cons].
  - unfold poll in Hp. unfold after_poll, limits. simpl.
    destruct (q_receiver_poisoned _); [by simplify_eq|]. destruct (q_channel _).
    + by apply bind_Some in Hp as (?&?&?); simplify_eq/=.
    + simplify_eq. by case_decide.
  - done.
Qed.

Lemma reachable_ok reliable capacity max_queued_bytes s :
  (max_queued_bytes <= usize_max)%N → reachable reliable capacity max_queued_bytes s →
  system_ok reliable s ∧ limits (s_queue s) = (capacity, max_queued_bytes).
Proof.
  intros Hm (os&q&Hq&Hrtc).
  apply (rtc_invariant (qstep reliable)
    (λ s, system_ok reliable s ∧ limits (s_queue s) = (capacity, max_queued_bytes))
    ) with (x := init_system q); [|done|].
  - intros x y [Hx Hl] Hxy. split; [by eapply step_ok|]. by rewrite (step_limits _ _ _ Hx Hxy).
  - unfold event_queue_with_byte_limit in Hq. case_match eqn:E; simplify_eq.
    destruct os; simplify_eq. bool_prop.
    split; [|done]. split; simpl; try done; [|intros ??%elem_of_nil; done].
    split; simpl; try done; unfold len; simpl; lia.
Qed.

(** ** Properties *)

(** C30. At every moment the queue holds at most [capacity] events, its byte
    counter is exactly the number of data bytes queued, and that number exceeds
    the limit only while a single queued event carries data. *)
Theorem event_queue_bounded reliable capacity max_queued_bytes s :
  (max_queued_bytes <= usize_max)%N →
  reachable reliable capacity max_queued_bytes s →
  (len (q_channel (s_queue s)) <= capacity)%N ∧
  q_queued_bytes (s_queue s) = total_bytes (q_channel (s_queue s)) ∧
  ((q_queued_bytes (s_queue s) <= max_queued_bytes)%N ∨
   length (filter carries_data (q_channel (s_queue s))) = 1).
Proof.
  intros Hm [[[] _ _ _ _ _ _] [= <- <-]]%reachable_ok; done.
Qed.

(** C29. Events are delivered in the order they were accepted, every emitted
    event is delivered, queued, held by a blocked producer or discarded, each
    exactly once, and nothing is discarded before [close]. *)
Theorem event_queue_fifo reliable capacity max_queued_bytes s :
  (max_queued_bytes <= usize_max)%N →
  reachable reliable capacity max_queued_bytes s →
  s_emitted s ≡ₚ s_delivered s ++ q_channel (s_queue s) ++ (fst <$> s_blocked s) ++ s_discarded s ∧
  s_delivered s `prefix_of` s_accepted s ∧
  (q_closed (s_queue s) = false → s_discarded s = []).
Proof.
  intros Hm [[_ Hf Ha Hd _ _ _] _]%reachable_ok; [|done]. split_and!.
  - rewrite Ha, Hf. by rewrite <-app_assoc.
  - rewrite Hf. by apply prefix_app_r.
  - intros Hc. destruct (s_discarded s); [done|]. rewrite Hd in Hc; done.
Qed.

(** C31. No wake-up is lost: a producer asleep without a signal would still have
    to wait if it looked again, and the channel then holds an event, whose
    [poll] signals it; on an empty queue no producer has to wait. *)
Theorem event_queue_no_lost_wakeup reliable capacity max_queued_bytes s e :
  (max_queued_bytes <= usize_max)%N →
  reachable reliable capacity max_queued_bytes s →
  (e, false) ∈ s_blocked s →
  must_wait e (s_queue s) = true ∧ q_channel (s_queue s) ≠ [].
Proof.
  intros Hm [[Hq _ _ _ Hw _ _] _]%reachable_ok He; [|done].
  split; [by apply Hw|]. intros Hch. specialize (Hw _ He). unfold must_wait in Hw.
  destruct Hq as [_ Hcap _ Hb _ _ _ _]. unfold over_budget in Hw. rewrite Hb, Hch in Hw. simpl in Hw.
  bool_prop. unfold len in *. simpl in *. lia.
Qed.

(** The descriptor is level triggered: while a notification is pending the
    socket is readable, and if socket writes do not fail then every queued
    event has a pending notification. *)
Theorem event_queue_level_trigger reliable capacity max_queued_bytes s :
  (max_queued_bytes <= usize_max)%N →
  reachable reliable capacity max_queued_bytes s →
  (q_notification_pending (s_queue s) = true → (0 < q_unread (s_queue s))%N) ∧
  (reliable = true → q_channel (s_queue s) ≠ [] → (0 < q_unread (s_queue s))%N).
Proof.
  intros Hm [[Hq _ _ _ _ _ Hr] _]%reachable_ok; [|done]. split; [apply Hq|].
  intros E Hne. apply Hq, Hr; done.
Qed.

(** ** A run: one event queued, a second producer blocked *)

Definition demo_event (text : string) : Event :=
  mkEvent 0 0 0 0 0 None None None (Some text) (bytes_of "png").

Definition demo_queue : EventQueueState :=
  mkQueue 1 10 [] true true false false false 0 0 0.

Definition demo_step (s : System) (e : Event) : System :=
  match emit_section [Interrupted; Written 1] e (s_queue s) with
  | Some (out, q) => after_section (note_emitted e s) e (s_blocked s) [] out q
  | None => s
  end.

Definition demo : System := demo_step (demo_step (init_system demo_queue) (demo_event "a")) (demo_event "b").

Lemma demo_legal s : legal_writes true (s_queue s) [Interrupted; Written 1].
Proof.
  split; [|intros _; apply Forall_cons; split; [auto|]; apply Forall_singleton; auto].
  rewrite !elem_of_cons. intros [?|[?|?%elem_of_nil]]; done.
Qed.

Lemma demo_reachable : reachable true 1 10 demo.
Proof.
  exists (Ok tt), demo_queue. split; [done|].
  eapply rtc_l; [|eapply rtc_l; [|apply rtc_refl]].
  - apply qstep_emit with (e := demo_event "a") (ws := [Interrupted; Written 1]);
      [vm_compute; discriminate|apply demo_legal|reflexivity].
  - apply qstep_emit with (e := demo_event "b") (ws := [Interrupted; Written 1]);
      [vm_compute; discriminate|apply demo_legal|reflexivity].
Qed.

Lemma event_queue_bounded_witness :
  q_queued_bytes (s_queue demo) = 3%N ∧ (q_queued_bytes (s_queue demo) <= 10)%N ∨
  length (filter carries_data (q_channel (s_queue demo))) = 1.
Proof.
  destruct (event_queue_bounded true 1 10 demo ltac:(done) demo_reachable) as (_&_&[H|H]);
    [left; by split|by right].
Defined.

Lemma event_queue_fifo_witness : s_delivered demo `prefix_of` s_accepted demo.
Proof. apply (event_queue_fifo true 1 10 demo ltac:(done) demo_reachable). Defined.

Lemma event_queue_no_lost_wakeup_witness :
  (demo_event "b", false) ∈ s_blocked demo ∧ must_wait (demo_event "b") (s_queue demo) = true.
Proof.
  assert (H : (demo_event "b", false) ∈ s_blocked demo) by (vm_compute; left).
  split; [exact H|].
  apply (event_queue_no_lost_wakeup true 1 10 demo (demo_event "b") ltac:(done) demo_reachable H).
Defined.

Lemma event_queue_level_trigger_witness : (0 < q_unread (s_queue demo))%N.
Proof.
  apply (event_queue_level_trigger true 1 10 demo ltac:(done) demo_reachable); [reflexivity|].
  vm_compute; discriminate.
Defined.
