(* ===== verification/Acknowledgment.v ===== *)
(** * Acknowledgment: the inbox of delivery acknowledgments

    Models [rust/signal-core/src/acknowledgment.rs].  The C side calls
    [ack_submit] from its own thread; the worker registers deliveries, takes
    batches of acknowledged ones and defers those whose durable completion
    failed.  Every operation holds the mutex, so it is one function on
    [AcknowledgmentState]; [ack_permit] is the permit of [tokio::sync::Notify],
    which [notify_one] stores and [wait] consumes. *)
From S2P Require Import Prelude.

Record AcknowledgmentState := mkAcknowledgments {
  ack_open : bool;
  ack_registered : gset N;
  ack_accepted : gset N;
  ack_ready : list N;
  ack_retry : list N;
  ack_permit : bool;
}.

Definition acknowledgments_new : AcknowledgmentState := mkAcknowledgments true ∅ ∅ [] [] false.

Definition ack_register (delivery_id : N) (s : AcknowledgmentState) : AcknowledgmentState :=
  mkAcknowledgments (ack_open s) ({[delivery_id]} ∪ ack_registered s) (ack_accepted s)
    (ack_ready s) (ack_retry s) (ack_permit s).

Definition ack_unregister (delivery_id : N) (s : AcknowledgmentState) : AcknowledgmentState :=
  mkAcknowledgments (ack_open s) (ack_registered s ∖ {[delivery_id]})
    (ack_accepted s ∖ {[delivery_id]})
    (filter (λ queued, queued ≠ delivery_id) (ack_ready s))
    (filter (λ queued, queued ≠ delivery_id) (ack_retry s))
    (ack_permit s).

Definition ack_submit (delivery_id : N) (s : AcknowledgmentState) : bool * AcknowledgmentState :=
  if negb (ack_open s) then (false, s)
  else if decide (delivery_id ∈ ack_registered s) then
    if decide (delivery_id ∈ ack_accepted s) then (true, s)
    else (true, mkAcknowledgments (ack_open s) (ack_registered s)
                  ({[delivery_id]} ∪ ack_accepted s) (ack_ready s ++ [delivery_id])
                  (ack_retry s) true)
  else (true, s).

Definition ack_take_ready (maximum : N) (s : AcknowledgmentState) : list N * AcknowledgmentState :=
  let count := N.to_nat (N.min maximum (len (ack_ready s))) in
  let rest := drop count (ack_ready s) in
  (take count (ack_ready s),
   mkAcknowledgments (ack_open s) (ack_registered s) (ack_accepted s) rest (ack_retry s)
     (if decide (rest = []) then ack_permit s else true)).

Definition ack_defer_retry (delivery_id : N) (s : AcknowledgmentState) : AcknowledgmentState :=
  if decide (delivery_id ∈ ack_registered s ∧ delivery_id ∈ ack_accepted s) then
    mkAcknowledgments (ack_open s) (ack_registered s) (ack_accepted s) (ack_ready s)
      (ack_retry s ++ [delivery_id]) (ack_permit s)
  else s.

Definition ack_activate_retries (s : AcknowledgmentState) : AcknowledgmentState :=
  let ready := ack_ready s ++ ack_retry s in
  mkAcknowledgments (ack_open s) (ack_registered s) (ack_accepted s) ready []
    (if decide (ready = []) then ack_permit s else true).

(** [wait] returns once a permit is there, and takes it. *)
Definition ack_wait (s : AcknowledgmentState) : option AcknowledgmentState :=
  if ack_permit s then
    Some (mkAcknowledgments (ack_open s) (ack_registered s) (ack_accepted s) (ack_ready s)
            (ack_retry s) false)
  else None.

Definition ack_close (s : AcknowledgmentState) : AcknowledgmentState :=
  mkAcknowledgments false (ack_registered s) (ack_accepted s) (ack_ready s ++ ack_retry s) []
    true.

(** ** The inbox in use

    [in_flight] are the ids taken from [ready] that the worker is completing;
    [woken] is set between [wait] and the [ack_take_ready] it leads to. *)
Record Inbox := mkInbox {
  inbox_state : AcknowledgmentState;
  in_flight : list N;
  woken : bool;
}.

Inductive ack_step : Inbox → Inbox → Prop :=
| step_register i id :
    ack_step i (mkInbox (ack_register id (inbox_state i)) (in_flight i) (woken i))
| step_unregister i id :
    ack_step i (mkInbox (ack_unregister id (inbox_state i))
                  (filter (λ x, x ≠ id) (in_flight i)) (woken i))
| step_submit i id :
    ack_step i (mkInbox (ack_submit id (inbox_state i)).2 (in_flight i) (woken i))
| step_wait i s :
    ack_wait (inbox_state i) = Some s →
    ack_step i (mkInbox s (in_flight i) true)
| step_take i maximum :
    (0 < maximum)%N →
    ack_step i (mkInbox (ack_take_ready maximum (inbox_state i)).2
                  (in_flight i ++ (ack_take_ready maximum (inbox_state i)).1) false)
| step_defer i id before after :
    in_flight i = before ++ id :: after →
    ack_step i (mkInbox (ack_defer_retry id (inbox_state i)) (before ++ after) (woken i))
| step_activate i :
    ack_step i (mkInbox (ack_activate_retries (inbox_state i)) (in_flight i) (woken i))
| step_close i :
    ack_step i (mkInbox (ack_close (inbox_state i)) (in_flight i) (woken i)).

Definition inbox_reachable (i : Inbox) : Prop :=
  rtc ack_step (mkInbox acknowledgments_new [] false) i.

(** Where every acknowledged id is. *)
Definition inbox_ids (i : Inbox) : list N :=
  ack_ready (inbox_state i) ++ ack_retry (inbox_state i) ++ in_flight i.

Record inbox_ok (i : Inbox) : Prop := {
  inbox_nodup : NoDup (inbox_ids i);
  inbox_complete : ∀ id, id ∈ inbox_ids i ↔ id ∈ ack_accepted (inbox_state i);
  inbox_registered : ack_accepted (inbox_state i) ⊆ ack_registered (inbox_state i);
  inbox_wakeup : ack_ready (inbox_state i) ≠ [] → ack_permit (inbox_state i) = true ∨ woken i = true;
}.

(** The invariant depends on the lists only up to order. *)
Lemma inbox_ok_perm i j :
  inbox_ok i → inbox_ids j ≡ₚ inbox_ids i →
  ack_accepted (inbox_state j) = ack_accepted (inbox_state i) →
  ack_registered (inbox_state j) = ack_registered (inbox_state i) →
  (ack_ready (inbox_state j) ≠ [] → ack_permit (inbox_state j) = true ∨ woken j = true) →
  inbox_ok j.
Proof.
  intros [Hn Hc Hr _] Hp Ha Hg Hw. split; [by rewrite Hp|intros id; by rewrite Hp, Ha|by rewrite Ha, Hg|done].
Qed.

Lemma ack_step_ok i j : inbox_ok i → ack_step i j → inbox_ok j.
Proof.
  intros Hok Hs. destruct Hs as [i id|i id|i id|i s Hw|i n Hn|i id before after Hf|i|i].
  - destruct Hok as [? ? ? ?]. split; simpl; try done. set_solver.
  - destruct Hok as [Hn Hc Hr Hw].
    assert (Hids : inbox_ids (mkInbox (ack_unregister id (inbox_state i))
      (filter (λ x, x ≠ id) (in_flight i)) (woken i)) = filter (λ x, x ≠ id) (inbox_ids i))
      by (unfold inbox_ids; simpl; by rewrite !filter_app).
    split; [rewrite Hids; by apply NoDup_filter| |simpl; set_solver|simpl; intros Hne; apply Hw].
    + intros x. rewrite Hids, list_elem_of_filter, Hc. simpl. set_solver.
    + intros E. by rewrite E in Hne.
  - unfold ack_submit. destruct (ack_open _); simpl; [|by destruct i].
    case_decide as Hreg; [|by destruct i]. case_decide as Hacc; [by destruct i|].
    destruct Hok as [Hn Hc Hr Hw].
    assert (Hp : inbox_ids (mkInbox (mkAcknowledgments (ack_open (inbox_state i))
      (ack_registered (inbox_state i)) ({[id]} ∪ ack_accepted (inbox_state i))
      (ack_ready (inbox_state i) ++ [id]) (ack_retry (inbox_state i)) true) (in_flight i) (woken i))
      ≡ₚ id :: inbox_ids i) by (unfold inbox_ids; simpl; solve_Permutation).
    split; [rewrite Hp; constructor; [by rewrite Hc|done]| |simpl; set_solver|by left].
    intros x. rewrite Hp, elem_of_cons, Hc. simpl. set_solver.
  - unfold ack_wait in Hw. destruct (ack_permit _); simplify_eq.
    apply (inbox_ok_perm i); simpl; auto.
  - apply (inbox_ok_perm i); simpl; auto.
    + unfold inbox_ids; simpl. set (k := N.to_nat _).
      assert (E := take_drop k (ack_ready (inbox_state i))).
      set (t := take k _) in *. set (d := drop k _) in *. clearbody t d.
      rewrite <-E. solve_Permutation.
    + intros Hne. left. by rewrite decide_False.
  - unfold ack_defer_retry. destruct Hok as [Hn Hc Hr Hw].
    assert (Hid : id ∈ ack_accepted (inbox_state i))
      by (apply Hc; unfold inbox_ids; rewrite Hf; set_solver).
    rewrite decide_True by (split; [by apply Hr|done]).
    apply (inbox_ok_perm i); simpl; auto; [by split|].
    unfold inbox_ids. simpl. rewrite Hf. solve_Permutation.
  - apply (inbox_ok_perm i); simpl; auto.
    + unfold inbox_ids; simpl. solve_Permutation.
    + intros Hne. left. by rewrite decide_False.
  - apply (inbox_ok_perm i); simpl; auto. unfold inbox_ids; simpl. solve_Permutation.
Qed.

Lemma inbox_reachable_ok i : inbox_reachable i → inbox_ok i.
Proof.
  intros H. apply (rtc_invariant ack_step inbox_ok ack_step_ok _ _ H).
  split; simpl; [constructor|set_solver|set_solver|done].
Qed.

(** C32. No acknowledgment is lost or processed twice: the accepted ids are
    exactly those ready, set aside for retry, or being completed, each in one
    place only, and all of them belong to registered deliveries. *)
Theorem acknowledgments_not_lost i :
  inbox_reachable i →
  NoDup (inbox_ids i) ∧
  (∀ id, id ∈ inbox_ids i ↔ id ∈ ack_accepted (inbox_state i)) ∧
  ack_accepted (inbox_state i) ⊆ ack_registered (inbox_state i).
Proof. intros []%inbox_reachable_ok. done. Qed.

(** The worker is always going to look at a ready acknowledgment: a permit
    is stored for [wait], or the worker has been woken and is about to take. *)
Theorem acknowledgments_wakeup i :
  inbox_reachable i → ack_ready (inbox_state i) ≠ [] →
  is_Some (ack_wait (inbox_state i)) ∨ woken i = true.
Proof.
  intros [_ _ _ Hw]%inbox_reachable_ok Hne. destruct (Hw Hne) as [Hp|?]; [left|by right].
  unfold ack_wait. rewrite Hp. eauto.
Qed.

(** ** A run: two deliveries acknowledged, one taken and deferred *)

Definition demo_inbox : Inbox :=
  mkInbox
    (mkAcknowledgments true {[7%N; 8%N]} {[7%N; 8%N]} [8%N] [7%N] true) [] false.

Lemma demo_inbox_reachable : inbox_reachable demo_inbox.
Proof.
  unfold inbox_reachable.
  eapply rtc_l; [apply (step_register _ 8)|]. eapply rtc_l; [apply (step_register _ 7)|].
  eapply rtc_l; [apply (step_submit _ 7)|]. eapply rtc_l; [apply (step_submit _ 8)|].
  eapply rtc_l; [eapply step_wait; reflexivity|].
  eapply rtc_l; [apply (step_take _ 1); done|].
  eapply rtc_l; [apply (step_defer _ 7 [] []); reflexivity|].
  vm_compute. apply rtc_refl.
Qed.

Lemma acknowledgments_not_lost_witness : NoDup (inbox_ids demo_inbox).
Proof. apply (acknowledgments_not_lost demo_inbox demo_inbox_reachable). Defined.

Lemma acknowledgments_wakeup_witness :
  is_Some (ack_wait (inbox_state demo_inbox)) ∨ woken demo_inbox = true.
Proof. apply (acknowledgments_wakeup demo_inbox demo_inbox_reachable). discriminate. Defined.
