(* ===== verification/Attachment.v ===== *)
(** * Attachment: admission and cancellation of outgoing attachments

    Models [rust/signal-core/src/attachment.rs].  An [AttachmentControl] is an
    [Arc] shared by the admission table, the permit and the upload task, so
    controls live in a heap and are named by location; the lifecycle is the
    atomic byte of the source.  [AdmissionState] is guarded by its mutex: each
    operation is one function. *)
From S2P Require Import Prelude.

Definition MAX_ATTACHMENT_BYTES : N := 25 * 1024 * 1024.
Definition MAX_ADMITTED_OUTGOING_ATTACHMENT_BYTES : N := 50 * 1024 * 1024.
Definition MAX_ADMITTED_OUTGOING_ATTACHMENTS : N := 2.

Inductive AttachmentPayload :=
| PayloadData (data : list byte)
| PayloadPath (path : string).

Inductive AttachmentAdmissionError := AdmissionInvalid | AdmissionCapacity.

(** ** Controls *)

Definition ATTACHMENT_ACTIVE : N := 0.
Definition ATTACHMENT_CANCELLED : N := 1.
Definition ATTACHMENT_TERMINAL : N := 2.

(** [aborted] is the state of the [AbortHandle]. *)
Record AttachmentControlState := mkControl {
  lifecycle : N;
  aborted : bool;
}.

Abbreviation Heap := (gmap N AttachmentControlState).

Definition control_new : AttachmentControlState := mkControl ATTACHMENT_ACTIVE false.

(** [AttachmentControl::cancel]: a compare-and-exchange, then the abort. *)
Definition control_cancel (l : N) (h : Heap) : bool * Heap :=
  match h !! l with
  | Some c =>
      if (lifecycle c =? ATTACHMENT_ACTIVE)%N
      then (true, <[l := mkControl ATTACHMENT_CANCELLED true]> h)
      else (false, h)
  | None => (false, h)
  end.

Definition control_is_cancelled (l : N) (h : Heap) : bool :=
  match h !! l with
  | Some c => (lifecycle c =? ATTACHMENT_CANCELLED)%N
  | None => false
  end.

Definition control_claim_terminal (l : N) (h : Heap) : bool * Heap :=
  match h !! l with
  | Some c =>
      if (lifecycle c =? ATTACHMENT_ACTIVE)%N
      then (true, <[l := mkControl ATTACHMENT_TERMINAL (aborted c)]> h)
      else (false, h)
  | None => (false, h)
  end.

(** ** Admission *)

Record AdmissionEntry := mkEntry {
  entry_bytes : N;
  entry_control : N;
}.

Record AttachmentAdmission := mkAdmission {
  maximum_bytes : N;
  maximum_attachments : N;
  adm_bytes : N;
  adm_requests : gmap N AdmissionEntry;
  adm_heap : Heap;
}.

Record AttachmentPermit := mkPermit {
  permit_request_id : N;
  permit_control : N;
  permit_registration : bool;
}.

Definition with_limits (max_bytes max_attachments : N) : AttachmentAdmission :=
  mkAdmission max_bytes max_attachments 0 ∅ ∅.

Definition admission_new : AttachmentAdmission :=
  with_limits MAX_ADMITTED_OUTGOING_ATTACHMENT_BYTES MAX_ADMITTED_OUTGOING_ATTACHMENTS.

Definition set_heap (h : Heap) (a : AttachmentAdmission) : AttachmentAdmission :=
  mkAdmission (maximum_bytes a) (maximum_attachments a) (adm_bytes a) (adm_requests a) h.

(** [try_reserve]; the addition to [bytes] follows the [checked_add] test.
    [fresh] is the location of the new control. *)
Definition try_reserve (request_id bytes : N) (a : AttachmentAdmission)
  : result AttachmentPermit AttachmentAdmissionError * AttachmentAdmission :=
  if (request_id =? 0)%N || (bytes =? 0)%N || (MAX_ATTACHMENT_BYTES <? bytes)%N
  then (Err AdmissionInvalid, a)
  else if decide (is_Some (adm_requests a !! request_id)) then (Err AdmissionInvalid, a)
  else if (maximum_attachments a <=? N.of_nat (size (adm_requests a)))%N
       || is_none_or (checked_add usize_max (adm_bytes a) bytes) (λ total, (maximum_bytes a <? total)%N)
  then (Err AdmissionCapacity, a)
  else
    let control := fresh (dom (adm_heap a)) in
    (Ok (mkPermit request_id control true),
     mkAdmission (maximum_bytes a) (maximum_attachments a) (adm_bytes a + bytes)
       (<[request_id := mkEntry bytes control]> (adm_requests a))
       (<[control := control_new]> (adm_heap a))).

(** [AttachmentAdmission::cancel]. *)
Definition admission_cancel (request_id : N) (a : AttachmentAdmission) : bool * AttachmentAdmission :=
  match adm_requests a !! request_id with
  | Some entry => (true, set_heap (control_cancel (entry_control entry) (adm_heap a)).2 a)
  | None => (false, a)
  end.

Definition cancel_controls (ls : list N) (h : Heap) : Heap :=
  foldl (λ h l, (control_cancel l h).2) h ls.

Definition cancel_all (a : AttachmentAdmission) : AttachmentAdmission :=
  set_heap (cancel_controls (entry_control <$> (map_to_list (adm_requests a)).*2) (adm_heap a)) a.

Definition release (request_id : N) (a : AttachmentAdmission) : AttachmentAdmission :=
  match adm_requests a !! request_id with
  | Some entry =>
      mkAdmission (maximum_bytes a) (maximum_attachments a) (adm_bytes a - entry_bytes entry)
        (delete request_id (adm_requests a)) (adm_heap a)
  | None => a
  end.

(** ** Permits *)

Definition permit_is_cancelled (p : AttachmentPermit) (a : AttachmentAdmission) : bool :=
  control_is_cancelled (permit_control p) (adm_heap a).

Definition permit_claim_terminal (p : AttachmentPermit) (a : AttachmentAdmission)
  : bool * AttachmentAdmission :=
  let r := control_claim_terminal (permit_control p) (adm_heap a) in (r.1, set_heap r.2 a).

(** [take_cancellation_registration]; [None] is its panic. *)
Definition take_cancellation_registration (p : AttachmentPermit) : option AttachmentPermit :=
  if permit_registration p then Some (mkPermit (permit_request_id p) (permit_control p) false)
  else None.

(** [AttachmentPermit::drop]. *)
Definition drop_permit (p : AttachmentPermit) (a : AttachmentAdmission) : AttachmentAdmission :=
  release (permit_request_id p) a.

(** ** Permits in circulation *)

(** The table, the permits that have not been dropped, and for each control
    the operations that won its compare-and-exchange. *)
Record Circulation := mkCirculation {
  admission : AttachmentAdmission;
  permits : list AttachmentPermit;
  winners : list N;
}.

Definition win (b : bool) (l : N) (ws : list N) : list N := if b then l :: ws else ws.

(** [admission_cancel] and [cancel_all] copy the controls under the lock and
    cancel them one by one without it, so cancelling one control is a step. *)
Inductive admission_step : Circulation → Circulation → Prop :=
| adm_reserve s request_id bytes p a :
    try_reserve request_id bytes (admission s) = (Ok p, a) →
    admission_step s (mkCirculation a (p :: permits s) (winners s))
| adm_refuse s request_id bytes e a :
    try_reserve request_id bytes (admission s) = (Err e, a) →
    admission_step s (mkCirculation a (permits s) (winners s))
| adm_cancel s l :
    admission_step s
      (mkCirculation (set_heap (control_cancel l (adm_heap (admission s))).2 (admission s)) (permits s)
         (win (control_cancel l (adm_heap (admission s))).1 l (winners s)))
| adm_claim s p :
    admission_step s
      (mkCirculation (permit_claim_terminal p (admission s)).2 (permits s)
         (win (permit_claim_terminal p (admission s)).1 (permit_control p) (winners s)))
| adm_drop s before p after :
    permits s = before ++ p :: after →
    admission_step s (mkCirculation (drop_permit p (admission s)) (before ++ after) (winners s)).

Definition admission_reachable (a0 : AttachmentAdmission) (s : Circulation) : Prop :=
  rtc admission_step (mkCirculation a0 [] []) s.

(** Bytes reserved by the entries of a table. *)
Definition reserved_bytes (m : gmap N AdmissionEntry) : N :=
  map_fold (λ _ e n, entry_bytes e + n)%N 0%N m.

Record circulation_ok (s : Circulation) : Prop := {
  circ_bytes : adm_bytes (admission s) = reserved_bytes (adm_requests (admission s));
  circ_limit : (adm_bytes (admission s) <= maximum_bytes (admission s))%N;
  circ_count : (N.of_nat (size (adm_requests (admission s))) <= maximum_attachments (admission s))%N;
  circ_nodup : NoDup (permit_request_id <$> permits s);
  circ_owner : ∀ id, is_Some (adm_requests (admission s) !! id) ↔ id ∈ permit_request_id <$> permits s;
  circ_winners : NoDup (winners s);
  circ_settled : ∀ l c, adm_heap (admission s) !! l = Some c →
    (l ∈ winners s ↔ lifecycle c ≠ ATTACHMENT_ACTIVE) ∧
    (aborted c = true ↔ lifecycle c = ATTACHMENT_CANCELLED);
  circ_heap : ∀ l, l ∈ winners s → is_Some (adm_heap (admission s) !! l);
}.

(** What a compare-and-exchange on a lifecycle preserves. *)
Lemma settle_ok s l (b : bool) h :
  circulation_ok s →
  (b = false ∧ h = adm_heap (admission s)) ∨
  (b = true ∧ ∃ c c', adm_heap (admission s) !! l = Some c ∧ lifecycle c = ATTACHMENT_ACTIVE ∧
     h = <[l := c']> (adm_heap (admission s)) ∧ lifecycle c' ≠ ATTACHMENT_ACTIVE ∧
     (aborted c' = true ↔ lifecycle c' = ATTACHMENT_CANCELLED)) →
  circulation_ok (mkCirculation (set_heap h (admission s)) (permits s) (win b l (winners s))).
Proof.
  intros [? ? ? ? ? Hwn Hset Hh] [[-> ->]|[-> (c&c'&Hc&Hact&->&Hc'&Hab)]]; [by split|].
  assert (Hl : l ∉ winners s) by (intros Hin; by apply (Hset _ _ Hc)).
  split; simpl; try done.
  - by constructor.
  - intros k x. destruct (decide (k = l)) as [->|Hne].
    + rewrite lookup_insert_eq. intros [= <-]. split; [|done]. split; [done|]. by left.
    + rewrite lookup_insert_ne by done. intros Hx. destruct (Hset _ _ Hx) as [Hw ?].
      split; [|done]. rewrite <-Hw, elem_of_cons. naive_solver.
  - intros k. destruct (decide (k = l)) as [->|?]; [by rewrite lookup_insert_eq|].
    rewrite elem_of_cons, lookup_insert_ne by done. naive_solver.
Qed.

Lemma reserve_ok s request_id bytes p a :
  circulation_ok s → try_reserve request_id bytes (admission s) = (Ok p, a) →
  circulation_ok (mkCirculation a (p :: permits s) (winners s)).
Proof.
  intros [Hb Hlim Hcnt Hnd Hown Hwn Hset Hh]. unfold try_reserve.
  case_match; [done|]. case_decide as Hfresh; [done|]. apply eq_None_not_Some in Hfresh.
  case_match eqn:E; [done|]. intros. simplify_eq. bool_prop.
  destruct (checked_add _ _ _) as [t|] eqn:Et; simplify_eq/=.
  apply checked_add_Some in Et as [-> ?]. bool_prop.
  set (l := fresh _). assert (Hl : adm_heap (admission s) !! l = None)
    by (apply not_elem_of_dom, is_fresh).
  split; simpl; try done; try lia.
  - unfold reserved_bytes. rewrite map_fold_insert_L by (done || (intros; lia)). simpl.
    fold (reserved_bytes (adm_requests (admission s))). lia.
  - rewrite map_size_insert_None by done. lia.
  - constructor; [|done]. rewrite <-Hown, Hfresh. by intros [].
  - intros id. destruct (decide (id = request_id)) as [->|?].
    + rewrite lookup_insert_eq. split; [by left|done].
    + rewrite lookup_insert_ne, Hown, elem_of_cons by done. naive_solver.
  - intros k c. destruct (decide (k = l)) as [->|?].
    + rewrite lookup_insert_eq. intros [= <-]. split; [|done]. split; [|done].
      intros Hk. apply Hh in Hk as [? Hk]. congruence.
    + rewrite lookup_insert_ne by done. auto.
  - intros k Hk. destruct (decide (k = l)) as [->|?]; [by rewrite lookup_insert_eq|].
    rewrite lookup_insert_ne by done. auto.
Qed.

Lemma reserved_bytes_delete m id e :
  m !! id = Some e → reserved_bytes m = (entry_bytes e + reserved_bytes (delete id m))%N.
Proof.
  intros He. unfold reserved_bytes.
  rewrite (map_fold_delete_L (λ _ e n, (entry_bytes e + n)%N) 0%N id e m); [done|intros; lia|done].
Qed.

Lemma drop_ok s before p after :
  circulation_ok s → permits s = before ++ p :: after →
  circulation_ok (mkCirculation (drop_permit p (admission s)) (before ++ after) (winners s)).
Proof.
  intros [Hb Hlim Hcnt Hnd Hown Hwn Hset Hh] Hp. rewrite Hp, fmap_app in *. simpl in *.
  assert (Hin : is_Some (adm_requests (admission s) !! permit_request_id p))
    by (apply Hown; set_solver).
  destruct Hin as [e He]. unfold drop_permit, release. rewrite He.
  assert (Hr := reserved_bytes_delete _ _ _ He).
  apply NoDup_app in Hnd as (Hnd1&Hnd12&[Hnp Hnd2]%NoDup_cons).
  split; simpl; try done; try lia.
  - rewrite map_size_delete_Some by eauto. lia.
  - rewrite fmap_app. apply NoDup_app. split_and!; [done|set_solver|done].
  - intros id. rewrite fmap_app, elem_of_app. destruct (decide (id = permit_request_id p)) as [->|?].
    + rewrite lookup_delete_eq. split; [by intros []|]. set_solver.
    + rewrite lookup_delete_ne, Hown, elem_of_app, elem_of_cons by done. naive_solver.
Qed.

Lemma admission_step_ok s s' : circulation_ok s → admission_step s s' → circulation_ok s'.
Proof.
  intros Hok Hs. destruct Hs as [s id n p a Hr|s id n e a Hr|s l|s p|s before p after Hp].
  - by eapply reserve_ok.
  - assert (a = admission s) as ->; [|by destruct s].
    revert Hr. unfold try_reserve. by repeat case_match; intros; simplify_eq.
  - apply settle_ok; [done|]. unfold control_cancel.
    destruct (_ !! l) as [c|] eqn:Hc; [|by left]. case_match; [right|by left]. bool_prop.
    split; [done|]. by exists c, (mkControl ATTACHMENT_CANCELLED true).
  - apply settle_ok; [done|]. unfold permit_claim_terminal, control_claim_terminal. simpl.
    destruct (_ !! permit_control p) as [c|] eqn:Hc; [|by left]. case_match; [right|by left]. bool_prop.
    split; [done|]. exists c, (mkControl ATTACHMENT_TERMINAL (aborted c)).
    do 4 (split; [done|]). simpl. destruct (circ_settled _ Hok _ _ Hc) as [_ Ha].
    split; [|done]. intros Hab. apply Ha in Hab. rewrite Hab in *. done.
  - by apply drop_ok.
Qed.

Lemma admission_step_limits s s' :
  admission_step s s' →
  maximum_bytes (admission s') = maximum_bytes (admission s) ∧
  maximum_attachments (admission s') = maximum_attachments (admission s).
Proof.
  intros Hs. destruct Hs as [s id n p a Hr|s id n e a Hr|s l|s p|s before p after Hp]; try done.
  - revert Hr. unfold try_reserve. by repeat case_match; intros; simplify_eq.
  - revert Hr. unfold try_reserve. by repeat case_match; intros; simplify_eq.
  - unfold drop_permit, release. simpl. by case_match.
Qed.

Lemma admission_reachable_ok a0 s :
  a0 = with_limits (maximum_bytes a0) (maximum_attachments a0) →
  admission_reachable a0 s →
  circulation_ok s ∧ maximum_bytes (admission s) = maximum_bytes a0 ∧
  maximum_attachments (admission s) = maximum_attachments a0.
Proof.
  intros Ha Hr.
  apply (rtc_invariant admission_step (λ s, circulation_ok s ∧ maximum_bytes (admission s) = maximum_bytes a0 ∧
    maximum_attachments (admission s) = maximum_attachments a0)) with (x := mkCirculation a0 [] []);
    [|done|].
  - intros x y (Hx&H1&H2) Hxy. destruct (admission_step_limits _ _ Hxy) as [E1 E2].
    rewrite E1, E2. split; [by eapply admission_step_ok|done].
  - split; [|done]. rewrite Ha. split; simpl; try done; try lia.
    + apply N.le_0_l.
    + constructor.
    + intros id. rewrite lookup_empty. split; [by intros []|by intros ?%elem_of_nil].
    + constructor.
    + by intros ? ?%elem_of_nil.
Qed.

(** ** Properties *)

(** C34. At any time the reserved bytes are the sum over the admitted requests
    and stay within 50 MiB, at most two requests are admitted, the admitted
    requests are exactly those of the live permits, and when the last permit
    is dropped nothing stays reserved. *)
Theorem attachment_admission_bounded s :
  admission_reachable admission_new s →
  adm_bytes (admission s) = reserved_bytes (adm_requests (admission s)) ∧
  (adm_bytes (admission s) <= MAX_ADMITTED_OUTGOING_ATTACHMENT_BYTES)%N ∧
  (N.of_nat (size (adm_requests (admission s))) <= MAX_ADMITTED_OUTGOING_ATTACHMENTS)%N ∧
  (∀ id, is_Some (adm_requests (admission s) !! id) ↔ id ∈ permit_request_id <$> permits s) ∧
  (permits s = [] → adm_bytes (admission s) = 0%N).
Proof.
  intros (Hok&Hmb&Hma)%(admission_reachable_ok admission_new); [|done].
  destruct Hok as [Hb Hl Hc _ Ho _ _ _]. rewrite Hmb in Hl. rewrite Hma in Hc.
  split_and!; try done. intros Hp. rewrite Hb.
  assert (adm_requests (admission s) = ∅) as ->; [|done].
  apply map_empty. intros id. apply eq_None_not_Some. rewrite Ho, Hp. apply not_elem_of_nil.
Qed.

(** C35. Cancellation and completion race safely: each control is won at most
    once, by the one [cancel] or [claim_terminal] that returned true, and the
    upload is aborted exactly when cancellation won. *)
Theorem attachment_one_winner s :
  admission_reachable admission_new s →
  NoDup (winners s) ∧
  ∀ l c, adm_heap (admission s) !! l = Some c →
    (l ∈ winners s ↔ lifecycle c ≠ ATTACHMENT_ACTIVE) ∧
    (aborted c = true ↔ control_is_cancelled l (adm_heap (admission s)) = true).
Proof.
  intros (Hok&_)%(admission_reachable_ok admission_new); [|done].
  split; [apply Hok|]. intros l c Hc. unfold control_is_cancelled. rewrite Hc.
  destruct (circ_settled _ Hok _ _ Hc) as [? ->]. split; [done|]. by rewrite N.eqb_eq.
Qed.

(** ** Cancelling everything *)

Lemma control_cancel_settles l h c :
  h !! l = Some c →
  ∃ c', (control_cancel l h).2 !! l = Some c' ∧ lifecycle c' ≠ ATTACHMENT_ACTIVE.
Proof.
  intros Hc. unfold control_cancel. rewrite Hc. case_match eqn:E; simpl.
  - rewrite lookup_insert_eq. by eexists.
  - bool_prop. eauto.
Qed.

Lemma control_cancel_keeps l k h c :
  h !! k = Some c →
  ∃ c', (control_cancel l h).2 !! k = Some c' ∧
    (lifecycle c ≠ ATTACHMENT_ACTIVE → lifecycle c' ≠ ATTACHMENT_ACTIVE).
Proof.
  intros Hc. destruct (decide (l = k)) as [->|Hne].
  - destruct (control_cancel_settles _ _ _ Hc) as (c'&?&?). eauto.
  - exists c. unfold control_cancel. repeat case_match; simpl; rewrite ?lookup_insert_ne by done; done.
Qed.

Lemma cancel_controls_settles ls k h c :
  h !! k = Some c → lifecycle c ≠ ATTACHMENT_ACTIVE ∨ k ∈ ls →
  ∃ c', cancel_controls ls h !! k = Some c' ∧ lifecycle c' ≠ ATTACHMENT_ACTIVE.
Proof.
  revert h c. induction ls as [|l ls IH]; intros h c Hc Hk; simpl.
  - destruct Hk as [?|[]%elem_of_nil]. eauto.
  - destruct (control_cancel_keeps l k h c Hc) as (c1&Hc1&Hk1).
    destruct (decide (l = k)) as [->|Hne].
    + destruct (control_cancel_settles _ _ _ Hc) as (c2&Hc2&?). eapply IH; eauto.
    + eapply IH; [done|]. rewrite elem_of_cons in Hk. naive_solver.
Qed.

(** After [cancel_all] no admitted request can still claim completion: its
    control was already settled or is now cancelled. *)
Theorem attachment_cancel_all_settles a id entry c :
  adm_requests a !! id = Some entry → adm_heap a !! entry_control entry = Some c →
  (control_claim_terminal (entry_control entry) (adm_heap (cancel_all a))).1 = false.
Proof.
  intros He Hc. unfold cancel_all. simpl.
  destruct (cancel_controls_settles (entry_control <$> (map_to_list (adm_requests a)).*2)
              (entry_control entry) (adm_heap a) c Hc) as (c'&Hc'&Hl).
  { right. apply list_elem_of_fmap. exists entry. split; [done|].
    apply list_elem_of_fmap. exists (id, entry). split; [done|]. by apply elem_of_map_to_list. }
  unfold control_claim_terminal. rewrite Hc'. case_match; bool_prop; done.
Qed.

(** ** A run: one request reserved, cancelled, then claimed in vain *)

Definition demo_admission : AttachmentAdmission := (try_reserve 5 1000 admission_new).2.
Definition demo_permit : AttachmentPermit := mkPermit 5 (fresh (dom (∅ : Heap))) true.

Definition demo_circulation : Circulation :=
  mkCirculation (set_heap (control_cancel (permit_control demo_permit) (adm_heap demo_admission)).2
                   demo_admission) [demo_permit] [permit_control demo_permit].

Lemma demo_circulation_reachable : admission_reachable admission_new demo_circulation.
Proof.
  unfold admission_reachable.
  eapply rtc_l; [apply (adm_reserve _ 5 1000 demo_permit demo_admission); reflexivity|].
  eapply rtc_l; [apply (adm_cancel _ (permit_control demo_permit))|].
  apply rtc_refl.
Qed.

Lemma attachment_admission_bounded_witness :
  (adm_bytes (admission demo_circulation) <= MAX_ADMITTED_OUTGOING_ATTACHMENT_BYTES)%N.
Proof. apply (attachment_admission_bounded demo_circulation demo_circulation_reachable). Defined.

Lemma attachment_one_winner_witness : NoDup (winners demo_circulation).
Proof. apply (attachment_one_winner demo_circulation demo_circulation_reachable). Defined.

