(* ===== verification/Command.v ===== *)
(** * Command: the requests of the C side

    Models [rust/signal-core/src/backend/command.rs]: the configuration of a
    worker and the commands it receives. *)
From S2P Require Import Prelude Attachment.

(** [StorePassphrase], zeroed when it is dropped. *)
Record StorePassphrase := mkPassphrase { passphrase_value : string }.

Record Config := mkConfig {
  store_path : string;
  device_name : string;
  passphrase : StorePassphrase;
}.

Inductive Command :=
| SendMessage (request_id : N) (recipient message : string)
| SendGroupMessage (request_id : N) (group_key message : string)
| LeaveGroup (request_id : N) (group_key : string)
| SendAttachment (request_id : N) (recipient filename content_type : string)
    (data : AttachmentPayload) (group : bool) (permit : AttachmentPermit)
| SetTyping (request_id : N) (recipient : string) (typing : bool)
| AcceptIdentity (request_id : N) (recipient : string)
| DismissIdentity (request_id : N) (recipient : string)
| ResetSession (request_id : N) (recipient : string)
| MarkRead (request_id : N) (recipient : string) (timestamp : N).

(** The request a command answers to. *)
Definition command_request_id (command : Command) : N :=
  match command with
  | SendMessage id _ _ | SendGroupMessage id _ _ | LeaveGroup id _ | SendAttachment id _ _ _ _ _ _
  | SetTyping id _ _ | AcceptIdentity id _ | DismissIdentity id _ | ResetSession id _ | MarkRead id _ _ => id
  end.
