(* ===== verification/Session.v ===== *)
(** * Session: timestamps, metadata cache, recovery backoff and session phase

    Models the state types at the top of
    [rust/signal-core/src/backend/coordinator.rs]:
    [MessageTimestampAllocator] with its compare-and-exchange loop run by any
    number of threads, [MetadataCache], [RecoveryBackoff], [SessionState] and
    the projection dispositions. *)
From stdpp Require Import sorting.
From S2P Require Import Prelude.

Definition GROUP_SYNC_RETRY_SECS : N := 30.
Definition RECOVERY_RETRY_DELAYS_SECS : list N := [1; 2; 4; 8; 16; 32]%N.
Definition RECEIVE_EVENT_QUEUE_CAPACITY : N := 16.
Definition SHUTDOWN_CLEANUP_TIMEOUT_SECS : N := 2.
Definition SNAPSHOT_YIELD_INTERVAL : N := 64.
Definition MAX_ATTACHMENT_SIZE_BYTES : N := 50 * 1024 * 1024.
Definition MAX_ATTACHMENT_DOWNLOADS_PER_MESSAGE : N := 32.

(** ** MessageTimestampAllocator *)

Inductive exchange :=
| Exchanged (next : N)
| Observed (previous : N)
| Exhausted.

(** One turn of the loop in [next_at]: [latest] is the shared value,
    [spurious] a spurious failure of [compare_exchange_weak], [Exhausted] the
    panic of [expect]. *)
Definition next_at_turn (spurious : bool) (wall_clock_ms previous latest : N) : exchange :=
  match checked_add u64_max previous 1 with
  | None => Exhausted
  | Some minimum =>
      let next := N.max wall_clock_ms minimum in
      if negb spurious && (latest =? previous)%N then Exchanged next else Observed latest
  end.

(** [next_at] run without interference: it returns the new timestamp, which is
    also the new value of [latest]. *)
Definition next_at (wall_clock_ms latest : N) : option N :=
  match next_at_turn false wall_clock_ms latest latest with
  | Exchanged next => Some next
  | _ => None
  end.

(** Threads inside [next_at] with the wall clock they read and their view of
    [latest], and the timestamps returned so far, newest first. *)
Record Allocator := mkAllocator {
  latest : N;
  callers : list (N * N);
  issued : list N;
}.

Inductive alloc_step : Allocator → Allocator → Prop :=
| alloc_load a wall_clock_ms :
    (wall_clock_ms <= u64_max)%N →
    alloc_step a (mkAllocator (latest a) ((wall_clock_ms, latest a) :: callers a) (issued a))
| alloc_turn a before after wall_clock_ms previous spurious :
    callers a = before ++ (wall_clock_ms, previous) :: after →
    alloc_step a
      (match next_at_turn spurious wall_clock_ms previous (latest a) with
       | Exchanged next => mkAllocator next (before ++ after) (next :: issued a)
       | Observed p => mkAllocator (latest a) (before ++ (wall_clock_ms, p) :: after) (issued a)
       | Exhausted => mkAllocator (latest a) (before ++ after) (issued a)
       end).

Definition alloc_reachable (a : Allocator) : Prop := rtc alloc_step (mkAllocator 0 [] []) a.

Record alloc_ok (a : Allocator) : Prop := {
  alloc_sorted : StronglySorted N.gt (issued a);
  alloc_latest : match issued a with [] => latest a = 0%N | t :: _ => latest a = t end;
  alloc_width : Forall (λ t, 0 < t <= u64_max)%N (issued a);
  alloc_wall : Forall (λ c, c.1 <= u64_max)%N (callers a);
}.

Lemma next_at_turn_exchanged spurious w p l next :
  next_at_turn spurious w p l = Exchanged next →
  l = p ∧ next = N.max w (p + 1) ∧ (p + 1 <= u64_max)%N.
Proof.
  unfold next_at_turn. destruct (checked_add _ _ _) eqn:E; [|done].
  apply checked_add_Some in E as [-> ?]. case_match eqn:Eb; intros; simplify_eq.
  bool_prop. done.
Qed.

Lemma alloc_step_ok a b : alloc_ok a → alloc_step a b → alloc_ok b.
Proof.
  intros [Hs Hl Hw Hc] Hstep. destruct Hstep as [a w Hwall|a before after w p spurious Hcall].
  - split; simpl; try done. by apply Forall_cons.
  - rewrite Hcall in Hc. apply Forall_app in Hc as [Hc1 [Hwl Hc2]%Forall_cons]. simpl in Hwl.
    destruct (next_at_turn _ _ _ _) as [next|q|] eqn:E.
    + apply next_at_turn_exchanged in E as (<-&->&?). split; simpl; try done.
      * constructor; [done|]. destruct (issued a) as [|t ts]; [constructor|]. subst.
        apply Forall_cons. split; [lia|].
        apply StronglySorted_inv in Hs as [_ Hs]. eapply Forall_impl; [exact Hs|]. simpl. lia.
      * apply Forall_cons. split; [lia|done].
      * by apply Forall_app.
    + split; simpl; try done. apply Forall_app. split; [done|]. by apply Forall_cons.
    + split; simpl; try done. by apply Forall_app.
Qed.

Lemma alloc_reachable_ok a : alloc_reachable a → alloc_ok a.
Proof.
  intros H. apply (rtc_invariant alloc_step alloc_ok alloc_step_ok _ _ H).
  split; simpl; constructor.
Qed.

(** ** MetadataCache

    No code panics while it holds one of the two locks, so neither is ever
    poisoned and the [lock().ok()] of the source always succeeds. *)

Record MetadataCache := mkCache {
  group_index : gmap string (list byte);
  contact_names : gmap string string;
}.

Definition metadata_default : MetadataCache := mkCache ∅ ∅.

Definition group_key_for_identifier (identifier : string) (c : MetadataCache) : option (list byte) :=
  group_index c !! identifier.

Definition index_group (identifier : string) (master_key : list byte) (c : MetadataCache) : MetadataCache :=
  mkCache (<[identifier := master_key]> (group_index c)) (contact_names c).

Definition remove_group_index (identifier : string) (c : MetadataCache) : MetadataCache :=
  mkCache (delete identifier (group_index c)) (contact_names c).

Definition get_contact_name (peer_id : string) (c : MetadataCache) : option string :=
  contact_names c !! peer_id.

Definition put_contact_name (peer_id name : string) (c : MetadataCache) : MetadataCache :=
  mkCache (group_index c) (<[peer_id := name]> (contact_names c)).

(** ** Projection dispositions *)

Inductive ProjectionDisposition := AwaitingAck | Complete | Retry.

#[export] Instance ProjectionDisposition_eq_dec : EqDecision ProjectionDisposition.
Proof. solve_decision. Defined.

Record ProjectionEffect := mkEffect {
  remove_pending : bool;
  mark_projected : bool;
}.

Definition projection_effect (disposition : ProjectionDisposition) : ProjectionEffect :=
  match disposition with
  | AwaitingAck => mkEffect false false
  | Complete => mkEffect true true
  | Retry => mkEffect true false
  end.

(** ** RecoveryBackoff *)

Record RecoveryBackoff := mkBackoff { next_delay_index : N }.

(** [RecoveryBackoff::next_delay], in seconds. *)
Definition next_delay (b : RecoveryBackoff) : N * RecoveryBackoff :=
  let index := N.min (next_delay_index b) (len RECOVERY_RETRY_DELAYS_SECS - 1) in
  (nth (N.to_nat index) RECOVERY_RETRY_DELAYS_SECS 0%N,
   mkBackoff (saturating_add usize_max (next_delay_index b) 1)).

Definition reset (b : RecoveryBackoff) : RecoveryBackoff := mkBackoff 0.

(** ** SessionState *)

Inductive SessionPhase := Initializing | Recovering | Ready.
Inductive GroupSnapshotState := Pending | Authoritative | Dirty.
Inductive RecoveryTransition := Entered | Continued.

#[export] Instance SessionPhase_eq_dec : EqDecision SessionPhase.
Proof. solve_decision. Defined.
#[export] Instance GroupSnapshotState_eq_dec : EqDecision GroupSnapshotState.
Proof. solve_decision. Defined.
#[export] Instance RecoveryTransition_eq_dec : EqDecision RecoveryTransition.
Proof. solve_decision. Defined.

Record SessionState := mkSession {
  phase : SessionPhase;
  groups : GroupSnapshotState;
  recovery_backoff : RecoveryBackoff;
  last_recovery_error : option string;
}.

Definition session_default : SessionState := mkSession Initializing Pending (mkBackoff 0) None.

Definition is_recovering (s : SessionState) : bool := bool_decide (phase s = Recovering).
Definition is_ready (s : SessionState) : bool := bool_decide (phase s = Ready).

Definition groups_authoritative (s : SessionState) : bool :=
  match groups s with Authoritative | Dirty => true | Pending => false end.

Definition groups_dirty (s : SessionState) : bool := bool_decide (groups s = Dirty).

Definition set_groups (g : GroupSnapshotState) (s : SessionState) : SessionState :=
  mkSession (phase s) g (recovery_backoff s) (last_recovery_error s).

Definition note_group_content (has_group_context : bool) (s : SessionState) : SessionState :=
  if has_group_context && bool_decide (groups s = Authoritative) then set_groups Dirty s else s.

Definition mark_groups_authoritative (s : SessionState) : SessionState := set_groups Authoritative s.
Definition mark_groups_pending (s : SessionState) : SessionState := set_groups Pending s.

(** [mark_ready]; [None] is a failing [debug_assert]. *)
Definition mark_ready (s : SessionState) : option SessionState :=
  if is_ready s then None
  else Some (mkSession Ready (groups s) (recovery_backoff s) (last_recovery_error s)).

Definition reset_recovery_backoff (s : SessionState) : SessionState :=
  mkSession (phase s) (groups s) (reset (recovery_backoff s)) (last_recovery_error s).

Definition enter_recovery (error : string) (s : SessionState) : RecoveryTransition * SessionState :=
  (if is_recovering s then Continued else Entered,
   mkSession Recovering Pending (recovery_backoff s) (Some error)).

(** [next_recovery_delay]; [None] is a failing [debug_assert]. *)
Definition next_recovery_delay (s : SessionState) : option (N * SessionState) :=
  if is_recovering s then
    let d := next_delay (recovery_backoff s) in
    Some (d.1, mkSession (phase s) (groups s) d.2 (last_recovery_error s))
  else None.

(** The state machine: its operations as labels, with the transition reported
    by [enter_recovery]. *)
Inductive session_op :=
| OpNoteGroupContent (has_group_context : bool)
| OpGroupsAuthoritative
| OpGroupsPending
| OpReady
| OpResetBackoff
| OpRecover (error : string)
| OpNextDelay.

Definition session_apply (o : session_op) (s : SessionState) : option SessionState :=
  match o with
  | OpNoteGroupContent b => Some (note_group_content b s)
  | OpGroupsAuthoritative => Some (mark_groups_authoritative s)
  | OpGroupsPending => Some (mark_groups_pending s)
  | OpReady => mark_ready s
  | OpResetBackoff => Some (reset_recovery_backoff s)
  | OpRecover e => Some (enter_recovery e s).2
  | OpNextDelay => snd <$> next_recovery_delay s
  end.

Fixpoint session_run (os : list session_op) (s : SessionState) : option SessionState :=
  match os with
  | [] => Some s
  | o :: rest => session_apply o s ≫= session_run rest
  end.

(** The number of recovery episodes announced by a run ([Entered]). *)
Fixpoint episodes (os : list session_op) (s : SessionState) : nat :=
  match os with
  | [] => 0
  | o :: rest =>
      (match o with
       | OpRecover e => if decide ((enter_recovery e s).1 = Entered) then 1 else 0
       | _ => 0
       end) + match session_apply o s with Some s' => episodes rest s' | None => 0 end
  end.

Definition is_OpReady (o : session_op) : bool := match o with OpReady => true | _ => false end.
Definition readies (os : list session_op) : nat := length (List.filter is_OpReady os).

(** ** Properties *)

(** Any number of threads draw timestamps from one strictly increasing
    sequence: the newest timestamp is the largest, no two are equal. *)
Theorem timestamps_strictly_increase a :
  alloc_reachable a → StronglySorted N.gt (issued a) ∧ Forall (λ t, 0 < t <= u64_max)%N (issued a).
Proof. intros []%alloc_reachable_ok. done. Qed.

(** A step that issues a timestamp issues one that is larger than all
    before it and not before the wall clock the caller read. *)
Theorem timestamp_not_before_wall_clock a wall_clock_ms previous spurious next :
  alloc_reachable a →
  next_at_turn spurious wall_clock_ms previous (latest a) = Exchanged next →
  (wall_clock_ms <= next)%N ∧ Forall (λ t, t < next)%N (issued a).
Proof.
  intros [Hs Hl Hw _]%alloc_reachable_ok (<-&->&_)%next_at_turn_exchanged. split; [lia|].
  destruct (issued a) as [|t ts]; [constructor|]. subst. apply Forall_cons. split; [lia|].
  apply StronglySorted_inv in Hs as [_ Hs]. eapply Forall_impl; [exact Hs|]. simpl. lia.
Qed.

(** Delays drawn one after the other. *)
Fixpoint delays (n : nat) (b : RecoveryBackoff) : list N :=
  match n with
  | 0 => []
  | S k => let d := next_delay b in d.1 :: delays k d.2
  end.

Lemma next_delay_value i :
  (next_delay (mkBackoff i)).1 = (2 ^ N.min i 5)%N.
Proof.
  unfold next_delay. change (len RECOVERY_RETRY_DELAYS_SECS - 1)%N with 5%N. simpl next_delay_index.
  destruct (N.le_gt_cases i 5) as [Hi|Hi].
  - assert (i = 0 ∨ i = 1 ∨ i = 2 ∨ i = 3 ∨ i = 4 ∨ i = 5)%N as Hc by lia.
    by destruct Hc as [->|[->|[->|[->|[->| ->]]]]].
  - by replace (N.min i 5) with 5%N by lia.
Qed.

(** The delays after a reset are 1, 2, 4, 8, 16, 32 seconds and then 32
    for ever: reconnection is never given up and never waits longer. *)
Theorem recovery_delay_schedule n k :
  (N.of_nat n <= usize_max)%N → k < n →
  delays n (mkBackoff 0) !! k = Some (2 ^ N.min (N.of_nat k) 5)%N.
Proof.
  intros Hn Hk.
  assert (Hgen : ∀ n k i, (i + N.of_nat n <= usize_max)%N → k < n →
    delays n (mkBackoff i) !! k = Some (2 ^ N.min (i + N.of_nat k) 5)%N).
  { clear. induction n as [|n IH]; intros k i Hn Hk; [lia|].
    destruct k as [|k]; cbn -[next_delay N.min N.pow N.of_nat].
    - rewrite N.add_0_r. f_equal. apply next_delay_value.
    - replace (next_delay (mkBackoff i)).2 with (mkBackoff (i + 1)).
      + rewrite IH by lia. by replace (i + N.of_nat (S k))%N with (i + 1 + N.of_nat k)%N by lia.
      + unfold next_delay, saturating_add. simpl. by rewrite N.min_r by lia. }
  by rewrite (Hgen n k 0%N).
Qed.

(** One announcement per outage: over any run of session operations the
    recovery episodes announced are at most the completed connections, plus the
    one that is still open. *)
Theorem recovery_announced_once os s' :
  session_run os session_default = Some s' →
  episodes os session_default <= readies os + (if is_recovering s' then 1 else 0).
Proof.
  intros H.
  assert (Hgen : ∀ os s, session_run os s = Some s' →
    episodes os s + (if is_recovering s then 1 else 0)
      <= readies os + (if is_recovering s' then 1 else 0)).
  { clear. unfold readies. induction os as [|o os IH]; intros s H; simplify_eq/=; [done|].
    apply bind_Some in H as (s1&Hs1&Hrun). rewrite Hs1. specialize (IH s1 Hrun).
    assert (Hstep : (match o with OpRecover e => if decide ((enter_recovery e s).1 = Entered) then 1 else 0
      | _ => 0 end) + (if is_recovering s then 1 else 0)
      <= (if is_OpReady o then 1 else 0) + (if is_recovering s1 then 1 else 0)).
    { destruct s as [[] [] ? ?], o as [[]| | | | | |]; vm_compute in Hs1; simplify_eq; apply Nat.leb_le; reflexivity. }
    destruct o; simpl in *; lia. }
  specialize (Hgen _ _ H). simpl in Hgen. lia.
Qed.

(** Entering recovery invalidates the group snapshot, and it is
    authoritative again only after [mark_groups_authoritative]: group content
    waits for a snapshot of the new connection. *)
Theorem recovery_invalidates_groups error os s s' :
  session_run os (enter_recovery error s).2 = Some s' →
  OpGroupsAuthoritative ∉ os → groups_authoritative s' = false.
Proof.
  intros H Hno.
  assert (Hgen : ∀ os s, session_run os s = Some s' → OpGroupsAuthoritative ∉ os →
    groups s = Pending → groups s' = Pending).
  { clear. induction os as [|o os IH]; intros s H Hno Hg; simplify_eq/=; [done|].
    apply bind_Some in H as (s1&Hs1&Hrun). apply not_elem_of_cons in Hno as [Ho Hno].
    apply (IH s1); [done..|]. destruct o; simplify_eq/=; try done.
    - unfold note_group_content. rewrite Hg. by rewrite andb_false_r.
    - unfold mark_ready in Hs1. by case_match; simplify_eq/=.
    - unfold next_recovery_delay in Hs1. by case_match; simplify_eq/=. }
  unfold groups_authoritative. by rewrite (Hgen _ _ H Hno eq_refl).
Qed.

(** ** Runs *)

Definition demo_allocator : Allocator := mkAllocator 101 [(90, 0)]%N [101; 100]%N.

Lemma demo_allocator_reachable : alloc_reachable demo_allocator.
Proof.
  unfold alloc_reachable.
  eapply rtc_l; [apply (alloc_load _ 100); vm_compute; discriminate|].
  eapply rtc_l; [apply (alloc_turn _ [] [] 100 0 true); reflexivity|].
  eapply rtc_l; [apply (alloc_load _ 90); vm_compute; discriminate|].
  eapply rtc_l; [apply (alloc_turn _ [(90, 0)]%N [] 100 0 false); reflexivity|].
  eapply rtc_l; [apply (alloc_load _ 100); vm_compute; discriminate|].
  eapply rtc_l; [apply (alloc_turn _ [] [(90, 0)]%N 100 100 false); reflexivity|].
  apply rtc_refl.
Qed.

Lemma timestamps_strictly_increase_witness : StronglySorted N.gt (issued demo_allocator).
Proof. apply (timestamps_strictly_increase demo_allocator demo_allocator_reachable). Defined.

Definition demo_session_ops : list session_op :=
  [OpGroupsAuthoritative; OpRecover "io"; OpNextDelay; OpRecover "io"; OpNextDelay; OpReady;
   OpResetBackoff; OpRecover "io"].

Lemma recovery_invalidates_groups_witness :
  groups_authoritative (note_group_content true (enter_recovery "io" session_default).2) = false.
Proof.
  apply (recovery_invalidates_groups "io" [OpNoteGroupContent true] session_default); [reflexivity|].
  apply not_elem_of_cons. split; [discriminate|apply not_elem_of_nil].
Defined.
