(* ===== verification/GroupState.v ===== *)
(** * GroupState: groups being left and groups that were left

    Models [rust/signal-core/src/backend/group_state.rs] and the completion of
    a group leave in [backend/coordinator.rs].  The operation mutex of
    [DepartedGroups] is modelled with the code that takes it, in [Groups]. *)
From S2P Require Import Prelude Event Session.

Record GroupLeaveState := mkLeaveState {
  leaving : gset string;
  departed : gset string;
}.

Definition leave_state_default : GroupLeaveState := mkLeaveState ∅ ∅.

Inductive GroupDepartureState := Active | Leaving | Departed.

#[export] Instance GroupDepartureState_eq_dec : EqDecision GroupDepartureState.
Proof. solve_decision. Defined.

Definition departure_projection_disposition (state : GroupDepartureState) : option ProjectionDisposition :=
  match state with
  | Active => None
  | Leaving => Some Retry
  | Departed => Some Complete
  end.

Definition departure_state (identifier : string) (s : GroupLeaveState) : GroupDepartureState :=
  if decide (identifier ∈ departed s) then Departed
  else if decide (identifier ∈ leaving s) then Leaving
  else Active.

Definition departed_contains (identifier : string) (s : GroupLeaveState) : bool :=
  bool_decide (departure_state identifier s ≠ Active).

Definition is_departed (identifier : string) (s : GroupLeaveState) : bool :=
  bool_decide (identifier ∈ departed s).

Definition begin_leave (identifier : string) (s : GroupLeaveState) : GroupLeaveState :=
  mkLeaveState ({[identifier]} ∪ leaving s) (departed s).

Definition cancel_leave (identifier : string) (s : GroupLeaveState) : GroupLeaveState :=
  mkLeaveState (leaving s ∖ {[identifier]}) (departed s).

Definition mark_departed (identifier : string) (s : GroupLeaveState) : GroupLeaveState :=
  mkLeaveState (leaving s ∖ {[identifier]}) ({[identifier]} ∪ departed s).

Inductive GroupLeaveCompletion :=
| LeaveAccepted (peer_notification_sent local_group_removed : bool)
| LeaveFailed (error : string).

Definition group_leave_warning_messages (peer_notification_sent local_group_removed : bool) : list string :=
  (if peer_notification_sent then []
   else ["Signal accepted the group leave, but some remaining members could not be notified"]) ++
  (if local_group_removed then []
   else ["Signal accepted the group leave, but the encrypted local group cache could not be removed; reconnect to retry cleanup"]).

Definition group_leave_completion_events (request_id : N) (group_key : string)
  (completion : GroupLeaveCompletion) (s : GroupLeaveState) : list Event * GroupLeaveState :=
  match completion with
  | LeaveAccepted peer_notification_sent local_group_removed =>
      (with_request_id request_id (with_chat_id (Some group_key) (plain_event EVENT_GROUP_LEFT))
         :: ((λ warning, error warning false) <$>
               group_leave_warning_messages peer_notification_sent local_group_removed),
       mark_departed group_key s)
  | LeaveFailed e => ([group_request_error request_id group_key e], cancel_leave group_key s)
  end.

(** ** The leave state of one group *)

Lemma departure_state_cancel k j s :
  departure_state k (cancel_leave j s) =
    if decide (k = j) then if decide (k ∈ departed s) then Departed else Active
    else departure_state k s.
Proof. unfold departure_state, cancel_leave; simpl. repeat case_decide; set_solver. Qed.

Lemma departure_state_departed k j s :
  departure_state k (mark_departed j s) = if decide (k = j) then Departed else departure_state k s.
Proof. unfold departure_state, mark_departed; simpl. repeat case_decide; set_solver. Qed.

Inductive leave_op := OpBegin (k : string) | OpCancel (k : string) | OpDepart (k : string).

Definition leave_apply (o : leave_op) (s : GroupLeaveState) : GroupLeaveState :=
  match o with
  | OpBegin k => begin_leave k s
  | OpCancel k => cancel_leave k s
  | OpDepart k => mark_departed k s
  end.

(** ** Properties *)

(** Departure is final: whatever operations follow, a departed group stays
    departed, so its remaining content is completed and never retried. *)
Theorem departure_is_final os k s :
  departure_state k s = Departed →
  departure_projection_disposition (departure_state k (foldl (flip leave_apply) s os)) = Some Complete.
Proof.
  revert s. induction os as [|o os IH]; intros s Hs; simpl; [by rewrite Hs|].
  apply IH. assert (Hin : k ∈ departed s) by (unfold departure_state in Hs; by repeat case_decide).
  destruct o; simpl; unfold departure_state; rewrite decide_True; set_solver.
Qed.

(** The outcome of a leave: an accepted one reports GROUP_LEFT first, for
    that request and group, then one warning per cleanup that failed, and
    departs the group; a failed one reports a single group error, reopens the
    group if it was not departed, and says nothing of a departure.  No other
    group is affected. *)
Theorem group_leave_outcome request_id k j completion s :
  let r := group_leave_completion_events request_id k completion s in
  (j ≠ k → departure_state j r.2 = departure_state j s) ∧
  match completion with
  | LeaveAccepted sent removed =>
      departure_state k r.2 = Departed ∧
      length r.1 = 1 + (if sent then 0 else 1) + (if removed then 0 else 1) ∧
      ev_kind <$> head r.1 = Some EVENT_GROUP_LEFT ∧
      ev_chat_id <$> head r.1 = Some (Some k) ∧ ev_request_id <$> head r.1 = Some request_id ∧
      Forall (λ e, ev_kind e = EVENT_ERROR) (tail r.1)
  | LeaveFailed _ =>
      departure_state k r.2 = (if decide (k ∈ departed s) then Departed else Active) ∧
      length r.1 = 1 ∧
      Forall (λ e, ev_kind e = EVENT_ERROR ∧ ev_chat_id e = Some k ∧ ev_request_id e = request_id) r.1
  end.
Proof.
  destruct completion as [sent removed|e]; simpl;
    rewrite ?departure_state_departed, ?departure_state_cancel.
  - split; [intros; by rewrite decide_False|]. rewrite decide_True by done.
    destruct sent, removed; simpl; split_and!; repeat constructor.
  - split; [intros; by rewrite decide_False|]. rewrite decide_True by done.
    split_and!; repeat constructor.
Qed.

Lemma departure_is_final_witness :
  departure_projection_disposition
    (departure_state "g" (foldl (flip leave_apply) (mark_departed "g" leave_state_default)
       [OpBegin "g"; OpCancel "g"])) = Some Complete.
Proof. apply (departure_is_final [OpBegin "g"; OpCancel "g"] "g"). reflexivity. Defined.
