(* ===== verification/StoreErrors.v ===== *)
(** * StoreErrors: which errors are worth retrying

    Models [rust/signal-core/src/store/errors.rs] and the classification of
    receive and receipt errors in [backend/coordinator.rs].  The error types
    belong to sqlx, libsignal and presage: a value here holds what the code
    observes of such an error (the variant it matches, the fields it reads)
    and the text its [Display] produces; the remaining variants are one
    constructor. *)
From S2P Require Import Prelude.

(** ** Errors of the libraries *)

Inductive SqlxError :=
| PoolTimedOut
| Database (code : option string) (message : string)
| SqlxIo
| SqlxOther (display : string).

Inductive SignalProtocolError :=
| InvalidState (scope message : string)
| ProtocolOther.

Inductive SqliteStoreErrorKind :=
| StoreDb (e : SqlxError)
| StoreIo
| StoreProtocol (e : SignalProtocolError)
| StoreOther.

(** [SqliteStoreError] with its [Display] text. *)
Record SqliteStoreError := mkStoreError {
  store_kind : SqliteStoreErrorKind;
  store_text : string;
}.

(** What the code asks of a [reqwest::Error]. *)
Record ReqwestError := mkReqwest {
  is_connect : bool;
  is_timeout : bool;
  status : option N;
}.

Inductive WebsocketError :=
| HandshakeStatus (status : N)
| HandshakeOther
| WsReqwest (e : ReqwestError)
| Tungstenite
| WsOther.

Inductive ServiceError :=
| ServiceTimeout
| ServiceSendError
| ServiceIO
| RateLimitExceeded
| WsClosing
| WsError (e : WebsocketError)
| UnhandledResponseCode (status : N)
| ServiceHttp (e : ReqwestError)
| ServiceProtocol (e : SignalProtocolError)
| ServiceOther.

Inductive MessageSenderError :=
| SenderService (e : ServiceError)
| SenderProtocol (e : SignalProtocolError)
| SenderOther.

Inductive PresageErrorKind :=
| PresageIo
| PresageTimeout
| MessagePipeInterrupted
| PresageService (e : ServiceError)
| PresageSender (e : MessageSenderError)
| PresageProtocol (e : SignalProtocolError)
| PresageStore (e : SqliteStoreError)
| PresageOther.

(** [presage::Error<SqliteStoreError>] with its [Display] text. *)
Record PresageError := mkPresageError {
  presage_kind : PresageErrorKind;
  presage_text : string;
}.

(** ** store/errors.rs *)

Definition contention_message (message : string) : bool :=
  contains message "pool timed out" || contains message "timed out"
  || contains message "locked" || contains message "busy".

Definition transient_code (code : string) : bool :=
  bool_decide (code = "5") || bool_decide (code = "6")
  || starts_with code "5_" || starts_with code "6_"
  || bool_decide (code = "261") || bool_decide (code = "517") || bool_decide (code = "773")
  || bool_decide (code = "1029") || bool_decide (code = "1032").

Definition sqlx_error_is_transient (db_error : SqlxError) : bool :=
  match db_error with
  | PoolTimedOut => true
  | Database code message => is_some_and code transient_code || contention_message message
  | SqlxIo => true
  | SqlxOther display => contention_message display
  end.

Definition signal_protocol_error_is_transient (e : SignalProtocolError) : bool :=
  match e with
  | InvalidState scope message =>
      let scope_lower := to_ascii_lowercase scope in
      let message_lower := to_ascii_lowercase message in
      (bool_decide (scope_lower = "sqlite") || bool_decide (scope_lower = "presage sqlite store error")
       || contains scope_lower "sqlite")
      && (contains message_lower "pool timed out" || contains message_lower "timed out"
          || contains message_lower "locked" || contains message_lower "busy"
          || contains message_lower "code: 5" || contains message_lower "code: 6"
          || contains message_lower "code: 1032")
  | ProtocolOther => false
  end.

Definition sqlite_store_error_is_transient (e : SqliteStoreError) : bool :=
  match store_kind e with
  | StoreDb db_error => sqlx_error_is_transient db_error
  | StoreIo => true
  | StoreProtocol e => signal_protocol_error_is_transient e
  | StoreOther => false
  end.

Inductive StorageError :=
| Store (context : string) (source : SqliteStoreError)
| NotFound (context : string).

Definition storage_is_transient (e : StorageError) : bool :=
  match e with
  | Store _ source => sqlite_store_error_is_transient source
  | NotFound _ => true
  end.

(** [Display for StorageError]. *)
Definition storage_error_text (e : StorageError) : string :=
  match e with
  | Store context source => context +:+ ": " +:+ store_text source
  | NotFound context => context
  end.

(** ** backend/coordinator.rs *)

Definition retryable_http_status (status : N) : bool :=
  (status =? 408)%N || (status =? 425)%N || (status =? 429)%N
  || ((500 <=? status)%N && (status <=? 599)%N).

Definition reqwest_error_is_transient (e : ReqwestError) : bool :=
  is_connect e || is_timeout e || is_some_and (status e) retryable_http_status.

Definition websocket_error_is_transient (e : WebsocketError) : bool :=
  match e with
  | HandshakeStatus status => retryable_http_status status
  | HandshakeOther => false
  | WsReqwest e => reqwest_error_is_transient e
  | Tungstenite => true
  | WsOther => false
  end.

Definition service_error_is_transient (e : ServiceError) : bool :=
  match e with
  | ServiceTimeout | ServiceSendError | ServiceIO | RateLimitExceeded | WsClosing => true
  | WsError e => websocket_error_is_transient e
  | UnhandledResponseCode status => retryable_http_status status
  | ServiceHttp e => reqwest_error_is_transient e
  | ServiceProtocol e => signal_protocol_error_is_transient e
  | ServiceOther => false
  end.

Definition message_sender_error_is_transient (e : MessageSenderError) : bool :=
  match e with
  | SenderService e => service_error_is_transient e
  | SenderProtocol e => signal_protocol_error_is_transient e
  | SenderOther => false
  end.

Definition receive_error_is_transient (e : PresageError) : bool :=
  match presage_kind e with
  | PresageIo | PresageTimeout | MessagePipeInterrupted => true
  | PresageService e => service_error_is_transient e
  | PresageSender e => message_sender_error_is_transient e
  | PresageProtocol e => signal_protocol_error_is_transient e
  | PresageStore e => sqlite_store_error_is_transient e
  | PresageOther => false
  end.

Definition service_error_indicates_closed_websocket (e : ServiceError) : bool :=
  match e with
  | WsClosing => true
  | WsError Tungstenite => true
  | _ => false
  end.

Definition receipt_error_indicates_closed_websocket (e : PresageError) : bool :=
  match presage_kind e with
  | MessagePipeInterrupted => true
  | PresageService e => service_error_indicates_closed_websocket e
  | PresageSender (SenderService e) => service_error_indicates_closed_websocket e
  | _ => false
  end.

Inductive DeliveryReceiptFailureAction := RetryReceipt | RecoverReceipt | DiscardReceipt.

#[export] Instance DeliveryReceiptFailureAction_eq_dec : EqDecision DeliveryReceiptFailureAction.
Proof. solve_decision. Defined.

Definition delivery_receipt_failure_action (e : PresageError) : DeliveryReceiptFailureAction :=
  if negb (receive_error_is_transient e) then DiscardReceipt
  else if receipt_error_indicates_closed_websocket e then RecoverReceipt
  else RetryReceipt.

(** ** Properties *)

Lemma closed_websocket_is_transient e :
  receipt_error_indicates_closed_websocket e = true → receive_error_is_transient e = true.
Proof.
  unfold receipt_error_indicates_closed_websocket, receive_error_is_transient.
  destruct (presage_kind e) as [| | |s|[s| |]| | |]; simpl; try done.
  all: destruct s as [| | | | |[]| | | |]; done.
Qed.

(** A receipt is discarded exactly when its error is not transient, and
    the connection is rebuilt exactly when the error says the websocket is
    closed: a closed websocket never loses a receipt. *)
Theorem receipt_failure_classified e :
  (delivery_receipt_failure_action e = DiscardReceipt ↔ receive_error_is_transient e = false) ∧
  (delivery_receipt_failure_action e = RecoverReceipt ↔
   receipt_error_indicates_closed_websocket e = true).
Proof.
  assert (H := closed_websocket_is_transient e). unfold delivery_receipt_failure_action.
  destruct (receive_error_is_transient e), (receipt_error_indicates_closed_websocket e);
    simpl; try (by intuition); done.
Qed.

(** The code 1032 is SQLITE_READONLY_DBMOVED (its low byte is 8, not 5), yet it
    is retried as if it were a busy timeout. *)
Lemma readonly_dbmoved_is_retried :
  (1032 mod 256 = 8)%N ∧
  sqlx_error_is_transient (Database (Some "1032") "attempt to write a readonly database") = true.
Proof. by vm_compute. Qed.
