(* ===== verification/SignalTypes.v ===== *)
(** * SignalTypes: the data of the Signal libraries the crate works with

    Identifiers, digests, protobuf messages and store records come from
    libsignal, presage and sha2.  The identifier types and their conversions
    and the hash functions are parameters (type classes); the messages and
    records are the fields that signal-core reads or writes. *)
From S2P Require Import Prelude.

(** ** Identifiers and digests *)

(** [Aci], [ServiceId] and [Uuid] with the conversions the code calls. *)
Class SignalIds := {
  Aci : Type;
  #[global] Aci_eq_dec :: EqDecision Aci;
  ServiceId : Type;
  #[global] ServiceId_eq_dec :: EqDecision ServiceId;
  Uuid : Type;
  ServiceId_Aci : Aci → ServiceId;
  service_id_string : ServiceId → string;
  parse_from_service_id_string : string → option ServiceId;
  parse_uuid : string → option Uuid;
  Aci_from_uuid : Uuid → Aci;
}.

(** [Sha256::digest] and [hex::encode]. *)
Class Digests := {
  sha256 : list byte → list byte;
  hex_encode : list byte → string;
}.

(** Numbers of the protobuf enumerations: [attachment_pointer::Flags::Gif],
    [typing_message::Action] and [receipt_message::Type]. *)
Class ProtoEnums := {
  FLAGS_GIF : N;
  ACTION_STARTED : Z;
  ACTION_STOPPED : Z;
  RECEIPT_DELIVERY : Z;
  RECEIPT_READ : Z;
}.

(** ** Protobuf messages *)

(** [AttachmentPointer]; [ap_rest] stands for the fields the code only copies. *)
Record AttachmentPointer := mkAttachmentPointer {
  ap_content_type : option string;
  ap_size : option N;
  ap_file_name : option string;
  ap_flags : option N;
  ap_rest : list byte;
}.

Definition attachment_pointer_default : AttachmentPointer :=
  mkAttachmentPointer None None None None [].

(** [BodyRange]: the ACI of a mention, [None] for the other kinds of range. *)
Record BodyRange := mkBodyRange { br_mention_aci : option string }.

Record Preview := mkPreview {
  pv_url : option string;
  pv_title : option string;
  pv_description : option string;
}.

Record Quote := mkQuote { qt_text : option string }.
Record Reaction := mkReaction { re_emoji : option string }.

Record GroupContextV2 := mkGroupContext {
  gc_master_key : option (list byte);
  gc_revision : option N;
}.

(** [DataMessage]; [dm_delete] says whether [delete] is present. *)
Record DataMessage := mkDataMessage {
  dm_body : option string;
  dm_attachments : list AttachmentPointer;
  dm_group_v2 : option GroupContextV2;
  dm_timestamp : option N;
  dm_delete : bool;
  dm_is_view_once : option bool;
  dm_reaction : option Reaction;
  dm_body_ranges : list BodyRange;
  dm_preview : list Preview;
  dm_quote : option Quote;
}.

Record EditMessage := mkEditMessage {
  em_target_sent_timestamp : option N;
  em_data_message : option DataMessage;
}.

Record TypingMessage := mkTypingMessage {
  tm_timestamp : option N;
  tm_action : option Z;
  tm_group_id : option (list byte);
}.

Record ReceiptMessage := mkReceiptMessage {
  rm_type : option Z;
  rm_timestamp : list N;
}.

Inductive ClientOutboxKind := Direct | Group_.

#[export] Instance ClientOutboxKind_eq_dec : EqDecision ClientOutboxKind.
Proof. solve_decision. Defined.

Record ClientOutboxMessage := mkOutbox {
  ob_id : Z;
  ob_kind : ClientOutboxKind;
  ob_recipient : string;
  ob_body : string;
  ob_timestamp : N;
  ob_attempts : N;
}.

Record IdentityChangeNotice := mkNotice {
  notice_address : string;
  notice_verified : bool;
}.

(** [AttachmentSpec], whose other fields the code leaves empty. *)
Record AttachmentSpec := mkSpec {
  spec_content_type : string;
  spec_length : N;
  spec_file_name : option string;
}.

Record LeaveGroupOutcome := mkLeaveOutcome {
  peer_notification_sent : bool;
  local_group_removed : bool;
}.

(** ** Messages that carry identifiers *)

Section Types.
Context `{Ids : SignalIds}.

(** [SyncMessage::Sent]; [st_destination] is [parse_destination_service_id()]. *)
Record Sent := mkSent {
  st_destination : option ServiceId;
  st_timestamp : option N;
  st_message : option DataMessage;
  st_edit_message : option EditMessage;
}.

(** [ContentBody]; a [SyncMessage] is [SyncSent] when its content is [Sent],
    and the variants the code ignores are one constructor. *)
Inductive ContentBody :=
| BodyData (m : DataMessage)
| BodyEdit (m : EditMessage)
| BodySyncSent (s : Sent)
| BodyTyping (m : TypingMessage)
| BodyReceipt (m : ReceiptMessage)
| BodyDecryptionError
| BodyOther.

(** [Metadata]; the timestamp is [client_timestamp.timestamp_millis()]. *)
Record Metadata := mkMetadata {
  md_sender : ServiceId;
  md_destination : ServiceId;
  md_client_timestamp : Z;
  md_needs_receipt : bool;
}.

Record Content := mkContent {
  ct_metadata : Metadata;
  ct_body : ContentBody;
}.

(** [Thread]. *)
Inductive Thread :=
| ThreadContact (id : ServiceId)
| ThreadGroup (key : list byte).

Record Member := mkMember {
  member_aci : Aci;
  member_administrator : bool;
}.

Record Group := mkGroup {
  gr_title : string;
  gr_avatar : string;
  gr_revision : N;
  gr_members : list Member;
}.

(** [Contact]; the phone number is its printed form. *)
Record Contact := mkContact {
  cn_uuid : Uuid;
  cn_name : string;
  cn_phone_number : option string;
  cn_profile_key : list byte;
}.

(** [<[u8; 32]>::try_from(key).ok()]. *)
Definition master_key_of (key : list byte) : option (list byte) :=
  if decide (length key = 32) then Some key else None.

End Types.

(** ** Concrete parameters for runs

    Identifiers that are their own strings, and the numbers of the published
    protocol definitions. *)

Definition string_ids : SignalIds := {|
  Aci := string;
  ServiceId := string;
  Uuid := string;
  ServiceId_Aci := λ a, a;
  service_id_string := λ s, s;
  parse_from_service_id_string := λ s, non_empty (Some s);
  parse_uuid := λ s, non_empty (Some s);
  Aci_from_uuid := λ u, u;
|}.

Definition proto_numbers : ProtoEnums := {|
  FLAGS_GIF := 8;
  ACTION_STARTED := 0;
  ACTION_STOPPED := 1;
  RECEIPT_DELIVERY := 0;
  RECEIPT_READ := 1;
|}.

(** A digest that is injective on short keys: the key itself, printed. *)
Definition plain_digests : Digests := {|
  sha256 := λ b, b;
  hex_encode := λ b, String.string_of_list_byte b;
|}.
