(* ===== verification/Media.v ===== *)
(** * Media: attachments shown inline, GIF validation, avatars

    Models [rust/signal-core/src/backend/media.rs]: recognition of inline
    images, the GIF validator with its offsets, the MP4 probe, file names,
    transcoding around the external ffmpeg process, and the two-level avatar
    cache.  A slice index is [data !! i]: [None] is the panic of an index out
    of range, and a validator that runs out of fuel is [None] too; theorems
    show that neither happens. *)
From Stdlib Require Import Strings.Byte Strings.Ascii.
From S2P Require Import Prelude SignalTypes.

Definition MAX_INLINE_MEDIA_BYTES : N := 8 * 1024 * 1024.
Definition MAX_INLINE_GIF_EDGE : N := 8192.
Definition MAX_INLINE_GIF_PIXELS : N := 16 * 1000 * 1000.
Definition MAX_INLINE_GIF_PIXEL_FRAMES : N := 8 * 1000 * 1000.
Definition MAX_SIGNAL_GIF_TRANSCODES_PER_MESSAGE : N := 2.
Definition MAX_AVATAR_DIMENSION : N := 192.

(** ** Inline images *)

Definition GIF87a : list byte := bytes_of "GIF87a".
Definition GIF89a : list byte := bytes_of "GIF89a".
Definition JPEG_MAGIC : list byte := [xff; xd8; xff].
Definition PNG_MAGIC : list byte := [x89; x50; x4e; x47; x0d; x0a; x1a; x0a].

Definition inline_image_matches (content_type : option string) (data : list byte) : bool :=
  if (MAX_INLINE_MEDIA_BYTES <? len data)%N then false
  else
    match content_type with
    | Some ct =>
        if eq_ignore_ascii_case ct "image/jpeg" then bytes_start_with JPEG_MAGIC data
        else if eq_ignore_ascii_case ct "image/png" then bytes_start_with PNG_MAGIC data
        else if eq_ignore_ascii_case ct "image/gif"
             then bytes_start_with GIF87a data || bytes_start_with GIF89a data
        else false
    | None => false
    end.

Definition should_inline_image (outgoing : bool) (content_type : option string)
  (data : option (list byte)) : bool :=
  negb outgoing && is_some_and data (inline_image_matches content_type).

(** ** The GIF validator *)

Definition byte_N (b : byte) : N := Byte.to_N b.

(** [data[i]]. *)
Definition index (data : list byte) (i : N) : option byte := data !! N.to_nat i.

(** [gif_u16]: the two bytes at [offset], little endian. *)
Definition gif_u16 (data : list byte) (offset : N) : option N :=
  stop ← checked_add usize_max offset 2;
  if (len data <? stop)%N then None
  else
    lo ← index data offset;
    hi ← index data (offset + 1);
    Some (byte_N lo + 256 * byte_N hi)%N.

(** [advance_gif_offset]: the new offset, or [None] where the source returns
    false and leaves it. *)
Definition advance_gif_offset (offset amount size : N) : option N :=
  if (size <? offset)%N || (size - offset <? amount)%N then None else Some (offset + amount)%N.

(** [skip_gif_sub_blocks]: [Some (Some o)] returns true at offset [o],
    [Some None] returns false, [None] is an index panic or no fuel. *)
Fixpoint skip_gif_sub_blocks (fuel : nat) (data : list byte) (offset : N) : option (option N) :=
  match fuel with
  | 0 => None
  | S fuel =>
      if (offset <? len data)%N then
        size ← index data offset;
        if (byte_N size =? 0)%N then Some (Some (offset + 1)%N)
        else
          match advance_gif_offset (offset + 1) (byte_N size) (len data) with
          | None => Some None
          | Some offset => skip_gif_sub_blocks fuel data offset
          end
      else Some None
  end.

Definition color_table_size (packed : byte) : N :=
  N.shiftl 3 (N.land (byte_N packed) 7 + 1).

Definition has_color_table (packed : byte) : bool := negb (N.land (byte_N packed) 128 =? 0)%N.

(** The optional color table at [offset]. *)
Definition skip_color_table (packed : byte) (offset size : N) : option N :=
  if has_color_table packed then advance_gif_offset offset (color_table_size packed) size
  else Some offset.

(** The image descriptor after marker 0x2c at [offset]: [Some (Some (o, n))]
    goes on at [o] with [n] frames, [Some None] rejects the file. *)
Definition gif_image (fuel : nat) (data : list byte) (canvas_width canvas_height canvas_pixels : N)
  (offset frames : N) : option (option (N * N)) :=
  if (len data <? offset)%N || (len data - offset <? 9)%N then Some None
  else
    match gif_u16 data offset, gif_u16 data (offset + 2), gif_u16 data (offset + 4),
          gif_u16 data (offset + 6) with
    | Some x, Some y, Some width, Some height =>
        image_packed ← index data (offset + 8);
        if (width =? 0)%N || (height =? 0)%N
           || is_none_or (checked_add usize_max x width) (λ right, (canvas_width <? right)%N)
           || is_none_or (checked_add usize_max y height) (λ bottom, (canvas_height <? bottom)%N)
        then Some None
        else if (MAX_INLINE_GIF_PIXEL_FRAMES / canvas_pixels <? frames + 1)%N then Some None
        else
          match skip_color_table image_packed (offset + 9) (len data) with
          | None => Some None
          | Some offset =>
              if (len data <=? offset)%N then Some None
              else
                code_size ← index data offset;
                if negb ((2 <=? byte_N code_size)%N && (byte_N code_size <=? 8)%N) then Some None
                else
                  skipped ← skip_gif_sub_blocks fuel data (offset + 1);
                  Some (match skipped with Some o => Some (o, (frames + 1)%N) | None => None end)
          end
    | _, _, _, _ => Some None
    end.

(** The block loop of [bounded_inline_gif]. *)
Fixpoint gif_blocks (fuel : nat) (data : list byte) (canvas_width canvas_height canvas_pixels : N)
  (offset frames : N) : option bool :=
  match fuel with
  | 0 => None
  | S fuel =>
      if (offset <? len data)%N then
        marker ← index data offset;
        let offset := (offset + 1)%N in
        match marker with
        | x3b => Some (0 <? frames)%N
        | x21 =>
            match advance_gif_offset offset 1 (len data) with
            | None => Some false
            | Some offset =>
                skipped ← skip_gif_sub_blocks (S (length data)) data offset;
                match skipped with
                | None => Some false
                | Some offset => gif_blocks fuel data canvas_width canvas_height canvas_pixels offset frames
                end
            end
        | x2c =>
            image ← gif_image (S (length data)) data canvas_width canvas_height canvas_pixels offset frames;
            match image with
            | None => Some false
            | Some (offset, frames) =>
                gif_blocks fuel data canvas_width canvas_height canvas_pixels offset frames
            end
        | _ => Some false
        end
      else Some false
  end.

Definition bounded_inline_gif (data : list byte) : option bool :=
  if (len data <? 13)%N || (MAX_INLINE_MEDIA_BYTES <? len data)%N
     || negb (bytes_start_with GIF87a data || bytes_start_with GIF89a data)
  then Some false
  else
    match gif_u16 data 6, gif_u16 data 8 with
    | Some canvas_width, Some canvas_height =>
        match checked_mul usize_max canvas_width canvas_height with
        | None => Some false
        | Some canvas_pixels =>
            if (canvas_width =? 0)%N || (canvas_height =? 0)%N
               || (MAX_INLINE_GIF_EDGE <? canvas_width)%N || (MAX_INLINE_GIF_EDGE <? canvas_height)%N
               || (MAX_INLINE_GIF_PIXELS <? canvas_pixels)%N
            then Some false
            else
              packed ← index data 10;
              match skip_color_table packed 13 (len data) with
              | None => Some false
              | Some offset =>
                  gif_blocks (S (length data)) data canvas_width canvas_height canvas_pixels offset 0
              end
        end
    | _, _ => Some false
    end.

(** ** What a bounded GIF is

    The grammar of the files the validator accepts, on byte lists. *)

(** [sub_blocks l rest]: [l] starts with data sub-blocks up to their
    terminator, and [rest] follows. *)
Inductive sub_blocks : list byte → list byte → Prop :=
| sub_end rest : sub_blocks (x00 :: rest) rest
| sub_block size payload more rest :
    byte_N size ≠ 0%N → len payload = byte_N size → sub_blocks more rest →
    sub_blocks (size :: payload ++ more) rest.

Definition le16 (lo hi : byte) : N := (byte_N lo + 256 * byte_N hi)%N.

Definition table_bytes (packed : byte) : N :=
  if has_color_table packed then color_table_size packed else 0%N.

(** An image inside a canvas. *)
Inductive gif_frame (canvas_width canvas_height : N) : list byte → list byte → Prop :=
| frame x0 x1 y0 y1 w0 w1 h0 h1 packed table code_size more rest :
    (0 < le16 w0 w1)%N → (0 < le16 h0 h1)%N →
    (le16 x0 x1 + le16 w0 w1 <= canvas_width)%N → (le16 y0 y1 + le16 h0 h1 <= canvas_height)%N →
    len table = table_bytes packed → (2 <= byte_N code_size <= 8)%N → sub_blocks more rest →
    gif_frame canvas_width canvas_height
      ([x0; x1; y0; y1; w0; w1; h0; h1; packed] ++ table ++ code_size :: more) rest.

(** A stream of [n] images with extensions in between, up to the trailer. *)
Inductive gif_stream (canvas_width canvas_height : N) : N → list byte → Prop :=
| stream_trailer junk : gif_stream canvas_width canvas_height 0 (x3b :: junk)
| stream_extension n label more rest :
    sub_blocks more rest → gif_stream canvas_width canvas_height n rest →
    gif_stream canvas_width canvas_height n (x21 :: label :: more)
| stream_image n body rest :
    gif_frame canvas_width canvas_height body rest → gif_stream canvas_width canvas_height n rest →
    gif_stream canvas_width canvas_height (n + 1) (x2c :: body).

(** A GIF of [frames] images within the limits on size, edges and pixels. *)
Definition inline_gif (data : list byte) (frames : N) : Prop :=
  ∃ signature w0 w1 h0 h1 packed background aspect table body,
    data = signature ++ [w0; w1; h0; h1; packed; background; aspect] ++ table ++ body ∧
    (signature = GIF87a ∨ signature = GIF89a) ∧
    len table = table_bytes packed ∧
    (0 < le16 w0 w1 <= MAX_INLINE_GIF_EDGE)%N ∧ (0 < le16 h0 h1 <= MAX_INLINE_GIF_EDGE)%N ∧
    (le16 w0 w1 * le16 h0 h1 <= MAX_INLINE_GIF_PIXELS)%N ∧
    gif_stream (le16 w0 w1) (le16 h0 h1) frames body ∧
    (len data <= MAX_INLINE_MEDIA_BYTES)%N ∧ (0 < frames)%N ∧
    (frames * (le16 w0 w1 * le16 h0 h1) <= MAX_INLINE_GIF_PIXEL_FRAMES)%N.

(** *** Reading at an offset *)

Lemma index_app pre b suf : index (pre ++ b :: suf) (len pre) = Some b.
Proof. unfold index, len. rewrite Nat2N.id. by apply list_lookup_middle. Qed.

(** An offset inside a suffix whose first bytes are known. *)
Lemma index_app_plus pre known suf k b :
  known !! N.to_nat k = Some b → index (pre ++ known ++ suf) (len pre + k) = Some b.
Proof.
  intros Hk. unfold index, len. rewrite lookup_app_r by lia.
  replace (N.to_nat (N.of_nat (length pre) + k) - length pre)%nat with (N.to_nat k) by lia.
  by apply lookup_app_l_Some.
Qed.

Lemma gif_u16_app pre known suf k lo hi :
  (len (pre ++ known ++ suf) <= usize_max)%N →
  known !! N.to_nat k = Some lo → known !! N.to_nat (k + 1) = Some hi →
  gif_u16 (pre ++ known ++ suf) (len pre + k) = Some (le16 lo hi).
Proof.
  intros Hm Hlo Hhi. unfold gif_u16.
  assert (Hk := lookup_lt_Some _ _ _ Hhi).
  assert (Hle : (len pre + k + 2 <= len (pre ++ known ++ suf))%N)
    by (rewrite !len_app; unfold len; lia).
  assert (checked_add usize_max (len pre + k) 2 = Some (len pre + k + 2)%N) as ->
    by (apply checked_add_Some; lia).
  simpl. rewrite (proj2 (N.ltb_ge _ _)) by lia.
  rewrite (index_app_plus _ _ _ _ _ Hlo). simpl.
  replace (len pre + k + 1)%N with (len pre + (k + 1))%N by lia.
  by rewrite (index_app_plus _ _ _ _ _ Hhi).
Qed.

Lemma advance_app (pre suf : list byte) n :
  advance_gif_offset (len pre) n (len (pre ++ suf)) =
    if decide (n <= len suf)%N then Some (len pre + n)%N else None.
Proof.
  unfold advance_gif_offset. rewrite len_app.
  rewrite (proj2 (N.ltb_ge _ _)) by lia. simpl.
  replace (len pre + len suf - len pre)%N with (len suf) by lia.
  case_decide; [by rewrite (proj2 (N.ltb_ge _ _))|by rewrite (proj2 (N.ltb_lt _ _)) by lia].
Qed.

(** Splitting off the first [n] bytes. *)
Lemma split_at_len (suf : list byte) n :
  (n <= len suf)%N → ∃ payload more, suf = payload ++ more ∧ len payload = n.
Proof.
  intros Hn. exists (take (N.to_nat n) suf), (drop (N.to_nat n) suf).
  split; [by rewrite take_drop|]. unfold len in *. rewrite length_take. lia.
Qed.

Lemma app_len_inj (a b c d : list byte) : len a = len c → a ++ b = c ++ d → a = c ∧ b = d.
Proof. unfold len. intros Hl. apply app_inj_1. lia. Qed.

(** *** Sub-blocks *)

Lemma byte_N_zero b : byte_N b = 0%N → b = x00.
Proof. by destruct b. Qed.

Lemma sub_blocks_det l r1 r2 : sub_blocks l r1 → sub_blocks l r2 → r1 = r2.
Proof.
  intros H. revert r2. induction H as [rest|size payload more rest Hs Hp H IH]; intros r2 H2.
  - inversion H2 as [|? ? ? ? Hne]; subst; [done|]. by destruct Hne.
  - inversion H2 as [|size' payload' more' ? ? Hp' H']; subst; [done|].
    apply IH. apply app_len_inj in H3 as [_ <-]; [done|]. congruence.
Qed.

(** [skip_gif_sub_blocks] decides [sub_blocks] and stops right after them. *)
Lemma skip_gif_sub_blocks_spec fuel pre suf :
  length suf < fuel →
  ∃ r, skip_gif_sub_blocks fuel (pre ++ suf) (len pre) = Some r ∧
    match r with
    | Some o => ∃ mid rest, suf = mid ++ rest ∧ o = len (pre ++ mid) ∧ sub_blocks suf rest
    | None => ∀ rest, ¬ sub_blocks suf rest
    end.
Proof.
  revert pre suf. induction fuel as [|fuel IH]; intros pre suf Hf; [lia|]. simpl.
  destruct suf as [|b suf].
  { rewrite app_nil_r. rewrite (proj2 (N.ltb_ge _ _)) by lia. exists None.
    split; [done|]. intros rest H. inversion H. }
  rewrite (proj2 (N.ltb_lt _ _)) by (rewrite len_app, len_cons; lia).
  rewrite index_app. simpl. destruct (byte_N b =? 0)%N eqn:Eb; bool_prop.
  { apply byte_N_zero in Eb as ->. eexists. split; [done|]. exists [x00], suf.
    split_and!; [done| |constructor]. by rewrite len_app. }
  replace (len pre + 1)%N with (len (pre ++ [b])) by (by rewrite len_app).
  replace (pre ++ b :: suf) with ((pre ++ [b]) ++ suf) by (by rewrite <-app_assoc).
  rewrite advance_app. case_decide as Hn.
  - destruct (split_at_len _ _ Hn) as (payload&more&->&Hp). rewrite app_assoc, <-Hp, <-len_app.
    destruct (IH ((pre ++ [b]) ++ payload) more) as (r&->&Hr).
    { simpl in Hf. rewrite length_app in Hf. lia. }
    exists r. split; [done|]. destruct r as [o|].
    + destruct Hr as (mid&rest&->&->&Hs). exists (b :: payload ++ mid), rest.
      split_and!; [simpl; by rewrite <-app_assoc|by rewrite <-!app_assoc|by constructor].
    + intros rest H. inversion H as [|? payload' more' ? ? Hp' H']; subst; [done|].
      apply app_len_inj in H2 as [_ ->]; [|congruence]. by apply (Hr rest).
  - exists None. split; [done|]. intros rest H.
    inversion H as [|? payload' more' ? ? Hp' H']; subst; [done|].
    apply Hn. rewrite <-Hp', len_app. lia.
Qed.

(** *** Images *)

Lemma byte_N_bound b : (byte_N b <= 255)%N.
Proof. unfold byte_N. assert (H := Byte.to_N_bounded b). lia. Qed.

Lemma le16_bound lo hi : (le16 lo hi <= 65535)%N.
Proof. unfold le16. assert (H := byte_N_bound lo). assert (H' := byte_N_bound hi). lia. Qed.

Lemma checked_add_le16 a b c d :
  checked_add usize_max (le16 a b) (le16 c d) = Some (le16 a b + le16 c d)%N.
Proof.
  apply checked_add_Some. split; [done|]. assert (H := le16_bound a b). assert (H' := le16_bound c d).
  unfold usize_max, u64_max. lia.
Qed.

Lemma skip_color_table_app (pre suf : list byte) packed :
  skip_color_table packed (len pre) (len (pre ++ suf)) =
    if decide (table_bytes packed <= len suf)%N then Some (len pre + table_bytes packed)%N else None.
Proof.
  unfold skip_color_table, table_bytes. destruct (has_color_table packed); [apply advance_app|].
  rewrite decide_True by lia. f_equal. lia.
Qed.

(** The part of an image after its descriptor: color table, code size, data. *)
Definition frame_data (packed : byte) (l rest : list byte) : Prop :=
  ∃ table code_size more, l = table ++ code_size :: more ∧ len table = table_bytes packed ∧
    (2 <= byte_N code_size <= 8)%N ∧ sub_blocks more rest.

Lemma gif_frame_inv cw ch x0 x1 y0 y1 w0 w1 h0 h1 packed tl rest :
  gif_frame cw ch (x0 :: x1 :: y0 :: y1 :: w0 :: w1 :: h0 :: h1 :: packed :: tl) rest ↔
  ((0 < le16 w0 w1)%N ∧ (0 < le16 h0 h1)%N ∧ (le16 x0 x1 + le16 w0 w1 <= cw)%N ∧
   (le16 y0 y1 + le16 h0 h1 <= ch)%N) ∧ frame_data packed tl rest.
Proof.
  split.
  - intros H. inversion H; subst. split; [done|]. unfold frame_data. eauto 10.
  - intros [(?&?&?&?) (table&code&more&->&?&?&?)]. by apply frame.
Qed.

(** The rest of [gif_image] once the descriptor has been accepted. *)
Lemma gif_image_data_spec fuel pre tl packed :
  length tl < fuel →
  ∃ r : option N,
    match skip_color_table packed (len pre) (len (pre ++ tl)) with
    | None => Some None
    | Some offset =>
        if (len (pre ++ tl) <=? offset)%N then Some None
        else
          code_size ← index (pre ++ tl) offset;
          if negb ((2 <=? byte_N code_size)%N && (byte_N code_size <=? 8)%N) then Some None
          else skip_gif_sub_blocks fuel (pre ++ tl) (offset + 1)
    end = Some r ∧
    match r with
    | Some o => ∃ mid rest, tl = mid ++ rest ∧ o = len (pre ++ mid) ∧ frame_data packed tl rest
    | None => ∀ rest, ¬ frame_data packed tl rest
    end.
Proof.
  intros Hf. rewrite skip_color_table_app. case_decide as Hn.
  - destruct (split_at_len _ _ Hn) as (table&more&->&Ht). rewrite <-Ht.
    destruct more as [|code more].
    { rewrite (proj2 (N.leb_le _ _)) by (rewrite !len_app; unfold len; simpl; lia).
      exists None. split; [done|]. intros rest (table'&code&more&Heq&Ht'&_).
      apply app_len_inj in Heq as [_ ?]; [done|congruence]. }
    rewrite (proj2 (N.leb_gt _ _)) by (rewrite !len_app, len_cons; lia).
    rewrite app_assoc, <-len_app, index_app. simpl.
    destruct (negb _) eqn:Ec.
    { exists None. split; [done|]. intros rest (table'&code'&more'&Heq&Ht'&Hc&_).
      apply app_len_inj in Heq as [_ Heq]; [|congruence]. simplify_eq.
      apply negb_true_iff, andb_false_iff in Ec as [E|E]; bool_prop; lia. }
    bool_prop. replace (len (pre ++ table) + 1)%N with (len ((pre ++ table) ++ [code])) by (by rewrite (len_app (pre ++ table))).
    replace ((pre ++ table) ++ code :: more) with (((pre ++ table) ++ [code]) ++ more) by (by rewrite <-app_assoc).
    destruct (skip_gif_sub_blocks_spec fuel ((pre ++ table) ++ [code]) more) as (r&->&Hr).
    { rewrite length_app in Hf. simpl in Hf. lia. }
    exists r. split; [done|]. destruct r as [o|].
    + destruct Hr as (mid&rest&->&->&Hs). exists (table ++ code :: mid), rest.
      split_and!; [by rewrite <-app_assoc|by rewrite <-!app_assoc|].
      exists table, code, (mid ++ rest). split_and!; done.
    + intros rest (table'&code'&more'&Heq&Ht'&_&Hs).
      apply app_len_inj in Heq as [_ Heq]; [|congruence]. simplify_eq. by apply (Hr rest).
  - exists None. split; [done|]. intros rest (table&code&more&->&Ht&_). apply Hn.
    rewrite <-Ht, len_app. lia.
Qed.

Lemma gif_frame_length cw ch body rest : gif_frame cw ch body rest → (9 <= len body)%N.
Proof. intros []. rewrite !len_app, !len_cons. lia. Qed.

Lemma nine_bytes (body : list byte) :
  (9 <= len body)%N →
  ∃ x0 x1 y0 y1 w0 w1 h0 h1 packed tl,
    body = x0 :: x1 :: y0 :: y1 :: w0 :: w1 :: h0 :: h1 :: packed :: tl.
Proof.
  unfold len. intros H. do 9 (destruct body as [|? body]; [simpl in H; lia|]). eauto 20.
Qed.

Lemma gif_image_spec fuel pre body cw ch px frames :
  length body < fuel → (len (pre ++ body) <= usize_max)%N →
  ∃ r, gif_image fuel (pre ++ body) cw ch px (len pre) frames = Some r ∧
    match r with
    | Some (o, n) => n = (frames + 1)%N ∧ (frames + 1 <= MAX_INLINE_GIF_PIXEL_FRAMES / px)%N ∧
        ∃ mid rest, body = mid ++ rest ∧ mid ≠ [] ∧ o = len (pre ++ mid) ∧ gif_frame cw ch body rest
    | None => (MAX_INLINE_GIF_PIXEL_FRAMES / px < frames + 1)%N ∨ ∀ rest, ¬ gif_frame cw ch body rest
    end.
Proof.
  intros Hf Hm. unfold gif_image. rewrite len_app. rewrite (proj2 (N.ltb_ge _ _)) by lia. simpl.
  replace (len pre + len body - len pre)%N with (len body) by lia.
  destruct (len body <? 9)%N eqn:E9; bool_prop.
  { exists None. split; [done|]. right. intros rest H%gif_frame_length. lia. }
  destruct (nine_bytes _ E9) as (x0&x1&y0&y1&w0&w1&h0&h1&packed&tl&->).
  set (known := [x0; x1; y0; y1; w0; w1; h0; h1; packed]).
  change (x0 :: x1 :: y0 :: y1 :: w0 :: w1 :: h0 :: h1 :: packed :: tl) with (known ++ tl) in *.
  assert (H0 : gif_u16 (pre ++ known ++ tl) (len pre) = Some (le16 x0 x1))
    by (rewrite <-(N.add_0_r (len pre)); by apply gif_u16_app).
  rewrite H0, (gif_u16_app pre known tl 2 y0 y1),
    (gif_u16_app pre known tl 4 w0 w1), (gif_u16_app pre known tl 6 h0 h1),
    (index_app_plus pre known tl 8 packed) by done.
  cbn [mbind option_bind]. rewrite !checked_add_le16. cbn [is_none_or].
  destruct (_ || _) eqn:Eb.
  { exists None. split; [done|]. right. intros rest ((?&?&?&?)&_)%gif_frame_inv.
    repeat (apply orb_true_iff in Eb as [Eb|Eb]); bool_prop; lia. }
  bool_prop. destruct (_ <? frames + 1)%N eqn:Ep; bool_prop; [exists None; by auto|].
  replace (len pre + 9)%N with (len (pre ++ known)) by (by rewrite len_app).
  rewrite <-len_app, app_assoc.
  destruct (gif_image_data_spec fuel (pre ++ known) tl packed) as (r&Hr&Hspec);
    [simpl in Hf; lia|].
  exists (match r with Some o => Some (o, (frames + 1)%N) | None => None end). split.
  - revert Hr. destruct (skip_color_table _ _ _) as [o|]; [|by intros [= <-]].
    destruct (_ <=? o)%N; [by intros [= <-]|]. destruct (index _ o); [|done]. simpl.
    destruct (negb _); [by intros [= <-]|]. intros ->. done.
  - destruct r as [o|].
    + split; [done|]. split; [done|]. destruct Hspec as (mid&rest&->&->&Hd).
      exists (known ++ mid), rest. split_and!; [by rewrite <-app_assoc|done|by rewrite app_assoc|].
      apply gif_frame_inv. split; [lia|done].
    + right. intros rest (_&Hd)%gif_frame_inv. by apply (Hspec rest).
Qed.

(** *** The block stream *)

Lemma gif_frame_det cw ch l r1 r2 : gif_frame cw ch l r1 → gif_frame cw ch l r2 → r1 = r2.
Proof.
  intros H1 H2. destruct (nine_bytes l) as (?&?&?&?&?&?&?&?&?&tl&->);
    [by eapply gif_frame_length|].
  apply gif_frame_inv in H1 as (_&t1&c1&m1&->&Ht1&_&Hs1).
  apply gif_frame_inv in H2 as (_&t2&c2&m2&Heq&Ht2&_&Hs2).
  apply app_len_inj in Heq as [-> Heq]; [|congruence]. simplify_eq.
  by eapply sub_blocks_det.
Qed.

(** What remains to be seen after [frames] images have been accepted. *)
Definition accepts (cw ch px frames : N) (suf : list byte) : Prop :=
  ∃ n, gif_stream cw ch n suf ∧ (0 < frames + n)%N ∧
    (n = 0%N ∨ (frames + n <= MAX_INLINE_GIF_PIXEL_FRAMES / px)%N).

Lemma accepts_trailer cw ch px frames junk :
  accepts cw ch px frames (x3b :: junk) ↔ (0 < frames)%N.
Proof.
  split.
  - intros (n&Hs&?&?). inversion Hs; subst. lia.
  - intros. exists 0%N. split; [constructor|]. split; [lia|by left].
Qed.

Lemma accepts_extension cw ch px frames label more rest :
  sub_blocks more rest →
  accepts cw ch px frames (x21 :: label :: more) ↔ accepts cw ch px frames rest.
Proof.
  intros Hsub. split.
  - intros (n&Hs&?). inversion Hs as [|? ? ? rest' Hsub' Hs'|]; subst.
    rewrite <-(sub_blocks_det _ _ _ Hsub Hsub') in Hs'. by exists n.
  - intros (n&Hs&?). exists n. split; [by econstructor|done].
Qed.

Lemma accepts_image cw ch px frames body rest :
  gif_frame cw ch body rest → (frames + 1 <= MAX_INLINE_GIF_PIXEL_FRAMES / px)%N →
  accepts cw ch px frames (x2c :: body) ↔ accepts cw ch px (frames + 1) rest.
Proof.
  intros Hfr Hle. split.
  - intros (n&Hs&?&Hn). inversion Hs as [| |m ? rest' Hfr' Hs']; subst.
    rewrite <-(gif_frame_det _ _ _ _ _ Hfr Hfr') in Hs'. exists m. split; [done|]. lia.
  - intros (m&Hs&?&Hm). exists (m + 1)%N. split; [by econstructor|]. lia.
Qed.

(** No stream starts with an image that is not one. *)
Lemma rejects_image cw ch px frames body :
  (MAX_INLINE_GIF_PIXEL_FRAMES / px < frames + 1)%N ∨ (∀ rest, ¬ gif_frame cw ch body rest) →
  ¬ accepts cw ch px frames (x2c :: body).
Proof.
  intros Hno (n&Hs&?&Hn). inversion Hs as [| |m ? rest Hfr Hs']; subst.
  destruct Hno as [?|Hno]; [lia|by apply (Hno rest)].
Qed.

Lemma rejects_extension cw ch px frames l :
  (∀ label more rest, l = label :: more → ¬ sub_blocks more rest) →
  ¬ accepts cw ch px frames (x21 :: l).
Proof.
  intros Hno (n&Hs&_). inversion Hs as [|? label more rest Hsub|]; subst. by eapply Hno.
Qed.

(** [gif_blocks] decides [accepts]. *)
Lemma gif_blocks_spec fuel pre suf cw ch px frames :
  length suf < fuel → (len (pre ++ suf) <= usize_max)%N →
  ∃ b, gif_blocks fuel (pre ++ suf) cw ch px (len pre) frames = Some b ∧
    (b = true ↔ accepts cw ch px frames suf).
Proof.
  revert pre suf frames. induction fuel as [|fuel IH]; intros pre suf frames Hf Hm; [lia|].
  cbn [gif_blocks]. destruct suf as [|marker suf].
  { rewrite app_nil_r, (proj2 (N.ltb_ge _ _)) by lia. exists false.
    split; [done|]. split; [done|]. intros (n&Hs&_). inversion Hs. }
  rewrite (proj2 (N.ltb_lt _ _)) by (rewrite len_app, len_cons; lia).
  rewrite index_app. cbn [mbind option_bind].
  replace (len pre + 1)%N with (len (pre ++ [marker])) by (by rewrite len_app).
  replace (pre ++ marker :: suf) with ((pre ++ [marker]) ++ suf) in * by (by rewrite <-app_assoc).
  set (pre' := pre ++ [marker]) in *. simpl in Hf.
  destruct marker; try (exists false; split; [done|]; split; [done|]; intros (n&Hs&_); by inversion Hs).
  - (* extension *)
    rewrite advance_app. case_decide as Hl.
    2:{ exists false. split; [done|]. split; [done|]. intros H. exfalso. revert H.
        apply rejects_extension. intros label more rest ->. rewrite len_cons in Hl. lia. }
    destruct suf as [|label suf]; [by vm_compute in Hl|].
    replace (len pre' + 1)%N with (len (pre' ++ [label])) by (by rewrite (len_app pre')).
    replace (pre' ++ label :: suf) with ((pre' ++ [label]) ++ suf) in * by (by rewrite <-app_assoc).
    destruct (skip_gif_sub_blocks_spec (S (length ((pre' ++ [label]) ++ suf))) (pre' ++ [label]) suf)
      as (r&->&Hr); [rewrite length_app; lia|]. cbn [mbind option_bind]. destruct r as [o|].
    + destruct Hr as (mid&rest&->&->&Hsub).
      setoid_rewrite (accepts_extension _ _ _ _ label _ _ Hsub). rewrite app_assoc in *.
      apply IH; [|done]. simpl in Hf. rewrite length_app in Hf. lia.
    + exists false. split; [done|]. split; [done|]. intros H. exfalso. revert H.
      apply rejects_extension. intros ? ? rest [= <- <-]. apply Hr.
  - (* image *)
    destruct (gif_image_spec (S (length (pre' ++ suf))) pre' suf cw ch px frames)
      as (r&->&Hr); [rewrite length_app; lia|done|]. cbn [mbind option_bind].
    destruct r as [[o n]|].
    + destruct Hr as (->&Hle&mid&rest&->&Hne&->&Hfr).
      setoid_rewrite (accepts_image _ _ _ _ _ _ Hfr Hle). rewrite app_assoc in *.
      apply IH; [|done]. rewrite length_app in Hf. lia.
    + exists false. split; [done|]. split; [done|]. intros H. by apply rejects_image in H.
  - (* trailer *)
    exists (0 <? frames)%N. split; [done|]. by rewrite accepts_trailer, N.ltb_lt.
Qed.

(** *** The whole file *)

Lemma bytes_start_with_spec prefix data :
  bytes_start_with prefix data = true ↔ ∃ rest, data = prefix ++ rest.
Proof.
  revert data. induction prefix as [|p ps IH]; intros data; simpl.
  { split; eauto. }
  destruct data as [|d ds].
  { split; [done|]. intros (?&?). done. }
  unfold byte_eqb. rewrite andb_true_iff, bool_decide_eq_true, IH. split.
  - intros [-> (rest&->)]. eauto.
  - intros (rest&?). simplify_eq. eauto.
Qed.

Definition is_signature (sig : list byte) : Prop := sig = GIF87a ∨ sig = GIF89a.

Lemma signature_spec data :
  bytes_start_with GIF87a data || bytes_start_with GIF89a data = true ↔
  ∃ sig rest, is_signature sig ∧ data = sig ++ rest.
Proof.
  rewrite orb_true_iff, !bytes_start_with_spec. unfold is_signature. naive_solver.
Qed.

Lemma frames_within n w h :
  (0 < w)%N → (0 < h)%N →
  (n <= MAX_INLINE_GIF_PIXEL_FRAMES / (w * h))%N ↔ (n * (w * h) <= MAX_INLINE_GIF_PIXEL_FRAMES)%N.
Proof.
  intros Hw Hh. assert (Hp : (0 < w * h)%N) by nia. generalize dependent (w * h)%N.
  intros p Hp. split; intros H.
  - etransitivity; [apply N.mul_le_mono_r; exact H|]. rewrite N.mul_comm. apply N.Div0.mul_div_le.
  - apply N.div_le_lower_bound; lia.
Qed.

(** The header of an accepted file, read back. *)
Lemma inline_gif_header sig w0 w1 h0 h1 packed bg aspect tl frames :
  is_signature sig →
  inline_gif (sig ++ w0 :: w1 :: h0 :: h1 :: packed :: bg :: aspect :: tl) frames ↔
  ((0 < le16 w0 w1 <= MAX_INLINE_GIF_EDGE)%N ∧ (0 < le16 h0 h1 <= MAX_INLINE_GIF_EDGE)%N ∧
   (le16 w0 w1 * le16 h0 h1 <= MAX_INLINE_GIF_PIXELS)%N ∧
   (len (sig ++ w0 :: w1 :: h0 :: h1 :: packed :: bg :: aspect :: tl) <= MAX_INLINE_MEDIA_BYTES)%N) ∧
  ∃ table body, tl = table ++ body ∧ len table = table_bytes packed ∧
    gif_stream (le16 w0 w1) (le16 h0 h1) frames body ∧ (0 < frames)%N ∧
    (frames * (le16 w0 w1 * le16 h0 h1) <= MAX_INLINE_GIF_PIXEL_FRAMES)%N.
Proof.
  intros Hsig. split.
  - intros (sig'&w0'&w1'&h0'&h1'&packed'&bg'&aspect'&table&body&Heq&Hsig'&?&?&?&?&?&?&?&?).
    apply app_len_inj in Heq as [<- Heq];
      [|destruct Hsig as [-> | ->], Hsig' as [-> | ->]; reflexivity].
    simplify_eq/=. split; [done|]. exists table, body. done.
  - intros [(?&?&?&?) (table&body&->&?&?&?&?)].
    exists sig, w0, w1, h0, h1, packed, bg, aspect, table, body. destruct_and!. split_and!; done.
Qed.

Lemma seven_bytes (l : list byte) :
  (7 <= len l)%N → ∃ w0 w1 h0 h1 packed bg aspect tl,
    l = w0 :: w1 :: h0 :: h1 :: packed :: bg :: aspect :: tl.
Proof. unfold len. intros H. do 7 (destruct l as [|? l]; [simpl in H; lia|]). eauto 20. Qed.

Lemma inline_gif_minimum data frames :
  inline_gif data frames →
  (13 <= len data <= MAX_INLINE_MEDIA_BYTES)%N ∧ ∃ sig rest, is_signature sig ∧ data = sig ++ rest.
Proof.
  intros (sig&w0&w1&h0&h1&packed&bg&aspect&table&body&->&Hsig&?&?&?&?&?&?&?&?).
  split; [|by eauto]. split; [|done]. rewrite !len_app, !len_cons.
  destruct Hsig as [-> | ->]; change (len GIF87a) with 6%N; change (len GIF89a) with 6%N; lia.
Qed.

(** The dimensions at offsets 6 and 8 and the packed byte at 10. *)
Lemma header_fields sig w0 w1 h0 h1 packed bg aspect tl :
  is_signature sig →
  (len (sig ++ w0 :: w1 :: h0 :: h1 :: packed :: bg :: aspect :: tl) <= usize_max)%N →
  let data := sig ++ w0 :: w1 :: h0 :: h1 :: packed :: bg :: aspect :: tl in
  gif_u16 data 6 = Some (le16 w0 w1) ∧ gif_u16 data 8 = Some (le16 h0 h1) ∧
  index data 10 = Some packed.
Proof.
  intros Hsig Hm data.
  assert (Hd : data = [] ++ (sig ++ [w0; w1; h0; h1; packed; bg; aspect]) ++ tl)
    by (unfold data; simpl; by rewrite <-app_assoc).
  unfold data in *. rewrite Hd in *.
  destruct Hsig as [-> | ->]; split_and!.
  1,4: by apply (gif_u16_app [] _ tl 6).
  1,3: by apply (gif_u16_app [] _ tl 8).
  all: by apply (index_app_plus [] _ tl 10).
Qed.

(** From the color table on. *)
Lemma gif_body_spec hdr tl packed w h :
  (0 < w)%N → (0 < h)%N → (len (hdr ++ tl) <= usize_max)%N →
  ∃ b, match skip_color_table packed (len hdr) (len (hdr ++ tl)) with
       | None => Some false
       | Some offset => gif_blocks (S (length (hdr ++ tl))) (hdr ++ tl) w h (w * h) offset 0
       end = Some b ∧
    (b = true ↔ ∃ frames table body, tl = table ++ body ∧ len table = table_bytes packed ∧
       gif_stream w h frames body ∧ (0 < frames)%N ∧
       (frames * (w * h) <= MAX_INLINE_GIF_PIXEL_FRAMES)%N).
Proof.
  intros Hw Hh Hm. rewrite skip_color_table_app. case_decide as Hn.
  - destruct (split_at_len _ _ Hn) as (table&body&->&Ht). rewrite <-Ht, <-len_app, app_assoc in *.
    destruct (gif_blocks_spec (S (length ((hdr ++ table) ++ body))) (hdr ++ table) body w h (w * h) 0)
      as (b&->&Hb); [rewrite length_app; lia|done|].
    exists b. split; [done|]. rewrite Hb. unfold accepts. split.
    + intros (n&Hs&?&Hn'). exists n, table, body. split_and!; [done..|lia|].
      apply frames_within; [done..|]. lia.
    + intros (n&table'&body'&Heq&Ht'&Hs&?&?). apply app_len_inj in Heq as [_ ->]; [|congruence].
      exists n. split_and!; [done|lia|]. right. rewrite N.add_0_l. by apply frames_within.
  - exists false. split; [done|]. split; [done|].
    intros (n&table&body&->&Ht&_). exfalso. apply Hn. rewrite <-Ht, len_app. lia.
Qed.

(** The validator decides [inline_gif]. *)
Lemma bounded_inline_gif_decides data :
  ∃ b, bounded_inline_gif data = Some b ∧ (b = true ↔ ∃ frames, inline_gif data frames).
Proof.
  unfold bounded_inline_gif. destruct (_ || _ || _) eqn:E0.
  { exists false. split; [done|]. split; [done|].
    intros (frames&[[? ?] Hsig]%inline_gif_minimum).
    apply signature_spec in Hsig. rewrite Hsig in E0. simpl in E0.
    repeat (apply orb_true_iff in E0 as [E0|E0]); bool_prop; done || lia. }
  bool_prop. apply signature_spec in H0 as (sig&rest&Hsig&->).
  assert (Hm : (len (sig ++ rest) <= usize_max)%N)
    by (unfold MAX_INLINE_MEDIA_BYTES, usize_max, u64_max in *; lia).
  destruct (seven_bytes rest) as (w0&w1&h0&h1&packed&bg&aspect&tl&->).
  { rewrite len_app in *. destruct Hsig as [-> | ->];
      change (len GIF87a) with 6%N in *; change (len GIF89a) with 6%N in *; lia. }
  destruct (header_fields _ _ _ _ _ _ _ _ _ Hsig Hm) as (->&->&->).
  setoid_rewrite (inline_gif_header _ _ _ _ _ _ _ _ _ _ Hsig).
  assert (checked_mul usize_max (le16 w0 w1) (le16 h0 h1) = Some (le16 w0 w1 * le16 h0 h1)%N) as ->.
  { unfold checked_mul. rewrite decide_True; [done|].
    assert (Hw := le16_bound w0 w1). assert (Hh := le16_bound h0 h1). unfold usize_max, u64_max. nia. }
  destruct (_ || _) eqn:E1.
  { exists false. split; [done|]. split; [done|]. intros (frames&(?&?&?&?)&_).
    repeat (apply orb_true_iff in E1 as [E1|E1]); bool_prop; lia. }
  bool_prop. cbn [mbind option_bind].
  set (hdr := sig ++ [w0; w1; h0; h1; packed; bg; aspect]).
  replace (sig ++ w0 :: w1 :: h0 :: h1 :: packed :: bg :: aspect :: tl) with (hdr ++ tl) in *
    by (unfold hdr; by rewrite <-app_assoc).
  replace 13%N with (len hdr) by (destruct Hsig as [-> | ->]; reflexivity).
  destruct (gif_body_spec hdr tl packed (le16 w0 w1) (le16 h0 h1)) as (b&Hb&Hiff); [lia..|done|].
  exists b. split; [done|]. rewrite Hiff. split.
  - intros (n&table&body&?). exists n. split; [lia|]. by exists table, body.
  - intros (n&_&table&body&?). by exists n, table, body.
Qed.

(** The GIF validator is total (it never indexes out of bounds and always
    stops) and exact: it accepts precisely the files made of a GIF header and a
    stream of images inside the canvas, within 8 MiB, 8192 pixels per edge,
    16 million pixels, and 8 million pixels over all frames. *)
Theorem bounded_inline_gif_exact data :
  ∃ b, bounded_inline_gif data = Some b ∧ (b = true ↔ ∃ frames, inline_gif data frames).
Proof. apply bounded_inline_gif_decides. Qed.

(** A transparent pixel, as the smallest witness. *)
Definition tiny_gif : list byte :=
  GIF89a ++ [x01; x00; x01; x00; x00; x00; x00;
             x2c; x00; x00; x00; x00; x01; x00; x01; x00; x00; x02; x02; x44; x01; x00; x3b].

Lemma tiny_gif_accepted : bounded_inline_gif tiny_gif = Some true.
Proof. vm_compute. reflexivity. Qed.

(** ** Signal animations *)

Definition u32_be (a b c d : byte) : N :=
  (((byte_N a * 256 + byte_N b) * 256 + byte_N c) * 256 + byte_N d)%N.

Definition mp4_file_type_box_matches (data : list byte) : bool :=
  if (len data <? 16)%N then false
  else
    match data with
    | a :: b :: c :: d :: x66 :: x74 :: x79 :: x70 :: _ =>
        (16 <=? u32_be a b c d)%N && (u32_be a b c d <=? len data)%N
    | _ => false
    end.

(** [filename.rsplit(['/', '\\']).next()]. *)
Definition is_path_separator (c : Ascii.ascii) : bool :=
  bool_decide (c = "/"%char) || bool_decide (c = "\"%char).

Fixpoint has_path_separator (s : string) : bool :=
  match s with
  | "" => false
  | String c s' => is_path_separator c || has_path_separator s'
  end.

Fixpoint basename (s : string) : string :=
  match s with
  | "" => ""
  | String c s' => if has_path_separator s then
                     if has_path_separator s' then basename s' else s'
                   else s
  end.

(** [str::rsplit_once('.')]. *)
Fixpoint rsplit_once_dot (s : string) : option (string * string) :=
  match s with
  | "" => None
  | String c s' =>
      match rsplit_once_dot s' with
      | Some (a, b) => Some (String c a, b)
      | None => if bool_decide (c = "."%char) then Some ("", s') else None
      end
  end.

Definition signal_gif_inline_filename (attachment : AttachmentPointer) : string :=
  match non_empty (ap_file_name attachment) with
  | None => "signal-animation.gif"
  | Some filename =>
      let base := basename filename in
      if is_empty base || bool_decide (base = ".") || bool_decide (base = "..")
      then "signal-animation.gif"
      else
        let stem := match rsplit_once_dot base with
                    | Some (stem, _) => if is_empty stem then base else stem
                    | None => base
                    end in
        stem +:+ ".gif"
  end.

Section Attachments.
Context `{Enums : ProtoEnums}.

Definition has_gif_flag (attachment : AttachmentPointer) : bool :=
  negb (N.land (default 0%N (ap_flags attachment)) FLAGS_GIF =? 0)%N.

Definition signal_gif_video_matches (attachment : AttachmentPointer) (data : list byte) : bool :=
  (len data <=? MAX_INLINE_MEDIA_BYTES)%N
  && is_some_and (ap_content_type attachment) (λ ct, eq_ignore_ascii_case ct "video/mp4")
  && has_gif_flag attachment
  && mp4_file_type_box_matches data.

Definition attachment_display_name (attachment : AttachmentPointer) : string :=
  match non_empty (ap_file_name attachment) with
  | Some file_name => file_name
  | None =>
      let is_type t := is_some_and (ap_content_type attachment) (λ ct, eq_ignore_ascii_case ct t) in
      if has_gif_flag attachment then
        if is_type "image/gif" then "signal-animation.gif"
        else if is_type "video/mp4" then "signal-animation.mp4"
        else "signal-animation"
      else if is_type "image/jpeg" then "signal-image.jpg"
      else if is_type "image/png" then "signal-image.png"
      else if is_type "image/gif" then "signal-animation.gif"
      else if is_type "video/mp4" then "signal-video.mp4"
      else "signal-attachment"
  end.

Record DownloadedAttachment := mkDownloaded {
  attachment_index : N;
  da_filename : string;
  da_content_type : option string;
  da_data : list byte;
  signal_gif_filename : option string;
}.

Definition downloaded_new (index : N) (attachment : AttachmentPointer) (data : list byte)
  : DownloadedAttachment :=
  mkDownloaded index (attachment_display_name attachment) (ap_content_type attachment) data
    (if signal_gif_video_matches attachment data then Some (signal_gif_inline_filename attachment)
     else None).

(** [apply_signal_gif]; the validator is total, so a fault counts as refusal. *)
Definition apply_signal_gif (gif : list byte) (d : DownloadedAttachment) : bool * DownloadedAttachment :=
  match signal_gif_filename d with
  | None => (false, d)
  | Some filename =>
      match bounded_inline_gif gif with
      | Some true => (true, mkDownloaded (attachment_index d) filename (Some "image/gif") gif None)
      | _ => (false, d)
      end
  end.

End Attachments.

(** ** Transcoding *)

(** [read_transcode_output] over the successive reads: a chunk, empty at the
    end of the stream, or [None] for an error.  [None] while it has not
    returned. *)
Fixpoint read_transcode_output (reads : list (option (list byte))) (collected : list byte)
  : option (option (list byte)) :=
  match reads with
  | [] => None
  | None :: _ => Some None
  | Some chunk :: rest =>
      if (len chunk =? 0)%N then Some (Some collected)
      else if (MAX_INLINE_MEDIA_BYTES - len collected <? len chunk)%N then Some None
      else read_transcode_output rest (collected ++ chunk)
  end.

Inductive try_wait_result :=
| ChildExited (success : bool)
| ChildRunning (elapsed_ms : N)
| ChildWaitFailed.

Definition SIGNAL_GIF_TRANSCODE_TIMEOUT_MS : N := 15 * 1000.

(** How the child process ended: it exited, or it was killed and waited for. *)
Inductive child_fate := NeverStarted | Exited | KilledAndReaped.

(** The polling loop: the exit status if the child exited by itself in time. *)
Fixpoint poll_child (waits : list try_wait_result) : option (option bool * child_fate) :=
  match waits with
  | [] => None
  | ChildExited success :: _ => Some (Some success, Exited)
  | ChildRunning elapsed :: rest =>
      if (elapsed <? SIGNAL_GIF_TRANSCODE_TIMEOUT_MS)%N then poll_child rest
      else Some (None, KilledAndReaped)
  | ChildWaitFailed :: _ => Some (None, KilledAndReaped)
  end.

Definition SIGNAL_GIF_FFMPEG : string := "/usr/bin/ffmpeg".
Definition SIGNAL_GIF_PRLIMIT : string := "/usr/bin/prlimit".
Definition SIGNAL_GIF_ADDRESS_SPACE_LIMIT : string := "--as=1073741824:1073741824".

(** [resolve_binary]: [path] is the split PATH variable, [is_file] the file
    system. *)
Definition resolve_binary (path : option (list string)) (is_file : string → bool)
  (name default_path : string) : option string :=
  match List.find is_file ((λ dir, dir +:+ "/" +:+ name) <$> default [] path) with
  | Some candidate => Some candidate
  | None => if is_file default_path then Some default_path else None
  end.

Definition ffmpeg_args : list string :=
  ["-nostdin"; "-hide_banner"; "-loglevel"; "error"; "-max_alloc"; "134217728"; "-threads"; "1";
   "-filter_threads"; "1"; "-filter_complex_threads"; "1"; "-protocol_whitelist"; "pipe";
   "-probesize"; "8388608"; "-analyzeduration"; "5000000"; "-i"; "pipe:0"; "-map"; "0:v:0";
   "-map_metadata"; "-1"; "-map_chapters"; "-1"; "-an"; "-sn"; "-dn"; "-vf";
   "scale=w='min(480,iw)':h='min(480,ih)':force_original_aspect_ratio=decrease:flags=lanczos";
   "-fpsmax"; "15"; "-threads"; "1"; "-loop"; "0"; "-f"; "gif"; "pipe:1"].

(** The world of one call: the lock, the file system, whether a path is valid
    UTF-8, the outcome of spawning the command and the two threads, and what
    the child, the writer and the reader then do. *)
Record TranscodeEnv := mkTranscodeEnv {
  te_lock_free : bool;
  te_path : option (list string);
  te_is_file : string → bool;
  te_is_utf8 : string → bool;
  te_spawn : list string → bool;
  te_pipes : bool;
  te_writer_thread : bool;
  te_reader_thread : bool;
  te_waits : list try_wait_result;
  te_input_complete : bool;
  te_reads : list (option (list byte));
  te_reader_joined : bool;
}.

(** The command line, [None] if the path of ffmpeg cannot be passed on. *)
Definition transcode_command (env : TranscodeEnv) (ffmpeg : string) : option (list string) :=
  match resolve_binary (te_path env) (te_is_file env) "prlimit" SIGNAL_GIF_PRLIMIT with
  | Some prlimit =>
      if te_is_utf8 env ffmpeg then
        Some (prlimit :: [SIGNAL_GIF_ADDRESS_SPACE_LIMIT; "--cpu=10:12"; "--nofile=64:64"; "--"; ffmpeg]
                ++ ffmpeg_args)
      else None
  | None => Some (ffmpeg :: ffmpeg_args)
  end.

(** [transcode_signal_gif_video_blocking]: its result and the fate of the
    child.  [None] while the child or the reader has not ended. *)
Definition transcode_signal_gif_video_blocking (env : TranscodeEnv)
  : option (option (list byte) * child_fate) :=
  if negb (te_lock_free env) then Some (None, NeverStarted)
  else
    match resolve_binary (te_path env) (te_is_file env) "ffmpeg" SIGNAL_GIF_FFMPEG with
    | None => Some (None, NeverStarted)
    | Some ffmpeg =>
        match transcode_command env ffmpeg with
        | None => Some (None, NeverStarted)
        | Some command =>
            if negb (te_spawn env command) then Some (None, NeverStarted)
            else if negb (te_pipes env) then Some (None, KilledAndReaped)
            else if negb (te_writer_thread env) then Some (None, KilledAndReaped)
            else if negb (te_reader_thread env) then Some (None, KilledAndReaped)
            else
              polled ← poll_child (te_waits env);
              read ← read_transcode_output (te_reads env) [];
              let output := if te_reader_joined env then read else None in
              if negb (te_input_complete env) || negb (default false polled.1)
              then Some (None, polled.2)
              else
                match output with
                | None => Some (None, polled.2)
                | Some gif =>
                    match bounded_inline_gif gif with
                    | None => None
                    | Some valid => Some (if valid then Some gif else None, polled.2)
                    end
                end
        end
    end.

(** ** Avatars *)

(** The functions of the image crate. *)
Class ImageCodec := {
  Image : Type;
  guessed_format_is_png : list byte → result bool string;
  into_dimensions : list byte → option (N * N);
  load_from_memory : list byte → result Image string;
  thumbnail : N → N → Image → Image;
  has_alpha : Image → bool;
  encode_png : Image → result (list byte) string;
  encode_jpeg : N → Image → result (list byte) string;
}.

Definition AVATAR_JPEG_QUALITY : N := 85.

Section Avatars.
Context `{Codec : ImageCodec} `{Dig : Digests}.

Definition downscale_avatar (raw_data : list byte) : result (list byte) string :=
  match guessed_format_is_png raw_data with
  | Err e => Err ("unrecognized image format: " +:+ e)
  | Ok is_png =>
      if is_some_and (into_dimensions raw_data)
           (λ d : N * N, (d.1 <=? MAX_AVATAR_DIMENSION)%N && (d.2 <=? MAX_AVATAR_DIMENSION)%N)
      then Ok raw_data
      else
        match load_from_memory raw_data with
        | Err e => Err ("image decode error: " +:+ e)
        | Ok img =>
            let resized := thumbnail MAX_AVATAR_DIMENSION MAX_AVATAR_DIMENSION img in
            if is_png || has_alpha resized
            then map_err (λ e : string, "png encode error: " +:+ e) (encode_png resized)
            else map_err (λ e : string, "jpeg encode error: " +:+ e) (encode_jpeg AVATAR_JPEG_QUALITY resized)
        end
  end.

Definition CachedAvatar : Type := list byte * string.

Record AvatarCache := mkAvatarCache {
  cache_dir : option string;
  mem_cache : gmap (list byte) CachedAvatar;
  disk : gmap string (list byte);
}.

(** What the file system does during one call. *)
Record DiskEnv := mkDiskEnv {
  de_read_ok : bool;
  de_write_ok : bool;
  de_rename_ok : bool;
  de_process_id : N;
}.

Definition disk_path (dir hex : string) : string := dir +:+ "/" +:+ hex.

(** [std::fs::read]. *)
Definition read_file (env : DiskEnv) (path : string) (c : AvatarCache) : option (list byte) :=
  if de_read_ok env then disk c !! path else None.

Definition set_mem (k : list byte) (v : CachedAvatar) (c : AvatarCache) : AvatarCache :=
  mkAvatarCache (cache_dir c) (<[k := v]> (mem_cache c)) (disk c).

(** [std::fs::write] of the temporary file and [std::fs::rename]. *)
Definition persist (env : DiskEnv) (dir hex : string) (data : list byte) (c : AvatarCache) : AvatarCache :=
  let tmp := disk_path dir (hex +:+ ".tmp." +:+ show_N (de_process_id env)) in
  if de_write_ok env then
    if de_rename_ok env
    then mkAvatarCache (cache_dir c) (mem_cache c) (<[disk_path dir hex := data]> (delete tmp (disk c)))
    else mkAvatarCache (cache_dir c) (mem_cache c) (<[tmp := data]> (disk c))
  else c.

Definition prepare_avatar (env : DiskEnv) (raw_data : list byte) (c : AvatarCache)
  : CachedAvatar * AvatarCache :=
  if decide (raw_data = []) then ((raw_data, ""), c)
  else
    let raw_hash := sha256 raw_data in
    match mem_cache c !! raw_hash with
    | Some hit => (hit, c)
    | None =>
        let raw_hash_hex := hex_encode raw_hash in
        match (dir ← cache_dir c; read_file env (disk_path dir raw_hash_hex) c) with
        | Some disk_bytes =>
            let entry := (disk_bytes, hex_encode (sha256 disk_bytes)) in
            (entry, set_mem raw_hash entry c)
        | None =>
            let downscaled := match downscale_avatar raw_data with Ok p => p | Err _ => [] end in
            if decide (downscaled = []) then (([], ""), c)
            else
              let entry := (downscaled, hex_encode (sha256 downscaled)) in
              let c := match cache_dir c with
                       | Some dir => persist env dir raw_hash_hex downscaled c
                       | None => c
                       end in
              (entry, set_mem raw_hash entry c)
        end
    end.

End Avatars.

(** ** Properties of names, transcodes and avatars *)

Lemma basename_no_separator s : has_path_separator (basename s) = false.
Proof.
  induction s as [|c s IH]; [done|]. cbn [basename].
  destruct (has_path_separator (String c s)) eqn:E; [|done].
  by destruct (has_path_separator s) eqn:Es.
Qed.

Lemma has_path_separator_app a b :
  has_path_separator (a +:+ b) = has_path_separator a || has_path_separator b.
Proof. induction a as [|c a IH]; [done|]. simpl. by rewrite IH, orb_assoc. Qed.

Lemma rsplit_once_dot_app s a b : rsplit_once_dot s = Some (a, b) → s = a +:+ "." +:+ b.
Proof.
  revert a b. induction s as [|c s IH]; intros a b; [done|]. cbn [rsplit_once_dot].
  destruct (rsplit_once_dot s) as [[a' b']|] eqn:E.
  - intros [= <- <-]. rewrite (IH _ _ eq_refl). done.
  - case_bool_decide; intros; simplify_eq. done.
Qed.

(** The name given to an inline animation is never a path: it contains no
    separator, has a non-empty stem, and ends in ".gif". *)
Theorem signal_gif_filename_safe attachment :
  has_path_separator (signal_gif_inline_filename attachment) = false ∧
  ∃ stem, stem ≠ "" ∧ signal_gif_inline_filename attachment = stem +:+ ".gif".
Proof.
  unfold signal_gif_inline_filename. destruct (non_empty _) as [f|]; [|by split; [|exists "signal-animation"]].
  destruct (_ || _) eqn:E; [by split; [|exists "signal-animation"]|]. bool_prop.
  set (stem := match rsplit_once_dot _ with Some _ => _ | None => _ end).
  assert (Hs : stem ≠ "" ∧ has_path_separator stem = false).
  { assert (Hb := basename_no_separator f). unfold stem.
    destruct (rsplit_once_dot (basename f)) as [[a b]|] eqn:Er.
    - apply rsplit_once_dot_app in Er. destruct (is_empty a) eqn:Ea.
      + split; [|done]. intros Hx. by rewrite Hx in *.
      + split; [by intros ->|]. rewrite Er, has_path_separator_app in Hb. by bool_prop.
    - split; [|done]. intros Hx. by rewrite Hx in *. }
  destruct Hs as [Hne Hsep]. split; [by rewrite has_path_separator_app, Hsep|eauto].
Qed.

Lemma poll_child_success ws f : poll_child ws = Some (Some true, f) → f = Exited.
Proof.
  induction ws as [|[s|n|] ws IH]; simpl; [done|by intros [= _ <-]| |done].
  by destruct (_ <? _)%N.
Qed.

(** Whatever the child process does, a transcode yields a file only if the
    child exited successfully by itself within the timeout after consuming the
    input, and that file is a GIF within all the inline limits. *)
Theorem transcode_yields_bounded_gif env gif fate :
  transcode_signal_gif_video_blocking env = Some (Some gif, fate) →
  fate = Exited ∧ te_input_complete env = true ∧ (∃ frames, inline_gif gif frames).
Proof.
  unfold transcode_signal_gif_video_blocking. intros H.
  destruct (negb (te_lock_free env)); [done|]. destruct (resolve_binary _ _ _ _); [|done].
  destruct (transcode_command _ _); [|done].
  do 4 (match type of H with (if ?b then _ else _) = _ => destruct b; [done|] end).
  apply bind_Some in H as ([st f]&Hpoll&H). apply bind_Some in H as (read&_&H).
  destruct (_ || _) eqn:E; [done|]. bool_prop. simpl in *.
  destruct (if te_reader_joined env then read else None) as [g|]; [|done].
  destruct (bounded_inline_gif g) as [[]|] eqn:Hv; simplify_eq. split_and!; [|done|].
  - destruct st as [[]|]; [|done..]. by eapply poll_child_success.
  - destruct (bounded_inline_gif_decides gif) as (b&Hb&Hiff). rewrite Hv in Hb. simplify_eq. by apply Hiff.
Qed.

Section AvatarProperties.
Context `{Codec : ImageCodec} `{Dig : Digests}.

(** The avatar shown for [raw] when nothing is cached. *)
Definition uncached_avatar (raw : list byte) : CachedAvatar :=
  match raw with
  | [] => ([], "")
  | _ => match downscale_avatar raw with
         | Ok (b :: d) => (b :: d, hex_encode (sha256 (b :: d)))
         | _ => ([], "")
         end
  end.

(** Successive calls on one cache. *)
Fixpoint prepare_avatars (calls : list (DiskEnv * list byte)) (c : AvatarCache) : list CachedAvatar :=
  match calls with
  | [] => []
  | (env, raw) :: rest => let r := prepare_avatar env raw c in r.1 :: prepare_avatars rest r.2
  end.

(** Digests of the avatars [raws] do not collide, and a printed digest has no
    dot, so no temporary file name is a digest. *)
Definition distinct_digests (raws : list (list byte)) : Prop :=
  (∀ a b, a ∈ raws → b ∈ raws → hex_encode (sha256 a) = hex_encode (sha256 b) → a = b) ∧
  (∀ bytes, contains (hex_encode bytes) "." = false).

(** The caches hold, for every avatar of [raws], nothing or what would be
    computed. *)
Definition coherent (raws : list (list byte)) (c : AvatarCache) : Prop :=
  ∀ raw, raw ∈ raws →
    (∀ hit, mem_cache c !! sha256 raw = Some hit → hit = uncached_avatar raw) ∧
    (∀ dir data, cache_dir c = Some dir →
       disk c !! disk_path dir (hex_encode (sha256 raw)) = Some data →
       (data, hex_encode (sha256 data)) = uncached_avatar raw).

Lemma contains_app_dot a b : contains (a +:+ "." +:+ b) "." = true.
Proof.
  induction a as [|c a IH]; simpl.
  - by destruct b.
  - rewrite IH. apply orb_true_r.
Qed.

Lemma disk_path_inj dir a b : disk_path dir a = disk_path dir b → a = b.
Proof. unfold disk_path. by intros ?%(inj _)%(inj _). Qed.

Lemma tmp_path_fresh raws dir raw x pid :
  distinct_digests raws →
  disk_path dir (hex_encode (sha256 x) +:+ ".tmp." +:+ pid) ≠ disk_path dir (hex_encode (sha256 raw)).
Proof.
  intros [_ Hdot] Heq%disk_path_inj. assert (H := Hdot (sha256 raw)). rewrite <-Heq in H.
  change (".tmp." +:+ pid) with ("." +:+ ("tmp." +:+ pid)) in H. by rewrite contains_app_dot in H.
Qed.

Lemma set_mem_coherent raws raw v c :
  distinct_digests raws → raw ∈ raws → v = uncached_avatar raw → coherent raws c →
  coherent raws (set_mem (sha256 raw) v c).
Proof.
  intros [Hinj _] Hraw -> Hc x Hx. destruct (Hc x Hx) as [Hm Hd]. split; [|exact Hd].
  intros hit. simpl. destruct (decide (sha256 raw = sha256 x)) as [E|E].
  - rewrite E, lookup_insert_eq. intros [= <-]. f_equal. apply Hinj; [done..|]. by rewrite E.
  - rewrite lookup_insert_ne by done. apply Hm.
Qed.

Lemma persist_coherent raws env dir raw data c :
  distinct_digests raws → raw ∈ raws → cache_dir c = Some dir →
  (data, hex_encode (sha256 data)) = uncached_avatar raw → coherent raws c →
  coherent raws (persist env dir (hex_encode (sha256 raw)) data c).
Proof.
  intros Hdig Hraw Hdir Hdata Hc x Hx. destruct (Hc x Hx) as [Hm Hd]. unfold persist.
  destruct (de_write_ok env); [|done]. destruct (de_rename_ok env); (split; [exact Hm|]); simpl;
    intros dir' d' Hdir'; rewrite Hdir in Hdir'; simplify_eq.
  - destruct (decide (hex_encode (sha256 x) = hex_encode (sha256 raw))) as [E|E].
    + rewrite E, lookup_insert_eq. intros [= <-].
      destruct Hdig as [Hinj _]. by rewrite (Hinj x raw Hx Hraw E).
    + rewrite lookup_insert_ne by (by intros ?%disk_path_inj).
      rewrite lookup_delete_ne by (by eapply tmp_path_fresh). by apply Hd.
  - rewrite lookup_insert_ne by (by eapply tmp_path_fresh). by apply Hd.
Qed.

Lemma prepare_avatar_coherent raws env raw c :
  distinct_digests raws → raw ∈ raws → coherent raws c →
  (prepare_avatar env raw c).1 = uncached_avatar raw ∧ coherent raws (prepare_avatar env raw c).2.
Proof.
  intros Hdig Hraw Hc. destruct (Hc raw Hraw) as [Hm Hd]. unfold prepare_avatar.
  case_decide as Hne; [by subst|].
  destruct (mem_cache c !! sha256 raw) as [hit|] eqn:Em; [split; [by apply Hm|done]|].
  destruct (dir ← cache_dir c; _) as [data|] eqn:Ed.
  { apply bind_Some in Ed as (dir&Hdir&Hread). unfold read_file in Hread.
    destruct (de_read_ok env); [|done]. assert (E := Hd _ _ Hdir Hread).
    split; [done|]. by apply set_mem_coherent. }
  assert (Hun : match downscale_avatar raw with Ok p => p | Err _ => [] end = (uncached_avatar raw).1 ∧
    (uncached_avatar raw).2 = match (uncached_avatar raw).1 with
      [] => "" | _ => hex_encode (sha256 (uncached_avatar raw).1) end).
  { unfold uncached_avatar. destruct raw as [|b raw]; [done|].
    by destruct (downscale_avatar (b :: raw)) as [[|b' d]|e]. }
  destruct Hun as [-> Hsum]. destruct (uncached_avatar raw) as [data sum] eqn:Eu. simpl in *.
  case_decide as Hemp; [subst; by split|]. destruct data as [|b data]; [done|]. subst sum.
  split; [done|]. apply set_mem_coherent; [done..|].
  destruct (cache_dir c) as [dir|] eqn:Hdir; [|done].
  by apply persist_coherent.
Qed.

(** The two-level avatar cache is transparent: whatever reads, writes and
    renames fail, the avatars returned by a sequence of calls are those that
    would be computed without any cache. *)
Theorem avatar_cache_transparent calls c :
  distinct_digests (snd <$> calls) → coherent (snd <$> calls) c →
  prepare_avatars calls c = uncached_avatar <$> (snd <$> calls).
Proof.
  assert (Hgen : ∀ calls raws c, distinct_digests raws → coherent raws c →
    Forall (λ call, call.2 ∈ raws) calls →
    prepare_avatars calls c = uncached_avatar <$> (snd <$> calls)).
  { clear. induction calls as [|[env raw] calls IH]; intros raws c Hdig Hc Hin; [done|]. simpl.
    apply Forall_cons in Hin as [Hraw Hin].
    destruct (prepare_avatar_coherent raws env raw c Hdig Hraw Hc) as [Hr Hc'].
    f_equal; [done|]. by eapply IH. }
  intros Hdig Hc. eapply Hgen; [done..|]. apply Forall_forall. intros call Hcall.
  by apply list_elem_of_fmap_2.
Qed.

End AvatarProperties.

(** A codec and digests for the run below: every image is accepted as it is,
    and a digest is the data itself. *)
#[local] Instance demo_codec : ImageCodec := {|
  Image := list byte;
  guessed_format_is_png := λ _, Ok true;
  into_dimensions := λ _, None;
  load_from_memory := λ d, Ok d;
  thumbnail := λ _ _ i, i;
  has_alpha := λ _, false;
  encode_png := λ i, Ok i;
  encode_jpeg := λ _ i, Ok i;
|}.

Definition demo_hex_digit (b : bool) : string := if b then "1" else "0".

Fixpoint demo_hex (bytes : list byte) : string :=
  match bytes with
  | [] => ""
  | b :: rest =>
      let '(b0, (b1, (b2, (b3, (b4, (b5, (b6, b7))))))) := Byte.to_bits b in
      demo_hex_digit b0 +:+ demo_hex_digit b1 +:+ demo_hex_digit b2 +:+ demo_hex_digit b3 +:+
      demo_hex_digit b4 +:+ demo_hex_digit b5 +:+ demo_hex_digit b6 +:+ demo_hex_digit b7 +:+
      demo_hex rest
  end.

#[local] Instance demo_digests : Digests := {| sha256 := λ d, d; hex_encode := demo_hex |}.

Lemma demo_hex_no_dot bytes : contains (demo_hex bytes) "." = false.
Proof.
  induction bytes as [|b bytes IH]; [done|]. cbn [demo_hex].
  destruct (Byte.to_bits b) as (b0&b1&b2&b3&b4&b5&b6&b7).
  assert (Hd : ∀ d s, contains s "." = false → contains (demo_hex_digit d +:+ s) "." = false)
    by (intros [] s Hs; [change (starts_with ("1" +:+ s) "." || contains s "." = false)
                        |change (starts_with ("0" +:+ s) "." || contains s "." = false)];
        by rewrite Hs).
  do 8 apply Hd. exact IH.
Qed.

Definition demo_calls : list (DiskEnv * list byte) :=
  [(mkDiskEnv true true true 7, [x01]); (mkDiskEnv true true true 7, [x02]);
   (mkDiskEnv false false true 7, [x01])].

Lemma avatar_cache_transparent_witness :
  prepare_avatars demo_calls (mkAvatarCache (Some "/c") ∅ ∅) = uncached_avatar <$> (snd <$> demo_calls).
Proof.
  apply (avatar_cache_transparent demo_calls (mkAvatarCache (Some "/c") ∅ ∅)).
  - split; [|apply demo_hex_no_dot]. intros a b Ha Hb.
    apply list_elem_of_In in Ha, Hb. simpl in Ha, Hb.
    destruct Ha as [<-|[<-|[<-|[]]]], Hb as [<-|[<-|[<-|[]]]]; vm_compute; done.
  - intros raw _. split; [done|]. intros dir data _. done.
Defined.

Definition demo_transcode : TranscodeEnv :=
  mkTranscodeEnv true (Some ["/bin"]) (λ _, true) (λ _, true) (λ _, true) true true true
    [ChildRunning 20; ChildExited true] true [Some tiny_gif; Some []] true.

Lemma transcode_yields_bounded_gif_witness :
  Exited = Exited ∧ te_input_complete demo_transcode = true ∧ (∃ frames, inline_gif tiny_gif frames).
Proof. apply (transcode_yields_bounded_gif demo_transcode tiny_gif Exited). vm_compute. reflexivity. Defined.
