(* ===== verification/InlineGif.v ===== *)
(** * InlineGif: the GIF validator of the C plugin

    Models the validator of [src/inline_image.c], which parses a GIF before any
    decoder sees it.  A block of memory is a list of bytes behind a pointer
    that may be null, next to the size the caller states; a read outside the
    block, a division by zero and a loop without fuel are [None].  The theorem
    says that none of these happens and that the validator agrees with the one
    of the Rust core ([Media.bounded_inline_gif]). *)
From Stdlib Require Import Strings.Byte.
From S2P Require Import Prelude Media.

Definition SIGNAL_INLINE_IMAGE_MAX_EDGE : Z := 8192.
Definition SIGNAL_INLINE_IMAGE_MAX_PIXELS : Z := 16 * 1000 * 1000.
Definition SIGNAL_INLINE_IMAGE_MAX_BYTES : N := 8 * 1024 * 1024.
Definition SIGNAL_INLINE_GIF_MAX_PIXEL_FRAMES : N := 8 * 1000 * 1000.

(** A [const guint8 *]. *)
Abbreviation memory := (option (list byte)).

(** [data[i]]. *)
Definition mem_read (data : memory) (i : N) : option byte :=
  match data with Some block => index block i | None => None end.
Arguments mem_read : simpl never.

(** [memcmp] reads as many bytes as the prefix has. *)
Definition signal_inline_image_has_prefix (data : memory) (size : N) (prefix : list byte) : option bool :=
  match data with
  | None => Some false
  | Some block =>
      if (size <? len prefix)%N then Some false
      else if (len block <? len prefix)%N then None
      else Some (bytes_start_with prefix block)
  end.

(** The two bytes from [offset] on, as a [guint16]. *)
Definition signal_inline_gif_read_u16 (data : memory) (offset : N) : option N :=
  lo ← mem_read data offset;
  hi ← mem_read data (offset + 1);
  Some (N.lor (byte_N lo) (N.shiftl (byte_N hi) 8)).

(** The new offset, or [None] for [FALSE]. *)
Definition signal_inline_gif_advance (offset amount size : N) : option N :=
  if (size <? offset)%N || (size - offset <? amount)%N then None else Some (offset + amount)%N.

(** [Some (Some o)] is [TRUE] with [*offset = o], [Some None] is [FALSE]. *)
Fixpoint signal_inline_gif_skip_sub_blocks (fuel : nat) (data : memory) (size offset : N) : option (option N) :=
  match fuel with
  | 0 => None
  | S fuel =>
      if (offset <? size)%N then
        block_size ← mem_read data offset;
        if (byte_N block_size =? 0)%N then Some (Some (offset + 1)%N)
        else
          match signal_inline_gif_advance (offset + 1) (byte_N block_size) size with
          | None => Some None
          | Some offset => signal_inline_gif_skip_sub_blocks fuel data size offset
          end
      else Some None
  end.

(** Both arguments are [int]; the product is taken as [guint64]. *)
Definition signal_inline_image_dimensions_are_supported (width height : Z) : bool :=
  (0 <? width)%Z && (0 <? height)%Z && (width <=? SIGNAL_INLINE_IMAGE_MAX_EDGE)%Z
  && (height <=? SIGNAL_INLINE_IMAGE_MAX_EDGE)%Z && (width * height <=? SIGNAL_INLINE_IMAGE_MAX_PIXELS)%Z.

Definition signal_inline_image_size_is_supported (size : N) : bool :=
  (0 <? size)%N && (size <=? SIGNAL_INLINE_IMAGE_MAX_BYTES)%N.

(** [(packed & 0x80u) != 0], and the size of the table it announces. *)
Definition c_skip_color_table (packed : byte) (offset size : N) : option N :=
  if (N.land (byte_N packed) 128 =? 0)%N then Some offset
  else signal_inline_gif_advance offset (N.shiftl 3 (N.land (byte_N packed) 7 + 1)) size.

(** The branch of marker 0x2c, right after it: where to go on and the number
    of frames, or [Some None] for [FALSE]. *)
Definition c_gif_image (fuel : nat) (data : memory) (size canvas_width canvas_height canvas_pixels offset frames : N)
  : option (option (N * N)) :=
  if (size <? offset)%N || (size - offset <? 9)%N then Some None
  else
    left ← signal_inline_gif_read_u16 data offset;
    top ← signal_inline_gif_read_u16 data (offset + 2);
    width ← signal_inline_gif_read_u16 data (offset + 4);
    height ← signal_inline_gif_read_u16 data (offset + 6);
    image_packed ← mem_read data (offset + 8);
    let offset := (offset + 9)%N in
    if (width =? 0)%N || (height =? 0)%N || (canvas_width <? left + width)%N || (canvas_height <? top + height)%N
    then Some None
    else
      let frames := (frames + 1)%N in
      if (canvas_pixels =? 0)%N then None
      else if (SIGNAL_INLINE_GIF_MAX_PIXEL_FRAMES / canvas_pixels <? frames)%N then Some None
      else
        match c_skip_color_table image_packed offset size with
        | None => Some None
        | Some offset =>
            if (size <=? offset)%N then Some None
            else
              code_size ← mem_read data offset;
              if (byte_N code_size <? 2)%N || (8 <? byte_N code_size)%N then Some None
              else
                skipped ← signal_inline_gif_skip_sub_blocks fuel data size (offset + 1);
                Some (match skipped with Some o => Some (o, frames) | None => None end)
        end.

(** The loop over the blocks. *)
Fixpoint c_gif_blocks (fuel : nat) (data : memory) (size canvas_width canvas_height canvas_pixels offset frames : N)
  : option bool :=
  match fuel with
  | 0 => None
  | S fuel =>
      if (offset <? size)%N then
        marker ← mem_read data offset;
        let offset := (offset + 1)%N in
        if (byte_N marker =? 59)%N then Some (0 <? frames)%N
        else if (byte_N marker =? 33)%N then
          match signal_inline_gif_advance offset 1 size with
          | None => Some false
          | Some offset =>
              skipped ← signal_inline_gif_skip_sub_blocks (S (N.to_nat size)) data size offset;
              match skipped with
              | None => Some false
              | Some offset => c_gif_blocks fuel data size canvas_width canvas_height canvas_pixels offset frames
              end
          end
        else if (byte_N marker =? 44)%N then
          image ← c_gif_image (S (N.to_nat size)) data size canvas_width canvas_height canvas_pixels offset frames;
          match image with
          | None => Some false
          | Some (offset, frames) => c_gif_blocks fuel data size canvas_width canvas_height canvas_pixels offset frames
          end
        else Some false
      else Some false
  end.

Definition signal_inline_gif_is_bounded (data : memory) (size : N) : option bool :=
  if (size <? 13)%N || (SIGNAL_INLINE_IMAGE_MAX_BYTES <? size)%N then Some false
  else
    gif87a ← signal_inline_image_has_prefix data size GIF87a;
    gif89a ← (if gif87a : bool then Some false else signal_inline_image_has_prefix data size GIF89a);
    if negb gif87a && negb gif89a then Some false
    else
      canvas_width ← signal_inline_gif_read_u16 data 6;
      canvas_height ← signal_inline_gif_read_u16 data 8;
      if negb (signal_inline_image_dimensions_are_supported (Z.of_N canvas_width) (Z.of_N canvas_height))
      then Some false
      else
        packed ← mem_read data 10;
        match c_skip_color_table packed 13 size with
        | None => Some false
        | Some offset =>
            c_gif_blocks (S (N.to_nat size)) data size canvas_width canvas_height (canvas_width * canvas_height) offset 0
        end.

(** ** Agreement with the Rust core *)

Section Agreement.
Variables (block : list byte) (size : N).
Hypothesis Hsize : (size <= len block)%N.

Local Abbreviation data := (take (N.to_nat size) block).

Lemma len_data : len data = size.
Proof. unfold len in *. rewrite length_take. lia. Qed.

Lemma mem_read_data i : (i < size)%N → mem_read (Some block) i = index data i.
Proof. intros Hi. unfold mem_read, index. symmetry. apply lookup_take_lt. lia. Qed.

Lemma index_data i : (i < size)%N → is_Some (index data i).
Proof. intros Hi. unfold index. apply lookup_lt_is_Some. pose proof len_data. unfold len in *. lia. Qed.

Lemma lor_bytes lo hi : N.lor (byte_N lo) (N.shiftl (byte_N hi) 8) = (byte_N lo + 256 * byte_N hi)%N.
Proof.
  pose proof (Byte.to_N_bounded lo). unfold byte_N.
  assert (Hd : N.land (Byte.to_N lo) (N.shiftl (Byte.to_N hi) 8) = 0%N).
  { apply N.bits_inj. intros k. rewrite N.land_spec, N.bits_0. destruct (N.lt_ge_cases k 8).
    - by rewrite N.shiftl_spec_low, andb_false_r by done.
    - apply andb_false_iff. left. apply N.testbit_false.
      assert (2 ^ 8 <= 2 ^ k)%N by (by apply N.pow_le_mono_r). by rewrite N.div_small by lia. }
  rewrite <-N.lxor_lor, <-N.add_nocarry_lxor by done. rewrite N.shiftl_mul_pow2. lia.
Qed.

Lemma read_u16_data i :
  (i + 2 <= size)%N → (size <= usize_max)%N → signal_inline_gif_read_u16 (Some block) i = gif_u16 data i.
Proof.
  intros Hi Hm. unfold signal_inline_gif_read_u16, gif_u16.
  rewrite (proj2 (checked_add_Some usize_max i 2 _)) by (split; [done|lia]). simpl. rewrite len_data.
  rewrite (proj2 (N.ltb_ge _ _)), !mem_read_data by lia.
  destruct (index_data i) as [lo ->]; [lia|]. destruct (index_data (i + 1)) as [hi ->]; [lia|]. simpl.
  by rewrite lor_bytes.
Qed.

Lemma gif_u16_data i : (i + 2 <= size)%N → (size <= usize_max)%N →
  ∃ v, gif_u16 data i = Some v ∧ (v < 65536)%N.
Proof.
  intros Hi Hm. unfold gif_u16. rewrite (proj2 (checked_add_Some usize_max i 2 _)) by (split; [done|lia]). simpl.
  rewrite len_data, (proj2 (N.ltb_ge _ _)) by lia. destruct (index_data i) as [lo ->]; [lia|].
  destruct (index_data (i + 1)) as [hi ->]; [lia|]. simpl. eexists. split; [done|].
  pose proof (Byte.to_N_bounded lo). pose proof (Byte.to_N_bounded hi). unfold byte_N. lia.
Qed.

Lemma skip_sub_blocks_data fuel offset :
  signal_inline_gif_skip_sub_blocks fuel (Some block) size offset = skip_gif_sub_blocks fuel data offset.
Proof.
  revert offset. induction fuel as [|fuel IH]; intros offset; [done|]. simpl. rewrite len_data.
  destruct (N.ltb_spec offset size) as [Hlt|]; [|done]. rewrite mem_read_data by done. unfold index.
  destruct (data !! N.to_nat offset) as [b|]; [|done]. simpl. destruct (byte_N b =? 0)%N; [done|].
  change (advance_gif_offset (offset + 1) (byte_N b) size) with (signal_inline_gif_advance (offset + 1) (byte_N b) size).
  by destruct (signal_inline_gif_advance _ _ _).
Qed.

Lemma c_skip_color_table_eq packed offset :
  c_skip_color_table packed offset size = skip_color_table packed offset size.
Proof. unfold c_skip_color_table, skip_color_table, has_color_table. by destruct (_ =? 0)%N. Qed.

Lemma gif_image_data fuel cw ch px offset frames :
  (size <= usize_max)%N → (cw < 65536)%N → (ch < 65536)%N → (0 < px)%N →
  c_gif_image fuel (Some block) size cw ch px offset frames = gif_image fuel data cw ch px offset frames.
Proof.
  intros Hm Hcw Hch Hpx. unfold c_gif_image, gif_image. rewrite len_data.
  destruct (_ || _) eqn:E; [done|]. apply orb_false_iff in E as [E1 E2]. bool_prop.
  rewrite !read_u16_data by lia.
  destruct (gif_u16_data offset) as (x&->&Hx); [lia..|]. destruct (gif_u16_data (offset + 2)) as (y&->&Hy); [lia..|].
  destruct (gif_u16_data (offset + 4)) as (w&->&Hw); [lia..|]. destruct (gif_u16_data (offset + 6)) as (h&->&Hh); [lia..|].
  simpl. rewrite mem_read_data by lia. destruct (index_data (offset + 8)) as [packed ->]; [lia|]. simpl.
  rewrite !(proj2 (checked_add_Some usize_max _ _ _)) by (split; [done|unfold usize_max, u64_max; lia]). simpl.
  destruct (_ || _ || _ || _); [done|]. rewrite (proj2 (N.eqb_neq px 0)) by lia.
  change SIGNAL_INLINE_GIF_MAX_PIXEL_FRAMES with MAX_INLINE_GIF_PIXEL_FRAMES. destruct (_ <? frames + 1)%N; [done|].
  rewrite c_skip_color_table_eq. destruct (skip_color_table _ _ _) as [o|]; [|done].
  destruct (N.leb_spec size o) as [|Ho]; [done|]. rewrite mem_read_data by done.
  destruct (index_data o) as [code ->]; [done|]. simpl. rewrite skip_sub_blocks_data.
  rewrite negb_andb, <-N.ltb_antisym, <-N.ltb_antisym. by destruct (_ || _).
Qed.

Lemma gif_blocks_data fuel cw ch px offset frames :
  (size <= usize_max)%N → (cw < 65536)%N → (ch < 65536)%N → (0 < px)%N →
  c_gif_blocks fuel (Some block) size cw ch px offset frames = gif_blocks fuel data cw ch px offset frames.
Proof.
  intros Hm Hcw Hch Hpx. revert offset frames. induction fuel as [|fuel IH]; intros offset frames; [done|].
  cbn [c_gif_blocks gif_blocks]. rewrite len_data. destruct (N.ltb_spec offset size) as [Hlt|]; [|done].
  rewrite mem_read_data by done. destruct (index_data offset) as [marker ->]; [done|]. cbn [mbind option_bind].
  assert (Hlen : length data = N.to_nat size) by (pose proof len_data; unfold len in *; lia). rewrite Hlen.
  destruct marker; try reflexivity; cbn -[signal_inline_gif_advance advance_gif_offset gif_image c_gif_image
    signal_inline_gif_skip_sub_blocks skip_gif_sub_blocks].
  - change (advance_gif_offset (offset + 1) 1 size) with (signal_inline_gif_advance (offset + 1) 1 size).
    destruct (signal_inline_gif_advance _ _ _) as [o|]; [|done]. rewrite skip_sub_blocks_data.
    by destruct (skip_gif_sub_blocks _ _ _) as [[]|]; simpl.
  - rewrite gif_image_data by done. by destruct (gif_image _ _ _ _ _ _ _) as [[[]|]|]; simpl.
Qed.

Lemma has_prefix_data prefix :
  (len prefix <= size)%N → signal_inline_image_has_prefix (Some block) size prefix = Some (bytes_start_with prefix data).
Proof.
  intros Hp. unfold signal_inline_image_has_prefix. rewrite !(proj2 (N.ltb_ge _ _)) by lia. f_equal.
  assert (Hp' : length prefix <= N.to_nat size) by (unfold len in *; lia). clear Hp Hsize. revert prefix Hp'.
  generalize (N.to_nat size). induction block as [|b l IH]; intros [|n] [|p prefix] Hp; simpl in *; try done; try lia.
  f_equal. apply IH. lia.
Qed.

Lemma dimensions_supported w h :
  negb (signal_inline_image_dimensions_are_supported (Z.of_N w) (Z.of_N h)) =
  (w =? 0)%N || (h =? 0)%N || (MAX_INLINE_GIF_EDGE <? w)%N || (MAX_INLINE_GIF_EDGE <? h)%N
  || (MAX_INLINE_GIF_PIXELS <? w * h)%N.
Proof.
  unfold signal_inline_image_dimensions_are_supported, SIGNAL_INLINE_IMAGE_MAX_EDGE, SIGNAL_INLINE_IMAGE_MAX_PIXELS,
    MAX_INLINE_GIF_EDGE, MAX_INLINE_GIF_PIXELS. rewrite !negb_andb, <-!Z.ltb_antisym, <-!Z.leb_antisym.
  f_equal; [f_equal; [f_equal; [f_equal|]|]|]; apply eq_bool_prop_intro; split; intros H%Is_true_eq_true;
    apply Is_true_eq_left; first [apply N.eqb_eq|apply N.ltb_lt|apply Z.ltb_lt|apply Z.leb_le];
    first [apply N.eqb_eq in H|apply N.ltb_lt in H|apply Z.ltb_lt in H|apply Z.leb_le in H]; lia.
Qed.

Lemma is_bounded_data : signal_inline_gif_is_bounded (Some block) size = bounded_inline_gif data.
Proof.
  unfold signal_inline_gif_is_bounded, bounded_inline_gif. rewrite len_data.
  change MAX_INLINE_MEDIA_BYTES with SIGNAL_INLINE_IMAGE_MAX_BYTES.
  destruct (_ || _) eqn:E; [done|]. apply orb_false_iff in E as [E1 E2]. bool_prop.
  assert (Hm : (size <= usize_max)%N) by (unfold SIGNAL_INLINE_IMAGE_MAX_BYTES, usize_max, u64_max in *; lia).
  rewrite !has_prefix_data by (unfold len; simpl; lia). cbn [mbind option_bind orb].
  destruct (bytes_start_with GIF87a data); [|destruct (bytes_start_with GIF89a data); [|done]].
  all: cbn [negb andb orb mbind option_bind].
  all: rewrite !read_u16_data by lia; destruct (gif_u16_data 6) as (w&->&Hw); [lia..|].
  all: destruct (gif_u16_data 8) as (h&->&Hh); [lia..|]; cbn [mbind option_bind].
  all: assert (checked_mul usize_max w h = Some (w * h)%N) as ->
    by (unfold checked_mul, usize_max, u64_max; rewrite decide_True; [done|nia]).
  all: rewrite dimensions_supported; destruct (_ || _ || _ || _ || _) eqn:Ed; [done|]; bool_prop.
  all: rewrite mem_read_data by lia; destruct (index_data 10) as [packed ->]; [lia|]; cbn [mbind option_bind].
  all: rewrite c_skip_color_table_eq; destruct (skip_color_table _ _ _) as [o|]; [|done].
  all: rewrite gif_blocks_data by (done || nia); pose proof len_data; unfold len in *.
  all: by replace (length data) with (N.to_nat size) by lia.
Qed.

End Agreement.

(** C36. The plugin and the core judge GIFs alike: on every block of memory with
    at least [size] readable bytes, the validator of the plugin reads only the
    first [size] of them, never divides by zero, ends, and returns what the
    validator of the core returns on these bytes; so a file is accepted exactly
    if it is a GIF within the limits. *)
Theorem gif_validators_agree block size :
  (size <= len block)%N →
  signal_inline_gif_is_bounded (Some block) size = bounded_inline_gif (take (N.to_nat size) block) ∧
  ∃ b, signal_inline_gif_is_bounded (Some block) size = Some b ∧
       (b = true ↔ ∃ frames, inline_gif (take (N.to_nat size) block) frames).
Proof.
  intros Hsize. rewrite (is_bounded_data block size Hsize). split; [done|]. apply bounded_inline_gif_decides.
Qed.

Lemma gif_validators_agree_witness :
  signal_inline_gif_is_bounded (Some (tiny_gif ++ [x00])) (len tiny_gif) = Some true.
Proof.
  rewrite (proj1 (gif_validators_agree (tiny_gif ++ [x00]) (len tiny_gif) ltac:(vm_compute; congruence))).
  vm_compute. reflexivity.
Defined.
