(* ===== verification/ProjectionState.v ===== *)
(** * ProjectionState: messages on their way to the screen

    Models the state types of [rust/signal-core/src/backend/projection.rs]:
    which messages are pending or recently completed, which deliveries await
    an acknowledgment, which messages are replayed, and which delivery
    receipts are still to be sent.  The acknowledgment inbox is shared with
    the C thread ([Acknowledgment]); [Deliveries] puts both together. *)
From S2P Require Import Prelude SignalTypes StoreErrors Event Acknowledgment.

Definition MAX_PENDING_MESSAGE_PROJECTIONS : N := 64.
Definition MAX_PENDING_DELIVERY_RECEIPTS : N := 4096.
Definition RECENT_PROJECTION_IDENTITY_LIMIT : N := 4096.

(** ** Projection identities *)

Record ProjectionIdentity := mkIdentity {
  pi_sender : string;
  pi_destination : string;
  pi_timestamp_ms : Z;
}.

#[export] Instance ProjectionIdentity_eq_dec : EqDecision ProjectionIdentity.
Proof. solve_decision. Defined.

#[export] Program Instance ProjectionIdentity_countable : Countable ProjectionIdentity :=
  inj_countable' (λ i, (pi_sender i, pi_destination i, pi_timestamp_ms i))
                 (λ t, mkIdentity t.1.1 t.1.2 t.2) _.
Next Obligation. by intros []. Qed.

Record ProjectionIdentities := mkIdentities {
  ids_pending : gset ProjectionIdentity;
  ids_completed : gset ProjectionIdentity;
  ids_completed_order : list ProjectionIdentity;
}.

Definition identities_default : ProjectionIdentities := mkIdentities ∅ ∅ [].

(** [reserve]: whether the identity was new, and the state. *)
Definition identities_reserve (i : ProjectionIdentity) (s : ProjectionIdentities)
  : bool * ProjectionIdentities :=
  if decide (i ∈ ids_completed s) then (false, s)
  else (bool_decide (i ∉ ids_pending s),
        mkIdentities ({[i]} ∪ ids_pending s) (ids_completed s) (ids_completed_order s)).

Definition identities_release (i : ProjectionIdentity) (s : ProjectionIdentities) : ProjectionIdentities :=
  mkIdentities (ids_pending s ∖ {[i]}) (ids_completed s) (ids_completed_order s).

(** The loop that forgets the oldest completed identities. *)
Fixpoint expire_completed (fuel : nat) (s : ProjectionIdentities) : ProjectionIdentities :=
  match fuel with
  | 0 => s
  | S fuel =>
      if (RECENT_PROJECTION_IDENTITY_LIMIT <? len (ids_completed_order s))%N then
        match ids_completed_order s with
        | expired :: rest =>
            expire_completed fuel (mkIdentities (ids_pending s) (ids_completed s ∖ {[expired]}) rest)
        | [] => expire_completed fuel s
        end
      else s
  end.

Definition identities_complete (i : ProjectionIdentity) (s : ProjectionIdentities) : ProjectionIdentities :=
  let pending := ids_pending s ∖ {[i]} in
  if decide (i ∈ ids_completed s)
  then mkIdentities pending (ids_completed s) (ids_completed_order s)
  else
    let order := ids_completed_order s ++ [i] in
    expire_completed (S (length order)) (mkIdentities pending ({[i]} ∪ ids_completed s) order).

(** ** Delivery receipts *)

Record DeliveryReceiptIdentity := mkReceiptIdentity {
  ri_recipient : string;
  ri_message_timestamp : N;
}.

#[export] Instance DeliveryReceiptIdentity_eq_dec : EqDecision DeliveryReceiptIdentity.
Proof. solve_decision. Defined.

#[export] Program Instance DeliveryReceiptIdentity_countable : Countable DeliveryReceiptIdentity :=
  inj_countable' (λ i, (ri_recipient i, ri_message_timestamp i)) (λ t, mkReceiptIdentity t.1 t.2) _.
Next Obligation. by intros []. Qed.

Inductive DeliveryReceiptState := ReceiptReady | ReceiptInFlight | ReceiptDeferred.

#[export] Instance DeliveryReceiptState_eq_dec : EqDecision DeliveryReceiptState.
Proof. solve_decision. Defined.

Section Projection.
Context `{Ids : SignalIds}.

Definition projection_identity (content : Content) : ProjectionIdentity :=
  mkIdentity (service_id_string (md_sender (ct_metadata content)))
             (service_id_string (md_destination (ct_metadata content)))
             (md_client_timestamp (ct_metadata content)).

Record PendingDeliveryReceipt := mkReceipt {
  receipt_identity : DeliveryReceiptIdentity;
  receipt_recipient : ServiceId;
  receipt_send_timestamp : N;
}.

Record DeliveryReceiptQueue := mkReceipts {
  rq_pending : list (PendingDeliveryReceipt * DeliveryReceiptState);
  rq_identities : gset DeliveryReceiptIdentity;
  rq_limit_reported : bool;
}.

Definition receipts_default : DeliveryReceiptQueue := mkReceipts [] ∅ false.

(** [enqueue]: whether the limit is to be reported, and the queue. *)
Definition receipts_enqueue (recipient : ServiceId) (message_timestamp send_timestamp : N)
  (q : DeliveryReceiptQueue) : bool * DeliveryReceiptQueue :=
  let identity := mkReceiptIdentity (service_id_string recipient) message_timestamp in
  if decide (identity ∈ rq_identities q) then (false, q)
  else if (MAX_PENDING_DELIVERY_RECEIPTS <=? len (rq_pending q))%N
  then (negb (rq_limit_reported q), mkReceipts (rq_pending q) (rq_identities q) true)
  else (false, mkReceipts (rq_pending q ++ [(mkReceipt identity recipient send_timestamp, ReceiptReady)])
                 ({[identity]} ∪ rq_identities q) (rq_limit_reported q)).

(** The first ready receipt, marked as in flight. *)
Fixpoint start_first (l : list (PendingDeliveryReceipt * DeliveryReceiptState))
  : option (PendingDeliveryReceipt * list (PendingDeliveryReceipt * DeliveryReceiptState)) :=
  match l with
  | [] => None
  | (r, ReceiptReady) :: rest => Some (r, (r, ReceiptInFlight) :: rest)
  | p :: rest => '(r, rest') ← start_first rest; Some (r, p :: rest')
  end.

Definition receipts_start_next (session_ready : bool) (q : DeliveryReceiptQueue)
  : option PendingDeliveryReceipt * DeliveryReceiptQueue :=
  if session_ready then
    match start_first (rq_pending q) with
    | Some (r, l) => (Some r, mkReceipts l (rq_identities q) (rq_limit_reported q))
    | None => (None, q)
    end
  else (None, q).

Fixpoint remove_receipt (i : DeliveryReceiptIdentity)
  (l : list (PendingDeliveryReceipt * DeliveryReceiptState))
  : option (list (PendingDeliveryReceipt * DeliveryReceiptState)) :=
  match l with
  | [] => None
  | p :: rest => if decide (receipt_identity p.1 = i) then Some rest
                 else rest' ← remove_receipt i rest; Some (p :: rest')
  end.

Definition receipts_complete (i : DeliveryReceiptIdentity) (q : DeliveryReceiptQueue)
  : DeliveryReceiptQueue :=
  match remove_receipt i (rq_pending q) with
  | None => q
  | Some l => mkReceipts l (rq_identities q ∖ {[i]})
                (if (len l <? MAX_PENDING_DELIVERY_RECEIPTS)%N then false else rq_limit_reported q)
  end.

Fixpoint set_first_state (i : DeliveryReceiptIdentity) (s : DeliveryReceiptState)
  (l : list (PendingDeliveryReceipt * DeliveryReceiptState))
  : list (PendingDeliveryReceipt * DeliveryReceiptState) :=
  match l with
  | [] => []
  | p :: rest => if decide (receipt_identity p.1 = i) then (p.1, s) :: rest
                 else p :: set_first_state i s rest
  end.

Definition receipts_retry (i : DeliveryReceiptIdentity) (immediately : bool) (q : DeliveryReceiptQueue)
  : DeliveryReceiptQueue :=
  mkReceipts (set_first_state i (if immediately then ReceiptReady else ReceiptDeferred) (rq_pending q))
    (rq_identities q) (rq_limit_reported q).

(** Every receipt in state [from] becomes ready. *)
Definition make_ready (from : DeliveryReceiptState) (q : DeliveryReceiptQueue) : DeliveryReceiptQueue :=
  mkReceipts ((λ p, (p.1, if decide (p.2 = from) then ReceiptReady else p.2)) <$> rq_pending q)
    (rq_identities q) (rq_limit_reported q).

Definition receipts_activate_retries : DeliveryReceiptQueue → DeliveryReceiptQueue := make_ready ReceiptDeferred.
Definition receipts_release_in_flight : DeliveryReceiptQueue → DeliveryReceiptQueue := make_ready ReceiptInFlight.

(** [DeliveryReceiptCompletion] without its generation; [finish] returns the
    event to emit, the reason to rebuild the connection, and the queue. *)
Definition finish_delivery_receipt_attempt (receipt : PendingDeliveryReceipt)
  (res : result unit PresageError) (q : DeliveryReceiptQueue)
  : option Event * option string * DeliveryReceiptQueue :=
  match res with
  | Ok _ => (None, None, receipts_complete (receipt_identity receipt) q)
  | Err e =>
      match delivery_receipt_failure_action e with
      | RetryReceipt => (None, None, receipts_retry (receipt_identity receipt) false q)
      | RecoverReceipt =>
          (None, Some ("Signal websocket closed while sending a delivery receipt: " +:+ presage_text e),
           receipts_retry (receipt_identity receipt) true q)
      | DiscardReceipt =>
          (Some (error ("Could not send a Signal delivery receipt: " +:+ presage_text e) false), None,
           receipts_complete (receipt_identity receipt) q)
      end
  end.

(** ** Pending deliveries *)

(** [MessageProjection] without the inbox it shares with C and the set of
    receipt tasks. *)
Record MessageProjection := mkProjection {
  next_delivery_id : N;
  mp_pending : gmap N Content;
  mp_identities : ProjectionIdentities;
  mp_delivery_receipts : DeliveryReceiptQueue;
}.

Definition projection_new : MessageProjection := mkProjection 0 ∅ identities_default receipts_default.

Definition has_capacity (p : MessageProjection) : bool :=
  (N.of_nat (size (mp_pending p)) <? MAX_PENDING_MESSAGE_PROJECTIONS)%N.

Definition set_identities (i : ProjectionIdentities) (p : MessageProjection) : MessageProjection :=
  mkProjection (next_delivery_id p) (mp_pending p) i (mp_delivery_receipts p).

Definition set_receipts (q : DeliveryReceiptQueue) (p : MessageProjection) : MessageProjection :=
  mkProjection (next_delivery_id p) (mp_pending p) (mp_identities p) q.

(** [track]; the caller registers the returned id with the inbox. *)
Definition track (content : Content) (p : MessageProjection) : option N * MessageProjection :=
  if negb (has_capacity p) then (None, p)
  else
    let r := identities_reserve (projection_identity content) (mp_identities p) in
    if negb r.1 then (None, set_identities r.2 p)
    else
      let delivery_id := N.max (wrapping_add u64_max (next_delivery_id p) 1) 1 in
      (Some delivery_id,
       mkProjection delivery_id (<[delivery_id := content]> (mp_pending p)) r.2 (mp_delivery_receipts p)).

(** [release] and [complete]; the caller unregisters the id if a content is
    returned. *)
Definition projection_release (delivery_id : N) (p : MessageProjection) : option Content * MessageProjection :=
  match mp_pending p !! delivery_id with
  | None => (None, p)
  | Some content =>
      (Some content,
       mkProjection (next_delivery_id p) (delete delivery_id (mp_pending p))
         (identities_release (projection_identity content) (mp_identities p)) (mp_delivery_receipts p))
  end.

Definition projection_complete (delivery_id : N) (p : MessageProjection) : option Content * MessageProjection :=
  match mp_pending p !! delivery_id with
  | None => (None, p)
  | Some content =>
      (Some content,
       mkProjection (next_delivery_id p) (delete delivery_id (mp_pending p))
         (identities_complete (projection_identity content) (mp_identities p)) (mp_delivery_receipts p))
  end.

(** ** Replay *)

Definition has_group_v2 (m : DataMessage) : bool := bool_decide (is_Some (dm_group_v2 m)).

Definition content_has_group_context (body : ContentBody) : bool :=
  match body with
  | BodyData m => has_group_v2 m
  | BodyEdit e => is_some_and (em_data_message e) has_group_v2
  | BodySyncSent s =>
      is_some_and (match st_message s with
                   | Some m => Some m
                   | None => st_edit_message s ≫= em_data_message
                   end) has_group_v2
  | _ => false
  end.

Definition content_is_projectable (body : ContentBody) (groups_authoritative : bool) : bool :=
  groups_authoritative || negb (content_has_group_context body).

Record MessageReplayQueue := mkReplay {
  rp_ready : list Content;
  rp_waiting_for_groups : list Content;
}.

Definition replay_default : MessageReplayQueue := mkReplay [] [].

Definition replay_push (content : Content) (groups_authoritative : bool) (q : MessageReplayQueue)
  : MessageReplayQueue :=
  if content_has_group_context (ct_body content) && negb groups_authoritative
  then mkReplay (rp_ready q) (rp_waiting_for_groups q ++ [content])
  else mkReplay (rp_ready q ++ [content]) (rp_waiting_for_groups q).

Definition replay_replace (messages : list Content) (groups_authoritative : bool) (q : MessageReplayQueue)
  : MessageReplayQueue :=
  foldl (λ q content, replay_push content groups_authoritative q) (mkReplay [] []) messages.

Definition replay_activate_groups (q : MessageReplayQueue) : MessageReplayQueue :=
  mkReplay (rp_ready q ++ rp_waiting_for_groups q) [].

Definition replay_pop_ready (q : MessageReplayQueue) : option Content * MessageReplayQueue :=
  match rp_ready q with
  | [] => (None, q)
  | c :: rest => (Some c, mkReplay rest (rp_waiting_for_groups q))
  end.

Definition can_accept_live_message (q : MessageReplayQueue) : bool :=
  (saturating_add usize_max (len (rp_ready q)) (len (rp_waiting_for_groups q))
   <? MAX_PENDING_MESSAGE_PROJECTIONS)%N.

(** ** Identities: the invariant *)

Definition identities_ok (s : ProjectionIdentities) : Prop :=
  NoDup (ids_completed_order s) ∧ (∀ i, i ∈ ids_completed_order s ↔ i ∈ ids_completed s) ∧
  (len (ids_completed_order s) <= RECENT_PROJECTION_IDENTITY_LIMIT)%N ∧
  ids_pending s ## ids_completed s.

Lemma expire_completed_spec fuel s :
  length (ids_completed_order s) < fuel → NoDup (ids_completed_order s) →
  (∀ i, i ∈ ids_completed_order s ↔ i ∈ ids_completed s) →
  let s' := expire_completed fuel s in
  ids_pending s' = ids_pending s ∧ NoDup (ids_completed_order s') ∧
  (∀ i, i ∈ ids_completed_order s' ↔ i ∈ ids_completed s') ∧
  ids_completed_order s' = drop (length (ids_completed_order s) - N.to_nat RECENT_PROJECTION_IDENTITY_LIMIT)
                             (ids_completed_order s).
Proof.
  revert s. induction fuel as [|fuel IH]; intros s Hf Hn Hc; [lia|]. simpl.
  destruct (_ <? len _)%N eqn:E; bool_prop.
  - destruct (ids_completed_order s) as [|x rest] eqn:Eo; [by vm_compute in E|].
    apply NoDup_cons in Hn as [Hx Hn]. unfold len in E. simpl in *.
    destruct (IH (mkIdentities (ids_pending s) (ids_completed s ∖ {[x]}) rest)) as (H1&H2&H3&H4); simpl.
    + lia.
    + done.
    + intros i. rewrite elem_of_difference, elem_of_singleton, <-Hc, elem_of_cons. naive_solver.
    + split_and!; [done..|]. simpl in H4. rewrite H4.
      unfold RECENT_PROJECTION_IDENTITY_LIMIT in *.
      replace (length rest - 4095) with (S (length rest - N.to_nat 4096)) by lia. done.
  - split_and!; [done..|]. unfold len in E.
    replace (length (ids_completed_order s) - N.to_nat RECENT_PROJECTION_IDENTITY_LIMIT) with 0 by lia.
    done.
Qed.

Lemma identities_reserve_ok i s :
  identities_ok s →
  let r := identities_reserve i s in
  identities_ok r.2 ∧ ids_completed r.2 = ids_completed s ∧
  (r.1 = true → (i ∉ ids_pending s) ∧ (i ∉ ids_completed s) ∧ ids_pending r.2 = ({[i]} ∪ ids_pending s)) ∧
  (r.1 = false → ids_pending r.2 = ids_pending s).
Proof.
  intros (?&?&?&Hd). unfold identities_reserve. case_decide as Hc; simpl.
  { split_and!; done. }
  split_and!; try done.
  - unfold identities_ok. simpl. split_and!; [done..|set_solver].
  - rewrite bool_decide_eq_true. done.
  - rewrite bool_decide_eq_false. intros Hn. apply dec_stable in Hn. set_solver.
Qed.

Lemma identities_complete_ok i s :
  identities_ok s →
  identities_ok (identities_complete i s) ∧
  ids_pending (identities_complete i s) = ids_pending s ∖ {[i]} ∧
  i ∈ ids_completed (identities_complete i s).
Proof.
  intros (Hn&Hc&Hl&Hd). unfold identities_complete. case_decide as Hi.
  { split_and!; try done. unfold identities_ok. simpl. split_and!; [done..|set_solver]. }
  set (s0 := mkIdentities _ _ _).
  destruct (expire_completed_spec (S (length (ids_completed_order s0))) s0) as (H1&H2&H3&H4).
  { lia. }
  { simpl. apply NoDup_app. split_and!; [done| |apply NoDup_singleton]. intros x Hx%Hc. set_solver. }
  { intros x. simpl. rewrite elem_of_app, Hc. set_solver. }
  change (ids_completed_order s0) with (ids_completed_order s ++ [i]) in *.
  set (s1 := expire_completed _ _) in *. clearbody s1. simpl in H1.
  assert (Hin : i ∈ ids_completed_order s1).
  { rewrite H4, length_app. simpl. rewrite drop_app_le.
    - apply elem_of_app. right. by left.
    - unfold RECENT_PROJECTION_IDENTITY_LIMIT. lia. }
  assert (Hsub : ids_completed s1 ⊆ {[i]} ∪ ids_completed s).
  { intros x Hx%H3. rewrite H4 in Hx. set (l := ids_completed_order s ++ [i]) in *. set (k := _ - _) in Hx.
    assert (Hx' : x ∈ take k l ++ drop k l) by (apply elem_of_app; by right).
    rewrite take_drop in Hx'. unfold l in Hx'. rewrite elem_of_app, Hc in Hx'. set_solver. }
  split_and!; [|done|by apply H3]. unfold identities_ok. split_and!; [done..| |rewrite H1; set_solver].
  rewrite H4. unfold len. rewrite length_drop, length_app.
  unfold RECENT_PROJECTION_IDENTITY_LIMIT, len in *. simpl. lia.
Qed.

(** ** Deliveries: the projection together with the inbox *)

Record Deliveries := mkDeliveries {
  dl_projection : MessageProjection;
  dl_inbox : Inbox;
}.

Definition update_inbox (f : AcknowledgmentState → AcknowledgmentState) (i : Inbox) : Inbox :=
  mkInbox (f (inbox_state i)) (in_flight i) (woken i).

(** Unregistering also ends the processing of the id. *)
Definition unregister_inbox (id : N) (i : Inbox) : Inbox :=
  mkInbox (ack_unregister id (inbox_state i)) (filter (λ x, x ≠ id) (in_flight i)) (woken i).

(** The inbox steps of the C thread and of the processing of batches. *)
Inductive inbox_only : Inbox → Inbox → Prop :=
| only_submit i id : inbox_only i (update_inbox (λ s, (ack_submit id s).2) i)
| only_wait i s : ack_wait (inbox_state i) = Some s → inbox_only i (mkInbox s (in_flight i) true)
| only_take i maximum : (0 < maximum)%N →
    inbox_only i (mkInbox (ack_take_ready maximum (inbox_state i)).2
                    (in_flight i ++ (ack_take_ready maximum (inbox_state i)).1) false)
| only_defer i id before after : in_flight i = before ++ id :: after →
    inbox_only i (mkInbox (ack_defer_retry id (inbox_state i)) (before ++ after) (woken i))
| only_activate i : inbox_only i (update_inbox ack_activate_retries i)
| only_close i : inbox_only i (update_inbox ack_close i).

(** [track] with its registration, [release] and [complete] with theirs, an
    acknowledgment of an unknown delivery, and the inbox steps.  Delivery ids
    are 64 bits wide: fewer than 2^64 - 1 messages are tracked. *)
Inductive delivery_step : Deliveries → Deliveries → Prop :=
| delivery_track d content id p :
    (next_delivery_id (dl_projection d) < u64_max)%N →
    track content (dl_projection d) = (Some id, p) →
    delivery_step d (mkDeliveries p (update_inbox (ack_register id) (dl_inbox d)))
| delivery_refuse d content p :
    track content (dl_projection d) = (None, p) →
    delivery_step d (mkDeliveries p (dl_inbox d))
| delivery_release d id content p :
    projection_release id (dl_projection d) = (Some content, p) →
    delivery_step d (mkDeliveries p (unregister_inbox id (dl_inbox d)))
| delivery_complete d id content p :
    projection_complete id (dl_projection d) = (Some content, p) →
    delivery_step d (mkDeliveries p (unregister_inbox id (dl_inbox d)))
| delivery_unknown d id :
    mp_pending (dl_projection d) !! id = None →
    delivery_step d (mkDeliveries (dl_projection d) (unregister_inbox id (dl_inbox d)))
| delivery_inbox d i :
    inbox_only (dl_inbox d) i → delivery_step d (mkDeliveries (dl_projection d) i).

Definition deliveries_new : Deliveries := mkDeliveries projection_new (mkInbox acknowledgments_new [] false).

Definition deliveries_reachable (d : Deliveries) : Prop := rtc delivery_step deliveries_new d.

Record deliveries_ok (d : Deliveries) : Prop := {
  del_inbox : inbox_ok (dl_inbox d);
  del_registered : ∀ id, id ∈ ack_registered (inbox_state (dl_inbox d)) ↔
                         is_Some (mp_pending (dl_projection d) !! id);
  del_capacity : (N.of_nat (size (mp_pending (dl_projection d))) <= MAX_PENDING_MESSAGE_PROJECTIONS)%N;
  del_ids : ∀ id c, mp_pending (dl_projection d) !! id = Some c →
                    (0 < id <= next_delivery_id (dl_projection d))%N;
  del_identities : identities_ok (mp_identities (dl_projection d));
  del_pending : ∀ i, i ∈ ids_pending (mp_identities (dl_projection d)) ↔
    ∃ id c, mp_pending (dl_projection d) !! id = Some c ∧ projection_identity c = i;
  del_unique : ∀ id1 id2 c1 c2, mp_pending (dl_projection d) !! id1 = Some c1 →
    mp_pending (dl_projection d) !! id2 = Some c2 → projection_identity c1 = projection_identity c2 → id1 = id2;
}.

Lemma inbox_only_step i j : inbox_only i j → ack_step i j.
Proof. destruct 1; by econstructor. Qed.

Lemma inbox_only_registered i j :
  inbox_only i j → ack_registered (inbox_state j) = ack_registered (inbox_state i).
Proof.
  destruct 1 as [i id|i s Hs|i n Hn|i id b a Hf|i|i]; simpl; try done.
  - unfold ack_submit. by repeat case_match.
  - unfold ack_wait in Hs. by case_match; simplify_eq/=.
  - unfold ack_defer_retry. by case_decide.
Qed.

(** Removing a pending delivery, for [release] and [complete]. *)
Lemma remove_delivery_ok d id content ids :
  deliveries_ok d → mp_pending (dl_projection d) !! id = Some content →
  identities_ok ids →
  ids_pending ids = ids_pending (mp_identities (dl_projection d)) ∖ {[projection_identity content]} →
  deliveries_ok (mkDeliveries
    (mkProjection (next_delivery_id (dl_projection d)) (delete id (mp_pending (dl_projection d))) ids
       (mp_delivery_receipts (dl_projection d)))
    (unregister_inbox id (dl_inbox d))).
Proof.
  intros [Hi Hr Hc Hd Hids Hp Hu] Hid Hok Hpend. split; simpl; [| | | |done| |].
  - eapply ack_step_ok; [exact Hi|]. apply (step_unregister (dl_inbox d) id).
  - intros j. rewrite elem_of_difference, elem_of_singleton, Hr, lookup_delete_is_Some. clear. naive_solver.
  - rewrite map_size_delete_Some by eauto. lia.
  - intros j c [_ Hj]%lookup_delete_Some. by eapply Hd.
  - intros i. rewrite Hpend, elem_of_difference, elem_of_singleton, Hp. split.
    + intros [(j&c&Hj&<-) Hne]. exists j, c. split; [|done]. apply lookup_delete_Some.
      split; [|done]. intros ->. rewrite Hid in Hj. by simplify_eq.
    + intros (j&c&[Hne Hj]%lookup_delete_Some&<-). split; [eauto|]. intros Heq.
      apply Hne. by eapply Hu.
  - intros j1 j2 c1 c2 [_ H1]%lookup_delete_Some [_ H2]%lookup_delete_Some. by eapply Hu.
Qed.

Lemma track_fresh p id q content :
  (next_delivery_id p < u64_max)%N → track content p = (Some id, q) →
  id = (next_delivery_id p + 1)%N ∧ next_delivery_id q = id ∧
  mp_pending q = <[id := content]> (mp_pending p) ∧
  (N.of_nat (size (mp_pending p)) < MAX_PENDING_MESSAGE_PROJECTIONS)%N ∧
  (identities_reserve (projection_identity content) (mp_identities p)).1 = true ∧
  mp_identities q = (identities_reserve (projection_identity content) (mp_identities p)).2.
Proof.
  intros Hlt. unfold track, has_capacity. destruct (_ <? _)%N eqn:Ec; [|done]. simpl.
  destruct (identities_reserve _ _).1 eqn:Er; [|done]. simpl. intros [= <- <-]. bool_prop.
  rewrite wrapping_add_small by lia. rewrite N.max_l by lia. done.
Qed.

Lemma track_ok d content id p :
  deliveries_ok d → (next_delivery_id (dl_projection d) < u64_max)%N →
  track content (dl_projection d) = (Some id, p) →
  deliveries_ok (mkDeliveries p (update_inbox (ack_register id) (dl_inbox d))).
Proof.
  intros [Hi Hr Hc Hd Hids Hp Hu] Hlt Ht.
  destruct (track_fresh _ _ _ _ Hlt Ht) as (->&Hn&Hpq&Hcap&Hres&Hiq).
  destruct (identities_reserve_ok (projection_identity content) _ Hids) as (Hok&_&Hnew&_).
  destruct (Hnew Hres) as (Hnp&Hnc&Hpend).
  set (id := (next_delivery_id (dl_projection d) + 1)%N) in *.
  assert (Hfresh : mp_pending (dl_projection d) !! id = None).
  { apply eq_None_not_Some. intros (c&Hx). apply Hd in Hx. unfold id in Hx. lia. }
  split; simpl; rewrite ?Hn, ?Hpq, ?Hiq.
  - eapply ack_step_ok; [exact Hi|]. apply (step_register (dl_inbox d) id).
  - intros j. rewrite elem_of_union, elem_of_singleton, Hr, lookup_insert_is_Some'. clear. naive_solver.
  - rewrite map_size_insert_None by done. lia.
  - intros j c [[<- <-]|[_ Hj]]%lookup_insert_Some; [unfold id; lia|]. apply Hd in Hj. unfold id. lia.
  - done.
  - intros i. rewrite Hpend, elem_of_union, elem_of_singleton, Hp. split.
    + intros [->|(j&c&Hj&<-)]; [exists id, content; by rewrite lookup_insert_eq|].
      exists j, c. split; [|done]. rewrite lookup_insert_ne; [done|]. congruence.
    + intros (j&c&[[<- <-]|[_ Hj]]%lookup_insert_Some&<-); eauto.
  - assert (Hnot : ∀ j c, mp_pending (dl_projection d) !! j = Some c →
      projection_identity c ≠ projection_identity content).
    { intros j c Hj Heq. apply Hnp, Hp. eauto. }
    intros j1 j2 c1 c2 [[<- <-]|[_ H1]]%lookup_insert_Some [[<- <-]|[_ H2]]%lookup_insert_Some Heq.
    + done.
    + symmetry in Heq. by apply (Hnot _ _ H2) in Heq.
    + by apply (Hnot _ _ H1) in Heq.
    + by eapply Hu.
Qed.

Lemma delivery_step_ok d e : deliveries_ok d → delivery_step d e → deliveries_ok e.
Proof.
  intros Hok Hs. destruct Hs as [d c id p Hlt Ht|d c p Ht|d id c p Hr|d id c p Hr|d id Hn|d i Hi].
  - by eapply track_ok.
  - destruct Hok as [Hi Hr Hc Hd Hids Hp Hu]. unfold track in Ht.
    destruct (negb _); [by simplify_eq|].
    destruct (identities_reserve_ok (projection_identity c) _ Hids) as (Hok&_&_&Hsame).
    destruct (identities_reserve _ _).1; [done|]. simplify_eq/=. specialize (Hsame eq_refl).
    split; simpl; rewrite ?Hsame; done.
  - unfold projection_release in Hr. destruct (_ !! id) as [c'|] eqn:Hid; simplify_eq.
    apply (remove_delivery_ok d id c); [done..| |done].
    destruct (del_identities _ Hok) as (?&?&?&?). unfold identities_ok. simpl.
    split_and!; [done..|set_solver].
  - unfold projection_complete in Hr. destruct (_ !! id) as [c'|] eqn:Hid; simplify_eq.
    destruct (identities_complete_ok (projection_identity c) _ (del_identities _ Hok)) as (?&?&_).
    by apply (remove_delivery_ok d id c).
  - destruct Hok as [Hi Hr Hc Hd Hids Hp Hu]. split; simpl; try done.
    + eapply ack_step_ok; [exact Hi|]. apply (step_unregister (dl_inbox d) id).
    + intros j. rewrite elem_of_difference, elem_of_singleton, Hr. split; [by intros [? _]|].
      intros [c Hj]. split; [eauto|]. congruence.
  - destruct Hok as [Hib Hr Hc Hd Hids Hp Hu]. split; simpl; try done.
    + eapply ack_step_ok; [exact Hib|]. by apply inbox_only_step.
    + intros j. by rewrite (inbox_only_registered _ _ Hi).
Qed.

Lemma deliveries_reachable_ok d : deliveries_reachable d → deliveries_ok d.
Proof.
  intros H. apply (rtc_invariant delivery_step deliveries_ok delivery_step_ok _ _ H).
  split; simpl; try done.
  - split; simpl; [constructor|set_solver|set_solver|done].
  - intros id. rewrite lookup_empty. split; [set_solver|by intros []].
  - split_and!; [constructor|set_solver|done|set_solver].
  - intros i. split; [set_solver|]. by intros (id&c&?&_).
Qed.

(** C28. Deliveries: at most 64 messages await acknowledgment, exactly those
    are registered with the inbox, no message (sender, destination, timestamp)
    is pending twice or pending and completed at once. *)
Theorem deliveries_bounded_and_unique d :
  deliveries_reachable d →
  (N.of_nat (size (mp_pending (dl_projection d))) <= MAX_PENDING_MESSAGE_PROJECTIONS)%N ∧
  (∀ id, id ∈ ack_registered (inbox_state (dl_inbox d)) ↔ is_Some (mp_pending (dl_projection d) !! id)) ∧
  (∀ id1 id2 c1 c2, mp_pending (dl_projection d) !! id1 = Some c1 →
     mp_pending (dl_projection d) !! id2 = Some c2 →
     projection_identity c1 = projection_identity c2 → id1 = id2) ∧
  (∀ id c, mp_pending (dl_projection d) !! id = Some c →
     projection_identity c ∉ ids_completed (mp_identities (dl_projection d))).
Proof.
  intros [_ Hr Hc _ Hids Hp Hu]%deliveries_reachable_ok. split_and!; [done..|].
  intros id c Hid Hin. destruct Hids as (_&_&_&Hd). apply (Hd (projection_identity c)); [|done].
  apply Hp. eauto.
Qed.

(** Every acknowledgment the inbox holds, in whatever place, is for a
    message that is still pending: completing it always finds the message. *)
Theorem acknowledged_deliveries_pending d id :
  deliveries_reachable d → id ∈ inbox_ids (dl_inbox d) →
  ∃ content p, projection_complete id (dl_projection d) = (Some content, p).
Proof.
  intros [Hi Hr _ _ _ _ _]%deliveries_reachable_ok Hid.
  apply (inbox_complete _ Hi), (inbox_registered _ Hi), Hr in Hid as [c Hc].
  unfold projection_complete. rewrite Hc. eauto.
Qed.

(** ** Delivery receipts: the invariant *)

Definition receipt_ids (q : DeliveryReceiptQueue) : list DeliveryReceiptIdentity :=
  (λ p, receipt_identity p.1) <$> rq_pending q.

Definition receipts_ok (q : DeliveryReceiptQueue) : Prop :=
  NoDup (receipt_ids q) ∧ (∀ i, i ∈ receipt_ids q ↔ i ∈ rq_identities q) ∧
  (len (rq_pending q) <= MAX_PENDING_DELIVERY_RECEIPTS)%N.

Inductive receipt_op :=
| OpEnqueue (recipient : ServiceId) (message_timestamp send_timestamp : N)
| OpStartNext (session_ready : bool)
| OpComplete (i : DeliveryReceiptIdentity)
| OpRetryReceipt (i : DeliveryReceiptIdentity) (immediately : bool)
| OpActivateReceipts
| OpReleaseInFlight.

Definition receipt_apply (o : receipt_op) (q : DeliveryReceiptQueue) : DeliveryReceiptQueue :=
  match o with
  | OpEnqueue r m s => (receipts_enqueue r m s q).2
  | OpStartNext b => (receipts_start_next b q).2
  | OpComplete i => receipts_complete i q
  | OpRetryReceipt i b => receipts_retry i b q
  | OpActivateReceipts => receipts_activate_retries q
  | OpReleaseInFlight => receipts_release_in_flight q
  end.

(** The receipts of a queue, whatever their state. *)
Definition receipts_of (q : DeliveryReceiptQueue) : list PendingDeliveryReceipt := fst <$> rq_pending q.

Lemma receipt_ids_of q : receipt_ids q = receipt_identity <$> receipts_of q.
Proof. unfold receipt_ids, receipts_of. by rewrite <-list_fmap_compose. Qed.

Lemma start_first_receipts l r l' : start_first l = Some (r, l') → fst <$> l' = fst <$> l ∧ r ∈ fst <$> l.
Proof.
  revert r l'. induction l as [|[x []] l IH]; intros r l'; simpl; [done| | |].
  - intros [= <- <-]. split; [done|by left].
  - intros ([r' l'']&Hs&[= <- <-])%bind_Some. destruct (IH _ _ Hs) as [E Hin].
    rewrite !fmap_cons, E. split; [done|by right].
  - intros ([r' l'']&Hs&[= <- <-])%bind_Some. destruct (IH _ _ Hs) as [E Hin].
    rewrite !fmap_cons, E. split; [done|by right].
Qed.

Lemma set_first_state_receipts i st l : fst <$> set_first_state i st l = fst <$> l.
Proof. induction l as [|p l IH]; [done|]. simpl. case_decide; [done|]. by rewrite !fmap_cons, IH. Qed.

Lemma remove_receipt_spec i l l' :
  remove_receipt i l = Some l' →
  ∃ before p after, l = before ++ p :: after ∧ l' = before ++ after ∧ receipt_identity p.1 = i.
Proof.
  revert l'. induction l as [|p l IH]; intros l'; simpl; [done|]. case_decide as Hp.
  - intros [= <-]. by exists [], p, l.
  - intros (l''&Hl&[= <-])%bind_Some. destruct (IH _ Hl) as (b&x&a&->&->&?).
    by exists (p :: b), x, a.
Qed.

(** An operation that keeps the receipts and the identities keeps the invariant. *)
Lemma receipts_ok_same q q' :
  receipts_ok q → receipts_of q' = receipts_of q → rq_identities q' = rq_identities q → receipts_ok q'.
Proof.
  intros (Hn&Hc&Hl) Hof Hid. unfold receipts_ok. rewrite receipt_ids_of, Hof, <-receipt_ids_of, Hid.
  split_and!; [done..|]. assert (Hlen : length (receipts_of q') = length (receipts_of q)) by (by rewrite Hof).
  unfold receipts_of, len in *. rewrite !length_fmap in Hlen. lia.
Qed.

Lemma receipts_keep o q :
  match o with OpEnqueue _ _ _ | OpComplete _ => True | _ =>
    receipts_of (receipt_apply o q) = receipts_of q ∧ rq_identities (receipt_apply o q) = rq_identities q
  end.
Proof.
  destruct o as [| b| |i b| |]; simpl; try done.
  - unfold receipts_start_next, receipts_of. destruct b; [|done].
    destruct (start_first _) as [[r l]|] eqn:E; [|done]. simpl. by apply start_first_receipts in E as [-> _].
  - unfold receipts_of, receipts_retry. simpl. by rewrite set_first_state_receipts.
  - unfold receipts_of, receipts_activate_retries, make_ready. simpl. by rewrite <-list_fmap_compose.
  - unfold receipts_of, receipts_release_in_flight, make_ready. simpl. by rewrite <-list_fmap_compose.
Qed.

Lemma receipt_apply_ok o q : receipts_ok q → receipts_ok (receipt_apply o q).
Proof.
  intros Hok. assert (Hkeep := receipts_keep o q).
  destruct o as [r m st|b|i|i b| |]; try (by eapply receipts_ok_same; [done|apply Hkeep..]).
  - simpl. unfold receipts_enqueue. destruct Hok as (Hn&Hc&Hl). case_decide as Hi; [done|].
    destruct (_ <=? _)%N eqn:E; bool_prop; [done|]. unfold receipts_ok, receipt_ids. simpl.
    rewrite fmap_app, len_app. simpl. split_and!.
    + apply NoDup_app. split_and!; [done| |apply NoDup_singleton]. intros x Hx%Hc Heq%list_elem_of_singleton.
      by subst.
    + intros x. rewrite elem_of_app, list_elem_of_singleton, elem_of_union, elem_of_singleton.
      unfold receipt_ids in Hc. rewrite Hc. tauto.
    + change (len [_]) with 1%N. lia.
  - simpl. unfold receipts_complete. destruct (remove_receipt _ _) as [l|] eqn:E; [|done].
    apply remove_receipt_spec in E as (b&p&a&Hl&->&<-). destruct Hok as (Hn&Hc&Hlen).
    unfold receipts_ok, receipt_ids in *. simpl. rewrite Hl, fmap_app in *. simpl in *.
    apply NoDup_app in Hn as (Hn1&Hn12&[Hnp Hn2]%NoDup_cons). split_and!.
    + rewrite ?fmap_app. apply NoDup_app. split_and!; [done|set_solver|done].
    + intros x. rewrite ?fmap_app, elem_of_difference, <-Hc, elem_of_singleton. set_solver.
    + rewrite len_app, ?len_cons in *. lia.
Qed.

(** Delivery receipts: at most 4096 wait, never two for one message, and a
    waiting receipt, with the timestamp it is sent under, stays the same until
    it is completed: a retry repeats the same receipt. *)
Theorem delivery_receipts_kept os q o r :
  q = foldl (flip receipt_apply) receipts_default os →
  r ∈ receipts_of q →
  (len (rq_pending q) <= MAX_PENDING_DELIVERY_RECEIPTS)%N ∧ NoDup (receipt_ids q) ∧
  (o ≠ OpComplete (receipt_identity r) → r ∈ receipts_of (receipt_apply o q)).
Proof.
  intros Hq Hr.
  assert (Hok : receipts_ok q).
  { subst q. clear Hr. assert (H0 : receipts_ok receipts_default) by (split_and!; [constructor|set_solver|done]).
    revert H0. generalize receipts_default. induction os as [|o' os IH]; intros q H0; [done|].
    apply IH. by apply receipt_apply_ok. }
  destruct Hok as (Hn&Hc&Hl). split_and!; [done..|]. intros Ho.
  assert (Hkeep := receipts_keep o q).
  destruct o as [rc m st|b|i|i b| |]; [|by destruct Hkeep as [-> _]| |by destruct Hkeep as [-> _]..].
  - simpl. unfold receipts_enqueue. repeat case_match; simpl; try done.
    unfold receipts_of in *. simpl. rewrite fmap_app, elem_of_app. by left.
  - simpl. unfold receipts_complete. destruct (remove_receipt _ _) as [l|] eqn:E; [|done].
    apply remove_receipt_spec in E as (b&p&a&Hp&->&<-). unfold receipts_of in *. simpl.
    rewrite Hp in Hr. rewrite fmap_app, elem_of_app in *. simpl in Hr.
    rewrite elem_of_cons in Hr. destruct Hr as [?|[->|?]]; [by left|by destruct Ho|by right].
Qed.

(** ** Replay *)

Definition projectable (groups_authoritative : bool) (c : Content) : Prop :=
  content_is_projectable (ct_body c) groups_authoritative = true.

#[local] Instance projectable_dec a c : Decision (projectable a c).
Proof. unfold projectable. apply _. Defined.

Lemma replay_push_fold messages a q :
  foldl (λ q content, replay_push content a q) q messages =
  mkReplay (rp_ready q ++ filter (projectable a) messages)
           (rp_waiting_for_groups q ++ filter (λ c, ¬ projectable a c) messages).
Proof.
  revert q. induction messages as [|c messages IH]; intros q; simpl.
  { rewrite !app_nil_r. by destruct q. }
  rewrite IH. unfold replay_push. destruct (decide (projectable a c)) as [Hp|Hp].
  - rewrite filter_cons_True, (filter_cons_False (λ c, ¬ projectable a c)) by tauto.
    unfold projectable, content_is_projectable in Hp.
    destruct (content_has_group_context (ct_body c)), a; simpl in *; by rewrite <-?app_assoc.
  - rewrite filter_cons_False, (filter_cons_True (λ c, ¬ projectable a c)) by done.
    unfold projectable, content_is_projectable in Hp.
    destruct (content_has_group_context (ct_body c)), a; simpl in *; by rewrite <-?app_assoc.
Qed.

(** Replay loses nothing and reorders only across the group boundary: the
    messages loaded are those ready or waiting for groups, each part in the
    order of the store, and a group message becomes ready only once the groups
    are authoritative or activated. *)
Theorem replay_partition messages a q :
  let q' := replay_replace messages a q in
  rp_ready q' ++ rp_waiting_for_groups q' ≡ₚ messages ∧
  rp_ready q' `sublist_of` messages ∧ rp_waiting_for_groups q' `sublist_of` messages ∧
  Forall (projectable a) (rp_ready q') ∧
  rp_ready (replay_activate_groups q') ≡ₚ messages.
Proof.
  unfold replay_replace. rewrite replay_push_fold. simpl.
  assert (Hp : filter (projectable a) messages ++ filter (λ c, ¬ projectable a c) messages ≡ₚ messages)
    by apply filter_app_complement.
  split_and!; [done|apply sublist_filter|apply sublist_filter| |done].
  apply Forall_forall. by intros c [? _]%list_elem_of_filter.
Qed.
End Projection.

(** ** Runs *)

#[local] Existing Instance string_ids.

Definition demo_content (sender : string) (t : Z) : Content :=
  mkContent (mkMetadata sender "me" t true)
    (BodyData (mkDataMessage (Some "hi") [] None (Some 5%N) false None None [] [] None)).

Definition demo_deliveries : Deliveries :=
  mkDeliveries
    (mkProjection 1 {[1%N := demo_content "ann" 5]}
       (mkIdentities {[projection_identity (demo_content "ann" 5)]} ∅ []) receipts_default)
    (mkInbox (mkAcknowledgments true {[1%N]} {[1%N]} [1%N] [] true) [] false).

Lemma demo_deliveries_reachable : deliveries_reachable demo_deliveries.
Proof.
  unfold deliveries_reachable.
  eapply rtc_l.
  { eapply (delivery_track _ (demo_content "ann" 5)); [vm_compute; reflexivity|].
    vm_compute. reflexivity. }
  eapply rtc_l; [apply (delivery_inbox _ _ (only_submit _ 1))|].
  vm_compute. apply rtc_refl.
Qed.

Lemma deliveries_bounded_and_unique_witness :
  (N.of_nat (size (mp_pending (dl_projection demo_deliveries))) <= MAX_PENDING_MESSAGE_PROJECTIONS)%N.
Proof. apply (deliveries_bounded_and_unique demo_deliveries demo_deliveries_reachable). Defined.

Lemma acknowledged_deliveries_pending_witness :
  ∃ content p, projection_complete 1 (dl_projection demo_deliveries) = (Some content, p).
Proof.
  apply (acknowledged_deliveries_pending demo_deliveries 1 demo_deliveries_reachable).
  vm_compute. left.
Defined.

Definition demo_receipt : PendingDeliveryReceipt :=
  @mkReceipt string_ids (mkReceiptIdentity "ann" 5) "ann" 9.

Definition demo_receipts : DeliveryReceiptQueue :=
  receipt_apply (@OpEnqueue string_ids "ann" 5 9) receipts_default.

Lemma delivery_receipts_kept_witness :
  demo_receipt ∈ receipts_of (receipt_apply (OpStartNext true) demo_receipts).
Proof.
  apply (delivery_receipts_kept [@OpEnqueue string_ids "ann" 5 9] demo_receipts (OpStartNext true)
           demo_receipt); [reflexivity|vm_compute; left|discriminate].
Defined.
