(* ===== verification/Qr.v ===== *)
(** * Qr: the linking code as an image

    Models [qr_png] of [rust/signal-core/src/backend/coordinator.rs].  The
    qrcode and png crates are parameters; the pixels in between are the
    source's.  A QR code has at most 177 modules a side, so no index comes near
    the width of [usize]. *)
From Stdlib Require Import Strings.Byte.
From S2P Require Import Prelude.

Record QrCode := mkQrCode {
  qr_width : nat;
  qr_dark : nat → nat → bool;
}.

(** [QrCode::new], and a greyscale PNG of the given width and height. *)
Class QrLibrary := {
  qr_new : list byte → result QrCode string;
  png_grayscale : nat → nat → list byte → result (list byte) string;
}.

Definition BORDER_MODULES : nat := 4.
Definition SCALE : nat := 6.

Definition pixels_wide (modules : nat) : nat := (modules + BORDER_MODULES * 2) * SCALE.

(** [pixels[i] = 0]; [None] is the panic of an index out of range. *)
Definition set_black (pixels : option (list byte)) (i : nat) : option (list byte) :=
  pixels ← pixels;
  if decide (i < length pixels) then Some (<[i := x00]> pixels) else None.

(** The two inner loops: one dark module. *)
Definition paint_module (wide x y : nat) (pixels : option (list byte)) : option (list byte) :=
  let start_x := (x + BORDER_MODULES) * SCALE in
  let start_y := (y + BORDER_MODULES) * SCALE in
  foldl (λ pixels pixel_y,
    foldl (λ pixels pixel_x, set_black pixels (pixel_y * wide + pixel_x)) pixels (seq start_x SCALE))
    pixels (seq start_y SCALE).

Definition paint_code (code : QrCode) : option (list byte) :=
  let wide := pixels_wide (qr_width code) in
  foldl (λ pixels y,
    foldl (λ pixels x, if qr_dark code x y then paint_module wide x y pixels else pixels)
      pixels (seq 0 (qr_width code)))
    (Some (replicate (wide * wide) xff)) (seq 0 (qr_width code)).

(** [qr_png]; [None] is a panic. *)
Definition qr_png `{QrLibrary} (value : list byte) : option (result (list byte) string) :=
  match qr_new value with
  | Err e => Some (Err e)
  | Ok code =>
      pixels ← paint_code code;
      Some (png_grayscale (pixels_wide (qr_width code)) (pixels_wide (qr_width code)) pixels)
  end.

(** ** The image is the code *)

(** All the indices written, in order. *)
Definition module_indices (wide x y : nat) : list nat :=
  pixel_y ← seq ((y + BORDER_MODULES) * SCALE) SCALE;
  (λ pixel_x, pixel_y * wide + pixel_x) <$> seq ((x + BORDER_MODULES) * SCALE) SCALE.

Definition code_indices (code : QrCode) : list nat :=
  y ← seq 0 (qr_width code);
  x ← seq 0 (qr_width code);
  if qr_dark code x y then module_indices (pixels_wide (qr_width code)) x y else [].

Lemma foldl_bind {A B C} (f : C → B → C) (g : A → list B) (l : list A) (c : C) :
  foldl f c (l ≫= g) = foldl (λ c a, foldl f c (g a)) c l.
Proof. revert c. induction l as [|a l IH]; intros c; [done|]. simpl. by rewrite foldl_app, IH. Qed.

Lemma foldl_fmap {A B C} (f : C → B → C) (g : A → B) (l : list A) (c : C) :
  foldl f c (g <$> l) = foldl (λ c a, f c (g a)) c l.
Proof. revert c. induction l as [|a l IH]; intros c; [done|]. simpl. apply IH. Qed.

Lemma foldl_ext {A C} (f g : C → A → C) (l : list A) (c : C) :
  (∀ c a, f c a = g c a) → foldl f c l = foldl g c l.
Proof. intros Hfg. revert c. induction l as [|a l IH]; intros c; [done|]. simpl. by rewrite Hfg. Qed.

Lemma paint_code_indices code :
  paint_code code = foldl set_black
    (Some (replicate (pixels_wide (qr_width code) * pixels_wide (qr_width code)) xff)) (code_indices code).
Proof.
  unfold paint_code, code_indices. rewrite foldl_bind. apply foldl_ext. intros pixels y.
  rewrite foldl_bind. apply foldl_ext. intros pixels' x. destruct (qr_dark code x y); [|done].
  unfold paint_module, module_indices. rewrite foldl_bind. apply foldl_ext. intros ? pixel_y. by rewrite foldl_fmap.
Qed.

Lemma set_black_all js l :
  Forall (λ i, i < length l) js →
  ∃ l', foldl set_black (Some l) js = Some l' ∧ length l' = length l ∧
    ∀ i, i < length l → l' !! i = if decide (i ∈ js) then Some x00 else l !! i.
Proof.
  revert l. induction js as [|j js IH]; intros l His; cbn [foldl].
  - exists l. split_and!; [done..|]. intros i _. by rewrite decide_False by apply not_elem_of_nil.
  - apply Forall_cons_1 in His as [Hj His]. cbn [set_black mbind option_bind]. rewrite decide_True by done.
    destruct (IH (<[j := x00]> l)) as (l'&->&Hlen&Hl'); [by rewrite length_insert|].
    rewrite length_insert in *. exists l'. split_and!; [done..|]. intros i Hi. rewrite Hl' by done.
    destruct (decide (i = j)) as [->|Hne].
    + rewrite list_lookup_insert_eq by done. case_decide; rewrite decide_True by set_solver; done.
    + rewrite list_lookup_insert_ne by done. case_decide; [rewrite decide_True by set_solver|rewrite decide_False by set_solver]; done.
Qed.

Lemma code_indices_bound code i :
  i ∈ code_indices code → i < pixels_wide (qr_width code) * pixels_wide (qr_width code).
Proof.
  set (wide := pixels_wide _). unfold code_indices. fold wide.
  intros (y&(x&Hin&Hxs)%list_elem_of_bind&Hys)%list_elem_of_bind.
  destruct (qr_dark code x y); [|by apply elem_of_nil in Hin].
  unfold module_indices in Hin. apply list_elem_of_bind in Hin as (py&(px&->&Hpx)%list_elem_of_fmap&Hpy).
  apply elem_of_seq in Hpx, Hxs, Hys, Hpy.
  assert (px < wide ∧ py < wide) as [? ?]; [|nia].
  unfold wide, pixels_wide, BORDER_MODULES, SCALE in *. lia.
Qed.

(** The module a pixel shows, if it is not in the border. *)
Definition module_of (modules pixel : nat) : option nat :=
  let m := pixel / SCALE in
  if decide (BORDER_MODULES <= m < modules + BORDER_MODULES) then Some (m - BORDER_MODULES) else None.

Definition pixel_dark (code : QrCode) (pixel_x pixel_y : nat) : bool :=
  match module_of (qr_width code) pixel_x, module_of (qr_width code) pixel_y with
  | Some x, Some y => qr_dark code x y
  | _, _ => false
  end.

Lemma module_of_Some modules pixel m :
  module_of modules pixel = Some m ↔ m < modules ∧ pixel ∈ seq ((m + BORDER_MODULES) * SCALE) SCALE.
Proof.
  rewrite elem_of_seq. unfold module_of, BORDER_MODULES, SCALE. assert (H := Nat.div_mod_eq pixel 6).
  assert (Hm := Nat.mod_upper_bound pixel 6 ltac:(lia)).
  revert H Hm. generalize (pixel `div` 6), (pixel `mod` 6). intros q r H Hm. case_decide; split.
  - intros [= <-]. lia.
  - intros [? ?]. f_equal. lia.
  - done.
  - intros [? ?]. lia.
Qed.

Lemma code_indices_spec code pixel_x pixel_y :
  pixel_x < pixels_wide (qr_width code) →
  pixel_y * pixels_wide (qr_width code) + pixel_x ∈ code_indices code ↔ pixel_dark code pixel_x pixel_y = true.
Proof.
  set (wide := pixels_wide _). intros Hx. unfold code_indices, pixel_dark. fold wide. rewrite list_elem_of_bind. split.
  - intros (y&(x&Hin&Hxs)%list_elem_of_bind&Hys). destruct (qr_dark code x y) eqn:Ed; [|by apply elem_of_nil in Hin].
    unfold module_indices in Hin. apply list_elem_of_bind in Hin as (py&(px&Heq&Hpx)%list_elem_of_fmap&Hpy).
    assert (Hw : px < wide).
    { apply elem_of_seq in Hpx, Hxs. unfold wide, pixels_wide, BORDER_MODULES, SCALE in *. lia. }
    destruct (Nat.div_mod_unique wide pixel_y py pixel_x px) as [-> ->]; [done|done|lia|].
    apply elem_of_seq in Hxs, Hys.
    assert (module_of (qr_width code) px = Some x) as -> by (apply module_of_Some; split; [lia|done]).
    by assert (module_of (qr_width code) py = Some y) as -> by (apply module_of_Some; split; [lia|done]).
  - destruct (module_of _ pixel_x) as [x|] eqn:Ex; [|done]. destruct (module_of _ pixel_y) as [y|] eqn:Ey; [|done].
    apply module_of_Some in Ex as [Hxm Ex], Ey as [Hym Ey]. intros Hd. exists y. rewrite elem_of_seq. split; [|lia].
    apply list_elem_of_bind. exists x. rewrite elem_of_seq, Hd. split; [|lia].
    apply list_elem_of_bind. exists pixel_y. split; [|done]. apply list_elem_of_fmap. by exists pixel_x.
Qed.

Lemma paint_code_all code :
  let size := pixels_wide (qr_width code) * pixels_wide (qr_width code) in
  ∃ l, paint_code code = Some l ∧ length l = size ∧
    ∀ i, i < size → l !! i = Some (if decide (i ∈ code_indices code) then x00 else xff).
Proof.
  intros size. rewrite paint_code_indices. fold size.
  destruct (set_black_all (code_indices code) (replicate size xff)) as (l&->&Hlen&Hl).
  { apply Forall_forall. intros i Hi. rewrite length_replicate. by apply code_indices_bound. }
  rewrite length_replicate in *. exists l. split_and!; [done..|]. intros i Hi.
  rewrite Hl, lookup_replicate_2 by done. by case_decide.
Qed.

Lemma qr_png_total `{QrLibrary} value : is_Some (qr_png value).
Proof.
  unfold qr_png. destruct (qr_new value) as [code|e]; [|done].
  destruct (paint_code_all code) as (l&->&_). done.
Qed.

(** The linking image is the code: painting never writes out of range, the
    image has six pixels for each module and a border of four modules, and a
    pixel is black exactly when the module it shows is dark. *)
Theorem qr_image_exact code :
  ∃ l, paint_code code = Some l ∧ length l = pixels_wide (qr_width code) * pixels_wide (qr_width code) ∧
    ∀ pixel_x pixel_y, pixel_x < pixels_wide (qr_width code) → pixel_y < pixels_wide (qr_width code) →
      l !! (pixel_y * pixels_wide (qr_width code) + pixel_x) =
        Some (if pixel_dark code pixel_x pixel_y then x00 else xff).
Proof.
  set (wide := pixels_wide (qr_width code)). destruct (paint_code_all code) as (l&->&Hlen&Hl). fold wide in Hlen, Hl.
  exists l. split_and!; [done..|]. intros px py Hx Hy. rewrite Hl by nia.
  destruct (pixel_dark code px py) eqn:E.
  - rewrite decide_True; [done|]. by apply code_indices_spec.
  - rewrite decide_False; [done|]. intros Hin%code_indices_spec; [congruence|done].
Qed.
