(* ===== verification/Utf8.v ===== *)
(** * Utf8: UTF-8 validation

    [std::str::from_utf8], which the C interface calls on every string it is
    given, with the table of the Rust standard library, and its specification:
    it accepts exactly the encodings of sequences of Unicode scalar values. *)
From S2P Require Import Prelude.

#[local] Open Scope N_scope.

(** ** Validation *)

Definition within (lo hi b : N) : bool := (lo <=? b) && (b <=? hi).

Definition continuation (b : N) : bool := within 0x80 0xBF b.

(** The second byte of a sequence of three, and of four. *)
Definition second_of_three (a b : N) : bool :=
  if a =? 0xE0 then within 0xA0 0xBF b
  else if a =? 0xED then within 0x80 0x9F b
  else continuation b.

Definition second_of_four (a b : N) : bool :=
  if a =? 0xF0 then within 0x90 0xBF b
  else if a =? 0xF4 then within 0x80 0x8F b
  else continuation b.

Fixpoint valid_utf8 (l : list N) : bool :=
  match l with
  | [] => true
  | a :: l1 =>
      if a <? 0x80 then valid_utf8 l1
      else if within 0xC2 0xDF a then
        match l1 with b :: l2 => continuation b && valid_utf8 l2 | _ => false end
      else if within 0xE0 0xEF a then
        match l1 with
        | b :: c :: l3 => second_of_three a b && continuation c && valid_utf8 l3
        | _ => false
        end
      else if within 0xF0 0xF4 a then
        match l1 with
        | b :: c :: d :: l4 => second_of_four a b && continuation c && continuation d && valid_utf8 l4
        | _ => false
        end
      else false
  end.

Definition from_utf8 (bytes : list byte) : option string :=
  if valid_utf8 (Byte.to_N <$> bytes) then Some (String.string_of_list_byte bytes) else None.

(** ** Specification *)

Definition scalar (c : N) : Prop := c < 0xD800 ∨ 0xE000 <= c <= 0x10FFFF.

Definition encode_scalar (c : N) : list N :=
  if c <? 0x80 then [c]
  else if c <? 0x800 then [0xC0 + c / 64; 0x80 + c mod 64]
  else if c <? 0x10000 then [0xE0 + c / 4096; 0x80 + c / 64 mod 64; 0x80 + c mod 64]
  else [0xF0 + c / 262144; 0x80 + c / 4096 mod 64; 0x80 + c / 64 mod 64; 0x80 + c mod 64].

Definition encode (cs : list N) : list N := cs ≫= encode_scalar.

(** ** The four widths *)

Ltac solve_bytes := zify; Z.to_euclidean_division_equations; lia.

Lemma within_true lo hi b : within lo hi b = true ↔ lo <= b <= hi.
Proof. unfold within. rewrite andb_true_iff, !N.leb_le. lia. Qed.

(** Ranges of the second byte. *)
Lemma second_of_three_true a b :
  second_of_three a b = true ↔
  0x80 <= b <= 0xBF ∧ (a = 0xE0 → 0xA0 <= b) ∧ (a = 0xED → b <= 0x9F).
Proof. unfold second_of_three, continuation. repeat case_match; bool_prop; rewrite within_true; lia. Qed.

Lemma second_of_four_true a b :
  second_of_four a b = true ↔
  0x80 <= b <= 0xBF ∧ (a = 0xF0 → 0x90 <= b) ∧ (a = 0xF4 → b <= 0x8F).
Proof. unfold second_of_four, continuation. repeat case_match; bool_prop; rewrite within_true; lia. Qed.

(** A scalar value and the bytes of its encoding. *)
Inductive encodes : N → list N → Prop :=
| encodes_one a : a < 0x80 → encodes a [a]
| encodes_two a b :
    0xC2 <= a <= 0xDF → continuation b = true → encodes ((a - 0xC0) * 64 + (b - 0x80)) [a; b]
| encodes_three a b c :
    0xE0 <= a <= 0xEF → second_of_three a b = true → continuation c = true →
    encodes ((a - 0xE0) * 4096 + (b - 0x80) * 64 + (c - 0x80)) [a; b; c]
| encodes_four a b c d :
    0xF0 <= a <= 0xF4 → second_of_four a b = true → continuation c = true → continuation d = true →
    encodes ((a - 0xF0) * 262144 + (b - 0x80) * 4096 + (c - 0x80) * 64 + (d - 0x80)) [a; b; c; d].

Lemma encodes_valid x w l : encodes x w → valid_utf8 (w ++ l) = valid_utf8 l.
Proof.
  intros Hx.
  destruct Hx as [a Ha|a b Ha Hb|a b c Ha Hb Hc|a b c d Ha Hb Hc Hd]; simpl.
  - by rewrite (proj2 (N.ltb_lt _ _) Ha).
  - rewrite (proj2 (N.ltb_ge _ _)) by lia. rewrite (proj2 (within_true _ _ _)) by lia. by rewrite Hb.
  - rewrite (proj2 (N.ltb_ge _ _)) by lia.
    rewrite (not_true_is_false (within 0xC2 _ _)) by (rewrite within_true; lia).
    rewrite (proj2 (within_true 0xE0 _ _)) by lia. by rewrite Hb, Hc.
  - rewrite (proj2 (N.ltb_ge _ _)) by lia.
    rewrite (not_true_is_false (within 0xC2 _ _)) by (rewrite within_true; lia).
    rewrite (not_true_is_false (within 0xE0 _ _)) by (rewrite within_true; lia).
    rewrite (proj2 (within_true 0xF0 _ _)) by lia. by rewrite Hb, Hc, Hd.
Qed.

Lemma encodes_scalar x w : encodes x w → scalar x ∧ w = encode_scalar x.
Proof.
  unfold scalar, encode_scalar. intros Hx.
  destruct Hx as [a Ha|a b Ha Hb|a b c Ha Hb Hc|a b c d Ha Hb Hc Hd]; unfold continuation in *;
    rewrite ?within_true, ?second_of_three_true, ?second_of_four_true in *.
  all: repeat case_match; bool_prop; try (split; [lia|]); try lia.
  all: try done; repeat match goal with |- _ :: _ = _ :: _ => apply (f_equal2 cons); [solve_bytes|] end; done.
Qed.

Lemma encodes_eq x y w : encodes y w → x = y → encodes x w.
Proof. by intros ? ->. Qed.

Lemma scalar_encodes x : scalar x → encodes x (encode_scalar x).
Proof.
  unfold scalar, encode_scalar. intros Hx. repeat case_match; bool_prop.
  - by constructor.
  - eapply encodes_eq; [apply encodes_two|]; unfold continuation; rewrite ?within_true; solve_bytes.
  - eapply encodes_eq; [apply encodes_three|]; unfold continuation;
      rewrite ?within_true, ?second_of_three_true; solve_bytes.
  - eapply encodes_eq; [apply encodes_four|]; unfold continuation;
      rewrite ?within_true, ?second_of_four_true; solve_bytes.
Qed.

(** ** Validation is exact *)

(** What a valid sequence starts with. *)
Lemma valid_utf8_cons a l :
  valid_utf8 (a :: l) = true → ∃ x w rest, a :: l = w ++ rest ∧ encodes x w ∧ valid_utf8 rest = true.
Proof.
  intros Hv. cbn [valid_utf8] in Hv.
  repeat (case_match; try discriminate); bool_prop; rewrite ?within_true in *.
  - exists a, [a], l. by repeat constructor.
  - eexists _, [_; _], _. split; [done|]. split; [by constructor|done].
  - eexists _, [_; _; _], _. split; [done|]. split; [by constructor|done].
  - eexists _, [_; _; _; _], _. split; [done|]. split; [by constructor|done].
Qed.

Lemma valid_utf8_encode l : valid_utf8 l = true ↔ ∃ cs, Forall scalar cs ∧ l = encode cs.
Proof.
  split.
  - remember (length l) as n eqn:Hn. revert l Hn. induction n as [n IH] using lt_wf_ind. intros [|a l] Hn Hv.
    + exists []. by split; [constructor|].
    + apply valid_utf8_cons in Hv as (x&w&rest&Heq&[Hx ->]%encodes_scalar&Hrest).
      assert (length rest < n)%nat as Hlt.
      { rewrite Hn, Heq, length_app. unfold encode_scalar. repeat case_match; simpl; lia. }
      destruct (IH _ Hlt rest eq_refl Hrest) as (cs&Hcs&->). exists (x :: cs). split; [by constructor|]. exact Heq.
  - intros (cs&Hcs&->). induction Hcs as [|x cs Hx _ IH]; [done|].
    change (encode (x :: cs)) with (encode_scalar x ++ encode cs). by rewrite (encodes_valid x) by (by apply scalar_encodes).
Qed.

Lemma from_utf8_Some bytes s :
  from_utf8 bytes = Some s ↔
  bytes = bytes_of s ∧ ∃ cs, Forall scalar cs ∧ Byte.to_N <$> bytes = encode cs.
Proof.
  unfold from_utf8, bytes_of. rewrite <-valid_utf8_encode. split.
  - case_match; [|done]. intros [= <-]. by rewrite String.list_byte_of_string_of_list_byte.
  - intros [-> ->]. by rewrite String.string_of_list_byte_of_string.
Qed.
