(* ===== verification/Paths.v ===== *)
(** * Paths: the directories of an account

    [Path::parent] and [Path::join] on Unix paths, and the code that prepares
    directories: [ensure_store_parent] of [backend/worker.rs] and
    [AvatarCache::new] of [backend/media.rs] (under
    [rust/signal-core/src]). *)
From S2P Require Import Prelude.

(** ** Paths *)

(** [Path::parent] of a Unix path: the last component is removed; separators
    at the end and components [.] that are not at the start do not count. *)
Fixpoint split_slash (s acc : string) : list string :=
  match s with
  | "" => [acc]
  | String c s' => if (Ascii.N_of_ascii c =? 47)%N then acc :: split_slash s' "" else split_slash s' (acc +:+ String c "")
  end.

(** Trailing segments that are not components; the first one stays when it
    stands for the root or is a leading [.]. *)
Fixpoint trim_right (rev_segments : list string) : list string :=
  match rev_segments with
  | [] => []
  | [first] => [first]
  | segment :: rest =>
      if bool_decide (segment = "") || bool_decide (segment = ".") then trim_right rest else rev_segments
  end.

Definition parent (path : string) : option string :=
  match trim_right (reverse (split_slash path "")) with
  | [] => None
  | [""] => None
  | [_] => Some ""
  | _ :: rest =>
      match trim_right rest with
      | [""] => Some "/"
      | segments => Some (join_with "/" (reverse segments))
      end
  end.

(** [Path::join] with a relative path. *)
Definition path_join (dir name : string) : string :=
  if is_empty dir then name
  else if bool_decide (last (String.list_ascii_of_string dir) = Some (Ascii.ascii_of_N 47)) then dir +:+ name
  else dir +:+ "/" +:+ name.

(** ** Directories *)

(** The file system as the code asks it. *)
Record FileSystem := mkFileSystem {
  fs_exists : string → bool;
  fs_create_dir_all : string → result unit string;
  fs_set_permissions : string → N → result unit string;
}.

Definition ensure_store_parent (fs : FileSystem) (store_path : string) : result unit string :=
  match parent store_path with
  | None => Ok tt
  | Some dir =>
      if fs_exists fs dir then Ok tt
      else
        match fs_create_dir_all fs dir with
        | Err e => Err ("Could not create Signal store directory: " +:+ e)
        | Ok _ =>
            match fs_set_permissions fs dir 448 with
            | Err e => Err ("Could not secure Signal store directory: " +:+ e)
            | Ok _ => Ok tt
            end
        end
  end.

(** [AvatarCache::new]: the directory of the cache, if there is one; failing to
    restrict it is ignored. *)
Definition avatar_cache_dir (fs : FileSystem) (store_path : option string) : option string :=
  path ← store_path;
  dir ← parent path;
  let dir := path_join dir "avatar_cache" in
  match fs_create_dir_all fs dir with
  | Ok _ => Some dir
  | Err _ => None
  end.

(** Paths as in the documentation of the standard library. *)
Example parent_examples :
  parent "/foo/bar" = Some "/foo" ∧ parent "/foo" = Some "/" ∧ parent "/" = None ∧
  parent "foo/bar" = Some "foo" ∧ parent "foo" = Some "" ∧ parent "" = None ∧
  parent "foo/bar/" = Some "foo" ∧ parent "a/./b" = Some "a".
Proof. by vm_compute. Qed.

(** A store named without a directory: its parent is the empty path, which does
    not exist, which [create_dir_all] accepts and whose permissions cannot be
    set. *)
Lemma bare_store_path_refused fs e :
  fs_exists fs "" = false → fs_create_dir_all fs "" = Ok tt → fs_set_permissions fs "" 448 = Err e →
  ensure_store_parent fs "store.db" = Err ("Could not secure Signal store directory: " +:+ e).
Proof. intros He Hc Hp. unfold ensure_store_parent. simpl. by rewrite He, Hc, Hp. Qed.
