(* ===== verification/Ffi.v ===== *)
(** * Ffi: the C interface

    Models [rust/signal-core/src/ffi.rs].  A pointer that may be null is an
    [option]: of a core, of the bytes of a C string up to its terminator, or of
    the memory behind a data pointer.  C promises that its pointers are valid
    and that calls on a core do not race, so each call is one function on the
    core.  [ffi_guard] turns a panic into [InternalError]; nothing modelled
    here panics but the copy of an event, where [ffi_guard] is written out. *)
From S2P Require Import Prelude Event EventQueue Acknowledgment Attachment Command Utf8 Paths.

(** ** Constants *)

Definition MAX_STORE_PATH_BYTES : N := 4096.
Definition MAX_DEVICE_NAME_BYTES : N := 128.
Definition MAX_PASSPHRASE_BYTES : N := 4096.
Definition MAX_RECIPIENT_BYTES : N := 256.
Definition GROUP_KEY_BYTES : N := 64.
Definition MAX_MESSAGE_BYTES : N := 64 * 1024.
Definition MAX_ATTACHMENT_FILENAME_BYTES : N := 255.
Definition MAX_CONTENT_TYPE_BYTES : N := 255.
Definition EVENT_QUEUE_CAPACITY : N := 4096.

Inductive SignalStatus := StatusOk | InvalidArgument | NotReady | QueueFull | InternalError.

#[export] Instance SignalStatus_eq_dec : EqDecision SignalStatus.
Proof. solve_decision. Defined.

(** [status as i64]. *)
Definition status_value (s : SignalStatus) : Z :=
  match s with
  | StatusOk => 0
  | InvalidArgument => -1
  | NotReady => -2
  | QueueFull => -3
  | InternalError => -4
  end.

(** The fields of [SignalCoreConfig] in order: two [u32] and three pointers. *)
Definition SignalCoreConfig_fields : list (N * N) := [(4, 4); (4, 4); (8, 8); (8, 8); (8, 8)]%N.

(** Size, alignment and field offsets of a [repr(C)] struct. *)
Definition layout_values (fields : list (N * N)) : list N :=
  [repr_c_size fields; repr_c_align fields] ++ (repr_c_offsets fields 0).1.

Definition ABI_CONTRACT_VALUES : list Z :=
  [Z.of_N ABI_VERSION] ++
  (status_value <$> [StatusOk; InvalidArgument; NotReady; QueueFull; InternalError]) ++
  (Z.of_N <$>
    ([EVENT_LINK_QR; EVENT_READY; EVENT_CONTACT; EVENT_GROUP; EVENT_MESSAGE; EVENT_GROUP_MESSAGE; EVENT_TYPING;
      EVENT_RECEIPT; EVENT_NOTICE_RESERVED; EVENT_ERROR; EVENT_DISCONNECTED; EVENT_CONTACT_SYNC_BEGIN;
      EVENT_CONTACT_SYNC_END; EVENT_GROUP_SYNC_BEGIN; EVENT_GROUP_SYNC_END; EVENT_GROUP_MEMBER;
      EVENT_IDENTITY_CHANGE; EVENT_IDENTITY_ACCEPTED; EVENT_ATTACHMENT; EVENT_ATTACHMENT_SENT; EVENT_GROUP_LEFT;
      EVENT_RECOVERING; EVENT_ACCOUNT; EVENT_SESSION_RESET; EVENT_AVATAR; 0; FLAG_OUTGOING; FLAG_FATAL;
      FLAG_TRANSIENT]%N ++
     layout_values SignalCoreConfig_fields ++ layout_values SignalEvent_fields ++
     [MAX_STORE_PATH_BYTES; MAX_DEVICE_NAME_BYTES; MAX_PASSPHRASE_BYTES; MAX_RECIPIENT_BYTES; GROUP_KEY_BYTES;
      MAX_MESSAGE_BYTES; MAX_ATTACHMENT_FILENAME_BYTES; MAX_CONTENT_TYPE_BYTES; MAX_ATTACHMENT_BYTES])).

(** [ABI_CONTRACT_VALUE_COUNT]. *)
Lemma abi_contract_value_count : length ABI_CONTRACT_VALUES = 66.
Proof. reflexivity. Qed.

Definition i64_min : Z := -9223372036854775808.

Definition signal_core_abi_version : N := ABI_VERSION.

Definition signal_core_abi_contract_value (index : N) : Z :=
  default i64_min (ABI_CONTRACT_VALUES !! N.to_nat index).

(** ** The core *)

Inductive TrySendError := SendFull | SendClosed.

(** The bounded [tokio::sync::mpsc] channel of commands: how many it holds, what
    is in it, and whether the receiver is still there.  [channel_try_reserve] is
    [Sender::try_reserve] (and the test of [Sender::try_send]), [channel_send]
    uses the slot. *)
Class CommandChannel := {
  Channel : Type;
  ch_capacity : Channel → N;
  ch_queue : Channel → list Command;
  ch_open : Channel → bool;
  channel_new : N → Channel;
  channel_try_reserve : Channel → result unit TrySendError;
  channel_send : Command → Channel → Channel;
}.

(** What its documentation says. *)
Class CommandChannelLaws `{CommandChannel} := {
  channel_new_empty capacity : ch_queue (channel_new capacity) = [] ∧ ch_capacity (channel_new capacity) = capacity;
  channel_reserved ch : channel_try_reserve ch = Ok tt → ch_open ch = true ∧ (len (ch_queue ch) < ch_capacity ch)%N;
  channel_sent command ch :
    ch_queue (channel_send command ch) = ch_queue ch ++ [command] ∧ ch_capacity (channel_send command ch) = ch_capacity ch;
}.

(** [std::fs::metadata]: whether the path is a regular file, and its length. *)
Abbreviation file_metadata := (string → option (bool * N)).

(** [hex::decode]. *)
Class HexDecoding := { hex_decode : string → option (list byte) }.

Section Ffi.
Context `{Chan : CommandChannel}.

Record SignalCore := mkCore {
  core_commands : Channel;
  core_acknowledgments : AcknowledgmentState;
  core_shutdown : bool;
  core_events : EventQueueState;
  core_ready : bool;
  core_attachments : AttachmentAdmission;
  core_join : bool;
}.

Definition set_commands (ch : Channel) (c : SignalCore) : SignalCore :=
  mkCore ch (core_acknowledgments c) (core_shutdown c) (core_events c) (core_ready c) (core_attachments c) (core_join c).
Definition set_acknowledgments (i : AcknowledgmentState) (c : SignalCore) : SignalCore :=
  mkCore (core_commands c) i (core_shutdown c) (core_events c) (core_ready c) (core_attachments c) (core_join c).
Definition set_events (q : EventQueueState) (c : SignalCore) : SignalCore :=
  mkCore (core_commands c) (core_acknowledgments c) (core_shutdown c) q (core_ready c) (core_attachments c) (core_join c).
Definition set_attachments (a : AttachmentAdmission) (c : SignalCore) : SignalCore :=
  mkCore (core_commands c) (core_acknowledgments c) (core_shutdown c) (core_events c) (core_ready c) a (core_join c).

(** The outcome of a call on a live core, and on a pointer that may be null. *)
Abbreviation call_result := (SignalStatus * SignalCore)%type.

Definition on_core (core : option SignalCore) (f : SignalCore → call_result) : SignalStatus * option SignalCore :=
  match core with
  | None => (InvalidArgument, None)
  | Some c => let r := f c in (r.1, Some r.2)
  end.

(** [status_try!]. *)
Definition status_try {A} (core : SignalCore) (r : result A SignalStatus) (k : A → call_result) : call_result :=
  match r with
  | Ok a => k a
  | Err status => (status, core)
  end.

(** ** Arguments *)

Definition required_string (value : option (list byte)) (maximum_bytes : N) : result string SignalStatus :=
  match value with
  | None => Err InvalidArgument
  | Some bytes =>
      if bool_decide (bytes = []) || (maximum_bytes <? len bytes)%N then Err InvalidArgument
      else ok_or (from_utf8 bytes) InvalidArgument
  end.

Definition required_store_passphrase (value : option (list byte)) (maximum_bytes : N)
  : result StorePassphrase SignalStatus :=
  match required_string value maximum_bytes with
  | Ok s => Ok (mkPassphrase s)
  | Err status => Err status
  end.

(** A group is named by 64 hexadecimal digits. *)
Definition invalid_group_key `{HexDecoding} (group_key : string) : bool :=
  negb (str_len group_key =? GROUP_KEY_BYTES)%N ||
  is_none_or (hex_decode group_key) (λ v, negb (len v =? 32)%N).

(** ** Queueing commands *)

Definition send_status (e : TrySendError) : SignalStatus :=
  match e with SendFull => QueueFull | SendClosed => InternalError end.

Definition queue_control_command (command : Command) (core : SignalCore) : call_result :=
  match channel_try_reserve (core_commands core) with
  | Ok _ => (StatusOk, set_commands (channel_send command (core_commands core)) core)
  | Err e => (send_status e, core)
  end.

Definition queue_command (command : Command) (core : SignalCore) : call_result :=
  if negb (core_ready core) then (NotReady, core) else queue_control_command command core.

Definition signal_core_send_message (core : option SignalCore) (request_id : N)
  (recipient message : option (list byte)) : SignalStatus * option SignalCore :=
  on_core core (λ core,
    status_try core (required_string recipient MAX_RECIPIENT_BYTES) (λ recipient,
    status_try core (required_string message MAX_MESSAGE_BYTES) (λ message,
    queue_command (SendMessage request_id recipient message) core))).

Definition signal_core_send_group_message `{HexDecoding} (core : option SignalCore) (request_id : N)
  (group_key message : option (list byte)) : SignalStatus * option SignalCore :=
  on_core core (λ core,
    status_try core (required_string group_key GROUP_KEY_BYTES) (λ group_key,
    if invalid_group_key group_key then (InvalidArgument, core)
    else
      status_try core (required_string message MAX_MESSAGE_BYTES) (λ message,
      queue_command (SendGroupMessage request_id group_key message) core))).

Definition signal_core_leave_group `{HexDecoding} (core : option SignalCore) (request_id : N)
  (group_key : option (list byte)) : SignalStatus * option SignalCore :=
  on_core core (λ core,
    if (request_id =? 0)%N then (InvalidArgument, core)
    else
      status_try core (required_string group_key GROUP_KEY_BYTES) (λ group_key,
      if invalid_group_key group_key then (InvalidArgument, core)
      else queue_command (LeaveGroup request_id group_key) core)).

(** *** Attachments *)

(** The permit and the slot of an attachment; without a slot the permit is
    dropped again. *)
Definition queue_attachment (request_id bytes : N) (command : AttachmentPermit → Command) (core : SignalCore)
  : call_result :=
  match try_reserve request_id bytes (core_attachments core) with
  | (Err AdmissionInvalid, _) => (InvalidArgument, core)
  | (Err AdmissionCapacity, _) => (QueueFull, core)
  | (Ok permit, admission) =>
      match channel_try_reserve (core_commands core) with
      | Err e => (send_status e, set_attachments (drop_permit permit admission) core)
      | Ok _ =>
          (StatusOk, set_commands (channel_send (command permit) (core_commands core))
                       (set_attachments admission core))
      end
  end.

(** [AttachmentInput]: [in_data] is the memory behind the data pointer, of
    which the first [in_data_len] bytes are copied. *)
Record AttachmentInput := mkInput {
  in_recipient : option (list byte);
  in_filename : option (list byte);
  in_content_type : option (list byte);
  in_data : option (list byte);
  in_data_len : N;
}.

Definition send_attachment `{HexDecoding} (core : option SignalCore) (request_id : N) (input : AttachmentInput)
  (group : bool) : SignalStatus * option SignalCore :=
  on_core core (λ core,
    match in_data input with
    | None => (InvalidArgument, core)
    | Some data =>
        if (in_data_len input =? 0)%N || (MAX_ATTACHMENT_BYTES <? in_data_len input)%N then (InvalidArgument, core)
        else if negb (core_ready core) then (NotReady, core)
        else
          status_try core (required_string (in_recipient input) MAX_RECIPIENT_BYTES) (λ recipient,
          status_try core (required_string (in_filename input) MAX_ATTACHMENT_FILENAME_BYTES) (λ filename,
          status_try core (required_string (in_content_type input) MAX_CONTENT_TYPE_BYTES) (λ content_type,
          if group && invalid_group_key recipient then (InvalidArgument, core)
          else
            queue_attachment request_id (in_data_len input) (λ permit,
              SendAttachment request_id recipient filename content_type
                (PayloadData (take (N.to_nat (in_data_len input)) data)) group permit) core)))
    end).

Definition signal_core_send_attachment `{HexDecoding} (core : option SignalCore) (request_id : N)
  (recipient filename content_type data : option (list byte)) (data_len : N) : SignalStatus * option SignalCore :=
  send_attachment core request_id (mkInput recipient filename content_type data data_len) false.

Definition signal_core_send_group_attachment `{HexDecoding} (core : option SignalCore) (request_id : N)
  (group_key filename content_type data : option (list byte)) (data_len : N) : SignalStatus * option SignalCore :=
  send_attachment core request_id (mkInput group_key filename content_type data data_len) true.

Definition send_file_attachment `{HexDecoding} (metadata : file_metadata) (core : option SignalCore)
  (request_id : N) (recipient filename content_type file_path : option (list byte)) (group : bool)
  : SignalStatus * option SignalCore :=
  on_core core (λ core,
    if bool_decide (file_path = None) then (InvalidArgument, core)
    else if negb (core_ready core) then (NotReady, core)
    else
      status_try core (required_string recipient MAX_RECIPIENT_BYTES) (λ recipient,
      status_try core (required_string filename MAX_ATTACHMENT_FILENAME_BYTES) (λ filename,
      status_try core (required_string content_type MAX_CONTENT_TYPE_BYTES) (λ content_type,
      status_try core (required_string file_path MAX_STORE_PATH_BYTES) (λ path,
      match metadata path with
      | Some (true, file_len) =>
          if negb ((0 <? file_len)%N && (file_len <=? MAX_ATTACHMENT_BYTES)%N) then (InvalidArgument, core)
          else if group && invalid_group_key recipient then (InvalidArgument, core)
          else
            queue_attachment request_id file_len (λ permit,
              SendAttachment request_id recipient filename content_type (PayloadPath path) group permit) core
      | _ => (InvalidArgument, core)
      end))))).

Definition signal_core_send_file_attachment `{HexDecoding} (metadata : file_metadata) (core : option SignalCore)
  (request_id : N) (recipient filename content_type file_path : option (list byte))
  : SignalStatus * option SignalCore :=
  send_file_attachment metadata core request_id recipient filename content_type file_path false.

Definition signal_core_send_group_file_attachment `{HexDecoding} (metadata : file_metadata)
  (core : option SignalCore) (request_id : N) (group_key filename content_type file_path : option (list byte))
  : SignalStatus * option SignalCore :=
  send_file_attachment metadata core request_id group_key filename content_type file_path true.

Definition signal_core_cancel_attachment (core : option SignalCore) (request_id : N)
  : SignalStatus * option SignalCore :=
  on_core core (λ core,
    if (request_id =? 0)%N then (InvalidArgument, core)
    else (StatusOk, set_attachments (admission_cancel request_id (core_attachments core)).2 core)).

(** *** Other commands *)

Definition signal_core_set_typing (core : option SignalCore) (request_id : N) (recipient : option (list byte))
  (typing : Z) : SignalStatus * option SignalCore :=
  on_core core (λ core,
    status_try core (required_string recipient MAX_RECIPIENT_BYTES) (λ recipient,
    queue_command (SetTyping request_id recipient (negb (typing =? 0)%Z)) core)).

Definition signal_core_ack_message (core : option SignalCore) (delivery_id : N) : SignalStatus * option SignalCore :=
  on_core core (λ core,
    if (delivery_id =? 0)%N then (InvalidArgument, core)
    else
      let r := ack_submit delivery_id (core_acknowledgments core) in
      (if r.1 then StatusOk else InternalError, set_acknowledgments r.2 core)).

Definition signal_core_accept_identity (core : option SignalCore) (request_id : N) (recipient : option (list byte))
  : SignalStatus * option SignalCore :=
  on_core core (λ core,
    status_try core (required_string recipient MAX_RECIPIENT_BYTES) (λ recipient,
    queue_control_command (AcceptIdentity request_id recipient) core)).

Definition signal_core_dismiss_identity (core : option SignalCore) (request_id : N) (recipient : option (list byte))
  : SignalStatus * option SignalCore :=
  on_core core (λ core,
    status_try core (required_string recipient MAX_RECIPIENT_BYTES) (λ recipient,
    queue_control_command (DismissIdentity request_id recipient) core)).

Definition signal_core_reset_session (core : option SignalCore) (request_id : N) (recipient : option (list byte))
  : SignalStatus * option SignalCore :=
  on_core core (λ core,
    status_try core (required_string recipient MAX_RECIPIENT_BYTES) (λ recipient,
    queue_control_command (ResetSession request_id recipient) core)).

Definition signal_core_mark_read (core : option SignalCore) (request_id : N) (recipient : option (list byte))
  (timestamp : N) : SignalStatus * option SignalCore :=
  on_core core (λ core,
    if (timestamp =? 0)%N then (InvalidArgument, core)
    else
      status_try core (required_string recipient MAX_RECIPIENT_BYTES) (λ recipient,
      queue_command (MarkRead request_id recipient timestamp) core)).

(** ** Polling

    [reads] are the reads of the notification socket, as in [poll]; the result
    is the returned number and what was written to [out_event]. *)
Definition signal_core_poll_event (reads : list read_result) (core : option SignalCore) (out_event : bool)
  : option ((Z * option SignalEvent) * option SignalCore) :=
  if negb out_event then Some ((-1)%Z, None, core)
  else
    match core with
    | None => Some ((-1)%Z, None, None)
    | Some c =>
        r ← poll reads (core_events c);
        let c' := Some (set_events r.2 c) in
        Some (match r.1.1 with
              | PollEvent event =>
                  match OwnedEvent_new event with
                  | Some e => (1%Z, Some e, c')
                  | None => ((-1)%Z, None, c')
                  end
              | PollEmpty => (0%Z, None, c')
              | PollDisconnected => ((-1)%Z, None, c')
              end)
    end.

(** ** Creation *)

(** A [SignalCoreConfig] in the memory of C, at an address. *)
Record SignalCoreConfig := mkCoreConfig {
  cfg_address : N;
  cfg_abi_version : N;
  cfg_struct_size : N;
  cfg_store_path : option (list byte);
  cfg_device_name : option (list byte);
  cfg_passphrase : option (list byte);
}.

(** What the system answers: the file system, the sockets of the event queue,
    and whether the worker thread could be started. *)
Record Platform := mkPlatform {
  pf_files : FileSystem;
  pf_sockets : result unit string;
  pf_thread : bool;
}.

Definition COMMAND_QUEUE_CAPACITY : N := 128.

(** [signal_core_new]: the core written to [out_core], with the configuration
    of the worker it started. *)
Definition signal_core_new (platform : Platform) (config : option SignalCoreConfig) (out_core : bool)
  : SignalStatus * option (SignalCore * Config) :=
  if negb out_core then (InvalidArgument, None)
  else
    match config with
    | None => (InvalidArgument, None)
    | Some config =>
        if negb (cfg_abi_version config =? ABI_VERSION)%N
           || (cfg_struct_size config <? repr_c_size SignalCoreConfig_fields)%N
           || negb (cfg_address config mod repr_c_align SignalCoreConfig_fields =? 0)%N
        then (InvalidArgument, None)
        else
          match required_string (cfg_store_path config) MAX_STORE_PATH_BYTES with
          | Err status => (status, None)
          | Ok store_path =>
          match ensure_store_parent (pf_files platform) store_path with
          | Err _ => (InternalError, None)
          | Ok _ =>
          match required_string (cfg_device_name config) MAX_DEVICE_NAME_BYTES with
          | Err status => (status, None)
          | Ok device_name =>
          match event_queue (pf_sockets platform) EVENT_QUEUE_CAPACITY with
          | Err _ => (InternalError, None)
          | Ok events =>
          match required_store_passphrase (cfg_passphrase config) MAX_PASSPHRASE_BYTES with
          | Err status => (status, None)
          | Ok passphrase =>
              if negb (pf_thread platform) then (InternalError, None)
              else
                (StatusOk, Some (mkCore (channel_new COMMAND_QUEUE_CAPACITY) acknowledgments_new false events false
                                   admission_new true,
                                 mkConfig store_path device_name passphrase))
          end end end end end
    end.

(** ** Teardown *)

(** [signal_core_shutdown]; [ended] is what the worker does to the core until
    its thread ends, which [join] waits for. *)
Definition signal_core_shutdown (ended : SignalCore → SignalCore) (core : option SignalCore) : option SignalCore :=
  match core with
  | None => None
  | Some c =>
      let c := mkCore (core_commands c) (core_acknowledgments c) true (close (core_events c)) false
                 (cancel_all (core_attachments c)) (core_join c) in
      if core_join c then
        let c := ended c in
        Some (mkCore (core_commands c) (core_acknowledgments c) (core_shutdown c) (core_events c) (core_ready c)
                (core_attachments c) false)
      else Some c
  end.

(** [signal_core_free]: the core is gone; what is left of the event queue is
    what producers still see. *)
Definition signal_core_free (ended : SignalCore → SignalCore) (core : option SignalCore) : option EventQueueState :=
  drop_queue ∘ core_events <$> signal_core_shutdown ended core.

(** ** Calls and the worker, interleaved *)

Inductive Call :=
| CallSendMessage (request_id : N) (recipient message : option (list byte))
| CallSendGroupMessage (request_id : N) (group_key message : option (list byte))
| CallLeaveGroup (request_id : N) (group_key : option (list byte))
| CallSendAttachment (request_id : N) (input : AttachmentInput) (group : bool)
| CallSendFileAttachment (metadata : file_metadata) (request_id : N)
    (recipient filename content_type file_path : option (list byte)) (group : bool)
| CallCancelAttachment (request_id : N)
| CallSetTyping (request_id : N) (recipient : option (list byte)) (typing : Z)
| CallAckMessage (delivery_id : N)
| CallAcceptIdentity (request_id : N) (recipient : option (list byte))
| CallDismissIdentity (request_id : N) (recipient : option (list byte))
| CallResetSession (request_id : N) (recipient : option (list byte))
| CallMarkRead (request_id : N) (recipient : option (list byte)) (timestamp : N).

Definition ffi_call `{HexDecoding} (call : Call) (core : option SignalCore) : SignalStatus * option SignalCore :=
  match call with
  | CallSendMessage id recipient message => signal_core_send_message core id recipient message
  | CallSendGroupMessage id key message => signal_core_send_group_message core id key message
  | CallLeaveGroup id key => signal_core_leave_group core id key
  | CallSendAttachment id input group => send_attachment core id input group
  | CallSendFileAttachment metadata id recipient filename content_type path group =>
      send_file_attachment metadata core id recipient filename content_type path group
  | CallCancelAttachment id => signal_core_cancel_attachment core id
  | CallSetTyping id recipient typing => signal_core_set_typing core id recipient typing
  | CallAckMessage delivery_id => signal_core_ack_message core delivery_id
  | CallAcceptIdentity id recipient => signal_core_accept_identity core id recipient
  | CallDismissIdentity id recipient => signal_core_dismiss_identity core id recipient
  | CallResetSession id recipient => signal_core_reset_session core id recipient
  | CallMarkRead id recipient timestamp => signal_core_mark_read core id recipient timestamp
  end.

End Ffi.
