(* ===== verification/Boundary.v ===== *)
(** * Boundary: what crosses the C interface

    Theorems of [Ffi]: strings are checked exactly, an accepted call becomes
    exactly one well-formed command in order, a refused call leaves nothing
    behind, and after a shutdown every submission is refused. *)
From S2P Require Import Prelude Event EventQueue Acknowledgment Attachment Command Utf8 Paths Ffi.

(** ** Strings *)

(** A text of at most [maximum] bytes that Rust may hold as a [String]. *)
Definition text_ok (maximum : N) (s : string) : Prop :=
  (0 < str_len s <= maximum)%N ∧ ∃ cs, Forall scalar cs ∧ Byte.to_N <$> bytes_of s = encode cs.

Lemma len_bytes_of s : len (bytes_of s) = str_len s.
Proof.
  unfold len, str_len, bytes_of. f_equal. induction s as [|c s IH]; [done|]. simpl. f_equal. exact IH.
Qed.

Lemma required_string_Ok value maximum s :
  required_string value maximum = Ok s ↔ value = Some (bytes_of s) ∧ text_ok maximum s.
Proof.
  unfold required_string, text_ok. split.
  - destruct value as [bytes|]; [|done]. case_match eqn:E; [done|]. apply orb_false_iff in E as [Ene Elen].
    destruct (from_utf8 bytes) as [s'|] eqn:Eu; simpl; [|done]. intros [= ->].
    apply from_utf8_Some in Eu as [-> Hcs]. bool_prop. rewrite len_bytes_of in *.
    apply bool_decide_eq_false in Ene. split; [done|]. split; [|done]. split; [|done].
    assert (len (bytes_of s) ≠ 0%N) by (by intros ?%len_zero). rewrite len_bytes_of in *. lia.
  - intros (->&[Hpos Hmax]&Hcs). rewrite bool_decide_eq_false_2.
    + rewrite len_bytes_of, (proj2 (N.ltb_ge _ _)) by done. simpl. by rewrite (proj2 (from_utf8_Some _ s)).
    + intros Hn%len_zero. rewrite len_bytes_of in Hn. lia.
Qed.

Lemma required_string_Err value maximum status :
  required_string value maximum = Err status → status = InvalidArgument.
Proof. unfold required_string, ok_or. repeat case_match; by intros [= <-]. Qed.

Section Boundary.
Context `{Hex : HexDecoding} `{Chan : CommandChannel} `{Laws : !CommandChannelLaws}.

Abbreviation call_result := (SignalStatus * SignalCore)%type.

Definition group_key_ok (key : string) : Prop :=
  text_ok GROUP_KEY_BYTES key ∧ str_len key = GROUP_KEY_BYTES ∧ ∃ v, hex_decode key = Some v ∧ len v = 32%N.

Lemma invalid_group_key_false key :
  invalid_group_key key = false ↔ str_len key = GROUP_KEY_BYTES ∧ ∃ v, hex_decode key = Some v ∧ len v = 32%N.
Proof.
  unfold invalid_group_key. rewrite orb_false_iff, negb_false_iff, N.eqb_eq. destruct (hex_decode key) as [v|]; simpl.
  - rewrite negb_false_iff, N.eqb_eq. naive_solver.
  - naive_solver.
Qed.

(** ** Commands *)

Definition command_ok (command : Command) : Prop :=
  match command with
  | SendMessage _ recipient message => text_ok MAX_RECIPIENT_BYTES recipient ∧ text_ok MAX_MESSAGE_BYTES message
  | SendGroupMessage _ key message => group_key_ok key ∧ text_ok MAX_MESSAGE_BYTES message
  | LeaveGroup request_id key => request_id ≠ 0%N ∧ group_key_ok key
  | SendAttachment request_id recipient filename content_type data group permit =>
      text_ok MAX_RECIPIENT_BYTES recipient ∧ text_ok MAX_ATTACHMENT_FILENAME_BYTES filename ∧
      text_ok MAX_CONTENT_TYPE_BYTES content_type ∧ (group = true → invalid_group_key recipient = false) ∧
      request_id ≠ 0%N ∧ permit_request_id permit = request_id ∧ permit_registration permit = true ∧
      match data with
      | PayloadData d => (0 < len d <= MAX_ATTACHMENT_BYTES)%N
      | PayloadPath path => text_ok MAX_STORE_PATH_BYTES path
      end
  | SetTyping _ recipient _ | AcceptIdentity _ recipient | DismissIdentity _ recipient | ResetSession _ recipient =>
      text_ok MAX_RECIPIENT_BYTES recipient
  | MarkRead _ recipient timestamp => text_ok MAX_RECIPIENT_BYTES recipient ∧ timestamp ≠ 0%N
  end.

(** C keeps its promise that [data_len] bytes are readable. *)
Definition readable (call : Call) : Prop :=
  match call with
  | CallSendAttachment _ input _ => ∀ data, in_data input = Some data → (in_data_len input <= len data)%N
  | _ => True
  end.

(** The command a call asks for, in the words of C. *)
Definition text (value : option (list byte)) : string := String.string_of_list_byte (default [] value).

Definition requested (call : Call) (permit : AttachmentPermit) : option Command :=
  match call with
  | CallSendMessage id recipient message => Some (SendMessage id (text recipient) (text message))
  | CallSendGroupMessage id key message => Some (SendGroupMessage id (text key) (text message))
  | CallLeaveGroup id key => Some (LeaveGroup id (text key))
  | CallSendAttachment id input group =>
      Some (SendAttachment id (text (in_recipient input)) (text (in_filename input)) (text (in_content_type input))
              (PayloadData (take (N.to_nat (in_data_len input)) (default [] (in_data input)))) group permit)
  | CallSendFileAttachment _ id recipient filename content_type path group =>
      Some (SendAttachment id (text recipient) (text filename) (text content_type) (PayloadPath (text path)) group permit)
  | CallSetTyping id recipient typing => Some (SetTyping id (text recipient) (negb (typing =? 0)%Z))
  | CallAcceptIdentity id recipient => Some (AcceptIdentity id (text recipient))
  | CallDismissIdentity id recipient => Some (DismissIdentity id (text recipient))
  | CallResetSession id recipient => Some (ResetSession id (text recipient))
  | CallMarkRead id recipient timestamp => Some (MarkRead id (text recipient) timestamp)
  | CallCancelAttachment _ | CallAckMessage _ => None
  end.

Definition submits (call : Call) : bool :=
  match call with CallCancelAttachment _ | CallAckMessage _ => false | _ => true end.

Lemma text_bytes_of s : text (Some (bytes_of s)) = s.
Proof. apply String.string_of_list_byte_of_string. Qed.

(** ** The effect of a call *)

(** Nothing changed but for a control that no one holds. *)
Definition same_admission (a a' : AttachmentAdmission) : Prop :=
  maximum_bytes a' = maximum_bytes a ∧ maximum_attachments a' = maximum_attachments a ∧
  adm_bytes a' = adm_bytes a ∧ adm_requests a' = adm_requests a.

Definition same_core (c c' : SignalCore) : Prop :=
  core_commands c' = core_commands c ∧ core_acknowledgments c' = core_acknowledgments c ∧
  core_shutdown c' = core_shutdown c ∧ core_events c' = core_events c ∧ core_ready c' = core_ready c ∧
  core_join c' = core_join c ∧ same_admission (core_attachments c) (core_attachments c').

Lemma same_core_refl c : same_core c c.
Proof. by repeat split. Qed.

(** Calls that are accepted only while the account is ready; the others are
    for when it is not, too. *)
Definition needs_ready (call : Call) : bool :=
  match call with
  | CallAcceptIdentity _ _ | CallDismissIdentity _ _ | CallResetSession _ _ => false
  | call => submits call
  end.

Inductive effect (call : Call) (core : SignalCore) : call_result → Prop :=
| effect_refused status core' : status ≠ StatusOk → same_core core core' → effect call core (status, core')
| effect_queued command permit core' :
    requested call permit = Some command → (readable call → command_ok command) →
    (needs_ready call = true → core_ready core = true) → channel_try_reserve (core_commands core) = Ok tt →
    core_commands core' = channel_send command (core_commands core) →
    effect call core (StatusOk, core')
| effect_other core' :
    submits call = false → core_commands core' = core_commands core → effect call core (StatusOk, core').

Lemma effect_invalid call core : effect call core (InvalidArgument, core).
Proof. by apply effect_refused, same_core_refl. Qed.

Lemma effect_try {A} call core (r : result A SignalStatus) k :
  (∀ status, r = Err status → status = InvalidArgument) → (∀ a, r = Ok a → effect call core (k a)) →
  effect call core (status_try core r k).
Proof.
  intros Herr Hk. destruct r as [a|status]; simpl; [by apply Hk|]. rewrite (Herr _ eq_refl). apply effect_invalid.
Qed.

Lemma effect_string call core value maximum k :
  (∀ s, value = Some (bytes_of s) → text_ok maximum s → effect call core (k s)) →
  effect call core (status_try core (required_string value maximum) k).
Proof.
  intros Hk. apply effect_try; [apply required_string_Err|]. intros s [Hv Ht]%required_string_Ok. by apply Hk.
Qed.

Lemma effect_control call core command permit :
  requested call permit = Some command → (readable call → command_ok command) →
  (needs_ready call = true → core_ready core = true) →
  effect call core (queue_control_command command core).
Proof.
  intros Hr Hok Hready. unfold queue_control_command. destruct (channel_try_reserve (core_commands core)) as [[]|e] eqn:E.
  - by eapply effect_queued.
  - by apply effect_refused; [by destruct e|apply same_core_refl].
Qed.

Lemma effect_command call core command permit :
  requested call permit = Some command → (readable call → command_ok command) →
  effect call core (queue_command command core).
Proof.
  intros Hr Hok. unfold queue_command. destruct (core_ready core) eqn:E; simpl.
  - by eapply effect_control.
  - apply effect_refused, same_core_refl. done.
Qed.

(** The permit of a command that could not be queued is given back. *)
Lemma reserve_drop request_id bytes a permit a' :
  try_reserve request_id bytes a = (Ok permit, a') → same_admission a (drop_permit permit a').
Proof.
  unfold try_reserve. repeat case_match; intros; simplify_eq/=. unfold drop_permit, release. simpl.
  rewrite lookup_insert_eq. simpl. split_and!; simpl; [done..|lia|]. rewrite delete_insert_id; [done|].
  by apply eq_None_not_Some.
Qed.

Lemma reserve_permit request_id bytes a permit a' :
  try_reserve request_id bytes a = (Ok permit, a') →
  request_id ≠ 0%N ∧ permit_request_id permit = request_id ∧ permit_registration permit = true.
Proof. unfold try_reserve. repeat case_match; intros; simplify_eq/=. bool_prop. done. Qed.

Lemma effect_attachment call core request_id bytes command :
  core_ready core = true →
  (∀ permit, requested call permit = Some (command permit)) →
  (∀ permit, request_id ≠ 0%N → permit_request_id permit = request_id → permit_registration permit = true →
     readable call → command_ok (command permit)) →
  effect call core (queue_attachment request_id bytes command core).
Proof.
  intros Hready Hr Hok. unfold queue_attachment.
  destruct (try_reserve request_id bytes (core_attachments core)) as [[permit|[]] a'] eqn:E.
  - apply reserve_permit in E as Hp. destruct (channel_try_reserve (core_commands core)) as [[]|e] eqn:Ech.
    + eapply (effect_queued _ _ (command permit) permit); naive_solver.
    + apply effect_refused; [by destruct e|]. apply reserve_drop in E. by repeat split; try apply E.
  - apply effect_invalid.
  - by apply effect_refused, same_core_refl.
Qed.

(** What a call does to a live core. *)
Definition live_call (call : Call) (core : SignalCore) : call_result :=
  let r := ffi_call call (Some core) in (r.1, default core r.2).

Lemma live_call_eq call core : ffi_call call (Some core) = ((live_call call core).1, Some (live_call call core).2).
Proof. by destruct call. Qed.

Lemma group_effect call core key k :
  text_ok GROUP_KEY_BYTES key → (group_key_ok key → effect call core k) →
  effect call core (if invalid_group_key key then (InvalidArgument, core) else k).
Proof.
  intros Ht Hk. destruct (invalid_group_key key) eqn:E; [apply effect_invalid|].
  apply invalid_group_key_false in E. by apply Hk.
Qed.

Lemma on_core_effect call core f :
  effect call core (f core) →
  effect call core ((on_core (Some core) f).1, default core (on_core (Some core) f).2).
Proof. simpl. by rewrite <-surjective_pairing. Qed.

Ltac string_argument := apply effect_string; intros ? ? ?.

(** The command of a call whose strings were checked. *)
Ltac solve_requested :=
  unfold requested;
  repeat match goal with H : _ = Some (bytes_of _) |- _ => rewrite H end; by rewrite ?text_bytes_of.

(** Both kinds of attachments, from the arguments on. *)
Lemma attachment_effect call core request_id bytes recipient filename content_type data group :
  core_ready core = true →
  (∀ permit, requested call permit = Some (SendAttachment request_id recipient filename content_type data group permit)) →
  text_ok MAX_RECIPIENT_BYTES recipient → text_ok MAX_ATTACHMENT_FILENAME_BYTES filename →
  text_ok MAX_CONTENT_TYPE_BYTES content_type →
  (readable call → match data with
                   | PayloadData d => (0 < len d <= MAX_ATTACHMENT_BYTES)%N
                   | PayloadPath path => text_ok MAX_STORE_PATH_BYTES path
                   end) →
  effect call core
    (if group && invalid_group_key recipient then (InvalidArgument, core)
     else queue_attachment request_id bytes (SendAttachment request_id recipient filename content_type data group) core).
Proof.
  intros Hready Hr Hrec Hname Htype Hdata. destruct (group && invalid_group_key recipient) eqn:Eg; [apply effect_invalid|].
  apply effect_attachment; [done..|]. intros permit Hid Hp Hreg Hread. split_and!; try done; [|by apply Hdata].
  intros ->. done.
Qed.

Lemma send_attachment_effect request_id input group core :
  let call := CallSendAttachment request_id input group in effect call core (live_call call core).
Proof.
  intros call. apply on_core_effect.
  destruct (in_data input) as [data|] eqn:Ed; [|apply effect_invalid].
  destruct (_ || _) eqn:Elen; [apply effect_invalid|]. bool_prop.
  destruct (core_ready core) eqn:Er; simpl; [|by apply effect_refused, same_core_refl].
  do 3 string_argument. apply attachment_effect; try done.
  - intros permit. unfold call. rewrite <-?Ed. unfold requested. rewrite Ed. solve_requested.
  - intros Hread. specialize (Hread _ Ed). unfold len in *. rewrite length_take. lia.
Qed.

Lemma send_file_effect metadata request_id recipient filename content_type path group core :
  let call := CallSendFileAttachment metadata request_id recipient filename content_type path group in
  effect call core (live_call call core).
Proof.
  intros call. apply on_core_effect. case_bool_decide; [apply effect_invalid|].
  destruct (core_ready core) eqn:Er; simpl; [|by apply effect_refused, same_core_refl].
  do 4 string_argument. destruct (metadata _) as [[[] file_len]|]; try apply effect_invalid.
  destruct (negb _); [apply effect_invalid|]. apply attachment_effect; try done.
  intros permit. unfold call. solve_requested.
Qed.

Lemma live_call_effect call core : effect call core (live_call call core).
Proof.
  destruct call; try apply send_attachment_effect; try apply send_file_effect; apply on_core_effect.
  - do 2 string_argument. eapply (effect_command _ _ _ (mkPermit 0 0 false)); [solve_requested|done].
  - string_argument. apply group_effect; [done|]. intros Hk. string_argument.
    eapply (effect_command _ _ _ (mkPermit 0 0 false)); [solve_requested|done].
  - destruct (request_id =? 0)%N eqn:E; [apply effect_invalid|]. bool_prop.
    string_argument. apply group_effect; [done|]. intros Hk.
    eapply (effect_command _ _ _ (mkPermit 0 0 false)); [solve_requested|done].
  - destruct (request_id =? 0)%N; [apply effect_invalid|]. by apply effect_other.
  - string_argument. eapply (effect_command _ _ _ (mkPermit 0 0 false)); [solve_requested|done].
  - destruct (delivery_id =? 0)%N; [apply effect_invalid|]. cbv zeta.
    destruct (ack_submit delivery_id (core_acknowledgments core)) as [b i] eqn:E. destruct b; [by apply effect_other|].
    apply effect_refused; [done|]. unfold ack_submit in E. repeat case_match; simplify_eq. by destruct core.
  - string_argument. eapply (effect_control _ _ _ (mkPermit 0 0 false)); [solve_requested|done..].
  - string_argument. eapply (effect_control _ _ _ (mkPermit 0 0 false)); [solve_requested|done..].
  - string_argument. eapply (effect_control _ _ _ (mkPermit 0 0 false)); [solve_requested|done..].
  - destruct (timestamp =? 0)%N eqn:E; [apply effect_invalid|]. bool_prop.
    string_argument. eapply (effect_command _ _ _ (mkPermit 0 0 false)); [solve_requested|done].
Qed.

(** ** Calls and the worker, interleaved

    The core, the calls accepted so far that submit a command, and the commands
    the worker received. *)

Record Traffic := mkTraffic {
  tr_core : SignalCore;
  tr_accepted : list Call;
  tr_received : list Command;
}.

Definition accept (call : Call) (status : SignalStatus) (l : list Call) : list Call :=
  if bool_decide (status = StatusOk) && submits call then l ++ [call] else l.

Inductive traffic_step : Traffic → Traffic → Prop :=
| traffic_call core accepted received call status core' :
    readable call → ffi_call call (Some core) = (status, Some core') →
    traffic_step (mkTraffic core accepted received) (mkTraffic core' (accept call status accepted) received)
| traffic_receive core accepted received command ch :
    ch_queue (core_commands core) = command :: ch_queue ch → ch_capacity ch = ch_capacity (core_commands core) →
    traffic_step (mkTraffic core accepted received) (mkTraffic (set_commands ch core) accepted (received ++ [command]))
| traffic_worker core accepted received core' :
    ch_queue (core_commands core') = ch_queue (core_commands core) →
    ch_capacity (core_commands core') = ch_capacity (core_commands core) →
    traffic_step (mkTraffic core accepted received) (mkTraffic core' accepted received).

Definition traffic_reachable (core : SignalCore) (s : Traffic) : Prop := rtc traffic_step (mkTraffic core [] []) s.

Definition answers_call (call : Call) (command : Command) : Prop :=
  (∃ permit, requested call permit = Some command) ∧ command_ok command.

Record traffic_ok (capacity : N) (s : Traffic) : Prop := {
  traffic_capacity : ch_capacity (core_commands (tr_core s)) = capacity;
  traffic_bound : (len (ch_queue (core_commands (tr_core s))) <= capacity)%N;
  traffic_order : Forall2 answers_call (tr_accepted s) (tr_received s ++ ch_queue (core_commands (tr_core s)));
}.

Lemma submits_requested call permit command : requested call permit = Some command → submits call = true.
Proof. by destruct call. Qed.

Lemma traffic_call_ok capacity core accepted received call :
  traffic_ok capacity (mkTraffic core accepted received) → readable call →
  traffic_ok capacity (mkTraffic (live_call call core).2 (accept call (live_call call core).1 accepted) received).
Proof.
  intros [Hc Hb Ho] Hr. generalize (live_call_effect call core). generalize (live_call call core).
  intros r Heff. simpl in *. destruct Heff as
    [status core' Hne (Hcmd&_)|command permit core' Hreq Hok _ Hres Hcmd|core' Hsub Hcmd]; unfold accept; simpl.
  - rewrite bool_decide_eq_false_2 by done. split; simpl; by rewrite Hcmd.
  - rewrite (submits_requested _ _ _ Hreq). apply channel_reserved in Hres as [_ Hroom].
    destruct (channel_sent command (core_commands core)) as [Hq Hcap].
    split; simpl; rewrite Hcmd, ?Hq, ?Hcap; [done| |].
    + rewrite len_app, len_cons. unfold len at 2. simpl. lia.
    + rewrite app_assoc. apply Forall2_app; [done|]. repeat constructor; [by exists permit|by apply Hok].
  - rewrite Hsub. split; simpl; by rewrite Hcmd.
Qed.

Lemma traffic_step_ok capacity s s' : traffic_ok capacity s → traffic_step s s' → traffic_ok capacity s'.
Proof.
  intros Hs Hstep. destruct Hstep as
    [core accepted received call status core' Hr Hcall|core accepted received command ch Hq Hcap|core accepted received core' Hq Hcap].
  - rewrite live_call_eq in Hcall. simplify_eq. by apply traffic_call_ok.
  - destruct Hs as [Hc Hb Ho]. simpl in *. rewrite Hq in *. split; simpl; [by rewrite Hcap| |by rewrite <-app_assoc].
    rewrite len_cons in Hb. lia.
  - destruct Hs as [Hc Hb Ho]. simpl in *. by split; simpl; rewrite ?Hcap, ?Hq.
Qed.

(** Once the worker is gone nothing is accepted. *)
Lemma closed_refuses call core :
  ack_open (core_acknowledgments core) = false → ch_open (core_commands core) = false →
  (∀ request_id, call ≠ CallCancelAttachment request_id) →
  (live_call call core).1 ≠ StatusOk ∧ same_core core (live_call call core).2.
Proof.
  intros Hack Hch Hcall.
  assert (Hno : submits call = false → (live_call call core).1 ≠ StatusOk).
  { destruct call; try done; intros _; [by edestruct Hcall|]. unfold live_call. simpl.
    destruct (delivery_id =? 0)%N; [done|]. unfold ack_submit. by rewrite Hack. }
  revert Hno. generalize (live_call_effect call core). generalize (live_call call core). intros r Heff Hno.
  destruct Heff as [status core' Hne Hs|command permit core' _ _ _ Hres _|core' Hsub _]; [done| |by destruct (Hno Hsub)].
  apply channel_reserved in Hres as [Hopen _]. congruence.
Qed.

(** Every string that crosses the C interface is checked exactly: it is
    accepted if and only if the pointer is not null and its bytes are the UTF-8
    encoding of Unicode scalar values, not empty and no longer than the limit,
    and then it is passed on unchanged. *)
Theorem boundary_strings_exact value maximum s :
  required_string value maximum = Ok s ↔
  value = Some (bytes_of s) ∧ (0 < str_len s <= maximum)%N ∧
  ∃ cs, Forall scalar cs ∧ Byte.to_N <$> bytes_of s = encode cs.
Proof. apply required_string_Ok. Qed.


(** C25. A call that is refused leaves nothing behind: the core is as before,
    and an attachment admitted before the queue turned out to be full or closed
    is given back; a null core is refused as an invalid argument. *)
Theorem refused_call_changes_nothing call core status core' :
  ffi_call call core = (status, core') → status ≠ StatusOk →
  match core, core' with
  | Some c, Some c' => same_core c c'
  | None, None => status = InvalidArgument
  | _, _ => False
  end.
Proof.
  destruct core as [core|].
  - rewrite live_call_eq. generalize (live_call_effect call core). generalize (live_call call core).
    intros r Heff [= <- <-] Hne. by destruct Heff.
  - destruct call; by intros [= <- <-].
Qed.

(** What polling returns. *)
Lemma poll_event_spec reads core r :
  q_receiver_poisoned (core_events core) = false → signal_core_poll_event reads (Some core) true = Some r →
  match q_channel (core_events core) with
  | e :: rest =>
      ∃ s core', r = (1%Z, Some s, Some core') ∧ c_view s = sanitize e ∧
        se_abi_version s = ABI_VERSION ∧ se_struct_size s = 88%N ∧ q_channel (core_events core') = rest
  | [] =>
      r.1 = (if q_sender_alive (core_events core) then 0%Z else (-1)%Z, None) ∧
      (q_channel ∘ core_events <$> r.2) = Some []
  end.
Proof.
  intros Hp Hr. unfold signal_core_poll_event, poll in Hr. simpl in Hr. rewrite Hp in Hr.
  destruct (q_channel (core_events core)) as [|e rest] eqn:Eq.
  - destruct (drain_notification _ _) as [unread|]; [|done]. simpl in Hr.
    destruct (q_sender_alive (core_events core)); simplify_eq/=; by rewrite Eq.
  - simpl in Hr. destruct (owned_event_roundtrip e) as (s&Hs&Hview&Hsize&_). rewrite Hs in Hr. injection Hr as <-.
    eexists s, _. split; [done|]. split; [done|]. split; [by apply owned_event_version in Hs|]. split; [done|].
    by case_decide.
Qed.

(** C26. Polling hands the events to C unchanged and in order: it returns the
    oldest event, removes it from the queue and reports one; what C reads
    through the pointers is that event, every NUL inside a string replaced by
    U+FFFD; with no event C gets a null pointer, and 0 as long as the worker
    can still emit. *)
Theorem polled_event_roundtrip reads core r :
  q_receiver_poisoned (core_events core) = false → signal_core_poll_event reads (Some core) true = Some r →
  match q_channel (core_events core) with
  | e :: rest =>
      ∃ s core', r = (1%Z, Some s, Some core') ∧ c_view s = sanitize e ∧
        se_abi_version s = ABI_VERSION ∧ se_struct_size s = 88%N ∧ q_channel (core_events core') = rest
  | [] =>
      r.1 = (if q_sender_alive (core_events core) then 0%Z else (-1)%Z, None) ∧
      (q_channel ∘ core_events <$> r.2) = Some []
  end.
Proof. apply poll_event_spec. Qed.

End Boundary.

(** ** Runs *)

#[local] Instance sample_hex : HexDecoding := {| hex_decode := λ s, Some (take 32 (bytes_of s)) |}.

(** A list with a capacity, as a channel. *)
Record ListChannel := mkListChannel {
  lc_capacity : N;
  lc_queue : list Command;
  lc_open : bool;
}.

#[export] Instance list_channel : CommandChannel := {|
  Channel := ListChannel;
  ch_capacity := lc_capacity;
  ch_queue := lc_queue;
  ch_open := lc_open;
  channel_new := λ capacity, mkListChannel capacity [] true;
  channel_try_reserve := λ ch,
    if negb (lc_open ch) then Err SendClosed
    else if (lc_capacity ch <=? len (lc_queue ch))%N then Err SendFull
    else Ok tt;
  channel_send := λ command ch, mkListChannel (lc_capacity ch) (lc_queue ch ++ [command]) (lc_open ch);
|}.

#[export] Instance list_channel_laws : CommandChannelLaws.
Proof.
  split; try done. intros [capacity q []]; simpl; [|done]. case_match; [done|]. bool_prop. done.
Qed.

Definition sample_files : FileSystem := mkFileSystem (λ _, true) (λ _, Ok tt) (λ _ _, Ok tt).

Definition sample_config : SignalCoreConfig :=
  mkCoreConfig 4096 ABI_VERSION 32 (Some (bytes_of "/home/user/signal/store.db")) (Some (bytes_of "laptop"))
    (Some (bytes_of "secret")).

Definition sample_new := signal_core_new (mkPlatform sample_files (Ok tt) true) (Some sample_config) true.

Definition sample_core : SignalCore :=
  match sample_new.2 with
  | Some (c, _) => c
  | None => mkCore (channel_new 0) acknowledgments_new false (mkQueue 0 0 [] true true false false false 0 0 0) false
              admission_new false
  end.

Definition ready_core : SignalCore :=
  mkCore (core_commands sample_core) (core_acknowledgments sample_core) false (core_events sample_core) true
    (core_attachments sample_core) true.

Definition sample_call : Call := CallSendMessage 1 (Some (bytes_of "friend")) (Some (bytes_of "hello")).

Definition sent_core : SignalCore := (live_call sample_call ready_core).2.

Lemma sample_traffic : traffic_reachable sample_core (mkTraffic sent_core [sample_call] []).
Proof.
  apply (rtc_l _ _ (mkTraffic ready_core [] [])); [by apply traffic_worker|].
  apply rtc_once, (traffic_call ready_core [] [] sample_call StatusOk sent_core); [done|]. vm_compute. reflexivity.
Qed.


(** The account is not ready yet. *)
Lemma refused_call_changes_nothing_witness :
  (ffi_call sample_call (Some sample_core)).1 = NotReady ∧
  same_core sample_core (live_call sample_call sample_core).2.
Proof.
  split; [vm_compute; reflexivity|].
  exact (refused_call_changes_nothing sample_call (Some sample_core) NotReady (Some (live_call sample_call sample_core).2)
    eq_refl ltac:(discriminate)).
Defined.

Definition speaking_core : SignalCore := set_events (set_channel [error "lost" false] (core_events sample_core)) sample_core.

Lemma polled_event_roundtrip_witness :
  ∃ s core', signal_core_poll_event [] (Some speaking_core) true = Some (1%Z, Some s, Some core') ∧
    c_view s = sanitize (error "lost" false).
Proof.
  destruct (polled_event_roundtrip [] speaking_core
    (1%Z, OwnedEvent_new (error "lost" false), Some (set_events (set_channel [] (core_events sample_core)) sample_core))
    eq_refl eq_refl) as (s&core'&Heq&Hview&_).
  exists s, core'. rewrite <-Heq. split; [vm_compute; reflexivity|exact Hview].
Defined.
