(* ===== verification/Effects.v ===== *)
(** * Effects: programs that call stores, networks and queues

    An [async fn] of the crate is a [proc]: a tree of operations with their
    continuations.  Its behaviours ([exec]) are the traces of operations and
    answers it can produce, for any answers at all; it can be cancelled
    wherever it is suspended (a future dropped at an await), and it can panic.
    Assumptions on the answers are predicates on traces ([legal]).  [wp]
    computes what must be shown of a program; [wp_sound] says that is enough.
    Nothing here is about Signal: the operations are a parameter. *)
From S2P Require Import Prelude.

(** The operations, the type of their answers, and whether the caller is
    suspended (and so may be cancelled) while it waits for the answer. *)
Class EffectSig := {
  op : Type;
  Resp : op → Type;
  suspends : op → bool;
}.

Section Programs.
Context `{Sig : EffectSig}.

Inductive proc (A : Type) : Type :=
| Ret (a : A)
| Step (o : op) (k : Resp o → proc A)
| Panic (message : string).

Fixpoint proc_bind {A B} (f : A → proc B) (p : proc A) : proc B :=
  match p with
  | Ret _ a => f a
  | Step _ o k => Step B o (λ r, proc_bind f (k r))
  | Panic _ m => Panic B m
  end.

End Programs.

Arguments Ret {Sig A} a.
Arguments Step {Sig A} o k.
Arguments Panic {Sig A} message.

#[export] Instance proc_ret `{EffectSig} : MRet proc := λ A a, Ret a.
#[export] Instance proc_mbind `{EffectSig} : MBind proc := λ A B f p, proc_bind f p.

(** The [?] operator. *)
Definition try_ `{EffectSig} {A B E} (r : result A E) (k : A → proc (result B E)) : proc (result B E) :=
  match r with Ok a => k a | Err e => Ret (Err e) end.

(** One operation. *)
Definition perform `{EffectSig} (o : op) : proc (Resp o) := Step o Ret.

Section Semantics.
Context `{Sig : EffectSig}.

(** An operation with its answer; a history is a list of them. *)
Definition entry : Type := {o : op & Resp o}.

Definition answered (o : op) (r : Resp o) : entry := existT o r.

Inductive outcome (A : Type) : Type :=
| Done (a : A)
| Cancelled (o : op)
| Panicked (message : string).

Arguments Done {A} a.
Arguments Cancelled {A} o.
Arguments Panicked {A} message.

Inductive exec {A} : proc A → list entry → outcome A → Prop :=
| exec_ret a : exec (Ret a) [] (Done a)
| exec_panic m : exec (Panic m) [] (Panicked m)
| exec_cancel o k : suspends o = true → exec (Step o k) [] (Cancelled o)
| exec_step o k r t out : exec (k r) t out → exec (Step o k) (answered o r :: t) out.

(** A program run against a world that computes the answers. *)
Fixpoint run {A} (world : list entry → ∀ o, Resp o) (p : proc A) (h : list entry) : list entry * outcome A :=
  match p with
  | Ret a => ([], Done a)
  | Panic m => ([], Panicked m)
  | Step o k =>
      let r := world h o in
      let tr := run world (k r) (h ++ [answered o r]) in (answered o r :: tr.1, tr.2)
  end.

Lemma run_exec {A} world (p : proc A) h : exec p (run world p h).1 (run world p h).2.
Proof.
  revert h. induction p as [a|o k IH|m]; intros h; simpl; [constructor| |constructor].
  apply exec_step, IH.
Qed.

(** A program that ended, by its first operation. *)
Lemma exec_done_inv {A} (p : proc A) t a :
  exec p t (Done a) →
  match p with
  | Ret b => t = [] ∧ a = b
  | Panic _ => False
  | Step o k => ∃ r t', t = answered o r :: t' ∧ exec (k r) t' (Done a)
  end.
Proof. remember (Done a) as out eqn:E. destruct 1; simplify_eq; eauto. Qed.

(** Answers that meet the assumptions, given the history. *)
Definition assumption : Type := list entry → ∀ o, Resp o → Prop.

Fixpoint legal_trace (legal : assumption) (h t : list entry) : Prop :=
  match t with
  | [] => True
  | e :: t => legal h (projT1 e) (projT2 e) ∧ legal_trace legal (h ++ [e]) t
  end.

(** No assumption. *)
Definition any_answer : assumption := λ _ _ _, True.

Lemma any_answer_legal h t : legal_trace any_answer h t.
Proof. revert h. induction t as [|e t IH]; intros h; simpl; [done|]. split; [done|apply IH]. Qed.

(** ** Specifications

    [legal] are the assumptions; [step_ok] is asked of every operation with its
    answer at the history where it happens; [cancel_ok] of every operation the
    program may be cancelled in, with the history so far; [panic_ok] of every
    panic. *)
Record spec := mkSpecification {
  legal : assumption;
  step_ok : list entry → entry → Prop;
  cancel_ok : op → list entry → Prop;
  panic_ok : string → list entry → Prop;
}.

(** [p] meets [S] from history [h] on, and ends with [Q]. *)
Fixpoint wp {A} (S : spec) (p : proc A) (Q : A → list entry → Prop) (h : list entry) : Prop :=
  match p with
  | Ret a => Q a h
  | Panic m => panic_ok S m h
  | Step o k =>
      (suspends o = true → cancel_ok S o h) ∧
      ∀ r, legal S h o r → step_ok S h (answered o r) ∧ wp S (k r) Q (h ++ [answered o r])
  end.

Definition outcome_holds {A} (S : spec) (Q : A → list entry → Prop) (out : outcome A) (h : list entry) : Prop :=
  match out with
  | Done a => Q a h
  | Cancelled o => cancel_ok S o h
  | Panicked m => panic_ok S m h
  end.

(** Every entry of [t], at its place in a history that starts with [h]. *)
Definition always (P : list entry → entry → Prop) (h t : list entry) : Prop :=
  ∀ pre e post, t = pre ++ e :: post → P (h ++ pre) e.

Lemma wp_sound {A} S (p : proc A) Q h t out :
  wp S p Q h → exec p t out → legal_trace (legal S) h t →
  always (step_ok S) h t ∧ outcome_holds S Q out (h ++ t).
Proof.
  intros Hwp Hex. revert h Hwp. induction Hex as [a|m|o k Hs|o k r t out Hex IH]; intros h Hwp Hl; simpl in *.
  - split; [by intros [] ? ?|]. by rewrite app_nil_r.
  - split; [by intros [] ? ?|]. by rewrite app_nil_r.
  - split; [by intros [] ? ?|]. rewrite app_nil_r. by apply Hwp.
  - destruct Hwp as [_ Hk], Hl as [Hr Hl]. destruct (Hk r Hr) as [HP Hwp'].
    destruct (IH _ Hwp' Hl) as [Hal Hq]. rewrite <-app_assoc in Hq. split; [|done].
    intros [|e' pre] e post Heq; simplify_eq/=; [by rewrite app_nil_r|].
    specialize (Hal _ _ _ eq_refl). by rewrite <-app_assoc in Hal.
Qed.

Lemma wp_mono {A} S (p : proc A) (Q Q' : A → list entry → Prop) h :
  (∀ a h, Q a h → Q' a h) → wp S p Q h → wp S p Q' h.
Proof.
  intros HQ. revert h. induction p as [a|o k IH|m]; intros h; simpl; [apply HQ| |done].
  intros [Hs Hk]. split; [done|]. intros r Hr. destruct (Hk r Hr). split; [done|]. by apply IH.
Qed.

Lemma wp_bind {A B} S (p : proc A) (f : A → proc B) Q h :
  wp S (p ≫= f) Q h ↔ wp S p (λ a h, wp S (f a) Q h) h.
Proof.
  revert h. induction p as [a|o k IH|m]; intros h; simpl; [done| |done].
  split; intros [Hs Hk]; (split; [done|]); intros r Hr; destruct (Hk r Hr); (split; [done|]); by apply IH.
Qed.

Lemma wp_and {A} S (p : proc A) (Q Q' : A → list entry → Prop) h :
  wp S p Q h → wp S p Q' h → wp S p (λ a h, Q a h ∧ Q' a h) h.
Proof.
  revert h. induction p as [a|o k IH|m]; intros h; simpl; [by split| |done].
  intros [Hs Hk] [_ Hk']. split; [done|]. intros r Hr. destruct (Hk r Hr), (Hk' r Hr). split; [done|]. by apply IH.
Qed.

(** The history grows by the trace of the program. *)
Lemma wp_trace {A} S (p : proc A) Q h :
  wp S p Q h → wp S p (λ a h', Q a h' ∧ ∃ t, h' = h ++ t ∧ exec p t (Done a)) h.
Proof.
  revert h. induction p as [a|o k IH|m]; intros h Hp; simpl in *; [| |done].
  - split; [done|]. exists []. rewrite app_nil_r. split; [done|constructor].
  - destruct Hp as [Hc Hk]. split; [done|]. intros r Hr. destruct (Hk r Hr) as [Hs Hw]. split; [done|].
    eapply wp_mono; [|by apply IH]. intros a h' [HQ (t&->&Ht)]. split; [done|].
    exists (answered o r :: t). rewrite <-app_assoc. split; [done|by constructor].
Qed.

(** A call whose own specification is known, from its history on. *)
Lemma wp_call {A B} S (p : proc A) (f : A → proc B) R Q h :
  wp S p R h → (∀ a h, R a h → wp S (f a) Q h) → wp S (p ≫= f) Q h.
Proof. intros Hp Hf. apply wp_bind. eapply wp_mono; [exact Hf|exact Hp]. Qed.

(** ** Loops *)

(** [for x in l { s = f(s, x) }]. *)
Fixpoint for_each {A T} (l : list A) (s : T) (f : T → A → proc T) : proc T :=
  match l with
  | [] => Ret s
  | x :: l => f s x ≫= λ s, for_each l s f
  end.

(** A loop keeps an invariant on the state, the elements still to come and the
    history. *)
Lemma wp_for_each {A T} S (l : list A) (s : T) f (I : T → list A → list entry → Prop) Q h :
  I s l h →
  (∀ s x rest h, I s (x :: rest) h → wp S (f s x) (λ s h, I s rest h) h) →
  (∀ s h, I s [] h → Q s h) →
  wp S (for_each l s f) Q h.
Proof.
  intros HI Hstep Hend. revert s h HI. induction l as [|x l IH]; intros s h HI; simpl; [by apply Hend|].
  eapply wp_call; [by apply Hstep|]. intros s' h' HI'. by apply IH.
Qed.

(** ** Programs restricted to some operations *)

Fixpoint only_ops {A} (ok : op → Prop) (p : proc A) : Prop :=
  match p with
  | Ret _ | Panic _ => True
  | Step o k => ok o ∧ ∀ r, only_ops ok (k r)
  end.

Definition entry_op (e : entry) : op := projT1 e.

Lemma only_ops_bind {A B} ok (p : proc A) (f : A → proc B) :
  only_ops ok p → (∀ a, only_ops ok (f a)) → only_ops ok (p ≫= f).
Proof.
  intros Hp Hf. induction p as [a|o k IH|m]; simpl; [apply Hf| |done].
  destruct Hp as [? Hk]. split; [done|]. intros r. by apply IH.
Qed.

Lemma only_ops_mono {A} (ok ok' : op → Prop) (p : proc A) :
  (∀ o, ok o → ok' o) → only_ops ok p → only_ops ok' p.
Proof. intros Hok. induction p as [a|o k IH|m]; simpl; [done| |done]. intros [? ?]. auto. Qed.

Lemma only_ops_and {A} (ok ok' : op → Prop) (p : proc A) :
  only_ops ok p → only_ops ok' p → only_ops (λ o, ok o ∧ ok' o) p.
Proof. induction p as [a|o k IH|m]; simpl; [done| |done]. intros [? ?] [? ?]. auto. Qed.

Lemma only_ops_exec {A} ok (p : proc A) t out : only_ops ok p → exec p t out → Forall (λ e, ok (entry_op e)) t.
Proof. intros Hp Hex. induction Hex; [constructor..|]. destruct Hp. by constructor; [|auto]. Qed.

Lemma only_ops_any {A} (p : proc A) : only_ops (λ _, True) p.
Proof. induction p; by simpl. Qed.

Lemma only_ops_try {A B E} ok (r : result A E) (k : A → proc (result B E)) :
  (∀ a, only_ops ok (k a)) → only_ops ok (try_ r k).
Proof. intros Hk. by destruct r; simpl. Qed.

Lemma only_ops_for_each {A S} ok (l : list A) (s : S) f :
  (∀ s x, only_ops ok (f s x)) → only_ops ok (for_each l s f).
Proof.
  intros Hf. revert s. induction l as [|x l IH]; intros s; simpl; [done|].
  apply only_ops_bind; [apply Hf|]. intros. apply IH.
Qed.

(** The same without panics. *)
Fixpoint total_ops {A} (ok : op → Prop) (p : proc A) : Prop :=
  match p with
  | Ret _ => True
  | Panic _ => False
  | Step o k => ok o ∧ ∀ r, total_ops ok (k r)
  end.

Lemma total_ops_bind {A B} ok (p : proc A) (f : A → proc B) :
  total_ops ok p → (∀ a, total_ops ok (f a)) → total_ops ok (p ≫= f).
Proof.
  intros Hp Hf. induction p as [a|o k IH|m]; simpl; [apply Hf| |done].
  destruct Hp as [? Hk]. split; [done|]. intros r. by apply IH.
Qed.

Lemma total_ops_try {A B E} ok (r : result A E) (k : A → proc (result B E)) :
  (∀ a, total_ops ok (k a)) → total_ops ok (try_ r k).
Proof. intros Hk. by destruct r; simpl. Qed.

Lemma total_ops_for_each {A S} ok (l : list A) (s : S) f :
  (∀ s x, total_ops ok (f s x)) → total_ops ok (for_each l s f).
Proof.
  intros Hf. revert s. induction l as [|x l IH]; intros s; simpl; [done|].
  apply total_ops_bind; [apply Hf|]. intros. apply IH.
Qed.

Lemma total_ops_mono {A} (ok ok' : op → Prop) (p : proc A) :
  (∀ o, ok o → ok' o) → total_ops ok p → total_ops ok' p.
Proof. intros Hok. induction p as [a|o k IH|m]; simpl; [done| |done]. intros [? ?]. auto. Qed.

Lemma total_only_ops {A} ok (p : proc A) : total_ops ok p → only_ops ok p.
Proof. induction p as [a|o k IH|m]; simpl; [done| |done]. intros [? ?]. auto. Qed.

(** Such a program adds only such operations to the history. *)
Definition extends (ok : op → Prop) (h h' : list entry) : Prop :=
  ∃ t, h' = h ++ t ∧ Forall (λ e, ok (entry_op e)) t.

Lemma extends_refl ok h : extends ok h h.
Proof. exists []. by rewrite app_nil_r. Qed.

Lemma extends_trans ok h1 h2 h3 : extends ok h1 h2 → extends ok h2 h3 → extends ok h1 h3.
Proof.
  intros (t1&->&H1) (t2&->&H2). exists (t1 ++ t2). by rewrite <-app_assoc, Forall_app.
Qed.

Lemma extends_snoc ok h h' (e : entry) :
  extends ok h h' → ok (entry_op e) → extends ok h (h' ++ [e]).
Proof.
  intros He Hok. eapply extends_trans; [exact He|]. exists [e]. by rewrite Forall_singleton.
Qed.

(** What a specification must allow for such a program to meet it. *)
Definition allows (S : spec) (ok : op → Prop) (h : list entry) : Prop :=
  (∀ h' o r, extends ok h h' → ok o → step_ok S h' (answered o r)) ∧
  (∀ h' o, extends ok h h' → ok o → cancel_ok S o h') ∧
  (∀ h' m, extends ok h h' → panic_ok S m h').

Lemma wp_only_ops {A} S ok (p : proc A) h :
  only_ops ok p → allows S ok h → wp S p (λ _ h', extends ok h h') h.
Proof.
  intros Hp (HP&HC&HX).
  assert (Hgen : ∀ h0, extends ok h h0 → wp S p (λ _ h', extends ok h h') h0);
    [|apply Hgen, extends_refl].
  induction p as [a|o k IH|m]; intros h0 Hh; simpl; [done| |by apply HX].
  destruct Hp as [Ho Hk]. split; [intros; by apply HC|]. intros r _. split; [by apply HP|].
  apply IH; [done|]. by apply extends_snoc.
Qed.

Lemma allows_extends S ok h h' : allows S ok h → extends ok h h' → allows S ok h'.
Proof.
  intros (HP&HC&HX) He. split_and!; intros.
  - apply HP; [|done]. by eapply extends_trans.
  - apply HC; [|done]. by eapply extends_trans.
  - apply HX. by eapply extends_trans.
Qed.

(** ** Specifications of the end only *)

Definition end_spec : spec := mkSpecification any_answer (λ _ _, True) (λ _ _, True) (λ _ _, True).

(** The same under an assumption. *)
Definition end_spec_if (l : assumption) : spec := mkSpecification l (λ _ _, True) (λ _ _, True) (λ _ _, True).

Lemma end_spec_weaken {A} l (p : proc A) Q h : wp end_spec p Q h → wp (end_spec_if l) p Q h.
Proof.
  revert h. induction p as [a|o k IH|m]; intros h; simpl; [done| |done].
  intros [_ Hk]. split; [done|]. intros r _. split; [done|]. apply IH. by apply Hk.
Qed.

Lemma end_if_sound {A} l (p : proc A) Q t a :
  wp (end_spec_if l) p Q [] → exec p t (Done a) → legal_trace l [] t → Q a t.
Proof. intros Hp Hex Hl. by destruct (wp_sound (end_spec_if l) p Q [] t (Done a) Hp Hex Hl). Qed.

Lemma end_if_perform {A} l (o : op) (k : Resp o → proc A) Q h :
  (∀ r, l h o r → wp (end_spec_if l) (k r) Q (h ++ [answered o r])) → wp (end_spec_if l) (perform o ≫= k) Q h.
Proof. intros Hk. split; [done|]. intros r Hr. split; [done|]. by apply Hk. Qed.

Lemma end_allows ok h : allows end_spec ok h.
Proof. by repeat split. Qed.

Lemma end_sound {A} (p : proc A) Q t a :
  wp end_spec p Q [] → exec p t (Done a) → Q a t.
Proof.
  intros Hp Hex. by destruct (wp_sound end_spec p Q [] t (Done a) Hp Hex (any_answer_legal _ _)).
Qed.

Lemma end_only_ops {A} ok (p : proc A) h : only_ops ok p → wp end_spec p (λ _ h', extends ok h h') h.
Proof. intros Hp. apply wp_only_ops; [done|apply end_allows]. Qed.

Lemma end_perform {A} (o : op) (k : Resp o → proc A) Q h :
  (∀ r, wp end_spec (k r) Q (h ++ [answered o r])) → wp end_spec (perform o ≫= k) Q h.
Proof. intros Hk. split; [done|]. intros r _. split; [done|]. apply Hk. Qed.

(** ** Traces of programs that ran to their end *)

(** Whatever happened before, [p] adds a trace with [Q] if it ends. *)
Definition ends {A} (p : proc A) (Q : A → list entry → Prop) : Prop :=
  ∀ h, wp end_spec p (λ a h', ∃ t, h' = h ++ t ∧ Q a t) h.

Lemma ends_sound {A} (p : proc A) Q t a : ends p Q → exec p t (Done a) → Q a t.
Proof. intros Hp Hex. by destruct (end_sound p _ t a (Hp []) Hex) as (t'&->&HQ). Qed.

Lemma ends_ret {A} (a : A) (Q : A → list entry → Prop) : Q a [] → ends (Ret a) Q.
Proof. intros HQ h. exists []. by rewrite app_nil_r. Qed.

Lemma ends_mono {A} (p : proc A) (Q Q' : A → list entry → Prop) :
  ends p Q → (∀ a t, Q a t → Q' a t) → ends p Q'.
Proof. intros Hp HQ h. eapply wp_mono; [|apply Hp]. intros a h' (t&->&Ht). eauto. Qed.

Lemma ends_perform {A} (o : op) (k : Resp o → proc A) Q :
  (∀ r, ends (k r) (λ a t, Q a (answered o r :: t))) → ends (perform o ≫= k) Q.
Proof.
  intros Hk h. apply end_perform. intros r. eapply wp_mono; [|apply Hk].
  intros a h' (t&->&Ht). exists (answered o r :: t). by rewrite <-app_assoc.
Qed.

Lemma ends_last (o : op) Q : (∀ r, Q r [answered o r]) → ends (perform o) Q.
Proof. intros HQ h. split; [done|]. intros r _. split; [done|]. exists [answered o r]. by split. Qed.

Lemma ends_bind {A B} (p : proc A) (k : A → proc B) P Q :
  ends p P → (∀ a t, P a t → ends (k a) (λ b t', Q b (t ++ t'))) → ends (p ≫= k) Q.
Proof.
  intros Hp Hk h. eapply wp_call; [apply Hp|]. intros a h' (t&->&Ht).
  eapply wp_mono; [|by apply (Hk a t)]. intros b h' (t'&->&Ht'). exists (t ++ t'). by rewrite app_assoc.
Qed.

Lemma ends_for_each {A T} (l : list A) (s : T) f (I : list A → list entry → Prop) :
  I [] [] → (∀ x before t s, I before t → ends (f s x) (λ _ t', I (before ++ [x]) (t ++ t'))) →
  ends (for_each l s f) (λ _ t, I l t).
Proof.
  intros H0 Hf.
  assert (Hgen : ∀ l before s t0, I before t0 →
    ends (for_each l s f) (λ _ t, I (before ++ l) (t0 ++ t))).
  { clear l s. intros l. induction l as [|x l IH]; intros before s t0 HI; simpl.
    - apply ends_ret. by rewrite !app_nil_r.
    - eapply ends_bind; [by apply Hf|]. intros s' t Ht. eapply ends_mono; [exact (IH _ s' _ Ht)|].
      intros ? t' Ht'. by rewrite <-!app_assoc in Ht'. }
  exact (Hgen l [] s [] H0).
Qed.

Lemma ends_only_ops {A} ok (p : proc A) : only_ops ok p → ends p (λ _ t, Forall (λ e, ok (entry_op e)) t).
Proof. intros Hp h. eapply wp_mono; [|by apply end_only_ops]. by intros a h' (t&->&Ht); exists t. Qed.

End Semantics.

Arguments Done {Sig A} a.
Arguments Cancelled {Sig A} o.
Arguments Panicked {Sig A} message.

(** Proves [only_ops] by following the program. *)
Ltac solve_only_ops :=
  repeat match goal with
  | |- only_ops _ (_ ≫= _) => apply only_ops_bind; [|intros]
  | |- only_ops _ (for_each _ _ _) => apply only_ops_for_each; intros
  | |- only_ops _ (try_ _ _) => apply only_ops_try; intros
  | |- only_ops _ (perform _) => split; [first [done|exact eq_refl]|intros; exact I]
  | |- only_ops _ (match ?x with _ => _ end) => destruct x
  | |- only_ops _ _ => done
  | |- only_ops _ _ => progress simpl
  | |- _ ∧ _ => split
  | |- ∀ _, _ => intros
  | |- _ => first [done|exact eq_refl]
  end.

Ltac solve_total_ops :=
  repeat match goal with
  | H : total_ops _ ?p |- total_ops _ ?p => exact H
  | |- total_ops _ (_ ≫= _) => apply total_ops_bind; [|intros]
  | |- total_ops _ (for_each _ _ _) => apply total_ops_for_each; intros
  | |- total_ops _ (try_ _ _) => apply total_ops_try; intros
  | |- total_ops _ (perform _) => split; [first [done|exact eq_refl]|intros; exact I]
  | |- total_ops _ (match ?x with _ => _ end) => destruct x
  | |- total_ops _ _ => done
  | |- total_ops _ _ => solve [auto with total]
  end.

Create HintDb total discriminated.
