(* ===== verification/Backend.v ===== *)
(** * Backend: the operations of the backend

    The operations that the code of [rust/signal-core/src/backend] performs:
    the methods of [SqliteStore] and of the [SignalProtocol] trait
    ([backend/protocol.rs]) and further [Manager] methods, all implemented by
    the Signal libraries; clocks, files and the transcoder; events emitted on
    the queue ([EventQueue]); and atomic updates of the state shared between
    tasks.  The answers of the libraries are arbitrary values of their types. *)
From S2P Require Import Prelude Event Session GroupState StoreErrors SignalTypes Acknowledgment.
From S2P Require Import Attachment Command ProjectionState Effects.

Section Ops.
Context `{Ids : SignalIds}.

(** ** Values passed between tasks *)

(** A message that was sent, to be recorded as projected. *)
Record SentMessage := mkSentMessage {
  sm_thread : Thread;
  sm_timestamp : N;
}.

Record OutgoingAttachment := mkOutgoing {
  oa_recipient : string;
  oa_filename : string;
  oa_content_type : string;
  oa_data : AttachmentPayload;
  oa_group : bool;
}.

Inductive AttachmentTaskResult :=
| Finished (r : result SentMessage string)
| TaskCancelled.

Record AttachmentCompletion := mkCompletion {
  ac_request_id : N;
  ac_result : AttachmentTaskResult;
  ac_permit : AttachmentPermit;
}.

Record DeliveryReceiptCompletion := mkReceiptCompletion {
  rc_generation : N;
  rc_receipt : PendingDeliveryReceipt;
  rc_result : result unit PresageError;
}.

Record ReceiveStartError := mkStartError {
  rse_message : string;
  rse_transient : bool;
}.

(** [presage::model::messages::Received]. *)
Inductive Received :=
| QueueEmpty
| ReceivedContacts
| ReceivedDecryptionError (sender : ServiceId)
| ReceivedContent (content : Content).

(** [mpsc::Receiver::try_recv]. *)
Inductive TryRecv :=
| TryReceived (command : Command)
| TryEmpty
| TryDisconnected.

(** What drops a future before it is done: the shutdown signal, a timeout in
    seconds, or the abort handle of an attachment control. *)
Inductive Interrupt :=
| ByShutdown
| ByTimeout (seconds : N)
| ByAbort (control : N).

(** The tasks of one connection ([ActiveReceiveTasks]). *)
Inductive Task := TaskReceive | TaskContactSync | TaskAvatarFetch | TaskGroupSync.

(** The branches of the [select!] loops with the value they bind; [None] is a
    closed channel, and an [Err] of a joined task its [JoinError].  The command
    branch is [WakeDeferred] when it pops a deferred command and [WakeCommand]
    when it receives one. *)
Inductive Wake :=
| WakeSleep
| WakeStarted (started : option (result unit ReceiveStartError))
| WakeDeferred
| WakeCommand (command : option Command)
| WakeAcknowledgments
| WakeAcknowledgmentRetry
| WakeAttachment (completed : option (result AttachmentCompletion string))
| WakeReceipt (completed : option (result DeliveryReceiptCompletion string))
| WakeReceived (received : option Received)
| WakeRetryTick
| WakeGroupSync (synchronized : option (result unit string))
| WakeGroupSyncRetry
| WakeShutdown.

(** The branches of the loop of [link_device]. *)
Inductive LinkWake :=
| LinkDone (r : result unit string)
| LinkUrl (url : option string)
| LinkShutdown.

(** ** State *)

(** The state of one account.  [DepartedGroups], [MetadataCache], the
    acknowledgment inbox, the attachment admission table and the ready flag are
    shared between tasks, each behind its own mutex; the rest belongs to the
    [ConnectionSession] of [backend/worker.rs]: pending deliveries, messages to
    replay, the session, commands deferred while recovering, the number of the
    connection, and the control of every attachment task. *)
Record Shared := mkShared {
  sh_departed : GroupLeaveState;
  sh_metadata : MetadataCache;
  sh_inbox : AcknowledgmentState;
  sh_attachments : AttachmentAdmission;
  sh_projection : MessageProjection;
  sh_replay : MessageReplayQueue;
  sh_session : SessionState;
  sh_ready : bool;
  sh_deferred : list Command;
  sh_generation : N;
  sh_aborts : gmap N N;
}.

Definition shared_default : Shared :=
  mkShared leave_state_default metadata_default acknowledgments_new admission_new projection_new replay_default session_default false [] 0 ∅.

Definition on_departed (f : GroupLeaveState → GroupLeaveState) (s : Shared) : Shared :=
  mkShared (f (sh_departed s)) (sh_metadata s) (sh_inbox s) (sh_attachments s) (sh_projection s) (sh_replay s)
    (sh_session s) (sh_ready s) (sh_deferred s) (sh_generation s) (sh_aborts s).

Definition on_metadata (f : MetadataCache → MetadataCache) (s : Shared) : Shared :=
  mkShared (sh_departed s) (f (sh_metadata s)) (sh_inbox s) (sh_attachments s) (sh_projection s) (sh_replay s)
    (sh_session s) (sh_ready s) (sh_deferred s) (sh_generation s) (sh_aborts s).

Definition on_inbox (f : AcknowledgmentState → AcknowledgmentState) (s : Shared) : Shared :=
  mkShared (sh_departed s) (sh_metadata s) (f (sh_inbox s)) (sh_attachments s) (sh_projection s) (sh_replay s)
    (sh_session s) (sh_ready s) (sh_deferred s) (sh_generation s) (sh_aborts s).

Definition on_attachments (f : AttachmentAdmission → AttachmentAdmission) (s : Shared) : Shared :=
  mkShared (sh_departed s) (sh_metadata s) (sh_inbox s) (f (sh_attachments s)) (sh_projection s) (sh_replay s)
    (sh_session s) (sh_ready s) (sh_deferred s) (sh_generation s) (sh_aborts s).

Definition on_projection (f : MessageProjection → MessageProjection) (s : Shared) : Shared :=
  mkShared (sh_departed s) (sh_metadata s) (sh_inbox s) (sh_attachments s) (f (sh_projection s)) (sh_replay s)
    (sh_session s) (sh_ready s) (sh_deferred s) (sh_generation s) (sh_aborts s).

Definition on_replay (f : MessageReplayQueue → MessageReplayQueue) (s : Shared) : Shared :=
  mkShared (sh_departed s) (sh_metadata s) (sh_inbox s) (sh_attachments s) (sh_projection s) (f (sh_replay s))
    (sh_session s) (sh_ready s) (sh_deferred s) (sh_generation s) (sh_aborts s).

Definition on_session (f : SessionState → SessionState) (s : Shared) : Shared :=
  mkShared (sh_departed s) (sh_metadata s) (sh_inbox s) (sh_attachments s) (sh_projection s) (sh_replay s)
    (f (sh_session s)) (sh_ready s) (sh_deferred s) (sh_generation s) (sh_aborts s).

Definition on_ready (f : bool → bool) (s : Shared) : Shared :=
  mkShared (sh_departed s) (sh_metadata s) (sh_inbox s) (sh_attachments s) (sh_projection s) (sh_replay s)
    (sh_session s) (f (sh_ready s)) (sh_deferred s) (sh_generation s) (sh_aborts s).

Definition on_deferred (f : list Command → list Command) (s : Shared) : Shared :=
  mkShared (sh_departed s) (sh_metadata s) (sh_inbox s) (sh_attachments s) (sh_projection s) (sh_replay s)
    (sh_session s) (sh_ready s) (f (sh_deferred s)) (sh_generation s) (sh_aborts s).

Definition on_generation (f : N → N) (s : Shared) : Shared :=
  mkShared (sh_departed s) (sh_metadata s) (sh_inbox s) (sh_attachments s) (sh_projection s) (sh_replay s)
    (sh_session s) (sh_ready s) (sh_deferred s) (f (sh_generation s)) (sh_aborts s).

Definition on_aborts (f : gmap N N → gmap N N) (s : Shared) : Shared :=
  mkShared (sh_departed s) (sh_metadata s) (sh_inbox s) (sh_attachments s) (sh_projection s) (sh_replay s)
    (sh_session s) (sh_ready s) (sh_deferred s) (sh_generation s) (f (sh_aborts s)).

Inductive backend_op :=
(* SqliteStore *)
| OpInitializeMessageProjection (client : string)
| OpInitializeIdentityChangeTracking
| OpInitializeClientOutbox
| OpUnprojectedMessages (client : string)
| OpMarkMessageProjected (client : string) (content : Content)
| OpMessage (thread : Thread) (timestamp : N)
| OpDueClientMessages (now_ms : N)
| OpEnqueueClientMessage (kind : ClientOutboxKind) (recipient body : string) (timestamp : N)
| OpCompleteClientMessage (id : Z)
| OpDeferClientMessage (id : Z) (attempts retry_at_ms : N)
| OpExpediteClientMessages (recipient : string)
| OpIdentityChangeNotices
| OpAcceptIdentityChange (recipient : string)
| OpDismissIdentityChange (recipient : string)
| OpContacts
| OpProfileKey (service_id : ServiceId)
| OpProfileAvatar (uuid : Uuid) (profile_key : list byte)
| OpGroups
| OpGroup (key : list byte)
| OpGroupAvatar (key : list byte)
(* SignalProtocol and Manager *)
| OpSendMessage (recipient : ServiceId) (message : ContentBody) (timestamp : N)
| OpSendMessageToGroup (key : list byte) (message : ContentBody) (timestamp : N)
| OpUploadAttachment (spec : AttachmentSpec) (contents : list byte)
| OpGetAttachment (pointer : AttachmentPointer)
| OpLeaveGroup (key : list byte)
| OpClearSessions (recipient : ServiceId)
| OpRetrieveProfileName
| OpSynchronizeStorageGroups
| OpRequestContacts
| OpRetrieveProfileAvatar (uuid : Uuid) (profile_key : list byte)
| OpRetrieveGroupAvatar (context : GroupContextV2)
| OpSendReceipt (recipient : ServiceId) (message : ContentBody) (timestamp : N)
| OpReceiveMessages
| OpNextReceived
| OpOpenStore (path passphrase : string)
| OpIsRegistered
| OpLoadRegistered
| OpBuildRuntime
(* environment *)
| OpWallClock
| OpNextTimestamp
| OpSleep (milliseconds : N)
| OpYield
| OpReadFile (path : string)
| OpTranscode (video : list byte)
| OpPrepareAvatar (raw : list byte)
| OpEmit (e : Event)
| OpUpdate (f : Shared → Shared)
| OpLockGroups
| OpUnlockGroups
(* tasks and channels *)
| OpSpawn (task : Task)
| OpStart (task : Task)
| OpAbort (task : Task)
| OpJoin (task : Task)
| OpSpawnAttachment (request_id : N) (attachment : OutgoingAttachment) (permit : AttachmentPermit)
| OpAttachmentsRunning
| OpAbortAttachments (requests : list N)
| OpJoinAttachment
| OpDropAttachments
| OpSpawnReceipt (generation : N) (receipt : PendingDeliveryReceipt)
| OpReceiptsRunning
| OpAbortReceipts
| OpJoinReceipt
| OpAwaitStart
| OpSendStarted (started : result unit ReceiveStartError)
| OpForward (received : Received)
| OpSendGroupSync (synchronized : result unit string)
| OpTryRecv
| OpResetGroupSyncTick
(* marks: the worker takes a command out of its queue, to run it or to fail it *)
| OpTake (command : Command)
| OpRefuse (command : Command)
(* select! and interruption *)
| OpSelect (enabled : Wake → bool)
| OpLinkSelect (qr_finished : bool)
| OpShutdownRequested
| OpInterrupted (by_ : Interrupt) (o : backend_op).

(** Answers; [OpUpdate] answers with the state before the update, and a stream
    of records is the list of its items. *)
Definition backend_resp (o : backend_op) : Type :=
  match o with
  | OpInitializeMessageProjection _ | OpInitializeIdentityChangeTracking | OpInitializeClientOutbox
  | OpMarkMessageProjected _ _ | OpCompleteClientMessage _ | OpDeferClientMessage _ _ _
  | OpExpediteClientMessages _ | OpDismissIdentityChange _ => result unit SqliteStoreError
  | OpUnprojectedMessages _ => result (list Content) SqliteStoreError
  | OpMessage _ _ => result (option Content) SqliteStoreError
  | OpDueClientMessages _ => result (list ClientOutboxMessage) SqliteStoreError
  | OpEnqueueClientMessage _ _ _ _ => result Z SqliteStoreError
  | OpIdentityChangeNotices => result (list IdentityChangeNotice) SqliteStoreError
  | OpAcceptIdentityChange _ => result bool SqliteStoreError
  | OpContacts => result (list (result Contact SqliteStoreError)) SqliteStoreError
  | OpProfileKey _ => result (option (list byte)) SqliteStoreError
  | OpProfileAvatar _ _ => result (option (list byte)) SqliteStoreError
  | OpGroups => result (list (result (list byte * Group) SqliteStoreError)) SqliteStoreError
  | OpGroup _ => result (option Group) SqliteStoreError
  | OpGroupAvatar _ => result (option (list byte)) SqliteStoreError
  | OpSendMessage _ _ _ | OpSendMessageToGroup _ _ _ | OpClearSessions _
  | OpSynchronizeStorageGroups | OpRequestContacts | OpOpenStore _ _ | OpLoadRegistered
  | OpBuildRuntime => result unit string
  | OpRetrieveProfileAvatar _ _ | OpRetrieveGroupAvatar _ => result (option (list byte)) string
  | OpSendReceipt _ _ _ | OpReceiveMessages => result unit PresageError
  | OpNextReceived => option Received
  | OpUploadAttachment _ _ => result AttachmentPointer string
  | OpGetAttachment _ => result (list byte) string
  | OpLeaveGroup _ => result LeaveGroupOutcome string
  | OpRetrieveProfileName => option string
  | OpWallClock | OpNextTimestamp | OpAttachmentsRunning | OpReceiptsRunning => N
  | OpReadFile _ => result (list byte) string
  | OpTranscode _ => option (list byte)
  | OpPrepareAvatar _ => list byte * string
  | OpUpdate _ => Shared
  | OpJoinAttachment => option (result AttachmentCompletion string)
  | OpJoinReceipt => option (result DeliveryReceiptCompletion string)
  | OpTryRecv => TryRecv
  | OpSelect _ => Wake
  | OpLinkSelect _ => LinkWake
  | OpIsRegistered | OpAwaitStart | OpSendStarted _ | OpForward _
  | OpShutdownRequested | OpInterrupted _ _ => bool
  | _ => unit
  end.

(** Everything is awaited but clocks, emits, updates, the release of a lock,
    and what only touches handles of tasks and channels. *)
Definition backend_suspends (o : backend_op) : bool :=
  match o with
  | OpWallClock | OpNextTimestamp | OpPrepareAvatar _ | OpEmit _ | OpUpdate _ | OpUnlockGroups
  | OpSpawn _ | OpStart _ | OpAbort _ | OpSpawnAttachment _ _ _ | OpAttachmentsRunning
  | OpAbortAttachments _ | OpDropAttachments | OpSpawnReceipt _ _ | OpReceiptsRunning | OpAbortReceipts
  | OpSendStarted _ | OpTryRecv | OpResetGroupSyncTick | OpTake _ | OpRefuse _ | OpBuildRuntime | OpShutdownRequested | OpInterrupted _ _ => false
  | _ => true
  end.

#[export] Instance backend_sig : EffectSig := {|
  op := backend_op;
  Resp := backend_resp;
  suspends := backend_suspends;
|}.

(** ** Programs over these operations *)

Definition emit (e : Event) : proc unit := perform (OpEmit e).

(** Read or update the shared state, answering with the state before. *)
Definition update (f : Shared → Shared) : proc Shared := perform (OpUpdate f).

(** A method of the pending deliveries, or of the inbox, with its result. *)
Definition with_projection {A} (f : MessageProjection → A * MessageProjection) : proc A :=
  s ← update (on_projection (λ p, (f p).2));
  Ret (f (sh_projection s)).1.

Definition with_inbox {A} (f : AcknowledgmentState → A * AcknowledgmentState) : proc A :=
  s ← update (on_inbox (λ i, (f i).2));
  Ret (f (sh_inbox s)).1.

(** ** Interruption

    [until by_ p] is [p] raced against what [by_] names: at every await the
    race may be lost, and then [p] is dropped there.  [OpInterrupted by_ o] asks
    whether that happens while [p] waits for [o]; as with [Cancelled], [o] may
    still take effect. *)
Fixpoint until {A} (by_ : Interrupt) (p : proc A) : proc (option A) :=
  match p with
  | Ret a => Ret (Some a)
  | Panic m => Panic m
  | Step o k =>
      if suspends o then
        Step (OpInterrupted by_ o : op) (λ dropped : bool,
          if dropped then Ret None else Step o (λ r, until by_ (k r)))
      else Step o (λ r, until by_ (k r))
  end.

(** [await_or_shutdown]. *)
Definition await_or_shutdown {A} (p : proc A) : proc (option A) :=
  shutdown ← perform OpShutdownRequested;
  if (shutdown : bool) then Ret None else until ByShutdown p.

(** [finish_shutdown_cleanup]. *)
Definition finish_shutdown_cleanup (p : proc unit) (seconds : N) : proc bool :=
  r ← until (ByTimeout seconds) p;
  Ret (bool_decide (is_Some r)).

(** [run_after_start_signal]: [OpAwaitStart] is [start.await.is_ok()]. *)
Definition run_after_start_signal (p : proc unit) : proc unit :=
  started ← perform OpAwaitStart;
  if (started : bool) then p else Ret tt.

(** [catch_unwind]: [None] is a caught panic. *)
Fixpoint catch_unwind {A} (p : proc A) : proc (option A) :=
  match p with
  | Ret a => Ret (Some a)
  | Panic _ => Ret None
  | Step o k => Step o (λ r, catch_unwind (k r))
  end.

(** A method of the attachment admission table. *)
Definition with_attachments {A} (f : AttachmentAdmission → A * AttachmentAdmission) : proc A :=
  s ← update (on_attachments (λ a, (f a).2));
  Ret (f (sh_attachments s)).1.

(** *** Reasoning about interrupted programs

    Programs that do not ask for interruptions themselves can be specified
    without them: [live] is the history without these questions, and what was
    asked to hold in case of cancellation holds where the program is dropped. *)

Definition uninterrupted (o : backend_op) : Prop :=
  match o with OpInterrupted _ _ | OpShutdownRequested => False | _ => True end.

#[export] Instance uninterrupted_dec o : Decision (uninterrupted o).
Proof. destruct o; simpl; apply _. Defined.

Definition live (h : list entry) : list entry := filter (λ e : entry, uninterrupted (entry_op e)) h.

Lemma live_app h t : live (h ++ t) = live h ++ live t.
Proof. apply filter_app. Qed.

Lemma live_one (o : backend_op) r : uninterrupted o → live [answered (Sig := backend_sig) o r] = [answered o r].
Proof. intros Ho. unfold live. by rewrite filter_cons_True by done. Qed.

Definition lift_spec (S : spec) : spec := mkSpecification
  (λ h o r, uninterrupted o → legal S (live h) o r)
  (λ h e, uninterrupted (entry_op e) → step_ok S (live h) e)
  (λ o h, uninterrupted o → cancel_ok S o (live h))
  (λ m h, panic_ok S m (live h)).

Lemma wp_lift {A} S (p : proc A) Q h :
  only_ops uninterrupted p → wp S p Q (live h) → wp (lift_spec S) p (λ a h', Q a (live h')) h.
Proof.
  revert h. induction p as [a|o k IH|m]; intros h Hp; simpl; [done| |done].
  destruct Hp as [Ho Hp]. intros [Hc Hk]. split; [auto|]. intros r Hr.
  destruct (Hk r (Hr Ho)) as [Hs Hw]. split; [done|]. apply IH; [apply Hp|].
  by rewrite live_app, live_one.
Qed.

Lemma wp_until {A} S by_ (p : proc A) Q h :
  only_ops uninterrupted p → wp S p Q (live h) →
  wp (lift_spec S) (until by_ p) (λ r h', match r with
    | Some a => Q a (live h')
    | None => ∃ o, suspends o = true ∧ cancel_ok S o (live h')
    end) h.
Proof.
  revert h. induction p as [a|o k IH|m]; intros h Hp; simpl; [done| |done].
  destruct Hp as [Ho Hp]. intros [Hc Hk].
  assert (Hstep : ∀ h', live h' = live h → wp (lift_spec S) (Step (o : op) (λ r, until by_ (k r)))
    (λ r h', match r with Some a => Q a (live h') | None => ∃ o, suspends o = true ∧ cancel_ok S o (live h') end) h').
  { intros h' Hh. split; simpl; [rewrite Hh; auto|]. intros r Hr. rewrite Hh in *.
    destruct (Hk r (Hr Ho)) as [Hs Hw]. split; [done|]. apply IH; [apply Hp|].
    by rewrite live_app, live_one, Hh. }
  destruct (backend_suspends o) eqn:Es; [|by apply Hstep].
  split; [by intros ?|]. intros [] _; (split; [by intros []|]); simpl.
  - exists o. rewrite live_app. simpl. rewrite app_nil_r. auto.
  - apply Hstep. rewrite live_app. simpl. by rewrite app_nil_r.
Qed.

(** An interrupted program performs the operations of the program. *)
Lemma total_ops_until {A} (P : backend_op → Prop) by_ (p : proc A) :
  (∀ o, P o → P (OpInterrupted by_ o)) → total_ops P p → total_ops P (until by_ p).
Proof.
  intros Hi. induction p as [a|o k IH|m]; simpl; [done| |done]. intros [Ho Hk].
  destruct (backend_suspends o); [|split; auto]. split; [by apply Hi|]. intros []; [done|]. split; auto.
Qed.

(** ** What a history shows *)

(** The events emitted, in order. *)
Definition events (h : list entry) : list Event :=
  omap (λ e : entry, match projT1 e with OpEmit ev => Some ev | _ => None end) h.

Lemma events_app h t : events (h ++ t) = events h ++ events t.
Proof. apply omap_app. Qed.

(** Operations that emit nothing. *)
Definition silent (o : backend_op) : Prop := match o with OpEmit _ => False | _ => True end.

Lemma events_emit ev r t : events (answered (Sig := backend_sig) (OpEmit ev) r :: t) = ev :: events t.
Proof. done. Qed.

Lemma events_skip (o : backend_op) r t : silent o → events (answered (Sig := backend_sig) o r :: t) = events t.
Proof. by destruct o. Qed.

(** The shared state was read as [s]. *)
Definition was_read (s : Shared) (h : list entry) : Prop :=
  ∃ f, answered (Sig := backend_sig) (OpUpdate f) s ∈ h.

(** ** A concrete world

    Answers for runs: an empty store, an account without groups, a network
    that takes everything, and the shared state the updates so far made. *)

(** The updates of a history, applied to a state. *)
Definition apply_updates (s : Shared) (h : list entry) : Shared :=
  foldl (λ s e, match projT1 e with OpUpdate f => f s | _ => s end) s h.

Definition shared_after (h : list entry) : Shared := apply_updates shared_default h.

Definition calm_world (h : list entry) (o : backend_op) : backend_resp o :=
  match o return backend_resp o with
  | OpInitializeMessageProjection _ | OpInitializeIdentityChangeTracking | OpInitializeClientOutbox
  | OpMarkMessageProjected _ _ | OpCompleteClientMessage _ | OpDeferClientMessage _ _ _
  | OpExpediteClientMessages _ | OpDismissIdentityChange _ => Ok tt
  | OpUnprojectedMessages _ => Ok []
  | OpMessage _ _ => Ok None
  | OpDueClientMessages _ => Ok []
  | OpEnqueueClientMessage _ _ _ _ => Ok 1%Z
  | OpIdentityChangeNotices => Ok []
  | OpAcceptIdentityChange _ => Ok true
  | OpContacts => Ok []
  | OpProfileKey _ => Ok None
  | OpProfileAvatar _ _ => Ok None
  | OpGroups => Ok []
  | OpGroup _ => Ok None
  | OpGroupAvatar _ => Ok None
  | OpSendMessage _ _ _ | OpSendMessageToGroup _ _ _ | OpClearSessions _
  | OpSynchronizeStorageGroups | OpRequestContacts | OpOpenStore _ _ | OpLoadRegistered
  | OpBuildRuntime => Ok tt
  | OpRetrieveProfileAvatar _ _ | OpRetrieveGroupAvatar _ => Ok None
  | OpSendReceipt _ _ _ | OpReceiveMessages => Ok tt
  | OpNextReceived => None
  | OpUploadAttachment _ _ => Ok attachment_pointer_default
  | OpGetAttachment _ => Ok []
  | OpLeaveGroup _ => Ok (mkLeaveOutcome true true)
  | OpRetrieveProfileName => None
  | OpWallClock => 1000%N
  | OpNextTimestamp => 1000%N
  | OpReadFile _ => Err "no such file"
  | OpTranscode _ => None
  | OpPrepareAvatar raw => (raw, "")
  | OpUpdate _ => shared_after h
  | OpJoinAttachment => None
  | OpJoinReceipt => None
  | OpTryRecv => TryEmpty
  | OpSelect _ => WakeShutdown
  | OpLinkSelect _ => LinkShutdown
  | OpIsRegistered | OpAwaitStart | OpSendStarted _ | OpForward _ => true
  | OpAttachmentsRunning | OpReceiptsRunning => 0%N
  | OpShutdownRequested | OpInterrupted _ _ => false
  | _ => tt
  end.

(** The same with one group in the store. *)
Definition group_world (key : list byte) (g : Group) (h : list entry) (o : backend_op) : backend_resp o :=
  match o return backend_resp o with
  | OpGroups => Ok [Ok (key, g)]
  | OpGroup k => Ok (if decide (k = key) then Some g else None)
  | o => calm_world h o
  end.

End Ops.

(** ** A group for runs *)

Definition sample_key : list byte := replicate 32 Byte.x67.
Definition sample_group : @Group string_ids :=
  mkGroup (Ids := string_ids) "friends" "" 3 [mkMember (Ids := string_ids) "me" false].
Definition sample_world := group_world (Ids := string_ids) sample_key sample_group.
