(* ===== verification/Repository.v ===== *)
(** * Repository: StorageRepository over the encrypted store

    Models [rust/signal-core/src/store/repository.rs]: every method as a
    program over the operations of [SqliteStore], with the contexts it puts on
    errors.  [Storage] has the trait that forwards to these
    methods. *)
From S2P Require Import Prelude StoreErrors SignalTypes Effects Backend.

Definition MESSAGE_PROJECTION_CLIENT : string := "signal-purple-v1".

Section Repository.
Context `{Ids : SignalIds}.

(** [.map_err(|source| StorageError::store(context, source))]. *)
Definition store_context {A} (context : string) (r : result A SqliteStoreError) : result A StorageError :=
  map_err (Store context) r.

(** [stream.collect::<Result<Vec<_>, _>>()]. *)
Fixpoint collect {A E} (l : list (result A E)) : result (list A) E :=
  match l with
  | [] => Ok []
  | Err e :: _ => Err e
  | Ok a :: rest => match collect rest with Ok as_ => Ok (a :: as_) | Err e => Err e end
  end.

Lemma collect_elem {A E} (l : list (result A E)) l' x : collect l = Ok l' → x ∈ l' → Ok x ∈ l.
Proof.
  revert l'. induction l as [|[a|e] l IH]; intros l' Hl Hx; simplify_eq/=; [by apply elem_of_nil in Hx|].
  destruct (collect l) as [l''|] eqn:E'; simplify_eq/=.
  apply elem_of_cons in Hx as [->|Hx]; [by left|right; by eapply IH].
Qed.

Definition initialize_subsystems : proc (result unit StorageError) :=
  r ← perform (OpInitializeMessageProjection MESSAGE_PROJECTION_CLIENT);
  try_ (store_context "Could not initialize durable message replay" r) (λ _,
    r ← perform OpInitializeIdentityChangeTracking;
    try_ (store_context "Could not initialize identity-change tracking" r) (λ _,
      r ← perform OpInitializeClientOutbox;
      try_ (store_context "Could not initialize the encrypted outbox" r) (λ _, Ret (Ok tt)))).

Definition unprojected_messages : proc (result (list Content) SqliteStoreError) :=
  perform (OpUnprojectedMessages MESSAGE_PROJECTION_CLIENT).

Definition mark_message_projected (content : Content) : proc (result unit SqliteStoreError) :=
  perform (OpMarkMessageProjected MESSAGE_PROJECTION_CLIENT content).

Definition sent_message_content (thread : Thread) (timestamp : N)
  : proc (result (option Content) SqliteStoreError) := perform (OpMessage thread timestamp).

Definition repo_mark_sent_message_projected (thread : Thread) (timestamp : N)
  : proc (result unit StorageError) :=
  r ← sent_message_content thread timestamp;
  try_ (store_context "Could not read the sent Signal message" r) (λ content,
    try_ (ok_or content (NotFound "The sent Signal message was not found in the encrypted store"))
      (λ content,
        r ← mark_message_projected content;
        Ret (store_context "Could not record the sent Signal message" r))).

Definition due_outbox_messages (now_ms : N) : proc (result (list ClientOutboxMessage) SqliteStoreError) :=
  perform (OpDueClientMessages now_ms).

Definition enqueue_outbox_message (kind : ClientOutboxKind) (recipient body : string) (timestamp : N)
  : proc (result Z SqliteStoreError) := perform (OpEnqueueClientMessage kind recipient body timestamp).

Definition complete_outbox_message (id : Z) : proc (result unit SqliteStoreError) :=
  perform (OpCompleteClientMessage id).

Definition defer_outbox_message (id : Z) (attempts retry_at_ms : N) : proc (result unit SqliteStoreError) :=
  perform (OpDeferClientMessage id attempts retry_at_ms).

Definition expedite_outbox_messages (recipient : string) : proc (result unit SqliteStoreError) :=
  perform (OpExpediteClientMessages recipient).

Definition identity_change_notices : proc (result (list IdentityChangeNotice) SqliteStoreError) :=
  perform OpIdentityChangeNotices.

Definition accept_identity_change (recipient : string) : proc (result bool SqliteStoreError) :=
  perform (OpAcceptIdentityChange recipient).

Definition dismiss_identity_change (recipient : string) : proc (result unit SqliteStoreError) :=
  perform (OpDismissIdentityChange recipient).

Definition contacts : proc (result (list Contact) StorageError) :=
  r ← perform OpContacts;
  try_ (store_context "Could not read synchronized Signal contacts" r) (λ stream,
    Ret (store_context "Could not decode synchronized Signal contacts" (collect stream))).

Definition contact_profile_key (service_id : ServiceId) : proc (result (option (list byte)) SqliteStoreError) :=
  perform (OpProfileKey service_id).

Definition contact_avatar (uuid : Uuid) (profile_key : list byte)
  : proc (result (option (list byte)) SqliteStoreError) := perform (OpProfileAvatar uuid profile_key).

Definition repo_groups : proc (result (list (list byte * Group)) StorageError) :=
  r ← perform OpGroups;
  try_ (store_context "Could not read synchronized Signal groups" r) (λ stream,
    Ret (store_context "Could not decode synchronized Signal groups" (collect stream))).

Definition repo_group (key : list byte) : proc (result (option Group) SqliteStoreError) :=
  perform (OpGroup key).

Definition group_avatar (key : list byte) : proc (result (option (list byte)) SqliteStoreError) :=
  perform (OpGroupAvatar key).

Definition group_has_local_aci (local_aci : Aci) (group : Group) : bool :=
  existsb (λ member, bool_decide (member_aci member = local_aci)) (gr_members group).

Definition repo_active_group (key : list byte) (local_aci : Aci) : proc (result (option Group) StorageError) :=
  r ← repo_group key;
  Ret (store_context "Could not read Signal group membership"
         (match r with
          | Ok group => Ok (group ≫= λ g, if group_has_local_aci local_aci g then Some g else None)
          | Err e => Err e
          end)).

End Repository.
