(* ===== verification/Groups.v ===== *)
(** * Groups: recipients, group identifiers and active groups

    Models the resolution functions at the end of
    [rust/signal-core/src/backend/coordinator.rs]: a group is addressed by a
    hash of its master key, found through the metadata cache or a scan of the
    store, and active only while the local account is a member and the group
    is not being left. *)
From Stdlib Require Import Strings.Byte.
From S2P Require Import Prelude Event Session GroupState StoreErrors SignalTypes.
From S2P Require Import Effects Backend Repository.

Section Groups.
Context `{Ids : SignalIds} `{Dig : Digests}.

Definition parse_recipient (value : string) : option ServiceId :=
  match parse_from_service_id_string value with
  | Some id => Some id
  | None => ServiceId_Aci <$> (Aci_from_uuid <$> parse_uuid value)
  end.

Definition group_identifier (group_key : list byte) : string :=
  hex_encode (sha256 (bytes_of "signal-purple group identifier" ++ [x00] ++ group_key)).

Definition group_contains_local_aci (group : Group) (local_aci : Aci) : bool :=
  existsb (λ member, bool_decide (member_aci member = local_aci)) (gr_members group).

Inductive ProjectionGroup :=
| ProjectionActive (group : Group)
| ProjectionComplete
| ProjectionRetry.

(** The departure of a group, as the shared state has it now. *)
Definition read_departure (identifier : string) : proc GroupDepartureState :=
  s ← update id;
  Ret (departure_state identifier (sh_departed s)).

(** [match disposition ... AwaitingAck => unreachable!()]. *)
Definition disposition_group (d : ProjectionDisposition) : proc (result ProjectionGroup string) :=
  match d with
  | Retry => Ret (Ok ProjectionRetry)
  | Complete => Ret (Ok ProjectionComplete)
  | AwaitingAck => Panic "unreachable"
  end.

Definition group_for_projection (local_aci : Aci) (key : list byte) : proc (result ProjectionGroup string) :=
  let identifier := group_identifier key in
  departure ← read_departure identifier;
  match departure_projection_disposition departure with
  | Some d => disposition_group d
  | None =>
      r ← repo_group key;
      try_ (map_err (λ e, "Could not read Signal group membership: " +:+ store_text e) r) (λ group,
        departure ← read_departure identifier;
        match departure_projection_disposition departure with
        | Some d => disposition_group d
        | None =>
            match group with
            | Some g => if group_contains_local_aci g local_aci then Ret (Ok (ProjectionActive g))
                        else Ret (Ok ProjectionComplete)
            | None => Ret (Ok ProjectionComplete)
            end
        end)
  end.

Definition active_group_by_key (local_aci : Aci) (key : list byte) : proc (result (option Group) string) :=
  s ← update id;
  if departed_contains (group_identifier key) (sh_departed s) then Ret (Ok None)
  else
    r ← repo_active_group key local_aci;
    Ret (map_err storage_error_text r).

Definition resolve_active_group_in_store (local_aci : Aci) (identifier : string)
  : proc (result (option (list byte * Group)) string) :=
  s ← update id;
  let scan :=
    r ← repo_groups;
    try_ (map_err storage_error_text r) (λ groups,
      let found := List.find (λ kg : list byte * Group,
        bool_decide (group_identifier kg.1 = identifier) && group_contains_local_aci kg.2 local_aci) groups in
      match found with
      | Some kg => _ ← update (on_metadata (index_group identifier kg.1)); Ret (Ok found)
      | None => Ret (Ok found)
      end) in
  match group_key_for_identifier identifier (sh_metadata s) with
  | Some key =>
      r ← repo_active_group key local_aci;
      try_ (map_err storage_error_text r) (λ indexed,
        match indexed with
        | Some group => Ret (Ok (Some (key, group)))
        | None => scan
        end)
  | None => scan
  end.

Definition resolve_active_group (local_aci : Aci) (identifier : string)
  : proc (result (option (list byte * Group)) string) :=
  s ← update id;
  if departed_contains identifier (sh_departed s) then Ret (Ok None)
  else resolve_active_group_in_store local_aci identifier.

Definition resolve_active_group_for_leave (local_aci : Aci) (identifier : string)
  : proc (result (option (list byte * Group)) string) :=
  s ← update id;
  if is_departed identifier (sh_departed s) then Ret (Ok None)
  else resolve_active_group_in_store local_aci identifier.

(** [let _operation = departed_groups.lock_operation().await] for the rest of a
    block: the guard is dropped when the block ends. *)
Definition with_group_lock {A} (p : proc A) : proc A :=
  _ ← perform OpLockGroups;
  a ← p;
  _ ← perform OpUnlockGroups;
  Ret a.

End Groups.
