(* ===== verification/Outbox.v ===== *)
(** * Outbox: messages written down before they are sent

    Models [rust/signal-core/src/backend/outbox.rs] and the projection marker
    of sent messages in [backend/coordinator.rs].  The theorems are about
    every trace of these programs: whatever the store and the network answer,
    and wherever the program is cancelled. *)
From S2P Require Import Prelude Event Session GroupState StoreErrors SignalTypes.
From S2P Require Import Effects Backend Repository Groups.

(** ** Errors of an attempt *)

Record OutboxAttemptError := mkAttemptError {
  ae_message : string;
  ae_retryable : bool;
}.

Definition permanent (message : string) : OutboxAttemptError := mkAttemptError message false.
Definition retryable (message : string) : OutboxAttemptError := mkAttemptError message true.

Definition fatal_text (lower : string) : bool :=
  contains lower "401" || contains lower "403" || contains lower "404"
  || contains lower "unregistered" || contains lower "not registered"
  || contains lower "untrusted identity" || contains lower "untrustedidentity"
  || contains lower "authorization failed" || contains lower "forbidden"
  || contains lower "not found".

Definition classify (message : string) : OutboxAttemptError :=
  if fatal_text (to_ascii_lowercase message) then permanent message else retryable message.

Definition should_retry (e : OutboxAttemptError) : bool := ae_retryable e.

Definition MAX_OUTBOX_ATTEMPTS : N := 5.

Definition retry_delay_ms (attempts : N) : N :=
  let exponent := N.min attempts 9 in
  N.min (saturating_mul u64_max 5000 (N.shiftl 1 exponent)) 3600000.

Definition outbox_message_is_attemptable (kind : ClientOutboxKind) (groups_authoritative : bool) : bool :=
  groups_authoritative || bool_decide (kind = Direct).

Section Outbox.
Context `{Ids : SignalIds} `{Dig : Digests}.

(** ** Marking a sent message as projected *)

Definition MARK_SENT_PROJECTED_RETRY_DELAYS_MS : list N := [50; 200; 500]%N.

(** The loop of [mark_sent_message_projected], over the delays still unused. *)
Fixpoint mark_sent_loop (delays : list N) (sent : SentMessage) : proc (result unit StorageError) :=
  r ← repo_mark_sent_message_projected (sm_thread sent) (sm_timestamp sent);
  match r with
  | Ok _ => Ret (Ok tt)
  | Err e =>
      if storage_is_transient e then
        match delays with
        | [] => Ret (Err e)
        | delay :: delays => _ ← perform (OpSleep delay); mark_sent_loop delays sent
        end
      else Ret (Err e)
  end.

Definition mark_sent_message_projected (sent : SentMessage) : proc (result unit StorageError) :=
  mark_sent_loop MARK_SENT_PROJECTED_RETRY_DELAYS_MS sent.

Definition mark_sent_message_projected_or_report (sent : SentMessage) : proc unit :=
  r ← mark_sent_message_projected sent;
  match r with
  | Ok _ => Ret tt
  | Err e => emit (error (storage_error_text e) false)
  end.

(** ** One attempt *)

Definition text_message (body : string) (timestamp : N) (group : option GroupContextV2) : ContentBody :=
  BodyData (mkDataMessage (Some body) [] group (Some timestamp) false None None [] [] None).

Definition attempt_group_message (local_aci : Aci) (message : ClientOutboxMessage)
  : proc (result SentMessage OutboxAttemptError) :=
  with_group_lock (
    r ← resolve_active_group local_aci (ob_recipient message);
    try_ (map_err classify r) (λ found,
      try_ (ok_or found (permanent "Signal group is unavailable or this account is no longer a member"))
        (λ kg,
          r ← perform (OpSendMessageToGroup kg.1
                (text_message (ob_body message) (ob_timestamp message)
                   (Some (mkGroupContext (Some kg.1) (Some (gr_revision kg.2)))))
                (ob_timestamp message));
          try_ (map_err classify r) (λ _,
            Ret (Ok (mkSentMessage (ThreadGroup kg.1) (ob_timestamp message))))))).

Definition attempt_outbox_message (local_aci : Aci) (message : ClientOutboxMessage)
  : proc (result SentMessage OutboxAttemptError) :=
  match ob_kind message with
  | Direct =>
      try_ (ok_or (parse_recipient (ob_recipient message))
              (permanent "Recipient is not a canonical Signal service identifier")) (λ recipient,
        r ← perform (OpSendMessage recipient
              (text_message (ob_body message) (ob_timestamp message) None) (ob_timestamp message));
        try_ (map_err classify r) (λ _,
          Ret (Ok (mkSentMessage (ThreadContact recipient) (ob_timestamp message)))))
  | Group_ => attempt_group_message local_aci message
  end.

(** Whether a failed attempt is the last one. *)
Definition is_terminal (message : ClientOutboxMessage) (e : OutboxAttemptError) : bool :=
  negb (should_retry e) || (MAX_OUTBOX_ATTEMPTS <=? saturating_add u32_max (ob_attempts message) 1)%N.

Definition finish_outbox_attempt (message : ClientOutboxMessage)
  (res : result SentMessage OutboxAttemptError) : proc (result unit string) :=
  match res with
  | Ok _ =>
      r ← complete_outbox_message (ob_id message);
      Ret (map_err (λ e, "Message sent but its outbox entry could not be cleared: " +:+ store_text e) r)
  | Err e =>
      if is_terminal message e then
        r ← complete_outbox_message (ob_id message);
        Ret (map_err (λ e, "Could not discard a terminal outbox entry: " +:+ store_text e) r)
      else
        let attempts := saturating_add u32_max (ob_attempts message) 1 in
        now ← perform OpWallClock;
        r ← defer_outbox_message (ob_id message) attempts
              (saturating_add u64_max now (retry_delay_ms attempts));
        Ret (map_err (λ e, "Could not schedule message retry: " +:+ store_text e) r)
  end.

(** ** Retries *)

Definition report_attempt (message : ClientOutboxMessage) (e : OutboxAttemptError) : proc unit :=
  let next_attempts := saturating_add u32_max (ob_attempts message) 1 in
  if is_terminal message e then
    emit (error ("Discarded a queued Signal message that can no longer be sent: " +:+ ae_message e) false)
  else if (next_attempts =? 4)%N then
    emit (error ("A Signal message is still queued after " +:+ show_N next_attempts +:+ " attempts: "
                 +:+ ae_message e) false)
  else Ret tt.

(** The body of the loop of [retry_outbox]. *)
Definition retry_one (local_aci : Aci) (groups_authoritative : bool) (message : ClientOutboxMessage)
  : proc unit :=
  if negb (outbox_message_is_attemptable (ob_kind message) groups_authoritative) then Ret tt
  else
    res ← attempt_outbox_message local_aci message;
    _ ← (match res with
         | Ok sent => mark_sent_message_projected_or_report sent
         | Err _ => Ret tt
         end);
    finished ← finish_outbox_attempt message res;
    match finished with
    | Err e => emit (error e false)
    | Ok _ => match res with Err e => report_attempt message e | Ok _ => Ret tt end
    end.

Definition retry_outbox (local_aci : Aci) (groups_authoritative : bool) : proc unit :=
  now ← perform OpWallClock;
  r ← due_outbox_messages now;
  match r with
  | Err e =>
      if sqlite_store_error_is_transient e then Ret tt
      else emit (error ("Could not read the encrypted Signal outbox: " +:+ store_text e) false)
  | Ok messages => for_each messages tt (λ _ message, retry_one local_aci groups_authoritative message)
  end.

(** ** New messages *)

Record NewOutboxMessage := mkNewOutbox {
  no_kind : ClientOutboxKind;
  no_recipient : string;
  no_body : string;
}.

Definition enqueue_and_send (local_aci : Aci) (request : NewOutboxMessage)
  : proc (result unit OutboxAttemptError) :=
  timestamp ← perform OpNextTimestamp;
  r ← enqueue_outbox_message (no_kind request) (no_recipient request) (no_body request) timestamp;
  try_ (map_err (λ e, classify ("Could not save the message in the encrypted outbox: " +:+ store_text e)) r)
    (λ id,
      let message := mkOutbox id (no_kind request) (no_recipient request) (no_body request) timestamp 0 in
      res ← attempt_outbox_message local_aci message;
      _ ← (match res with
           | Ok sent => mark_sent_message_projected_or_report sent
           | Err _ => Ret tt
           end);
      finish_result ← finish_outbox_attempt message res;
      match res with
      | Ok _ => Ret (map_err classify finish_result)
      | Err e => Ret (Err e)
      end).

(** ** Traces: what is an attempt, a group send, an outbox operation *)

(** The operation of an entry is one of the store's outbox operations. *)
Definition is_outbox_op (o : backend_op) : bool :=
  match o with
  | OpEnqueueClientMessage _ _ _ _ | OpCompleteClientMessage _ | OpDeferClientMessage _ _ _ => true
  | _ => false
  end.

Definition is_send_op (o : backend_op) : bool :=
  match o with OpSendMessage _ _ _ | OpSendMessageToGroup _ _ _ => true | _ => false end.

(** A send the network accepted. *)
Definition send_accepted (e : entry) : bool :=
  match e with
  | existT o r =>
      match o return backend_resp o → bool with
      | OpSendMessage _ _ _ => λ r, is_ok r
      | OpSendMessageToGroup _ _ _ => λ r, is_ok r
      | _ => λ _, false
      end r
  end.

(** The row an entry created. *)
Definition row_created (e : entry) : option Z :=
  match e with
  | existT o r =>
      match o return backend_resp o → option Z with
      | OpEnqueueClientMessage _ _ _ _ => λ r, match r with Ok id => Some id | Err _ => None end
      | _ => λ _, None
      end r
  end.

(** Whether the entry asks for row [id] to be removed. *)
Definition removes_row (id : Z) (o : backend_op) : bool :=
  match o with OpCompleteClientMessage id' => bool_decide (id' = id) | _ => false end.

(** A send refused with a text that [classify] takes as permanent. *)
Definition refused_for_good (e : entry) : bool :=
  match e with
  | existT o r =>
      match o return backend_resp o → bool with
      | OpSendMessage _ _ _ | OpSendMessageToGroup _ _ _ =>
          λ r, match r with Ok _ => false | Err text => fatal_text (to_ascii_lowercase text) end
      | _ => λ _, false
      end r
  end.

(** Operations that neither send nor touch the outbox. *)
Definition is_quiet (o : backend_op) : bool := negb (is_outbox_op o) && negb (is_send_op o).

Definition quiet (o : backend_op) : Prop := is_quiet o = true.

(** ** The operations of these programs *)

(** Reads of the groups, their index, and the leave state. *)
Definition group_read_op (o : backend_op) : Prop :=
  match o with
  | OpGroups | OpGroup _ => True
  | OpUpdate f => f = id ∨ ∃ identifier key, f = on_metadata (index_group identifier key)
  | _ => False
  end.

Lemma resolve_in_store_ops local_aci identifier :
  only_ops group_read_op (resolve_active_group_in_store local_aci identifier).
Proof.
  unfold resolve_active_group_in_store, repo_active_group, repo_group, repo_groups, update.
  solve_only_ops; first [by left|right; eauto].
Qed.

Lemma resolve_ops local_aci identifier :
  only_ops group_read_op (resolve_active_group local_aci identifier) ∧
  only_ops group_read_op (resolve_active_group_for_leave local_aci identifier).
Proof.
  unfold resolve_active_group, resolve_active_group_for_leave, update.
  split; (apply only_ops_bind; [split; [by left|done]|]); intros s;
    (case_match; [done|apply resolve_in_store_ops]).
Qed.

(** What sending and retrying may do; events are non-fatal errors. *)
Definition outbox_program_op (o : backend_op) : Prop :=
  match o with
  | OpWallClock | OpNextTimestamp | OpDueClientMessages _ | OpSendMessage _ _ _ | OpSendMessageToGroup _ _ _
  | OpLockGroups | OpUnlockGroups | OpMessage _ _ | OpMarkMessageProjected _ _ | OpSleep _
  | OpEnqueueClientMessage _ _ _ _ | OpCompleteClientMessage _ | OpDeferClientMessage _ _ _ => True
  | OpEmit e => ∃ text, e = error text false
  | o => group_read_op o
  end.

Lemma group_read_outbox_program o : group_read_op o → outbox_program_op o.
Proof. by destruct o. Qed.

(** ** Quiet parts *)

Lemma resolve_active_group_quiet local_aci identifier :
  only_ops quiet (resolve_active_group local_aci identifier).
Proof. eapply only_ops_mono; [|apply resolve_ops]. by intros []. Qed.

(** What marking a sent message does, for any class of operations. *)
Lemma mark_sent_only (ok : backend_op → Prop) sent :
  (∀ thread timestamp, ok (OpMessage thread timestamp)) →
  (∀ content, ok (OpMarkMessageProjected MESSAGE_PROJECTION_CLIENT content)) →
  (∀ delay, ok (OpSleep delay)) → (∀ text, ok (OpEmit (error text false))) →
  only_ops ok (mark_sent_message_projected_or_report sent).
Proof.
  intros Hm Hp Hs He. unfold mark_sent_message_projected_or_report, mark_sent_message_projected.
  apply only_ops_bind; [|intros []; by repeat split].
  generalize MARK_SENT_PROJECTED_RETRY_DELAYS_MS. intros delays.
  induction delays as [|delay delays IH];
    unfold mark_sent_loop, repo_mark_sent_message_projected, sent_message_content, mark_message_projected;
    fold (@mark_sent_loop); solve_only_ops.
Qed.

Lemma emit_error_ops text : only_ops outbox_program_op (emit (error text false)).
Proof. split; [by eexists|done]. Qed.

Lemma attempt_ops local_aci m : only_ops outbox_program_op (attempt_outbox_message local_aci m).
Proof.
  unfold attempt_outbox_message, attempt_group_message, with_group_lock.
  destruct (ob_kind m); [solve_only_ops|]. apply only_ops_bind; [done|]. intros _.
  apply only_ops_bind; [|intros; solve_only_ops].
  apply only_ops_bind; [|intros; solve_only_ops].
  eapply only_ops_mono; [apply group_read_outbox_program|apply resolve_ops].
Qed.

Lemma mark_result_ops (res : result SentMessage OutboxAttemptError) :
  only_ops outbox_program_op
    (match res with Ok sent => mark_sent_message_projected_or_report sent | Err _ => Ret tt end).
Proof. destruct res; [|done]. apply mark_sent_only; [done..|]. by eexists. Qed.

Lemma finish_ops m res : only_ops outbox_program_op (finish_outbox_attempt m res).
Proof. unfold finish_outbox_attempt, complete_outbox_message, defer_outbox_message. solve_only_ops. Qed.

Lemma retry_outbox_ops local_aci auth : only_ops outbox_program_op (retry_outbox local_aci auth).
Proof.
  unfold retry_outbox, due_outbox_messages. apply only_ops_bind; [done|]. intros now.
  apply only_ops_bind; [done|]. intros [messages|e];
    [|destruct (sqlite_store_error_is_transient e); [done|apply emit_error_ops]].
  apply only_ops_for_each. intros _ m. unfold retry_one. destruct (negb _); [done|].
  apply only_ops_bind; [apply attempt_ops|]. intros res.
  apply only_ops_bind; [apply mark_result_ops|]. intros [].
  apply only_ops_bind; [apply finish_ops|]. intros [[]|e]; [|apply emit_error_ops].
  destruct res as [|e]; [done|]. unfold report_attempt. destruct (is_terminal m e); [apply emit_error_ops|].
  destruct (_ =? 4)%N; [apply emit_error_ops|done].
Qed.

Lemma enqueue_ops local_aci request : only_ops outbox_program_op (enqueue_and_send local_aci request).
Proof.
  unfold enqueue_and_send, enqueue_outbox_message. apply only_ops_bind; [done|]. intros ts.
  apply only_ops_bind; [done|]. intros [id|e]; [|done]. simpl try_.
  apply only_ops_bind; [apply attempt_ops|]. intros res.
  apply only_ops_bind; [apply mark_result_ops|]. intros [].
  apply only_ops_bind; [apply finish_ops|]. intros finished. by destruct res.
Qed.

Lemma mark_sent_quiet sent : only_ops quiet (mark_sent_message_projected_or_report sent).
Proof. by apply mark_sent_only. Qed.

(** ** One attempt *)

(** What an attempt added to the history: no outbox operation; a success means
    that the network accepted the message, a failure that it did not, and a
    permanent failure that every send was refused for good. *)
Definition attempt_added (res : result SentMessage OutboxAttemptError) (t : list entry) : Prop :=
  Forall (λ e, is_outbox_op (entry_op e) = false) t ∧
  match res with
  | Ok _ => Exists (λ e, send_accepted e = true) t
  | Err e => Forall (λ x, send_accepted x = false) t ∧
      (should_retry e = false → Forall (λ x, is_send_op (entry_op x) = true → refused_for_good x = true) t)
  end.

Lemma quiet_no_outbox t :
  Forall (λ e, quiet (entry_op e)) t →
  Forall (λ e, is_outbox_op (entry_op e) = false) t ∧ Forall (λ e, is_send_op (entry_op e) = false) t.
Proof.
  intros H. split; (eapply Forall_impl; [exact H|]); intros e He; unfold quiet, is_quiet in He; by bool_prop.
Qed.

Lemma no_send_not_accepted t :
  Forall (λ e, is_send_op (entry_op e) = false) t →
  Forall (λ x, send_accepted x = false) t ∧
  Forall (λ x, is_send_op (entry_op x) = true → refused_for_good x = true) t.
Proof.
  intros H. split; (eapply Forall_impl; [exact H|]); intros [o r] He.
  - by destruct o.
  - intros Hs. unfold entry_op in *. simpl in *. congruence.
Qed.

Lemma quiet_attempt_error e t :
  Forall (λ e, quiet (entry_op e)) t → attempt_added (Err e) t.
Proof.
  intros [Ho Hs]%quiet_no_outbox. apply no_send_not_accepted in Hs as [Ha Hr]. by split.
Qed.

Lemma classify_permanent text : should_retry (classify text) = false → fatal_text (to_ascii_lowercase text) = true.
Proof. unfold classify. by destruct (fatal_text _). Qed.

(** A quiet prefix, a send with its answer, a quiet suffix. *)
Lemma sent_attempt (e : entry) t1 t2 (res : result SentMessage OutboxAttemptError) :
  is_send_op (entry_op e) = true →
  Forall (λ e, quiet (entry_op e)) t1 → Forall (λ e, quiet (entry_op e)) t2 →
  match res with
  | Ok _ => send_accepted e = true
  | Err x => send_accepted e = false ∧ (should_retry x = false → refused_for_good e = true)
  end →
  attempt_added res (t1 ++ e :: t2).
Proof.
  intros He H1 H2 Hres. apply quiet_no_outbox in H1 as [Ho1 Hs1], H2 as [Ho2 Hs2].
  apply no_send_not_accepted in Hs1 as [Ha1 Hr1], Hs2 as [Ha2 Hr2]. split.
  - apply Forall_app. split; [done|]. apply Forall_cons. split; [|done]. destruct e as [o r]. by destruct o.
  - destruct res as [s|x].
    + apply Exists_app. right. by apply Exists_cons_hd.
    + destruct Hres as [? Hg]. split; [|intros Hx]; apply Forall_app; (split; [done|]);
        apply Forall_cons; auto.
Qed.

Definition non_outbox (o : backend_op) : Prop := is_outbox_op o = false.

Lemma extends_weaken (ok ok' : backend_op → Prop) h h' :
  (∀ o, ok o → ok' o) → extends ok h h' → extends ok' h h'.
Proof. intros Hok (t&->&Ht). exists t. split; [done|]. eapply Forall_impl; [exact Ht|]. auto. Qed.

Lemma quiet_not_outbox o : quiet o → non_outbox o.
Proof. by destruct o. Qed.

Lemma allows_weaken (S : spec) (ok ok' : backend_op → Prop) h :
  (∀ o, ok o → ok' o) → allows S ok' h → allows S ok h.
Proof.
  intros Hok (HP&HC&HX). split_and!; intros.
  - apply HP; [by eapply extends_weaken|auto].
  - apply HC; [by eapply extends_weaken|auto].
  - apply HX. by eapply extends_weaken.
Qed.

Lemma send_not_outbox o : is_send_op o = true → non_outbox o.
Proof. by destruct o. Qed.

(** The send of an attempt, between quiet parts. *)
Lemma wp_send (S : spec) (o : backend_op) h0 h (k : Resp o → proc (result SentMessage OutboxAttemptError)) Q :
  allows S non_outbox h0 → extends quiet h0 h → is_send_op o = true →
  (∀ r, wp S (k r) Q (h ++ [answered o r])) →
  wp S (perform o ≫= k) Q h.
Proof.
  intros (HP&HC&_) Hext Ho Hk. assert (Hno := send_not_outbox _ Ho).
  assert (Hext' : extends non_outbox h0 h) by (eapply extends_weaken; [|exact Hext]; apply quiet_not_outbox).
  split; [intros _; by apply HC|]. intros r _. split; [by apply HP|]. apply Hk.
Qed.

Lemma wp_quiet_op {A} (S : spec) (o : backend_op) h0 h (k : Resp o → proc A) Q :
  allows S quiet h0 → extends quiet h0 h → quiet o →
  (∀ r, extends quiet h0 (h ++ [answered o r]) → wp S (k r) Q (h ++ [answered o r])) →
  wp S (perform o ≫= k) Q h.
Proof.
  intros (HP&HC&_) Hext Ho Hk. split; [intros _; by apply HC|].
  intros r _. split; [by apply HP|]. apply Hk. by apply extends_snoc.
Qed.

(** What the history is after an attempt that sent nothing. *)
Lemma quiet_attempt h h' e :
  extends quiet h h' → ∃ t, h' = h ++ t ∧ attempt_added (Err e) t.
Proof. intros (t&->&Ht). exists t. split; [done|]. by apply quiet_attempt_error. Qed.

Lemma attempt_wp (S : spec) local_aci m h :
  allows S non_outbox h →
  wp S (attempt_outbox_message local_aci m) (λ res h', ∃ t, h' = h ++ t ∧ attempt_added res t) h.
Proof.
  intros Hal. assert (Halq := allows_weaken _ _ _ _ quiet_not_outbox Hal).
  unfold attempt_outbox_message. destruct (ob_kind m).
  - destruct (parse_recipient _) as [rc|]; [|apply quiet_attempt, extends_refl].
    eapply wp_send; [done|apply extends_refl|done|]. intros [[]|e]; simpl.
    + eexists [_]. split; [reflexivity|]. by apply (sent_attempt _ [] []).
    + eexists [_]. split; [reflexivity|].
      apply (sent_attempt _ [] []); [done..|]. split; [done|]. apply classify_permanent.
  - unfold attempt_group_message, with_group_lock.
    eapply wp_quiet_op; [done|apply extends_refl|done|]. intros [] H1.
    apply wp_bind, wp_bind. eapply wp_mono; [|apply wp_only_ops; [apply resolve_active_group_quiet|by eapply allows_extends]].
    intros r h2 H2. assert (H12 := extends_trans _ _ _ _ H1 H2). clear H1 H2.
    assert (Hfail : ∀ e, wp S (Ret (Err e)) (λ a h', wp S (_ ← perform OpUnlockGroups; Ret a)
      (λ res h'', ∃ t, h'' = h ++ t ∧ attempt_added res t) h') h2).
    { intros e. simpl. split; [done|]. intros [] _. split; [by apply Halq|]. by apply quiet_attempt, extends_snoc. }
    destruct r as [[kg|]|e]; [|apply Hfail..]. simpl try_.
    eapply wp_send; [done|exact H12|done|]. intros r.
    destruct H12 as (t&->&Ht). destruct Hal as (HP&_&_).
    assert (Hext : extends non_outbox h ((h ++ t) ++ [answered (Sig := backend_sig) _ r])).
    { apply extends_snoc; [|done]. exists t. split; [done|]. eapply Forall_impl; [exact Ht|].
      intros. by apply quiet_not_outbox. }
    destruct r as [[]|e]; simpl; (split; [done|]); intros [] _; (split; [by apply HP|]).
    + eexists (t ++ _ :: [_]). rewrite <-!app_assoc. split; [reflexivity|].
      apply sent_attempt; [done..|by apply Forall_singleton|done].
    + eexists (t ++ _ :: [_]). rewrite <-!app_assoc. split; [reflexivity|].
      apply sent_attempt; [done..|by apply Forall_singleton|]. split; [done|]. apply classify_permanent.
Qed.

(** ** Write-ahead *)

Definition row_in (id : Z) (h : list entry) : Prop := Exists (λ e, row_created e = Some id) h.

(** No send can have reached the recipient. *)
Definition all_refused (h : list entry) : Prop :=
  Forall (λ e, is_send_op (entry_op e) = true → refused_for_good e = true) h.

(** A send needs its row; the removal of a row needs an accepted send, or that
    every send was refused for good. *)
Definition write_ahead (h : list entry) (e : entry) : Prop :=
  (is_send_op (entry_op e) = true → ∃ id, row_in id h) ∧
  (∀ id, removes_row id (entry_op e) = true →
     row_in id h ∧ (Exists (λ x, send_accepted x = true) h ∨ all_refused h)).

Definition write_ahead_spec : spec :=
  mkSpecification any_answer write_ahead (λ _ _, True) (λ _ _, True).

Lemma quiet_write_ahead h o r : is_quiet o = true → write_ahead h (answered o r).
Proof. intros Hq. split; [|intros id]; intros H; exfalso; by destruct o. Qed.

Lemma row_in_app id h t : row_in id h → row_in id (h ++ t).
Proof. intros H. apply Exists_app. by left. Qed.

Lemma row_allows id h : row_in id h → allows write_ahead_spec non_outbox h.
Proof.
  intros Hrow. split_and!; [|done..]. intros h' o r (t&->&_) Ho. split.
  - intros _. exists id. by apply row_in_app.
  - intros id' Hr. exfalso. by destruct o.
Qed.

(** Marking the sent message is quiet whatever the attempt gave. *)
Lemma mark_result_quiet (res : result SentMessage OutboxAttemptError) :
  only_ops quiet (match res with Ok sent => mark_sent_message_projected_or_report sent | Err _ => Ret tt end).
Proof. destruct res; [apply mark_sent_quiet|done]. Qed.

Lemma quiet_all_refused t : Forall (λ e, quiet (entry_op e)) t → all_refused t.
Proof. intros [_ Hs]%quiet_no_outbox. by apply no_send_not_accepted. Qed.

Lemma enqueue_and_send_write_ahead local_aci request :
  wp write_ahead_spec (enqueue_and_send local_aci request) (λ _ _, True) [].
Proof.
  unfold enqueue_and_send. split; [done|]. intros ts _. split; [by apply quiet_write_ahead|].
  simpl app. split; [done|]. intros r _. split.
  { split; [done|]. intros id Hr. done. }
  destruct r as [id|e]; [|done]. simpl try_. set (h := _ ++ _).
  assert (Hrow : row_in id h) by (apply Exists_app; right; by apply Exists_cons_hd).
  assert (Hnone : all_refused h) by (unfold h; by repeat constructor).
  cbv zeta.
  eapply wp_call; [apply attempt_wp; by eapply row_allows|]. intros res h1 (t&->&_&Ht).
  eapply wp_call; [apply wp_only_ops; [apply mark_result_quiet|]|].
  { eapply allows_weaken; [apply quiet_not_outbox|]. apply (row_allows id). by apply row_in_app. }
  intros [] h2 (t2&->&Ht2).
  assert (Hrow2 : row_in id ((h ++ t) ++ t2)) by (by do 2 apply row_in_app).
  eapply wp_call with (R := λ _ _, True); [|intros; by destruct res].
  unfold finish_outbox_attempt, complete_outbox_message, defer_outbox_message. destruct res as [sent|e].
  - split; [done|]. intros r _. split; [|done]. split; [done|]. intros id' Hid. apply bool_decide_eq_true in Hid as <-.
    split; [done|]. left. apply Exists_app. left. apply Exists_app. by right.
  - destruct Ht as [_ Hgood]. destruct (is_terminal _ e) eqn:Et.
    + split; [done|]. intros r _. split; [|done]. split; [done|]. intros id' Hid. apply bool_decide_eq_true in Hid as <-.
      split; [done|]. right. unfold all_refused. rewrite !Forall_app. split_and!; [done| |by apply quiet_all_refused].
      apply Hgood. unfold is_terminal in Et. apply orb_true_iff in Et as [Et|Et]; [by bool_prop|done].
    + split; [done|]. intros now _. split; [by apply quiet_write_ahead|]. split; [done|]. intros r _. split; [|done].
      split; [done|]. intros id' Hid. done.
Qed.


(** ** Retrying a queued message *)

(** An error event for the user. *)
Definition reports_error (e : entry) : bool :=
  match entry_op e with OpEmit ev => (ev_kind ev =? EVENT_ERROR)%N | _ => false end.

Definition is_removal (o : backend_op) : bool :=
  match o with OpCompleteClientMessage _ => true | _ => false end.

(** A message is not lost silently: it was accepted by the network, or its row
    was not removed, or the user was told. *)
Definition not_silently_lost (h : list entry) : Prop :=
  Exists (λ e, send_accepted e = true) h ∨ Forall (λ e, is_removal (entry_op e) = false) h ∨
  Exists (λ e, reports_error e = true) h.

(** A deferred row gets the next attempt number, below the limit, and waits
    5 seconds doubled per attempt; a removed row is the message's, settled by
    an accepted send, a permanent refusal, or the fifth attempt. *)
Definition retry_step (m : ClientOutboxMessage) (h : list entry) (e : entry) : Prop :=
  match entry_op e with
  | OpDeferClientMessage id n at_ =>
      id = ob_id m ∧ n = (ob_attempts m + 1)%N ∧ (n < MAX_OUTBOX_ATTEMPTS)%N ∧
      ∃ now, answered (Sig := backend_sig) OpWallClock now ∈ h ∧
             at_ = saturating_add u64_max now (5000 * 2 ^ n)
  | OpCompleteClientMessage id =>
      id = ob_id m ∧
      (Exists (λ x, send_accepted x = true) h ∨ all_refused h ∨ (MAX_OUTBOX_ATTEMPTS <= ob_attempts m + 1)%N)
  | OpEnqueueClientMessage _ _ _ _ => False
  | _ => True
  end.

Definition retry_spec (m : ClientOutboxMessage) : spec :=
  mkSpecification any_answer (retry_step m)
    (λ o h, not_silently_lost h ∨ o = OpCompleteClientMessage (ob_id m))
    (λ _ h, not_silently_lost h).

Lemma retry_delay_exact n : (n < MAX_OUTBOX_ATTEMPTS)%N → retry_delay_ms n = (5000 * 2 ^ n)%N.
Proof.
  intros Hn. assert (n = 0 ∨ n = 1 ∨ n = 2 ∨ n = 3 ∨ n = 4)%N as Hc
    by (unfold MAX_OUTBOX_ATTEMPTS in Hn; lia).
  by destruct Hc as [->|[->|[->|[->| ->]]]].
Qed.

Lemma no_removal_not_lost h : Forall (λ e, is_removal (entry_op e) = false) h → not_silently_lost h.
Proof. intros. right. by left. Qed.

Lemma not_outbox_no_removal t :
  Forall (λ e, is_outbox_op (entry_op e) = false) t → Forall (λ e, is_removal (entry_op e) = false) t.
Proof.
  intros H. eapply Forall_impl; [exact H|]. intros [o r]. unfold entry_op. simpl. by destruct o.
Qed.

Lemma retry_allows m : allows (retry_spec m) non_outbox [].
Proof.
  assert (H : ∀ h', extends non_outbox [] h' → not_silently_lost h').
  { intros h' (t&->&Ht). apply no_removal_not_lost, not_outbox_no_removal. simpl.
    exact Ht. }
  split_and!; simpl; [|by auto..]. intros h' o r _ Ho. unfold retry_step. by destruct o.
Qed.

(** The end of [retry_one], after the attempt and the projection marker. *)
Lemma finish_retry m res h :
  Forall (λ e, is_removal (entry_op e) = false) h →
  match res with
  | Ok _ => Exists (λ e, send_accepted e = true) h
  | Err e => should_retry e = false → all_refused h
  end →
  wp (retry_spec m)
    (finished ← finish_outbox_attempt m res;
     match finished with
     | Err e => emit (error e false)
     | Ok _ => match res with Err e => report_attempt m e | Ok _ => Ret tt end
     end) (λ _ h', not_silently_lost h') h.
Proof.
  intros Hrow Hres. apply wp_bind. unfold finish_outbox_attempt, complete_outbox_message, defer_outbox_message.
  assert (Herr : ∀ e h', wp (retry_spec m) (emit (error e false)) (λ _ h'', not_silently_lost h'') h').
  { intros e h'. split; [done|]. intros [] _. split; [done|]. right. right. apply Exists_app. right.
    by apply Exists_cons_hd. }
  destruct res as [sent|e].
  - split; [intros _; by right|]. intros r _. split; [by split; [|left]|].
    assert (Hacc : not_silently_lost (h ++ [answered (Sig := backend_sig) (OpCompleteClientMessage (ob_id m)) r]))
      by (left; apply Exists_app; by left).
    destruct r; simpl; [done|apply Herr].
  - destruct (is_terminal m e) eqn:Et.
    + split; [intros _; by right|]. intros r _. split.
      * split; [done|]. right. unfold is_terminal in Et. apply orb_true_iff in Et as [Et|Et]; bool_prop; [by left; auto|].
        right. unfold saturating_add in Et. lia.
      * destruct r as [[]|x]; simpl; [|apply Herr]. unfold report_attempt. rewrite Et. apply Herr.
    + assert (Hlt : (saturating_add u32_max (ob_attempts m) 1 < MAX_OUTBOX_ATTEMPTS)%N)
        by (unfold is_terminal in Et; bool_prop; lia).
      assert (Hn : saturating_add u32_max (ob_attempts m) 1 = (ob_attempts m + 1)%N).
      { unfold saturating_add, MAX_OUTBOX_ATTEMPTS, u32_max in *. lia. }
      split; [done|]. intros now _. split; [done|].
      assert (Hrow' : Forall (λ e, is_removal (entry_op e) = false) (h ++ [answered (Sig := backend_sig) OpWallClock now]))
        by (apply Forall_app; split; [done|by apply Forall_singleton]).
      split; [intros _; left; by apply no_removal_not_lost|]. intros r _. split.
      * simpl. rewrite Hn in *. split_and!; try done. exists now. split; [apply elem_of_app; right; by left|].
        by rewrite retry_delay_exact.
      * assert (Hkeep : not_silently_lost ((h ++ [answered (Sig := backend_sig) OpWallClock now]) ++
          [answered (Sig := backend_sig) (OpDeferClientMessage _ _ _) r]))
          by (apply no_removal_not_lost, Forall_app; split; [exact Hrow'|by apply Forall_singleton]).
        destruct r as [[]|x]; simpl; [|apply Herr]. unfold report_attempt. rewrite Et.
        destruct (_ =? 4)%N; [apply Herr|exact Hkeep].
Qed.

Lemma retry_one_wp local_aci auth m :
  wp (retry_spec m) (retry_one local_aci auth m) (λ _ h, not_silently_lost h) [].
Proof.
  unfold retry_one. destruct (negb _); [apply no_removal_not_lost; constructor|].
  eapply wp_call; [apply attempt_wp, retry_allows|]. intros res h (t&->&Hno&Ht). simpl app.
  assert (Hext : extends non_outbox [] t).
  { exists t. by split. }
  eapply wp_call; [apply wp_only_ops; [apply mark_result_quiet|]|].
  { eapply allows_weaken; [apply quiet_not_outbox|]. eapply allows_extends; [apply retry_allows|done]. }
  intros [] h (t2&->&Ht2). apply finish_retry.
  - apply Forall_app. split; [by apply not_outbox_no_removal|].
    by apply not_outbox_no_removal, quiet_no_outbox.
  - destruct res as [sent|e]; [apply Exists_app; by left|]. intros Hr. apply Forall_app.
    split; [by apply Ht|by apply quiet_all_refused].
Qed.

End Outbox.

(** ** Runs *)


