(* ===== verification/Storage.v ===== *)
(** * Storage: the storage interface and its in-memory implementation

    Models [rust/signal-core/src/store/traits.rs]: the trait [StorageOps], its
    implementation by [StorageRepository] ([Repository]), and the in-memory
    [FakeStorageRepository], whose methods say what a row of the outbox goes
    through.  [Durability] uses the in-memory store as the reference for the
    encrypted one: there the operations of the SQLite store answer as these
    methods do, or fail.  A [HashMap] whose keys have no order is an
    association list; no statement depends on its order. *)
From S2P Require Import Prelude Event Session GroupState StoreErrors SignalTypes.
From S2P Require Import Effects Backend Repository Groups Outbox.

(** ** Association lists *)

Section Assoc.
Context {K V : Type} `{EqDecision K}.

Fixpoint assoc_get (k : K) (l : list (K * V)) : option V :=
  match l with
  | [] => None
  | (k', v) :: l => if decide (k' = k) then Some v else assoc_get k l
  end.

Fixpoint assoc_insert (k : K) (v : V) (l : list (K * V)) : list (K * V) :=
  match l with
  | [] => [(k, v)]
  | (k', v') :: l => if decide (k' = k) then (k, v) :: l else (k', v') :: assoc_insert k v l
  end.

Lemma assoc_get_insert k k' v l :
  assoc_get k (assoc_insert k' v l) = if decide (k' = k) then Some v else assoc_get k l.
Proof.
  induction l as [|[k0 v0] l IH]; simpl; [done|]. destruct (decide (k0 = k')) as [->|Hne]; simpl.
  - by repeat case_decide.
  - rewrite IH. repeat case_decide; congruence.
Qed.

Lemma assoc_keys_insert k v l : (assoc_insert k v l).*1 ⊆ k :: l.*1 ∧ (NoDup l.*1 → NoDup (assoc_insert k v l).*1).
Proof.
  induction l as [|[k0 v0] l [IH1 IH2]]; simpl; [split; [set_solver|intros _; apply NoDup_singleton]|].
  case_decide; simplify_eq/=; (split; [set_solver|]); rewrite !NoDup_cons; [done|].
  intros [? ?]. split; [set_solver|auto].
Qed.

End Assoc.

Section Storage.
Context `{Ids : SignalIds}.

#[export] Instance Thread_eq_dec : EqDecision Thread.
Proof. solve_decision. Defined.

(** ** The trait *)

Class StorageOps (M : Type → Type) := {
  st_due_outbox_messages : N → M (result (list ClientOutboxMessage) SqliteStoreError);
  st_enqueue_outbox_message : ClientOutboxKind → string → string → N → M (result Z SqliteStoreError);
  st_complete_outbox_message : Z → M (result unit SqliteStoreError);
  st_defer_outbox_message : Z → N → N → M (result unit SqliteStoreError);
  st_expedite_outbox_messages : string → M (result unit SqliteStoreError);
  st_unprojected_messages : M (result (list Content) SqliteStoreError);
  st_mark_message_projected : Content → M (result unit SqliteStoreError);
  st_sent_message_content : Thread → N → M (result (option Content) SqliteStoreError);
  st_mark_sent_message_projected : Thread → N → M (result unit StorageError);
  st_accept_identity_change : string → M (result bool SqliteStoreError);
  st_dismiss_identity_change : string → M (result unit SqliteStoreError);
  st_groups : M (result (list (list byte * Group)) StorageError);
  st_group : list byte → M (result (option Group) SqliteStoreError);
  st_active_group : list byte → Aci → M (result (option Group) StorageError);
}.

(** [impl StorageOps for StorageRepository]. *)
#[export] Instance repository_storage : StorageOps proc := {|
  st_due_outbox_messages := due_outbox_messages;
  st_enqueue_outbox_message := enqueue_outbox_message;
  st_complete_outbox_message := complete_outbox_message;
  st_defer_outbox_message := defer_outbox_message;
  st_expedite_outbox_messages := expedite_outbox_messages;
  st_unprojected_messages := unprojected_messages;
  st_mark_message_projected := mark_message_projected;
  st_sent_message_content := sent_message_content;
  st_mark_sent_message_projected := repo_mark_sent_message_projected;
  st_accept_identity_change := accept_identity_change;
  st_dismiss_identity_change := dismiss_identity_change;
  st_groups := repo_groups;
  st_group := repo_group;
  st_active_group := repo_active_group;
|}.

(** ** The in-memory store *)

Inductive StorageErrorKind := KindTransient | KindNotFound.

Record FakeState := mkFake {
  next_id : Z;
  outbox : list ClientOutboxMessage;
  due_at : gmap Z N;
  fake_sent : list ((Thread * N) * Content);
  fake_projected : list (Thread * N);
  fake_groups : list (list byte * Group);
  projection_failure : option (StorageErrorKind * N);
}.

(** [FakeState::default()]. *)
Definition fake_new : FakeState := mkFake 0 [] ∅ [] [] [] None.

(** A method under the mutex of the state. *)
Definition fake (A : Type) : Type := FakeState → A * FakeState.

#[export] Instance fake_ret : MRet fake := λ A a st, (a, st).
#[export] Instance fake_bind : MBind fake := λ A B f m st, let r := m st in f r.1 r.2.

Definition set_outbox (l : list ClientOutboxMessage) (st : FakeState) : FakeState :=
  mkFake (next_id st) l (due_at st) (fake_sent st) (fake_projected st) (fake_groups st) (projection_failure st).

Definition set_due (due : gmap Z N) (st : FakeState) : FakeState :=
  mkFake (next_id st) (outbox st) due (fake_sent st) (fake_projected st) (fake_groups st) (projection_failure st).

Definition set_failure (failure : option (StorageErrorKind * N)) (st : FakeState) : FakeState :=
  mkFake (next_id st) (outbox st) (due_at st) (fake_sent st) (fake_projected st) (fake_groups st) failure.

(** *** Set-up and inspection *)

Definition fake_add_group (key : list byte) (group : Group) (st : FakeState) : FakeState :=
  mkFake (next_id st) (outbox st) (due_at st) (fake_sent st) (fake_projected st)
    (assoc_insert key group (fake_groups st)) (projection_failure st).

Definition stage_sent_message (thread : Thread) (timestamp : N) (content : Content) (st : FakeState) : FakeState :=
  mkFake (next_id st) (outbox st) (due_at st) (assoc_insert (thread, timestamp) content (fake_sent st))
    (fake_projected st) (fake_groups st) (projection_failure st).

Definition is_projected (thread : Thread) (timestamp : N) (st : FakeState) : bool :=
  bool_decide ((thread, timestamp) ∈ fake_projected st).

Definition fail_next_projection_attempts (kind : StorageErrorKind) (attempts : N) (st : FakeState) : FakeState :=
  set_failure (Some (kind, attempts)) st.

(** *** The outbox *)

(** [state.due_at.get(&message.id).is_none_or(|due| *due <= now_ms)]. *)
Definition is_due (now_ms : N) (st : FakeState) (message : ClientOutboxMessage) : bool :=
  match due_at st !! ob_id message with
  | None => true
  | Some due => (due <=? now_ms)%N
  end.

Definition fake_due_outbox_messages (now_ms : N) : fake (result (list ClientOutboxMessage) SqliteStoreError) := λ st,
  (Ok (List.filter (is_due now_ms st) (outbox st)), st).

Definition fake_enqueue_outbox_message (kind : ClientOutboxKind) (recipient body : string) (timestamp : N)
  : fake (result Z SqliteStoreError) := λ st,
  let id := (next_id st + 1)%Z in
  (Ok id, mkFake id (outbox st ++ [mkOutbox id kind recipient body timestamp 0]) (due_at st)
            (fake_sent st) (fake_projected st) (fake_groups st) (projection_failure st)).

Definition fake_complete_outbox_message (id : Z) : fake (result unit SqliteStoreError) := λ st,
  (Ok tt, set_due (delete id (due_at st))
            (set_outbox (List.filter (λ message, negb (ob_id message =? id)%Z) (outbox st)) st)).

Definition set_attempts (attempts : N) (m : ClientOutboxMessage) : ClientOutboxMessage :=
  mkOutbox (ob_id m) (ob_kind m) (ob_recipient m) (ob_body m) (ob_timestamp m) attempts.

(** [if let Some(message) = outbox.iter_mut().find(..) { message.attempts = attempts }]. *)
Fixpoint update_attempts (id : Z) (attempts : N) (l : list ClientOutboxMessage) : list ClientOutboxMessage :=
  match l with
  | [] => []
  | m :: l => if (ob_id m =? id)%Z then set_attempts attempts m :: l else m :: update_attempts id attempts l
  end.

Definition fake_defer_outbox_message (id : Z) (attempts retry_at_ms : N) : fake (result unit SqliteStoreError) := λ st,
  (Ok tt, set_due (<[id := retry_at_ms]> (due_at st)) (set_outbox (update_attempts id attempts (outbox st)) st)).

Definition fake_expedite_outbox_messages (recipient : string) : fake (result unit SqliteStoreError) := λ st,
  let ids := map ob_id (List.filter (λ message, bool_decide (ob_recipient message = recipient)) (outbox st)) in
  (Ok tt, set_due (foldl (λ due id, <[id := 0%N]> due) (due_at st) ids) st).

(** *** The projection ledger *)

Definition fake_unprojected_messages : fake (result (list Content) SqliteStoreError) := λ st,
  (Ok (map snd (List.filter (λ kc, negb (bool_decide (kc.1 ∈ fake_projected st))) (fake_sent st))), st).

Definition fake_mark_message_projected (_ : Content) : fake (result unit SqliteStoreError) := λ st, (Ok tt, st).

Definition fake_sent_message_content (thread : Thread) (timestamp : N)
  : fake (result (option Content) SqliteStoreError) := λ st,
  (Ok (assoc_get (thread, timestamp) (fake_sent st)), st).

(** The text of sqlx's [PoolTimedOut] in a [SqliteStoreError]. *)
Context (pool_timed_out : string).

Definition fake_failure (kind : StorageErrorKind) : StorageError :=
  match kind with
  | KindTransient => Store "fake transient failure" (mkStoreError (StoreDb PoolTimedOut) pool_timed_out)
  | KindNotFound => NotFound "fake row not yet visible"
  end.

Definition fake_mark_sent_message_projected (thread : Thread) (timestamp : N)
  : fake (result unit StorageError) := λ st,
  let record st :=
    mkFake (next_id st) (outbox st) (due_at st) (fake_sent st)
      (if decide ((thread, timestamp) ∈ fake_projected st) then fake_projected st
       else (thread, timestamp) :: fake_projected st)
      (fake_groups st) (projection_failure st) in
  match projection_failure st with
  | Some (kind, remaining) =>
      if (0 <? remaining)%N then (Err (fake_failure kind), set_failure (Some (kind, remaining - 1)%N) st)
      else (Ok tt, record (set_failure None st))
  | None => (Ok tt, record st)
  end.

(** *** Identities and groups *)

Definition fake_accept_identity_change (_ : string) : fake (result bool SqliteStoreError) := λ st, (Ok true, st).
Definition fake_dismiss_identity_change (_ : string) : fake (result unit SqliteStoreError) := λ st, (Ok tt, st).

(** [clone_group] on the fields of a group that the crate reads. *)
Definition clone_group (group : Group) : Group :=
  mkGroup (gr_title group) (gr_avatar group) (gr_revision group) (gr_members group).

Definition fake_groups_read : fake (result (list (list byte * Group)) StorageError) := λ st,
  (Ok (map (λ kg, (kg.1, clone_group kg.2)) (fake_groups st)), st).

Definition fake_group (key : list byte) : fake (result (option Group) SqliteStoreError) := λ st,
  (Ok (clone_group <$> assoc_get key (fake_groups st)), st).

Definition fake_active_group (key : list byte) (local_aci : Aci) : fake (result (option Group) StorageError) := λ st,
  (Ok (clone_group <$>
         (assoc_get key (fake_groups st) ≫= λ group,
            if existsb (λ member, bool_decide (member_aci member = local_aci)) (gr_members group)
            then Some group else None)), st).

(** [impl StorageOps for FakeStorageRepository]. *)
Definition fake_storage : StorageOps fake := {|
  st_due_outbox_messages := fake_due_outbox_messages;
  st_enqueue_outbox_message := fake_enqueue_outbox_message;
  st_complete_outbox_message := fake_complete_outbox_message;
  st_defer_outbox_message := fake_defer_outbox_message;
  st_expedite_outbox_messages := fake_expedite_outbox_messages;
  st_unprojected_messages := fake_unprojected_messages;
  st_mark_message_projected := fake_mark_message_projected;
  st_sent_message_content := fake_sent_message_content;
  st_mark_sent_message_projected := fake_mark_sent_message_projected;
  st_accept_identity_change := fake_accept_identity_change;
  st_dismiss_identity_change := fake_dismiss_identity_change;
  st_groups := fake_groups_read;
  st_group := fake_group;
  st_active_group := fake_active_group;
|}.

(** *** Calls

    Every call of the store, with the state it leaves. *)
Inductive fake_call : FakeState → FakeState → Prop :=
| call_add_group key group st : fake_call st (fake_add_group key group st)
| call_stage thread timestamp content st : fake_call st (stage_sent_message thread timestamp content st)
| call_fail kind attempts st : fake_call st (fail_next_projection_attempts kind attempts st)
| call_due now_ms st : fake_call st (fake_due_outbox_messages now_ms st).2
| call_enqueue kind recipient body timestamp st :
    fake_call st (fake_enqueue_outbox_message kind recipient body timestamp st).2
| call_complete id st : fake_call st (fake_complete_outbox_message id st).2
| call_defer id attempts retry_at_ms st : fake_call st (fake_defer_outbox_message id attempts retry_at_ms st).2
| call_expedite recipient st : fake_call st (fake_expedite_outbox_messages recipient st).2
| call_mark_sent thread timestamp st : fake_call st (fake_mark_sent_message_projected thread timestamp st).2.

(** ** Well-formed states *)

(** Rows have different ids, none above the last one given; the maps and the
    set have no duplicates. *)
Record fake_ok (st : FakeState) : Prop := {
  ok_next : (0 <= next_id st)%Z;
  ok_ids : NoDup (map ob_id (outbox st));
  ok_range : ∀ m, m ∈ outbox st → (0 < ob_id m <= next_id st)%Z;
  ok_sent : NoDup (fake_sent st).*1;
  ok_projected : NoDup (fake_projected st);
  ok_groups : NoDup (fake_groups st).*1;
}.

Lemma fake_new_ok : fake_ok fake_new.
Proof. split; simpl; [done|constructor|set_solver|constructor..]. Qed.

(** *** Rows *)

(** The same row: its content never changes, its attempts do. *)
Definition same_row (m m' : ClientOutboxMessage) : Prop := set_attempts 0 m = set_attempts 0 m'.

#[export] Instance same_row_equivalence : Equivalence same_row.
Proof. split; unfold same_row; repeat intro; congruence. Qed.

#[export] Instance same_row_id : Proper (same_row ==> eq) ob_id.
Proof. intros m m' H. exact (f_equal ob_id H). Qed.

Lemma same_row_attempts n m : same_row (set_attempts n m) m.
Proof. done. Qed.

Lemma in_enqueued m kind recipient body timestamp st :
  m ∈ outbox (fake_enqueue_outbox_message kind recipient body timestamp st).2 ↔
  m ∈ outbox st ∨ m = mkOutbox (next_id st + 1) kind recipient body timestamp 0.
Proof. simpl. by rewrite elem_of_app, list_elem_of_singleton. Qed.

Lemma in_completed m id st :
  m ∈ outbox (fake_complete_outbox_message id st).2 ↔ m ∈ outbox st ∧ ob_id m ≠ id.
Proof.
  simpl. rewrite !list_elem_of_In, filter_In, negb_true_iff, Z.eqb_neq. done.
Qed.

Lemma update_attempts_ids id n l : map ob_id (update_attempts id n l) = map ob_id l.
Proof. induction l as [|m l IH]; simpl; [done|]. destruct (_ =? _)%Z; simpl; congruence. Qed.

Lemma in_updated m id n l :
  NoDup (map ob_id l) →
  m ∈ update_attempts id n l ↔ (m ∈ l ∧ ob_id m ≠ id) ∨ (∃ m0, m0 ∈ l ∧ ob_id m0 = id ∧ m = set_attempts n m0).
Proof.
  induction l as [|x l IH]; simpl; [set_solver|]. rewrite NoDup_cons. intros [Hx Hl].
  destruct (Z.eqb_spec (ob_id x) id) as [<-|Hne]; rewrite !elem_of_cons.
  - assert (Hnot : ∀ y, y ∈ l → ob_id y ≠ ob_id x).
    { intros y Hy Heq. apply Hx. rewrite <-Heq. by apply list_elem_of_fmap_2. }
    split.
    + intros [->|Hm]; [right; exists x; set_solver|left; split; [by right|by apply Hnot]].
    + intros [[[->|Hm] Hid]|(m0&[->|Hm0]%elem_of_cons&Hid&->)]; [done|by right|by left|by apply Hnot in Hm0].
  - rewrite (IH Hl). set_solver.
Qed.

Lemma in_deferred m id n at_ st :
  fake_ok st → m ∈ outbox (fake_defer_outbox_message id n at_ st).2 ↔
    (m ∈ outbox st ∧ ob_id m ≠ id) ∨ (∃ m0, m0 ∈ outbox st ∧ ob_id m0 = id ∧ m = set_attempts n m0).
Proof. intros Hok. apply in_updated, Hok. Qed.

(** A row is found by its id. *)
Lemma row_by_id st m m' : fake_ok st → m ∈ outbox st → m' ∈ outbox st → ob_id m = ob_id m' → m = m'.
Proof.
  intros [_ Hnd _ _ _ _]. induction (outbox st) as [|x l IH]; simpl in *; [set_solver|].
  apply NoDup_cons in Hnd as [Hx Hl]. rewrite !elem_of_cons.
  intros [->|Hm] [->|Hm'] Heq; [done| | |by apply IH].
  - exfalso. apply Hx. rewrite Heq. by apply list_elem_of_fmap_2.
  - exfalso. apply Hx. rewrite <-Heq. by apply list_elem_of_fmap_2.
Qed.

Lemma filter_ids_nodup (f : ClientOutboxMessage → bool) l : NoDup (map ob_id l) → NoDup (map ob_id (List.filter f l)).
Proof.
  induction l as [|x l IH]; simpl; [done|]. rewrite NoDup_cons. intros [Hx Hl].
  destruct (f x); simpl; [|by apply IH]. apply NoDup_cons. split; [|by apply IH].
  intros (y&Hy&Hin)%list_elem_of_fmap. apply Hx. rewrite Hy. apply list_elem_of_fmap_2.
  apply list_elem_of_In in Hin. apply list_elem_of_In. by apply filter_In in Hin as [? _].
Qed.

Lemma enqueue_ok kind recipient body timestamp st :
  fake_ok st → fake_ok (fake_enqueue_outbox_message kind recipient body timestamp st).2.
Proof.
  intros Hok. assert (Hn := ok_next st Hok). assert (Hr := ok_range st Hok).
  split; [simpl; lia| | |apply Hok..].
  - simpl. rewrite map_app, NoDup_app. split_and!; [apply Hok| |apply NoDup_singleton]. simpl.
    intros id (m&->&Hm%Hr)%list_elem_of_fmap Hin%list_elem_of_singleton. lia.
  - intros m [Hm%Hr| ->]%in_enqueued; simpl; lia.
Qed.

Lemma complete_ok id st : fake_ok st → fake_ok (fake_complete_outbox_message id st).2.
Proof.
  intros Hok. split; [apply Hok| | |apply Hok..]; [by apply filter_ids_nodup, Hok|].
  intros m [Hm _]%in_completed. by apply Hok.
Qed.

Lemma defer_ok id n at_ st : fake_ok st → fake_ok (fake_defer_outbox_message id n at_ st).2.
Proof.
  intros Hok. split; [apply Hok| | |apply Hok..]; [simpl; rewrite update_attempts_ids; apply Hok|].
  intros m [[Hm _]|(m0&Hm&Hid&->)]%in_deferred; [by apply Hok|by apply (ok_range st Hok m0)|done].
Qed.

Lemma fake_call_ok st st' : fake_call st st' → fake_ok st → fake_ok st'.
Proof.
  intros [key group s|thread timestamp content s| | | | | | |thread timestamp s] Hok;
    [| | | |by apply enqueue_ok|by apply complete_ok|by apply defer_ok| |]; try (destruct Hok; by split).
  - destruct Hok. split; simpl; try done. by apply assoc_keys_insert.
  - destruct Hok. split; simpl; try done. by apply assoc_keys_insert.
  - destruct Hok. unfold fake_mark_sent_message_projected.
    destruct (projection_failure s) as [[kind remaining]|]; [destruct (0 <? remaining)%N|];
      split; simpl; try done; case_decide; by try apply NoDup_cons.
Qed.

(** ** Client code over the trait *)

(** [mark_sent_message_projected] of [backend/coordinator.rs] is written against
    the trait: here over any storage, with the sleep of its monad. *)
Fixpoint mark_sent_over {M : Type → Type} `{MRet M, MBind M} (S : StorageOps M) (sleep : N → M unit)
  (delays : list N) (sent : SentMessage) : M (result unit StorageError) :=
  r ← st_mark_sent_message_projected (sm_thread sent) (sm_timestamp sent);
  match r with
  | Ok _ => mret (Ok tt)
  | Err e =>
      if storage_is_transient e then
        match delays with
        | [] => mret (Err e)
        | delay :: delays => _ ← sleep delay; mark_sent_over S sleep delays sent
        end
      else mret (Err e)
  end.

(** Over the repository it is the program of [Outbox]. *)
Lemma mark_sent_over_repository sent :
  mark_sent_over repository_storage (λ delay, perform (OpSleep delay : op)) MARK_SENT_PROJECTED_RETRY_DELAYS_MS sent =
  mark_sent_message_projected sent.
Proof. reflexivity. Qed.

Abbreviation fake_mark_sent := (mark_sent_over fake_storage (λ _, mret tt)).

Lemma fake_failure_transient kind : storage_is_transient (fake_failure kind) = true.
Proof. by destruct kind. Qed.

Lemma fake_failing sent kind n st :
  projection_failure st = Some (kind, n) → (0 < n)%N →
  fake_mark_sent_message_projected (sm_thread sent) (sm_timestamp sent) st =
  (Err (fake_failure kind), set_failure (Some (kind, n - 1)%N) st).
Proof. intros Hf Hn. unfold fake_mark_sent_message_projected. rewrite Hf. by rewrite (proj2 (N.ltb_lt 0 n) Hn). Qed.

Lemma fake_succeeding sent st :
  (∀ kind n, projection_failure st = Some (kind, n) → n = 0%N) →
  ∃ st', fake_mark_sent_message_projected (sm_thread sent) (sm_timestamp sent) st = (Ok tt, st') ∧
    is_projected (sm_thread sent) (sm_timestamp sent) st' = true ∧ projection_failure st' = None.
Proof.
  intros Hf. unfold fake_mark_sent_message_projected.
  destruct (projection_failure st) as [[kind n]|] eqn:E; [rewrite (Hf _ _ eq_refl)|]; simpl; eexists;
    (split; [reflexivity|]); (split; [|done]); apply bool_decide_eq_true; simpl; case_decide; set_solver.
Qed.

Lemma fake_mark_sent_step delays sent st :
  fake_mark_sent delays sent st =
  (let r := fake_mark_sent_message_projected (sm_thread sent) (sm_timestamp sent) st in
   match r.1 with
   | Ok _ => (Ok tt, r.2)
   | Err e =>
       if storage_is_transient e then
         match delays with
         | [] => (Err e, r.2)
         | _ :: delays => fake_mark_sent delays sent r.2
         end
       else (Err e, r.2)
   end).
Proof.
  destruct delays; cbn [mark_sent_over]; unfold mbind, fake_bind; cbn [st_mark_sent_message_projected fake_storage];
    destruct (fake_mark_sent_message_projected _ _ st) as [[[]|e] st']; simpl; by try destruct (storage_is_transient e).
Qed.

(** With [delays] left, a store that fails [n] times is asked again until it
    succeeds if [n] is at most their number, and else until they are used up. *)
Lemma mark_sent_over_fake delays sent kind n st :
  projection_failure st = Some (kind, n) →
  if (n <=? len delays)%N
  then ∃ st', fake_mark_sent delays sent st = (Ok tt, st') ∧
         is_projected (sm_thread sent) (sm_timestamp sent) st' = true ∧ projection_failure st' = None
  else fake_mark_sent delays sent st =
         (Err (fake_failure kind), set_failure (Some (kind, n - len delays - 1)%N) st).
Proof.
  revert n st. induction delays as [|delay delays IH]; intros n st Hf.
  - destruct (N.leb_spec n (len (@nil N))) as [Hn|Hn].
    + assert (n = 0%N) as -> by (unfold len in Hn; simpl in Hn; lia).
      destruct (fake_succeeding sent st) as (st'&Heq&?&?); [by intros ? ? ?; simplify_eq|].
      exists st'. split; [|done]. by rewrite fake_mark_sent_step, Heq.
    + rewrite fake_mark_sent_step, (fake_failing sent kind n st Hf) by (unfold len in Hn; simpl in Hn; lia).
      cbn [fst snd]. rewrite fake_failure_transient. unfold len. simpl. by rewrite N.sub_0_r.
  - destruct (decide (n = 0%N)) as [->|Hn].
    + destruct (fake_succeeding sent st) as (st'&Heq&?&?); [by intros ? ? ?; simplify_eq|].
      exists st'. split; [|done]. by rewrite fake_mark_sent_step, Heq.
    + specialize (IH (n - 1)%N (set_failure (Some (kind, n - 1)%N) st) eq_refl).
      assert (Hl : len (delay :: delays) = (len delays + 1)%N) by (unfold len; simpl; lia).
      assert (Heq : fake_mark_sent (delay :: delays) sent st =
                    fake_mark_sent delays sent (set_failure (Some (kind, n - 1)%N) st)).
      { rewrite fake_mark_sent_step, (fake_failing sent kind n st Hf) by lia. cbn [fst snd]. by rewrite fake_failure_transient. }
      rewrite Heq, Hl. destruct (N.leb_spec (n - 1) (len delays)), (N.leb_spec n (len delays + 1)); try lia; [done|].
      rewrite IH. unfold set_failure at 1. simpl. unfold set_failure. simpl. do 4 f_equal. lia.
Qed.

End Storage.
