(* ===== verification/Commands.v ===== *)
(** * Commands: what the user asks for

    Models, from [rust/signal-core/src/backend/coordinator.rs],
    [upload_and_send_attachment],
    [load_unprojected_messages] and [handle_command].  [Guard] and [Answers]
    prove theorems of these programs. *)
From S2P Require Import Prelude Event Attachment Command Session GroupState StoreErrors SignalTypes.
From S2P Require Import Effects Backend Repository Groups ProjectionState Outbox.

Definition not_canonical : string := "Recipient is not a canonical Signal service identifier".
Definition group_unavailable : string :=
  "Signal group is unavailable or this account is no longer a member".
Definition groups_not_authoritative : string :=
  "Signal groups are temporarily unavailable until authoritative synchronization succeeds".

Section Commands.
Context `{Ids : SignalIds} `{Dig : Digests} `{Enums : ProtoEnums}.

(** ** Attachments *)

Definition read_payload (data : AttachmentPayload) : proc (result (list byte) string) :=
  match data with
  | PayloadData bytes => Ret (Ok bytes)
  | PayloadPath path =>
      r ← perform (OpReadFile path);
      Ret (map_err (λ e, "Could not read attachment file: " +:+ e) r)
  end.

Definition attachment_message (pointer : AttachmentPointer) (timestamp : N)
  (group : option GroupContextV2) : ContentBody :=
  BodyData (mkDataMessage None [pointer] group (Some timestamp) false None None [] [] None).

(** The target group of an attachment, looked up before the upload. *)
Definition attachment_target (local_aci : Aci) (attachment : OutgoingAttachment)
  : proc (result (option (list byte)) string) :=
  if oa_group attachment then
    r ← resolve_active_group local_aci (oa_recipient attachment);
    try_ r (λ found,
      try_ (ok_or found group_unavailable) (λ kg, Ret (Ok (Some kg.1))))
  else Ret (Ok None).

Definition send_attachment_to_group (local_aci : Aci) (key : list byte) (pointer : AttachmentPointer)
  (timestamp : N) : proc (result SentMessage string) :=
  with_group_lock (
    r ← active_group_by_key local_aci key;
    try_ r (λ found,
      try_ (ok_or found "Signal group became unavailable before the attachment could be sent")
        (λ group,
          r ← perform (OpSendMessageToGroup key
                (attachment_message pointer timestamp
                   (Some (mkGroupContext (Some key) (Some (gr_revision group))))) timestamp);
          try_ r (λ _, Ret (Ok (mkSentMessage (ThreadGroup key) timestamp)))))).

Definition send_attachment_to_contact (recipient : string) (pointer : AttachmentPointer) (timestamp : N)
  : proc (result SentMessage string) :=
  try_ (ok_or (parse_recipient recipient) not_canonical) (λ recipient,
    r ← perform (OpSendMessage recipient (attachment_message pointer timestamp None) timestamp);
    try_ r (λ _, Ret (Ok (mkSentMessage (ThreadContact recipient) timestamp)))).

Definition upload_and_send_attachment (local_aci : Aci) (attachment : OutgoingAttachment)
  : proc (result SentMessage string) :=
  r ← read_payload (oa_data attachment);
  try_ r (λ data,
    if (len data =? 0)%N || (MAX_ATTACHMENT_BYTES <? len data)%N
    then Ret (Err "Attachment size is outside the supported range")
    else
      r ← attachment_target local_aci attachment;
      try_ r (λ target,
        r ← perform (OpUploadAttachment
              (mkSpec (oa_content_type attachment) (len data) (Some (oa_filename attachment))) data);
        try_ r (λ pointer,
          timestamp ← perform OpNextTimestamp;
          match target with
          | Some key => send_attachment_to_group local_aci key pointer timestamp
          | None => send_attachment_to_contact (oa_recipient attachment) pointer timestamp
          end))).

(** ** Pending messages *)

Definition load_unprojected_messages (groups_authoritative : bool) : proc unit :=
  r ← unprojected_messages;
  match r with
  | Ok messages => _ ← update (on_replay (replay_replace messages groups_authoritative)); Ret tt
  | Err e =>
      if sqlite_store_error_is_transient e then Ret tt
      else emit (error ("Could not read pending Signal messages: " +:+ store_text e) false)
  end.

(** ** Commands *)

(** A request that failed: transient if it will be retried. *)
Definition report_request (request_id : N) (group : option string)
  (r : result unit OutboxAttemptError) : proc unit :=
  match r with
  | Ok _ => Ret tt
  | Err e =>
      if should_retry e then emit (transient_request_error request_id (ae_message e))
      else emit (match group with
                 | Some group_key => group_request_error request_id group_key (ae_message e)
                 | None => request_error request_id (ae_message e)
                 end)
  end.

(** A direct message that is not queued: receipts and typing notices. *)
Definition send_transient (request_id : N) (recipient : string) (body : N → ContentBody) : proc unit :=
  result ← (match parse_recipient recipient with
            | Some recipient =>
                timestamp ← perform OpNextTimestamp;
                perform (OpSendMessage recipient (body timestamp) timestamp)
            | None => Ret (Err not_canonical)
            end : proc (result unit string));
  match result with
  | Err e => emit (transient_request_error request_id e)
  | Ok _ => Ret tt
  end.

Definition accept_identity_command (local_aci : Aci) (groups_authoritative : bool)
  (request_id : N) (recipient : string) : proc unit :=
  r ← accept_identity_change recipient;
  match r with
  | Ok true =>
      r ← expedite_outbox_messages recipient;
      _ ← (match r with
           | Err e => emit (error ("Could not expedite queued Signal messages: " +:+ store_text e) false)
           | Ok _ => Ret tt
           end);
      _ ← emit (with_request_id request_id
            (with_peer_id (Some recipient) (plain_event EVENT_IDENTITY_ACCEPTED)));
      retry_outbox local_aci groups_authoritative
  | Ok false => emit (request_error request_id "No verified identity change is pending for this contact")
  | Err e => emit (request_error request_id
                     ("Could not accept the Signal identity change: " +:+ store_text e))
  end.

Definition dismiss_identity_command (request_id : N) (recipient : string) : proc unit :=
  r ← dismiss_identity_change recipient;
  match r with
  | Ok _ => emit (with_request_id request_id
                    (with_peer_id (Some recipient) (plain_event EVENT_IDENTITY_CHANGE)))
  | Err e => emit (request_error request_id
                     ("Could not dismiss the Signal identity notice: " +:+ store_text e))
  end.

Definition reset_session_command (request_id : N) (recipient : string) : proc unit :=
  result ← (match parse_recipient recipient with
            | Some recipient => perform (OpClearSessions recipient)
            | None => Ret (Err not_canonical)
            end : proc (result unit string));
  match result with
  | Ok _ => emit (with_request_id request_id
                    (with_peer_id (Some recipient) (plain_event EVENT_SESSION_RESET)))
  | Err e => emit (request_error request_id ("Could not reset the Signal session: " +:+ e))
  end.

(** [for event in group_leave_completion_events(...) { sink.emit(event) }]. *)
Definition complete_leave (request_id : N) (group_key : string) (completion : GroupLeaveCompletion)
  : proc unit :=
  s ← update (on_departed (λ d, (group_leave_completion_events request_id group_key completion d).2));
  for_each (group_leave_completion_events request_id group_key completion (sh_departed s)).1 tt
    (λ _ e, emit e).

Definition refuse_leave (request_id : N) (group_key message : string) : proc unit :=
  _ ← update (on_departed (cancel_leave group_key));
  emit (group_request_error request_id group_key message).

Definition leave_group_command (local_aci : Aci) (groups_authoritative : bool)
  (request_id : N) (group_key : string) : proc unit :=
  if negb groups_authoritative then refuse_leave request_id group_key groups_not_authoritative
  else
    _ ← perform OpLockGroups;
    resolved ← resolve_active_group_for_leave local_aci group_key;
    match resolved with
    | Err e => _ ← refuse_leave request_id group_key e; perform OpUnlockGroups
    | Ok None => _ ← refuse_leave request_id group_key group_unavailable; perform OpUnlockGroups
    | Ok (Some kg) =>
        r ← perform (OpLeaveGroup kg.1);
        match r with
        | Ok outcome =>
            _ ← complete_leave request_id group_key
                  (LeaveAccepted (peer_notification_sent outcome) (local_group_removed outcome));
            _ ← perform OpUnlockGroups;
            _ ← update (on_metadata (remove_group_index group_key));
            r ← expedite_outbox_messages group_key;
            _ ← (match r with
                 | Err e => emit (error ("Could not schedule stale group messages for cleanup: "
                                         +:+ store_text e) false)
                 | Ok _ => Ret tt
                 end);
            retry_outbox local_aci groups_authoritative
        | Err e =>
            _ ← complete_leave request_id group_key (LeaveFailed ("Could not leave the Signal group: " +:+ e));
            perform OpUnlockGroups
        end
    end.

Definition send_message_command (local_aci : Aci) (request_id : N) (recipient message : string) : proc unit :=
  result ← (match parse_recipient recipient with
            | Some _ => enqueue_and_send local_aci (mkNewOutbox Direct recipient message)
            | None => Ret (Err (permanent not_canonical))
            end);
  report_request request_id None result.

Definition send_group_message_command (local_aci : Aci) (groups_authoritative : bool)
  (request_id : N) (group_key message : string) : proc unit :=
  result ← (if negb groups_authoritative then Ret (Err (retryable groups_not_authoritative))
            else
              r ← resolve_active_group local_aci group_key;
              match r with
              | Ok (Some _) => enqueue_and_send local_aci (mkNewOutbox Group_ group_key message)
              | Ok None => Ret (Err (permanent group_unavailable))
              | Err e => Ret (Err (classify e))
              end);
  report_request request_id (Some group_key) result.

Definition handle_command (local_aci : Aci) (groups_authoritative : bool) (command : Command) : proc unit :=
  match command with
  | AcceptIdentity request_id recipient =>
      accept_identity_command local_aci groups_authoritative request_id recipient
  | DismissIdentity request_id recipient => dismiss_identity_command request_id recipient
  | ResetSession request_id recipient => reset_session_command request_id recipient
  | MarkRead request_id recipient timestamp =>
      send_transient request_id recipient
        (λ _, BodyReceipt (mkReceiptMessage (Some RECEIPT_READ) [timestamp]))
  | LeaveGroup request_id group_key =>
      leave_group_command local_aci groups_authoritative request_id group_key
  | SendMessage request_id recipient message => send_message_command local_aci request_id recipient message
  | SendGroupMessage request_id group_key message =>
      send_group_message_command local_aci groups_authoritative request_id group_key message
  | SetTyping request_id recipient typing =>
      send_transient request_id recipient (λ timestamp,
        BodyTyping (mkTypingMessage (Some timestamp)
          (Some (if typing then ACTION_STARTED else ACTION_STOPPED)) None))
  | SendAttachment _ _ _ _ _ _ _ =>
      Panic "SendAttachment is routed directly by the worker loop and never reaches handle_command"
  end.

End Commands.
