(* ===== verification/Guard.v ===== *)
(** * Guard: group operations only inside the lock, on groups found active

    Everything the account sends to a group, and every request to leave one,
    is made while the group-operation lock is held, after reads made under
    that lock showed the local account to be a member and the group not to be
    departing.  The programs are those of [Outbox] and [Commands]; the
    theorems hold for any answers of store and network. *)
From S2P Require Import Prelude Event Attachment Command Session GroupState StoreErrors SignalTypes.
From S2P Require Import Effects Backend Repository Groups ProjectionState Outbox Commands.

Section Guard.
Context `{Ids : SignalIds} `{Dig : Digests} `{Enums : ProtoEnums}.

(** ** The index of the metadata cache *)

(** Every identifier of the index is the identifier of the key it names. *)
Definition index_ok (s : Shared) : Prop :=
  ∀ identifier key, group_index (sh_metadata s) !! identifier = Some key → group_identifier key = identifier.

Definition keeps_index (f : Shared → Shared) : Prop := ∀ s, index_ok s → index_ok (f s).

Lemma keeps_index_id : keeps_index id.
Proof. by intros s. Qed.

Lemma keeps_index_departed f : keeps_index (on_departed f).
Proof. by intros s. Qed.

Lemma keeps_index_insert identifier key :
  group_identifier key = identifier → keeps_index (on_metadata (index_group identifier key)).
Proof.
  intros Hk s Hs i k. simpl. intros [[<- <-]|[? ?]]%lookup_insert_Some; [done|by apply Hs].
Qed.

Lemma keeps_index_remove identifier : keeps_index (on_metadata (remove_group_index identifier)).
Proof. intros s Hs i k. simpl. intros [? ?]%lookup_delete_Some. by apply Hs. Qed.

(** ** Reads under the lock *)

(** The entries since the lock was taken, if it is held. *)
Definition section_of (h : list entry) : option (list entry) :=
  foldl (λ acc e,
    match entry_op e with
    | OpLockGroups => Some []
    | OpUnlockGroups => None
    | _ => (λ l, l ++ [e]) <$> acc
    end) None h.

(** The store answered that [g] is the group of [key], with the local account
    among its members. *)
Definition member_read (local_aci : Aci) (key : list byte) (g : Group) (e : entry) : Prop :=
  group_contains_local_aci g local_aci = true ∧
  match e with
  | existT o r =>
      match o return backend_resp o → Prop with
      | OpGroup k => λ r, k = key ∧ r = Ok (Some g)
      | OpGroups => λ r, ∃ l, r = Ok l ∧ Ok (key, g) ∈ l
      | _ => λ _, False
      end r
  end.

(** The shared state was read, and satisfied [P]. *)
Definition shared_read (P : Shared → Prop) (e : entry) : Prop :=
  match e with
  | existT o r =>
      match o return backend_resp o → Prop with OpUpdate _ => P | _ => λ _, False end r
  end.

Definition not_leaving (identifier : string) (s : Shared) : Prop :=
  departure_state identifier (sh_departed s) = Active.

Definition not_departed (identifier : string) (s : Shared) : Prop :=
  departure_state identifier (sh_departed s) ≠ Departed.

(** The message is for the group with this key, at the revision that was read. *)
Definition addressed_to (message : ContentBody) (key : list byte) (g : Group) : Prop :=
  match message with
  | BodyData m => dm_group_v2 m = Some (mkGroupContext (Some key) (Some (gr_revision g)))
  | _ => False
  end.

(** ** The guard *)

Definition guarded (local_aci : Aci) (h : list entry) (e : entry) : Prop :=
  match entry_op e with
  | OpSendMessageToGroup key message _ =>
      ∃ sec g, section_of h = Some sec ∧ Exists (member_read local_aci key g) sec ∧
        Exists (shared_read (not_leaving (group_identifier key))) sec ∧ addressed_to message key g
  | OpLeaveGroup key =>
      ∃ sec g, section_of h = Some sec ∧ Exists (member_read local_aci key g) sec ∧
        Exists (shared_read (not_departed (group_identifier key))) sec
  | OpUpdate f => keeps_index f
  | _ => True
  end.

(** The index was right whenever it was read. *)
Definition index_reads (h : list entry) (o : backend_op) (r : backend_resp o) : Prop :=
  match o return backend_resp o → Prop with OpUpdate _ => index_ok | _ => λ _, True end r.

Definition guard_spec (local_aci : Aci) : spec :=
  mkSpecification index_reads (guarded local_aci) (λ _ _, True) (λ _ _, True).

(** Operations that need no guard. *)
Definition unguarded (o : backend_op) : Prop :=
  match o with
  | OpSendMessageToGroup _ _ _ | OpLeaveGroup _ => False
  | OpUpdate f => keeps_index f
  | _ => True
  end.

(** Operations that leave the section open. *)
Definition inside (o : backend_op) : Prop :=
  match o with OpLockGroups | OpUnlockGroups => False | _ => True end.

Lemma unguarded_guarded local_aci h (o : backend_op) r :
  unguarded o → guarded local_aci h (answered (Sig := backend_sig) o r).
Proof. unfold guarded. by destruct o. Qed.

Lemma unguarded_allowed local_aci h : allows (guard_spec local_aci) unguarded h.
Proof. split_and!; [|done..]. intros h' o r _ Ho. by apply unguarded_guarded. Qed.

Lemma wp_unguarded {A} local_aci (p : proc A) h :
  only_ops unguarded p → wp (guard_spec local_aci) p (λ _ _, True) h.
Proof.
  intros Hp. eapply wp_mono; [|apply wp_only_ops; [exact Hp|apply unguarded_allowed]]. done.
Qed.

Lemma section_of_app h t :
  Forall (λ e, inside (entry_op e)) t → section_of (h ++ t) = (λ sec, sec ++ t) <$> section_of h.
Proof.
  induction t as [|e t IH] using rev_ind; intros Ht.
  - rewrite app_nil_r. destruct (section_of h); simpl; by rewrite ?app_nil_r.
  - apply Forall_app in Ht as [Ht [He _]%Forall_cons_1].
    rewrite app_assoc. unfold section_of in *. rewrite foldl_app, IH by done. simpl.
    destruct e as [o r]. unfold entry_op in *. simpl in *.
    destruct o; try done; destruct (foldl _ None h); simpl; by rewrite <-?app_assoc.
Qed.

Lemma section_of_lock h r : section_of (h ++ [answered (Sig := backend_sig) OpLockGroups r]) = Some [].
Proof. unfold section_of. by rewrite foldl_app. Qed.

(** ** Reading groups *)

(** [p] adds only [inside] entries [t], and [P] relates its result to them. *)
Definition reads {A} (local_aci : Aci) (p : proc A) (P : A → list entry → Prop) : Prop :=
  ∀ h, wp (guard_spec local_aci) p
    (λ a h', ∃ t, h' = h ++ t ∧ Forall (λ e, inside (entry_op e)) t ∧ P a t) h.

Lemma reads_ret {A} local_aci (a : A) (P : A → list entry → Prop) : P a [] → reads local_aci (Ret a) P.
Proof. intros HP h. exists []. by rewrite app_nil_r. Qed.

Lemma reads_mono {A} local_aci (p : proc A) (P P' : A → list entry → Prop) :
  (∀ a t, P a t → P' a t) → reads local_aci p P → reads local_aci p P'.
Proof.
  intros HP Hp h. eapply wp_mono; [|apply Hp]. intros a h' (t&->&?&?). exists t. auto.
Qed.

Lemma reads_bind {A B} local_aci (p : proc A) (f : A → proc B) (P : A → list entry → Prop)
  (Q : B → list entry → Prop) :
  reads local_aci p P →
  (∀ a t, P a t → reads local_aci (f a) (λ b t', Q b (t ++ t'))) →
  reads local_aci (p ≫= f) Q.
Proof.
  intros Hp Hf h. eapply wp_call; [apply Hp|]. intros a h' (t&->&Ht&HP).
  eapply wp_mono; [|by apply Hf]. intros b h'' (t'&->&Ht'&HQ). exists (t ++ t').
  rewrite app_assoc, Forall_app. auto.
Qed.

Lemma reads_op {B} local_aci (o : backend_op) (f : Resp o → proc B) (Q : B → list entry → Prop) :
  inside o → unguarded o →
  (∀ r, index_reads [] o r → reads local_aci (f r) (λ b t, Q b (answered (Sig := backend_sig) o r :: t))) →
  reads local_aci (perform o ≫= f) Q.
Proof.
  intros Hi Ho Hf h. split; [done|]. intros r Hr. split; [by apply unguarded_guarded|].
  eapply wp_mono; [|by apply Hf]. intros b h' (t&->&Ht&HQ). exists (answered (Sig := backend_sig) o r :: t).
  rewrite <-app_assoc. split_and!; [done|by apply Forall_cons_2|done].
Qed.

Lemma repo_active_group_reads key local_aci :
  reads local_aci (repo_active_group key local_aci)
    (λ r t, ∀ g, r = Ok (Some g) → Exists (member_read local_aci key g) t).
Proof.
  unfold repo_active_group, repo_group. apply reads_op; [done..|]. intros r _. apply reads_ret.
  intros g Hg. apply Exists_cons_hd.
  destruct r as [[g'|]|e]; simplify_eq/=. unfold group_has_local_aci in Hg.
  destruct (existsb _ _) eqn:E; simplify_eq. by split.
Qed.

Lemma repo_groups_reads local_aci :
  reads local_aci repo_groups
    (λ r t, ∀ l kg, r = Ok l → kg ∈ l → group_contains_local_aci kg.2 local_aci = true →
       Exists (member_read local_aci kg.1 kg.2) t).
Proof.
  unfold repo_groups. apply reads_op; [done..|]. intros r _.
  destruct r as [stream|e]; simpl; apply reads_ret; [|done].
  intros l [k g] Hl Hin Hm. apply Exists_cons_hd. split; [done|]. exists stream. split; [done|].
  simpl in *. destruct (collect stream) as [l'|] eqn:E; simplify_eq/=. by eapply collect_elem.
Qed.

Lemma resolve_in_store_reads local_aci identifier :
  reads local_aci (resolve_active_group_in_store local_aci identifier)
    (λ r t, ∀ kg, r = Ok (Some kg) →
       group_identifier kg.1 = identifier ∧ Exists (member_read local_aci kg.1 kg.2) t).
Proof.
  unfold resolve_active_group_in_store, update. apply reads_op; [done|apply keeps_index_id|]. intros s Hs.
  set (scan := _ ← repo_groups; _).
  assert (Hscan : reads local_aci scan (λ r t, ∀ kg, r = Ok (Some kg) →
    group_identifier kg.1 = identifier ∧ Exists (member_read local_aci kg.1 kg.2) t)).
  { eapply reads_bind; [apply repo_groups_reads|]. intros [groups|e] t Ht; [|by apply reads_ret].
    simpl. destruct (List.find _ _) as [kg|] eqn:Ef; [|by apply reads_ret].
    apply List.find_some in Ef as [Hin Hkg]. apply andb_true_iff in Hkg as [Hid%bool_decide_eq_true Hm].
    unfold update. apply reads_op; [done|by apply keeps_index_insert|]. intros s' _. apply reads_ret.
    intros kg' [= <-]. split; [done|]. apply Exists_app. left.
    apply (Ht _ _ eq_refl); [by apply list_elem_of_In|done]. }
  assert (Hcons : ∀ e, reads local_aci scan (λ r t, ∀ kg, r = Ok (Some kg) →
    group_identifier kg.1 = identifier ∧ Exists (member_read local_aci kg.1 kg.2) (e ++ t))).
  { intros e. eapply reads_mono; [|exact Hscan]. intros r t Ht kg Hkg.
    destruct (Ht kg Hkg). split; [done|]. apply Exists_app. by right. }
  destruct (group_key_for_identifier _ _) as [key|] eqn:Ek; [|apply (Hcons [_])].
  eapply reads_bind; [apply repo_active_group_reads|]. intros [[g|]|e] t Ht; simpl.
  - apply reads_ret. intros kg [= <-]. split; [by apply Hs|]. apply Exists_cons_tl, Exists_app. left. by apply Ht.
  - apply (Hcons (_ :: t)).
  - by apply reads_ret.
Qed.

Lemma departed_contains_false identifier s :
  departed_contains identifier s = false → departure_state identifier s = Active.
Proof. unfold departed_contains. intros H%bool_decide_eq_false. by apply dec_stable. Qed.

Lemma is_departed_false identifier s :
  is_departed identifier s = false → departure_state identifier s ≠ Departed.
Proof.
  unfold is_departed, departure_state. intros H%bool_decide_eq_false. rewrite decide_False by done.
  by case_decide.
Qed.

Lemma resolve_active_group_reads local_aci identifier :
  reads local_aci (resolve_active_group local_aci identifier)
    (λ r t, ∀ kg, r = Ok (Some kg) →
       Exists (member_read local_aci kg.1 kg.2) t ∧
       Exists (shared_read (not_leaving (group_identifier kg.1))) t).
Proof.
  unfold resolve_active_group, update. apply reads_op; [done|apply keeps_index_id|]. intros s _.
  destruct (departed_contains _ _) eqn:E; [by apply reads_ret|].
  eapply reads_mono; [|apply resolve_in_store_reads]. intros r t Ht kg Hkg.
  destruct (Ht kg Hkg) as [-> ?]. split; [by apply Exists_cons_tl|].
  apply Exists_cons_hd. by apply departed_contains_false.
Qed.

Lemma resolve_for_leave_reads local_aci identifier :
  reads local_aci (resolve_active_group_for_leave local_aci identifier)
    (λ r t, ∀ kg, r = Ok (Some kg) →
       Exists (member_read local_aci kg.1 kg.2) t ∧
       Exists (shared_read (not_departed (group_identifier kg.1))) t).
Proof.
  unfold resolve_active_group_for_leave, update. apply reads_op; [done|apply keeps_index_id|]. intros s _.
  destruct (is_departed _ _) eqn:E; [by apply reads_ret|].
  eapply reads_mono; [|apply resolve_in_store_reads]. intros r t Ht kg Hkg.
  destruct (Ht kg Hkg) as [-> ?]. split; [by apply Exists_cons_tl|].
  apply Exists_cons_hd. by apply is_departed_false.
Qed.

Lemma active_group_by_key_reads local_aci key :
  reads local_aci (active_group_by_key local_aci key)
    (λ r t, ∀ g, r = Ok (Some g) →
       Exists (member_read local_aci key g) t ∧ Exists (shared_read (not_leaving (group_identifier key))) t).
Proof.
  unfold active_group_by_key, update. apply reads_op; [done|apply keeps_index_id|]. intros s _.
  destruct (departed_contains _ _) eqn:E; [by apply reads_ret|].
  eapply reads_bind; [apply repo_active_group_reads|]. intros r t Ht. apply reads_ret. intros g Hg.
  rewrite app_nil_r. split; [|apply Exists_cons_hd; by apply departed_contains_false].
  apply Exists_cons_tl, Ht. by destruct r; simplify_eq/=.
Qed.

(** ** The guarded programs *)

(** Reads under the lock, then an operation that depends on them. *)
Lemma locked_wp {A B} local_aci (p : proc A) P (f : A → proc B) h :
  reads local_aci p P →
  (∀ a t h', P a t → section_of h' = Some t → wp (guard_spec local_aci) (f a) (λ _ _, True) h') →
  wp (guard_spec local_aci) (_ ← perform OpLockGroups; p ≫= f) (λ _ _, True) h.
Proof.
  intros Hp Hf. split; [done|]. intros [] _. split; [done|].
  eapply wp_call; [apply Hp|]. intros a h' (t&->&Ht&HP). eapply Hf; [done|].
  by rewrite section_of_app, section_of_lock by done.
Qed.

Lemma with_group_lock_wp {A B} local_aci (p : proc A) P (f : A → proc B) h :
  reads local_aci p P →
  (∀ a t h', P a t → section_of h' = Some t → wp (guard_spec local_aci) (f a) (λ _ _, True) h') →
  wp (guard_spec local_aci) (with_group_lock (p ≫= f)) (λ _ _, True) h.
Proof.
  intros Hp Hf. unfold with_group_lock.
  split; [done|]. intros [] _. split; [done|]. apply wp_bind, wp_bind.
  eapply wp_mono; [|apply Hp]. intros a h' (t&->&Ht&HP).
  eapply wp_mono; [|eapply Hf; [done|by rewrite section_of_app, section_of_lock by done]].
  intros b h'' _. by apply wp_unguarded.
Qed.

(** A send to a group whose reads are in the section. *)
Lemma guarded_send_wp {A} local_aci key message timestamp g sec h (k : result unit string → proc A) :
  section_of h = Some sec → Exists (member_read local_aci key g) sec →
  Exists (shared_read (not_leaving (group_identifier key))) sec → addressed_to message key g →
  (∀ r, only_ops unguarded (k r)) →
  wp (guard_spec local_aci) (perform (OpSendMessageToGroup key message timestamp) ≫= k) (λ _ _, True) h.
Proof.
  intros Hsec Hm Hl Ha Hk. split; [done|]. intros r _. split; [by exists sec, g|].
  apply wp_unguarded, Hk.
Qed.

Lemma attempt_guarded local_aci m h :
  wp (guard_spec local_aci) (attempt_outbox_message local_aci m) (λ _ _, True) h.
Proof.
  unfold attempt_outbox_message. destruct (ob_kind m); [apply wp_unguarded; solve_only_ops|].
  apply (with_group_lock_wp _ _ _ _ _ (resolve_active_group_reads _ _)).
  intros [[kg|]|e] t h' Ht Hsec; [|done..]. destruct (Ht _ eq_refl). simpl try_.
  eapply guarded_send_wp; [done..|]. intros. solve_only_ops.
Qed.

Lemma upload_guarded local_aci attachment h :
  wp (guard_spec local_aci) (upload_and_send_attachment local_aci attachment) (λ _ _, True) h.
Proof.
  unfold upload_and_send_attachment.
  eapply wp_call with (R := λ _ _, True); [apply wp_unguarded; unfold read_payload; solve_only_ops|].
  intros [data|e] h1 _; [|done]. simpl try_. destruct (_ || _); [done|].
  eapply wp_call with (R := λ _ _, True).
  { unfold attachment_target. destruct (oa_group _); [|done].
    eapply wp_call; [apply resolve_active_group_reads|]. by intros [[?|]|?] h2 _. }
  intros [target|e] h2 _; [|done]. simpl try_. split; [done|]. intros [pointer|e] _; (split; [done|]); [|done].
  simpl. split; [done|]. intros ts _. split; [done|].
  destruct target as [key|]; [|apply wp_unguarded; unfold send_attachment_to_contact; solve_only_ops].
  apply (with_group_lock_wp _ _ _ _ _ (active_group_by_key_reads _ _)).
  intros [[g|]|e] t h' Ht Hsec; [|done..]. destruct (Ht _ eq_refl). simpl try_.
  eapply guarded_send_wp; [done..|]. intros. solve_only_ops.
Qed.

(** Programs that meet the guard from any history. *)
Definition safe {A} (local_aci : Aci) (p : proc A) : Prop :=
  ∀ h, wp (guard_spec local_aci) p (λ _ _, True) h.

Lemma safe_bind {A B} local_aci (p : proc A) (f : A → proc B) :
  safe local_aci p → (∀ a, safe local_aci (f a)) → safe local_aci (p ≫= f).
Proof. intros Hp Hf h. eapply wp_call; [apply Hp|]. intros a h' _. apply Hf. Qed.

Lemma safe_unguarded {A} local_aci (p : proc A) : only_ops unguarded p → safe local_aci p.
Proof. intros Hp h. by apply wp_unguarded. Qed.

Lemma safe_for_each {A T} local_aci (l : list A) (s : T) f :
  (∀ s x, safe local_aci (f s x)) → safe local_aci (for_each l s f).
Proof.
  intros Hf. revert s. induction l as [|x l IH]; intros s; simpl; [done|].
  apply safe_bind; [apply Hf|]. intros. apply IH.
Qed.

Lemma mark_sent_unguarded (res : result SentMessage OutboxAttemptError) :
  only_ops unguarded (match res with Ok sent => mark_sent_message_projected_or_report sent | Err _ => Ret tt end).
Proof.
  destruct res as [sent|]; [|done]. by apply mark_sent_only.
Qed.

Lemma finish_unguarded m res : only_ops unguarded (finish_outbox_attempt m res).
Proof.
  unfold finish_outbox_attempt, complete_outbox_message, defer_outbox_message. solve_only_ops.
Qed.

Lemma retry_outbox_safe local_aci auth : safe local_aci (retry_outbox local_aci auth).
Proof.
  unfold retry_outbox, due_outbox_messages. apply safe_bind; [by apply safe_unguarded|]. intros now.
  apply safe_bind; [by apply safe_unguarded|]. intros [messages|e];
    [|apply safe_unguarded; solve_only_ops].
  apply safe_for_each. intros _ m. unfold retry_one. destruct (negb _); [done|].
  apply safe_bind; [intros h; apply attempt_guarded|]. intros res.
  apply safe_bind; [apply safe_unguarded, mark_sent_unguarded|]. intros [].
  apply safe_bind; [apply safe_unguarded, finish_unguarded|]. intros finished.
  apply safe_unguarded. unfold report_attempt. solve_only_ops.
Qed.

Lemma enqueue_and_send_safe local_aci request : safe local_aci (enqueue_and_send local_aci request).
Proof.
  unfold enqueue_and_send, enqueue_outbox_message. apply safe_bind; [by apply safe_unguarded|]. intros ts.
  apply safe_bind; [by apply safe_unguarded|]. intros [id|e]; [|done]. simpl try_.
  apply safe_bind; [intros h; apply attempt_guarded|]. intros res.
  apply safe_bind; [apply safe_unguarded, mark_sent_unguarded|]. intros [].
  apply safe_bind; [apply safe_unguarded, finish_unguarded|]. intros finished.
  apply safe_unguarded. solve_only_ops.
Qed.

Lemma complete_leave_unguarded request_id group_key completion :
  only_ops unguarded (complete_leave request_id group_key completion).
Proof.
  unfold complete_leave, update. apply only_ops_bind; [split; [apply keeps_index_departed|done]|].
  intros s. solve_only_ops.
Qed.

Lemma refuse_leave_unguarded request_id group_key message :
  only_ops unguarded (refuse_leave request_id group_key message).
Proof.
  unfold refuse_leave, update. apply only_ops_bind; [split; [apply keeps_index_departed|done]|].
  intros s. solve_only_ops.
Qed.

Lemma leave_group_safe local_aci auth request_id group_key :
  safe local_aci (leave_group_command local_aci auth request_id group_key).
Proof.
  unfold leave_group_command. destruct (negb auth); [apply safe_unguarded, refuse_leave_unguarded|].
  intros h. apply (locked_wp _ _ _ _ _ (resolve_for_leave_reads _ _)).
  assert (Hrefuse : ∀ message, safe local_aci
    (_ ← refuse_leave request_id group_key message; perform OpUnlockGroups)).
  { intros message. apply safe_bind; [apply safe_unguarded, refuse_leave_unguarded|].
    intros. by apply safe_unguarded. }
  intros [[kg|]|e] t h' Ht Hsec; [|apply Hrefuse..]. destruct (Ht _ eq_refl).
  split; [done|]. intros r _. split; [by exists t, kg.2|]. destruct r as [outcome|e].
  - apply safe_bind; [apply safe_unguarded, complete_leave_unguarded|]. intros [].
    apply safe_bind; [by apply safe_unguarded|]. intros [].
    apply safe_bind; [apply safe_unguarded; split; [apply keeps_index_remove|done]|]. intros s.
    apply safe_bind; [by apply safe_unguarded|]. intros r.
    apply safe_bind; [apply safe_unguarded; solve_only_ops|]. intros []. apply retry_outbox_safe.
  - apply safe_bind; [apply safe_unguarded, complete_leave_unguarded|]. intros []. by apply safe_unguarded.
Qed.

Lemma handle_command_safe local_aci auth command : safe local_aci (handle_command local_aci auth command).
Proof.
  destruct command; simpl handle_command;
    unfold send_transient, dismiss_identity_command, dismiss_identity_change, reset_session_command; try (apply safe_unguarded; by solve_only_ops).
  - unfold send_message_command. apply safe_bind; [|intros; apply safe_unguarded; unfold report_request; solve_only_ops].
    destruct (parse_recipient _); [apply enqueue_and_send_safe|done].
  - unfold send_group_message_command.
    apply safe_bind; [|intros; apply safe_unguarded; unfold report_request; solve_only_ops].
    destruct (negb _); [done|]. intros h. eapply wp_call; [apply resolve_active_group_reads|].
    intros [[kg|]|e] h' _; [apply enqueue_and_send_safe|done..].
  - apply leave_group_safe.
  - unfold accept_identity_command, accept_identity_change, expedite_outbox_messages.
    apply safe_bind; [by apply safe_unguarded|]. intros [[]|e]; [|apply safe_unguarded; solve_only_ops..].
    apply safe_bind; [by apply safe_unguarded|]. intros r.
    apply safe_bind; [apply safe_unguarded; solve_only_ops|]. intros [].
    apply safe_bind; [by apply safe_unguarded|]. intros []. apply retry_outbox_safe.
Qed.

(** ** The index in a run

    When the shared state a program reads is the one its updates made, the
    index is right at every read. *)

Lemma shared_after_snoc h (e : entry) :
  shared_after (h ++ [e]) = match entry_op e with OpUpdate f => f (shared_after h) | _ => shared_after h end.
Proof. unfold shared_after, apply_updates. by rewrite foldl_app. Qed.

Lemma run_index_reads {A} local_aci (world : list entry → ∀ o, backend_resp o) (p : proc A) h :
  (∀ h f, world h (OpUpdate f) = shared_after h) → index_ok (shared_after h) →
  wp (guard_spec local_aci) p (λ _ _, True) h →
  legal_trace index_reads h (run (Sig := backend_sig) world p h).1.
Proof.
  intros Hw. revert h. induction p as [a|o k IH|m]; intros h Hi Hp; [done| |done]. simpl in *.
  assert (Hl : index_reads h o (world h o)) by (destruct o; try done; simpl; by rewrite Hw).
  destruct Hp as [_ Hp]. destruct (Hp _ Hl) as [Hg Hk]. split; [done|]. apply IH; [|done].
  rewrite shared_after_snoc. destruct o; try done. by apply Hg.
Qed.

(** ** Properties *)

(** C12. Handling a command, whatever store and network answer: every message
    to a group and every request to leave one is made under the
    group-operation lock, after reads under that same lock that showed the
    local account among the group's members and the group not leaving (not
    left, for a leave); the message names the group's key and the revision
    read.  The index of the metadata cache stays right. *)
Theorem group_operations_guarded local_aci auth command t out :
  exec (handle_command local_aci auth command) t out → legal_trace index_reads [] t →
  always (guarded local_aci) [] t.
Proof.
  intros Hex Hl.
  by destruct (wp_sound (guard_spec local_aci) _ _ [] t out (handle_command_safe _ _ _ []) Hex Hl).
Qed.

(** C13. The same for attachments: between the upload and the send the group
    is read again under the lock, so a group left during the upload gets
    nothing. *)
Theorem attachment_send_guarded local_aci attachment t out :
  exec (upload_and_send_attachment local_aci attachment) t out → legal_trace index_reads [] t →
  always (guarded local_aci) [] t.
Proof.
  intros Hex Hl.
  by destruct (wp_sound (guard_spec local_aci) _ _ [] t out (upload_guarded _ _ []) Hex Hl).
Qed.

End Guard.

(** ** Runs *)

Lemma group_operations_guarded_witness :
  let t := (run (Sig := @backend_sig string_ids) sample_world
    (handle_command (Ids := string_ids) (Dig := plain_digests) (Enums := proto_numbers) "me" true
       (SendGroupMessage 1 (group_identifier (Dig := plain_digests) sample_key) "hello")) []).1 in
  existsb (λ e, send_accepted (Ids := string_ids) e) t = true ∧
  always (guarded (Ids := string_ids) (Dig := plain_digests) "me") [] t.
Proof.
  split; [vm_compute; reflexivity|].
  eapply (group_operations_guarded (Ids := string_ids) (Dig := plain_digests) (Enums := proto_numbers) "me" true
    (SendGroupMessage 1 (group_identifier (Dig := plain_digests) sample_key) "hello")).
  - apply (run_exec (Sig := @backend_sig string_ids)).
  - apply (run_index_reads (Ids := string_ids) (Dig := plain_digests) "me");
      [done|done|apply handle_command_safe].
Defined.

Lemma attachment_send_guarded_witness :
  let attachment := mkOutgoing (group_identifier (Dig := plain_digests) sample_key) "a.txt" "text/plain"
    (PayloadData (bytes_of "a")) true in
  let t := (run (Sig := @backend_sig string_ids) sample_world
    (upload_and_send_attachment (Ids := string_ids) (Dig := plain_digests) "me" attachment) []).1 in
  existsb (λ e, send_accepted (Ids := string_ids) e) t = true ∧
  always (guarded (Ids := string_ids) (Dig := plain_digests) "me") [] t.
Proof.
  split; [vm_compute; reflexivity|].
  eapply (attachment_send_guarded (Ids := string_ids) (Dig := plain_digests) "me"
    (mkOutgoing (group_identifier (Dig := plain_digests) sample_key) "a.txt" "text/plain"
       (PayloadData (bytes_of "a")) true)).
  - apply (run_exec (Sig := @backend_sig string_ids)).
  - apply (run_index_reads (Ids := string_ids) (Dig := plain_digests) "me");
      [done|done|apply upload_guarded].
Defined.
