(* ===== verification/Answers.v ===== *)
(** * Answers: every command is answered, and a leave never stays half done

    Theorems of [handle_command]: which events with the command's request
    number it emits, and what a request to leave a group does to the leave
    state of that group and of the others. *)
From S2P Require Import Prelude Event Attachment Command Session GroupState StoreErrors SignalTypes.
From S2P Require Import Effects Backend Repository Groups ProjectionState Outbox Commands.

Section Answers.
Context `{Ids : SignalIds} `{Dig : Digests} `{Enums : ProtoEnums}.

(** ** Events with a request number *)

Definition answers (request_id : N) (e : entry) : bool :=
  match entry_op e with OpEmit ev => (ev_request_id ev =? request_id)%N | _ => false end.

Definition answer_count (request_id : N) (t : list entry) : nat := length (List.filter (answers request_id) t).

(** Operations that do not answer. *)
Definition silent (request_id : N) (o : backend_op) : Prop :=
  match o with OpEmit ev => ev_request_id ev ≠ request_id | _ => True end.

Lemma answer_count_app request_id h t :
  answer_count request_id (h ++ t) = answer_count request_id h + answer_count request_id t.
Proof. unfold answer_count. by rewrite List.filter_app, length_app. Qed.

Lemma silent_count request_id h h' :
  extends (silent request_id) h h' → answer_count request_id h' = answer_count request_id h.
Proof.
  intros (t&->&Ht). rewrite answer_count_app.
  assert (answer_count request_id t = 0) as ->; [|lia].
  induction Ht as [|[o r] t He _ IH]; [done|]. unfold answer_count in *. simpl. rewrite <-IH.
  unfold answers, entry_op in *. simpl in *. destruct o; try done. by apply N.eqb_neq in He as ->.
Qed.

Lemma outbox_silent request_id o : request_id ≠ 0%N → outbox_program_op o → silent request_id o.
Proof. intros Hid. destruct o; try done. intros [text ->]. simpl. congruence. Qed.

Lemma resolve_silent request_id local_aci identifier :
  only_ops (silent request_id) (resolve_active_group local_aci identifier) ∧
  only_ops (silent request_id) (resolve_active_group_for_leave local_aci identifier).
Proof. split; (eapply only_ops_mono; [|apply resolve_ops]); by intros []. Qed.

Lemma emit_error_silent request_id text :
  request_id ≠ 0%N → only_ops (silent request_id) (emit (error text false)).
Proof. intros Hid. split; [by intros ?|done]. Qed.

Lemma retry_outbox_silent request_id local_aci auth :
  request_id ≠ 0%N → only_ops (silent request_id) (retry_outbox local_aci auth).
Proof. intros Hid. eapply only_ops_mono; [|apply retry_outbox_ops]. intros o. by apply outbox_silent. Qed.

Lemma enqueue_silent request_id local_aci request :
  request_id ≠ 0%N → only_ops (silent request_id) (enqueue_and_send local_aci request).
Proof. intros Hid. eapply only_ops_mono; [|apply enqueue_ops]. intros o. by apply outbox_silent. Qed.

(** ** What each command promises *)

(** One event with the request number; for what is sent to the network, at most
    one, and none only if the network accepted a message. *)
Definition answered_ok (command : Command) (t : list entry) : Prop :=
  let n := answer_count (command_request_id command) t in
  match command with
  | AcceptIdentity _ _ | DismissIdentity _ _ | ResetSession _ _ | LeaveGroup _ _ => n = 1
  | SendMessage _ _ _ | SendGroupMessage _ _ _ | MarkRead _ _ _ | SetTyping _ _ _ =>
      n = 0 ∧ Exists (λ e, send_accepted e = true) t ∨ n = 1
  | SendAttachment _ _ _ _ _ _ _ => False
  end.

(** From [n] answers before to [m] after. *)
Definition counts {A} (request_id : N) (p : proc A) (n m : nat) : Prop :=
  ∀ h, answer_count request_id h = n → wp end_spec p (λ _ h', answer_count request_id h' = m) h.

Lemma counts_silent {A} request_id (p : proc A) n : only_ops (silent request_id) p → counts request_id p n n.
Proof.
  intros Hp h Hn. eapply wp_mono; [|by apply end_only_ops]. intros a h' He. by rewrite (silent_count _ _ _ He).
Qed.

Lemma counts_bind {A B} request_id (p : proc A) (f : A → proc B) n m k :
  counts request_id p n m → (∀ a, counts request_id (f a) m k) → counts request_id (p ≫= f) n k.
Proof. intros Hp Hf h Hn. eapply wp_call; [by apply Hp|]. intros a h' Hm. by apply Hf. Qed.

Lemma counts_emit request_id ev n : ev_request_id ev = request_id → counts request_id (emit ev) n (S n).
Proof.
  intros Hid h Hn. split; [done|]. intros [] _. split; [done|]. simpl.
  rewrite answer_count_app. unfold answer_count at 2, answers. simpl. rewrite Hid, N.eqb_refl. simpl. lia.
Qed.

Lemma counts_op {A} request_id (o : backend_op) (k : Resp o → proc A) n m :
  silent request_id o → (∀ r, counts request_id (k r) n m) → counts request_id (perform o ≫= k) n m.
Proof. intros Ho Hk. eapply counts_bind; [by apply counts_silent|done]. Qed.

Lemma counts_events request_id (evs : list Event) n :
  counts request_id (for_each evs tt (λ _ e, emit e)) n
    (n + length (List.filter (λ e, ev_request_id e =? request_id)%N evs)).
Proof.
  revert n. induction evs as [|ev evs IH]; intros n; cbn [for_each List.filter];
    [rewrite Nat.add_0_r; by intros h Hn|].
  destruct (ev_request_id ev =? request_id)%N eqn:E; cbn [length].
  - rewrite Nat.add_succ_r, <-Nat.add_succ_l. eapply counts_bind; [by apply counts_emit, N.eqb_eq|intros []; apply IH].
  - eapply counts_bind; [apply counts_silent|intros []; apply IH]. split; [simpl; by apply N.eqb_neq|done].
Qed.

Lemma complete_leave_counts request_id group_key completion n :
  request_id ≠ 0%N → counts request_id (complete_leave request_id group_key completion) n (S n).
Proof.
  intros Hid. unfold complete_leave, update. apply counts_op; [done|]. intros s.
  replace (S n) with (n + length (List.filter (λ e, ev_request_id e =? request_id)%N
    (group_leave_completion_events request_id group_key completion (sh_departed s)).1)); [apply counts_events|].
  destruct request_id as [|p]; [done|].
  destruct completion as [[] []|e]; simpl; rewrite Pos.eqb_refl; simpl; lia.
Qed.

Lemma refuse_leave_counts request_id group_key message n :
  counts request_id (refuse_leave request_id group_key message) n (S n).
Proof. unfold refuse_leave, update. apply counts_op; [done|]. intros s. by apply counts_emit. Qed.

Lemma leave_counts local_aci auth request_id group_key :
  request_id ≠ 0%N → counts request_id (leave_group_command local_aci auth request_id group_key) 0 1.
Proof.
  intros Hid. unfold leave_group_command. destruct (negb auth); [apply refuse_leave_counts|].
  assert (Hrefuse : ∀ message, counts request_id
    (_ ← refuse_leave request_id group_key message; perform OpUnlockGroups) 0 1).
  { intros. eapply counts_bind; [apply refuse_leave_counts|]. intros. by apply counts_silent. }
  apply counts_op; [done|]. intros []. eapply counts_bind; [apply counts_silent, resolve_silent|].
  intros [[kg|]|e]; [|apply Hrefuse..]. apply counts_op; [done|]. intros [outcome|e].
  - eapply counts_bind; [by apply complete_leave_counts|]. intros []. apply counts_op; [done|]. intros [].
    apply counts_op; [done|]. intros s. unfold expedite_outbox_messages. apply counts_op; [done|]. intros r.
    eapply counts_bind; [apply counts_silent; destruct r; [done|by apply emit_error_silent]|]. intros [].
    by apply counts_silent, retry_outbox_silent.
  - eapply counts_bind; [by apply complete_leave_counts|]. intros []. by apply counts_silent.
Qed.

(** ** Sends *)

(** A new message that ends well was accepted. *)
Lemma enqueue_accepted local_aci request h :
  wp end_spec (enqueue_and_send local_aci request)
    (λ r h', r = Ok tt → Exists (λ e, send_accepted e = true) h') h.
Proof.
  unfold enqueue_and_send, enqueue_outbox_message. apply end_perform. intros ts. apply end_perform.
  intros [id|e]; [|done]. cbn [try_ map_err]. eapply wp_call; [apply attempt_wp, end_allows|].
  intros res h1 (t&->&_&Ht). eapply wp_call; [apply end_only_ops, mark_result_quiet|].
  intros [] h2 (t2&->&_). eapply wp_call; [apply end_only_ops, finish_ops|].
  intros finished h3 (t3&->&_). destruct res as [sent|e]; [|done]. intros _.
  do 2 (apply Exists_app; left). apply Exists_app. by right.
Qed.

Lemma report_counts request_id group r h :
  wp end_spec (report_request request_id group r)
    (λ _ h', extends (λ _, True) h h' ∧
       answer_count request_id h' = answer_count request_id h + match r with Ok _ => 0 | Err _ => 1 end) h.
Proof.
  destruct r as [[]|e]; [split; [apply extends_refl|lia]|].
  apply wp_and; [apply end_only_ops; unfold report_request; solve_only_ops|]. rewrite Nat.add_1_r.
  unfold report_request. destruct (should_retry e), group; by apply counts_emit.
Qed.

(** The result of a send, then its report. *)
Lemma report_answered request_id group (p : proc (result unit OutboxAttemptError)) :
  only_ops (silent request_id) p →
  wp end_spec p (λ r h, r = Ok tt → Exists (λ e, send_accepted e = true) h) [] →
  wp end_spec (p ≫= report_request request_id group)
    (λ _ h, answer_count request_id h = 0 ∧ Exists (λ e, send_accepted e = true) h ∨
            answer_count request_id h = 1) [].
Proof.
  intros Hs Hp. eapply wp_call; [apply (wp_and _ _ _ _ _ (end_only_ops _ _ _ Hs) Hp)|].
  intros r h [He Ha]. eapply wp_mono; [|apply report_counts]. intros _ h' [(t&->&_) Hc].
  rewrite (silent_count _ _ _ He) in Hc. destruct r as [[]|e]; simpl in Hc; [left|by right].
  split; [done|]. apply Exists_app. left. by apply Ha.
Qed.

Lemma send_transient_answered request_id recipient body :
  request_id ≠ 0%N →
  wp end_spec (send_transient request_id recipient body)
    (λ _ h, answer_count request_id h = 0 ∧ Exists (λ e, send_accepted e = true) h ∨
            answer_count request_id h = 1) [].
Proof.
  intros Hid. unfold send_transient.
  assert (Hfail : ∀ e h, answer_count request_id h = 0 →
    wp end_spec (emit (transient_request_error request_id e)) (λ _ h,
      answer_count request_id h = 0 ∧ Exists (λ e, send_accepted e = true) h ∨ answer_count request_id h = 1) h).
  { intros e h Hh. eapply wp_mono; [|by apply (counts_emit request_id _ 0)]. intros. by right. }
  destruct (parse_recipient recipient) as [rc|]; [|by apply Hfail].
  apply wp_bind, end_perform. intros ts. split; [done|]. intros r _. split; [done|].
  destruct r as [[]|e]; [|by apply Hfail]. left. split; [done|].
  apply Exists_app. right. by apply Exists_cons_hd.
Qed.

Lemma handle_command_answered local_aci auth command :
  command_request_id command ≠ 0%N →
  wp end_spec (handle_command local_aci auth command) (λ _ h, answered_ok command h) [].
Proof.
  intros Hid. destruct command as [id rc m|id gk m|id gk|id|id rc ty|id rc|id rc|id rc|id rc ts];
    simpl in Hid; simpl handle_command.
  - apply report_answered; (destruct (parse_recipient rc); [|done]);
      [by apply enqueue_silent|apply enqueue_accepted].
  - apply report_answered; destruct (negb auth); try done.
    + apply only_ops_bind; [apply resolve_silent|]. intros [[kg|]|e]; [by apply enqueue_silent|done..].
    + eapply wp_call; [apply end_only_ops, (resolve_silent id)|].
      intros [[kg|]|e] h _; [apply enqueue_accepted|done..].
  - by apply leave_counts.
  - done.
  - by apply send_transient_answered.
  - refine ((_ : counts id (accept_identity_command local_aci auth id rc) 0 1) [] eq_refl).
    unfold accept_identity_command, accept_identity_change, expedite_outbox_messages.
    apply counts_op; [done|]. intros [[]|e]; [|by apply counts_emit..].
    apply counts_op; [done|]. intros r.
    eapply counts_bind; [apply counts_silent; destruct r; [done|by apply emit_error_silent]|]. intros [].
    eapply counts_bind; [by apply counts_emit|]. intros []. by apply counts_silent, retry_outbox_silent.
  - refine ((_ : counts id (dismiss_identity_command id rc) 0 1) [] eq_refl).
    apply counts_op; [done|]. intros [[]|e]; by apply counts_emit.
  - refine ((_ : counts id (reset_session_command id rc) 0 1) [] eq_refl). unfold reset_session_command.
    destruct (parse_recipient rc) as [r|]; [|by apply counts_emit].
    apply counts_op; [done|]. intros [[]|e]; by apply counts_emit.
  - by apply send_transient_answered.
Qed.

(** C16. A command that runs to its end is answered: accepting or dismissing
    an identity, resetting a session and leaving a group emit exactly one
    event with the request's number; a message, receipt or typing notice at
    most one, and none only when the network accepted it. *)
Theorem command_answered local_aci auth command t :
  command_request_id command ≠ 0%N → exec (handle_command local_aci auth command) t (Done tt) →
  answered_ok command t.
Proof.
  intros Hid Hex. apply (end_sound _ _ _ _ (handle_command_answered local_aci auth command Hid) Hex).
Qed.

(** ** Leaving a group *)

(** The network accepted a leave. *)
Definition leave_accepted (e : entry) : bool :=
  match e with
  | existT o r =>
      match o return backend_resp o → bool with OpLeaveGroup _ => λ r, is_ok r | _ => λ _, false end r
  end.

Definition reports_left (e : entry) : bool :=
  match entry_op e with OpEmit ev => (ev_kind ev =? EVENT_GROUP_LEFT)%N | _ => false end.

(** What happened so far: the leave state was changed by [f]; [b] says whether
    the network accepted the leave, and whether that was reported. *)
Definition leave_effect (f : GroupLeaveState → GroupLeaveState) (accepted reported : bool) (h : list entry) : Prop :=
  (∀ s, sh_departed (apply_updates s h) = f (sh_departed s)) ∧
  existsb leave_accepted h = accepted ∧ existsb reports_left h = reported.

(** Operations without such an effect. *)
Definition bystander (o : backend_op) : Prop :=
  match o with
  | OpUpdate f => ∀ s, sh_departed (f s) = sh_departed s
  | OpLeaveGroup _ => False
  | OpEmit ev => ev_kind ev ≠ EVENT_GROUP_LEFT
  | _ => True
  end.

Lemma apply_updates_snoc s h (e : entry) :
  apply_updates s (h ++ [e]) = match entry_op e with OpUpdate f => f (apply_updates s h) | _ => apply_updates s h end.
Proof. unfold apply_updates. by rewrite foldl_app. Qed.

Lemma existsb_snoc {A} (f : A → bool) l x : existsb f (l ++ [x]) = existsb f l || f x.
Proof. rewrite existsb_app. simpl. by rewrite orb_false_r. Qed.

Lemma bystander_effect f a b h h' : extends bystander h h' → leave_effect f a b h → leave_effect f a b h'.
Proof.
  intros (t&->&Ht). revert h. induction Ht as [|e t He Ht IH]; intros h Hh; [by rewrite app_nil_r|].
  rewrite cons_middle, app_assoc. apply IH. destruct Hh as (Hf&Ha&Hb). split_and!.
  - intros s. rewrite apply_updates_snoc. destruct e as [o r]. unfold entry_op in *. simpl in *.
    destruct o; try done. by rewrite He.
  - rewrite existsb_snoc, Ha. destruct e as [o r]. simpl in *. destruct o; try done; by rewrite orb_false_r.
  - rewrite existsb_snoc, Hb. destruct e as [o r]. unfold entry_op, reports_left in *. simpl in *.
    destruct o; simpl; rewrite ?orb_false_r; try done. apply N.eqb_neq in He as ->. by rewrite orb_false_r.
Qed.

Lemma bystander_wp {A} (p : proc A) f a b h :
  only_ops bystander p → leave_effect f a b h → wp end_spec p (λ _ h', leave_effect f a b h') h.
Proof.
  intros Hp Hh. eapply wp_mono; [|by apply end_only_ops]. intros x h' He.
  eapply bystander_effect; [exact He|done].
Qed.

Lemma wp_bystander {A B} (p : proc A) (k : A → proc B) f a b Q h :
  only_ops bystander p → leave_effect f a b h →
  (∀ x h', leave_effect f a b h' → wp end_spec (k x) Q h') → wp end_spec (p ≫= k) Q h.
Proof. intros Hp Hh Hk. eapply wp_call; [by apply bystander_wp|done]. Qed.

Lemma outbox_bystander o : outbox_program_op o → bystander o.
Proof.
  destruct o; try done.
  - by intros [text ->].
  - by intros [->|(?&?&->)].
Qed.

Lemma resolve_bystander local_aci identifier :
  only_ops bystander (resolve_active_group_for_leave local_aci identifier).
Proof.
  eapply only_ops_mono; [|apply resolve_ops]. intros o Ho. by apply outbox_bystander, group_read_outbox_program.
Qed.

(** The state a leave of [group_key] settles to. *)
Definition settled (accepted : bool) (group_key : string) : GroupLeaveState → GroupLeaveState :=
  if accepted then mark_departed group_key else cancel_leave group_key.

Definition leave_done (group_key : string) (h : list entry) : Prop :=
  ∃ b, leave_effect (settled b group_key) b b h.

Lemma refuse_leave_effect request_id group_key message h :
  leave_effect id false false h →
  wp end_spec (refuse_leave request_id group_key message)
    (λ _ h', leave_effect (settled false group_key) false false h') h.
Proof.
  intros (Hf&Ha&Hb). apply end_perform. intros s. split; [done|]. intros [] _. split; [done|].
  split_and!; [|rewrite !existsb_snoc; simpl; by rewrite ?Ha, ?Hb..].
  intros s'. rewrite !apply_updates_snoc. simpl. by rewrite Hf.
Qed.

Lemma emit_all_effect (evs : list Event) f a b h :
  leave_effect f a b h →
  wp end_spec (for_each evs tt (λ _ e, emit e))
    (λ _ h', leave_effect f a (b || existsb (λ e, ev_kind e =? EVENT_GROUP_LEFT)%N evs) h') h.
Proof.
  revert b h. induction evs as [|ev evs IH]; intros b h Hh; cbn [for_each existsb]; [by rewrite orb_false_r|].
  apply end_perform. intros []. rewrite orb_assoc. apply IH. destruct Hh as (Hf&Ha&Hb).
  split_and!; [intros s; rewrite apply_updates_snoc; apply Hf|by rewrite existsb_snoc, Ha, orb_false_r|].
  by rewrite existsb_snoc, Hb.
Qed.

Lemma complete_leave_effect request_id group_key completion a h :
  leave_effect id a false h → a = (if completion is LeaveAccepted _ _ then true else false) →
  wp end_spec (complete_leave request_id group_key completion)
    (λ _ h', leave_effect (settled a group_key) a a h') h.
Proof.
  intros (Hf&Ha&Hb) Hacc. unfold complete_leave, update. apply end_perform. intros s. set (h1 := h ++ _).
  assert (H1 : leave_effect (settled a group_key) a false h1).
  { unfold h1. split_and!; [|rewrite existsb_snoc, ?Ha, ?Hb; simpl; by rewrite ?orb_false_r..].
    intros s'. rewrite apply_updates_snoc. simpl. rewrite Hf, Hacc. by destruct completion. }
  eapply wp_mono; [|by apply emit_all_effect]. intros [] h' Hh'.
  replace a with (false || existsb (λ e, ev_kind e =? EVENT_GROUP_LEFT)%N
    (group_leave_completion_events request_id group_key completion (sh_departed s)).1) at 3; [done|].
  subst a. by destruct completion as [[] []|].
Qed.

Lemma leave_group_effect local_aci auth request_id group_key :
  wp end_spec (leave_group_command local_aci auth request_id group_key) (λ _ h, leave_done group_key h) [].
Proof.
  assert (H0 : leave_effect id false false []) by done.
  unfold leave_group_command. destruct (negb auth).
  { eapply wp_mono; [|by apply refuse_leave_effect]. intros. by exists false. }
  eapply wp_bystander; [done|exact H0|]. intros [] h1 H1.
  assert (Hrefuse : ∀ message h, leave_effect id false false h → wp end_spec
    (_ ← refuse_leave request_id group_key message; perform OpUnlockGroups) (λ _ h, leave_done group_key h) h).
  { intros message h Hh. eapply wp_call; [by apply refuse_leave_effect|]. intros [] h' Hh'.
    eapply wp_mono; [|by eapply bystander_wp]. intros. by exists false. }
  eapply wp_bystander; [apply resolve_bystander|exact H1|]. intros [[kg|]|e] h2 H2; [|by apply Hrefuse..].
  apply end_perform. intros r.
  assert (H3 : leave_effect id (is_ok r) false (h2 ++ [answered (Sig := backend_sig) (OpLeaveGroup kg.1) r])).
  { destruct H2 as (Hf&Ha&Hb). split_and!; [|rewrite existsb_snoc; simpl; by rewrite ?Ha, ?Hb..].
    intros s. rewrite apply_updates_snoc. apply Hf. }
  destruct r as [outcome|e]; (eapply wp_call; [by eapply complete_leave_effect|]); intros [] h3 H4.
  - eapply wp_bystander; [done|exact H4|]. intros [] h5 H5.
    eapply wp_bystander; [by split|exact H5|]. intros s h6 H6.
    eapply wp_bystander; [done|exact H6|]. intros r h7 H7.
    eapply wp_bystander; [|exact H7|]; [by destruct r|]. intros [] h8 H8.
    eapply wp_mono; [|eapply bystander_wp; [|exact H8]]; [intros; by exists true|].
    eapply only_ops_mono; [apply outbox_bystander|apply retry_outbox_ops].
  - eapply wp_mono; [|by eapply bystander_wp]. intros. by exists false.
Qed.

(** C17. A request to leave a group that runs to its end settles the group:
    it is departed if the network accepted the leave (which is exactly when
    GROUP_LEFT is reported) or if it was departed before, and otherwise it is
    active again; it never stays half left.  Other groups are not touched. *)
Theorem leave_never_half_done local_aci auth request_id group_key t s j :
  exec (handle_command local_aci auth (LeaveGroup request_id group_key)) t (Done tt) →
  existsb reports_left t = existsb leave_accepted t ∧
  departure_state j (sh_departed (apply_updates s t)) =
    if decide (j = group_key) then
      if existsb leave_accepted t || is_departed group_key (sh_departed s) then Departed else Active
    else departure_state j (sh_departed s).
Proof.
  intros Hex. destruct (end_sound _ _ _ _ (leave_group_effect local_aci auth request_id group_key) Hex)
    as (b&Hf&->&->). split; [done|]. rewrite Hf. unfold settled, is_departed.
  destruct b; simpl; rewrite ?departure_state_departed, ?departure_state_cancel; [done|].
  case_decide as Hj; [|done]. subst j. by repeat case_decide; case_bool_decide.
Qed.

End Answers.

(** ** Runs *)

Lemma command_answered_witness :
  let command := SendMessage 4 "friend" "hello" in
  answered_ok (Ids := string_ids) command
    (run (Sig := @backend_sig string_ids) calm_world
       (handle_command (Ids := string_ids) (Dig := plain_digests) (Enums := proto_numbers) "me" true command) []).1.
Proof.
  apply (command_answered (Ids := string_ids) (Dig := plain_digests) (Enums := proto_numbers) "me" true); [done|].
  exact (run_exec (Sig := @backend_sig string_ids) calm_world
    (handle_command (Ids := string_ids) (Dig := plain_digests) (Enums := proto_numbers) "me" true
       (SendMessage 4 "friend" "hello")) []).
Defined.

Lemma leave_never_half_done_witness :
  let key := replicate 32 Byte.x67 in
  let g := mkGroup (Ids := string_ids) "friends" "" 3 [mkMember (Ids := string_ids) "me" false] in
  let id := group_identifier (Dig := plain_digests) key in
  let t := (run (Sig := @backend_sig string_ids) (group_world (Ids := string_ids) key g)
    (handle_command (Ids := string_ids) (Dig := plain_digests) (Enums := proto_numbers) "me" true
       (LeaveGroup 4 id)) []).1 in
  departure_state id (sh_departed (apply_updates (Ids := string_ids)
    (on_departed (begin_leave id) shared_default) t)) = Departed.
Proof.
  pose proof (leave_never_half_done (Ids := string_ids) (Dig := plain_digests) (Enums := proto_numbers)
    "me" true 4 (group_identifier (Dig := plain_digests) (replicate 32 Byte.x67)) _
    (on_departed (begin_leave (group_identifier (Dig := plain_digests) (replicate 32 Byte.x67))) shared_default)
    (group_identifier (Dig := plain_digests) (replicate 32 Byte.x67))
    (run_exec (Sig := @backend_sig string_ids)
       (group_world (Ids := string_ids) (replicate 32 Byte.x67)
          (mkGroup (Ids := string_ids) "friends" "" 3 [mkMember (Ids := string_ids) "me" false]))
       (handle_command (Ids := string_ids) (Dig := plain_digests) (Enums := proto_numbers) "me" true
          (LeaveGroup 4 (group_identifier (Dig := plain_digests) (replicate 32 Byte.x67)))) [])) as [_ H].
  exact H.
Defined.
