(* ===== verification/Content.v ===== *)
(** * Content: received messages become events

    Models, from [rust/signal-core/src/backend/coordinator.rs], the routing and
    text of a data message, the download and transcoding of its attachments,
    [emit_data_message] and [handle_content].  Strings are UTF-8 bytes; the
    object replacement character U+FFFC is the bytes EF BF BC. *)
From Stdlib Require Import Strings.Ascii.
From S2P Require Import Prelude Event Session GroupState StoreErrors SignalTypes Media.
From S2P Require Import Effects Backend Repository Groups ProjectionState.

(** ** Targets *)

Inductive GroupMessageTarget :=
| TargetDirect
| TargetGroup (key : list byte)
| TargetMalformed.

Definition group_message_target (message : DataMessage) : GroupMessageTarget :=
  match dm_group_v2 message with
  | None => TargetDirect
  | Some group =>
      match gc_master_key group ≫= master_key_of with
      | Some key => TargetGroup key
      | None => TargetMalformed
      end
  end.

(** ** Text *)

(** [range.associated_value] as mentions, in order. *)
Definition mentions_of (body_ranges : list BodyRange) : list string := omap br_mention_aci body_ranges.

Definition object_replacement : string :=
  String "239"%char (String "191"%char (String "188"%char "")).

(** The loop over the characters of the body. *)
Fixpoint replace_mentions (body : string) (mentions : list string) : string :=
  match body with
  | "" => ""
  | String c1 rest1 =>
      match rest1 with
      | String c2 (String c3 rest) =>
          if bool_decide (c1 = "239"%char) && bool_decide (c2 = "191"%char) && bool_decide (c3 = "188"%char) then
            match mentions with
            | aci :: mentions => "@" +:+ aci +:+ replace_mentions rest mentions
            | [] => "@" +:+ replace_mentions rest []
            end
          else String c1 (replace_mentions rest1 mentions)
      | _ => String c1 (replace_mentions rest1 mentions)
      end
  end.

Definition format_body_with_mentions (body : string) (body_ranges : list BodyRange) : string :=
  let mentions := mentions_of body_ranges in
  if bool_decide (mentions = []) || negb (contains body object_replacement) then body
  else replace_mentions body mentions.

(** [str::lines]: pieces that end with a line feed, without it and without a
    carriage return before it; the last piece as it is. *)
Fixpoint split_inclusive (s : string) : list string :=
  match s with
  | "" => []
  | String c rest =>
      if bool_decide (c = "010"%char) then String c "" :: split_inclusive rest
      else match split_inclusive rest with
           | [] => [String c ""]
           | piece :: pieces => String c piece :: pieces
           end
  end.

Definition strip_suffix (suffix : Ascii.ascii) (s : string) : option string :=
  match rev (String.list_ascii_of_string s) with
  | c :: l => if bool_decide (c = suffix) then Some (String.string_of_list_ascii (rev l)) else None
  | [] => None
  end.

Definition lines (s : string) : list string :=
  (λ piece, match strip_suffix "010" piece with
            | None => piece
            | Some line => default line (strip_suffix "013" line)
            end) <$> split_inclusive s.

Definition preview_text (preview : Preview) : option string :=
  match non_empty (pv_url preview) with
  | Some url => Some url
  | None =>
      match non_empty (pv_title preview) with
      | Some title => Some title
      | None => non_empty (pv_description preview)
      end
  end.

Definition message_body_text (message : DataMessage) : string :=
  match non_empty (dm_body message) with
  | Some body => format_body_with_mentions body (dm_body_ranges message)
  | None => default "" (head (omap preview_text (dm_preview message)))
  end.

Definition quote_text (message : DataMessage) : option string :=
  quote ← dm_quote message; non_empty (qt_text quote).

Definition data_message_text (message : DataMessage) : string :=
  if dm_delete message then "[Message deleted by sender]"
  else if default false (dm_is_view_once message) then
    match non_empty (dm_body message) with
    | Some body => "[View-once media: open on primary phone] " +:+ body
    | None => "[View-once media: open on primary phone]"
    end
  else
    match dm_reaction message ≫= re_emoji with
    | Some emoji => "Reacted with " +:+ emoji
    | None =>
        let formatted_body := message_body_text message in
        match quote_text message with
        | Some quote =>
            let quoted := join_with (String "010"%char "") ((λ line, "> " +:+ line) <$> lines quote) in
            if is_empty formatted_body then quoted
            else quoted +:+ String "010"%char (String "010"%char "") +:+ formatted_body
        | None => formatted_body
        end
    end.

Definition regular_message_attachments (message : DataMessage) : list AttachmentPointer :=
  if default false (dm_is_view_once message) then [] else dm_attachments message.

Definition attachment_pointer_without_sender_size_hint (attachment : AttachmentPointer) : AttachmentPointer :=
  mkAttachmentPointer (ap_content_type attachment) None (ap_file_name attachment)
    (ap_flags attachment) (ap_rest attachment).

Definition truncate_attachment_to_sender_size (attachment : AttachmentPointer) (data : list byte) : list byte :=
  match ap_size attachment with
  | Some size => take (N.to_nat size) data
  | None => data
  end.

(** The text with a placeholder line per attachment that is not suppressed. *)
Definition projected_data_message_text (text : string) (attachments : list (option string * bool))
  : option string :=
  let text := foldl (λ text '(name, suppress_placeholder),
    if suppress_placeholder : bool then text
    else (if is_empty text then "" else text +:+ String "010"%char "")
         +:+ "[Attachment: " +:+ default "attachment" name +:+ "]") text attachments in
  if is_empty text then None else Some text.

Section Content.
Context `{Ids : SignalIds} `{Dig : Digests} `{Enums : ProtoEnums}.

(** ** Routes *)

Record BareDataMessageRoute := mkRoute {
  route_peer : string;
  route_outgoing : bool;
}.

Definition bare_data_message_route (sender destination : ServiceId) (local_aci : Aci) : BareDataMessageRoute :=
  let outgoing := bool_decide (sender = ServiceId_Aci local_aci) in
  mkRoute (service_id_string (if outgoing then destination else sender)) outgoing.

Definition group_message_peer (outgoing : bool) (peer : string) (local_aci : Aci) : string :=
  if outgoing then service_id_string (ServiceId_Aci local_aci) else peer.

Definition content_timestamp (content : Content) : N :=
  let client := i64_as_u64 (md_client_timestamp (ct_metadata content)) in
  match ct_body content with
  | BodyData m => default client (dm_timestamp m)
  | BodyEdit m => default client (em_target_sent_timestamp m)
  | BodySyncSent sent => default client (st_timestamp sent)
  | _ => client
  end.

Record DataMessageProjection := mkDataProjection {
  dp_message : DataMessage;
  dp_peer : string;
  dp_outgoing : bool;
  dp_timestamp : N;
  dp_delivery_id : N;
}.

(** ** Attachments of a message *)

Definition too_large : string := "Could not download a Signal attachment: attachment exceeds 50 MiB limit".

(** One iteration of the download loop. *)
Definition download_attachment (downloaded : list DownloadedAttachment) (ia : nat * AttachmentPointer)
  : proc (list DownloadedAttachment) :=
  let attachment := ia.2 in
  if (MAX_ATTACHMENT_SIZE_BYTES <? default 0 (ap_size attachment))%N then
    _ ← emit (error too_large false); Ret downloaded
  else
    r ← perform (OpGetAttachment (attachment_pointer_without_sender_size_hint attachment));
    match r with
    | Ok data =>
        let data := truncate_attachment_to_sender_size attachment data in
        if (MAX_ATTACHMENT_SIZE_BYTES <? len data)%N then
          _ ← emit (error too_large false); Ret downloaded
        else if (len data =? 0)%N then
          _ ← emit (error "Could not download a Signal attachment: decrypted attachment was empty" false);
          Ret downloaded
        else Ret (downloaded ++ [downloaded_new (N.of_nat ia.1) attachment data])
    | Err e => _ ← emit (error ("Could not download a Signal attachment: " +:+ e) false); Ret downloaded
    end.

Definition download_attachments (outgoing : bool) (attachments : list AttachmentPointer)
  : proc (list DownloadedAttachment) :=
  if outgoing then Ret []
  else
    _ ← (if (MAX_ATTACHMENT_DOWNLOADS_PER_MESSAGE <? len attachments)%N then
           emit (error ("Ignored " +:+ show_N (len attachments - MAX_ATTACHMENT_DOWNLOADS_PER_MESSAGE)
             +:+ " Signal attachments beyond the per-message limit of "
             +:+ show_N MAX_ATTACHMENT_DOWNLOADS_PER_MESSAGE) false)
         else Ret tt);
    for_each (take (N.to_nat MAX_ATTACHMENT_DOWNLOADS_PER_MESSAGE) (imap pair attachments)) []
      download_attachment.

(** The transcoding loop, with the number of transcodes so far. *)
Fixpoint transcode_downloads (signal_gif_transcodes : N) (downloaded : list DownloadedAttachment)
  : proc (list DownloadedAttachment) :=
  match downloaded with
  | [] => Ret []
  | attachment :: rest =>
      if (MAX_SIGNAL_GIF_TRANSCODES_PER_MESSAGE <=? signal_gif_transcodes)%N then Ret downloaded
      else match signal_gif_filename attachment with
           | None => rest ← transcode_downloads signal_gif_transcodes rest; Ret (attachment :: rest)
           | Some _ =>
               gif ← perform (OpTranscode (da_data attachment));
               let attachment := match gif with
                                 | Some gif => (apply_signal_gif gif attachment).2
                                 | None => attachment
                                 end in
               rest ← transcode_downloads (signal_gif_transcodes + 1) rest;
               Ret (attachment :: rest)
           end
  end.

Definition inline_attachment_indexes (outgoing : bool) (downloaded : list DownloadedAttachment) : gset N :=
  list_to_set (omap (λ d : DownloadedAttachment,
    if should_inline_image outgoing (da_content_type d) (Some (da_data d))
    then Some (attachment_index d) else None) downloaded).

(** ** One data message *)

(** The title of the active group, or where the projection ends. *)
Definition projection_group_title (local_aci : Aci) (group_key : option (list byte))
  : proc (result (option string) ProjectionDisposition) :=
  match group_key with
  | None => Ret (Ok None)
  | Some key =>
      r ← group_for_projection local_aci key;
      match r with
      | Ok (ProjectionActive group) => Ret (Ok (Some (gr_title group)))
      | Ok ProjectionComplete => Ret (Err Complete)
      | Ok ProjectionRetry => Ret (Err Retry)
      | Err e => _ ← emit (error e false); Ret (Err Retry)
      end
  end.

Definition message_event (local_aci : Aci) (p : DataMessageProjection) (delivery_id : N)
  (group : option (list byte)) (title : option string) (text : string) : Event :=
  let flags := if dp_outgoing p then FLAG_OUTGOING else 0%N in
  match group with
  | Some key =>
      mkEvent EVENT_GROUP_MESSAGE flags delivery_id (dp_timestamp p) 0
        (Some (group_message_peer (dp_outgoing p) (dp_peer p) local_aci))
        (Some (group_identifier key)) title (Some text) []
  | None =>
      mkEvent EVENT_MESSAGE flags delivery_id (dp_timestamp p) 0 (Some (dp_peer p)) None None (Some text) []
  end.

Definition attachment_event (p : DataMessageProjection) (delivery_id : N) (group : option (list byte))
  (d : DownloadedAttachment) : Event :=
  mkEvent EVENT_ATTACHMENT 0 delivery_id (dp_timestamp p) 0 (Some (dp_peer p))
    (group_identifier <$> group) (Some (da_filename d)) (da_content_type d) (da_data d).

(** The last event of a message carries the delivery number. *)
Definition emit_projected (local_aci : Aci) (p : DataMessageProjection) (group : option (list byte))
  (title : option string) (text : option string) (downloaded : list DownloadedAttachment) : proc unit :=
  let message_delivery_id := if bool_decide (downloaded = []) then dp_delivery_id p else 0%N in
  _ ← (match text with
       | Some text => emit (message_event local_aci p message_delivery_id group title text)
       | None => Ret tt
       end);
  for_each (imap pair downloaded) tt (λ _ id,
    emit (attachment_event p (if bool_decide (id.1 + 1 = length downloaded) then dp_delivery_id p else 0%N)
            group id.2)).

(** The part of [emit_data_message] after the group was found active. *)
Definition project_message (local_aci : Aci) (p : DataMessageProjection) (group_key : option (list byte))
  (title : option string) : proc unit :=
  let text := data_message_text (dp_message p) in
  let attachments := regular_message_attachments (dp_message p) in
  downloaded ← download_attachments (dp_outgoing p) attachments;
  downloaded ← transcode_downloads 0 downloaded;
  let inline := inline_attachment_indexes (dp_outgoing p) downloaded in
  let text := projected_data_message_text text
    (imap (λ i a, (Some (attachment_display_name a), bool_decide (N.of_nat i ∈ inline))) attachments) in
  emit_projected local_aci p group_key title text downloaded.

Definition emit_data_message (local_aci : Aci) (p : DataMessageProjection) : proc ProjectionDisposition :=
  let message := dp_message p in
  match group_message_target message with
  | TargetMalformed =>
      _ ← emit (error "Ignored a Signal group message with a missing or malformed group master key" false);
      Ret Complete
  | target =>
      let text := data_message_text message in
      let attachments := regular_message_attachments message in
      if is_empty text && bool_decide (attachments = []) then Ret Complete
      else
        let group_key := match target with TargetGroup key => Some key | _ => None end in
        title ← projection_group_title local_aci group_key;
        match title with
        | Err disposition => Ret disposition
        | Ok title => _ ← project_message local_aci p group_key title; Ret AwaitingAck
        end
  end.

(** ** Received content *)

(** A delivery receipt owed to the sender; an overflow is reported once. *)
Definition enqueue_receipt (content : Content) (timestamp : N) : proc unit :=
  if md_needs_receipt (ct_metadata content) then
    send_timestamp ← perform OpNextTimestamp;
    limit_reached ← with_projection (λ p,
      let r := receipts_enqueue (md_sender (ct_metadata content)) timestamp send_timestamp
                 (mp_delivery_receipts p) in
      (r.1, set_receipts r.2 p));
    if limit_reached : bool then
      emit (transient_error "Signal delivery-receipt backlog limit reached; excess receipts were discarded")
    else Ret tt
  else Ret tt.

Definition bare_projection (content : Content) (local_aci : Aci) (message : DataMessage)
  (timestamp delivery_id : N) : DataMessageProjection :=
  let route := bare_data_message_route (md_sender (ct_metadata content))
                 (md_destination (ct_metadata content)) local_aci in
  mkDataProjection message (route_peer route) (route_outgoing route) timestamp delivery_id.

(** A message sent from another device of the account. *)
Definition sent_projection (content : Content) (sent : Sent) (message : DataMessage)
  (timestamp delivery_id : N) : DataMessageProjection :=
  let peer := match st_destination sent with
              | Some id => service_id_string id
              | None => service_id_string (md_sender (ct_metadata content))
              end in
  mkDataProjection message peer true timestamp delivery_id.

Definition handle_content (local_aci : Aci) (content : Content) (delivery_id : N)
  : proc ProjectionDisposition :=
  let timestamp := content_timestamp content in
  let sender := service_id_string (md_sender (ct_metadata content)) in
  match ct_body content with
  | BodyData message =>
      disposition ← emit_data_message local_aci
        (bare_projection content local_aci message timestamp delivery_id);
      _ ← enqueue_receipt content timestamp;
      Ret disposition
  | BodyEdit (mkEditMessage _ (Some message)) =>
      emit_data_message local_aci (bare_projection content local_aci message timestamp delivery_id)
  | BodySyncSent sent =>
      match st_message sent, st_edit_message sent with
      | Some message, _ | None, Some (mkEditMessage _ (Some message)) =>
          emit_data_message local_aci (sent_projection content sent message timestamp delivery_id)
      | None, _ => Ret Complete
      end
  | BodyTyping (mkTypingMessage ts action None) =>
      _ ← emit (mkEvent EVENT_TYPING 0 0 (default timestamp ts)
                  (if bool_decide (action = Some ACTION_STARTED) then 1 else 0) (Some sender) None None None []);
      Ret Complete
  | BodyReceipt message =>
      _ ← emit (mkEvent EVENT_RECEIPT 0 0 (default timestamp (head (rm_timestamp message)))
                  (default 0%Z (rm_type message)) (Some sender) None None None []);
      Ret Complete
  | BodyDecryptionError =>
      _ ← emit (error ("A message from " +:+ sender +:+ " could not be decrypted") false);
      Ret Complete
  | _ => Ret Complete
  end.

End Content.
