(* ===== verification/Delivery.v ===== *)
(** * Delivery: what a received message emits and fetches

    Theorems of [Content]: a message that waits for an acknowledgment is
    emitted in full, and only its last event carries the delivery number; what
    a sender can make the backend download and transcode is bounded; mentions
    are put in place. *)
From Stdlib Require Import Strings.Ascii.
From S2P Require Import Prelude Event Session GroupState StoreErrors SignalTypes Media.
From S2P Require Import Effects Backend Repository Groups ProjectionState Content.

Section Delivery.
Context `{Ids : SignalIds} `{Dig : Digests} `{Enums : ProtoEnums}.

(** ** The events of a projected message *)

Definition emitted (ev : Event) : entry := answered (Sig := backend_sig) (OpEmit ev) tt.

Definition is_message_kind (kind : N) : bool :=
  (kind =? EVENT_MESSAGE)%N || (kind =? EVENT_GROUP_MESSAGE)%N || (kind =? EVENT_ATTACHMENT)%N.

(** Operations that emit no part of a message and nothing to acknowledge. *)
Definition plain_op (delivery_id : N) (o : backend_op) : Prop :=
  match o with
  | OpEmit ev => ev_request_id ev ≠ delivery_id ∧ is_message_kind (ev_kind ev) = false
  | _ => True
  end.

Definition plain (delivery_id : N) (e : entry) : Prop := plain_op delivery_id (entry_op e).

(** [emit_projected] as a list of events. *)
Definition projected_events (local_aci : Aci) (p : DataMessageProjection) (group : option (list byte))
  (title text : option string) (downloaded : list DownloadedAttachment) : list Event :=
  match text with
  | Some text =>
      [message_event local_aci p (if bool_decide (downloaded = []) then dp_delivery_id p else 0%N) group title text]
  | None => []
  end ++
  imap (λ i d, attachment_event p
    (if bool_decide (i + 1 = length downloaded) then dp_delivery_id p else 0%N) group d) downloaded.

Lemma emit_each_wp {A} (l : list A) (f : A → Event) h :
  wp end_spec (for_each l tt (λ _ x, emit (f x))) (λ _ h', h' = h ++ (emitted ∘ f <$> l)) h.
Proof.
  revert h. induction l as [|x l IH]; intros h; [by rewrite app_nil_r|].
  cbn [for_each]. apply end_perform. intros []. eapply wp_mono; [|apply IH].
  intros [] h' ->. by rewrite <-app_assoc.
Qed.

Lemma emit_projected_wp local_aci p group title text downloaded h :
  wp end_spec (emit_projected local_aci p group title text downloaded)
    (λ _ h', h' = h ++ (emitted <$> projected_events local_aci p group title text downloaded)) h.
Proof.
  unfold emit_projected, projected_events. rewrite fmap_app.
  assert (Hloop : ∀ h, wp end_spec (for_each (imap pair downloaded) tt (λ _ id,
    emit (attachment_event p (if bool_decide (id.1 + 1 = length downloaded) then dp_delivery_id p else 0%N)
            group id.2))) (λ _ h', h' = h ++ (emitted <$> imap (λ i d, attachment_event p
      (if bool_decide (i + 1 = length downloaded) then dp_delivery_id p else 0%N) group d) downloaded)) h).
  { intros h0. eapply wp_mono; [|apply emit_each_wp]. intros [] h' ->.
    f_equal. rewrite list_fmap_compose, fmap_imap. done. }
  destruct text as [text|]; [|apply Hloop]. apply end_perform. intros [].
  eapply wp_mono; [|apply Hloop]. intros [] h' ->. by rewrite <-app_assoc.
Qed.

(** The delivery number is on the last event and on no other. *)
Lemma projected_events_last local_aci p group title text downloaded :
  dp_delivery_id p ≠ 0%N → is_Some text ∨ downloaded ≠ [] →
  ∃ pre ev, projected_events local_aci p group title text downloaded = pre ++ [ev] ∧
    ev_request_id ev = dp_delivery_id p ∧ is_message_kind (ev_kind ev) = true ∧
    Forall (λ ev, ev_request_id ev = 0%N) pre.
Proof.
  intros Hid Hsome. unfold projected_events.
  destruct downloaded as [|d l _] using rev_ind.
  - destruct Hsome as [[t ->]|]; [|done]. rewrite app_nil_r. eexists [], _. split; [reflexivity|].
    split_and!; by destruct group.
  - rewrite imap_app, length_app. simpl.
    rewrite (bool_decide_eq_false_2 (l ++ [d] = [])) by (by destruct l).
    rewrite app_assoc. eexists _, _. split; [reflexivity|].
    rewrite bool_decide_eq_true_2 by lia. split_and!; [done..|]. apply Forall_app. split.
    + destruct text; [|done]. apply Forall_cons_2; [by destruct group|done].
    + apply Forall_forall. intros ev Hev. apply list_elem_of_lookup in Hev as [i Hi].
      rewrite list_lookup_imap in Hi. apply fmap_Some in Hi as (x&Hx&->). apply lookup_lt_Some in Hx.
      rewrite bool_decide_eq_false_2 by lia. done.
Qed.

(** ** A message without downloads has a text *)

Lemma is_empty_app a b : is_empty (a +:+ b) = is_empty a && is_empty b.
Proof. by destruct a. Qed.

Definition add_placeholder (text : string) (a : option string * bool) : string :=
  if a.2 then text
  else (if is_empty text then "" else text +:+ String "010"%char "")
       +:+ "[Attachment: " +:+ default "attachment" a.1 +:+ "]".

Lemma projected_text_fold text l :
  projected_data_message_text text l =
    let text := foldl add_placeholder text l in if is_empty text then None else Some text.
Proof.
  unfold projected_data_message_text. f_equal.
  all: revert text; induction l as [|[name []] l IH]; intros text; simpl; by rewrite ?IH.
Qed.

Lemma add_placeholder_nonempty text l : is_empty text = false → is_empty (foldl add_placeholder text l) = false.
Proof.
  revert text. induction l as [|[name []] l IH]; intros text Ht; simpl; [done|by apply IH|].
  apply IH. unfold add_placeholder. simpl. rewrite !is_empty_app. simpl. by rewrite !andb_false_r.
Qed.

Lemma projected_text_some text l :
  is_empty text = false ∨ l ≠ [] → Forall (λ a : option string * bool, a.2 = false) l →
  is_Some (projected_data_message_text text l).
Proof.
  intros Hne Hl. rewrite projected_text_fold. simpl.
  assert (is_empty (foldl add_placeholder text l) = false) as ->; [|done].
  destruct Hne as [Ht|Hne]; [by apply add_placeholder_nonempty|].
  destruct l as [|[name b] l]; [done|]. apply Forall_cons_1 in Hl as [Hb _]. simpl in *. subst b.
  apply add_placeholder_nonempty. unfold add_placeholder. simpl. rewrite !is_empty_app. simpl.
  by rewrite !andb_false_r.
Qed.

(** Transcoding keeps the downloads. *)
Lemma transcode_length n l h :
  wp end_spec (transcode_downloads n l) (λ l' _, length l' = length l) h.
Proof.
  revert n h. induction l as [|d l IH]; intros n h; simpl; [done|].
  destruct (_ <=? n)%N; [done|]. destruct (signal_gif_filename d).
  - apply end_perform. intros gif. eapply wp_call; [apply IH|]. intros l' h' Hl. simpl. by rewrite Hl.
  - eapply wp_call; [apply IH|]. intros l' h' Hl. simpl. by rewrite Hl.
Qed.

(** ** Everything else is plain *)

Lemma emit_error_plain delivery_id text :
  delivery_id ≠ 0%N → only_ops (plain_op delivery_id) (emit (error text false)).
Proof. intros Hid. split; [|done]. split; [simpl; congruence|done]. Qed.

Lemma group_title_plain delivery_id local_aci group :
  delivery_id ≠ 0%N → only_ops (plain_op delivery_id) (projection_group_title local_aci group).
Proof.
  intros Hid. destruct group as [key|]; [|done]. unfold projection_group_title.
  apply only_ops_bind; [unfold group_for_projection, read_departure, disposition_group, repo_group, update; solve_only_ops|].
  intros [[]|e]; [done..|]. apply only_ops_bind; [by apply emit_error_plain|done].
Qed.

Lemma downloads_plain delivery_id outgoing attachments :
  delivery_id ≠ 0%N → only_ops (plain_op delivery_id) (download_attachments outgoing attachments).
Proof.
  intros Hid. assert (He := λ text, emit_error_plain delivery_id text Hid).
  unfold download_attachments. destruct outgoing; [done|].
  apply only_ops_bind; [by destruct (_ <? _)%N|]. intros [].
  apply only_ops_for_each. intros l [i a]. unfold download_attachment.
  assert (Hret : ∀ text, only_ops (plain_op delivery_id) (_ ← emit (error text false); Ret l)).
  { intros text. by apply only_ops_bind. }
  destruct (_ <? _)%N; [apply Hret|]. apply only_ops_bind; [done|]. intros [data|e]; [|apply Hret].
  destruct (_ <? _)%N; [apply Hret|]. destruct (_ =? _)%N; [apply Hret|done].
Qed.

Lemma transcode_plain delivery_id n l : only_ops (plain_op delivery_id) (transcode_downloads n l).
Proof.
  revert n. induction l as [|d l IH]; intros n; simpl; [done|].
  destruct (_ <=? n)%N; [done|]. destruct (signal_gif_filename d).
  - split; [done|]. intros gif. by apply only_ops_bind.
  - by apply only_ops_bind.
Qed.

(** ** One message *)

(** The trace after [h]: plain, or ended by the one event to acknowledge. *)
Definition delivered (delivery_id : N) (d : ProjectionDisposition) (t : list entry) : Prop :=
  match d with
  | AwaitingAck =>
      ∃ pre ev post, t = pre ++ emitted ev :: post ∧
        ev_request_id ev = delivery_id ∧ is_message_kind (ev_kind ev) = true ∧
        Forall (λ e, ∀ ev, entry_op e = OpEmit ev → ev_request_id ev ≠ delivery_id) pre ∧
        Forall (plain delivery_id) post
  | _ => Forall (plain delivery_id) t
  end.

Lemma plain_not_delivery delivery_id e :
  plain delivery_id e → ∀ ev, entry_op e = OpEmit ev → ev_request_id ev ≠ delivery_id.
Proof. intros He ev Hev. unfold plain in He. rewrite Hev in He. apply He. Qed.

Lemma group_title_wp delivery_id local_aci key h :
  delivery_id ≠ 0%N →
  wp end_spec (projection_group_title local_aci key)
    (λ r h', extends (plain_op delivery_id) h h' ∧ r ≠ Err AwaitingAck) h.
Proof.
  intros Hid. apply wp_and; [by apply end_only_ops, group_title_plain|].
  destruct key as [key|]; [|done]. eapply wp_call with (R := λ _ _, True).
  - eapply wp_mono; [|apply end_only_ops, (only_ops_any _)]. done.
  - by intros [[]|e] h' _.
Qed.

(** From plain history on, the message ends with its event to acknowledge. *)
Lemma project_message_wp local_aci p key title h :
  dp_delivery_id p ≠ 0%N →
  is_empty (data_message_text (dp_message p)) && bool_decide (regular_message_attachments (dp_message p) = []) = false →
  Forall (plain (dp_delivery_id p)) h →
  wp end_spec (project_message local_aci p key title) (λ _ h', delivered (dp_delivery_id p) AwaitingAck h') h.
Proof.
  intros Hid Hne Hh. unfold project_message. set (text := data_message_text _) in *.
  set (atts := regular_message_attachments _) in *.
  eapply wp_call; [by apply end_only_ops, downloads_plain|]. intros ds0 h1 (t1&->&H1).
  eapply wp_call; [apply wp_and; [apply end_only_ops, transcode_plain|apply transcode_length]|].
  intros ds h2 [(t2&->&H2) Hlen]. set (text' := projected_data_message_text _ _).
  eapply wp_mono; [|apply emit_projected_wp]. intros [] h3 ->.
  destruct (projected_events_last local_aci p key title text' ds Hid) as (pre&ev&->&Hev&Hk&Hpre).
  { destruct ds as [|d ds]; [left|by right]. apply projected_text_some.
    - apply andb_false_iff in Hne as [Ht|Ha%bool_decide_eq_false]; [by left|right].
      intros Hi. apply Ha. apply (f_equal length) in Hi. rewrite length_imap in Hi. by destruct atts.
    - apply Forall_forall. intros a Ha. apply list_elem_of_lookup in Ha as [i Hi].
      rewrite list_lookup_imap in Hi. apply fmap_Some in Hi as (x&Hx&->). simpl.
      apply bool_decide_eq_false. apply not_elem_of_empty. }
  rewrite fmap_app. exists (((h ++ t1) ++ t2) ++ (emitted <$> pre)), ev, []. rewrite <-!app_assoc.
  split_and!; [done..| |done]. rewrite !Forall_app. split_and!.
  - eapply Forall_impl; [exact Hh|]. apply plain_not_delivery.
  - eapply Forall_impl; [exact H1|]. intros e He. by apply plain_not_delivery.
  - eapply Forall_impl; [exact H2|]. intros e He. by apply plain_not_delivery.
  - apply Forall_fmap. eapply Forall_impl; [exact Hpre|]. intros x Hx ev' [= <-]. congruence.
Qed.

Lemma emit_data_message_wp local_aci p h :
  dp_delivery_id p ≠ 0%N → Forall (plain (dp_delivery_id p)) h →
  wp end_spec (emit_data_message local_aci p) (λ d h, delivered (dp_delivery_id p) d h) h.
Proof.
  intros Hid Hh. unfold emit_data_message.
  assert (Hmain : ∀ key, is_empty (data_message_text (dp_message p)) &&
    bool_decide (regular_message_attachments (dp_message p) = []) = false →
    wp end_spec (title ← projection_group_title local_aci key;
      match title with
      | Err disposition => Ret disposition
      | Ok title => _ ← project_message local_aci p key title; Ret AwaitingAck
      end) (λ d h, delivered (dp_delivery_id p) d h) h).
  { intros key Hne. eapply wp_call; [by apply group_title_wp|]. intros [title|d] h1 [(t1&->&H1) Hd].
    - eapply wp_call; [apply project_message_wp; [done..|by apply Forall_app]|]. by intros [] h'.
    - destruct d; [done|by apply Forall_app..]. }
  destruct (group_message_target _) as [|key|].
  - destruct (is_empty _ && _) eqn:E; [done|]. by apply (Hmain None).
  - destruct (is_empty _ && _) eqn:E; [done|]. by apply (Hmain (Some key)).
  - apply end_perform. intros []. apply Forall_app. split; [done|].
    apply Forall_cons_2; [|done]. split; [simpl; congruence|done].
Qed.

Lemma delivered_app delivery_id d t t' :
  delivered delivery_id d t → Forall (plain delivery_id) t' → delivered delivery_id d (t ++ t').
Proof.
  intros Hd Ht'. destruct d; [|by apply Forall_app..].
  destruct Hd as (pre&ev&post&->&?&?&?&?). exists pre, ev, (post ++ t'). rewrite <-app_assoc.
  split_and!; [done..|by apply Forall_app].
Qed.

Lemma enqueue_receipt_plain delivery_id content timestamp :
  delivery_id ≠ 0%N → only_ops (plain_op delivery_id) (enqueue_receipt content timestamp).
Proof.
  intros Hid. unfold enqueue_receipt. destruct (md_needs_receipt _); [|done].
  apply only_ops_bind; [done|]. intros ts. apply only_ops_bind; [by apply only_ops_bind|].
  intros []; [|done]. split; [|done]. split; [simpl; congruence|done].
Qed.

(** An event that is no part of a message, and the end. *)
Lemma plain_event_wp delivery_id ev h :
  Forall (plain delivery_id) h → ev_request_id ev ≠ delivery_id → is_message_kind (ev_kind ev) = false →
  wp end_spec (_ ← emit ev; Ret Complete) (λ d h, delivered delivery_id d h) h.
Proof.
  intros Hh Hid Hk. apply end_perform. intros []. apply Forall_app. split; [done|]. by apply Forall_cons_2.
Qed.

Lemma handle_content_wp local_aci content delivery_id h :
  delivery_id ≠ 0%N → Forall (plain delivery_id) h →
  wp end_spec (handle_content local_aci content delivery_id) (λ d h, delivered delivery_id d h) h.
Proof.
  intros Hid Hh.
  assert (Hmsg : ∀ p, dp_delivery_id p = delivery_id →
    wp end_spec (emit_data_message local_aci p) (λ d h, delivered delivery_id d h) h).
  { intros p <-. by apply emit_data_message_wp. }
  unfold handle_content.
  destruct (ct_body content) as [m|[ts [m|]]|sent|[ts act [gid|]]|m| |]; try done.
  - eapply wp_call; [by apply Hmsg|]. intros d h1 Hd.
    eapply wp_call; [by apply end_only_ops, enqueue_receipt_plain|]. intros [] h2 (t&->&Ht). by apply delivered_app.
  - by apply Hmsg.
  - destruct (st_message sent) as [m|], (st_edit_message sent) as [[ts [m'|]]|]; try done; by apply Hmsg.
  - apply plain_event_wp; [done|simpl; congruence|done].
  - apply plain_event_wp; [done|simpl; congruence|done].
  - apply plain_event_wp; [done|simpl; congruence|done].
Qed.

(** C11. Received content with delivery number [n], handled to its end: if it
    is to wait for the acknowledgment of [n], then exactly one emitted event
    carries [n], it is part of the message, and no part of the message comes
    after it; so the acknowledgment vouches for the whole message.  If it is
    complete or to be retried, no part of a message and no event with [n] was
    emitted. *)
Theorem delivery_number_is_last local_aci content delivery_id t d :
  delivery_id ≠ 0%N → exec (handle_content local_aci content delivery_id) t (Done d) →
  delivered delivery_id d t.
Proof.
  intros Hid Hex. exact (end_sound _ _ _ _ (handle_content_wp local_aci content delivery_id [] Hid (Forall_nil_2 _)) Hex).
Qed.

(** ** Bounds *)

Definition is_download (o : backend_op) : bool := match o with OpGetAttachment _ => true | _ => false end.
Definition is_transcode (o : backend_op) : bool := match o with OpTranscode _ => true | _ => false end.

Definition count_ops (f : backend_op → bool) (h : list entry) : nat :=
  length (List.filter (λ e, f (entry_op e)) h).

(** A download does not use the size the sender gave and is one of at most 32;
    a transcode is one of at most 2, of at most 8 MiB; an event has at most
    50 MiB of data. *)
Definition fetch_bounds (h : list entry) (e : entry) : Prop :=
  match entry_op e with
  | OpGetAttachment pointer => ap_size pointer = None ∧ count_ops is_download h < 32
  | OpTranscode video => count_ops is_transcode h < 2 ∧ (len video <= MAX_INLINE_MEDIA_BYTES)%N
  | OpEmit ev => (len (ev_data ev) <= MAX_ATTACHMENT_SIZE_BYTES)%N
  | _ => True
  end.

Definition fetch_spec : spec := mkSpecification any_answer fetch_bounds (λ _ _, True) (λ _ _, True).

(** Operations that fetch nothing and emit no data. *)
Definition no_fetch (o : backend_op) : Prop :=
  match o with
  | OpGetAttachment _ | OpTranscode _ => False
  | OpEmit ev => ev_data ev = []
  | _ => True
  end.

Lemma count_ops_app f h t : count_ops f (h ++ t) = count_ops f h + count_ops f t.
Proof. unfold count_ops. by rewrite List.filter_app, length_app. Qed.

Lemma no_fetch_counts h h' :
  extends no_fetch h h' →
  count_ops is_download h' = count_ops is_download h ∧ count_ops is_transcode h' = count_ops is_transcode h.
Proof.
  intros (t&->&Ht). rewrite !count_ops_app.
  assert (count_ops is_download t = 0 ∧ count_ops is_transcode t = 0) as [-> ->]; [|lia].
  induction Ht as [|[o r] t He Ht [IH1 IH2]]; [done|]. unfold count_ops in *. simpl.
  unfold entry_op in *. simpl in *. by destruct o.
Qed.

Lemma no_fetch_allowed h : allows fetch_spec no_fetch h.
Proof.
  split_and!; [|done..]. intros h' o r _ Ho. simpl. unfold fetch_bounds, entry_op. simpl.
  destruct o; try done. simpl in Ho. by rewrite Ho.
Qed.

Lemma wp_no_fetch {A} (p : proc A) n m h :
  only_ops no_fetch p → count_ops is_download h = n → count_ops is_transcode h = m →
  wp fetch_spec p (λ _ h', count_ops is_download h' = n ∧ count_ops is_transcode h' = m) h.
Proof.
  intros Hp <- <-. eapply wp_mono; [|apply wp_only_ops; [exact Hp|apply no_fetch_allowed]].
  intros a h' He. by apply no_fetch_counts.
Qed.

Definition download_ok (d : DownloadedAttachment) : Prop :=
  (len (da_data d) <= MAX_ATTACHMENT_SIZE_BYTES)%N ∧
  (is_Some (signal_gif_filename d) → (len (da_data d) <= MAX_INLINE_MEDIA_BYTES)%N).

Lemma downloaded_new_ok i a data :
  (len data <= MAX_ATTACHMENT_SIZE_BYTES)%N → download_ok (downloaded_new i a data).
Proof.
  intros Hl. split; [done|]. unfold downloaded_new, signal_gif_video_matches. simpl.
  destruct (len data <=? MAX_INLINE_MEDIA_BYTES)%N eqn:E; [intros _; by apply N.leb_le|by intros [? ?]].
Qed.

Lemma download_attachment_wp l ia h n :
  n < 32 → count_ops is_download h ≤ n → count_ops is_transcode h = 0 → Forall download_ok l →
  wp fetch_spec (download_attachment l ia) (λ l' h',
    count_ops is_download h' ≤ S n ∧ count_ops is_transcode h' = 0 ∧ Forall download_ok l') h.
Proof.
  intros Hn Hd Ht Hl. unfold download_attachment.
  assert (Herr : ∀ text h, count_ops is_download h ≤ S n → count_ops is_transcode h = 0 →
    wp fetch_spec (_ ← emit (error text false); Ret l) (λ l' h',
      count_ops is_download h' ≤ S n ∧ count_ops is_transcode h' = 0 ∧ Forall download_ok l') h).
  { intros text h' ? ?. eapply wp_call; [by apply wp_no_fetch|]. intros [] h'' [H1 H2]. simpl. by rewrite H1, H2. }
  destruct (_ <? _)%N; [apply Herr; lia|]. split; [done|]. intros r _. split; [split; [done|lia]|].
  assert (count_ops is_download (h ++ [answered (Sig := backend_sig) (OpGetAttachment
    (attachment_pointer_without_sender_size_hint ia.2)) r]) ≤ S n ∧
    count_ops is_transcode (h ++ [answered (Sig := backend_sig) (OpGetAttachment
    (attachment_pointer_without_sender_size_hint ia.2)) r]) = 0) as [H1 H2].
  { rewrite !count_ops_app. unfold count_ops at 2 4. simpl. lia. }
  destruct r as [data|e]; [|by apply Herr]. cbv beta iota zeta delta [mbind proc_mbind proc_bind].
  destruct (_ <? _)%N eqn:E; [by apply Herr|]. destruct (_ =? 0)%N; [by apply Herr|].
  split_and!; [done..|]. apply Forall_app. split; [done|]. apply Forall_cons_2; [|done].
  apply downloaded_new_ok. by apply N.ltb_ge.
Qed.

Lemma downloads_wp outgoing atts h :
  count_ops is_download h = 0 → count_ops is_transcode h = 0 →
  wp fetch_spec (download_attachments outgoing atts) (λ l h',
    count_ops is_transcode h' = 0 ∧ Forall download_ok l) h.
Proof.
  intros Hd Ht. unfold download_attachments. destruct outgoing; [by repeat constructor|].
  eapply wp_call; [apply wp_no_fetch; [by destruct (_ <? _)%N|done..]|]. intros [] h1 [Hd1 Ht1].
  apply wp_for_each with (I := λ l (rest : list (nat * AttachmentPointer)) h,
    count_ops is_download h + length rest ≤ 32 ∧ count_ops is_transcode h = 0 ∧ Forall download_ok l).
  - rewrite Hd1, length_take. split_and!; [|done..]. unfold MAX_ATTACHMENT_DOWNLOADS_PER_MESSAGE. lia.
  - intros l ia rest h2 (Hc&Ht2&Hl). simpl in Hc.
    eapply wp_mono; [|apply (download_attachment_wp _ _ _ (count_ops is_download h2)); [lia|done..]].
    intros l' h3 (?&?&?). split_and!; [lia|done..].
  - by intros l h2 (_&?&?).
Qed.

Lemma apply_signal_gif_ok gif d : download_ok d → download_ok (apply_signal_gif gif d).2.
Proof.
  intros Hd. unfold apply_signal_gif. destruct (signal_gif_filename d); [|done].
  destruct (bounded_inline_gif gif) as [[]|] eqn:E; [|done..]. simpl.
  assert (len gif <= MAX_INLINE_MEDIA_BYTES)%N.
  { unfold bounded_inline_gif in E. destruct (_ || _ || _) eqn:Eb; [done|]. by bool_prop. }
  split; simpl; [|by intros [? ?]]. unfold MAX_INLINE_MEDIA_BYTES, MAX_ATTACHMENT_SIZE_BYTES in *. lia.
Qed.

Lemma transcode_wp n l h :
  count_ops is_transcode h = N.to_nat n → Forall download_ok l →
  wp fetch_spec (transcode_downloads n l) (λ l' _, Forall download_ok l') h.
Proof.
  revert n h. induction l as [|d l IH]; intros n h Hn Hl; simpl; [done|].
  apply Forall_cons in Hl as [Hd Hl]. destruct (_ <=? n)%N eqn:En; [by apply Forall_cons_2|].
  destruct (signal_gif_filename d) eqn:Ed.
  - unfold MAX_SIGNAL_GIF_TRANSCODES_PER_MESSAGE in En. apply N.leb_gt in En.
    split; [done|]. intros gif _. split; [split; [lia|apply Hd; by rewrite Ed]|].
    eapply wp_call; [apply IH; [|done]|].
    + rewrite count_ops_app. unfold count_ops at 2. simpl. lia.
    + intros l' h' Hl'. apply Forall_cons_2; [|done]. destruct gif; [by apply apply_signal_gif_ok|done].
  - eapply wp_call; [by apply IH|]. intros l' h' Hl'. by apply Forall_cons_2.
Qed.

Lemma emit_data_message_bounds local_aci p : wp fetch_spec (emit_data_message local_aci p) (λ _ _, True) [].
Proof.
  unfold emit_data_message.
  assert (Hmain : ∀ key, wp fetch_spec (title ← projection_group_title local_aci key;
      match title with
      | Err disposition => Ret disposition
      | Ok title => _ ← project_message local_aci p key title; Ret AwaitingAck
      end) (λ _ _, True) []).
  { intros key. eapply wp_call; [apply wp_no_fetch; [|done..]|].
    - unfold projection_group_title, group_for_projection, read_departure, disposition_group, repo_group, update.
      solve_only_ops.
    - intros [title|d] h [Hd Ht]; [|done]. unfold project_message. apply wp_bind.
      eapply wp_call; [by apply downloads_wp|]. intros ds h1 [Ht1 Hds].
      eapply wp_call; [by apply transcode_wp|]. intros ds' h2 Hds'.
      unfold emit_projected. eapply wp_call with (R := λ _ _, True).
      { destruct (projected_data_message_text _ _); [|done]. split; [done|]. intros [] _. split; [|done].
        by destruct key. }
      intros [] h3 _. apply wp_for_each with (I := λ _ (rest : list (nat * DownloadedAttachment)) _,
        Forall (λ id, download_ok id.2) rest); [| |done].
      + clear - Hds'. apply Forall_forall. intros [i d] Hi. apply list_elem_of_lookup in Hi as [j Hj].
        rewrite list_lookup_imap in Hj. apply fmap_Some in Hj as (x&Hx&[= -> ->]).
        by eapply Forall_lookup_1 in Hds'.
      + intros _ [i d] rest h4 Hr. apply Forall_cons in Hr as [Hok Hr]. split; [done|]. intros [] _. split; [|done].
        apply Hok. }
  destruct (group_message_target _) as [|key|].
  - destruct (_ && _); [done|]. apply (Hmain None).
  - destruct (_ && _); [done|]. apply (Hmain (Some key)).
  - split; [done|]. intros [] _. by split.
Qed.

Lemma handle_content_bounds local_aci content delivery_id :
  wp fetch_spec (handle_content local_aci content delivery_id) (λ _ _, True) [].
Proof.
  assert (Hmsg := emit_data_message_bounds local_aci).
  assert (Hev : ∀ ev, ev_data ev = [] →
    wp fetch_spec (_ ← emit ev; Ret Complete) (λ _ _, True) []).
  { intros ev Hev. split; [done|]. intros [] _. split; [|done].
    change (len (ev_data ev) <= MAX_ATTACHMENT_SIZE_BYTES)%N. by rewrite Hev. }
  unfold handle_content.
  destruct (ct_body content) as [m|[ts [m|]]|sent|[ts act [gid|]]|m| |]; try done; try (by apply Hev).
  - eapply wp_call; [apply Hmsg|]. intros d h _. eapply wp_mono; [|apply wp_no_fetch; [|done..]]; [done|].
    unfold enqueue_receipt, with_projection, update. solve_only_ops.
  - destruct (st_message sent) as [m|], (st_edit_message sent) as [[ts [m'|]]|]; try done; by apply Hmsg.
Qed.

(** What a received message can make the backend do is bounded, whatever
    the sender puts in it and wherever handling stops: at most 32 downloads,
    never sized by the sender's claim, at most 2 transcodes of at most 8 MiB
    each, and no event with more than 50 MiB of data. *)
Theorem fetches_bounded local_aci content delivery_id t out :
  exec (handle_content local_aci content delivery_id) t out → always fetch_bounds [] t.
Proof.
  intros Hex. by destruct (wp_sound fetch_spec _ _ [] t out
    (handle_content_bounds local_aci content delivery_id) Hex (any_answer_legal _ _)).
Qed.

End Delivery.

(** ** Mentions *)

(** Pieces joined by the object replacement character. *)
Fixpoint with_markers (piece : string) (pieces : list string) : string :=
  match pieces with
  | [] => piece
  | next :: pieces => piece +:+ object_replacement +:+ with_markers next pieces
  end.

(** Pieces joined by the mentions in order, a bare at sign when they run out. *)
Fixpoint with_mentions (piece : string) (pieces mentions : list string) : string :=
  match pieces with
  | [] => piece
  | next :: pieces => piece +:+ "@" +:+ default "" (head mentions) +:+ with_mentions next pieces (tail mentions)
  end.

Lemma starts_with_true s prefix : starts_with s prefix = true ↔ ∃ rest, s = prefix +:+ rest.
Proof.
  unfold starts_with. revert s. induction prefix as [|c prefix IH]; intros s; simpl; [split; [intros _; by exists s|by destruct s]|].
  destruct s as [|c' s]; simpl; [split; [done|by intros [? ?]]|]. destruct (Ascii.ascii_dec c c') as [<-|Hne].
  - rewrite IH. split; intros [rest Hr]; exists rest; [by subst|by injection Hr].
  - split; [done|]. intros [rest Hr]. exfalso. apply Hne. by injection Hr.
Qed.

Lemma replace_copy c s mentions :
  starts_with (String c s) object_replacement = false →
  replace_mentions (String c s) mentions = String c (replace_mentions s mentions).
Proof.
  intros Hs. destruct s as [|c2 [|c3 s]]; [done..|]. cbn [replace_mentions].
  destruct (bool_decide (c = _) && bool_decide (c2 = _) && bool_decide (c3 = _)) eqn:E; [|done].
  apply andb_true_iff in E as [[->%bool_decide_eq_true ->%bool_decide_eq_true]%andb_true_iff
    ->%bool_decide_eq_true].
  exfalso. apply not_true_iff_false in Hs. apply Hs, starts_with_true. by exists s.
Qed.

(** A character is not the start of a marker because one follows later. *)
Lemma no_marker_before c s rest :
  starts_with (String c s) object_replacement = false →
  starts_with (String c (s +:+ object_replacement +:+ rest)) object_replacement = false.
Proof.
  rewrite <-!not_true_iff_false, !starts_with_true. intros Hs [r Hr]. apply Hs.
  destruct s as [|c2 [|c3 s]]; cbn in Hr; inversion Hr; subst; by exists s.
Qed.

(** A piece without the character is copied, and the character after it found. *)
Lemma replace_piece piece rest mentions :
  contains piece object_replacement = false →
  replace_mentions (piece +:+ object_replacement +:+ rest) mentions =
    piece +:+ "@" +:+ default "" (head mentions) +:+ replace_mentions rest (tail mentions).
Proof.
  induction piece as [|c piece IH]; intros Hc; [by destruct mentions|].
  cbn [contains] in Hc. apply orb_false_iff in Hc as [Hs Hc].
  transitivity (String c (replace_mentions (piece +:+ object_replacement +:+ rest) mentions)).
  - by apply replace_copy, no_marker_before.
  - by rewrite IH.
Qed.

Lemma replace_last piece mentions :
  contains piece object_replacement = false → replace_mentions piece mentions = piece.
Proof.
  induction piece as [|c piece IH]; intros Hc; [done|].
  cbn [contains] in Hc. apply orb_false_iff in Hc as [Hs Hc]. rewrite replace_copy, IH by done. done.
Qed.

Lemma replace_all piece pieces mentions :
  Forall (λ p, contains p object_replacement = false) (piece :: pieces) →
  replace_mentions (with_markers piece pieces) mentions = with_mentions piece pieces mentions.
Proof.
  revert piece mentions. induction pieces as [|next pieces IH]; intros piece mentions Hp;
    apply Forall_cons in Hp as [Hp Hps]; simpl; [by apply replace_last|].
  rewrite replace_piece by done. by rewrite IH.
Qed.

(** Mentions are put in place: a body is pieces of text with an object
    replacement character between each two; when the message mentions anyone,
    the [i]th character is replaced by an at sign and the [i]th mentioned
    account, or by a bare at sign when there are fewer mentions, and the text
    is not changed. *)
Theorem mentions_in_place piece pieces ranges :
  mentions_of ranges ≠ [] → Forall (λ p, contains p object_replacement = false) (piece :: pieces) →
  format_body_with_mentions (with_markers piece pieces) ranges =
    with_mentions piece pieces (mentions_of ranges).
Proof.
  intros Hm Hp. unfold format_body_with_mentions. rewrite bool_decide_eq_false_2 by done. simpl.
  rewrite <-(replace_all _ _ _ Hp). destruct (contains _ _) eqn:E; [done|]. symmetry. by apply replace_last.
Qed.

(** ** Runs *)

Definition sample_content : @Content string_ids :=
  mkContent (Ids := string_ids) (mkMetadata (Ids := string_ids) "friend" "me" 7 true)
    (BodyData (Ids := string_ids) (mkDataMessage (Some "hello")
       [mkAttachmentPointer (Some "text/plain") (Some 100%N) (Some "a.txt") None []] None (Some 7%N)
       false None None [] [] None)).

Definition download_world (h : list (@entry (@backend_sig string_ids))) (o : @backend_op string_ids)
  : @backend_resp string_ids o :=
  match o return @backend_resp string_ids o with
  | OpGetAttachment _ => Ok (bytes_of "contents")
  | o => calm_world (Ids := string_ids) h o
  end.

Definition sample_handling : proc (Sig := @backend_sig string_ids) ProjectionDisposition :=
  handle_content (Ids := string_ids) (Dig := plain_digests) (Enums := proto_numbers) "me" sample_content 9.

Lemma delivery_number_is_last_witness :
  delivered (Ids := string_ids) 9 AwaitingAck
    (run (Sig := @backend_sig string_ids) download_world sample_handling []).1.
Proof.
  eapply (delivery_number_is_last (Ids := string_ids) (Dig := plain_digests) (Enums := proto_numbers)
    "me" sample_content 9); [done|].
  exact (run_exec (Sig := @backend_sig string_ids) download_world sample_handling []).
Defined.

Lemma fetches_bounded_witness :
  always (fetch_bounds (Ids := string_ids)) []
    (run (Sig := @backend_sig string_ids) download_world sample_handling []).1.
Proof.
  eapply (fetches_bounded (Ids := string_ids) (Dig := plain_digests) (Enums := proto_numbers)
    "me" sample_content 9).
  exact (run_exec (Sig := @backend_sig string_ids) download_world sample_handling []).
Defined.

Lemma mentions_in_place_witness :
  format_body_with_mentions ("hi " +:+ object_replacement +:+ " and " +:+ object_replacement)
    [mkBodyRange None; mkBodyRange (Some "ann")] = "hi @ann and @".
Proof.
  apply (mentions_in_place "hi " [" and "; ""] [mkBodyRange None; mkBodyRange (Some "ann")]); [done|].
  repeat constructor.
Defined.
