(* ===== verification/Projecting.v ===== *)
(** * Projecting: from received content to an acknowledged message

    Models, from [rust/signal-core/src/backend/projection.rs],
    [project_content], [acknowledge_message], [process_acknowledgments] and
    [drain_acknowledgments].  Content waits in the store until it is recorded
    as projected; it is recorded only when nothing of it was shown, or when
    the C side acknowledged it. *)
From S2P Require Import Prelude Event Session GroupState StoreErrors SignalTypes Media Acknowledgment.
From S2P Require Import Effects Backend Repository Groups ProjectionState Content Delivery.

Definition ACKNOWLEDGMENT_BATCH_SIZE : N := 64.

Section Projecting.
Context `{Ids : SignalIds} `{Dig : Digests} `{Enums : ProtoEnums}.

(** ** Pending deliveries with their inbox *)

(** [MessageProjection::track]. *)
Definition track_delivery (content : Content) : proc (option N) :=
  tracked ← with_projection (track content);
  match tracked with
  | Some delivery_id => _ ← update (on_inbox (ack_register delivery_id)); Ret (Some delivery_id)
  | None => Ret None
  end.

(** [MessageProjection::release]. *)
Definition release_delivery (delivery_id : N) : proc unit :=
  removed ← with_projection (projection_release delivery_id);
  match removed with
  | Some _ => _ ← update (on_inbox (ack_unregister delivery_id)); Ret tt
  | None => Ret tt
  end.

(** [MessageProjection::complete]. *)
Definition complete_delivery (delivery_id : N) : proc unit :=
  removed ← with_projection (projection_complete delivery_id);
  match removed with
  | Some _ => _ ← update (on_inbox (ack_unregister delivery_id)); Ret tt
  | None => Ret tt
  end.

(** ** Projection *)

(** The end of [project_content], for content handled completely. *)
Definition record_projected (content : Content) (delivery_id : N) : proc unit :=
  r ← mark_message_projected content;
  match r with
  | Ok _ => complete_delivery delivery_id
  | Err e =>
      _ ← release_delivery delivery_id;
      if sqlite_store_error_is_transient e then Ret tt
      else emit (error ("Could not record a handled Signal message: " +:+ store_text e) false)
  end.

Definition project_content (local_aci : Aci) (groups_authoritative : bool) (content : Content) : proc unit :=
  if negb (content_is_projectable (ct_body content) groups_authoritative) then Ret tt
  else
    tracked ← track_delivery content;
    match tracked with
    | None => Ret tt
    | Some delivery_id =>
        disposition ← handle_content local_aci content delivery_id;
        let effect := projection_effect disposition in
        if negb (remove_pending effect) then Ret tt
        else if negb (mark_projected effect) then release_delivery delivery_id
        else record_projected content delivery_id
    end.

(** ** Acknowledgments *)

Definition acknowledge_message (delivery_id : N) : proc bool :=
  s ← update id;
  match mp_pending (sh_projection s) !! delivery_id with
  | None => _ ← update (on_inbox (ack_unregister delivery_id)); Ret true
  | Some content =>
      r ← mark_message_projected content;
      match r with
      | Ok _ => _ ← complete_delivery delivery_id; Ret true
      | Err e =>
          if sqlite_store_error_is_transient e then Ret false
          else
            _ ← emit (error ("Could not acknowledge a displayed Signal message: " +:+ store_text e) false);
            Ret false
      end
  end.

Definition acknowledge_or_defer (retry_failures : bool) (delivery_id : N) : proc unit :=
  acknowledged ← acknowledge_message delivery_id;
  if negb acknowledged && retry_failures
  then _ ← update (on_inbox (ack_defer_retry delivery_id)); Ret tt
  else Ret tt.

Definition process_acknowledgments (retry_failures : bool) : proc N :=
  delivery_ids ← with_inbox (ack_take_ready ACKNOWLEDGMENT_BATCH_SIZE);
  _ ← for_each delivery_ids tt (λ _ delivery_id, acknowledge_or_defer retry_failures delivery_id);
  Ret (len delivery_ids).

(** The loop of [drain_acknowledgments]; false when the fuel ran out. *)
Fixpoint drain_loop (fuel : nat) : proc bool :=
  match fuel with
  | O => Ret false
  | S fuel =>
      count ← process_acknowledgments false;
      if (count =? 0)%N then Ret true else drain_loop fuel
  end.

(** Closing moves every acknowledged delivery to [ready]; each round takes at
    least one, so one round more than there are deliveries is enough. *)
Definition drain_acknowledgments : proc bool :=
  s ← update (on_inbox ack_close);
  drain_loop (S (length (ack_ready (ack_close (sh_inbox s))))).

(** ** What happens to the pending deliveries *)

(** The worker's own state is read as its updates left it. *)
Definition own_projection (s0 : Shared) : assumption := λ h o,
  match o return backend_resp o → Prop with
  | OpUpdate _ => λ r, sh_projection r = sh_projection (apply_updates s0 h)
  | _ => λ _, True
  end.

(** The projection without its receipt queue. *)
Definition same_deliveries (p q : MessageProjection) : Prop :=
  next_delivery_id p = next_delivery_id q ∧ mp_pending p = mp_pending q ∧ mp_identities p = mp_identities q.

(** Operations that leave the deliveries alone and record nothing. *)
Definition keeps_deliveries (o : backend_op) : Prop :=
  match o with
  | OpUpdate f => ∀ s, same_deliveries (sh_projection (f s)) (sh_projection s)
  | OpMarkMessageProjected _ _ => False
  | _ => True
  end.

Lemma same_deliveries_trans p q r : same_deliveries p q → same_deliveries q r → same_deliveries p r.
Proof. unfold same_deliveries. intros (->&->&->) (->&->&->). done. Qed.

Lemma keeps_deliveries_extends s0 h h' :
  extends keeps_deliveries h h' →
  same_deliveries (sh_projection (apply_updates s0 h')) (sh_projection (apply_updates s0 h)).
Proof.
  intros (t&->&Ht). induction t as [|e t IH] using rev_ind; [by rewrite app_nil_r|].
  apply Forall_app in Ht as [Ht [He _]%Forall_cons_1]. rewrite app_assoc.
  unfold apply_updates at 1. rewrite foldl_app. fold (apply_updates s0 (h ++ t)). simpl.
  destruct e as [o r]. unfold entry_op in He. simpl in *. destruct o; try by apply IH.
  eapply same_deliveries_trans; [apply He|by apply IH].
Qed.

Lemma handle_content_keeps local_aci content delivery_id :
  only_ops keeps_deliveries (handle_content local_aci content delivery_id).
Proof.
  assert (Hmsg : ∀ p, only_ops keeps_deliveries (emit_data_message local_aci p)).
  { intros p. unfold emit_data_message, projection_group_title, group_for_projection, read_departure,
      disposition_group, repo_group, update, project_message, emit_projected, download_attachments,
      download_attachment.
    assert (Htr : ∀ l n, only_ops keeps_deliveries (transcode_downloads n l)).
    { intros l. induction l as [|d l IH]; intros n; simpl; [done|]. solve_only_ops; apply IH. }
    solve_only_ops; apply Htr. }
  unfold handle_content, enqueue_receipt, with_projection, update. solve_only_ops; apply Hmsg.
Qed.

(** ** What projecting content leads to *)

Definition deliveries_after (s0 : Shared) (h : list entry) : MessageProjection :=
  sh_projection (apply_updates s0 h).

Definition mark_accepted (e : entry) : bool :=
  match e with
  | existT o r =>
      match o return backend_resp o → bool with OpMarkMessageProjected _ _ => λ r, is_ok r | _ => λ _, false end r
  end.

(** The store recorded [content] as projected. *)
Definition recorded (content : Content) (e : entry) : Prop :=
  entry_op e = OpMarkMessageProjected MESSAGE_PROJECTION_CLIENT content ∧ mark_accepted e = true.

Definition is_mark (o : backend_op) : bool :=
  match o with OpMarkMessageProjected _ _ => true | _ => false end.

Definition no_marks (t : list entry) : Prop := Forall (λ e, is_mark (entry_op e) = false) t.

Definition is_update (o : backend_op) : bool := match o with OpUpdate _ => true | _ => false end.

(** Why content is not taken up: its group is not known yet, too much is
    pending, or it is pending or was completed. *)
Definition not_taken_up (auth : bool) (content : Content) (p : MessageProjection) : Prop :=
  content_is_projectable (ct_body content) auth = false ∨ has_capacity p = false ∨
  projection_identity content ∈ ids_pending (mp_identities p) ∪ ids_completed (mp_identities p).

(** It was shown and waits for its acknowledgment. *)
Definition shown (content : Content) (p p' : MessageProjection) (id : N) (t : list entry) : Prop :=
  delivered id AwaitingAck t ∧ no_marks t ∧ mp_pending p' = <[id := content]> (mp_pending p) ∧
  projection_identity content ∈ ids_pending (mp_identities p').

(** There was nothing to show, and it was recorded. *)
Definition settled_silently (content : Content) (p p' : MessageProjection) (id : N) (t : list entry) : Prop :=
  Forall (plain id) t ∧ Exists (recorded content) t ∧ mp_pending p' = delete id (mp_pending p) ∧
  projection_identity content ∈ ids_completed (mp_identities p').

(** Nothing was shown and nothing recorded: it can be replayed. *)
Definition left_for_replay (content : Content) (p p' : MessageProjection) (id : N) (t : list entry) : Prop :=
  Forall (plain id) t ∧ Forall (λ e, ¬ recorded content e) t ∧ mp_pending p' = delete id (mp_pending p) ∧
  (projection_identity content ∉ ids_pending (mp_identities p') ∪ ids_completed (mp_identities p')).

Definition projection_outcome (auth : bool) (content : Content) (p p' : MessageProjection) (t : list entry) : Prop :=
  (not_taken_up auth content p ∧ Forall (λ e, is_update (entry_op e) = true) t ∧ mp_pending p' = mp_pending p) ∨
  ∃ id, id ≠ 0%N ∧
    (projection_identity content ∉ ids_pending (mp_identities p) ∪ ids_completed (mp_identities p)) ∧
    (shown content p p' id t ∨ settled_silently content p p' id t ∨ left_for_replay content p p' id t).

Lemma deliveries_after_snoc s0 h (e : entry) :
  deliveries_after s0 (h ++ [e]) =
    match entry_op e with OpUpdate f => sh_projection (f (apply_updates s0 h)) | _ => deliveries_after s0 h end.
Proof.
  unfold deliveries_after, apply_updates. rewrite foldl_app. destruct e as [o r]. unfold entry_op. simpl. by destruct o.
Qed.

(** A method of the pending deliveries gives and leaves what it does on them. *)
Lemma wp_with_projection {A B} s0 (f : MessageProjection → A * MessageProjection) (k : A → proc B) Q h :
  (∀ e, is_update (entry_op e) = true → deliveries_after s0 (h ++ [e]) = (f (deliveries_after s0 h)).2 →
    wp (end_spec_if (own_projection s0)) (k (f (deliveries_after s0 h)).1) Q (h ++ [e])) →
  wp (end_spec_if (own_projection s0)) (with_projection f ≫= k) Q h.
Proof.
  intros Hk. unfold with_projection. apply wp_bind, end_if_perform. intros s Hs. simpl in Hs.
  fold (deliveries_after s0 h) in Hs. simpl. rewrite Hs. apply Hk; [done|].
  by rewrite deliveries_after_snoc.
Qed.

(** Updates of the inbox. *)
Lemma wp_inbox {B} s0 f (k : Shared → proc B) Q h :
  (∀ s e, is_update (entry_op e) = true → deliveries_after s0 (h ++ [e]) = deliveries_after s0 h →
    wp (end_spec_if (own_projection s0)) (k s) Q (h ++ [e])) →
  wp (end_spec_if (own_projection s0)) (update (on_inbox f) ≫= k) Q h.
Proof.
  intros Hk. apply end_if_perform. intros s _. apply Hk; [done|]. by rewrite deliveries_after_snoc.
Qed.

Lemma update_plain id e : is_update (entry_op e) = true → plain id e.
Proof. destruct e as [o r]. unfold plain, entry_op. simpl. by destruct o. Qed.

Lemma update_no_mark e : is_update (entry_op e) = true → is_mark (entry_op e) = false.
Proof. destruct e as [o r]. unfold entry_op. simpl. by destruct o. Qed.

Lemma no_mark_not_recorded content e : is_mark (entry_op e) = false → ¬ recorded content e.
Proof. intros Hm [He _]. by rewrite He in Hm. Qed.

Lemma update_not_recorded content e : is_update (entry_op e) = true → ¬ recorded content e.
Proof. intros. by apply no_mark_not_recorded, update_no_mark. Qed.

(** Only updates follow. *)
Definition updated (h h' : list entry) : Prop :=
  ∃ t, h' = h ++ t ∧ Forall (λ e, is_update (entry_op e) = true) t.

Lemma release_wp s0 id h :
  wp (end_spec_if (own_projection s0)) (release_delivery id)
    (λ _ h', updated h h' ∧ deliveries_after s0 h' = (projection_release id (deliveries_after s0 h)).2) h.
Proof.
  unfold release_delivery. apply wp_with_projection. intros e He Hd.
  destruct (projection_release _ _).1.
  - apply wp_inbox. intros s e' He' Hd'. split; [|by rewrite Hd'].
    exists [e; e']. rewrite <-app_assoc. split; [done|]. by repeat constructor.
  - split; [|done]. exists [e]. by split; [|repeat constructor].
Qed.

Lemma complete_wp s0 id h :
  wp (end_spec_if (own_projection s0)) (complete_delivery id)
    (λ _ h', updated h h' ∧ deliveries_after s0 h' = (projection_complete id (deliveries_after s0 h)).2) h.
Proof.
  unfold complete_delivery. apply wp_with_projection. intros e He Hd.
  destruct (projection_complete _ _).1.
  - apply wp_inbox. intros s e' He' Hd'. split; [|by rewrite Hd'].
    exists [e; e']. rewrite <-app_assoc. split; [done|]. by repeat constructor.
  - split; [|done]. exists [e]. by split; [|repeat constructor].
Qed.

Lemma track_wp s0 content h :
  wp (end_spec_if (own_projection s0)) (track_delivery content)
    (λ r h', updated h h' ∧ r = (track content (deliveries_after s0 h)).1 ∧
       deliveries_after s0 h' = (track content (deliveries_after s0 h)).2) h.
Proof.
  unfold track_delivery. apply wp_with_projection. intros e He Hd.
  destruct (track _ _).1.
  - apply wp_inbox. intros s e' He' Hd'. split_and!; [|done|by rewrite Hd'].
    exists [e; e']. rewrite <-app_assoc. split; [done|]. by repeat constructor.
  - split_and!; [|done..]. exists [e]. by split; [|repeat constructor].
Qed.

(** A tracked delivery. *)
Lemma track_some content p id :
  (track content p).1 = Some id →
  id ≠ 0%N ∧ mp_pending (track content p).2 = <[id := content]> (mp_pending p) ∧
  (projection_identity content ∉ ids_pending (mp_identities p) ∪ ids_completed (mp_identities p)) ∧
  mp_identities (track content p).2 = (identities_reserve (projection_identity content) (mp_identities p)).2 ∧
  (identities_reserve (projection_identity content) (mp_identities p)).1 = true.
Proof.
  unfold track. destruct (negb (has_capacity p)); [done|].
  destruct (negb _) eqn:E; [done|]. intros [= <-]. simpl. apply negb_false_iff in E.
  split_and!; [lia|done| |done..]. unfold identities_reserve in E. case_decide; [done|].
  simpl in E. apply bool_decide_eq_true in E. set_solver.
Qed.

Lemma track_none content p auth :
  (track content p).1 = None → mp_pending (track content p).2 = mp_pending p ∧ not_taken_up auth content p.
Proof.
  unfold track, not_taken_up. destruct (has_capacity p) eqn:Ec; simpl; [|split; [done|by right; left]].
  destruct (identities_reserve _ _).1 eqn:E; simpl; [done|]. intros _. split; [done|]. right. right.
  unfold identities_reserve in E. case_decide; [set_solver|]. simpl in E. apply bool_decide_eq_false in E. apply dec_stable in E. set_solver.
Qed.

(** The pending delivery [id] is [content], reserved under its identity. *)
Definition tracked (content : Content) (p p' : MessageProjection) (id : N) : Prop :=
  mp_pending p' = <[id := content]> (mp_pending p) ∧
  mp_identities p' = (identities_reserve (projection_identity content) (mp_identities p)).2.

Lemma tracked_same content p p' q id : tracked content p p' id → same_deliveries q p' → tracked content p q id.
Proof. intros [Hp Hi] (_&Hq&Hr). unfold tracked. by rewrite Hq, Hr. Qed.

Lemma tracked_release content p p' id :
  identities_ok (mp_identities p) →
  (projection_identity content ∉ ids_pending (mp_identities p) ∪ ids_completed (mp_identities p)) →
  tracked content p p' id →
  mp_pending (projection_release id p').2 = delete id (mp_pending p) ∧
  (projection_identity content ∉ ids_pending (mp_identities (projection_release id p').2) ∪
     ids_completed (mp_identities (projection_release id p').2)).
Proof.
  intros Hok Hnew [Hp Hi]. unfold projection_release. rewrite Hp, lookup_insert_eq. simpl.
  rewrite delete_insert_eq. split; [done|]. rewrite Hi. unfold identities_reserve.
  case_decide; simpl; set_solver.
Qed.

Lemma tracked_complete content p p' id :
  identities_ok (mp_identities p) → tracked content p p' id →
  mp_pending (projection_complete id p').2 = delete id (mp_pending p) ∧
  projection_identity content ∈ ids_completed (mp_identities (projection_complete id p').2).
Proof.
  intros Hok [Hp Hi]. unfold projection_complete. rewrite Hp, lookup_insert_eq. simpl.
  rewrite delete_insert_eq. split; [done|]. rewrite Hi.
  apply identities_complete_ok. by apply (identities_reserve_ok (projection_identity content)).
Qed.

Lemma updated_plain id h h' : updated h h' → Forall (plain id) h → Forall (plain id) h'.
Proof.
  intros (t&->&Ht) Hh. apply Forall_app. split; [done|]. eapply Forall_impl; [exact Ht|].
  intros e. apply update_plain.
Qed.

Lemma updated_no_marks h h' : updated h h' → no_marks h → no_marks h'.
Proof.
  intros (t&->&Ht) Hh. apply Forall_app. split; [done|]. eapply Forall_impl; [exact Ht|].
  intros e. apply update_no_mark.
Qed.

Lemma keeps_no_marks h h' : extends keeps_deliveries h h' → no_marks h → no_marks h'.
Proof.
  intros (t&->&Ht) Hh. apply Forall_app. split; [done|]. eapply Forall_impl; [exact Ht|].
  intros [o r] Ho. unfold entry_op in *. simpl in *. by destruct o.
Qed.

Lemma no_marks_not_recorded content h : no_marks h → Forall (λ e, ¬ recorded content e) h.
Proof. intros Hh. eapply Forall_impl; [exact Hh|]. intros e. apply no_mark_not_recorded. Qed.

(** The end of [project_content], from the handled content on. *)
Lemma record_projected_wp s0 content p id h :
  let q := deliveries_after s0 h in
  identities_ok (mp_identities p) → id ≠ 0%N →
  (projection_identity content ∉ ids_pending (mp_identities p) ∪ ids_completed (mp_identities p)) →
  tracked content p q id → Forall (plain id) h → no_marks h →
  wp (end_spec_if (own_projection s0)) (record_projected content id) (λ _ h',
    settled_silently content p (deliveries_after s0 h') id h' ∨ left_for_replay content p (deliveries_after s0 h') id h') h.
Proof.
  intros q Hok Hid Hnew Ht Hplain Hmarks. unfold record_projected, mark_message_projected.
  apply end_if_perform. intros r _. set (h1 := h ++ _).
  assert (Hp1 : Forall (plain id) h1) by (unfold h1; apply Forall_app; split; [done|by apply Forall_cons_2]).
  assert (Hq1 : deliveries_after s0 h1 = q) by (unfold h1; by rewrite deliveries_after_snoc).
  destruct r as [[]|e].
  - eapply wp_mono; [|apply complete_wp]. intros [] h2 [Hu Hd]. left.
    rewrite Hq1 in Hd. destruct (tracked_complete _ _ _ _ Hok Ht) as [Hc1 Hc2]. rewrite <-Hd in Hc1, Hc2.
    split_and!; [by eapply updated_plain| |done..].
    destruct Hu as (t&->&_). apply Exists_app. left. apply Exists_app. right. by apply Exists_cons_hd.
  - assert (Hr1 : Forall (λ e, ¬ recorded content e) h1).
    { unfold h1. apply Forall_app. split; [by apply no_marks_not_recorded|]. apply Forall_cons_2; [|done].
      by intros [_ ?]. }
    eapply wp_call; [apply release_wp|]. intros [] h2 [Hu Hd]. rewrite Hq1 in Hd.
    destruct (tracked_release _ _ _ _ Hok Hnew Ht) as [Hc1 Hc2]. rewrite <-Hd in Hc1, Hc2.
    assert (Hp2 := updated_plain _ _ _ Hu Hp1).
    assert (Hr2 : Forall (λ e, ¬ recorded content e) h2).
    { destruct Hu as (t&->&Hu). apply Forall_app. split; [done|]. eapply Forall_impl; [exact Hu|].
      intros x. apply update_not_recorded. }
    destruct (sqlite_store_error_is_transient e); [right; by split_and!|].
    split; [done|]. intros [] _. split; [done|]. right. split_and!.
    + apply Forall_app. split; [done|]. apply Forall_cons_2; [|done]. split; [simpl; congruence|done].
    + apply Forall_app. split; [done|]. apply Forall_cons_2; [|done]. by apply no_mark_not_recorded.
    + by rewrite deliveries_after_snoc.
    + by rewrite deliveries_after_snoc.
Qed.

Lemma project_content_wp s0 local_aci auth content :
  identities_ok (mp_identities (sh_projection s0)) →
  wp (end_spec_if (own_projection s0)) (project_content local_aci auth content) (λ _ h',
    projection_outcome auth content (sh_projection s0) (deliveries_after s0 h') h') [].
Proof.
  intros Hok. unfold project_content. destruct (negb _) eqn:Ep.
  { left. split_and!; [left; by apply negb_true_iff|done..]. }
  eapply wp_call; [apply track_wp|]. intros r h1 ((t1&->&Ht1)&Hr&Hd). simpl app in *.
  change (deliveries_after s0 []) with (sh_projection s0) in *.
  destruct r as [id|]; symmetry in Hr; cycle 1.
  { destruct (track_none _ _ auth Hr) as [Hpend Hwhy]. left. by rewrite Hd. }
  apply track_some in Hr as (Hid&Hpend&Hnew&Hids&Hres).
  assert (Ht : tracked content (sh_projection s0) (deliveries_after s0 t1) id) by (by rewrite Hd).
  assert (Hp1 : Forall (plain id) t1) by (eapply (updated_plain id []); [by exists t1|constructor]).
  assert (Hm1 : no_marks t1) by (eapply (updated_no_marks []); [by exists t1|constructor]).
  eapply wp_call; [apply end_spec_weaken, wp_and;
    [by apply (handle_content_wp local_aci content id)|apply end_only_ops, handle_content_keeps]|].
  intros d h2 [Hdel Hext]. assert (Hm2 := keeps_no_marks _ _ Hext Hm1).
  assert (Ht2 := tracked_same _ _ _ _ _ Ht (keeps_deliveries_extends s0 _ _ Hext)).
  fold (deliveries_after s0 h2) in Ht2.
  destruct d; cbn [projection_effect remove_pending mark_projected negb].
  - right. exists id. split_and!; [done..|]. left. destruct Ht2 as [Hpe Hi]. split_and!; [done..|].
    rewrite Hi. unfold identities_reserve. case_decide; [set_solver|]. simpl. set_solver.
  - eapply wp_mono; [|by apply (record_projected_wp s0 content (sh_projection s0))].
    intros [] h' Hor. right. exists id. split_and!; [done..|by right].
  - eapply wp_mono; [|apply release_wp]. intros [] h3 [Hu Hd3].
    destruct (tracked_release _ _ _ _ Hok Hnew Ht2) as [Hc1 Hc2]. rewrite <-Hd3 in Hc1, Hc2.
    right. exists id. split_and!; [done..|]. right. right. split_and!; [by eapply updated_plain| |done..].
    by apply no_marks_not_recorded, (updated_no_marks h2).
Qed.

(** C6. Projecting received content to its end: it is not taken up, with
    nothing shown (its group is not known yet, too much is pending, or it is
    pending or done already); or it is shown in full, stays pending under its
    delivery number and is not yet recorded; or nothing of it is shown and the
    store recorded it; or nothing is shown, nothing recorded, and it can be
    replayed.  So nothing is recorded as projected while it waits to be
    acknowledged, and nothing is dropped. *)
Theorem projection_settles s0 local_aci auth content t :
  identities_ok (mp_identities (sh_projection s0)) →
  exec (project_content local_aci auth content) t (Done tt) → legal_trace (own_projection s0) [] t →
  projection_outcome auth content (sh_projection s0) (sh_projection (apply_updates s0 t)) t.
Proof.
  intros Hok Hex Hl. exact (end_if_sound _ _ _ _ _ (project_content_wp s0 local_aci auth content Hok) Hex Hl).
Qed.

(** ** Draining the acknowledgments at shutdown *)

(** The inbox, once closed, changes only by what the worker does: [ack_submit]
    refuses new acknowledgments. *)
Definition own_state (s0 : Shared) : assumption := λ h o,
  match o return backend_resp o → Prop with
  | OpUpdate _ => λ r, sh_projection r = sh_projection (apply_updates s0 h) ∧
                       sh_inbox r = sh_inbox (apply_updates s0 h)
  | _ => λ _, True
  end.

Definition inbox_after (s0 : Shared) (h : list entry) : AcknowledgmentState := sh_inbox (apply_updates s0 h).

(** The store was asked to record [content]. *)
Definition asked (content : Content) (h : list entry) : Prop :=
  Exists (λ e, entry_op e = OpMarkMessageProjected MESSAGE_PROJECTION_CLIENT content) h.

(** Of the deliveries [p] had pending, those acknowledged in [acked] are still
    to be taken, or the store was asked to record them; and none is forgotten. *)
Definition draining (s0 : Shared) (p : MessageProjection) (acked todo : list N) (h : list entry) : Prop :=
  ∀ id content, mp_pending p !! id = Some content →
    (id ∈ acked → id ∈ todo ∨ id ∈ ack_ready (inbox_after s0 h) ∨ asked content h) ∧
    (mp_pending (deliveries_after s0 h) !! id = Some content ∨ asked content h).

Lemma inbox_after_snoc s0 h (e : entry) :
  inbox_after s0 (h ++ [e]) =
    match entry_op e with OpUpdate f => sh_inbox (f (apply_updates s0 h)) | _ => inbox_after s0 h end.
Proof.
  unfold inbox_after, apply_updates. rewrite foldl_app. destruct e as [o r]. unfold entry_op. simpl. by destruct o.
Qed.

Lemma asked_app content h t : asked content h → asked content (h ++ t).
Proof. intros H. apply Exists_app. by left. Qed.

(** An update that may remove delivery [id], for which the store was asked. *)
Lemma draining_update s0 p acked todo h (e : entry) id :
  draining s0 p acked (id :: todo) h →
  (∀ content, mp_pending p !! id = Some content → asked content h) →
  (∀ j, j ≠ id → j ∈ ack_ready (inbox_after s0 h) → j ∈ ack_ready (inbox_after s0 (h ++ [e]))) →
  (∀ j, j ≠ id → mp_pending (deliveries_after s0 (h ++ [e])) !! j = mp_pending (deliveries_after s0 h) !! j) →
  draining s0 p acked (id :: todo) (h ++ [e]).
Proof.
  intros Hd Hid Hready Hpend j content Hj. destruct (Hd j content Hj) as [H1 H2].
  destruct (decide (j = id)) as [->|Hne].
  - assert (Ha := asked_app _ _ [e] (Hid _ Hj)). auto.
  - split.
    + intros Hin. destruct (H1 Hin) as [?|[?|?]]; [by left|right; left; by apply Hready|].
      right. right. by apply asked_app.
    + rewrite Hpend by done. destruct H2; [by left|right; by apply asked_app].
Qed.

(** Once the store was asked for [id], it is no longer to be taken. *)
Lemma draining_done s0 p acked todo h id :
  draining s0 p acked (id :: todo) h →
  (∀ content, mp_pending p !! id = Some content → asked content h) → draining s0 p acked todo h.
Proof.
  intros Hd Hid j content Hj. destruct (Hd j content Hj) as [H1 H2]. split; [|done].
  intros Hin. destruct (H1 Hin) as [[->|?]%elem_of_cons|?]; [right; right; by apply Hid|by left|by right].
Qed.

Lemma unregister_ready id i : length (ack_ready (ack_unregister id i)) ≤ length (ack_ready i).
Proof. apply length_filter. Qed.

Lemma unregister_keeps id j i : j ≠ id → j ∈ ack_ready i → j ∈ ack_ready (ack_unregister id i).
Proof. intros. simpl. by apply list_elem_of_filter. Qed.

(** What a round of draining keeps. *)
Definition drain_inv (s0 : Shared) (p : MessageProjection) (acked todo : list N) (n : nat) (h : list entry) : Prop :=
  draining s0 p acked todo h ∧ length (ack_ready (inbox_after s0 h)) ≤ n.

Lemma drain_inv_keep s0 p acked todo n h (e : entry) :
  drain_inv s0 p acked todo n h →
  inbox_after s0 (h ++ [e]) = inbox_after s0 h → deliveries_after s0 (h ++ [e]) = deliveries_after s0 h →
  drain_inv s0 p acked todo n (h ++ [e]).
Proof.
  intros [Hd Hn] Hi Hp. split; [|by rewrite Hi]. intros j content Hj. rewrite Hi, Hp.
  destruct (Hd j content Hj) as [H1 H2].
  split; [intros Hin; destruct (H1 Hin) as [?|[?|?]]|destruct H2]; eauto using asked_app.
Qed.

Lemma drain_inv_inbox s0 p acked todo n h id s :
  drain_inv s0 p acked (id :: todo) n h →
  (∀ content, mp_pending p !! id = Some content → asked content h) →
  drain_inv s0 p acked (id :: todo) n
    (h ++ [answered (Sig := backend_sig) (OpUpdate (on_inbox (ack_unregister id))) s]).
Proof.
  intros [Hd Hn] Hid. split.
  - apply (draining_update _ _ _ _ _ _ id); [done..| |].
    + intros j Hj Hin. rewrite inbox_after_snoc. by apply unregister_keeps.
    + intros j Hj. by rewrite deliveries_after_snoc.
  - rewrite inbox_after_snoc. etransitivity; [apply unregister_ready|done].
Qed.

Lemma drain_inv_done s0 p acked todo n h id :
  drain_inv s0 p acked (id :: todo) n h →
  (∀ content, mp_pending p !! id = Some content → asked content h) → drain_inv s0 p acked todo n h.
Proof. intros [Hd Hn] Ha. split; [by eapply draining_done|done]. Qed.

Lemma complete_drains s0 p acked todo n id h :
  drain_inv s0 p acked (id :: todo) n h →
  (∀ content, mp_pending p !! id = Some content → asked content h) →
  wp (end_spec_if (own_state s0)) (complete_delivery id) (λ _ h', drain_inv s0 p acked todo n h') h.
Proof.
  intros Hinv Hid. unfold complete_delivery, with_projection. apply wp_bind, end_if_perform. intros s _.
  set (h1 := h ++ _). assert (Hid1 : ∀ content, mp_pending p !! id = Some content → asked content h1)
    by (intros content Hc; by apply asked_app, Hid).
  assert (H1 : drain_inv s0 p acked (id :: todo) n h1).
  { destruct Hinv as [Hd Hn]. split; [|unfold h1; by rewrite inbox_after_snoc].
    apply (draining_update _ _ _ _ _ _ id); [done..| |].
    - intros j Hj. by rewrite inbox_after_snoc.
    - intros j Hj. rewrite deliveries_after_snoc. simpl. unfold projection_complete.
      fold (deliveries_after s0 h). destruct (mp_pending (deliveries_after s0 h) !! id); [|done].
      simpl. by rewrite lookup_delete_ne. }
  destruct (projection_complete id (sh_projection s)).1; [|by eapply drain_inv_done].
  apply end_if_perform. intros s' _. eapply drain_inv_done; [by apply drain_inv_inbox|].
  intros content Hc. by apply asked_app, Hid1.
Qed.

Lemma acknowledge_drains s0 p acked todo n id h :
  drain_inv s0 p acked (id :: todo) n h →
  wp (end_spec_if (own_state s0)) (acknowledge_or_defer false id) (λ _ h', drain_inv s0 p acked todo n h') h.
Proof.
  intros Hinv. unfold acknowledge_or_defer, acknowledge_message. apply wp_bind, end_if_perform.
  intros s [Hs _]. fold (deliveries_after s0 h) in Hs. rewrite Hs. set (h1 := h ++ _).
  assert (H1 : drain_inv s0 p acked (id :: todo) n h1)
    by (by apply drain_inv_keep; [|rewrite inbox_after_snoc|rewrite deliveries_after_snoc]).
  assert (Hp1 : deliveries_after s0 h1 = deliveries_after s0 h) by (by unfold h1; rewrite deliveries_after_snoc).
  rewrite <-Hp1.
  destruct (mp_pending (deliveries_after s0 h1) !! id) as [c|] eqn:Ec.
  - unfold mark_message_projected. apply end_if_perform. intros r _. set (h2 := h1 ++ _).
    assert (H2 : drain_inv s0 p acked (id :: todo) n h2)
      by (by apply drain_inv_keep; [|rewrite inbox_after_snoc|rewrite deliveries_after_snoc]).
    assert (Hid : ∀ content, mp_pending p !! id = Some content → asked content h2).
    { intros content Hc. destruct H1 as [Hd _]. destruct (Hd id content Hc) as [_ [Hpe|Ha]].
      - rewrite Hpe in Ec. simplify_eq. apply Exists_app. right. by apply Exists_cons_hd.
      - by apply asked_app. }
    destruct r as [[]|e].
    + eapply wp_call; [by apply complete_drains|]. by intros [] h3 H3.
    + destruct (sqlite_store_error_is_transient e); [exact (drain_inv_done _ _ _ _ _ _ _ H2 Hid)|].
      apply end_if_perform. intros [] _. cbn [wp negb andb]. eapply drain_inv_done.
      * by apply drain_inv_keep; [|rewrite inbox_after_snoc|rewrite deliveries_after_snoc].
      * intros content Hc. by apply asked_app, Hid.
  - assert (Hid : ∀ content, mp_pending p !! id = Some content → asked content h1).
    { intros content Hc. destruct H1 as [Hd _]. destruct (Hd id content Hc) as [_ [Hpe|Ha]]; [congruence|done]. }
    apply end_if_perform. intros s' _. cbn [wp negb andb]. eapply drain_inv_done; [by apply drain_inv_inbox|].
    intros content Hc. by apply asked_app, Hid.
Qed.

(** A batch: its ids are to be taken, the rest stays ready. *)
Lemma take_ready_spec maximum i :
  (ack_take_ready maximum i).1 ++ ack_ready (ack_take_ready maximum i).2 = ack_ready i ∧
  (len (ack_take_ready maximum i).1 = 0%N → (0 < maximum)%N → ack_ready i = []).
Proof.
  unfold ack_take_ready. simpl. split; [apply take_drop|]. intros Hl Hm.
  apply len_zero in Hl. destruct (ack_ready i) as [|x l] eqn:E; [done|]. exfalso.
  replace (N.to_nat (N.min maximum (len (x :: l)))) with (S (pred (N.to_nat (N.min maximum (len (x :: l)))))) in Hl;
    [done|]. rewrite len_cons. lia.
Qed.

Lemma process_drains s0 p acked n h :
  drain_inv s0 p acked [] n h →
  wp (end_spec_if (own_state s0)) (process_acknowledgments false) (λ count h',
    if (count =? 0)%N then draining s0 p acked [] h' ∧ ack_ready (inbox_after s0 h') = []
    else 0 < n ∧ drain_inv s0 p acked [] (pred n) h') h.
Proof.
  intros [Hd Hn]. unfold process_acknowledgments, with_inbox. apply wp_bind, end_if_perform. intros s [_ Hs].
  fold (inbox_after s0 h) in Hs. cbn [wp]. rewrite Hs. set (h1 := h ++ _).
  destruct (take_ready_spec ACKNOWLEDGMENT_BATCH_SIZE (inbox_after s0 h)) as [Happ Hnone].
  set (ids := (ack_take_ready _ _).1) in *.
  assert (Hi1 : inbox_after s0 h1 = (ack_take_ready ACKNOWLEDGMENT_BATCH_SIZE (inbox_after s0 h)).2)
    by (unfold h1; by rewrite inbox_after_snoc).
  assert (Hp1 : deliveries_after s0 h1 = deliveries_after s0 h) by (unfold h1; by rewrite deliveries_after_snoc).
  set (m := length (ack_ready (inbox_after s0 h1))).
  assert (Hm : length ids + m = length (ack_ready (inbox_after s0 h)))
    by (rewrite <-Happ, length_app; unfold m; by rewrite Hi1).
  assert (Hd1 : drain_inv s0 p acked ids m h1).
  { split; [|done]. intros j content Hj. destruct (Hd j content Hj) as [H1 H2].
    rewrite Hp1. split; [|destruct H2; [by left|right; by apply asked_app]].
    intros Hin. destruct (H1 Hin) as [[]%elem_of_nil|[Hr|?]]; [|right; right; by apply asked_app].
    rewrite <-Happ in Hr. apply elem_of_app in Hr as [?|?]; [by left|]. right. left. by rewrite Hi1. }
  apply wp_call with (R := λ _ h', drain_inv s0 p acked [] m h').
  { apply wp_for_each with (I := λ _ rest h', drain_inv s0 p acked rest m h'); [done| |done].
    intros _ id rest h' Hinv. by apply acknowledge_drains. }
  intros [] h2 [Hdr Hlen]. cbn [wp]. destruct (len ids =? 0)%N eqn:E.
  - apply N.eqb_eq in E. split; [done|]. rewrite (Hnone E eq_refl) in Hm. simpl in Hm.
    apply length_zero_iff_nil. lia.
  - apply N.eqb_neq in E. unfold len in E. split; [lia|]. split; [done|lia].
Qed.

Lemma drain_loop_wp s0 p acked fuel h :
  drain_inv s0 p acked [] (pred fuel) h → 0 < fuel →
  wp (end_spec_if (own_state s0)) (drain_loop fuel) (λ ended h',
    ended = true ∧ draining s0 p acked [] h' ∧ ack_ready (inbox_after s0 h') = []) h.
Proof.
  revert h. induction fuel as [|fuel IH]; intros h Hinv Hf; [lia|]. cbn [drain_loop].
  eapply wp_call; [by apply process_drains|]. intros count h' Hc. simpl in Hc.
  destruct (count =? 0)%N; [done|]. destruct Hc as [Hpos Hc]. by apply IH.
Qed.

Lemma drain_wp s0 :
  wp (end_spec_if (own_state s0)) drain_acknowledgments (λ ended h,
    ended = true ∧ ack_ready (inbox_after s0 h) = [] ∧
    ∀ id content, id ∈ ack_ready (sh_inbox s0) ++ ack_retry (sh_inbox s0) →
      mp_pending (sh_projection s0) !! id = Some content → asked content h) [].
Proof.
  unfold drain_acknowledgments, update. apply end_if_perform. intros s [_ Hs]. simpl in Hs. rewrite Hs.
  eapply wp_mono; [|apply (drain_loop_wp s0 (sh_projection s0) (ack_ready (sh_inbox s0) ++ ack_retry (sh_inbox s0)))];
    [| |lia].
  - intros ended h (->&Hd&Hr). split_and!; [done..|]. intros id content Hin Hp.
    destruct (Hd id content Hp) as [H1 _]. destruct (H1 Hin) as [[]%elem_of_nil|[Hx|?]]; [|done].
    rewrite Hr in Hx. by apply elem_of_nil in Hx.
  - split; [|done]. intros id content Hp. split; [|by left]. intros Hin. by right; left.
Qed.

(** C33. Draining at shutdown ends (a round more than there are acknowledged
    deliveries is enough), leaves no acknowledgment, and asks the store to
    record every displayed message that was acknowledged, also those whose
    recording had failed before. *)
Theorem drain_asks_for_all s0 t ended :
  exec drain_acknowledgments t (Done ended) → legal_trace (own_state s0) [] t →
  ended = true ∧ ack_ready (sh_inbox (apply_updates s0 t)) = [] ∧
  ∀ id content, id ∈ ack_ready (sh_inbox s0) ++ ack_retry (sh_inbox s0) →
    mp_pending (sh_projection s0) !! id = Some content → asked content t.
Proof. intros Hex Hl. exact (end_if_sound _ _ _ _ _ (drain_wp s0) Hex Hl). Qed.

(** ** Runs from a given state *)

Definition world_from (s0 : Shared) (world : list entry → ∀ o, backend_resp o) (h : list entry) (o : backend_op)
  : backend_resp o :=
  match o return backend_resp o with OpUpdate _ => apply_updates s0 h | o => world h o end.

Lemma world_from_own {A} s0 world (p : proc A) h :
  legal_trace (own_state s0) h (run (Sig := backend_sig) (world_from s0 world) p h).1.
Proof.
  revert h. induction p as [a|o k IH|m]; intros h; [done| |done]. simpl. split; [by destruct o|apply IH].
Qed.

Lemma own_state_projection s0 h t : legal_trace (own_state s0) h t → legal_trace (own_projection s0) h t.
Proof.
  revert h. induction t as [|[o r] t IH]; intros h; simpl; [done|]. intros [Hr Ht]. split; [|by apply IH].
  destruct o; try done. apply Hr.
Qed.

End Projecting.

Definition sample_projection : proc (Sig := @backend_sig string_ids) unit :=
  project_content (Ids := string_ids) (Dig := plain_digests) (Enums := proto_numbers) "me" true sample_content.

Lemma projection_settles_witness :
  projection_outcome (Ids := string_ids) true sample_content projection_new
    (sh_projection (apply_updates (Ids := string_ids) shared_default
       (run (Sig := @backend_sig string_ids) (world_from shared_default download_world) sample_projection []).1))
    (run (Sig := @backend_sig string_ids) (world_from shared_default download_world) sample_projection []).1.
Proof.
  apply (projection_settles (Ids := string_ids) (Dig := plain_digests) (Enums := proto_numbers)
    shared_default "me" true sample_content).
  - split_and!; [by constructor|set_solver|done|set_solver].
  - exact (run_exec (Sig := @backend_sig string_ids) (world_from shared_default download_world) sample_projection []).
  - apply own_state_projection, world_from_own.
Defined.

(** One message shown under delivery 1 and acknowledged. *)
Definition acknowledged_state : Shared (Ids := string_ids) :=
  on_inbox (λ i, (ack_submit 1 (ack_register 1 i)).2)
    (on_projection (λ p, (track sample_content p).2) shared_default).

Lemma drain_asks_for_all_witness :
  asked (Ids := string_ids) sample_content
    (run (Sig := @backend_sig string_ids) (world_from acknowledged_state calm_world) drain_acknowledgments []).1.
Proof.
  apply (drain_asks_for_all (Ids := string_ids) acknowledged_state _
    (match (run (Sig := @backend_sig string_ids) (world_from acknowledged_state calm_world) drain_acknowledgments []).2
     with Done b => b | _ => false end)) with (id := 1%N).
  - exact (run_exec (Sig := @backend_sig string_ids) (world_from acknowledged_state calm_world) drain_acknowledgments []).
  - apply world_from_own.
  - vm_compute. left.
  - vm_compute. reflexivity.
Defined.
