(* ===== verification/Snapshots.v ===== *)
(** * Snapshots: contacts, groups, identities and avatars shown to C

    Models, from [rust/signal-core/src/backend/coordinator.rs], the snapshots
    of contacts and groups, the account and identity-change events, and the
    background tasks that request contacts, fetch avatars and synchronise
    groups ([request_contacts_with_retries] to [spawn_group_sync],
    [emit_contact_snapshot] to [emit_identity_changes]). *)
From S2P Require Import Prelude Event Session GroupState StoreErrors SignalTypes.
From S2P Require Import Effects Backend Repository Groups.

Section Snapshots.
Context `{Ids : SignalIds} `{Dig : Digests}.

(** [if when { tokio::task::yield_now().await }]. *)
Definition yield_if (when : bool) : proc unit := if when then perform OpYield else Ret tt.

Definition at_interval (n : N) : bool := (n mod SNAPSHOT_YIELD_INTERVAL =? 0)%N.

(** ** Contacts *)

Definition contact_peer (contact : Contact) : string :=
  service_id_string (ServiceId_Aci (Aci_from_uuid (cn_uuid contact))).

(** The name to show, remembered for later snapshots. *)
Definition contact_title (contact : Contact) : proc (option string) :=
  if negb (is_empty (cn_name contact)) then
    _ ← update (on_metadata (put_contact_name (contact_peer contact) (cn_name contact)));
    Ret (Some (cn_name contact))
  else
    s ← update id;
    Ret (get_contact_name (contact_peer contact) (sh_metadata s)).

(** The profile key of the record, or the one the store has for the account;
    errors are only logged. *)
Definition profile_key_of (contact : Contact) : proc (option (list byte)) :=
  if decide (length (cn_profile_key contact) = 32) then Ret (Some (cn_profile_key contact))
  else
    r ← contact_profile_key (ServiceId_Aci (Aci_from_uuid (cn_uuid contact)));
    Ret (match r with Ok key => key | Err _ => None end).

Definition contact_event (contact : Contact) (title : option string) : Event :=
  mkEvent EVENT_CONTACT 0 0 0 0 (Some (contact_peer contact)) None title (cn_phone_number contact) [].

Definition contact_avatar_event (contact : Contact) (avatar : list byte * string) : Event :=
  mkEvent EVENT_AVATAR 0 0 0 0 (Some (contact_peer contact)) None (Some avatar.2) None avatar.1.

Definition cached_contact_avatar (contact : Contact) (profile_key : option (list byte))
  : proc (option (list byte)) :=
  match profile_key with
  | Some key =>
      r ← contact_avatar (cn_uuid contact) key;
      Ret (match r with Ok avatar => avatar | Err _ => None end)
  | None => Ret None
  end.

(** One turn of the loop of [emit_contact_snapshot]. *)
Definition emit_contact (index : nat) (contact : Contact) : proc unit :=
  _ ← yield_if (negb (index =? 0)%nat && at_interval (N.of_nat index));
  title ← contact_title contact;
  _ ← emit (contact_event contact title);
  profile_key ← profile_key_of contact;
  avatar ← cached_contact_avatar contact profile_key;
  match avatar with
  | Some raw =>
      prepared ← perform (OpPrepareAvatar raw);
      emit (contact_avatar_event contact prepared)
  | None => Ret tt
  end.

Definition emit_contact_snapshot : proc unit :=
  r ← contacts;
  match r with
  | Ok contacts =>
      _ ← emit (plain_event EVENT_CONTACT_SYNC_BEGIN);
      _ ← for_each (imap pair contacts) tt (λ _ ic, emit_contact ic.1 ic.2);
      emit (plain_event EVENT_CONTACT_SYNC_END)
  | Err e =>
      if storage_is_transient e then Ret tt
      else emit (error ("Could not read synchronized Signal contacts: " +:+ storage_error_text e) false)
  end.

(** ** The account *)

Definition account_identity_event (aci : Aci) (profile_name : option string) : Event :=
  mkEvent EVENT_ACCOUNT 0 0 0 0 (Some (service_id_string (ServiceId_Aci aci))) None
    (non_empty profile_name) None [].

Definition emit_account_identity (local_aci : Aci) : proc unit :=
  profile_name ← perform OpRetrieveProfileName;
  emit (account_identity_event local_aci profile_name).

(** ** Groups *)

Definition group_event (chat_id : string) (group : Group) : Event :=
  mkEvent EVENT_GROUP 0 0 0 0 None (Some chat_id) (Some (gr_title group)) None [].

Definition group_avatar_event (chat_id : string) (avatar : list byte * string) : Event :=
  mkEvent EVENT_AVATAR 0 0 0 0 None (Some chat_id) (Some avatar.2) None avatar.1.

Definition group_member_event (chat_id : string) (member : Member) : Event :=
  mkEvent EVENT_GROUP_MEMBER 0 0 0 (if member_administrator member then 1 else 0)
    (Some (service_id_string (ServiceId_Aci (member_aci member)))) (Some chat_id) None None [].

Definition group_sync_end (authoritative : bool) : Event :=
  mkEvent EVENT_GROUP_SYNC_END 0 0 0 (if authoritative then 1 else 0) None None None None [].

(** One turn of the loop of [emit_group_snapshot]; the state is
    [emitted_records]. *)
Definition emit_group (local_aci : Aci) (emitted_records : N) (kg : list byte * Group) : proc N :=
  _ ← yield_if (negb (emitted_records =? 0)%N && at_interval emitted_records);
  let chat_id := group_identifier kg.1 in
  s ← update id;
  if departed_contains chat_id (sh_departed s) || negb (group_contains_local_aci kg.2 local_aci)
  then Ret emitted_records
  else
    _ ← update (on_metadata (index_group chat_id kg.1));
    _ ← emit (group_event chat_id kg.2);
    r ← group_avatar kg.1;
    emitted_records ← (match r with
      | Ok (Some raw) =>
          prepared ← perform (OpPrepareAvatar raw);
          _ ← emit (group_avatar_event chat_id prepared);
          Ret (emitted_records + 2)%N
      | _ => Ret (emitted_records + 1)%N
      end);
    for_each (gr_members kg.2) emitted_records (λ emitted_records member,
      _ ← yield_if (at_interval emitted_records);
      _ ← emit (group_member_event chat_id member);
      Ret (emitted_records + 1)%N).

Definition emit_group_snapshot (local_aci : Aci) (authoritative : bool) : proc (result unit string) :=
  r ← repo_groups;
  try_ (map_err storage_error_text r) (λ groups,
    _ ← emit (plain_event EVENT_GROUP_SYNC_BEGIN);
    _ ← for_each groups 0%N (emit_group local_aci);
    _ ← emit (group_sync_end authoritative);
    Ret (Ok tt)).

Definition synchronize_and_emit_group_snapshot (local_aci : Aci) : proc (result unit string) :=
  r ← perform OpSynchronizeStorageGroups;
  try_ (map_err (λ e, "Could not synchronize Signal groups: " +:+ e) r) (λ _,
    emit_group_snapshot local_aci true).

(** The task of [spawn_group_sync]. *)
Definition synchronize_groups_task (local_aci : Aci) : proc unit :=
  r ← until ByShutdown (synchronize_and_emit_group_snapshot local_aci);
  match r with
  | Some result => perform (OpSendGroupSync result)
  | None => Ret tt
  end.

(** ** Identity changes *)

Definition identity_change_event (change : IdentityChangeNotice) : Event :=
  mkEvent EVENT_IDENTITY_CHANGE 0 0 0 (if notice_verified change then 1 else 0)
    (Some (notice_address change)) None None None [].

Definition emit_identity_changes : proc unit :=
  r ← identity_change_notices;
  match r with
  | Ok changes =>
      for_each (imap pair changes) tt (λ _ ic,
        _ ← yield_if (negb (ic.1 =? 0)%nat && at_interval (N.of_nat ic.1));
        emit (identity_change_event ic.2))
  | Err e =>
      if sqlite_store_error_is_transient e then Ret tt
      else emit (error ("Could not read Signal identity changes: " +:+ store_text e) false)
  end.

(** ** Background tasks of a connection *)

(** The loop of [request_contacts_with_retries]: it ends only when a request
    succeeds or at shutdown, so the number of turns is a parameter, and false
    says that they were used up. *)
Fixpoint request_contacts_with_retries (turns : nat) (backoff : RecoveryBackoff) : proc bool :=
  match turns with
  | O => Ret false
  | S turns =>
      r ← until ByShutdown (perform OpRequestContacts);
      match r with
      | None | Some (Ok _) => Ret true
      | Some (Err e) =>
          let delay := next_delay backoff in
          _ ← emit (transient_error ("Could not request Signal contact synchronization: " +:+ e
                                     +:+ "; retrying automatically"));
          if (delay.1 =? 0)%N then request_contacts_with_retries turns delay.2
          else
            slept ← until ByShutdown (perform (OpSleep (delay.1 * 1000)));
            match slept with
            | None => Ret true
            | Some _ => request_contacts_with_retries turns delay.2
            end
      end
  end.

Definition request_contacts_after_queue_drain (turns : nat) : proc unit :=
  run_after_start_signal (_ ← request_contacts_with_retries turns (mkBackoff 0); Ret tt).

(** Fetch an avatar that is not in the store; false when the shutdown ended
    the task. *)
Definition fetch_avatar (fetch : proc (result (option (list byte)) string)) (show : list byte * string → Event)
  : proc bool :=
  r ← until ByShutdown fetch;
  match r with
  | None => Ret false
  | Some (Ok (Some avatar)) =>
      prepared ← perform (OpPrepareAvatar avatar);
      _ ← emit (show prepared);
      Ret true
  | Some _ => Ret true
  end.

(** [match cached { Ok(avatar) => avatar.is_some(), Err(_) => false }]. *)
Definition is_cached (r : result (option (list byte)) SqliteStoreError) : bool :=
  match r with Ok (Some _) => true | _ => false end.

Definition fetch_missing_contact_avatar (contact : Contact) : proc bool :=
  _ ← perform OpYield;
  profile_key ← profile_key_of contact;
  match profile_key with
  | None => Ret true
  | Some key =>
      r ← contact_avatar (cn_uuid contact) key;
      if is_cached r then Ret true
      else fetch_avatar (perform (OpRetrieveProfileAvatar (cn_uuid contact) key)) (contact_avatar_event contact)
  end.

Definition fetch_missing_group_avatar (local_aci : Aci) (kg : list byte * Group) : proc bool :=
  _ ← perform OpYield;
  if negb (group_contains_local_aci kg.2 local_aci) || is_empty (gr_avatar kg.2) then Ret true
  else
    _ ← update (on_metadata (index_group (group_identifier kg.1) kg.1));
    r ← group_avatar kg.1;
    if is_cached r then Ret true
    else fetch_avatar
           (perform (OpRetrieveGroupAvatar (mkGroupContext (Some kg.1) (Some (gr_revision kg.2)))))
           (group_avatar_event (group_identifier kg.1)).

(** Go on only while the shutdown did not end the task. *)
Definition while_running {A} (f : A → proc bool) (running : bool) (x : A) : proc bool :=
  if running then f x else Ret false.

Definition fetch_missing_avatars (local_aci : Aci) : proc unit :=
  r ← contacts;
  running ← (match r with
             | Ok contacts => for_each contacts true (while_running fetch_missing_contact_avatar)
             | Err _ => Ret true
             end);
  if negb running then Ret tt
  else
    r ← repo_groups;
    match r with
    | Ok groups =>
        _ ← for_each groups true (while_running (fetch_missing_group_avatar local_aci)); Ret tt
    | Err _ => Ret tt
    end.

Definition fetch_missing_avatars_after_queue_drain (local_aci : Aci) : proc unit :=
  run_after_start_signal (fetch_missing_avatars local_aci).

(** ** Snapshots are complete *)

Lemma repo_groups_ends :
  ends repo_groups (λ r t, ∃ x, t = [answered (Sig := backend_sig) OpGroups x] ∧
    ∀ groups, r = Ok groups → ∃ stream, x = Ok stream ∧ collect stream = Ok groups).
Proof.
  apply ends_perform. intros [stream|e]; apply ends_ret; (eexists; split; [done|]); intros groups Hr; [|done].
  exists stream. split; [done|]. by destruct (collect stream); simplify_eq/=.
Qed.

Lemma yield_if_ends b : ends (yield_if b) (λ _ t, events t = []).
Proof. destruct b; [by apply ends_last|by apply ends_ret]. Qed.

(** The events of one group, with its avatar if the store has one. *)
Definition group_records (x : (list byte * Group) * option (list byte * string)) : list Event :=
  let chat_id := group_identifier x.1.1 in
  group_event chat_id x.1.2 ::
  (match x.2 with Some avatar => [group_avatar_event chat_id avatar] | None => [] end) ++
  (group_member_event chat_id <$> gr_members x.1.2).

(** The group was seen not leaving, or leaving or left, in the shared state. *)
Definition seen_departed (b : bool) (kg : list byte * Group) (t : list entry) : Prop :=
  ∃ s, was_read s t ∧ departed_contains (group_identifier kg.1) (sh_departed s) = b.

Definition indexed (kg : list byte * Group) (t : list entry) : Prop :=
  ∃ s, answered (Sig := backend_sig) (OpUpdate (on_metadata (index_group (group_identifier kg.1) kg.1))) s ∈ t.

Definition group_shown (local_aci : Aci) (kg : list byte * Group) (t : list entry) : Prop :=
  group_contains_local_aci kg.2 local_aci = true ∧ seen_departed false kg t ∧ indexed kg t.

Definition group_hidden (local_aci : Aci) (kg : list byte * Group) (t : list entry) : Prop :=
  group_contains_local_aci kg.2 local_aci = false ∨ seen_departed true kg t.

Lemma members_end chat_id members n :
  ends (for_each members n (λ emitted_records member,
      _ ← yield_if (at_interval emitted_records);
      _ ← emit (group_member_event chat_id member);
      Ret (emitted_records + 1)%N))
    (λ _ t, events t = group_member_event chat_id <$> members).
Proof.
  apply (ends_for_each members n _ (λ l t, events t = group_member_event chat_id <$> l)); [done|].
  intros m l t k Ht. eapply ends_bind; [apply yield_if_ends|]. intros [] t1 H1.
  apply ends_perform. intros []. apply ends_ret. by rewrite !events_app, Ht, H1, fmap_app.
Qed.

(** What one turn of the loop adds: the group is shown with [Some], hidden
    with [None]. *)
Definition group_turn (local_aci : Aci) (kg : list byte * Group)
  (shown : option (option (list byte * string))) (t : list entry) : Prop :=
  match shown with
  | Some avatar => events t = group_records (kg, avatar) ∧ group_shown local_aci kg t
  | None => events t = [] ∧ group_hidden local_aci kg t
  end.

Lemma emit_group_ends local_aci n kg :
  ends (emit_group local_aci n kg) (λ _ t, ∃ shown, group_turn local_aci kg shown t).
Proof.
  unfold emit_group. set (chat_id := group_identifier kg.1).
  eapply ends_bind; [apply yield_if_ends|]. intros [] t1 H1. apply ends_perform. intros s.
  assert (Hread : ∀ t', seen_departed (departed_contains chat_id (sh_departed s)) kg
    (t1 ++ answered (Sig := backend_sig) (OpUpdate id) s :: t')).
  { intros t'. exists s. split; [|done]. exists id. apply elem_of_app. right. by left. }
  destruct (_ || negb _) eqn:E.
  - apply ends_ret. exists None. split; [by rewrite events_app, H1|]. apply orb_true_iff in E as [E|E%negb_true_iff].
    + right. rewrite <-E. apply Hread.
    + by left.
  - apply orb_false_iff in E as [E Em%negb_false_iff].
    apply ends_perform. intros s'. apply ends_perform. intros []. apply ends_perform. intros r.
    eapply ends_bind with (P := λ _ t, ∃ avatar, events t =
      match avatar with Some a => [group_avatar_event chat_id a] | None => [] end).
    { destruct r as [[raw|]|e]; [|by apply ends_ret; exists None..].
      apply ends_perform. intros a. apply ends_perform. intros []. apply ends_ret. by exists (Some a). }
    intros n' t2 [avatar H2]. eapply ends_mono; [apply members_end|]. intros ? t3 H3.
    exists (Some avatar). split.
    + rewrite events_app, H1. cbn [app]. rewrite !events_skip, events_emit, events_skip, events_app by done.
      by rewrite H2, H3.
    + split_and!; [done|by rewrite <-E|]. exists s'. set_solver.
Qed.

(** The loop over the groups of the store. *)
Definition groups_turned (local_aci : Aci) (groups : list (list byte * Group)) (t : list entry) : Prop :=
  ∃ shown : list ((list byte * Group) * option (list byte * string)),
    events t = shown ≫= group_records ∧ shown.*1 `sublist_of` groups ∧
    (∀ kg, kg ∈ shown.*1 → group_shown local_aci kg t) ∧
    (∀ kg, kg ∈ groups → kg ∉ shown.*1 → group_hidden local_aci kg t).

Lemma was_read_app s t t' : was_read s t ∨ was_read s t' → was_read s (t ++ t').
Proof. intros [[f Hf]|[f Hf]]; exists f; set_solver. Qed.

Lemma seen_departed_app b kg t t' : seen_departed b kg t ∨ seen_departed b kg t' → seen_departed b kg (t ++ t').
Proof. intros [(s&Hs&?)|(s&Hs&?)]; exists s; split; try done; apply was_read_app; auto. Qed.

Lemma group_shown_app local_aci kg t t' :
  group_shown local_aci kg t ∨ group_shown local_aci kg t' → group_shown local_aci kg (t ++ t').
Proof.
  intros [(?&?&s&Hs)|(?&?&s&Hs)]; (split_and!; [done|apply seen_departed_app; auto|exists s; set_solver]).
Qed.

Lemma group_hidden_app local_aci kg t t' :
  group_hidden local_aci kg t ∨ group_hidden local_aci kg t' → group_hidden local_aci kg (t ++ t').
Proof. intros [[?|?]|[?|?]]; [by left|right|by left|right]; apply seen_departed_app; auto. Qed.

Lemma groups_turned_snoc local_aci groups kg t t' :
  groups_turned local_aci groups t → (∃ shown, group_turn local_aci kg shown t') →
  groups_turned local_aci (groups ++ [kg]) (t ++ t').
Proof.
  intros (l&He&Hsub&Hs&Hh) [[avatar|] [He' Hk]].
  - exists (l ++ [(kg, avatar)]). rewrite fmap_app. split_and!.
    + rewrite events_app, bind_app, He, He'. simpl. by rewrite app_nil_r.
    + by apply sublist_app.
    + intros kg' [Hin|Heq%list_elem_of_singleton]%elem_of_app; [|subst kg']; apply group_shown_app; auto.
    + intros kg' [Hin|Heq%list_elem_of_singleton]%elem_of_app Hn; [|subst kg'; set_solver].
      apply group_hidden_app. left. apply Hh; [done|set_solver].
  - exists l. split_and!.
    + by rewrite events_app, He, He', app_nil_r.
    + by apply sublist_inserts_r.
    + intros kg' Hin. apply group_shown_app; auto.
    + intros kg' [Hin|Heq%list_elem_of_singleton]%elem_of_app Hn; [|subst kg']; apply group_hidden_app; auto.
Qed.

(** What a snapshot emits. *)
Lemma emit_group_snapshot_spec local_aci authoritative t r :
  exec (emit_group_snapshot local_aci authoritative) t (Done r) →
  match r with
  | Err _ => events t = []
  | Ok _ =>
      ∃ stream groups shown,
        answered (Sig := backend_sig) OpGroups (Ok stream) ∈ t ∧ collect stream = Ok groups ∧
        events t = plain_event EVENT_GROUP_SYNC_BEGIN :: (shown ≫= group_records)
                     ++ [group_sync_end authoritative] ∧
        shown.*1 `sublist_of` groups ∧
        (∀ kg, kg ∈ shown.*1 → group_shown local_aci kg t) ∧
        (∀ kg, kg ∈ groups → kg ∉ shown.*1 → group_hidden local_aci kg t)
  end.
Proof.
  intros Hex. pattern r, t. eapply ends_sound; [|exact Hex]. clear.
  eapply ends_bind; [apply repo_groups_ends|]. intros [groups|e] t1 (x&->&Hx); simpl.
  - destruct (Hx _ eq_refl) as (stream&->&Hstream).
    apply ends_perform. intros []. eapply ends_bind.
    { apply (ends_for_each groups 0%N _ (groups_turned local_aci)).
      - exists []. split_and!; [done|constructor|by intros ? ?%elem_of_nil..].
      - intros kg before t2 n Ht2. eapply ends_mono; [apply emit_group_ends|].
        intros n' t3 Ht3. by apply groups_turned_snoc. }
    intros n t2 (shown&He&Hsub&Hs&Hh). apply ends_perform. intros []. apply ends_ret.
    exists stream, groups, shown. split; [by left|]. split; [done|]. split; [|split; [done|split]].
    + by rewrite events_emit, events_app, He.
    + intros kg Hin. apply (group_shown_app _ _ [_]). right.
      apply (group_shown_app _ _ [_]). right. apply group_shown_app. auto.
    + intros kg Hin Hn. apply (group_hidden_app _ _ [_]). right.
      apply (group_hidden_app _ _ [_]). right. apply group_hidden_app. auto.
  - by apply ends_ret.
Qed.

(** A group snapshot is all or nothing: if the groups cannot be read it
    emits nothing; otherwise it is bracketed by its begin and end events and
    shows, in the order of the store, each group with its title, avatar and all
    members, that has the local account as member and was not seen leaving, and
    only those; each shown group can then be addressed by its identifier. *)
Theorem group_snapshot_complete local_aci authoritative t r :
  exec (emit_group_snapshot local_aci authoritative) t (Done r) →
  match r with
  | Err _ => events t = []
  | Ok _ =>
      ∃ stream groups shown,
        answered (Sig := backend_sig) OpGroups (Ok stream) ∈ t ∧ collect stream = Ok groups ∧
        events t = plain_event EVENT_GROUP_SYNC_BEGIN :: (shown ≫= group_records)
                     ++ [group_sync_end authoritative] ∧
        shown.*1 `sublist_of` groups ∧
        (∀ kg, kg ∈ shown.*1 → group_shown local_aci kg t) ∧
        (∀ kg, kg ∈ groups → kg ∉ shown.*1 → group_hidden local_aci kg t)
  end.
Proof. apply emit_group_snapshot_spec. Qed.

End Snapshots.

(** ** A run *)

Lemma group_snapshot_complete_witness :
  let t := (run (Sig := @backend_sig string_ids) sample_world
    (emit_group_snapshot (Ids := string_ids) (Dig := plain_digests) "me" true) []).1 in
  (ev_kind <$> events (Ids := string_ids) t) =
    [EVENT_GROUP_SYNC_BEGIN; EVENT_GROUP; EVENT_GROUP_MEMBER; EVENT_GROUP_SYNC_END] ∧
  ∃ stream groups, answered (Sig := @backend_sig string_ids) OpGroups (Ok stream) ∈ t ∧ collect stream = Ok groups.
Proof.
  split; [vm_compute; reflexivity|].
  destruct (group_snapshot_complete (Ids := string_ids) (Dig := plain_digests) "me" true _ _
    (run_exec (Sig := @backend_sig string_ids) sample_world
       (emit_group_snapshot (Ids := string_ids) (Dig := plain_digests) "me" true) []))
    as (stream&groups&shown&?&?&_). by exists stream, groups.
Defined.
