(* ===== verification/Tasks.v ===== *)
(** * Tasks: attachment uploads, delivery receipts, and stopping them

    Models, from [rust/signal-core/src/backend/worker.rs], the task around an
    upload ([attachment_task_result]), the interruption and abandonment of
    attachments, the commands deferred while recovering, and the functions
    that stop the tasks of a connection; from [backend/coordinator.rs],
    [finish_attachment_completion] and [handle_attachment_completion]; and from
    [backend/projection.rs] the delivery-receipt tasks.  Running tasks live in
    tokio's [JoinSet]s, which are reached through operations; [sh_aborts] is
    [attachment_aborts], the controls of the attachments not yet answered. *)
From S2P Require Import Prelude Event Attachment Command Session GroupState StoreErrors SignalTypes.
From S2P Require Import Acknowledgment Effects Backend Repository Groups ProjectionState Outbox Commands.
From S2P Require Import Content Delivery Projecting Snapshots.

Section Tasks.
Context `{Ids : SignalIds} `{Dig : Digests} `{Enums : ProtoEnums}.

(** ** The task of an upload *)

(** [attachment_task_result]: the upload may be aborted through the permit's
    registration, and a panic in it is an error. *)
Definition attachment_task_result (request_id : N) (permit : AttachmentPermit)
  (task : proc (result SentMessage string)) : proc AttachmentCompletion :=
  match take_cancellation_registration permit with
  | None => Panic "attachment cancellation registration is taken only once"
  | Some permit =>
      r ← until (ByAbort (permit_control permit)) (catch_unwind task);
      match r with
      | None => Ret (mkCompletion request_id TaskCancelled permit)
      | Some caught =>
          let result := default (Err "Signal attachment task failed unexpectedly") caught in
          claimed ← with_attachments (permit_claim_terminal permit);
          Ret (mkCompletion request_id
                 (if claimed || is_ok result then Finished result else TaskCancelled) permit)
      end
  end.

(** What [spawn_local] runs for a [SendAttachment] command. *)
Definition attachment_task (local_aci : Aci) (request_id : N) (permit : AttachmentPermit)
  (attachment : OutgoingAttachment) : proc AttachmentCompletion :=
  attachment_task_result request_id permit (upload_and_send_attachment local_aci attachment).

Definition attachment_sent (request_id : N) : Event :=
  with_request_id request_id (plain_event EVENT_ATTACHMENT_SENT).

(** [finish_attachment_completion]; the permit is dropped when it returns. *)
Definition finish_attachment_completion (completed : result AttachmentCompletion string)
  : proc (option SentMessage) :=
  match completed with
  | Err _ => Ret None
  | Ok completion =>
      let request_id := ac_request_id completion in
      sent ← (match ac_result completion with
              | Finished (Ok sent) => _ ← emit (attachment_sent request_id); Ret (Some sent)
              | Finished (Err e) => _ ← emit (request_error request_id e); Ret None
              | TaskCancelled => Ret None
              end);
      _ ← update (on_aborts (delete request_id));
      _ ← update (on_attachments (drop_permit (ac_permit completion)));
      Ret sent
  end.

Definition handle_attachment_completion (completed : result AttachmentCompletion string) : proc unit :=
  finished ← finish_attachment_completion completed;
  _ ← (match finished with
       | Some sent => mark_sent_message_projected_or_report sent
       | None => Ret tt
       end);
  emit_identity_changes.

(** ** Interrupting attachments *)

Definition interrupted_attachment_event (request_id control : N) (a : AttachmentAdmission)
  : option Event * AttachmentAdmission :=
  if control_is_cancelled control (adm_heap a) then (None, a)
  else (Some (request_error request_id "Signal connection was interrupted before the attachment completed"),
        set_heap (control_claim_terminal control (adm_heap a)).2 a).

(** [drain()] of a [HashMap] has no fixed order; no theorem depends on it. *)
Definition interrupt_remaining_attachments : proc unit :=
  s ← update (on_aborts (λ _, ∅));
  for_each (map_to_list (sh_aborts s)) tt (λ _ rc,
    event ← with_attachments (interrupted_attachment_event rc.1 rc.2);
    match event with
    | Some event => emit event
    | None => Ret tt
    end).

Definition abandon_timed_out_attachments : proc unit :=
  _ ← perform OpDropAttachments;
  interrupt_remaining_attachments.

(** The loop [while let Some(completed) = tasks.join_next().await]: the set is
    empty after as many joins as it has tasks, so one turn more is enough. *)
Fixpoint join_attachments (turns : nat) (completions : list (result AttachmentCompletion string))
  : proc (list (result AttachmentCompletion string)) :=
  match turns with
  | O => Ret completions
  | S turns =>
      r ← perform OpJoinAttachment;
      match r with
      | Some completed => join_attachments turns (completions ++ [completed])
      | None => Ret completions
      end
  end.

(** [abort_and_drain_tasks] for the attachments, whose abort handles are those
    of [sh_aborts]. *)
Definition abort_and_drain_attachments : proc (list (result AttachmentCompletion string)) :=
  s ← update id;
  _ ← perform (OpAbortAttachments (map_to_list (sh_aborts s)).*1);
  running ← perform OpAttachmentsRunning;
  join_attachments (S (N.to_nat running)) [].

Definition abort_in_flight_attachments : proc unit :=
  completions ← abort_and_drain_attachments;
  sent_messages ← for_each completions [] (λ sent_messages completed,
    sent ← finish_attachment_completion completed;
    Ret (match sent with Some sent => sent_messages ++ [sent] | None => sent_messages end));
  _ ← for_each sent_messages tt (λ _ sent, mark_sent_message_projected_or_report sent);
  interrupt_remaining_attachments.

(** ** Delivery receipts *)

(** [send_receipt_at_timestamp] and the task of
    [spawn_delivery_receipt_attempt]. *)
Definition send_receipt_at_timestamp (recipient : ServiceId) (message_timestamp : N) (receipt_type : Z)
  (send_timestamp : N) : proc (result unit PresageError) :=
  perform (OpSendReceipt recipient
    (BodyReceipt (mkReceiptMessage (Some receipt_type) [message_timestamp])) send_timestamp).

Definition delivery_receipt_attempt (generation : N) (receipt : PendingDeliveryReceipt)
  : proc DeliveryReceiptCompletion :=
  result ← send_receipt_at_timestamp (receipt_recipient receipt)
    (ri_message_timestamp (receipt_identity receipt)) RECEIPT_DELIVERY (receipt_send_timestamp receipt);
  Ret (mkReceiptCompletion generation receipt result).

Fixpoint join_receipts (turns : nat) : proc unit :=
  match turns with
  | O => Ret tt
  | S turns =>
      r ← perform OpJoinReceipt;
      match r with
      | Some _ => join_receipts turns
      | None => Ret tt
      end
  end.

Definition on_receipts (f : DeliveryReceiptQueue → DeliveryReceiptQueue) : Shared → Shared :=
  on_projection (λ p, set_receipts (f (mp_delivery_receipts p)) p).

Definition abort_delivery_receipt_tasks : proc unit :=
  _ ← perform OpAbortReceipts;
  running ← perform OpReceiptsRunning;
  _ ← join_receipts (S (N.to_nat running));
  _ ← update (on_receipts receipts_release_in_flight);
  Ret tt.

(** [finish_delivery_receipt_attempt] on the shared state: the event it emits
    and the error that asks for a new connection. *)
Definition finish_receipt (completion : DeliveryReceiptCompletion) : proc (option string) :=
  s ← update (on_receipts (λ q,
    (finish_delivery_receipt_attempt (rc_receipt completion) (rc_result completion) q).2));
  let r := finish_delivery_receipt_attempt (rc_receipt completion) (rc_result completion)
             (mp_delivery_receipts (sh_projection s)) in
  _ ← (match r.1.1 with Some event => emit event | None => Ret tt end);
  Ret r.1.2.

(** ** Stopping *)

Definition stop_receive_driver : proc unit :=
  _ ← perform (OpAbort TaskReceive);
  perform (OpJoin TaskReceive).

Definition stop_attachments_and_drain_acknowledgments : proc unit :=
  _ ← update (on_inbox ack_close);
  finished ← finish_shutdown_cleanup
    (_ ← abort_delivery_receipt_tasks;
     _ ← abort_in_flight_attachments;
     _ ← drain_acknowledgments;
     Ret tt) SHUTDOWN_CLEANUP_TIMEOUT_SECS;
  if (finished : bool) then Ret tt else abandon_timed_out_attachments.

(** [stop_receive_tasks]; [group_sync] says whether that task runs. *)
Definition stop_receive_tasks (group_sync : bool) (final_cleanup : proc unit) : proc unit :=
  _ ← perform (OpAbort TaskReceive);
  _ ← perform (OpAbort TaskContactSync);
  _ ← perform (OpAbort TaskAvatarFetch);
  _ ← (if group_sync then perform (OpAbort TaskGroupSync) else Ret tt);
  finished ← finish_shutdown_cleanup
    (_ ← perform (OpJoin TaskReceive);
     _ ← perform (OpJoin TaskContactSync);
     _ ← perform (OpJoin TaskAvatarFetch);
     _ ← (if group_sync then perform (OpJoin TaskGroupSync) else Ret tt);
     _ ← abort_in_flight_attachments;
     final_cleanup) SHUTDOWN_CLEANUP_TIMEOUT_SECS;
  if (finished : bool) then Ret tt else abandon_timed_out_attachments.

Definition stop_active_receive_loop (group_sync : bool) : proc unit :=
  _ ← update (on_inbox ack_close);
  stop_receive_tasks group_sync
    (_ ← abort_delivery_receipt_tasks;
     _ ← drain_acknowledgments;
     Ret tt).

(** ** Commands deferred while the connection recovers *)

Definition handle_recovery_command (command : Command) (deferred : list Command) : list Command :=
  match command with
  | SetTyping _ _ _ => deferred
  | command => deferred ++ [command]
  end.

(** The loop of [drain_recovery_commands]; the channel holds a bounded number
    of commands, but C may keep sending, so the turns are a parameter and
    [None] says that they were used up. *)
Fixpoint drain_recovery_commands (turns : nat) : proc (option bool) :=
  match turns with
  | O => Ret None
  | S turns =>
      r ← perform OpTryRecv;
      match r with
      | TryReceived command =>
          _ ← update (on_deferred (handle_recovery_command command));
          drain_recovery_commands turns
      | TryEmpty => Ret (Some false)
      | TryDisconnected => Ret (Some true)
      end
  end.

(** [deferred_command_failure]; the permit of an attachment is dropped with
    the command. *)
Definition deferred_command_failure (command : Command) (message : string) (a : AttachmentAdmission)
  : option Event * AttachmentAdmission :=
  match command with
  | LeaveGroup request_id group_key => (Some (group_request_error request_id group_key message), a)
  | SendMessage request_id _ _ | SendGroupMessage request_id _ _ | AcceptIdentity request_id _
  | DismissIdentity request_id _ | ResetSession request_id _ => (Some (request_error request_id message), a)
  | SendAttachment request_id _ _ _ _ _ permit =>
      let claimed := permit_claim_terminal permit a in
      (if claimed.1 then Some (request_error request_id message) else None, drop_permit permit claimed.2)
  | SetTyping _ _ _ | MarkRead _ _ _ => (None, a)
  end.

Definition fail_deferred_commands (message : string) : proc unit :=
  s ← update (on_deferred (λ _, []));
  for_each (sh_deferred s) tt (λ _ command,
    _ ← perform (OpRefuse command);
    event ← with_attachments (deferred_command_failure command message);
    match event with
    | Some event => emit event
    | None => Ret tt
    end).

End Tasks.
