(* ===== verification/Stopping.v ===== *)
(** * Stopping: every attachment is settled when a connection stops

    Theorems of [Tasks].  However a connection is stopped, and whether or not
    the cleanup finishes in time, every attachment still under way gets one
    answer, or was cancelled by the user. *)
From S2P Require Import Prelude Event Attachment Command Session GroupState StoreErrors SignalTypes.
From S2P Require Import Acknowledgment Effects Backend Repository Groups ProjectionState Outbox Commands.
From S2P Require Import Content Delivery Projecting Snapshots Tasks.

Section Stopping.
Context `{Ids : SignalIds} `{Dig : Digests} `{Enums : ProtoEnums}.

(** ** Answers in a history *)

(** The number of events for a request. *)
Definition answers_to (id : N) (h : list entry) : nat :=
  length (filter (λ ev, ev_request_id ev = id) (events h)).

Lemma answers_to_app id h t : answers_to id (h ++ t) = answers_to id h + answers_to id t.
Proof. unfold answers_to. by rewrite events_app, filter_app, length_app. Qed.

Lemma answers_to_emit id ev r :
  answers_to id [answered (Sig := backend_sig) (OpEmit ev) r] = if decide (ev_request_id ev = id) then 1 else 0.
Proof.
  unfold answers_to. rewrite events_emit. case_decide; [by rewrite filter_cons_True|by rewrite filter_cons_False].
Qed.

(** The tasks that [join_next] returned. *)
Definition join_of (e : entry) : option AttachmentCompletion :=
  match e with
  | existT o r =>
      match o return backend_resp o → option AttachmentCompletion with
      | OpJoinAttachment => λ r, r ≫= ok
      | _ => λ _, None
      end r
  end.

Definition joins (h : list entry) : list AttachmentCompletion := omap join_of h.

Definition joined (c : AttachmentCompletion) (h : list entry) : Prop := c ∈ joins h.

Lemma joined_app c h t : joined c h → joined c (h ++ t).
Proof. intros Hj. unfold joined, joins. rewrite omap_app. by apply elem_of_app; left. Qed.

Section From.
Context (s0 : Shared).

Definition aborts_after (h : list entry) : gmap N N := sh_aborts (apply_updates s0 h).

(** The user cancelled the attachment: its task said so, or its control. *)
Definition was_cancelled (id : N) (h : list entry) : Prop :=
  (∃ c, joined c h ∧ ac_request_id c = id ∧ ac_result c = TaskCancelled) ∨
  (∃ control s, sh_aborts s0 !! id = Some control ∧ was_read s h ∧
     control_is_cancelled control (adm_heap (sh_attachments s)) = true).

(** With [m] the attachments not yet answered: the others are settled. *)
Record settled_with (m : gmap N N) (h : list entry) : Prop := {
  settled_sub : m ⊆ sh_aborts s0;
  settled_open : ∀ id, id ≠ 0%N → is_Some (m !! id) → answers_to id h = 0;
  settled_foreign : ∀ id, id ≠ 0%N → sh_aborts s0 !! id = None → answers_to id h = 0;
  settled_once : ∀ id, id ≠ 0%N → answers_to id h <= 1;
  settled_cancelled : ∀ id, id ≠ 0%N → is_Some (sh_aborts s0 !! id) → m !! id = None →
    answers_to id h = 0 → was_cancelled id h;
}.

Definition settled_now (h : list entry) : Prop := settled_with (aborts_after h) h.

(** [attachment_aborts] belongs to the worker, which puts the control of a task
    there when it spawns the task; tokio's [join_next] returns each task once. *)
Definition stop_answers : assumption := λ h o,
  match o return backend_resp o → Prop with
  | OpUpdate _ => λ r, sh_aborts r = aborts_after h
  | OpJoinAttachment => λ r,
      match r with
      | Some (Ok c) => is_Some (aborts_after h !! ac_request_id c) ∧
                       ∀ c', joined c' h → ac_request_id c' ≠ ac_request_id c
      | _ => True
      end
  | _ => λ _, True
  end.

(** Where the program waits, everything is settled but what is still open. *)
Definition stop_spec : spec :=
  mkSpecification stop_answers (λ _ _, True) (λ _ h, settled_now h) (λ _ _, True).

Lemma was_cancelled_app id h t : was_cancelled id h → was_cancelled id (h ++ t).
Proof.
  intros [(c&?&?)|(control&s&?&?&?)]; [left; exists c|right; exists control, s].
  - split; [by apply joined_app|done].
  - split_and!; [done|apply was_read_app; by left|done].
Qed.

(** Answering or cancelling one more attachment. *)
Lemma settle_one m h t id control :
  settled_with m h → m !! id = Some control →
  (∀ id', id' ≠ 0%N → id' ≠ id → answers_to id' t = 0) → answers_to id t <= 1 →
  (answers_to id t = 0 → was_cancelled id (h ++ t)) →
  settled_with (delete id m) (h ++ t).
Proof.
  intros [Hsub Ho Hf H1 Hc] Hm Hother Hone Hcan.
  assert (Hs : is_Some (sh_aborts s0 !! id)) by (eexists; by eapply lookup_weaken).
  split.
  - etrans; [apply delete_subseteq|done].
  - intros id' Hz Hin. destruct (decide (id' = id)) as [->|Hne]; [by rewrite lookup_delete_eq in Hin; destruct Hin|].
    rewrite lookup_delete_ne in Hin by done. rewrite answers_to_app, Ho, Hother; done.
  - intros id' Hz Hin. assert (id' ≠ id) by (intros ->; by rewrite Hin in Hs; destruct Hs).
    rewrite answers_to_app, Hf, Hother; done.
  - intros id' Hz. rewrite answers_to_app. destruct (decide (id' = id)) as [->|Hne].
    + rewrite Ho; [lia|done|by eexists].
    + rewrite Hother by done. specialize (H1 id' Hz). lia.
  - intros id' Hz Hin Hnone. rewrite answers_to_app. destruct (decide (id' = id)) as [->|Hne]; [intros; apply Hcan; lia|].
    rewrite lookup_delete_ne in Hnone by done. intros. apply was_cancelled_app, Hc; [done..|lia].
Qed.

(** ** What does not touch attachments *)

Definition apart (o : backend_op) : Prop :=
  match o with
  | OpEmit ev => ev_request_id ev = 0%N
  | OpUpdate f => ∀ s, sh_aborts (f s) = sh_aborts s
  | OpJoinAttachment | OpInterrupted _ _ | OpShutdownRequested => False
  | _ => True
  end.

Lemma apart_joins t h : Forall (λ e : entry, apart (entry_op e)) t → joins (h ++ t) = joins h.
Proof.
  intros Ht. unfold joins. rewrite omap_app. assert (omap join_of t = []) as ->; [|by rewrite app_nil_r].
  induction Ht as [|[o r] t Ho Ht IH]; [done|]. unfold entry_op in Ho. simpl in *. by destruct o.
Qed.

Lemma apart_aborts t h :
  Forall (λ e : entry, apart (entry_op e)) t → aborts_after (h ++ t) = aborts_after h.
Proof.
  intros Ht. unfold aborts_after, apply_updates. rewrite foldl_app. generalize (foldl (λ s e, match projT1 e with OpUpdate f => f s | _ => s end) s0 h).
  induction Ht as [|[o r] t Ho Ht IH]; intros s; [done|]. simpl. rewrite IH.
  unfold entry_op in Ho. simpl in *. by destruct o.
Qed.

Lemma apart_answers t id : id ≠ 0%N → Forall (λ e : entry, apart (entry_op e)) t → answers_to id t = 0.
Proof.
  intros Hz Ht. induction Ht as [|[o r] t Ho Ht IH]; [done|].
  change (answers_to id ([existT o r] ++ t) = 0). rewrite answers_to_app, IH. unfold answers_to, entry_op in *. simpl in *.
  destruct o; try done.
  simpl in Ho. rewrite filter_cons_False; [done|congruence].
Qed.

Lemma settled_app m h t :
  settled_with m h → (∀ id, id ≠ 0%N → answers_to id t = 0) → settled_with m (h ++ t).
Proof.
  intros [Hsub Ho Hf H1 Hc] Ht.
  assert (Ha : ∀ id, id ≠ 0%N → answers_to id (h ++ t) = answers_to id h).
  { intros id Hz. rewrite answers_to_app, Ht by done. lia. }
  split; [done|..]; intros id Hz; rewrite ?Ha by done; auto.
  intros Hin Hn Hzero. apply was_cancelled_app. auto.
Qed.

Lemma settled_apart m h t :
  settled_with m h → Forall (λ e : entry, apart (entry_op e)) t → settled_with m (h ++ t).
Proof. intros Hs Ht. apply settled_app; [done|]. intros id Hz. by apply apart_answers. Qed.

Lemma settled_now_apart h t :
  settled_now h → Forall (λ e : entry, apart (entry_op e)) t → settled_now (h ++ t).
Proof. intros Hs Ht. unfold settled_now. rewrite apart_aborts by done. by apply settled_apart. Qed.

Lemma wp_apart {A} (p : proc A) h :
  only_ops apart p → settled_now h → wp stop_spec p (λ _ h', settled_now h' ∧ extends apart h h') h.
Proof.
  intros Hp Hh. eapply wp_mono; [|apply (wp_only_ops stop_spec apart); [done|]].
  - intros a h' He. split; [|done]. destruct He as (t&->&Ht). by apply settled_now_apart.
  - split; [done|]. split; [|done]. intros h' o (t&->&Ht) _. by apply settled_now_apart.
Qed.

(** ** Completed tasks *)

Lemma aborts_after_snoc h (o : backend_op) r :
  aborts_after (h ++ [answered (Sig := backend_sig) o r]) =
    match o with OpUpdate f => sh_aborts (f (apply_updates s0 h)) | _ => aborts_after h end.
Proof. unfold aborts_after, apply_updates. rewrite foldl_app. by destruct o. Qed.

Definition finished_after (h : list entry) (c : AttachmentCompletion) (h' : list entry) : Prop :=
  settled_now h' ∧ aborts_after h' = delete (ac_request_id c) (aborts_after h) ∧ ∃ t, h' = h ++ t.

(** The tail of [finish_attachment_completion], after at most one event for
    the request. *)
Lemma finish_tail_wp h h1 t1 (c : AttachmentCompletion) (sent : option SentMessage) :
  settled_now h → is_Some (aborts_after h !! ac_request_id c) → h1 = h ++ t1 → aborts_after h1 = aborts_after h →
  (∀ id, id ≠ 0%N → id ≠ ac_request_id c → answers_to id t1 = 0) → answers_to (ac_request_id c) t1 <= 1 →
  (answers_to (ac_request_id c) t1 = 0 → was_cancelled (ac_request_id c) h) →
  wp stop_spec (_ ← update (on_aborts (delete (ac_request_id c)));
                _ ← update (on_attachments (drop_permit (ac_permit c)));
                Ret sent) (λ _ h', finished_after h c h') h1.
Proof.
  intros Hh [control Hin] -> Hab Hother Hone Hcan.
  split; [by intros ?|]. intros s _. split; [done|]. split; [by intros ?|]. intros s' _. split; [done|]. cbn [wp].
  set (t2 := [answered (Sig := backend_sig) (OpUpdate (on_aborts (delete (ac_request_id c)))) s;
              answered (Sig := backend_sig) (OpUpdate (on_attachments (drop_permit (ac_permit c)))) s']).
  rewrite <-!app_assoc. change (_ ++ _) with (h ++ t1 ++ t2) at 1.
  assert (Hab' : aborts_after (h ++ t1 ++ t2) = delete (ac_request_id c) (aborts_after h)).
  { rewrite <-Hab, app_assoc. unfold t2, aborts_after, apply_updates. by rewrite foldl_app. }
  assert (Ht2 : ∀ id, answers_to id (t1 ++ t2) = answers_to id t1) by (intros id; rewrite answers_to_app; unfold answers_to; simpl; lia).
  split; [|split; [done|by eexists]]. unfold settled_now. rewrite Hab'.
  eapply settle_one; [done|done|..]; intros; rewrite ?Ht2; auto.
  rewrite app_assoc. do 2 apply was_cancelled_app. apply Hcan. by rewrite <-Ht2.
Qed.

Lemma finish_wp h (c : AttachmentCompletion) :
  settled_now h → is_Some (aborts_after h !! ac_request_id c) → joined c h →
  wp stop_spec (finish_attachment_completion (Ok c)) (λ _ h', finished_after h c h') h.
Proof.
  intros Hh Hin Hj. unfold finish_attachment_completion. set (id := ac_request_id c) in *.
  assert (Hemit : ∀ ev (sent : option SentMessage), ev_request_id ev = id →
    wp stop_spec (sent ← (_ ← emit ev; Ret sent);
                  _ ← update (on_aborts (delete id));
                  _ ← update (on_attachments (drop_permit (ac_permit c))); Ret sent)
      (λ _ h', finished_after h c h') h).
  { intros ev sent Hev. split; [by intros ?|]. intros [] _. split; [done|].
    eapply finish_tail_wp; [done|done|reflexivity|..].
    - by rewrite aborts_after_snoc.
    - intros id' _ Hne. rewrite answers_to_emit, decide_False; [done|]. rewrite Hev. by apply not_eq_sym.
    - rewrite answers_to_emit. case_decide; lia.
    - by rewrite answers_to_emit, decide_True. }
  destruct (ac_result c) as [[sent|e]|] eqn:Er; [by apply Hemit|by apply Hemit|].
  eapply (finish_tail_wp h h []); [done|done|by rewrite app_nil_r|done|done|unfold answers_to; simpl; lia|].
  intros _. left. by exists c.
Qed.

(** The tasks joined after the abort: all known, each once. *)
Definition joined_all (h : list entry) (l : list (result AttachmentCompletion string)) : Prop :=
  joins h = omap ok l ∧ NoDup (ac_request_id <$> joins h) ∧
  ∀ c, joined c h → is_Some (aborts_after h !! ac_request_id c).

Lemma joins_snoc h (o : backend_op) r :
  joins (h ++ [answered (Sig := backend_sig) o r]) =
    joins h ++ match join_of (answered (Sig := backend_sig) o r) with Some c => [c] | None => [] end.
Proof. unfold joins. by rewrite omap_app. Qed.

(** The loop collects every task it joins. *)
Lemma join_attachments_wp turns l h :
  settled_now h → joined_all h l →
  wp stop_spec (join_attachments turns l) (λ l' h', settled_now h' ∧ joined_all h' l') h.
Proof.
  revert l h. induction turns as [|turns IH]; intros l h Hh Hl; [done|].
  cbn [join_attachments]. split; [by intros _|]. intros r Hr. split; [done|].
  set (h' := h ++ [answered (Sig := backend_sig) OpJoinAttachment r]).
  assert (Hab : aborts_after h' = aborts_after h) by (apply (aborts_after_snoc h OpJoinAttachment r)).
  assert (Hq : settled_now h') by (unfold settled_now; rewrite Hab; by apply settled_app).
  assert (Hj := joins_snoc h OpJoinAttachment r). fold h' in Hj.
  destruct Hl as (Heq&Hnd&Hin).
  assert (Hsame : join_of (answered (Sig := backend_sig) OpJoinAttachment r) = None →
    joins h' = omap ok l ∧ NoDup (ac_request_id <$> joins h') ∧
    ∀ c, joined c h' → is_Some (aborts_after h' !! ac_request_id c)).
  { intros E. rewrite E, app_nil_r in Hj. unfold joined. rewrite Hab, Hj. done. }
  destruct r as [[c|e]|].
  - destruct Hr as [Hk Hnew]. apply IH; [done|]. unfold joined_all, joined. rewrite Hab, Hj, omap_app, Heq. simpl.
    split_and!; [done| |].
    + rewrite fmap_app. apply NoDup_app. split_and!; [by rewrite <-Heq| |apply NoDup_singleton].
      intros id (c'&->&Hc')%list_elem_of_fmap. simpl. rewrite list_elem_of_singleton.
      apply Hnew. unfold joined. by rewrite Heq.
    + intros c'. rewrite elem_of_app, list_elem_of_singleton, <-Heq. intros [?| ->]; [by apply Hin|done].
  - apply IH; [done|]. destruct (Hsame eq_refl) as (?&?&?). split_and!; [|done..]. rewrite omap_app. simpl. by rewrite app_nil_r.
  - split; [done|]. by apply Hsame.
Qed.

(** Completions still to be processed. *)
Definition to_finish (h : list entry) (l : list (result AttachmentCompletion string)) : Prop :=
  NoDup (ac_request_id <$> omap ok l) ∧
  ∀ c, c ∈ omap ok l → joined c h ∧ is_Some (aborts_after h !! ac_request_id c).

Lemma finish_each_wp l h :
  settled_now h → to_finish h l →
  wp stop_spec (for_each l [] (λ (sent_messages : list SentMessage) completed,
      sent ← finish_attachment_completion completed;
      Ret (match sent with Some sent => sent_messages ++ [sent] | None => sent_messages end)))
    (λ _ h', settled_now h') h.
Proof.
  intros Hh Hl. eapply (wp_for_each stop_spec l [] _ (λ _ rest h, settled_now h ∧ to_finish h rest));
    [done| |by intros ? ? []].
  clear. intros sent [c|e] rest h [Hh [Hnd Hin]]; simpl in *; [|done].
  apply NoDup_cons in Hnd as [Hn Hnd]. destruct (Hin c) as [Hj Hk]; [by left|].
  eapply wp_call; [by apply finish_wp|]. intros r h' (Hs&Hab&t&->). split; [done|]. split; [done|].
  intros c' Hc'. destruct (Hin c') as [Hj' Hk']; [by right|]. split; [by apply joined_app|].
  rewrite Hab, lookup_delete_ne; [done|]. intros Heq. apply Hn. rewrite Heq. by apply list_elem_of_fmap_2.
Qed.

(** One attachment of [interrupt_remaining_attachments]. *)
Lemma interrupt_one_wp m h id control :
  settled_with m h → m !! id = Some control → aborts_after h = ∅ →
  wp stop_spec (event ← with_attachments (interrupted_attachment_event id control);
                match event with Some event => emit event | None => Ret tt end)
    (λ _ h', settled_with (delete id m) h' ∧ aborts_after h' = ∅) h.
Proof.
  intros Hh Hm Hab. split; [by intros ?|]. intros s _. split; [done|].
  set (upd := OpUpdate _).
  assert (Hskip : ∀ i, answers_to i [answered (Sig := backend_sig) upd s] = 0) by done.
  cbn [mbind proc_mbind proc_bind]. unfold interrupted_attachment_event.
  destruct (control_is_cancelled control (adm_heap (sh_attachments s))) eqn:Ec; simpl.
  - split; [|by rewrite aborts_after_snoc]. eapply settle_one; [done|done|intros; apply Hskip|rewrite Hskip; lia|].
    intros _. right. exists control, s. split_and!; [|eexists|done].
    + by eapply lookup_weaken, settled_sub.
    + apply elem_of_app. right. by apply list_elem_of_singleton.
  - split; [by intros ?|]. intros [] _. split; [done|]. rewrite <-app_assoc.
    set (ev := request_error id _).
    assert (Hev : ∀ i, answers_to i ([answered (Sig := backend_sig) upd s] ++
                                     [answered (Sig := backend_sig) (OpEmit ev) tt]) = if decide (id = i) then 1 else 0).
    { intros i. by rewrite answers_to_app, Hskip, answers_to_emit. }
    split; [|by rewrite app_assoc, !aborts_after_snoc].
    eapply settle_one; [done|done|..]; intros; rewrite ?Hev in *; case_decide; try done; congruence.
Qed.

Lemma interrupt_remaining_wp h :
  settled_now h →
  wp stop_spec interrupt_remaining_attachments (λ _ h', settled_with ∅ h' ∧ aborts_after h' = ∅) h.
Proof.
  intros Hh. split; [by intros ?|]. intros s Hs. simpl in Hs. split; [done|].
  set (h1 := h ++ _).
  assert (H1 : aborts_after h1 = ∅) by (unfold h1; by rewrite aborts_after_snoc).
  eapply (wp_for_each stop_spec _ tt _ (λ _ rest h, NoDup rest.*1 ∧ settled_with (list_to_map rest) h ∧
    aborts_after h = ∅)).
  - split_and!; [apply NoDup_fst_map_to_list| |done]. rewrite list_to_map_to_list, Hs.
    by apply settled_app.
  - intros _ [id control] rest h' (Hnd&Hst&Hab). apply NoDup_cons in Hnd as [Hn Hnd].
    eapply wp_mono; [|apply (interrupt_one_wp _ _ id control Hst); [simpl; by rewrite lookup_insert_eq|done]].
    intros _ h2 [H2 ?]. split_and!; [done| |done]. simpl in H2. rewrite delete_insert_id in H2; [done|].
    by apply not_elem_of_list_to_map.
  - intros _ h' (_&?&?). done.
Qed.

(** ** The cleanup *)

Definition all_settled (h : list entry) : Prop := settled_now h ∧ aborts_after h = ∅.

Lemma mark_sent_apart (sent : SentMessage) : only_ops apart (mark_sent_message_projected_or_report sent).
Proof. by apply mark_sent_only. Qed.

Lemma receipts_apart : only_ops apart abort_delivery_receipt_tasks.
Proof.
  unfold abort_delivery_receipt_tasks. apply only_ops_bind; [done|]. intros []. apply only_ops_bind; [done|].
  intros running. apply only_ops_bind; [|by intros []].
  generalize (S (N.to_nat running)). intros n. induction n as [|n IH]; [done|].
  split; [done|]. by intros [[]|].
Qed.

Lemma drain_apart : only_ops apart drain_acknowledgments.
Proof.
  unfold drain_acknowledgments. apply only_ops_bind; [done|]. intros s.
  generalize (S (length (ack_ready (ack_close (sh_inbox s))))). intros n. induction n as [|n IH]; [done|].
  cbn [drain_loop]. apply only_ops_bind; [|intros count; by destruct (count =? 0)%N].
  unfold process_acknowledgments, acknowledge_or_defer, acknowledge_message, complete_delivery,
    mark_message_projected, with_inbox, with_projection, update, emit. solve_only_ops.
Qed.

Lemma wp_apart_call {A B} (p : proc A) (k : A → proc B) Q h :
  only_ops apart p → settled_now h → (∀ a t, Forall (λ e : entry, apart (entry_op e)) t →
    settled_now (h ++ t) → wp stop_spec (k a) Q (h ++ t)) → wp stop_spec (p ≫= k) Q h.
Proof.
  intros Hp Hh Hk. eapply wp_call; [by apply wp_apart|]. intros a h' [Hs (t&->&Ht)]. by apply Hk.
Qed.

Lemma abort_in_flight_wp h :
  settled_now h → joins h = [] → wp stop_spec abort_in_flight_attachments (λ _ h', all_settled h') h.
Proof.
  intros Hh Hj. unfold abort_in_flight_attachments, abort_and_drain_attachments.
  eapply wp_call with (R := λ l h', settled_now h' ∧ joined_all h' l).
  - split; [by intros ?|]. intros s _. split; [done|]. split; [by intros ?|]. intros [] _. split; [done|].
    split; [by intros ?|]. intros running _. split; [done|]. cbn [proc_bind]. apply join_attachments_wp.
    + rewrite <-!app_assoc. apply settled_now_apart; [done|]. repeat constructor.
    + assert (joins (((h ++ [answered (Sig := backend_sig) (OpUpdate id) s]) ++
        [answered (Sig := backend_sig) (OpAbortAttachments (map_to_list (sh_aborts s)).*1) tt]) ++
        [answered (Sig := backend_sig) OpAttachmentsRunning running]) = []) as Hnone.
      { rewrite <-!app_assoc. unfold joins in *. by rewrite omap_app, Hj. }
      unfold joined_all, joined. rewrite Hnone. split_and!; [done|constructor|by intros ? ?%elem_of_nil].
  - intros l h1 (H1&Heq&Hnd&Hin). eapply wp_call; [apply finish_each_wp; [done|]|].
    { rewrite Heq in Hnd. split; [done|]. intros c Hc. rewrite <-Heq in Hc. split; [done|by apply Hin]. }
    intros sent h2 H2. apply wp_apart_call; [|done|].
    { apply only_ops_for_each. intros ? x. apply mark_sent_apart. }
    intros _ t Ht H3. eapply wp_mono; [|by apply interrupt_remaining_wp].
    intros _ h3 [Hs Hab]. split; [|done]. unfold settled_now. by rewrite Hab.
Qed.

Lemma apart_uninterrupted o : apart o → uninterrupted o.
Proof. by destruct o. Qed.

Lemma only_apart {A} (p : proc A) : only_ops apart p → only_ops uninterrupted p.
Proof. apply only_ops_mono, apart_uninterrupted. Qed.

Lemma interrupt_uninterrupted : only_ops uninterrupted interrupt_remaining_attachments.
Proof.
  unfold interrupt_remaining_attachments, with_attachments, update, emit. solve_only_ops.
Qed.

Lemma join_uninterrupted turns l : only_ops uninterrupted (join_attachments turns l).
Proof.
  revert l. induction turns as [|turns IH]; intros l; [done|]. split; [done|]. intros [c|]; [apply IH|done].
Qed.

Lemma abort_uninterrupted : only_ops uninterrupted abort_in_flight_attachments.
Proof.
  unfold abort_in_flight_attachments. apply only_ops_bind.
  { split; [done|]. intros s. split; [done|]. intros []. split; [done|]. intros running. apply join_uninterrupted. }
  intros l. apply only_ops_bind; [unfold finish_attachment_completion, update, emit; solve_only_ops|].
  intros sent. apply only_ops_bind; [|intros; apply interrupt_uninterrupted].
  apply only_ops_for_each. intros ? x. apply only_apart, mark_sent_apart.
Qed.

(** A cleanup with its time limit, and the abandonment when it is exceeded. *)
Lemma cleanup_wp (p : proc unit) seconds h :
  only_ops uninterrupted p →
  (∀ h, settled_now h → joins h = [] → wp stop_spec p (λ _ h', all_settled h') h) →
  settled_now (live h) → joins (live h) = [] →
  wp (lift_spec stop_spec)
    (finished ← finish_shutdown_cleanup p seconds;
     if (finished : bool) then Ret tt else abandon_timed_out_attachments)
    (λ _ h', all_settled (live h')) h.
Proof.
  intros Hu Hp Hh Hj. unfold finish_shutdown_cleanup.
  eapply wp_call; [|intros a h' Ha; exact Ha]. eapply wp_call; [by eapply wp_until, Hp|].
  intros [[]|] h1 H1; cbn [wp]; [by rewrite bool_decide_eq_true_2 by done|].
  rewrite bool_decide_eq_false_2 by (by intros []). destruct H1 as (o&_&H1).
  split; [by intros ?|]. intros [] _. split; [by intros|].
  eapply wp_lift; [apply interrupt_uninterrupted|].
  eapply wp_mono; [|apply interrupt_remaining_wp].
  - intros [] h2 [Hs Hab]. split; [|done]. unfold settled_now. by rewrite Hab.
  - rewrite live_app. apply settled_now_apart; [done|]. by apply Forall_singleton.
Qed.

(** ** The ways to stop a connection *)

(** While waiting to reconnect or to start, while active, or to recover. *)
Inductive stop := StopWaiting | StopActive (group_sync : bool) | StopRecovering (group_sync : bool).

Definition stop_program (k : stop) : proc unit :=
  match k with
  | StopWaiting => stop_attachments_and_drain_acknowledgments
  | StopActive group_sync => stop_active_receive_loop group_sync
  | StopRecovering group_sync => stop_receive_tasks group_sync (Ret tt)
  end.

Lemma settled_start : settled_now [].
Proof.
  split; [done|..]; try (intros; unfold answers_to; simpl; lia).
  - intros id _ [x Hx] Hn. unfold aborts_after in Hn. simpl in Hn. congruence.
Qed.

(** The operations before the cleanup change nothing. *)
Lemma before_cleanup (o : backend_op) (p : proc unit) Q h :
  apart o → suspends o = false → settled_now (live h) → joins (live h) = [] →
  (∀ h', settled_now (live h') → joins (live h') = [] → wp (lift_spec stop_spec) p Q h') →
  wp (lift_spec stop_spec) (perform (o : op) ≫= λ _, p) Q h.
Proof.
  intros Ho Hs Hh Hj Hp. split; [rewrite Hs; by intros ?|]. intros r _. split; [by intros|]. apply Hp.
  all: rewrite live_app, live_one by (by apply apart_uninterrupted).
  - apply settled_now_apart; [done|]. by apply Forall_singleton.
  - rewrite apart_joins; [done|]. by apply Forall_singleton.
Qed.

Lemma stop_receive_wp group_sync (final_cleanup : proc unit) h :
  only_ops apart final_cleanup → settled_now (live h) → joins (live h) = [] →
  wp (lift_spec stop_spec) (stop_receive_tasks group_sync final_cleanup) (λ _ h', all_settled (live h')) h.
Proof.
  intros Hf Hh Hj. unfold stop_receive_tasks.
  do 3 (apply before_cleanup; [done|done|done|done|]; clear h Hh Hj; intros h Hh Hj).
  assert (Hclean : ∀ h, settled_now (live h) → joins (live h) = [] → wp (lift_spec stop_spec)
    (finished ← finish_shutdown_cleanup
      (_ ← perform (OpJoin TaskReceive); _ ← perform (OpJoin TaskContactSync); _ ← perform (OpJoin TaskAvatarFetch);
       _ ← (if group_sync then perform (OpJoin TaskGroupSync) else Ret tt);
       _ ← abort_in_flight_attachments; final_cleanup) SHUTDOWN_CLEANUP_TIMEOUT_SECS;
     if (finished : bool) then Ret tt else abandon_timed_out_attachments) (λ _ h', all_settled (live h')) h).
  { clear h Hh Hj. intros h. apply cleanup_wp.
    - do 3 (apply only_ops_bind; [done|intros []]). apply only_ops_bind; [by destruct group_sync|intros []].
      apply only_ops_bind; [apply abort_uninterrupted|]. intros. by apply only_apart.
    - clear h. intros h Hh Hj.
      do 4 (apply wp_apart_call; [by try destruct group_sync|done|]; intros [] t Ht Hs;
        rewrite <-(apart_joins t) in Hj by done; revert Hs Hj; generalize (h ++ t); clear h Hh t Ht;
        intros h Hh Hj).
      eapply wp_call; [by apply abort_in_flight_wp|]. intros [] h1 [H1 Hab].
      eapply wp_mono; [|by apply wp_apart]. intros [] h2 [H2 (t&->&Ht)]. split; [done|]. by rewrite apart_aborts. }
  destruct group_sync; [apply before_cleanup; [done..|]|]; auto.
Qed.

Lemma stop_wp k : wp (lift_spec stop_spec) (stop_program k) (λ _ h', all_settled (live h')) [].
Proof.
  assert (Hfinal : only_ops apart (_ ← abort_delivery_receipt_tasks; _ ← drain_acknowledgments; Ret tt)).
  { apply only_ops_bind; [apply receipts_apart|]. intros. apply only_ops_bind; [apply drain_apart|done]. }
  assert (Hstart := settled_start). destruct k as [|group_sync|group_sync]; cbn [stop_program].
  - apply before_cleanup; [done|done|done|done|]. intros h Hh Hj. apply cleanup_wp; [| |done|done].
    + apply only_ops_bind; [apply only_apart, receipts_apart|]. intros _.
      apply only_ops_bind; [apply abort_uninterrupted|]. intros _.
      apply only_ops_bind; [apply only_apart, drain_apart|done].
    + clear h Hh Hj. intros h Hh Hj. apply wp_apart_call; [apply receipts_apart|done|]. intros [] t Ht Hs.
      eapply wp_call; [apply abort_in_flight_wp; [done|by rewrite apart_joins]|]. intros [] h1 [H1 Hab].
      apply wp_apart_call; [apply drain_apart|done|]. intros b t2 Ht2 H2. split; [done|]. by rewrite apart_aborts.
  - apply before_cleanup; [done|done|done|done|]. intros h Hh Hj. by apply stop_receive_wp.
  - by apply stop_receive_wp.
Qed.

(** ** Histories without interruptions *)

Lemma live_fold {B} (f : B → entry → B) (b : B) h :
  (∀ b e, ¬ uninterrupted (entry_op e) → f b e = b) → foldl f b (live h) = foldl f b h.
Proof.
  intros Hf. revert b. induction h as [|e h IH]; intros b; [done|]. unfold live. simpl.
  destruct (decide (uninterrupted (entry_op e))) as [He|He].
  - rewrite filter_cons_True by done. simpl. apply IH.
  - rewrite filter_cons_False, Hf by done. apply IH.
Qed.

Lemma live_aborts h : aborts_after (live h) = aborts_after h.
Proof. unfold aborts_after, apply_updates. f_equal. apply live_fold. intros b [o r]. by destruct o. Qed.

Lemma live_omap {B} (f : entry → option B) h :
  (∀ e, ¬ uninterrupted (entry_op e) → f e = None) → omap f (live h) = omap f h.
Proof.
  intros Hf. induction h as [|e h IH]; [done|].
  destruct (decide (uninterrupted (entry_op e))) as [He|He].
  - unfold live in *. rewrite filter_cons_True by done. cbn [omap list_omap]. by destruct (f e); rewrite <-IH.
  - unfold live in *. rewrite filter_cons_False by done. rewrite IH. simpl. by rewrite (Hf e).
Qed.

Lemma live_joins h : joins (live h) = joins h.
Proof. apply live_omap. intros [o r]. by destruct o. Qed.

Lemma live_answers id h : answers_to id (live h) = answers_to id h.
Proof. unfold answers_to, events. rewrite live_omap; [done|]. intros [o r]. by destruct o. Qed.

Lemma live_cancelled id h : was_cancelled id (live h) → was_cancelled id h.
Proof.
  intros [(c&Hj&?)|(control&s&?&[f Hr]&?)]; [left|right].
  - exists c. unfold joined in *. by rewrite live_joins in Hj.
  - exists control, s. split_and!; [done| |done]. exists f. by apply list_elem_of_filter in Hr as [_ Hr].
Qed.

Lemma stop_answers_live h t : legal_trace stop_answers h t → legal_trace (legal (lift_spec stop_spec)) h t.
Proof.
  revert h. induction t as [|[o r] t IH]; intros h; simpl; [done|]. intros [Hr Ht]. split; [|by apply IH].
  intros _. unfold stop_answers, joined in *. destruct o; try done; simpl in *.
  - by rewrite live_aborts.
  - destruct r as [[c|]|]; [|done..]. by rewrite live_aborts, live_joins.
Qed.

End From.

(** C23. However a connection is stopped (while waiting, while active, or to
    recover), and whether its cleanup finishes or runs into the time limit at
    any point: no attachment stays unanswered.  Each attachment under way gets
    exactly one event with its request number, unless the user cancelled it,
    and no other request gets any. *)
Theorem attachments_settled_on_stop k s0 t :
  exec (stop_program k) t (Done tt) → legal_trace (stop_answers s0) [] t →
  sh_aborts (apply_updates s0 t) = ∅ ∧
  ∀ id, id ≠ 0%N →
    answers_to id t <= 1 ∧
    (sh_aborts s0 !! id = None → answers_to id t = 0) ∧
    (is_Some (sh_aborts s0 !! id) → answers_to id t = 0 → was_cancelled s0 id t).
Proof.
  intros Hex Hl. apply stop_answers_live in Hl.
  destruct (wp_sound _ _ _ [] t (Done tt) (stop_wp s0 k) Hex Hl) as [_ [[Hsub Ho Hf H1 Hc] Hab]].
  rewrite live_aborts in *. split; [done|]. intros id Hz. split_and!.
  - rewrite <-live_answers. by apply H1.
  - intros Hn. rewrite <-live_answers. by apply Hf.
  - intros Hin Hzero. apply live_cancelled, Hc; [done|done| |by rewrite live_answers].
    rewrite Hab. apply lookup_empty.
Qed.

End Stopping.

(** ** Runs

    Two attachments under way: one upload is joined as sent, then the other is
    interrupted. *)

Definition stopping_state : @Shared string_ids :=
  on_aborts (λ _, {[ 7 := 1; 8 := 2 ]}%N) (shared_default (Ids := string_ids)).

Definition sent_completion : AttachmentCompletion (Ids := string_ids) :=
  mkCompletion (Ids := string_ids) 7
    (Finished (Ok (mkSentMessage (Ids := string_ids) (ThreadContact (Ids := string_ids) "friend") 5)))
    (mkPermit 7 1 false).

Definition stopping_world (h : list (@entry (@backend_sig string_ids))) (o : @backend_op string_ids)
  : @backend_resp string_ids o :=
  match o return @backend_resp string_ids o with
  | OpUpdate _ => apply_updates stopping_state h
  | OpAttachmentsRunning => 1%N
  | OpJoinAttachment => match joins h with [] => Some (Ok sent_completion) | _ => None end
  | o => calm_world (Ids := string_ids) h o
  end.

Definition stopping_run := run (Sig := @backend_sig string_ids) stopping_world
  (stop_program (Ids := string_ids) StopWaiting) [].

Lemma stopping_run_legal : legal_trace (Sig := @backend_sig string_ids) (stop_answers stopping_state) [] stopping_run.1.
Proof.
  vm_compute. repeat split; try (by eexists). by intros c Hc%elem_of_nil.
Qed.

Lemma attachments_settled_on_stop_witness :
  answers_to (Ids := string_ids) 7 stopping_run.1 = 1 ∧ answers_to (Ids := string_ids) 8 stopping_run.1 = 1 ∧
  sh_aborts (apply_updates (Ids := string_ids) stopping_state stopping_run.1) = ∅ ∧
  answers_to (Ids := string_ids) 9 stopping_run.1 = 0.
Proof.
  destruct (attachments_settled_on_stop (Ids := string_ids) StopWaiting stopping_state stopping_run.1) as [Hab Hid].
  - exact (run_exec (Sig := @backend_sig string_ids) stopping_world
      (stop_program (Ids := string_ids) StopWaiting) []).
  - apply stopping_run_legal.
  - split; [vm_compute; reflexivity|]. split; [vm_compute; reflexivity|]. split; [exact Hab|].
    by apply (Hid 9%N).
Defined.
