(* ===== verification/Worker.v ===== *)
(** * Worker: one account's connection, from start to shutdown

    Models [rust/signal-core/src/backend/worker.rs]: waiting out a recovery,
    starting the reception of messages, the start-up phases, the dispatch loop,
    and the loop of [ConnectionSession::run] around them; then opening the
    store, linking a device and [run_worker].  A [select!] is the operation
    [OpSelect], which answers with the branch that completed; the argument says
    which branches are enabled.  Loops of the source may run for ever, so each
    takes a number of turns and yields [None] when they are used up: the
    theorems hold for every number of turns. *)
From S2P Require Import Prelude Event Attachment Command Session GroupState StoreErrors SignalTypes.
From S2P Require Import Acknowledgment Effects Backend Repository Groups ProjectionState Outbox Commands.
From S2P Require Import Qr Content Delivery Projecting Snapshots Tasks.

(** [ControlFlow]. *)
Inductive ControlFlow (B C : Type) :=
| Break (b : B)
| Continue (c : C).
Arguments Break {B C} b.
Arguments Continue {B C} c.

Section Loops.
Context `{Sig : EffectSig}.

(** [loop] with its local state: [inl] is the state of the next turn, [inr] the
    value of the [return] or [break]. *)
Fixpoint loop {S A} (turns : nat) (s : S) (body : S → proc (S + A)) : proc (option A) :=
  match turns with
  | O => Ret None
  | Datatypes.S turns =>
      r ← body s;
      match r with
      | inl s => loop turns s body
      | inr a => Ret (Some a)
      end
  end.

End Loops.

Section Worker.
Context `{Ids : SignalIds} `{Dig : Digests} `{Enums : ProtoEnums}.
Context (local_aci : Aci).

Abbreviation flow C := (ControlFlow (result unit string) C).

(** Stop and leave the worker. *)
Definition stop_with {S C} (stop : proc unit) : proc (S + flow C) :=
  _ ← stop;
  Ret (inr (Break (Ok tt))).

(** [match await_or_shutdown(phase).await { Some(output) => k, None => stop }],
    the macro [phase_or_stop!]. *)
Definition phase_or_stop {A R} (stop : proc R) (phase : proc A) (k : A → proc R) : proc R :=
  r ← await_or_shutdown phase;
  match r with
  | Some a => k a
  | None => stop
  end.

(** [acknowledgments.wait()] returned: its permit is used up. *)
Definition acknowledged : proc unit :=
  _ ← update (on_inbox (λ i, default i (ack_wait i)));
  Ret tt.

Definition acknowledgment_phase : proc unit :=
  _ ← process_acknowledgments true;
  Ret tt.

(** ** Recovery *)

Definition recovery_enabled (attachments : bool) (w : Wake) : bool :=
  match w with
  | WakeSleep | WakeCommand _ | WakeAcknowledgments | WakeAcknowledgmentRetry | WakeShutdown => true
  | WakeAttachment _ => attachments
  | _ => false
  end.

(** One turn of the loop of [wait_out_recovery]. *)
Definition recovery_turn (_ : unit) : proc (unit + flow unit) :=
  running ← perform OpAttachmentsRunning;
  wake ← perform (OpSelect (recovery_enabled (negb (running =? 0)%N)));
  match wake with
  | WakeSleep => Ret (inr (Continue tt))
  | WakeCommand None | WakeShutdown => stop_with stop_attachments_and_drain_acknowledgments
  | WakeCommand (Some command) =>
      _ ← update (on_deferred (handle_recovery_command command));
      Ret (inl tt)
  | WakeAcknowledgments =>
      _ ← acknowledged;
      phase_or_stop (stop_with stop_attachments_and_drain_acknowledgments) acknowledgment_phase (λ _, Ret (inl tt))
  | WakeAcknowledgmentRetry => _ ← update (on_inbox ack_activate_retries); Ret (inl tt)
  | WakeAttachment (Some completed) =>
      phase_or_stop (stop_with stop_attachments_and_drain_acknowledgments) (handle_attachment_completion completed)
        (λ _, Ret (inl tt))
  | _ => Ret (inl tt)
  end.

(** [next_recovery_delay] of the session; its [debug_assert] panics. *)
Definition session_next_delay : proc N :=
  s ← update (on_session (λ session, default session (snd <$> next_recovery_delay session)));
  match next_recovery_delay (sh_session s) with
  | Some d => Ret d.1
  | None => Panic "next_recovery_delay outside recovery"
  end.

Definition wait_out_recovery (turns : nat) : proc (option (flow unit)) :=
  s ← update id;
  if negb (is_recovering (sh_session s)) then Ret (Some (Continue tt))
  else
    drained ← drain_recovery_commands turns;
    match drained with
    | None => Ret None
    | Some true => _ ← stop_attachments_and_drain_acknowledgments; Ret (Some (Break (Ok tt)))
    | Some false =>
        delay ← session_next_delay;
        if (delay =? 0)%N then Ret (Some (Continue tt)) else loop turns tt recovery_turn
    end.

(** ** Starting reception *)

Definition start_enabled (recovering attachments : bool) (w : Wake) : bool :=
  match w with
  | WakeStarted _ | WakeAcknowledgments | WakeAcknowledgmentRetry | WakeShutdown => true
  | WakeCommand _ => recovering
  | WakeAttachment _ => recovering && attachments
  | _ => false
  end.

Definition stop_receive_and_drain : proc unit :=
  _ ← stop_receive_driver;
  stop_attachments_and_drain_acknowledgments.

Definition start_stopped : ReceiveStartError :=
  mkStartError "Signal message reception stopped during startup" true.

(** One turn of the loop of [wait_for_receive_start]. *)
Definition start_turn (_ : unit) : proc (unit + flow (result unit ReceiveStartError)) :=
  s ← update id;
  running ← perform OpAttachmentsRunning;
  wake ← perform (OpSelect (start_enabled (is_recovering (sh_session s)) (negb (running =? 0)%N)));
  match wake with
  | WakeStarted started => Ret (inr (Continue (default (Err start_stopped) started)))
  | WakeCommand None | WakeShutdown => stop_with stop_receive_and_drain
  | WakeCommand (Some command) =>
      _ ← update (on_deferred (handle_recovery_command command));
      Ret (inl tt)
  | WakeAcknowledgments =>
      _ ← acknowledged;
      phase_or_stop (stop_with stop_receive_and_drain) acknowledgment_phase (λ _, Ret (inl tt))
  | WakeAcknowledgmentRetry => _ ← update (on_inbox ack_activate_retries); Ret (inl tt)
  | WakeAttachment (Some completed) =>
      phase_or_stop (stop_with stop_receive_and_drain) (handle_attachment_completion completed) (λ _, Ret (inl tt))
  | _ => Ret (inl tt)
  end.

Definition wait_for_receive_start (turns : nat) : proc (option (flow (result unit ReceiveStartError))) :=
  loop turns tt start_turn.

(** The task of [spawn_receive_driver], which forwards the stream of received
    messages; [None] when the turns were used up. *)
Definition forward_stream_to_channel (turns : nat) : proc (option unit) :=
  loop turns tt (λ _,
    item ← perform OpNextReceived;
    match item with
    | None => Ret (inr tt)
    | Some received =>
        forwarded ← perform (OpForward received);
        if (forwarded : bool) then Ret (inl tt) else Ret (inr tt)
    end).

Definition receive_driver (turns : nat) : proc (option unit) :=
  r ← perform OpReceiveMessages;
  match r with
  | Err e =>
      _ ← perform (OpSendStarted (Err (mkStartError
        ("Could not start Signal message reception: " +:+ presage_text e) (receive_error_is_transient e))));
      Ret (Some tt)
  | Ok _ =>
      sent ← perform (OpSendStarted (Ok tt));
      if (sent : bool) then forward_stream_to_channel turns else Ret (Some tt)
  end.

(** ** Start-up *)

(** [run_startup_phases]; the [debug_assert] of [mark_ready] panics. *)
Definition session_mark_ready : proc unit :=
  s ← update (on_session (λ session, default session (mark_ready session)));
  match mark_ready (sh_session s) with
  | Some _ => Ret tt
  | None => Panic "mark_ready on a ready session"
  end.

Definition become_ready : proc unit :=
  _ ← session_mark_ready;
  _ ← update (on_receipts receipts_activate_retries);
  _ ← update (on_ready (λ _, true));
  emit (plain_event EVENT_READY).

Definition run_startup_phases : proc (flow unit) :=
  s ← update id;
  if is_ready (sh_session s) then Ret (Continue tt)
  else
    let stop := _ ← stop_attachments_and_drain_acknowledgments; Ret (Break (Ok tt)) in
    phase_or_stop stop (emit_account_identity local_aci) (λ _,
    phase_or_stop stop emit_contact_snapshot (λ _,
    phase_or_stop stop (emit_group_snapshot local_aci false) (λ snapshot,
    _ ← (match snapshot with Err e => emit (transient_error e) | Ok _ => Ret tt end);
    s ← update id;
    phase_or_stop stop (load_unprojected_messages (groups_authoritative (sh_session s))) (λ _,
    phase_or_stop stop emit_identity_changes (λ _,
    s ← update id;
    phase_or_stop stop (retry_outbox local_aci (groups_authoritative (sh_session s))) (λ _,
    phase_or_stop stop emit_identity_changes (λ _,
    _ ← become_ready;
    Ret (Continue tt)))))))).

(** ** The dispatch loop *)

(** The local state, which is also returned with the error of a lost connection:
    whether the start signals of the contact and avatar tasks
    are still unsent, and whether a group synchronisation runs. *)
Record Dispatch := mkDispatch {
  contact_sync_start : bool;
  avatar_fetch_start : bool;
  group_sync : bool;
}.

Definition set_group_sync (b : bool) (d : Dispatch) : Dispatch :=
  mkDispatch (contact_sync_start d) (avatar_fetch_start d) b.

(** What the guards of the [select!] look at. *)
Record Guards := mkGuards {
  g_session_ready : bool;
  g_groups_authoritative : bool;
  g_deferred : bool;
  g_accepts_messages : bool;
  g_attachments : bool;
  g_receipts : bool;
  g_group_sync : bool;
}.

Definition active_enabled (g : Guards) (w : Wake) : bool :=
  match w with
  | WakeAcknowledgments | WakeAcknowledgmentRetry | WakeGroupSync _ | WakeShutdown => true
  | WakeReceived _ => g_accepts_messages g
  | WakeDeferred => g_session_ready g && g_deferred g
  | WakeCommand _ => negb (g_session_ready g && g_deferred g)
  | WakeAttachment _ => g_attachments g
  | WakeReceipt _ => g_receipts g
  | WakeRetryTick => g_session_ready g
  | WakeGroupSyncRetry => g_session_ready g && negb (g_groups_authoritative g) && negb (g_group_sync g)
  | WakeSleep | WakeStarted _ => false
  end.

Definition stop_active {C} (d : Dispatch) : proc (Dispatch + flow C) :=
  stop_with (stop_active_receive_loop (group_sync d)).

(** After a snapshot of the groups was emitted, or failed. *)
Definition groups_snapshot_done (snapshot : result unit string) : proc unit :=
  match snapshot with
  | Ok _ => _ ← update (on_session mark_groups_authoritative); Ret tt
  | Err e =>
      _ ← update (on_session mark_groups_pending);
      _ ← perform OpResetGroupSyncTick;
      emit (transient_error e)
  end.

(** The queue of messages on the server is drained. *)
Definition queue_drained (d : Dispatch) (groups_authoritative groups_dirty : bool)
  : proc (Dispatch + flow (Dispatch * string)) :=
  _ ← update (on_session reset_recovery_backoff);
  _ ← (if contact_sync_start d then perform (OpStart TaskContactSync) else Ret tt);
  _ ← (if avatar_fetch_start d then perform (OpStart TaskAvatarFetch) else Ret tt);
  let spawn := negb (group_sync d) && negb groups_authoritative in
  _ ← (if spawn then perform (OpSpawn TaskGroupSync) else Ret tt);
  let d := mkDispatch false false (group_sync d || spawn) in
  if groups_dirty then
    phase_or_stop (stop_active d) (emit_group_snapshot local_aci true) (λ snapshot,
      _ ← groups_snapshot_done snapshot;
      Ret (inl d))
  else Ret (inl d).

Definition dispatch_received (d : Dispatch) (session_ready groups_authoritative groups_dirty : bool)
  (received : option Received) : proc (Dispatch + flow (Dispatch * string)) :=
  match received with
  | Some QueueEmpty => queue_drained d groups_authoritative groups_dirty
  | Some ReceivedContacts => phase_or_stop (stop_active d) emit_contact_snapshot (λ _, Ret (inl d))
  | Some (ReceivedDecryptionError sender) =>
      _ ← emit (transient_error ("Could not decrypt a message from " +:+ service_id_string sender
                  +:+ "; a session reset with that contact may fix this"));
      Ret (inl d)
  | Some (ReceivedContent content) =>
      _ ← update (on_session (note_group_content (content_has_group_context (ct_body content))));
      if session_ready then
        _ ← update (on_replay (replay_push content groups_authoritative));
        phase_or_stop (stop_active d) emit_identity_changes (λ _, Ret (inl d))
      else Ret (inl d)
  | None => Ret (inr (Continue (d, "Signal's message stream ended unexpectedly")))
  end.

(** A [SendAttachment] command, whose permit is dropped when no task gets it. *)
Definition dispatch_attachment (d : Dispatch) (groups_authoritative : bool) (request_id : N)
  (attachment : OutgoingAttachment) (permit : AttachmentPermit) : proc (Dispatch + flow (Dispatch * string)) :=
  s ← update id;
  if permit_is_cancelled permit (sh_attachments s) then
    _ ← update (on_attachments (drop_permit permit));
    Ret (inl d)
  else if oa_group attachment && negb groups_authoritative then
    claimed ← with_attachments (permit_claim_terminal permit);
    _ ← (if (claimed : bool) then emit (request_error request_id groups_not_authoritative) else Ret tt);
    _ ← update (on_attachments (drop_permit permit));
    Ret (inl d)
  else
    _ ← perform (OpSpawnAttachment request_id attachment permit);
    _ ← update (on_aborts <[request_id := permit_control permit]>);
    Ret (inl d).

(** [begin_leave] before the command is handled. *)
Definition announce_leave (groups_authoritative : bool) (command : Command) : proc unit :=
  match command with
  | LeaveGroup _ group_key =>
      if groups_authoritative then _ ← update (on_departed (begin_leave group_key)); Ret tt else Ret tt
  | _ => Ret tt
  end.

(** [handle_command_interruptibly]: false when the command ran to its end. *)
Definition handle_command_interruptibly (command : Command) : proc bool :=
  s ← update id;
  r ← until ByShutdown (handle_command local_aci (groups_authoritative (sh_session s)) command);
  Ret (bool_decide (r = None)).

Definition run_command (d : Dispatch) (groups_authoritative : bool) (command : Command)
  : proc (Dispatch + flow (Dispatch * string)) :=
  _ ← perform (OpTake command);
  match command with
  | SendAttachment request_id recipient filename content_type data group permit =>
      dispatch_attachment d groups_authoritative request_id
        (mkOutgoing recipient filename content_type data group) permit
  | command =>
      _ ← announce_leave groups_authoritative command;
      interrupted ← handle_command_interruptibly command;
      if (interrupted : bool) then stop_active d
      else phase_or_stop (stop_active d) emit_identity_changes (λ _, Ret (inl d))
  end.

Definition dispatch_command (d : Dispatch) (session_ready groups_authoritative : bool)
  (command : option Command) : proc (Dispatch + flow (Dispatch * string)) :=
  match command with
  | None => stop_active d
  | Some command =>
      if negb session_ready then
        _ ← update (on_deferred (handle_recovery_command command));
        Ret (inl d)
      else run_command d groups_authoritative command
  end.

(** [deferred_commands.pop_front()]. *)
Definition pop_deferred : proc (option Command) :=
  s ← update (on_deferred (drop 1));
  Ret (head (sh_deferred s)).

Definition dispatch_receipt (d : Dispatch) (completed : option (result DeliveryReceiptCompletion string))
  : proc (Dispatch + flow (Dispatch * string)) :=
  match completed with
  | None => Ret (inl d)
  | Some (Ok completion) =>
      recover ← finish_receipt completion;
      s ← update id;
      match recover with
      | Some e => if (rc_generation completion =? sh_generation s)%N then Ret (inr (Continue (d, e)))
                  else Ret (inl d)
      | None => Ret (inl d)
      end
  | Some (Err e) =>
      _ ← update (on_receipts receipts_release_in_flight);
      _ ← emit (error ("Signal delivery receipt worker stopped unexpectedly: " +:+ e) false);
      Ret (inl d)
  end.

(** [retry_outbox], then the identity changes it may have found. *)
Definition retry_outbox_phases (d : Dispatch) (groups_authoritative : bool) : proc (Dispatch + flow (Dispatch * string)) :=
  phase_or_stop (stop_active d) (retry_outbox local_aci groups_authoritative) (λ _,
    phase_or_stop (stop_active d) emit_identity_changes (λ _, Ret (inl d))).

Definition dispatch_group_sync (d : Dispatch) (synchronized : option (result unit string))
  : proc (Dispatch + flow (Dispatch * string)) :=
  match synchronized with
  | None => Ret (inl d)
  | Some r =>
      let d := set_group_sync false d in
      match r with
      | Ok _ =>
          _ ← update (on_session mark_groups_authoritative);
          _ ← update (on_replay replay_activate_groups);
          retry_outbox_phases d true
      | Err e =>
          _ ← update (on_session mark_groups_pending);
          _ ← emit (transient_error e);
          _ ← perform OpResetGroupSyncTick;
          Ret (inl d)
      end
  end.

(** The next message to replay, when there is room for it. *)
Definition next_replay : proc (option Content) :=
  s ← update id;
  if has_capacity (sh_projection s) then
    s ← update (on_replay (λ q, (replay_pop_ready q).2));
    Ret (replay_pop_ready (sh_replay s)).1
  else Ret None.

(** Start the next delivery receipt when none is on its way. *)
Definition start_receipt (session_ready : bool) : proc unit :=
  running ← perform OpReceiptsRunning;
  if negb (running =? 0)%N then Ret tt
  else
    s ← update (on_receipts (λ q, (receipts_start_next session_ready q).2));
    match (receipts_start_next session_ready (mp_delivery_receipts (sh_projection s))).1 with
    | Some receipt => perform (OpSpawnReceipt (sh_generation s) receipt)
    | None => Ret tt
    end.

(** The branch that completed. *)
Definition dispatch_wake (d : Dispatch) (session_ready groups_authoritative groups_dirty : bool) (wake : Wake)
  : proc (Dispatch + flow (Dispatch * string)) :=
  match wake with
  | WakeAcknowledgments =>
      _ ← acknowledged;
      phase_or_stop (stop_active d) acknowledgment_phase (λ _, Ret (inl d))
  | WakeReceived received => dispatch_received d session_ready groups_authoritative groups_dirty received
  | WakeDeferred =>
      command ← pop_deferred;
      dispatch_command d session_ready groups_authoritative command
  | WakeCommand command => dispatch_command d session_ready groups_authoritative command
  | WakeAttachment (Some completed) =>
      phase_or_stop (stop_active d) (handle_attachment_completion completed) (λ _, Ret (inl d))
  | WakeReceipt completed => dispatch_receipt d completed
  | WakeRetryTick =>
      _ ← update (on_receipts receipts_activate_retries);
      retry_outbox_phases d groups_authoritative
  | WakeAcknowledgmentRetry => _ ← update (on_inbox ack_activate_retries); Ret (inl d)
  | WakeGroupSync synchronized => dispatch_group_sync d synchronized
  | WakeGroupSyncRetry => _ ← perform (OpSpawn TaskGroupSync); Ret (inl (set_group_sync true d))
  | WakeShutdown => stop_active d
  | WakeAttachment None | WakeSleep | WakeStarted _ => Ret (inl d)
  end.

(** One turn of the loop of [run_active_dispatch]. *)
Definition dispatch_turn (d : Dispatch) : proc (Dispatch + flow (Dispatch * string)) :=
  s ← update id;
  let session_ready := is_ready (sh_session s) in
  let groups_authoritative := groups_authoritative (sh_session s) in
  let groups_dirty := groups_dirty (sh_session s) in
  _ ← (if groups_authoritative then _ ← update (on_replay replay_activate_groups); Ret tt else Ret tt);
  replay ← next_replay;
  match replay with
  | Some content =>
      phase_or_stop (stop_active d) (project_content local_aci groups_authoritative content) (λ _, Ret (inl d))
  | None =>
      _ ← start_receipt session_ready;
      s ← update id;
      attachments ← perform OpAttachmentsRunning;
      receipts ← perform OpReceiptsRunning;
      wake ← perform (OpSelect (active_enabled (mkGuards session_ready groups_authoritative
        (bool_decide (sh_deferred s ≠ []))
        (has_capacity (sh_projection s) && can_accept_live_message (sh_replay s))
        (negb (attachments =? 0)%N) (negb (receipts =? 0)%N) (group_sync d))));
      dispatch_wake d session_ready groups_authoritative groups_dirty wake
  end.

Definition run_active_dispatch (turns : nat) (d : Dispatch) : proc (option (flow (Dispatch * string))) :=
  loop turns d dispatch_turn.

(** ** The connection *)

(** [session.enter_recovery], and the event of an outage that begins. *)
Definition enter_recovery_mode (e : string) : proc unit :=
  s ← update (on_session (λ session, (enter_recovery e session).2));
  if decide ((enter_recovery e (sh_session s)).1 = Entered)
  then emit (plain_event EVENT_RECOVERING) else Ret tt.

Definition next_generation (generation : N) : N := N.max (wrapping_add u64_max generation 1) 1.

(** Reception could not be started. *)
Definition start_failed (e : ReceiveStartError) : proc (unit + result unit string) :=
  _ ← stop_receive_driver;
  _ ← update (on_ready (λ _, false));
  if negb (rse_transient e) then
    _ ← fail_deferred_commands "Signal connection recovery stopped before the request could be sent";
    _ ← stop_attachments_and_drain_acknowledgments;
    Ret (inr (Err (rse_message e)))
  else
    _ ← enter_recovery_mode (rse_message e);
    _ ← emit (transient_error (rse_message e +:+ "; retrying automatically"));
    Ret (inl tt).

(** A connection was lost: [group_sync] says whether that task may run. *)
Definition connection_lost (group_sync : bool) (e : string) : proc (unit + result unit string) :=
  _ ← update (on_ready (λ _, false));
  _ ← enter_recovery_mode e;
  _ ← stop_receive_tasks group_sync (Ret tt);
  _ ← emit (transient_error (e +:+ "; reconnecting automatically"));
  Ret (inl tt).

(** One turn of the loop of [ConnectionSession::run]; [None] when the turns of
    an inner loop were used up. *)
Definition connect (turns : nat) : proc (option (unit + result unit string)) :=
  waited ← wait_out_recovery turns;
  match waited with
  | None => Ret None
  | Some (Break r) => Ret (Some (inr r))
  | Some (Continue _) =>
      _ ← perform (OpSpawn TaskReceive);
      started ← wait_for_receive_start turns;
      match started with
      | None => Ret None
      | Some (Break r) => Ret (Some (inr r))
      | Some (Continue (Err e)) => r ← start_failed e; Ret (Some r)
      | Some (Continue (Ok _)) =>
          _ ← update (on_generation next_generation);
          _ ← perform (OpSpawn TaskContactSync);
          _ ← perform (OpSpawn TaskAvatarFetch);
          ready ← run_startup_phases;
          match ready with
          | Break r => Ret (Some (inr r))
          | Continue _ =>
              dispatched ← run_active_dispatch turns (mkDispatch true true false);
              match dispatched with
              | None => Ret None
              | Some (Break r) => Ret (Some (inr r))
              | Some (Continue (d, e)) => r ← connection_lost (group_sync d) e; Ret (Some r)
              end
          end
      end
  end.

Fixpoint connection_run (turns : nat) (inner : nat) : proc (option (result unit string)) :=
  match turns with
  | O => Ret None
  | S turns =>
      r ← connect inner;
      match r with
      | None => Ret None
      | Some (inl _) => connection_run turns inner
      | Some (inr result) => Ret (Some result)
      end
  end.

(** [receive_and_command_loop]: the store is prepared, then the connection runs
    from a fresh state. *)
Definition receive_and_command_loop (turns inner : nat) : proc (option (result unit string)) :=
  initialized ← await_or_shutdown initialize_subsystems;
  match initialized with
  | None => Ret (Some (Ok tt))
  | Some (Err e) => Ret (Some (Err (storage_error_text e)))
  | Some (Ok _) => connection_run turns inner
  end.

(** ** Opening the store and linking *)

(** [open_encrypted_store]: false when the shutdown came first. *)
Definition open_encrypted_store (path : string) (secret : StorePassphrase) : proc (result bool string) :=
  r ← await_or_shutdown (perform (OpOpenStore path (passphrase_value secret)));
  Ret (match r with
       | Some (Ok _) => Ok true
       | Some (Err e) => Err ("Could not open encrypted Signal store: " +:+ e)
       | None => Ok false
       end).

Definition link_qr_event (uri : string) (data : list byte) : Event :=
  mkEvent EVENT_LINK_QR 0 0 0 0 None None None (Some uri) data.

(** The future that shows the linking code. *)
Definition show_link `{QrLibrary} (url : option string) : proc unit :=
  match url with
  | None => Ret tt
  | Some uri =>
      match qr_png (bytes_of uri) with
      | None => Panic "index out of bounds"
      | Some (Ok data) => emit (link_qr_event uri data)
      | Some (Err e) => emit (error ("Could not render the linking QR code: " +:+ e) true)
      end
  end.

(** [link_device]: false when the shutdown came first. *)
Definition link_device `{QrLibrary} (turns : nat) : proc (option (result bool string)) :=
  loop turns false (λ qr_finished,
    wake ← perform (OpLinkSelect qr_finished);
    match wake with
    | LinkDone (Ok _) => Ret (inr (Ok true))
    | LinkDone (Err e) => Ret (inr (Err ("Signal device linking failed: " +:+ e)))
    | LinkUrl url => _ ← show_link url; Ret (inl true)
    | LinkShutdown => Ret (inr (Ok false))
    end).

(** The device loaded or linked. *)
Definition load_or_link `{QrLibrary} (turns : nat) (is_registered : bool) : proc (option (result bool string)) :=
  if is_registered then
    r ← until ByShutdown (perform OpLoadRegistered);
    Ret (Some (match r with
               | Some (Ok _) => Ok true
               | Some (Err e) => Err ("Could not load linked Signal device: " +:+ e)
               | None => Ok false
               end))
  else link_device turns.

(** The async function [run]. *)
Definition run_backend `{QrLibrary} (config : Config) (turns inner : nat) : proc (option (result unit string)) :=
  opened ← open_encrypted_store (store_path config) (passphrase config);
  match opened with
  | Err e => Ret (Some (Err e))
  | Ok false => Ret (Some (Ok tt))
  | Ok true =>
      registered ← await_or_shutdown (perform OpIsRegistered);
      match registered with
      | None => Ret (Some (Ok tt))
      | Some is_registered =>
          linked ← load_or_link turns is_registered;
          match linked with
          | None => Ret None
          | Some (Err e) => Ret (Some (Err e))
          | Some (Ok false) => Ret (Some (Ok tt))
          | Some (Ok true) => receive_and_command_loop turns inner
          end
      end
  end.

(** [run_worker]: a panic of the backend is caught; at the end the inbox is
    closed, the account is not ready, and a failure is reported as fatal.
    False when turns were used up. *)
Definition run_worker `{QrLibrary} (config : Config) (turns inner : nat) : proc bool :=
  built ← perform OpBuildRuntime;
  result ← (match built with
            | Err e => Ret (Some (Some (Err e)))
            | Ok _ => catch_unwind (run_backend config turns inner)
            end);
  match result with
  | Some None => Ret false
  | ended =>
      _ ← update (on_inbox ack_close);
      _ ← update (on_ready (λ _, false));
      _ ← (match ended with
           | Some (Some (Ok _)) => Ret tt
           | Some (Some (Err e)) => emit (error e true)
           | _ => emit (error "The Signal backend panicked" true)
           end);
      Ret true
  end.

End Worker.
