(* ===== verification/Account.v ===== *)
(** * Account: what the user of an account sees

    The specification of the worker of [rust/signal-core/src/backend/worker.rs]
    as a state machine: the account is starting, ready or recovering, which the
    READY and RECOVERING events announce, and has a queue of commands.  Commands
    are handled in the order in which they came and only while the account is
    ready; a queue that will never be handled is refused command by command;
    typing notices that come while the account is not ready may be forgotten. *)
From S2P Require Import Prelude Event Command Session.

Record Account := mkAccount {
  a_phase : SessionPhase;
  a_queue : list Command;
}.

Definition account_new : Account := mkAccount Initializing [].

Inductive Label :=
| Announce (kind : N)
| Receive (command : Command)
| Handle (command : Command)
| Refuse (command : Command).

Definition is_typing (command : Command) : bool := match command with SetTyping _ _ _ => true | _ => false end.

Inductive account_step : Account → Label → Account → Prop :=
| account_ready P q : P ≠ Ready → account_step (mkAccount P q) (Announce EVENT_READY) (mkAccount Ready q)
| account_recovering P q :
    P ≠ Recovering → account_step (mkAccount P q) (Announce EVENT_RECOVERING) (mkAccount Recovering q)
| account_receive P q c : account_step (mkAccount P q) (Receive c) (mkAccount P (q ++ [c]))
| account_forget P q c :
    P ≠ Ready → is_typing c = true → account_step (mkAccount P q) (Receive c) (mkAccount P q)
| account_handle q c : account_step (mkAccount Ready (c :: q)) (Handle c) (mkAccount Ready q)
| account_refuse P q c : P ≠ Ready → account_step (mkAccount P (c :: q)) (Refuse c) (mkAccount P q).

Inductive account_trace : list Label → Account → Prop :=
| account_trace_nil : account_trace [] account_new
| account_trace_snoc ls a l b : account_trace ls a → account_step a l b → account_trace (ls ++ [l]) b.

Create HintDb account.
#[export] Hint Constructors account_step account_trace : account.

(** ** What the machine promises *)

Definition announced (ls : list Label) : list N := ls ≫= λ l, match l with Announce k => [k] | _ => [] end.
Definition received (ls : list Label) : list Command := ls ≫= λ l, match l with Receive c => [c] | _ => [] end.
Definition handled (ls : list Label) : list Command := ls ≫= λ l, match l with Handle c => [c] | _ => [] end.
Definition taken (ls : list Label) : list Command :=
  ls ≫= λ l, match l with Handle c | Refuse c => [c] | _ => [] end.

(** Consecutive events differ. *)
Fixpoint alternating (l : list N) : Prop :=
  match l with
  | a :: (b :: _) as rest => a ≠ b ∧ alternating rest
  | _ => True
  end.

Definition last_kind (phase : SessionPhase) : option N :=
  match phase with
  | Initializing => None
  | Recovering => Some EVENT_RECOVERING
  | Ready => Some EVENT_READY
  end.

(** The commands that may not be forgotten. *)
Definition kept (l : list Command) : list Command := filter (λ c, is_typing c = false) l.

Lemma kept_app l l' : kept (l ++ l') = kept l ++ kept l'.
Proof. apply filter_app. Qed.

Lemma alternating_snoc l k : alternating l → last l ≠ Some k → alternating (l ++ [k]).
Proof.
  induction l as [|a [|b l] IH]; intros Hl Hne; [done| |].
  - split; [|done]. intros ->. by destruct Hne.
  - destruct Hl as [Hab Hl]. split; [done|]. by apply IH.
Qed.

(** READY and RECOVERING alternate, and the last one tells the phase. *)
Lemma account_alternates ls a :
  account_trace ls a → alternating (announced ls) ∧ last (announced ls) = last_kind (a_phase a).
Proof.
  induction 1 as [|ls a l b _ [Ha Hl] Hstep]; [done|]. unfold announced in *. rewrite bind_app.
  destruct Hstep; simpl in *; rewrite ?app_nil_r, ?last_snoc; try done.
  all: split; [|done]; apply alternating_snoc; [done|]; rewrite Hl; by destruct P.
Qed.

(** Commands leave the queue in the order in which they came; only typing
    notices are forgotten. *)
Lemma account_in_order ls a :
  account_trace ls a →
  taken ls ++ a_queue a `sublist_of` received ls ∧ kept (taken ls ++ a_queue a) = kept (received ls).
Proof.
  induction 1 as [|ls a l b _ [Hs Hk] Hstep]; [done|]. unfold taken, received in *. rewrite !bind_app.
  destruct Hstep as [| | |P q c HP Hc| |]; simpl in *; rewrite ?app_nil_r, <-?app_assoc; try done.
  - split; [rewrite app_assoc; by apply sublist_app|].
    by rewrite app_assoc, (kept_app (_ ++ _) [c]), (kept_app (ls ≫= _) [c]), Hk.
  - split; [by apply sublist_inserts_r|]. rewrite (kept_app (ls ≫= _) [c]), Hk.
    unfold kept. rewrite (filter_cons_False _ c) by congruence. by rewrite app_nil_r.
Qed.
