(* ===== verification/Phases.v ===== *)
(** * Phases: the parts of the worker that leave its session alone

    For every phase that the worker of [Worker] runs between its awaits on
    events: it leaves the session, the ready flag and the deferred commands
    alone, emits no READY or RECOVERING, takes no command, and does not panic.
    The lemmas on single phases hold for any class of operations that has the
    bare ones ([BareClass]) or those that show messages ([ShowClass]). *)
From S2P Require Import Prelude Event Attachment Command Session GroupState StoreErrors SignalTypes Media.
From S2P Require Import Acknowledgment Effects Backend Repository Groups ProjectionState Outbox Commands.
From S2P Require Import Content Delivery Projecting Snapshots Tasks.

Section Phases.
Context `{Ids : SignalIds} `{Dig : Digests} `{Enums : ProtoEnums}.

(** ** Classes of operations

    The parts of the worker that leave the session, the ready flag and the
    deferred commands alone, emit no READY or RECOVERING, take no command, and
    do not panic. *)

Definition is_session_event (ev : Event) : bool :=
  (ev_kind ev =? EVENT_READY)%N || (ev_kind ev =? EVENT_RECOVERING)%N.

Definition phase_op (o : backend_op) : Prop :=
  match o with
  | OpEmit ev => is_session_event ev = false
  | OpUpdate f => ∀ s, sh_session (f s) = sh_session s ∧ sh_ready (f s) = sh_ready s ∧ sh_deferred (f s) = sh_deferred s
  | OpTake _ | OpRefuse _ | OpSelect _ | OpTryRecv => False
  | _ => True
  end.

(** ** Bare programs

    The finest class: it also leaves the pending deliveries alone, emits no
    part of a message, records nothing as projected and removes no row of the
    outbox. *)

Definition bare_op (o : backend_op) : Prop :=
  match o with
  | OpEmit ev => is_session_event ev = false ∧ is_message_kind (ev_kind ev) = false
  | OpUpdate f => ∀ s,
      sh_session (f s) = sh_session s ∧ sh_ready (f s) = sh_ready s ∧ sh_deferred (f s) = sh_deferred s ∧
      same_deliveries (sh_projection (f s)) (sh_projection s)
  | OpTake _ | OpRefuse _ | OpSelect _ | OpTryRecv | OpCompleteClientMessage _ | OpMarkMessageProjected _ _
  | OpInterrupted _ _ => False
  | _ => True
  end.

(** Classes that have all of these operations. *)
Class BareClass (ok : backend_op → Prop) := bare_sub : ∀ o, bare_op o → ok o.

#[export] Instance phase_bare : BareClass phase_op.
Proof. intros []; simpl; try done; [naive_solver|]. intros H s. destruct (H s) as (?&?&?&_). done. Qed.

Section Bare.
Context {ok : backend_op → Prop} `{!BareClass ok}.

Abbreviation bare := (total_ops ok).

Lemma bare_total {A} (p : proc A) : total_ops bare_op p → bare p.
Proof. apply total_ops_mono, bare_sub. Qed.

Lemma identity_changes_phase : bare emit_identity_changes.
Proof. apply bare_total. unfold emit_identity_changes, identity_change_notices, yield_if, emit. solve_total_ops. Qed.

Lemma contact_snapshot_phase : bare emit_contact_snapshot.
Proof.
  apply bare_total.
  unfold emit_contact_snapshot, contacts, emit_contact, yield_if, contact_title, profile_key_of,
    cached_contact_avatar, contact_profile_key, contact_avatar, update, emit. solve_total_ops.
Qed.

Lemma group_snapshot_phase local_aci authoritative : bare (emit_group_snapshot local_aci authoritative).
Proof.
  apply bare_total.
  unfold emit_group_snapshot, repo_groups, emit_group, group_avatar, yield_if, update, emit. solve_total_ops.
Qed.

Lemma account_identity_phase local_aci : bare (emit_account_identity local_aci).
Proof. apply bare_total. unfold emit_account_identity, emit. solve_total_ops. Qed.

Lemma load_unprojected_phase groups_authoritative : bare (load_unprojected_messages groups_authoritative).
Proof. apply bare_total. unfold load_unprojected_messages, unprojected_messages, update, emit. solve_total_ops. Qed.

Lemma resolve_in_store_phase local_aci identifier : bare (resolve_active_group_in_store local_aci identifier).
Proof.
  apply bare_total.
  unfold resolve_active_group_in_store, repo_groups, repo_active_group, repo_group, update. solve_total_ops.
Qed.

Lemma resolve_phase local_aci identifier :
  bare (resolve_active_group local_aci identifier) ∧ bare (resolve_active_group_for_leave local_aci identifier).
Proof.
  split; apply bare_total; unfold resolve_active_group, resolve_active_group_for_leave,
    resolve_active_group_in_store, repo_groups, repo_active_group, repo_group, update; solve_total_ops.
Qed.

Lemma attempt_phase local_aci message : bare (attempt_outbox_message local_aci message).
Proof.
  apply bare_total. unfold attempt_outbox_message, attempt_group_message, with_group_lock, resolve_active_group,
    resolve_active_group_in_store, repo_groups, repo_active_group, repo_group, update. solve_total_ops.
Qed.

Lemma report_attempt_phase message e : bare (report_attempt message e).
Proof. apply bare_total. unfold report_attempt, emit. solve_total_ops. Qed.

Lemma leave_events_phase request_id group_key completion d e :
  e ∈ (group_leave_completion_events request_id group_key completion d).1 →
  is_session_event e = false ∧ is_message_kind (ev_kind e) = false.
Proof.
  unfold group_leave_completion_events. destruct completion as [[] []|]; simpl; set_solver.
Qed.

Lemma complete_leave_phase request_id group_key completion : bare (complete_leave request_id group_key completion).
Proof.
  apply bare_total.
  unfold complete_leave, update. apply total_ops_bind; [done|]. intros s.
  assert (H := leave_events_phase request_id group_key completion (sh_departed s)).
  induction (group_leave_completion_events request_id group_key completion (sh_departed s)).1 as [|e l IH]; [done|].
  split; [apply H; by left|]. intros []. apply IH. intros e' He'. apply H. by right.
Qed.

Lemma receipts_phase : bare abort_delivery_receipt_tasks.
Proof.
  apply bare_total.
  unfold abort_delivery_receipt_tasks. apply total_ops_bind; [done|]. intros []. apply total_ops_bind; [done|].
  intros running. apply total_ops_bind; [|by intros []].
  generalize (S (N.to_nat running)). intros n. induction n as [|n IH]; [done|]. split; [done|]. by intros [[]|].
Qed.

Lemma finish_attachment_phase completed : bare (finish_attachment_completion completed).
Proof. apply bare_total. unfold finish_attachment_completion, update, emit. solve_total_ops. Qed.

Lemma interrupt_phase : bare interrupt_remaining_attachments.
Proof.
  apply bare_total.
  unfold interrupt_remaining_attachments, with_attachments, update, emit. apply total_ops_bind; [done|]. intros s.
  apply total_ops_for_each. intros _ [id control]. split; [done|]. intros s'. simpl.
  unfold interrupted_attachment_event. by destruct (control_is_cancelled _ _).
Qed.

Lemma join_attachments_phase turns l : bare (join_attachments turns l).
Proof.
  apply bare_total.
  revert l. induction turns as [|turns IH]; intros l; [done|]. split; [done|]. intros [c|]; [apply IH|done].
Qed.

End Bare.

(** ** Programs that show and record

    They keep the rows of the outbox and are not interrupted inside. *)

Definition show_op (o : backend_op) : Prop :=
  match o with
  | OpCompleteClientMessage _ | OpInterrupted _ _ => False
  | o => phase_op o
  end.

Class ShowClass (ok : backend_op → Prop) := show_sub : ∀ o, show_op o → ok o.

#[export] Instance phase_show : ShowClass phase_op.
Proof. by intros []. Qed.

Abbreviation shows := (total_ops show_op).

Lemma group_for_projection_phase local_aci key : shows (group_for_projection local_aci key).
Proof.
  unfold group_for_projection, read_departure, repo_group, update.
  apply total_ops_bind; [solve_total_ops|]. intros d. destruct d; [|done..]. simpl.
  split; [done|]. intros []; [|done]. simpl. split; [done|]. intros s.
  destruct (departure_state _ _); [|done..]. simpl. by repeat case_match.
Qed.

Lemma transcode_phase n l : shows (transcode_downloads n l).
Proof. revert n. induction l as [|d l IH]; intros n; cbn [transcode_downloads]; solve_total_ops; apply IH. Qed.

Lemma message_event_phase local_aci p id group title text :
  is_session_event (message_event local_aci p id group title text) = false.
Proof. by destruct group. Qed.

Lemma project_message_phase local_aci p group title : shows (project_message local_aci p group title).
Proof.
  assert (Ht := transcode_phase). assert (Hm := message_event_phase).
  unfold project_message, download_attachments, download_attachment, emit_projected, emit. solve_total_ops.
  split; [apply Hm|done].
Qed.

Section Show.
Context {ok : backend_op → Prop} `{!ShowClass ok}.

Lemma show_total {A} (p : proc A) : shows p → total_ops ok p.
Proof. apply total_ops_mono, show_sub. Qed.

Lemma mark_sent_phase sent : total_ops ok (mark_sent_message_projected_or_report sent).
Proof.
  apply show_total.
  unfold mark_sent_message_projected_or_report, mark_sent_message_projected.
  apply total_ops_bind; [|by intros []].
  induction MARK_SENT_PROJECTED_RETRY_DELAYS_MS as [|d l IH]; cbn [mark_sent_loop];
    unfold repo_mark_sent_message_projected, sent_message_content, mark_message_projected; solve_total_ops.
Qed.

Lemma process_acknowledgments_phase retry : total_ops ok (process_acknowledgments retry).
Proof.
  apply show_total.
  unfold process_acknowledgments, acknowledge_or_defer, acknowledge_message, complete_delivery,
    mark_message_projected, with_inbox, with_projection, update, emit. solve_total_ops.
Qed.

Lemma project_content_phase local_aci groups_authoritative content :
  total_ops ok (project_content local_aci groups_authoritative content).
Proof.
  apply show_total.
  assert (Hg := group_for_projection_phase). assert (Hp := project_message_phase).
  assert (He : ∀ p, shows (emit_data_message local_aci p)).
  { intros p. unfold emit_data_message, projection_group_title, emit. solve_total_ops. }
  assert (Hc : ∀ id, shows (handle_content local_aci content id)).
  { intros id. unfold handle_content, enqueue_receipt, with_projection, update, emit. solve_total_ops. }
  unfold project_content, track_delivery, record_projected, release_delivery, complete_delivery,
    mark_message_projected, with_projection, update, emit. solve_total_ops.
Qed.

End Show.

(** ** Phases *)

Abbreviation calm := (total_ops phase_op).

#[local] Hint Extern 1 (total_ops phase_op _) =>
  solve [apply identity_changes_phase|apply resolve_in_store_phase|apply mark_sent_phase] : total.

(** ** Stopping is a phase *)

Lemma drain_phase : calm drain_acknowledgments.
Proof.
  unfold drain_acknowledgments. apply total_ops_bind; [done|]. intros s.
  generalize (S (length (ack_ready (ack_close (sh_inbox s))))). intros n. induction n as [|n IH]; [done|].
  cbn [drain_loop]. apply total_ops_bind; [apply process_acknowledgments_phase|].
  intros count. by destruct (count =? 0)%N.
Qed.

Lemma abort_in_flight_phase : calm abort_in_flight_attachments.
Proof.
  assert (Hj := join_attachments_phase (ok := phase_op)). assert (Hf := finish_attachment_phase (ok := phase_op)). assert (Hi := interrupt_phase (ok := phase_op)).
  unfold abort_in_flight_attachments, abort_and_drain_attachments, update. solve_total_ops.
Qed.

Lemma cleanup_phase p seconds :
  calm p → calm (finished ← finish_shutdown_cleanup p seconds;
                   if (finished : bool) then Ret tt else abandon_timed_out_attachments).
Proof.
  intros Hp. assert (Hi := interrupt_phase (ok := phase_op)). unfold finish_shutdown_cleanup, abandon_timed_out_attachments.
  apply total_ops_bind; [apply total_ops_bind; [by apply total_ops_until|done]|]. intros []; [done|]. solve_total_ops.
Qed.

Lemma stop_waiting_phase : calm stop_attachments_and_drain_acknowledgments.
Proof.
  assert (Hr := receipts_phase (ok := phase_op)). assert (Ha := abort_in_flight_phase). assert (Hd := drain_phase).
  unfold stop_attachments_and_drain_acknowledgments, update. apply total_ops_bind; [done|]. intros _.
  apply cleanup_phase. solve_total_ops.
Qed.

Lemma stop_receive_phase group_sync p : calm p → calm (stop_receive_tasks group_sync p).
Proof.
  intros Hp. assert (Ha := abort_in_flight_phase). unfold stop_receive_tasks.
  do 3 (apply total_ops_bind; [done|intros _]). apply total_ops_bind; [by destruct group_sync|]. intros _.
  apply cleanup_phase. solve_total_ops.
Qed.

Lemma stop_active_phase group_sync : calm (stop_active_receive_loop group_sync).
Proof.
  assert (Hr := receipts_phase (ok := phase_op)). assert (Hd := drain_phase). unfold stop_active_receive_loop, update.
  apply total_ops_bind; [done|]. intros _. apply stop_receive_phase. solve_total_ops.
Qed.

Lemma attachment_completion_phase completed : calm (handle_attachment_completion completed).
Proof.
  assert (Hf := finish_attachment_phase (ok := phase_op)). unfold handle_attachment_completion. solve_total_ops.
Qed.

(** ** The outbox and commands *)

Lemma finish_outbox_phase message res : calm (finish_outbox_attempt message res).
Proof. unfold finish_outbox_attempt, complete_outbox_message, defer_outbox_message. solve_total_ops. Qed.

#[local] Hint Resolve finish_outbox_phase : total.
#[local] Hint Extern 1 (total_ops phase_op _) => solve [apply attempt_phase|apply report_attempt_phase] : total.

Lemma retry_outbox_phase local_aci groups_authoritative : calm (retry_outbox local_aci groups_authoritative).
Proof.
  unfold retry_outbox, due_outbox_messages, retry_one, emit. solve_total_ops.
Qed.

Lemma enqueue_phase local_aci request : calm (enqueue_and_send local_aci request).
Proof. unfold enqueue_and_send, enqueue_outbox_message. solve_total_ops. Qed.

#[local] Hint Resolve retry_outbox_phase enqueue_phase : total.

Lemma handle_command_phase local_aci groups_authoritative command :
  (∀ id r f c d g p, command ≠ SendAttachment id r f c d g p) →
  calm (handle_command local_aci groups_authoritative command).
Proof.
  intros Hne. assert (Hl := complete_leave_phase (ok := phase_op)). unfold handle_command. destruct command as
    [id recipient message|id key message|id key| |id recipient b|id recipient|id recipient|id recipient|id recipient ts];
    [..|by exfalso; eapply Hne| | | | |].
  - unfold send_message_command, report_request, emit. solve_total_ops.
  - destruct (resolve_phase (ok := phase_op) local_aci key) as [Hr _]. unfold send_group_message_command, report_request, emit. solve_total_ops.
  - destruct (resolve_phase (ok := phase_op) local_aci key) as [_ Hr].
    unfold leave_group_command, refuse_leave, expedite_outbox_messages, update, emit. solve_total_ops.
  - unfold send_transient, emit. solve_total_ops.
  - unfold accept_identity_command, accept_identity_change, expedite_outbox_messages, emit. solve_total_ops.
  - unfold dismiss_identity_command, dismiss_identity_change, emit. solve_total_ops.
  - unfold reset_session_command, emit. solve_total_ops.
  - unfold send_transient, emit. solve_total_ops.
Qed.

End Phases.
