(* ===== verification/Composition.v ===== *)
(** * Composition: what the worker has because its parts have it

    The worker of [Worker] is put together from five parts that matter (a pass
    over the outbox, a new message, the marker of a sent message, the projection
    of content, a batch of acknowledgments) and operations that send nothing
    queued, show no message and record nothing.  A property of programs that
    holds of these, and that sequencing, interruption and caught panics keep,
    holds of every program of the worker. *)
From S2P Require Import Prelude Event Attachment Command Session GroupState StoreErrors SignalTypes.
From S2P Require Import Acknowledgment Effects Backend Repository Groups ProjectionState Outbox Commands.
From S2P Require Import Qr Content Delivery Projecting Snapshots Tasks Worker Phases.

Create HintDb comp discriminated.

Section Composition.
Context `{Ids : SignalIds} `{Dig : Digests} `{Enums : ProtoEnums}.

(** Operations that leave the pending deliveries alone, emit no part of a
    message, record nothing as projected and remove no row of the outbox. *)
Definition worker_op (o : backend_op) : Prop :=
  match o with
  | OpEmit ev => is_message_kind (ev_kind ev) = false
  | OpUpdate f => ∀ s, same_deliveries (sh_projection (f s)) (sh_projection s)
  | OpCompleteClientMessage _ | OpMarkMessageProjected _ _ | OpInterrupted _ _ => False
  | _ => True
  end.

#[export] Instance worker_bare : BareClass worker_op.
Proof. intros []; simpl; try done; [naive_solver|]. intros H s. apply H. Qed.

(** A property that the worker's parts have and that composition keeps. *)
Class Compositional (local_aci : Aci) (Φ : ∀ A, proc A → Prop) := {
  comp_ret A (a : A) : Φ A (Ret a);
  comp_panic A m : Φ A (Panic m);
  comp_bind A B (p : proc A) (f : A → proc B) : Φ A p → (∀ a, Φ B (f a)) → Φ B (p ≫= f);
  comp_until A by_ (p : proc A) : Φ A p → Φ (option A) (until by_ p);
  comp_catch A (p : proc A) : Φ A p → Φ (option A) (catch_unwind p);
  comp_perform (o : backend_op) : worker_op o → Φ (Resp o) (perform (o : op));
  comp_retry_outbox auth : Φ unit (retry_outbox local_aci auth);
  comp_enqueue request : Φ (result unit OutboxAttemptError) (enqueue_and_send local_aci request);
  comp_mark_sent sent : Φ unit (mark_sent_message_projected_or_report sent);
  comp_project auth content : Φ unit (project_content local_aci auth content);
  comp_acknowledgments retry : Φ N (process_acknowledgments retry);
}.

Arguments comp_ret {local_aci Φ _ A} a.
Arguments comp_panic {local_aci Φ _ A} m.
Arguments comp_bind {local_aci Φ _ A B} p f.
Arguments comp_until {local_aci Φ _ A} by_ p.
Arguments comp_catch {local_aci Φ _ A} p.
Arguments comp_perform {local_aci Φ _} o.

Section Parts.
Context {local_aci : Aci} {Φ : ∀ A, proc A → Prop} `{!Compositional local_aci Φ}.
Arguments Φ {A}.

Lemma comp_op (o : backend_op) : worker_op o → Φ (perform (o : op)).
Proof. apply (comp_perform (Φ := @Φ)). Qed.

Lemma comp_only {A} (p : proc A) : only_ops worker_op p → Φ p.
Proof.
  induction p as [a|o k IH|m]; intros Hp; [apply comp_ret| |apply comp_panic]. destruct Hp as [Ho Hk].
  apply (comp_bind (perform o) k); [by apply comp_op|]. intros r. by apply IH.
Qed.

Lemma comp_total {A} (p : proc A) : total_ops worker_op p → Φ p.
Proof. intros Hp. by apply comp_only, total_only_ops. Qed.

Lemma comp_try {A B E} (r : result A E) (k : A → proc (result B E)) : (∀ a, Φ (k a)) → Φ (try_ r k).
Proof. intros Hk. destruct r; [apply Hk|apply comp_ret]. Qed.

Lemma comp_for_each {A T} (l : list A) (s : T) f : (∀ s x, Φ (f s x)) → Φ (for_each l s f).
Proof. intros Hf. revert s. induction l as [|x l IH]; intros s; simpl; [apply comp_ret|]. by apply comp_bind. Qed.

Lemma comp_loop {S A} turns (s : S) (body : S → proc (S + A)) : (∀ s, Φ (body s)) → Φ (loop turns s body).
Proof.
  intros Hb. revert s. induction turns as [|turns IH]; intros s; simpl; [apply comp_ret|].
  apply comp_bind; [done|]. intros [s'|a]; [apply IH|apply comp_ret].
Qed.

Lemma comp_await {A} (p : proc A) : Φ p → Φ (await_or_shutdown p).
Proof. intros Hp. apply comp_bind; [by apply (comp_op OpShutdownRequested)|]. intros []; [apply comp_ret|by apply comp_until]. Qed.

Lemma comp_cleanup p seconds : Φ p → Φ (finish_shutdown_cleanup p seconds).
Proof. intros Hp. apply comp_bind; [by apply comp_until|]. intros r. apply comp_ret. Qed.

(** Follows a program; what is left are the programs it calls. *)
Ltac compose :=
  repeat match goal with
  | |- Φ (_ ≫= _) => apply comp_bind; [|intros]
  | |- Φ (Ret _) => apply comp_ret
  | |- Φ (Panic _) => apply comp_panic
  | |- Φ (emit ?e) => apply (comp_op (OpEmit e)); exact eq_refl
  | |- Φ (perform ?o) => apply (comp_op o); done
  | |- Φ (update ?f) => apply (comp_op (OpUpdate f)); done
  | |- Φ (until _ _) => apply comp_until
  | |- Φ (await_or_shutdown _) => apply comp_await
  | |- Φ (finish_shutdown_cleanup _ _) => apply comp_cleanup
  | |- Φ (catch_unwind _) => apply comp_catch
  | |- Φ (try_ _ _) => apply comp_try; intros
  | |- Φ (for_each _ _ _) => apply comp_for_each; intros
  | |- Φ (loop _ _ _) => apply comp_loop; intros
  | |- Φ (if ?b then _ else _) => destruct b
  | |- Φ (match ?x with _ => _ end) => destruct x
  | |- Φ _ => solve [auto with comp nocore]
  end.

(** ** Parts without a message *)

Lemma comp_bare {A} (p : proc A) : (∀ ok `{!BareClass ok}, total_ops ok p) → Φ p.
Proof. intros Hp. apply comp_total, Hp, _. Qed.

Lemma comp_resolve identifier :
  Φ (resolve_active_group local_aci identifier) ∧ Φ (resolve_active_group_for_leave local_aci identifier).
Proof. split; apply comp_bare; intros; apply resolve_phase. Qed.

Lemma comp_identity_changes : Φ emit_identity_changes.
Proof. apply comp_bare. intros. apply identity_changes_phase. Qed.
Lemma comp_contact_snapshot : Φ emit_contact_snapshot.
Proof. apply comp_bare. intros. apply contact_snapshot_phase. Qed.
Lemma comp_group_snapshot auth : Φ (emit_group_snapshot local_aci auth).
Proof. apply comp_bare. intros. apply group_snapshot_phase. Qed.
Lemma comp_account_identity : Φ (emit_account_identity local_aci).
Proof. apply comp_bare. intros. apply account_identity_phase. Qed.
Lemma comp_load_unprojected auth : Φ (load_unprojected_messages auth).
Proof. apply comp_bare. intros. apply load_unprojected_phase. Qed.
Lemma comp_complete_leave request_id group_key completion : Φ (complete_leave request_id group_key completion).
Proof. apply comp_bare. intros. apply complete_leave_phase. Qed.
Lemma comp_receipts : Φ abort_delivery_receipt_tasks.
Proof. apply comp_bare. intros. apply receipts_phase. Qed.
Lemma comp_finish_attachment completed : Φ (finish_attachment_completion completed).
Proof. apply comp_bare. intros. apply finish_attachment_phase. Qed.
Lemma comp_interrupt : Φ interrupt_remaining_attachments.
Proof. apply comp_bare. intros. apply interrupt_phase. Qed.
Lemma comp_join_attachments turns l : Φ (join_attachments turns l).
Proof. apply comp_bare. intros. apply join_attachments_phase. Qed.

#[local] Hint Resolve comp_identity_changes comp_contact_snapshot comp_group_snapshot comp_account_identity
  comp_load_unprojected comp_complete_leave comp_receipts comp_finish_attachment comp_interrupt comp_join_attachments : comp.
#[local] Hint Extern 1 (Φ _) => solve [apply (comp_retry_outbox (Φ := @Φ))|apply (comp_enqueue (Φ := @Φ))
  |apply (comp_mark_sent (Φ := @Φ))|apply (comp_project (Φ := @Φ))|apply (comp_acknowledgments (Φ := @Φ))] : comp.

(** ** Commands *)

Lemma comp_handle_command auth command : Φ (handle_command local_aci auth command).
Proof.
  unfold handle_command. destruct command as
    [id recipient message|id key message|id key| |id recipient b|id recipient|id recipient|id recipient|id recipient ts].
  - unfold send_message_command, report_request. compose.
  - assert (Hr := proj1 (comp_resolve key)). unfold send_group_message_command, report_request. compose.
  - assert (Hr := proj2 (comp_resolve key)). unfold leave_group_command, refuse_leave, expedite_outbox_messages. compose.
  - apply comp_panic.
  - unfold send_transient. compose.
  - unfold accept_identity_command, accept_identity_change, expedite_outbox_messages. compose.
  - unfold dismiss_identity_command, dismiss_identity_change. compose.
  - unfold reset_session_command. compose.
  - unfold send_transient. compose.
Qed.

(** ** Stopping *)

Lemma comp_drain : Φ drain_acknowledgments.
Proof.
  unfold drain_acknowledgments. compose. generalize (S (length (ack_ready (ack_close (sh_inbox a))))). intros n.
  induction n as [|n IH]; cbn [drain_loop]; compose.
Qed.

Lemma comp_abort_attachments : Φ abort_in_flight_attachments.
Proof. unfold abort_in_flight_attachments, abort_and_drain_attachments. compose. Qed.

Lemma comp_attachment_completion completed : Φ (handle_attachment_completion completed).
Proof. unfold handle_attachment_completion. compose. Qed.

#[local] Hint Resolve comp_handle_command comp_drain comp_abort_attachments comp_attachment_completion : comp.

Lemma comp_stop_waiting : Φ stop_attachments_and_drain_acknowledgments.
Proof. unfold stop_attachments_and_drain_acknowledgments, abandon_timed_out_attachments. compose. Qed.

Lemma comp_stop_tasks group_sync p : Φ p → Φ (stop_receive_tasks group_sync p).
Proof. intros Hp. unfold stop_receive_tasks, abandon_timed_out_attachments. compose. Qed.

Lemma comp_stop_loop group_sync : Φ (stop_active_receive_loop group_sync).
Proof. unfold stop_active_receive_loop. compose. apply comp_stop_tasks. compose. Qed.

Lemma comp_stop_driver : Φ stop_receive_driver ∧ Φ stop_receive_and_drain.
Proof. assert (H := comp_stop_waiting). unfold stop_receive_and_drain, stop_receive_driver. split; compose. Qed.

#[local] Hint Resolve comp_stop_waiting comp_stop_loop : comp.

(** ** The phases of the worker *)

Lemma comp_acknowledged : Φ acknowledged ∧ Φ acknowledgment_phase.
Proof. unfold acknowledged, acknowledgment_phase. split; compose. Qed.

Lemma comp_phase_or_stop {A R} (stop : proc R) (phase : proc A) k :
  Φ stop → Φ phase → (∀ a, Φ (k a)) → Φ (phase_or_stop stop phase k).
Proof. intros. unfold phase_or_stop. compose. Qed.

Lemma comp_stop_with {S C} stop : Φ stop → Φ (stop_with (S := S) (C := C) stop).
Proof. intros. unfold stop_with. compose. Qed.

Lemma comp_stop_active {C} d : Φ (stop_active (C := C) d).
Proof. apply comp_stop_with. compose. Qed.

#[local] Hint Resolve comp_phase_or_stop comp_stop_with comp_stop_active : comp.

Ltac phases := compose; repeat (apply comp_phase_or_stop; intros; compose).

Lemma comp_recovery_turn u : Φ (recovery_turn u).
Proof. destruct comp_acknowledged. unfold recovery_turn. phases. Qed.

Lemma comp_start_turn u : Φ (start_turn u).
Proof. destruct comp_acknowledged, comp_stop_driver. unfold start_turn. phases. Qed.

Lemma comp_drain_recovery turns : Φ (drain_recovery_commands turns).
Proof. induction turns as [|turns IH]; cbn [drain_recovery_commands]; compose. Qed.

#[local] Hint Resolve comp_recovery_turn comp_start_turn comp_drain_recovery : comp.

Lemma comp_wait turns : Φ (wait_out_recovery turns) ∧ Φ (wait_for_receive_start turns).
Proof. unfold wait_out_recovery, session_next_delay, wait_for_receive_start. split; compose. Qed.

Lemma comp_startup : Φ (run_startup_phases local_aci).
Proof. unfold run_startup_phases, become_ready, session_mark_ready. phases. Qed.

Lemma comp_retry_phases d auth : Φ (retry_outbox_phases local_aci d auth).
Proof. unfold retry_outbox_phases. phases. Qed.

Lemma comp_received d ready auth dirty received : Φ (dispatch_received local_aci d ready auth dirty received).
Proof. unfold dispatch_received, queue_drained, groups_snapshot_done. phases. Qed.

Lemma comp_command d ready auth command : Φ (dispatch_command local_aci d ready auth command).
Proof.
  unfold dispatch_command, run_command, handle_command_interruptibly, announce_leave, dispatch_attachment, with_attachments.
  phases.
Qed.

Lemma receipt_event_kind receipt r q ev :
  (finish_delivery_receipt_attempt receipt r q).1.1 = Some ev → is_message_kind (ev_kind ev) = false.
Proof. unfold finish_delivery_receipt_attempt. repeat case_match; intros; by simplify_eq/=. Qed.

Lemma comp_finish_receipt completion : Φ (finish_receipt completion).
Proof.
  unfold finish_receipt. apply comp_bind; [compose|]. intros s. apply comp_bind; [|intros; compose].
  destruct (finish_delivery_receipt_attempt _ _ _).1.1 as [ev|] eqn:E; [|apply comp_ret].
  apply (comp_op (OpEmit ev)). by eapply receipt_event_kind.
Qed.

#[local] Hint Resolve comp_finish_receipt : comp.

Lemma comp_receipt d completed : Φ (dispatch_receipt d completed).
Proof. unfold dispatch_receipt. compose. Qed.

#[local] Hint Resolve comp_retry_phases comp_received comp_command comp_receipt : comp.

Lemma comp_wake d ready auth dirty wake : Φ (dispatch_wake local_aci d ready auth dirty wake).
Proof. destruct comp_acknowledged. unfold dispatch_wake, dispatch_group_sync, pop_deferred. phases. Qed.

#[local] Hint Resolve comp_wake : comp.

Lemma comp_dispatch turns d : Φ (run_active_dispatch local_aci turns d).
Proof. unfold run_active_dispatch, dispatch_turn, next_replay, start_receipt. phases. Qed.

(** ** Connections *)

Lemma comp_lost b e : Φ (connection_lost b e).
Proof. unfold connection_lost, enter_recovery_mode. compose. apply comp_stop_tasks. compose. Qed.

Lemma deferred_event_kind command message a ev :
  (deferred_command_failure command message a).1 = Some ev → is_message_kind (ev_kind ev) = false.
Proof. destruct command; simpl; repeat case_match; intros; by simplify_eq/=. Qed.

Lemma comp_fail_deferred message : Φ (fail_deferred_commands message).
Proof.
  unfold fail_deferred_commands, with_attachments. apply comp_bind; [compose|]. intros s. apply comp_for_each.
  intros u command. apply comp_bind; [compose|]. intros [].
  apply (comp_bind (update _) (λ s, _)); [compose|]. intros s'. simpl proc_bind.
  destruct (deferred_command_failure _ _ _).1 as [ev|] eqn:E; [|apply comp_ret].
  apply (comp_op (OpEmit ev)). by eapply deferred_event_kind.
Qed.

#[local] Hint Resolve comp_fail_deferred : comp.

Lemma comp_start_failed e : Φ (start_failed e).
Proof. destruct comp_stop_driver. unfold start_failed, enter_recovery_mode. compose. Qed.

#[local] Hint Resolve comp_dispatch comp_startup comp_lost comp_start_failed : comp.

Lemma comp_connection_run turns inner : Φ (connection_run local_aci turns inner).
Proof.
  induction turns as [|turns IH]; cbn [connection_run]; compose.
  destruct (comp_wait inner). unfold connect. compose.
Qed.

#[local] Hint Resolve comp_connection_run : comp.

(** The whole worker. *)
Lemma comp_worker `{QrLibrary} config turns inner : Φ (run_worker local_aci config turns inner).
Proof.
  unfold run_worker, run_backend, open_encrypted_store, load_or_link, link_device, show_link,
    receive_and_command_loop, initialize_subsystems. compose.
Qed.

End Parts.

End Composition.
