(* ===== verification/Recording.v ===== *)
(** * Recording: a received message is recorded only when it is settled

    The store keeps received content until it is recorded as projected.  Over a
    whole run of the worker of [Worker], content is recorded only if it is a
    message the account sent itself, if all of it was shown and C acknowledged
    it, or if it was handled to its end with nothing to show.  C is assumed to
    acknowledge only numbers of messages it was shown ([acknowledges_shown]);
    the plugin acknowledges the numbers of events it polled ([Polling]). *)
From S2P Require Import Prelude Event Attachment Command Session GroupState StoreErrors SignalTypes Media.
From S2P Require Import Acknowledgment Effects Backend Repository Groups ProjectionState Outbox Commands.
From S2P Require Import Qr Content Delivery Projecting Snapshots Tasks Worker Phases Composition.

Section Recording.
Context `{Ids : SignalIds} `{Dig : Digests} `{Enums : ProtoEnums}.
Context (local_aci : Aci) (s0 : Shared).

(** ** Numbers that were shown *)

(** The numbers on emitted parts of messages, with the state: a delivery that
    is given a number anew was not shown yet. *)
Definition number_step (x : Shared * gset N) (e : entry) : Shared * gset N :=
  match entry_op e with
  | OpUpdate f =>
      let s := f x.1 in
      let n := next_delivery_id (sh_projection s) in
      (s, if (n =? next_delivery_id (sh_projection x.1))%N then x.2 else x.2 ∖ {[n]})
  | OpEmit ev => (x.1, if is_message_kind (ev_kind ev) then {[ev_request_id ev]} ∪ x.2 else x.2)
  | _ => x
  end.

Definition numbers (h : list entry) : gset N := (foldl number_step (s0, ∅) h).2.

Lemma number_state h : (foldl number_step (s0, ∅) h).1 = apply_updates s0 h.
Proof.
  unfold apply_updates. generalize (∅ : gset N). generalize s0 as s. induction h as [|[o r] h IH]; intros s ns; [done|].
  cbn [foldl]. destruct (number_step (s, ns) (existT o r)) as [s1 ns1] eqn:E. rewrite (IH s1 ns1). f_equal.
  unfold number_step, entry_op in E. simpl in E. by destruct o; simplify_eq.
Qed.

Lemma numbers_snoc h (e : entry) :
  numbers (h ++ [e]) =
    match entry_op e with
    | OpUpdate f =>
        let n := next_delivery_id (sh_projection (f (apply_updates s0 h))) in
        if (n =? next_delivery_id (deliveries_after s0 h))%N then numbers h else numbers h ∖ {[n]}
    | OpEmit ev => if is_message_kind (ev_kind ev) then {[ev_request_id ev]} ∪ numbers h else numbers h
    | _ => numbers h
    end.
Proof.
  unfold numbers, deliveries_after. rewrite foldl_app, <-number_state. simpl. unfold number_step at 1.
  by destruct (entry_op e).
Qed.

Lemma updates_snoc h (e : entry) :
  apply_updates s0 (h ++ [e]) = match entry_op e with OpUpdate f => f (apply_updates s0 h) | _ => apply_updates s0 h end.
Proof. unfold apply_updates. by rewrite foldl_app. Qed.

(** Questions of interruption change nothing. *)
Lemma uninterrupted_or (o : backend_op) : uninterrupted o ∨ ∀ r h, 
  live (h ++ [answered (Sig := backend_sig) o r]) = live h ∧ numbers (h ++ [answered o r]) = numbers h ∧
  apply_updates s0 (h ++ [answered o r]) = apply_updates s0 h.
Proof.
  destruct (decide (uninterrupted o)) as [|Ho]; [by left|right]. intros r h. rewrite live_app, numbers_snoc, updates_snoc.
  by destruct o; try (exfalso; apply Ho; exact I); simpl; rewrite app_nil_r.
Qed.

Lemma live_same h : numbers (live h) = numbers h ∧ apply_updates s0 (live h) = apply_updates s0 h.
Proof.
  induction h as [|[o r] h [IH1 IH2]] using rev_ind; [done|].
  change (existT o r) with (answered (Sig := backend_sig) o r). destruct (uninterrupted_or o) as [Ho|Ho].
  - rewrite live_app, (live_one o r Ho), !numbers_snoc, !updates_snoc. unfold deliveries_after. by rewrite IH1, IH2.
  - destruct (Ho r h) as (H1&H2&H3). by rewrite H1, H2, H3.
Qed.

Lemma live_equal h h' :
  live h = live h' → numbers h = numbers h' ∧ apply_updates s0 h = apply_updates s0 h'.
Proof.
  intros H. destruct (live_same h) as [<- <-], (live_same h') as [<- <-]. by rewrite H.
Qed.

(** ** Why content is recorded *)

(** It was handled to its end under number [id]: shown in parts of which the
    last has the number ([AwaitingAck]), or with no part shown. *)
Definition handled (content : Content) (id : N) (d : ProjectionDisposition) (h : list entry) : Prop :=
  ∃ pre seg post, live h = pre ++ seg ++ post ∧ exec (handle_content local_aci content id) seg (Done d) ∧
    delivered id d seg.

(** The inbox had an acknowledgment of [id]. *)
Definition acknowledged_by_c (id : N) (h : list entry) : Prop :=
  ∃ f s, answered (Sig := backend_sig) (OpUpdate f) s ∈ h ∧ id ∈ ack_ready (sh_inbox s).

(** It is a sent message, read from the store. *)
Definition own_message (content : Content) (h : list entry) : Prop :=
  ∃ thread timestamp, answered (Sig := backend_sig) (OpMessage thread timestamp) (Ok (Some content)) ∈ h.

Definition mark_due (content : Content) (h : list entry) : Prop :=
  own_message content h ∨
  (∃ id, id ≠ 0%N ∧ handled content id AwaitingAck h ∧ acknowledged_by_c id h) ∨
  (∃ id, id ≠ 0%N ∧ handled content id Complete h).

Lemma handled_app content id d h t : handled content id d h → handled content id d (h ++ t).
Proof.
  intros (pre&seg&post&Hh&Hex). exists pre, seg, (post ++ live t). split; [|done]. by rewrite live_app, Hh, <-!app_assoc.
Qed.

Lemma mark_due_live content h h' : live h = live h' → mark_due content h → mark_due content h'.
Proof.
  intros Hh. assert (Hin : ∀ o r, uninterrupted o → answered (Sig := backend_sig) o r ∈ h → answered o r ∈ h').
  { intros o r Ho Hr. assert (Hl : answered (Sig := backend_sig) o r ∈ live h) by (by apply list_elem_of_filter).
    rewrite Hh in Hl. by apply list_elem_of_filter in Hl as [_ ?]. }
  intros [(th&ts&Hr)|[(id&Hid&Hd&f&s&Hr&Ha)|(id&Hid&Hd)]].
  - left. exists th, ts. by apply Hin.
  - right. left. exists id. split; [done|]. split; [unfold handled in *; by rewrite <-Hh|]. exists f, s. split; [by apply Hin|done].
  - right. right. exists id. split; [done|]. unfold handled in *. by rewrite <-Hh.
Qed.

(** ** The specification *)

(** The deliveries belong to the worker, and an acknowledgment is for a number
    that was shown. *)
Definition acknowledges_shown : assumption := λ h o,
  match o return backend_resp o → Prop with
  | OpUpdate _ => λ r, sh_projection r = deliveries_after s0 h ∧ ∀ id, id ∈ ack_ready (sh_inbox r) → id ∈ numbers h
  | _ => λ _, True
  end.

Definition record_step (h : list entry) (e : entry) : Prop :=
  match entry_op e with OpMarkMessageProjected _ content => mark_due content h | _ => True end.

Abbreviation pending h := (mp_pending (deliveries_after s0 h)).

(** Every pending delivery but [x] whose number was shown was handled. *)
Definition shown_but (x : option N) (h : list entry) : Prop :=
  pending h !! 0%N = None ∧
  ∀ id content, Some id ≠ x → pending h !! id = Some content → id ∈ numbers h → handled content id AwaitingAck h.

Abbreviation all_shown := (shown_but None).

Definition record_spec : spec :=
  mkSpecification acknowledges_shown record_step (λ _ h, all_shown h) (λ _ h, all_shown h).

Definition recording {A} (p : proc A) : Prop := ∀ h, all_shown h → wp record_spec p (λ _ h', all_shown h') h.

(** *** Single operations *)

Lemma shown_but_weaken x h : all_shown h → shown_but x h.
Proof. intros [H0 H]. split; [done|]. intros id content _. by apply H. Qed.

(** What changes neither the pending deliveries nor the numbers. *)
Lemma shown_but_same x h (e : entry) :
  pending (h ++ [e]) = pending h → numbers (h ++ [e]) = numbers h → shown_but x h → shown_but x (h ++ [e]).
Proof.
  intros Hp Hn [H0 H]. unfold shown_but. rewrite Hp, Hn. split; [done|].
  intros id content Hx Hc Hid. by apply handled_app, H.
Qed.

(** Operations that record nothing, leave the deliveries alone and emit no part
    of a message. *)
Definition calm_op (o : backend_op) : Prop :=
  match o with
  | OpEmit ev => is_message_kind (ev_kind ev) = false
  | OpUpdate f => ∀ s, same_deliveries (sh_projection (f s)) (sh_projection s)
  | OpMarkMessageProjected _ _ => False
  | _ => True
  end.

#[export] Instance calm_bare : BareClass calm_op.
Proof. intros []; simpl; try done; [naive_solver|]. intros H s. apply H. Qed.

Lemma worker_calm o : worker_op o → calm_op o.
Proof. by destruct o. Qed.

Lemma same_deliveries_refl p : same_deliveries p p.
Proof. done. Qed.

Lemma calm_step x h (o : backend_op) r : calm_op o → shown_but x h → shown_but x (h ++ [answered o r]).
Proof.
  intros Ho. apply shown_but_same.
  - rewrite deliveries_after_snoc. destruct o; try done. apply Ho.
  - rewrite numbers_snoc. destruct o as []; try done; simpl in *; [by rewrite Ho|].
    destruct (Ho (apply_updates s0 h)) as (->&_). unfold deliveries_after. by rewrite N.eqb_refl.
Qed.

Lemma record_calm (o : backend_op) h r : calm_op o → record_step h (answered o r).
Proof. unfold record_step. simpl. by destruct o. Qed.

Lemma recording_perform (o : backend_op) : calm_op o → recording (perform (o : op)).
Proof.
  intros Ho h Hh. split; [by intros _|]. intros r _. split; [by apply record_calm|]. by apply calm_step.
Qed.

Lemma rec_perform {A} (o : backend_op) (k : Resp o → proc A) Q h :
  (suspends (o : op) = true → all_shown h) →
  (∀ r, acknowledges_shown h o r → record_step h (answered o r) ∧ wp record_spec (k r) Q (h ++ [answered o r])) →
  wp record_spec (perform (o : op) ≫= k) Q h.
Proof. intros Hc Hk. by split. Qed.

(** *** Composition *)

Lemma recording_ret {A} (a : A) : recording (Ret a).
Proof. by intros h. Qed.

Lemma recording_bind {A B} (p : proc A) (f : A → proc B) : recording p → (∀ a, recording (f a)) → recording (p ≫= f).
Proof. intros Hp Hf h Hh. eapply wp_call; [by apply Hp|]. intros a h' Hh'. by apply Hf. Qed.

Lemma recording_only {A} (p : proc A) : only_ops calm_op p → recording p.
Proof.
  induction p as [a|o k IH|m]; intros Hp; [by intros h| |by intros h]. destruct Hp as [Ho Hp].
  apply (recording_bind (perform o) k); [by apply recording_perform|]. intros r. by apply IH.
Qed.

Lemma all_shown_live h h' : live h = live h' → all_shown h → all_shown h'.
Proof.
  intros Hh [H0 H]. destruct (live_equal h h' Hh) as [Hn Hu]. unfold shown_but, deliveries_after in *.
  rewrite <-Hn, <-Hu. split; [done|]. intros id content Hx Hc Hid. unfold handled. rewrite <-Hh. by apply H.
Qed.

Lemma wp_same_live {A} (p : proc A) h h' :
  live h = live h' → wp record_spec p (λ _ h, all_shown h) h → wp record_spec p (λ _ h, all_shown h) h'.
Proof.
  revert h h'. induction p as [a|o k IH|m]; intros h h' Hh; simpl; [by apply all_shown_live| |by apply all_shown_live].
  intros [Hc Hk]. split; [intros Hs; eapply all_shown_live; [done|by apply Hc]|]. intros r Hr.
  destruct (live_equal h h' Hh) as [Hn Hu]. destruct (Hk r) as [Hs Hw].
  { destruct o; try done. simpl in *. unfold deliveries_after in *. by rewrite Hn, Hu. }
  split; [|by eapply IH; [|exact Hw]; rewrite !live_app, Hh].
  unfold record_step in *. destruct (entry_op _); try done. by eapply mark_due_live.
Qed.

Lemma recording_until {A} by_ (p : proc A) : recording p → recording (until by_ p).
Proof.
  intros Hp h Hh. specialize (Hp h Hh). clear Hh. revert h Hp. induction p as [a|o k IH|m]; intros h Hp; [done| |done].
  destruct Hp as [Hc Hk].
  assert (Hstep : wp record_spec (Step o (λ r, until by_ (k r))) (λ _ h, all_shown h) h).
  { split; [done|]. intros r Hr. destruct (Hk r Hr) as [Hs Hw]. split; [done|]. by apply IH. }
  cbn [until]. destruct (suspends o) eqn:Es; [|done]. split; [done|].
  assert (Hl : ∀ dropped : bool, live h = live (h ++ [answered (Sig := backend_sig) (OpInterrupted by_ o) dropped])).
  { intros dropped. rewrite live_app. simpl. by rewrite app_nil_r. }
  intros [] _; (split; [done|]); [exact (all_shown_live _ _ (Hl true) (Hc eq_refl))|]. exact (wp_same_live _ _ _ (Hl false) Hstep).
Qed.

Lemma recording_catch {A} (p : proc A) : recording p → recording (catch_unwind p).
Proof.
  intros Hp h Hh. specialize (Hp h Hh). clear Hh. revert h Hp. induction p as [a|o k IH|m]; intros h Hp; [done| |done].
  destruct Hp as [Hc Hk]. split; [done|]. intros r Hr. destruct (Hk r Hr) as [Hs Hw]. split; [done|]. by apply IH.
Qed.

(** ** Sent messages *)

Lemma mark_sent_recording sent : recording (mark_sent_message_projected_or_report sent).
Proof.
  apply recording_bind; [|intros []; [apply recording_ret|by apply (recording_perform (OpEmit _))]].
  unfold mark_sent_message_projected. induction MARK_SENT_PROJECTED_RETRY_DELAYS_MS as [|d l IH]; cbn [mark_sent_loop].
  all: apply recording_bind; [|intros [|e]; [apply recording_ret|]; destruct (storage_is_transient e); try apply recording_ret;
    try (apply recording_bind; [by apply (recording_perform (OpSleep _))|intros _; exact IH])].
  all: intros h Hh; unfold repo_mark_sent_message_projected, sent_message_content, mark_message_projected;
    (split; [done|]); intros r _; (split; [done|]);
    assert (Hh1 : all_shown (h ++ [answered (Sig := backend_sig) (OpMessage (sm_thread sent) (sm_timestamp sent)) r]))
      by (by apply calm_step); destruct r as [[content|]|e]; simpl; [|exact Hh1..].
  all: split; [done|]; intros r _; (split; [left; exists (sm_thread sent), (sm_timestamp sent); apply elem_of_app; right; by left|]);
    by apply shown_but_same; rewrite ?deliveries_after_snoc, ?numbers_snoc.
Qed.

(** ** The outbox *)

Lemma finish_recording m res : recording (finish_outbox_attempt m res).
Proof.
  apply recording_only. unfold finish_outbox_attempt, complete_outbox_message, defer_outbox_message. solve_only_ops.
Qed.

Lemma bare_recording {A} (p : proc A) : (∀ ok `{!BareClass ok}, total_ops ok p) → recording p.
Proof. intros Hp. apply recording_only, total_only_ops, Hp, _. Qed.

Lemma mark_result_recording (res : result SentMessage OutboxAttemptError) :
  recording (match res with Ok sent => mark_sent_message_projected_or_report sent | Err _ => Ret tt end).
Proof. destruct res; [apply mark_sent_recording|apply recording_ret]. Qed.

Lemma emit_recording text fatal : recording (emit (error text fatal)).
Proof. by apply (recording_perform (OpEmit _)). Qed.

Lemma retry_outbox_recording auth : recording (retry_outbox local_aci auth).
Proof.
  unfold retry_outbox. apply recording_bind; [by apply (recording_perform OpWallClock)|]. intros now.
  apply recording_bind; [by apply (recording_perform (OpDueClientMessages now))|].
  intros [l|e]; [|destruct (sqlite_store_error_is_transient e); [apply recording_ret|apply emit_recording]].
  induction l as [|m l IH]; [apply recording_ret|]. apply recording_bind; [|intros []; exact IH].
  unfold retry_one. destruct (negb _); [apply recording_ret|].
  apply recording_bind; [apply bare_recording; intros; apply attempt_phase|]. intros res.
  apply recording_bind; [apply mark_result_recording|]. intros [].
  apply recording_bind; [apply finish_recording|]. intros [[]|e]; [|apply emit_recording].
  destruct res as [|e]; [apply recording_ret|]. apply bare_recording. intros. apply report_attempt_phase.
Qed.

Lemma enqueue_recording request : recording (enqueue_and_send local_aci request).
Proof.
  unfold enqueue_and_send. apply recording_bind; [by apply (recording_perform OpNextTimestamp)|]. intros ts.
  apply recording_bind; [by apply (recording_perform (OpEnqueueClientMessage _ _ _ _))|]. intros [id|e]; [|apply recording_ret]. simpl try_.
  apply recording_bind; [apply bare_recording; intros; apply attempt_phase|]. intros res.
  apply recording_bind; [apply mark_result_recording|]. intros [].
  apply recording_bind; [apply finish_recording|]. intros r. destruct res; apply recording_ret.
Qed.

(** ** Deliveries that end *)

(** A method of the pending deliveries. *)
Lemma rec_with_projection {A B} (f : MessageProjection → A * MessageProjection) (k : A → proc B) Q h :
  (∀ e : entry, deliveries_after s0 (h ++ [e]) = (f (deliveries_after s0 h)).2 →
     numbers (h ++ [e]) = (if (next_delivery_id (f (deliveries_after s0 h)).2 =? next_delivery_id (deliveries_after s0 h))%N
       then numbers h else numbers h ∖ {[next_delivery_id (f (deliveries_after s0 h)).2]}) →
     wp record_spec (k (f (deliveries_after s0 h)).1) Q (h ++ [e])) →
  wp record_spec (with_projection f ≫= k) Q h.
Proof.
  intros Hk. unfold with_projection. apply wp_bind, rec_perform; [done|]. intros s [Hs _]. split; [done|].
  simpl. rewrite Hs. apply Hk; [by rewrite deliveries_after_snoc|by rewrite numbers_snoc].
Qed.

Lemma ended_pending id p :
  (mp_pending (projection_complete id p).2 = delete id (mp_pending p) ∧
   next_delivery_id (projection_complete id p).2 = next_delivery_id p) ∧
  (mp_pending (projection_release id p).2 = delete id (mp_pending p) ∧
   next_delivery_id (projection_release id p).2 = next_delivery_id p).
Proof.
  unfold projection_complete, projection_release. destruct (mp_pending p !! id) eqn:E; [done|].
  by rewrite delete_id.
Qed.

Lemma shown_removed h (e : entry) id :
  shown_but (Some id) h → pending (h ++ [e]) = delete id (pending h) → numbers (h ++ [e]) = numbers h → all_shown (h ++ [e]).
Proof.
  intros [H0 H] Hp Hn. unfold shown_but. rewrite Hp, Hn. split; [by rewrite lookup_delete_None; right|].
  intros j content _ [Hj Hc]%lookup_delete_Some Hin. apply handled_app, H; [congruence|done|done].
Qed.

(** What the worker goes on with: all shown, and nothing forgotten of what was
    shown and acknowledged. *)
Definition goes_on (h h' : list entry) : Prop :=
  all_shown h' ∧ numbers h ⊆ numbers h' ∧ ∀ id, acknowledged_by_c id h → acknowledged_by_c id h'.

Lemma acknowledged_app id h t : acknowledged_by_c id h → acknowledged_by_c id (h ++ t).
Proof. intros (f&s&Hin&Hid). exists f, s. split; [|done]. apply elem_of_app. by left. Qed.

Lemma goes_on_trans h1 h2 h3 : goes_on h1 h2 → goes_on h2 h3 → goes_on h1 h3.
Proof. intros (_&H1&H2) (H3&H4&H5). split; [done|]. split; [set_solver|auto]. Qed.

Lemma goes_on_calm h (o : backend_op) r : calm_op o → all_shown h → goes_on h (h ++ [answered o r]).
Proof.
  intros Ho Hh. split; [by apply calm_step|]. split; [|intros id; apply acknowledged_app].
  rewrite numbers_snoc. destruct o; simpl in *; try done; [by rewrite Ho|].
  destruct (Ho (apply_updates s0 h)) as (->&_). unfold deliveries_after. by rewrite N.eqb_refl.
Qed.

Lemma ended_wp (f : MessageProjection → option Content * MessageProjection) id h :
  (∀ p, mp_pending (f p).2 = delete id (mp_pending p) ∧ next_delivery_id (f p).2 = next_delivery_id p) →
  shown_but (Some id) h →
  wp record_spec (removed ← with_projection f;
                  match removed with
                  | Some _ => _ ← update (on_inbox (ack_unregister id)); Ret tt
                  | None => Ret tt
                  end) (λ _ h', goes_on h h') h.
Proof.
  intros Hf Hh. apply rec_with_projection. intros e Hd Hn.
  destruct (Hf (deliveries_after s0 h)) as [Hp Hnext]. rewrite Hnext, N.eqb_refl in Hn.
  assert (H1 : goes_on h (h ++ [e])).
  { split; [apply (shown_removed h e id); [done|by rewrite Hd|done]|]. split; [by rewrite Hn|intros j; apply acknowledged_app]. }
  destruct (f (deliveries_after s0 h)).1; [|done]. apply rec_perform; [done|]. intros s _. split; [done|].
  eapply goes_on_trans; [exact H1|]. apply goes_on_calm; [done|apply H1].
Qed.

Lemma complete_goes_on id h : shown_but (Some id) h → wp record_spec (complete_delivery id) (λ _ h', goes_on h h') h.
Proof. apply ended_wp. intros p. apply ended_pending. Qed.

Lemma release_goes_on id h : shown_but (Some id) h → wp record_spec (release_delivery id) (λ _ h', goes_on h h') h.
Proof. apply ended_wp. intros p. apply ended_pending. Qed.

(** ** Acknowledgments *)

Lemma acknowledge_wp retry id h :
  all_shown h → id ∈ numbers h → acknowledged_by_c id h →
  wp record_spec (acknowledge_or_defer retry id) (λ _ h', goes_on h h') h.
Proof.
  intros Hh Hn Ha. unfold acknowledge_or_defer, acknowledge_message. apply wp_bind, rec_perform; [done|].
  intros s [Hs _]. split; [done|]. set (h1 := h ++ _).
  assert (H1 : goes_on h h1) by (by apply goes_on_calm). rewrite Hs.
  assert (Hend : ∀ b h2, goes_on h h2 → wp record_spec (if negb b && retry
    then _ ← update (on_inbox (ack_defer_retry id)); Ret tt else Ret tt) (λ _ h', goes_on h h') h2).
  { intros b h2 H2. destruct (negb b && retry); [|done]. apply rec_perform; [done|]. intros s' _. split; [done|].
    eapply goes_on_trans; [exact H2|]. apply goes_on_calm; [done|apply H2]. }
  destruct (mp_pending (deliveries_after s0 h) !! id) as [content|] eqn:Ec; cycle 1.
  { apply rec_perform; [done|]. intros s' _. split; [done|]. apply (Hend true). eapply goes_on_trans; [exact H1|].
    apply goes_on_calm; [done|apply H1]. }
  assert (Hid : id ≠ 0%N) by (intros ->; destruct Hh as [H0 _]; congruence).
  unfold mark_message_projected. apply rec_perform; [intros _; apply H1|]. intros r _. split.
  { right. left. exists id. split; [done|]. split; [apply handled_app; by apply Hh|by apply acknowledged_app]. }
  set (h2 := h1 ++ _).
  assert (H2 : goes_on h h2).
  { eapply goes_on_trans; [exact H1|]. split; [|split; [unfold h2; by rewrite numbers_snoc|intros j; apply acknowledged_app]].
    apply shown_but_same; [by rewrite deliveries_after_snoc|by rewrite numbers_snoc|apply H1]. }
  destruct r as [[]|e].
  - apply wp_bind. eapply wp_mono; [|apply complete_goes_on, shown_but_weaken, H2]. intros [] h3 H3.
    apply (Hend true). by eapply goes_on_trans.
  - destruct (sqlite_store_error_is_transient e); [by apply (Hend false)|].
    apply rec_perform; [done|]. intros [] _. split; [done|].
    apply (Hend false). eapply goes_on_trans; [exact H2|]. apply goes_on_calm; [done|apply H2].
Qed.

Lemma acknowledgments_recording retry : recording (process_acknowledgments retry).
Proof.
  intros h Hh. unfold process_acknowledgments, with_inbox. apply wp_bind, rec_perform; [done|]. intros s [_ Hready]. split; [done|].
  cbn [wp]. set (ids := (ack_take_ready _ (sh_inbox s)).1).
  set (o := OpUpdate _). assert (H1 := goes_on_calm h o s (λ _, same_deliveries_refl _) Hh).
  set (h1 := h ++ [_]) in *.
  assert (Hids : ∀ id, id ∈ ids → id ∈ numbers h1 ∧ acknowledged_by_c id h1).
  { intros id Hin. assert (Hr : id ∈ ack_ready (sh_inbox s)).
    { destruct (take_ready_spec ACKNOWLEDGMENT_BATCH_SIZE (sh_inbox s)) as [<- _]. apply elem_of_app. by left. }
    split; [apply H1; by apply Hready|]. eexists _, s. split; [|exact Hr]. apply elem_of_app. right. by left. }
  assert (Hh1 : all_shown h1) by apply H1. clearbody ids h1. clear s Hready h Hh H1 o.
  apply wp_bind. apply (wp_for_each _ _ _ _ (λ _ todo h, all_shown h ∧ ∀ id, id ∈ todo → id ∈ numbers h ∧ acknowledged_by_c id h)).
  - by split.
  - intros [] id todo h [Hh Htodo]. destruct (Htodo id) as [Hn Ha]; [by left|].
    eapply wp_mono; [|by apply acknowledge_wp]. intros [] h' (Hh'&Hsub&Hack). split; [done|].
    intros j Hj. destruct (Htodo j); [by right|]. split; [by apply Hsub|auto].
  - by intros [] h [Hh _].
Qed.

(** ** Projection *)

Section Number.
Context (id : N) (Hid : id ≠ 0%N).

(** Not yet shown: everything else is, and number [id] is on no event. *)
Definition unshown (h : list entry) : Prop := shown_but (Some id) h ∧ id ∉ numbers h.

Lemma unshown_all h : unshown h → all_shown h.
Proof.
  intros [[H0 H] Hn]. split; [done|]. intros j content _ Hc Hj. apply H; [|done|done]. intros [= ->]. done.
Qed.

(** Before the events of the message: nothing of it, and no other delivery. *)
Definition before_op (o : backend_op) : Prop := plain_op id o ∧ keeps_deliveries o.

Lemma before_calm o : before_op o → calm_op o.
Proof. intros [H1 H2]. destruct o; simpl in *; naive_solver. Qed.

Lemma before_wp {A} (p : proc A) h : only_ops before_op p → unshown h → wp record_spec p (λ _ h', unshown h') h.
Proof.
  revert h. induction p as [a|o k IH|m]; intros h Hp Hh; [done| |by apply unshown_all].
  destruct Hp as [Ho Hp]. assert (Hc := before_calm o Ho).
  split; [intros _; by apply unshown_all|]. intros r _. split; [by apply record_calm|]. apply IH; [apply Hp|].
  destruct Hh as [Hh Hn]. split; [by apply calm_step|]. intros Hin. apply Hn.
  assert (Hsame : numbers (h ++ [answered (Sig := backend_sig) o r]) = numbers h); [|by rewrite <-Hsame].
  rewrite numbers_snoc. destruct o; simpl in *; try done; [by rewrite Hc|].
  destruct (Hc (apply_updates s0 h)) as (->&_). unfold deliveries_after. by rewrite N.eqb_refl.
Qed.

(** The events and what follows them: nothing is awaited, and a part of the
    message has number [id] or none. *)
Definition show_step (o : backend_op) : Prop :=
  suspends (o : op) = false ∧ keeps_deliveries o ∧
  match o with
  | OpEmit ev => is_message_kind (ev_kind ev) = true → ev_request_id ev = 0%N ∨ ev_request_id ev = id
  | _ => True
  end.

Lemma show_number h (o : backend_op) r :
  show_step o → shown_but (Some id) h → shown_but (Some id) (h ++ [answered o r]).
Proof.
  intros (_&Hk&He) Hh. assert (Hcalm : calm_op o → shown_but (Some id) (h ++ [answered (Sig := backend_sig) o r])).
  { intros Hc. by apply calm_step. }
  destruct o as []; try (by apply Hcalm); try done. simpl in He.
  destruct (is_message_kind (ev_kind e)) eqn:Ek; [|by apply Hcalm].
  destruct Hh as [H0 H]. unfold shown_but. rewrite deliveries_after_snoc, numbers_snoc. simpl. rewrite Ek.
  split; [done|]. intros j content Hj Hc [->%elem_of_singleton|Hin]%elem_of_union; [|by apply handled_app, H].
  destruct (He eq_refl) as [E|E]; rewrite E in *; congruence.
Qed.

Lemma show_wp {A} (p : proc A) h :
  total_ops show_step p → shown_but (Some id) h → wp record_spec p (λ _ h', shown_but (Some id) h') h.
Proof.
  revert h. induction p as [a|o k IH|m]; intros h Hp Hh; [done| |done]. destruct Hp as [Ho Hp].
  split; [destruct Ho as [-> _]; done|]. intros r _. split; [|by apply IH, show_number].
  unfold record_step. destruct Ho as (_&Hk&_). by destruct o.
Qed.

(** *** Handling content *)

Lemma transcode_before n l : only_ops before_op (transcode_downloads n l).
Proof.
  apply only_ops_and; [apply transcode_plain|]. revert n.
  induction l as [|d l IH]; intros n; cbn [transcode_downloads]; solve_only_ops; apply IH.
Qed.

Lemma downloads_before outgoing attachments : only_ops before_op (download_attachments outgoing attachments).
Proof.
  apply only_ops_and; [by apply downloads_plain|]. unfold download_attachments, download_attachment. solve_only_ops.
Qed.

Lemma title_before group : only_ops before_op (projection_group_title local_aci group).
Proof.
  apply only_ops_and; [by apply group_title_plain|].
  unfold projection_group_title, group_for_projection, read_departure, disposition_group, repo_group, update. solve_only_ops.
Qed.

Lemma emit_projected_shows p group title text downloaded :
  dp_delivery_id p = id → total_ops show_step (emit_projected local_aci p group title text downloaded).
Proof.
  intros Hp. unfold emit_projected.
  assert (He : ∀ ev, ev_request_id ev = 0%N ∨ ev_request_id ev = id → total_ops show_step (emit ev)) by (intros ev H; by repeat split).
  apply total_ops_bind.
  - destruct text as [text|]; [|done]. apply He. destruct (bool_decide _), group; simpl; auto.
  - intros _. apply total_ops_for_each. intros _ [i d]. apply He. simpl. case_bool_decide; auto.
Qed.

Lemma data_message_wp p h :
  dp_delivery_id p = id → unshown h → wp record_spec (emit_data_message local_aci p) (λ _ h', shown_but (Some id) h') h.
Proof.
  intros Hp Hh. unfold emit_data_message.
  assert (Hret : ∀ (d : ProjectionDisposition) h, unshown h → wp record_spec (Ret d) (λ _ h', shown_but (Some id) h') h).
  { intros d h' Hh'. apply Hh'. }
  assert (Hmain : ∀ key, wp record_spec (title ← projection_group_title local_aci key;
      match title with
      | Err disposition => Ret disposition
      | Ok title => _ ← project_message local_aci p key title; Ret AwaitingAck
      end) (λ _ h', shown_but (Some id) h') h).
  { intros key. eapply wp_call; [by apply before_wp; [apply title_before|]|]. intros [title|d] h1 H1; [|by apply Hret].
    unfold project_message. apply wp_bind. eapply wp_call; [by apply before_wp; [apply downloads_before|]|]. intros l h2 H2.
    eapply wp_call; [by apply before_wp; [apply transcode_before|]|]. intros l' h3 H3.
    apply show_wp; [by apply emit_projected_shows|apply H3]. }
  destruct (group_message_target _) as [|key|]; [| |].
  - destruct (_ && _); [by apply Hret|apply (Hmain None)].
  - destruct (_ && _); [by apply Hret|apply (Hmain (Some key))].
  - apply rec_perform; [done|]. intros [] _. split; [done|]. by apply calm_step; [|apply Hh].
Qed.

Lemma receipt_shows content timestamp : total_ops show_step (enqueue_receipt content timestamp).
Proof. unfold enqueue_receipt, with_projection, update, emit. solve_total_ops; by repeat split. Qed.

Lemma handle_content_shown content h :
  unshown h → wp record_spec (handle_content local_aci content id) (λ _ h', shown_but (Some id) h') h.
Proof.
  intros Hh. unfold handle_content.
  assert (Hret : ∀ d : ProjectionDisposition, wp record_spec (Ret d) (λ _ h', shown_but (Some id) h') h) by (intros d; apply Hh).
  assert (Hev : ∀ ev, is_message_kind (ev_kind ev) = false →
    wp record_spec (_ ← emit ev; Ret Complete) (λ _ h', shown_but (Some id) h') h).
  { intros ev Hev. apply rec_perform; [done|]. intros [] _. split; [done|]. by apply calm_step; [|apply Hh]. }
  destruct (ct_body content) as [m|[ts [m|]]|sent|[ts act [gid|]]|m| |]; try apply Hret; try (by apply Hev).
  - eapply wp_call; [by apply data_message_wp|]. intros d h1 H1. apply wp_bind.
    eapply wp_mono; [|by apply show_wp; [apply receipt_shows|]]. by intros [] h2.
  - by apply data_message_wp.
  - destruct (st_message sent) as [m|], (st_edit_message sent) as [[ts [m'|]]|]; try apply Hret; by apply data_message_wp.
Qed.

(** *** What a trace without events of the message adds *)

Lemma numbers_before h t :
  Forall (λ e : entry, before_op (entry_op e)) t → id ∉ numbers h → id ∉ numbers (h ++ t).
Proof.
  intros Ht Hh. induction t as [|[o r] t IH] using rev_ind; [by rewrite app_nil_r|].
  apply Forall_app in Ht as [Ht [Ho _]%Forall_cons_1]. specialize (IH Ht). rewrite app_assoc, numbers_snoc.
  unfold entry_op in *. simpl in *. destruct Ho as [H1 H2]. destruct o; try done; simpl in *.
  - destruct H1 as [_ ->]. done.
  - destruct (H2 (apply_updates s0 (h ++ t))) as (->&_). unfold deliveries_after. by rewrite N.eqb_refl.
Qed.

Lemma handle_content_uninterrupted content : only_ops uninterrupted (handle_content local_aci content id).
Proof.
  assert (Hmsg : ∀ p, only_ops uninterrupted (emit_data_message local_aci p)).
  { intros p. unfold emit_data_message, projection_group_title, group_for_projection, read_departure,
      disposition_group, repo_group, update, project_message, emit_projected, download_attachments, download_attachment.
    assert (Htr : ∀ l n, only_ops uninterrupted (transcode_downloads n l)).
    { intros l. induction l as [|d l IH]; intros n; simpl; [done|]. solve_only_ops; apply IH. }
    solve_only_ops; apply Htr. }
  unfold handle_content, enqueue_receipt, with_projection, update. solve_only_ops; apply Hmsg.
Qed.

Lemma live_uninterrupted t : Forall (λ e : entry, uninterrupted (entry_op e)) t → live t = t.
Proof.
  induction 1 as [|e t He Ht IH]; [done|]. unfold live in *. by rewrite filter_cons_True, IH.
Qed.

(** What holds when content with number [id] was handled. *)
Lemma handle_content_handled content h :
  unshown h → pending h !! id = Some content →
  wp record_spec (handle_content local_aci content id) (λ d h',
    pending h' !! id = Some content ∧ handled content id d h' ∧ shown_but (Some id) h' ∧
    (d ≠ AwaitingAck → unshown h')) h.
Proof.
  intros Hh Hp. eapply wp_mono; [|by apply wp_trace, handle_content_shown]. intros d h' [Hs (t&->&Hex)].
  assert (Hk := only_ops_exec _ _ _ _ (handle_content_keeps local_aci content id) Hex).
  assert (Hu := live_uninterrupted t (only_ops_exec _ _ _ _ (handle_content_uninterrupted content) Hex)).
  assert (Hdel := end_sound _ _ _ _ (handle_content_wp local_aci content id [] Hid (Forall_nil_2 _)) Hex).
  split; [|split; [|split; [done|]]].
  - destruct (keeps_deliveries_extends s0 h (h ++ t)) as (_&Heq&_); [by exists t|]. unfold deliveries_after in *. by rewrite Heq.
  - exists (live h), t, []. split; [|done]. by rewrite app_nil_r, live_app, Hu.
  - intros Hd. split; [done|].
    assert (Hplain : Forall (plain id) t) by (by destruct d).
    apply numbers_before; [|apply Hh]. apply Forall_forall. intros e He. rewrite Forall_forall in Hplain, Hk.
    split; [by apply Hplain|by apply Hk].
Qed.

Lemma record_projected_goes_on content h :
  unshown h → handled content id Complete h → wp record_spec (record_projected content id) (λ _ h', all_shown h') h.
Proof.
  intros Hh Hd. unfold record_projected, mark_message_projected. apply rec_perform; [intros _; by apply unshown_all|].
  intros r _. split; [right; right; by exists id|]. set (h1 := h ++ _).
  assert (H1 : shown_but (Some id) h1).
  { apply shown_but_same; [by rewrite deliveries_after_snoc|by rewrite numbers_snoc|apply Hh]. }
  destruct r as [[]|e]; [eapply wp_mono; [|by apply complete_goes_on]; by intros [] h' [? _]|].
  eapply wp_call; [by apply release_goes_on|]. intros [] h2 [H2 _].
  destruct (sqlite_store_error_is_transient e); [done|]. by apply (recording_perform (OpEmit _)).
Qed.

End Number.

Lemma track_next content p id :
  (track content p).1 = Some id →
  next_delivery_id (track content p).2 = id ∧ id ≠ next_delivery_id p.
Proof.
  unfold track. destruct (negb (has_capacity p)); [done|]. destruct (negb _); [done|]. intros [= <-]. simpl. split; [done|].
  unfold wrapping_add. change (u64_max + 1)%N with 18446744073709551616%N. intros Heq.
  pose proof (N.mod_lt (next_delivery_id p + 1) 18446744073709551616 ltac:(done)) as Hlt.
  destruct (N.lt_trichotomy (next_delivery_id p + 1) 18446744073709551616) as [H|[H|H]]; [|rewrite H, N.Div0.mod_same in Heq|]; [|lia..].
  rewrite N.mod_small in Heq by lia. lia.
Qed.

Lemma track_none_next content p : (track content p).1 = None → next_delivery_id (track content p).2 = next_delivery_id p.
Proof. unfold track. destruct (negb (has_capacity p)); [done|]. by destruct (negb _). Qed.

(** A new delivery is not shown yet. *)
Lemma tracked_unshown content h (e : entry) id :
  all_shown h → (track content (deliveries_after s0 h)).1 = Some id →
  deliveries_after s0 (h ++ [e]) = (track content (deliveries_after s0 h)).2 →
  numbers (h ++ [e]) = numbers h ∖ {[id]} →
  id ≠ 0%N ∧ unshown id (h ++ [e]) ∧ pending (h ++ [e]) !! id = Some content.
Proof.
  intros [H0 H] Ht Hd Hn. apply track_some in Ht as (Hid&Hp&_). unfold unshown, shown_but. rewrite Hd, Hp, Hn.
  split; [done|]. split; [|by rewrite lookup_insert_eq]. split; [|set_solver]. split; [by rewrite lookup_insert_ne|].
  intros j c Hj Hc [Hin _]%elem_of_difference. rewrite lookup_insert_ne in Hc by congruence. by apply handled_app, H.
Qed.

Lemma project_content_recording auth content : recording (project_content local_aci auth content).
Proof.
  intros h Hh. unfold project_content. destruct (negb _); [done|]. unfold track_delivery. apply wp_bind, rec_with_projection.
  intros e Hd Hn. destruct (track content (deliveries_after s0 h)).1 as [id|] eqn:Et; cycle 1.
  { destruct (track_none _ _ auth Et) as [Hp _]. rewrite (track_none_next _ _ Et), N.eqb_refl in Hn.
    apply shown_but_same; [by rewrite Hd|done|done]. }
  destruct (track_next _ _ _ Et) as [Hnext Hne]. rewrite Hnext, (proj2 (N.eqb_neq _ _) Hne) in Hn.
  destruct (tracked_unshown content h e id Hh Et Hd Hn) as (Hid&Hun&Hp).
  apply rec_perform; [done|]. intros s _. split; [done|]. set (h1 := _ ++ _).
  assert (Hun1 : unshown id h1).
  { destruct Hun as [Hs Hu]. split; [by apply calm_step|]. apply numbers_before; [|done]. by apply Forall_singleton. }
  assert (Hp1 : pending h1 !! id = Some content) by (unfold h1; by rewrite deliveries_after_snoc).
  cbn [wp]. eapply wp_call; [by apply handle_content_handled|]. intros d h2 (Hp2&Hd2&Hs2&Hu2).
  destruct d; cbn [projection_effect remove_pending mark_projected negb].
  - destruct Hs2 as [H0 Hs2]. split; [done|]. intros j c _ Hc Hj. destruct (decide (j = id)) as [->|Hne']; [|apply Hs2; congruence].
    by simplify_eq.
  - by apply record_projected_goes_on; [|apply Hu2|].
  - eapply wp_mono; [|by apply release_goes_on]. by intros [] h' [? _].
Qed.

(** ** The worker *)

#[export] Instance recording_compositional : Compositional local_aci (@recording).
Proof.
  split; intros; [apply recording_ret|by intros h|by apply recording_bind|by apply recording_until|by apply recording_catch
    |by apply recording_perform, worker_calm|apply retry_outbox_recording|apply enqueue_recording|apply mark_sent_recording
    |apply project_content_recording|apply acknowledgments_recording].
Qed.

(** C3. Received content is recorded as shown only when it is settled: in every
    run of the worker from a start without pending deliveries, if C
    acknowledges only numbers it was shown, then whenever the store is asked to
    record content, the content is a message the account sent itself; or all of
    it was emitted, the last part with a number that C acknowledged; or it was
    handled to its end and no part with the number was emitted.  So whatever
    fails or is interrupted before that, the store keeps the message. *)
Theorem recorded_when_settled `{QrLibrary} config turns inner t out :
  mp_pending (sh_projection s0) = ∅ →
  exec (run_worker local_aci config turns inner) t out → legal_trace acknowledges_shown [] t →
  always record_step [] t.
Proof.
  intros H0 Hex Hl. assert (Hs : all_shown []).
  { unfold shown_but, deliveries_after. simpl. by rewrite H0. }
  by destruct (wp_sound record_spec _ _ [] t out (comp_worker (Φ := @recording) config turns inner [] Hs) Hex Hl).
Qed.

End Recording.

(** *** A message that is shown, acknowledged and recorded

    The plugin acknowledges every part with a number as it is emitted. *)

#[local] Instance no_code : QrLibrary := {| qr_new := λ _, Err "too long"; png_grayscale := λ _ _ _, Err "no memory" |}.

Definition reader_step (s : Shared (Ids := string_ids)) (e : @entry (@backend_sig string_ids)) : Shared (Ids := string_ids) :=
  match projT1 e with
  | OpUpdate f => f s
  | OpEmit ev => if is_message_kind (ev_kind ev) then on_inbox (λ i, (ack_submit (ev_request_id ev) i).2) s else s
  | _ => s
  end.

Definition reader_inbox (h : list (@entry (@backend_sig string_ids))) : AcknowledgmentState :=
  let i := sh_inbox (foldl reader_step shared_default h) in
  mkAcknowledgments (ack_open i) (ack_registered i) (ack_accepted i)
    (filter (λ id, id ∈ numbers (Ids := string_ids) shared_default h) (ack_ready i)) (ack_retry i) (ack_permit i).

Definition reader_world (h : list (@entry (@backend_sig string_ids))) (o : @backend_op string_ids)
  : @backend_resp string_ids o :=
  match o return @backend_resp string_ids o with
  | OpUpdate _ => on_inbox (λ _, reader_inbox h) (apply_updates shared_default h)
  | OpSelect _ =>
      match length (filter (λ e, match projT1 e with OpSelect _ => true | _ => false end = true) h) with
      | 0 => WakeStarted (Some (Ok tt))
      | 1 => WakeReceived (Some (ReceivedContent sample_content))
      | 2 => WakeAcknowledgments
      | _ => WakeShutdown
      end
  | o => download_world h o
  end.

Definition reader_worker := run_worker (Ids := string_ids) (Dig := plain_digests) (Enums := proto_numbers)
  "me" (mkConfig "/store" "laptop" (mkPassphrase "secret")) 4 9.

Definition reader_run := run (Sig := @backend_sig string_ids) reader_world reader_worker [].

Lemma reader_legal {A} (p : proc (Sig := @backend_sig string_ids) A) h :
  legal_trace (acknowledges_shown (Ids := string_ids) shared_default) h (run (Sig := @backend_sig string_ids) reader_world p h).1.
Proof.
  revert h. induction p as [a|o k IH|m]; intros h; [done| |done]. simpl. split; [|apply IH].
  destruct o; try done. split; [done|]. intros id [? _]%list_elem_of_filter. done.
Qed.

Definition records (content : @Content string_ids) (e : @entry (@backend_sig string_ids)) : bool :=
  match projT1 e with OpMarkMessageProjected _ c => (md_client_timestamp (ct_metadata c) =? md_client_timestamp (ct_metadata content))%Z | _ => false end.

Lemma recorded_when_settled_witness :
  length (List.filter (records sample_content) reader_run.1) = 1 ∧
  always (record_step (Ids := string_ids) (Dig := plain_digests) (Enums := proto_numbers) "me") [] reader_run.1.
Proof.
  split; [vm_compute; reflexivity|].
  apply (recorded_when_settled (Ids := string_ids) (Dig := plain_digests) (Enums := proto_numbers) "me" shared_default
    (mkConfig "/store" "laptop" (mkPassphrase "secret")) 4 9 reader_run.1 reader_run.2 eq_refl).
  - exact (run_exec (Sig := @backend_sig string_ids) reader_world reader_worker []).
  - exact (reader_legal reader_worker []).
Defined.
