(* ===== verification/Durability.v ===== *)
(** * Durability: queued messages survive crashes

    A message in the outbox stays there until it is settled, whatever fails on
    the way: the store answers as the in-memory store of [Storage] does, or
    reports an error with the change made or not; the network answers anything;
    and the process may stop at any point, in the middle of an operation too.
    The theorem is about the whole worker of [Worker], over any number of
    sessions that work on the same store. *)
From S2P Require Import Prelude Event Attachment Command Session GroupState StoreErrors SignalTypes.
From S2P Require Import Acknowledgment Effects Backend Repository Groups ProjectionState Outbox Storage Commands.
From S2P Require Import Qr Content Delivery Projecting Snapshots Tasks Worker Phases Composition.

Section Durability.
Context `{Ids : SignalIds} `{Dig : Digests} `{Enums : ProtoEnums}.
Context (local_aci : Aci).

(** ** The store behind a history *)

(** What an operation does to the rows. *)
Definition store_effect (o : backend_op) (st : FakeState) : FakeState :=
  match o with
  | OpEnqueueClientMessage kind recipient body timestamp =>
      (fake_enqueue_outbox_message kind recipient body timestamp st).2
  | OpCompleteClientMessage id => (fake_complete_outbox_message id st).2
  | OpDeferClientMessage id attempts retry_at_ms => (fake_defer_outbox_message id attempts retry_at_ms st).2
  | OpExpediteClientMessages recipient => (fake_expedite_outbox_messages recipient st).2
  | _ => st
  end.

(** An operation that failed or was not waited for: done or not. *)
Definition maybe (o : backend_op) (st st' : FakeState) : Prop := st' = st ∨ st' = store_effect o st.

(** An operation with its answer. *)
Definition served (st : FakeState) (e : entry) (st' : FakeState) : Prop :=
  match e with
  | existT o r =>
      match o return backend_resp o → Prop with
      | OpEnqueueClientMessage kind recipient body timestamp => λ r,
          match r with
          | Ok id => (Ok id, st') = fake_enqueue_outbox_message kind recipient body timestamp st
          | Err _ => maybe o st st'
          end
      | OpCompleteClientMessage _ | OpDeferClientMessage _ _ _ | OpExpediteClientMessages _ => λ r,
          match r with
          | Ok _ => st' = store_effect o st
          | Err _ => maybe o st st'
          end
      | OpDueClientMessages now_ms => λ r,
          match r with
          | Ok l => (Ok l, st') = fake_due_outbox_messages now_ms st
          | Err _ => st' = st
          end
      | OpInterrupted _ o => λ dropped, if dropped then maybe o st st' else st' = st
      | _ => λ _, st' = st
      end r
  end.

Fixpoint serves (st : FakeState) (t : list entry) (st' : FakeState) : Prop :=
  match t with
  | [] => st' = st
  | e :: t => ∃ st1, served st e st1 ∧ serves st1 t st'
  end.

(** ** Runs that stop anywhere *)

(** The history of a program that stopped, in the middle of an operation if one
    is named; a program that ended stopped after its last operation. *)
Inductive stopped {A} : proc A → list entry → option op → Prop :=
| stopped_here p : stopped p [] None
| stopped_in o k : stopped (Step o k) [] (Some o)
| stopped_later o k r t x : stopped (k r) t x → stopped (Step o k) (answered o r :: t) x.

Lemma exec_stopped {A} (p : proc A) t out : exec p t out → stopped p t None.
Proof. induction 1; by constructor. Qed.

(** The state of the store when a program stopped. *)
Definition stops (st : FakeState) (t : list entry) (x : option op) (st' : FakeState) : Prop :=
  ∃ st1, serves st t st1 ∧
    match x with
    | None => st' = st1
    | Some o => maybe o st1 st'
    end.

(** ** Settled messages *)

(** The key a group is addressed by: the one its identifier is the hash of, or
    the one that the index of the metadata cache has for it. *)
Definition addressed (identifier : string) (key : list byte) (t : list entry) : Prop :=
  group_identifier key = identifier ∨
  ∃ s, was_read s t ∧ group_key_for_identifier identifier (sh_metadata s) = Some key.

(** The network accepted exactly this message. *)
Definition delivered (m : ClientOutboxMessage) (t : list entry) : Prop :=
  match ob_kind m with
  | Direct => ∃ recipient, parse_recipient (ob_recipient m) = Some recipient ∧
      answered (Sig := backend_sig) (OpSendMessage recipient
        (text_message (ob_body m) (ob_timestamp m) None) (ob_timestamp m)) (Ok tt) ∈ t
  | Group_ => ∃ key revision, addressed (ob_recipient m) key t ∧
      answered (Sig := backend_sig) (OpSendMessageToGroup key
        (text_message (ob_body m) (ob_timestamp m) (Some (mkGroupContext (Some key) (Some revision))))
        (ob_timestamp m)) (Ok tt) ∈ t
  end.

(** An attempt to send it ran and failed for good, or as the last one allowed. *)
Definition given_up (m : ClientOutboxMessage) (t : list entry) : Prop :=
  ∃ m' e pre seg post, same_row m' m ∧ live t = pre ++ seg ++ post ∧
    exec (attempt_outbox_message local_aci m') seg (Done (Err e)) ∧ is_terminal m' e = true.

Definition settled (m : ClientOutboxMessage) (t : list entry) : Prop := delivered m t ∨ given_up m t.

(** The messages a history has to account for: those in the store at its
    beginning, and those the store confirmed. *)
Definition introduced (st0 : FakeState) (t : list entry) (m : ClientOutboxMessage) : Prop :=
  m ∈ outbox st0 ∨
  ∃ id kind recipient body timestamp, m = mkOutbox id kind recipient body timestamp 0 ∧
    answered (Sig := backend_sig) (OpEnqueueClientMessage kind recipient body timestamp) (Ok id) ∈ t.

Definition stored (m : ClientOutboxMessage) (st : FakeState) : Prop := ∃ m', m' ∈ outbox st ∧ same_row m' m.

(** No message is lost. *)
Record keeps (st0 : FakeState) (t : list entry) (st : FakeState) : Prop := {
  keeps_ok : fake_ok st;
  keeps_all : ∀ m, introduced st0 t m → stored m st ∨ settled m t;
}.

(** *** They depend on the history without questions of interruption *)

Lemma live_elem o r t : uninterrupted o → answered (Sig := backend_sig) o r ∈ live t ↔ answered o r ∈ t.
Proof. intros Ho. unfold live. rewrite list_elem_of_filter. naive_solver. Qed.

#[export] Instance settled_same_live m : Proper ((λ t t', live t = live t') ==> iff) (settled m).
Proof.
  intros t t' Ht.
  assert (Hin : ∀ o r, uninterrupted o → answered (Sig := backend_sig) o r ∈ t ↔ answered o r ∈ t').
  { intros o r Ho. rewrite <-(live_elem o r t Ho), Ht. by apply live_elem. }
  assert (Hadr : ∀ i k, addressed i k t ↔ addressed i k t').
  { intros i k. unfold addressed, was_read. apply or_iff_compat_l.
    split; intros (s&[f Hs]&Hk); exists s; (split; [|done]); exists f; by apply Hin. }
  unfold settled, delivered, given_up. rewrite Ht. apply or_iff_compat_r.
  destruct (ob_kind m).
  - split; intros (rc&?&Hs); exists rc; (split; [done|]); by apply Hin.
  - split; intros (key&rev&Ha&Hs); exists key, rev; (split; [by apply Hadr|]); by apply Hin.
Qed.

Lemma introduced_live st0 t t' m : live t = live t' → introduced st0 t m → introduced st0 t' m.
Proof.
  intros Ht [?|(id&kind&recipient&body&ts&->&Hin)]; [by left|right]. exists id, kind, recipient, body, ts.
  split; [done|]. apply live_elem; [done|]. rewrite <-Ht. by apply live_elem.
Qed.

Lemma keeps_live st0 t t' st : live t = live t' → keeps st0 t st → keeps st0 t' st.
Proof.
  intros Ht [Hok Hall]. split; [done|]. intros m Hm. rewrite <-(settled_same_live m t t' Ht).
  apply Hall. by eapply introduced_live.
Qed.

Lemma addressed_mono identifier key t t' : t ⊆ t' → addressed identifier key t → addressed identifier key t'.
Proof. unfold addressed, was_read. set_solver. Qed.

Lemma delivered_mono m t t' : t ⊆ t' → delivered m t → delivered m t'.
Proof.
  intros Ht. unfold delivered. destruct (ob_kind m); [set_solver|]. intros (key&rev&Ha&Hs).
  exists key, rev. split; [by eapply addressed_mono|set_solver].
Qed.

Lemma settled_more m t u : settled m t → settled m (t ++ u).
Proof.
  intros [Hd|(m'&e&pre&seg&post&Hm&Ht&Hex)]; [left; eapply delivered_mono; [|done]; set_solver|].
  right. exists m', e, pre, seg, (post ++ live u). split; [done|]. split; [|done].
  by rewrite live_app, Ht, <-!app_assoc.
Qed.

Lemma settled_row m m' t : same_row m m' → settled m t → settled m' t.
Proof.
  intros Hm [Hd|(m0&e&pre&seg&post&Hm0&H)].
  - left. destruct m, m'. unfold same_row, set_attempts in Hm. by simplify_eq/=.
  - right. exists m0, e, pre, seg, post. split; [by etrans|done].
Qed.

(** ** One operation *)

(** The operation that takes effect when [o] is performed. *)
Definition effective (o : backend_op) : backend_op := match o with OpInterrupted _ o => o | o => o end.

(** The row an operation removes. *)
Definition drops_row (o : backend_op) : option Z :=
  match o with OpCompleteClientMessage id => Some id | _ => None end.

(** The rows an operation may remove are settled. *)
Definition may_drop (t : list entry) (st : FakeState) (o : backend_op) : Prop :=
  ∀ m, drops_row o = Some (ob_id m) → m ∈ outbox st → settled m t.

Lemma served_maybe st (o : backend_op) r st' : served st (answered o r) st' → maybe (effective o) st st'.
Proof.
  unfold maybe. destruct o; simpl; try (by left); try (destruct r; [by right|done]).
  - destruct r; [|by left]. unfold fake_due_outbox_messages. intros [= ? ->]. by left.
  - destruct r; [|done]. unfold fake_enqueue_outbox_message. intros [= ? ->]. by right.
  - destruct r; [done|by left].
Qed.

Lemma maybe_ok o st st' : maybe o st st' → fake_ok st → fake_ok st'.
Proof.
  intros [->| ->] Hok; [done|]. destruct o; simpl; try done;
    [by apply enqueue_ok|by apply complete_ok|by apply defer_ok|]. by destruct Hok.
Qed.

(** What can have happened to the rows. *)
Lemma maybe_rows o st st' :
  maybe o st st' →
  (outbox st' = outbox st ∧ next_id st' = next_id st) ∨
  (∃ kind recipient body timestamp, st' = (fake_enqueue_outbox_message kind recipient body timestamp st).2) ∨
  (∃ id, drops_row o = Some id ∧ st' = (fake_complete_outbox_message id st).2) ∨
  (∃ id attempts at_, st' = (fake_defer_outbox_message id attempts at_ st).2).
Proof. intros [->| ->]; [by left|]. destruct o; try (by left); simpl; naive_solver. Qed.

Lemma maybe_stored o st st' m :
  maybe o st st' → fake_ok st → m ∈ outbox st → stored m st' ∨ drops_row o = Some (ob_id m).
Proof.
  intros Hmb Hok Hm.
  destruct (maybe_rows _ _ _ Hmb) as [[Heq _]|[(k&r&b&ts&->)|[(id&Hd&->)|(id&n&at_&->)]]].
  - left. exists m. by rewrite Heq.
  - left. exists m. split; [|done]. apply in_enqueued. by left.
  - destruct (decide (ob_id m = id)) as [->|Hne]; [by right|]. left. exists m. split; [|done]. by apply in_completed.
  - left. destruct (decide (ob_id m = id)) as [Heq|Hne].
    + exists (set_attempts n m). split; [|done]. apply in_deferred; [done|]. right. by exists m.
    + exists m. split; [|done]. apply in_deferred; [done|]. by left.
Qed.

Lemma keeps_maybe st0 t st o st' :
  keeps st0 t st → maybe o st st' → may_drop t st o → keeps st0 t st'.
Proof.
  intros [Hok Hall] Hmb Hd. split; [by eapply maybe_ok|]. intros m Hm.
  destruct (Hall m Hm) as [(m'&Hm'&Hrow)|Hs]; [|by right].
  destruct (maybe_stored o st st' m' Hmb Hok Hm') as [(m2&Hm2&Hrow2)|Hdr].
  - left. exists m2. split; [done|]. by etrans.
  - right. by apply (settled_row m'), (Hd m' Hdr).
Qed.

Lemma introduced_snoc st0 t (e : entry) m st st' :
  introduced st0 (t ++ [e]) m → served st e st' → introduced st0 t m ∨ m ∈ outbox st'.
Proof.
  intros [?|(id&kind&recipient&body&ts&->&Hin)] Hs; [by left; left|].
  apply elem_of_app in Hin as [Hin|<-%list_elem_of_singleton].
  - left. right. by exists id, kind, recipient, body, ts.
  - right. simpl in Hs. injection Hs as -> ->. apply in_enqueued. by right.
Qed.

Lemma keeps_served st0 t st (o : backend_op) r st' :
  keeps st0 t st → served st (answered o r) st' → may_drop t st (effective o) →
  keeps st0 (t ++ [answered o r]) st'.
Proof.
  intros Hk Hs Hd. destruct (keeps_maybe st0 t st _ st' Hk (served_maybe _ _ _ _ Hs) Hd) as [Hok Hall].
  split; [done|]. intros m Hm. destruct (introduced_snoc _ _ _ _ _ _ Hm Hs) as [Hi|Hin].
  - destruct (Hall m Hi); [by left|right]. by apply settled_more.
  - left. by exists m.
Qed.

(** *** A message read from the store stays the only one with its id *)

Definition pinned (m : ClientOutboxMessage) (st : FakeState) : Prop :=
  (ob_id m <= next_id st)%Z ∧ ∀ x, x ∈ outbox st → ob_id x = ob_id m → same_row x m.

Lemma pinned_row m st : fake_ok st → m ∈ outbox st → pinned m st.
Proof.
  intros Hok Hm. split; [by apply Hok|]. intros x Hx Hid. by rewrite (row_by_id st x m).
Qed.

Lemma maybe_pinned m o st st' : maybe o st st' → fake_ok st → pinned m st → pinned m st'.
Proof.
  intros Hmb Hok [Hid Hrow].
  destruct (maybe_rows _ _ _ Hmb) as [[Heq Hn]|[(k&r&b&ts&->)|[(id&Hd&->)|(id&n&at_&->)]]].
  - split; [by rewrite Hn|]. by rewrite Heq.
  - split; [simpl; lia|]. intros x [Hx| ->]%in_enqueued; [by apply Hrow|]. simpl. lia.
  - split; [done|]. intros x [Hx _]%in_completed. by apply Hrow.
  - split; [done|]. intros x Hx. apply in_deferred in Hx as [[Hx _]|(x0&Hx&_&->)]; [by apply Hrow| |done].
    intros Heq. by apply (Hrow x0).
Qed.

Lemma pinned_may_drop m t st o :
  drops_row o = Some (ob_id m) → pinned m st → settled m t → may_drop t st o.
Proof.
  intros Ho [_ Hrow] Hs x Hx Hin. rewrite Ho in Hx. injection Hx as Hid.
  apply (settled_row m); [|done]. symmetry. by apply Hrow.
Qed.

(** ** One attempt *)

(** Operations that neither read nor change the outbox, nor ask for an
    interruption. *)
Definition aside (o : backend_op) : Prop :=
  match o with
  | OpEnqueueClientMessage _ _ _ _ | OpCompleteClientMessage _ | OpDeferClientMessage _ _ _
  | OpExpediteClientMessages _ | OpDueClientMessages _ | OpInterrupted _ _ | OpShutdownRequested => False
  | _ => True
  end.

Lemma aside_served (o : backend_op) r st st' : aside o → served st (answered o r) st' → st' = st.
Proof. by destruct o. Qed.

Lemma aside_live t : Forall (λ e : entry, aside (entry_op e)) t → live t = t.
Proof.
  induction 1 as [|[o r] t Ho Ht IH]; [done|]. unfold live in *. rewrite filter_cons_True, IH; [done|]. by destruct o.
Qed.

Lemma attempt_aside m : only_ops aside (attempt_outbox_message local_aci m).
Proof.
  unfold attempt_outbox_message, attempt_group_message, with_group_lock.
  destruct (ob_kind m); [solve_only_ops|]. apply only_ops_bind; [done|]. intros _.
  apply only_ops_bind; [|intros; solve_only_ops]. apply only_ops_bind; [|intros; solve_only_ops].
  eapply only_ops_mono; [|apply resolve_ops]. by intros [].
Qed.

(** The group found is one the identifier stands for. *)
Lemma resolve_addressed identifier :
  ends (resolve_active_group local_aci identifier) (λ r t,
    match r with
    | Ok (Some kg) => addressed identifier kg.1 t
    | _ => True
    end).
Proof.
  unfold resolve_active_group, resolve_active_group_in_store, update.
  assert (Hany : ∀ A (p : proc A), ends p (λ _ _, True)).
  { intros A p. eapply ends_mono; [apply (ends_only_ops (λ _, True)), only_ops_any|done]. }
  apply ends_perform. intros s0. destruct (departed_contains _ _); [by apply ends_ret|].
  apply ends_perform. intros s. cbv zeta. set (scan := _ ← repo_groups; _).
  assert (Hscan : ends scan (λ r t, match r with Ok (Some kg) => group_identifier kg.1 = identifier | _ => True end)).
  { unfold scan. eapply ends_bind; [apply Hany|]. intros [groups|e] t _; simpl; [|by apply ends_ret].
    destruct (List.find _ groups) as [kg|] eqn:Ef; [|by apply ends_ret].
    apply ends_perform. intros s'. apply ends_ret. apply find_some in Ef as [_ [Ef _]%andb_true_iff].
    by apply bool_decide_eq_true in Ef. }
  assert (Hscan' : ∀ g, ends scan (λ r t', match r with Ok (Some kg) => addressed identifier kg.1 (g t') | _ => True end)).
  { intros g. eapply ends_mono; [exact Hscan|]. intros [[kg|]|e] t'; try done. by left. }
  destruct (group_key_for_identifier _ _) as [key|] eqn:Ek; [|apply Hscan'].
  eapply ends_bind; [apply Hany|]. intros [[g|]|e] t _; simpl; [| |by apply ends_ret].
  - apply ends_ret. right. exists s. split; [|done]. exists id. simpl. set_solver.
  - apply Hscan'.
Qed.

(** A successful attempt is one the network accepted. *)
Lemma attempt_delivers m :
  ends (attempt_outbox_message local_aci m) (λ res t, match res with Ok _ => delivered m t | Err _ => True end).
Proof.
  unfold attempt_outbox_message. destruct (ob_kind m) eqn:Ek.
  - destruct (parse_recipient _) as [rc|] eqn:Ep; [|by apply ends_ret]. simpl try_. apply ends_perform.
    intros [[]|e]; apply ends_ret; [|done]. unfold delivered. rewrite Ek. exists rc. split; [done|]. by left.
  - unfold attempt_group_message, with_group_lock. apply ends_perform. intros [].
    apply (ends_bind _ _ (λ res t, match res with Ok _ => delivered m t | _ => True end)).
    + eapply ends_bind; [apply resolve_addressed|]. intros [[kg|]|e] t Ha; [|by apply ends_ret..]. simpl try_.
      apply ends_perform. intros [[]|e]; apply ends_ret; [|done]. unfold delivered. rewrite Ek.
      exists kg.1, (gr_revision kg.2). split; [eapply addressed_mono; [|done]; set_solver|].
      apply elem_of_app. right. by left.
    + intros [sent|e] t Ht; apply ends_perform; intros []; apply ends_ret; [|done].
      eapply delivered_mono; [|done]. set_solver.
Qed.

(** What an attempt that ended means for its message. *)
Lemma attempt_settles m res pre seg post :
  exec (attempt_outbox_message local_aci m) seg (Done res) → Forall (λ e : entry, aside (entry_op e)) seg →
  match res with Ok _ => True | Err e => is_terminal m e = true end →
  settled m ((pre ++ seg) ++ post).
Proof.
  intros Hex Hseg Hres. destruct res as [sent|e].
  - left. eapply delivered_mono; [|exact (ends_sound _ _ _ _ (attempt_delivers m) Hex)]. set_solver.
  - right. exists m, e, (live pre), seg, (live post). split; [done|]. split; [|done].
    by rewrite !live_app, (aside_live seg), app_assoc.
Qed.

(** ** Programs that lose no message

    [keeping p Q t st]: from history [t] and store [st] on, nothing is lost
    wherever [p] stops, and [Q] holds where it ends. *)
Section Keeping.
Context (st0 : FakeState).

Fixpoint keeping {A} (p : proc A) (Q : A → list entry → FakeState → Prop) (t : list entry) (st : FakeState) : Prop :=
  match p with
  | Ret a => Q a t st
  | Panic _ => True
  | Step o k =>
      (∀ st', maybe o st st' → keeps st0 t st') ∧
      ∀ r st', served st (answered o r) st' →
        keeps st0 (t ++ [answered o r]) st' ∧ keeping (k r) Q (t ++ [answered o r]) st'
  end.

Lemma keeping_sound {A} (p : proc A) Q t st u x st' :
  keeping p Q t st → keeps st0 t st → stopped p u x → stops st u x st' → keeps st0 (t ++ u) st'.
Proof.
  intros Hp Hk Hst. revert t st Hp Hk. induction Hst as [p|o k|o k r u x Hst IH]; intros t st Hp Hk (st1&Hs&Hx).
  - simpl in *. subst. by rewrite app_nil_r.
  - simpl in *. subst. rewrite app_nil_r. by apply Hp.
  - destruct Hs as (st2&Hs2&Hs), Hp as [_ Hp]. destruct (Hp r st2 Hs2) as [Hk2 Hp2].
    rewrite cons_middle, app_assoc. eapply IH; [done|done|]. by exists st1.
Qed.

Lemma keeping_mono {A} (p : proc A) (Q Q' : A → list entry → FakeState → Prop) t st :
  (∀ a t st, Q a t st → Q' a t st) → keeping p Q t st → keeping p Q' t st.
Proof.
  intros HQ. revert t st. induction p as [a|o k IH|m]; intros t st; simpl; [apply HQ| |done].
  intros [Hc Hk]. split; [done|]. intros r st' Hs. destruct (Hk r st' Hs). split; [done|by apply IH].
Qed.

Lemma keeping_bind {A B} (p : proc A) (f : A → proc B) R Q t st :
  keeping p R t st → (∀ a t st, R a t st → keeping (f a) Q t st) → keeping (p ≫= f) Q t st.
Proof.
  intros Hp Hf. revert t st Hp. induction p as [a|o k IH|m]; intros t st Hp; simpl in *; [by apply Hf| |done].
  destruct Hp as [Hc Hk]. split; [done|]. intros r st' Hs. destruct (Hk r st' Hs). split; [done|by apply IH].
Qed.

(** What holds after a program that loses nothing. *)
Definition kept {A} (st : FakeState) : A → list entry → FakeState → Prop :=
  λ _ t' st', keeps st0 t' st' ∧ ∀ m, pinned m st → pinned m st'.

Definition durable {A} (p : proc A) : Prop := ∀ t st, keeps st0 t st → keeping p (kept st) t st.

(** The next program starts from what is kept. *)
Lemma kept_trans {A} (p : proc A) st st1 t : keeping p (kept st1) t st1 →
  (∀ m, pinned m st → pinned m st1) → keeping p (kept (A := A) st) t st1.
Proof. intros Hp Hpin. eapply keeping_mono; [|exact Hp]. intros a t' st' [? ?]. split; auto. Qed.

Lemma durable_ret {A} (a : A) : durable (Ret a).
Proof. by intros t st Hk. Qed.

Lemma durable_panic {A} m : durable (Panic m : proc A).
Proof. by intros t st Hk. Qed.

Lemma durable_bind {A B} (p : proc A) (f : A → proc B) : durable p → (∀ a, durable (f a)) → durable (p ≫= f).
Proof.
  intros Hp Hf t st Hk. eapply keeping_bind; [by apply Hp|]. intros a t' st' [Hk' Hpin].
  eapply kept_trans; [by apply Hf|done].
Qed.

(** An operation that removes no row. *)
Definition keeps_rows (o : backend_op) : Prop := drops_row (effective o) = None.

Lemma durable_step {A} (o : backend_op) (k : Resp o → proc A) :
  keeps_rows o → (∀ r, durable (k r)) → durable (Step (o : op) k).
Proof.
  intros Ho Hk t st Hst. split.
  - intros st' Hm. eapply keeps_maybe; [done|done|]. intros m Hd. exfalso. by destruct o.
  - intros r st' Hs. assert (Hst' : keeps st0 (t ++ [answered (o : op) r]) st').
    { eapply keeps_served; [done|done|]. intros m Hd. unfold keeps_rows in Ho. congruence. }
    split; [done|]. eapply kept_trans; [by apply Hk|]. intros m. eapply maybe_pinned; [by eapply served_maybe|apply Hst].
Qed.

Lemma durable_perform (o : backend_op) : keeps_rows o → durable (perform (o : op)).
Proof. intros Ho. apply durable_step; [done|]. intros r. apply durable_ret. Qed.

Lemma durable_only {A} (p : proc A) : only_ops keeps_rows p → durable p.
Proof.
  induction p as [a|o k IH|m]; simpl; [intros; apply durable_ret| |intros; apply durable_panic].
  intros [Ho Hk]. apply durable_step; [done|]. intros r. by apply IH.
Qed.


(** *** Interruption *)

Lemma keeping_live {A} (p : proc A) st1 t t' st :
  live t = live t' → keeping p (kept st1) t' st → keeping p (kept st1) t st.
Proof.
  intros Ht. revert t t' st Ht. induction p as [a|o k IH|m]; intros t t' st Ht; simpl; [| |done].
  - intros [Hk Hp]. split; [|done]. by eapply keeps_live.
  - intros [Hc Hk]. split; [intros st' Hm; eapply keeps_live; [symmetry; exact Ht|by apply Hc]|].
    intros r st' Hs. destruct (Hk r st' Hs) as [Hk1 Hk2].
    assert (Hl : live (t ++ [answered o r]) = live (t' ++ [answered o r])) by (by rewrite !live_app, Ht).
    split; [eapply keeps_live; [symmetry; exact Hl|done]|]. by eapply IH.
Qed.

Lemma live_interrupted by_ o (dropped : bool) t :
  live (t ++ [answered (Sig := backend_sig) (OpInterrupted by_ o) dropped]) = live t.
Proof. rewrite live_app. simpl. by rewrite app_nil_r. Qed.

Lemma keeping_until {A} by_ (p : proc A) st1 t st :
  keeping p (kept st1) t st → keeps st0 t st → (∀ m, pinned m st1 → pinned m st) →
  keeping (until by_ p) (kept st1) t st.
Proof.
  revert t st. induction p as [a|o k IH|m]; intros t st Hp Hk Hpin; [done| |done]. destruct Hp as [Hc Hp].
  assert (Hnext : ∀ r st', served st (answered o r) st' → ∀ m, pinned m st1 → pinned m st').
  { intros r st' Hs m Hm. eapply maybe_pinned; [by eapply served_maybe|apply Hk|by apply Hpin]. }
  assert (Hstep : keeping (Step o (λ r, until by_ (k r))) (kept st1) t st).
  { split; [done|]. intros r st' Hs. destruct (Hp r st' Hs) as [Hk1 Hk2]. split; [done|].
    apply IH; [done|done|by eapply Hnext]. }
  cbn [until]. destruct (suspends o); [|done]. split; [by intros st' [->| ->]|].
  intros [] st' Hs; simpl in Hs.
  - assert (Hk' : keeps st0 (t ++ [answered (Sig := backend_sig) (OpInterrupted by_ o) true]) st').
    { eapply keeps_live; [symmetry; apply live_interrupted|by apply Hc]. }
    split; [done|]. split; [done|]. intros m Hm. eapply maybe_pinned; [done|apply Hk|by apply Hpin].
  - subst st'. split; [eapply keeps_live; [symmetry; apply live_interrupted|done]|].
    eapply keeping_live; [apply live_interrupted|exact Hstep].
Qed.

Lemma durable_until {A} by_ (p : proc A) : durable p → durable (until by_ p).
Proof. intros Hp t st Hk. apply keeping_until; [by apply Hp|done|done]. Qed.

Lemma keeping_catch {A} (p : proc A) st1 t st :
  keeping p (kept st1) t st → keeps st0 t st → (∀ m, pinned m st1 → pinned m st) →
  keeping (catch_unwind p) (kept st1) t st.
Proof.
  revert t st. induction p as [a|o k IH|m]; intros t st Hp Hk Hpin; [done| |by split]. destruct Hp as [Hc Hp].
  split; [done|]. intros r st' Hs. destruct (Hp r st' Hs) as [Hk1 Hk2]. split; [done|]. apply IH; [done|done|].
  intros m Hm. eapply maybe_pinned; [by eapply served_maybe|apply Hk|by apply Hpin].
Qed.

Lemma durable_catch {A} (p : proc A) : durable p → durable (catch_unwind p).
Proof. intros Hp t st Hk. apply keeping_catch; [by apply Hp|done|done]. Qed.

(** *** Attempts and their end *)

Lemma keeping_aside {A} (p : proc A) t st :
  only_ops aside p → keeps st0 t st →
  keeping p (λ a t' st', st' = st ∧ keeps st0 t' st ∧
    ∃ seg, t' = t ++ seg ∧ Forall (λ e : entry, aside (entry_op e)) seg ∧ exec p seg (Done a)) t st.
Proof.
  revert t. induction p as [a|o k IH|m]; intros t Hp Hk; [| |done].
  - split; [done|]. split; [done|]. exists []. rewrite app_nil_r. split; [done|]. by split; [|constructor].
  - destruct Hp as [Ho Hp]. assert (Hd : ∀ t, may_drop t st (effective o)) by (intros t' m Hd; by destruct o).
    split; [intros st' Hm; eapply keeps_maybe; [done|done|]; intros m Hm'; by destruct o|].
    intros r st' Hs. assert (Hk' := keeps_served _ _ _ _ _ _ Hk Hs (Hd t)).
    apply aside_served in Hs as ->; [|done]. split; [done|].
    eapply keeping_mono; [|by apply IH]. intros a t' st' (->&Hk''&seg&->&Hseg&Hex). split; [done|]. split; [done|].
    exists (answered o r :: seg). rewrite <-app_assoc. split; [done|]. split; [by constructor|by constructor].
Qed.

Lemma mark_aside (res : result SentMessage OutboxAttemptError) :
  only_ops aside (match res with Ok sent => mark_sent_message_projected_or_report sent | Err _ => Ret tt end).
Proof. destruct res; [by apply mark_sent_only|done]. Qed.

(** The end of an attempt removes the row of a message that is settled. *)
Lemma finish_keeping m res t st :
  keeps st0 t st → pinned m st →
  (match res with Ok _ => True | Err e => is_terminal m e = true end → settled m t) →
  keeping (finish_outbox_attempt m res) (kept st) t st.
Proof.
  intros Hk Hpin Hset.
  assert (Hdone : ∀ (A : Type) (k : result unit SqliteStoreError → A), settled m t →
    keeping (r ← complete_outbox_message (ob_id m); Ret (k r)) (kept st) t st).
  { intros A k Hs. assert (Hd := pinned_may_drop m t st (OpCompleteClientMessage (ob_id m)) eq_refl Hpin Hs).
    split; [intros st' Hm; by eapply keeps_maybe|]. intros r st' Hsv. assert (Hk' := keeps_served _ _ _ _ _ _ Hk Hsv Hd).
    split; [done|]. split; [done|]. intros m'. eapply maybe_pinned; [by eapply (served_maybe _ _ r)|apply Hk]. }
  unfold finish_outbox_attempt. destruct res as [sent|e]; [by apply Hdone, Hset|].
  destruct (is_terminal m e) eqn:Et; [by apply Hdone, Hset|].
  apply durable_only; [|done]. unfold defer_outbox_message. solve_only_ops.
Qed.

Lemma settle_keeping {B} m (k : result SentMessage OutboxAttemptError → result unit string → proc B) t st :
  (∀ res r, durable (k res r)) → keeps st0 t st → pinned m st →
  keeping (res ← attempt_outbox_message local_aci m;
           _ ← (match res with
                | Ok sent => mark_sent_message_projected_or_report sent
                | Err _ => Ret tt
                end);
           finished ← finish_outbox_attempt m res;
           k res finished) (kept st) t st.
Proof.
  intros Hk Hst Hpin. eapply keeping_bind; [by apply keeping_aside; [apply attempt_aside|]|].
  intros res t1 st1 (->&Hk1&seg&->&Hseg&Hex).
  eapply keeping_bind; [by apply keeping_aside; [apply mark_aside|]|].
  intros [] t2 st2 (->&Hk2&seg2&->&_&_).
  eapply keeping_bind; [apply finish_keeping; [done|done|by apply attempt_settles]|].
  intros r t3 st3 [Hk3 Hpin3]. eapply kept_trans; [by apply Hk|done].
Qed.

(** ** The programs of the outbox *)

Lemma emit_durable e : durable (emit e).
Proof. by apply durable_perform. Qed.

Lemma report_durable m e : durable (report_attempt m e).
Proof. apply durable_only. unfold report_attempt, emit. solve_only_ops. Qed.

Lemma retry_one_keeping auth m t st :
  keeps st0 t st → pinned m st → keeping (retry_one local_aci auth m) (kept st) t st.
Proof.
  intros Hk Hpin. unfold retry_one. destruct (negb _); [by apply durable_ret|].
  apply settle_keeping; [|done|done]. intros res [[]|e]; [|apply emit_durable].
  destruct res as [|e]; [apply durable_ret|apply report_durable].
Qed.

Lemma retry_all_keeping auth l t st :
  keeps st0 t st → (∀ m, m ∈ l → pinned m st) →
  keeping (for_each l tt (λ _ m, retry_one local_aci auth m)) (kept st) t st.
Proof.
  revert t st. induction l as [|m l IH]; intros t st Hk Hl; [by apply durable_ret|].
  eapply keeping_bind; [apply retry_one_keeping; [done|apply Hl; by left]|].
  intros [] t' st' [Hk' Hpin]. eapply kept_trans; [|done]. apply IH; [done|]. intros m' Hm'. apply Hpin, Hl. by right.
Qed.

Lemma retry_outbox_durable auth : durable (retry_outbox local_aci auth).
Proof.
  unfold retry_outbox, due_outbox_messages. apply durable_step; [done|]. intros now t st Hk.
  split; [by intros st' [->| ->]|]. intros r st' Hs. assert (Hk' := keeps_served _ _ _ _ _ _ Hk Hs).
  assert (st' = st) as ->.
  { destruct r; simpl in Hs; [|done]. unfold fake_due_outbox_messages in Hs. by simplify_eq. }
  split; [apply Hk'; intros m ?; done|]. specialize (Hk' (λ m H, ltac:(done))).
  destruct r as [l|e].
  - apply retry_all_keeping; [done|]. intros m Hm. apply pinned_row; [apply Hk|].
    simpl in Hs. unfold fake_due_outbox_messages in Hs. simplify_eq/=.
    apply list_elem_of_In, filter_In in Hm as [Hm _]. by apply list_elem_of_In.
  - assert (Herr : ∀ text, durable (if sqlite_store_error_is_transient e then Ret tt else emit (error text false))).
    { intros text. destruct (sqlite_store_error_is_transient e); [apply durable_ret|apply emit_durable]. }
    exact (Herr _ _ _ Hk').
Qed.

Lemma enqueue_durable request : durable (enqueue_and_send local_aci request).
Proof.
  unfold enqueue_and_send, enqueue_outbox_message. apply durable_step; [done|]. intros ts t st Hk.
  split; [intros st' Hm; by eapply keeps_maybe|]. intros r st' Hs.
  assert (Hk' : keeps st0 (t ++ [answered (Sig := backend_sig) _ r]) st') by (by eapply keeps_served).
  split; [done|]. assert (Hpin : ∀ m, pinned m st → pinned m st').
  { intros m. eapply maybe_pinned; [by eapply (served_maybe _ _ r)|apply Hk]. }
  eapply kept_trans; [|done]. destruct r as [id|e]; [|by apply durable_ret]. simpl try_. cbv zeta.
  apply settle_keeping; [|done|].
  - intros [] r; apply durable_ret.
  - apply pinned_row; [apply Hk'|]. simpl in Hs. injection Hs as -> ->. apply in_enqueued. by right.
Qed.

End Keeping.

(** ** The worker *)

#[export] Instance rows_show : ShowClass keeps_rows.
Proof. by intros []. Qed.

Lemma worker_keeps_rows o : worker_op o → keeps_rows o.
Proof. by destruct o. Qed.

#[export] Instance durable_compositional st0 : Compositional local_aci (@durable st0).
Proof.
  split; intros; [apply durable_ret|apply durable_panic|by apply durable_bind|by apply durable_until|by apply durable_catch
    |by apply durable_perform, worker_keeps_rows|apply retry_outbox_durable|apply enqueue_durable|..];
    apply durable_only, total_only_ops;
    [apply mark_sent_phase|apply project_content_phase|apply process_acknowledgments_phase].
Qed.

(** ** Sessions *)

(** Any number of runs of the worker, one after the other on the same store,
    each stopped anywhere, with the history of all of them. *)
Inductive sessions `{QrLibrary} : FakeState → list entry → FakeState → Prop :=
| sessions_none st : sessions st [] st
| sessions_more st t st1 config turns inner u x st2 :
    sessions st t st1 → stopped (run_worker local_aci config turns inner) u x → stops st1 u x st2 →
    sessions st (t ++ u) st2.

Lemma sessions_keep `{QrLibrary} st0 t st : fake_ok st0 → sessions st0 t st → keeps st0 t st.
Proof.
  intros Hok. induction 1 as [st|st t st1 config turns inner u x st2 Hs IH Hu Hx].
  - split; [done|]. intros m [Hm|(id&kind&recipient&body&ts&_&Hin)]; [left; by exists m|set_solver].
  - eapply keeping_sound; [apply (comp_worker (Φ := @durable st)); by apply IH|by apply IH|done|done].
Qed.

(** C4. No queued message is lost: over any number of sessions of the worker on
    one store, whatever the network answers, whatever operations of the store
    fail, and wherever each session stops, a message that was in the outbox or
    that the store confirmed is still in the outbox, or the network accepted
    exactly this message, or an attempt to send it failed for good or as the
    last one allowed. *)
Theorem outbox_durable `{QrLibrary} st0 t st m :
  fake_ok st0 → sessions st0 t st → introduced st0 t m → stored m st ∨ delivered m t ∨ given_up m t.
Proof. intros Hok Hs. by apply (sessions_keep st0 t st Hok Hs). Qed.

(** ** Runs on the in-memory store *)

#[export] Instance ClientOutboxMessage_eq_dec : EqDecision ClientOutboxMessage.
Proof. solve_decision. Defined.

(** The store did not fail. *)
Definition faultless (e : entry) : Prop :=
  match e with
  | existT o r =>
      match o return backend_resp o → Prop with
      | OpEnqueueClientMessage _ _ _ _ => λ r, is_ok r = true
      | OpCompleteClientMessage _ | OpDeferClientMessage _ _ _ | OpExpediteClientMessages _ => λ r, is_ok r = true
      | OpDueClientMessages _ => λ r, is_ok r = true
      | _ => λ _, True
      end r
  end.

(** The store after an operation, if it was answered as the in-memory store
    answers. *)
Definition serve_one (st : FakeState) (e : entry) : option FakeState :=
  match e with
  | existT o r =>
      match o return backend_resp o → option FakeState with
      | OpEnqueueClientMessage kind recipient body timestamp => λ r,
          match r with
          | Ok id => if decide (id = (next_id st + 1)%Z) then Some (store_effect o st) else None
          | Err _ => None
          end
      | OpCompleteClientMessage _ | OpDeferClientMessage _ _ _ | OpExpediteClientMessages _ => λ r,
          if is_ok r then Some (store_effect o st) else None
      | OpDueClientMessages now_ms => λ r,
          match r with
          | Ok l => if decide (l = List.filter (is_due now_ms st) (outbox st)) then Some st else None
          | Err _ => None
          end
      | OpInterrupted _ _ => λ dropped, if dropped then None else Some st
      | _ => λ _, Some st
      end r
  end.

Fixpoint serve (st : FakeState) (t : list entry) : option FakeState :=
  match t with
  | [] => Some st
  | e :: t => serve_one st e ≫= λ st, serve st t
  end.

Lemma serve_one_served st e st' : serve_one st e = Some st' → served st e st' ∧ faultless e.
Proof.
  destruct e as [o r]. destruct o; simpl; intros H; simplify_eq; try done;
    destruct r; simplify_eq/=; try case_decide; simplify_eq/=; done.
Qed.

Lemma serve_serves st t st' : serve st t = Some st' → serves st t st' ∧ Forall faultless t.
Proof.
  revert st. induction t as [|e t IH]; intros st; simpl; [intros; simplify_eq; by repeat constructor|].
  destruct (serve_one st e) as [st1|] eqn:E; simpl; [|done]. intros [Hs Hf]%IH.
  apply serve_one_served in E as [? ?]. split; [by exists st1|by constructor].
Qed.

(** The in-memory store, over the answers of a world to everything else. *)
Definition store_world (st0 : FakeState) (base : list entry → ∀ o, backend_resp o) (h : list entry) (o : backend_op)
  : backend_resp o :=
  let st := default st0 (serve st0 h) in
  match o return backend_resp o with
  | OpEnqueueClientMessage kind recipient body timestamp => (fake_enqueue_outbox_message kind recipient body timestamp st).1
  | OpDueClientMessages now_ms => (fake_due_outbox_messages now_ms st).1
  | o => base h o
  end.

Lemma exec_stopped_at {A} n (p : proc A) t out : exec p t out → stopped p (take n t) None.
Proof. intros Hex. revert n. induction Hex; intros []; by constructor. Qed.

End Durability.

(** *** A message that outlives a crash

    The worker queues a message and the process stops before it is sent. *)

#[local] Instance no_codes : QrLibrary := {| qr_new := λ _, Err "too long"; png_grayscale := λ _ _ _, Err "no memory" |}.

Definition one_message (h : list (@entry (@backend_sig string_ids))) (o : @backend_op string_ids)
  : @backend_resp string_ids o :=
  match o return @backend_resp string_ids o with
  | OpSelect _ =>
      match length (filter (λ e, match projT1 e with OpSelect _ => true | _ => false end = true) h) with
      | 0 => WakeStarted (Some (Ok tt))
      | 1 => WakeCommand (Some (SendMessage 7 "friend" "hello"))
      | _ => WakeShutdown
      end
  | o => calm_world (Ids := string_ids) h o
  end.

Definition crash_worker := run_worker (Ids := string_ids) (Dig := plain_digests) (Enums := proto_numbers)
  "me" (mkConfig "/store" "laptop" (mkPassphrase "secret")) 3 9.

Definition crash_run := run (Sig := @backend_sig string_ids) (store_world (Ids := string_ids) fake_new one_message) crash_worker [].

(** The history up to the write of the row, and the store then. *)
Definition crash_history := take 73 crash_run.1.
Definition crash_store : FakeState (Ids := string_ids) := default fake_new (serve fake_new crash_history).
Definition crash_row : ClientOutboxMessage := mkOutbox 1 Direct "friend" "hello" 1000 0.

(** The next session starts with the row in the store. *)
Definition no_message (h : list (@entry (@backend_sig string_ids))) (o : @backend_op string_ids)
  : @backend_resp string_ids o :=
  match o return @backend_resp string_ids o with
  | OpSelect _ =>
      match length (filter (λ e, match projT1 e with OpSelect _ => true | _ => false end = true) h) with
      | 0 => WakeStarted (Some (Ok tt))
      | _ => WakeShutdown
      end
  | o => calm_world (Ids := string_ids) h o
  end.

Definition next_run := run (Sig := @backend_sig string_ids) (store_world (Ids := string_ids) crash_store no_message) crash_worker [].
Definition next_store : FakeState (Ids := string_ids) := default fake_new (serve crash_store next_run.1).

Lemma crash_exec : exec (Sig := @backend_sig string_ids) crash_worker crash_run.1 crash_run.2.
Proof. exact (run_exec (Sig := @backend_sig string_ids) (store_world (Ids := string_ids) fake_new one_message) crash_worker []). Qed.

Lemma next_exec : exec (Sig := @backend_sig string_ids) crash_worker next_run.1 next_run.2.
Proof. exact (run_exec (Sig := @backend_sig string_ids) (store_world (Ids := string_ids) crash_store no_message) crash_worker []). Qed.

Lemma crash_served : serve (Ids := string_ids) fake_new crash_history = Some crash_store.
Proof. vm_compute. reflexivity. Qed.

Lemma next_served : serve (Ids := string_ids) crash_store next_run.1 = Some next_store.
Proof. vm_compute. reflexivity. Qed.

Lemma crash_sessions :
  sessions (Ids := string_ids) (Dig := plain_digests) (Enums := proto_numbers) "me" fake_new
    (([] ++ crash_history) ++ next_run.1) next_store.
Proof.
  apply (sessions_more _ _ _ crash_store (mkConfig "/store" "laptop" (mkPassphrase "secret")) 3 9 _ None).
  - apply (sessions_more _ _ _ fake_new (mkConfig "/store" "laptop" (mkPassphrase "secret")) 3 9 _ None).
    + apply sessions_none.
    + exact (exec_stopped_at (Ids := string_ids) 73 crash_worker crash_run.1 crash_run.2 crash_exec).
    + exists crash_store. split; [apply (serve_serves (Ids := string_ids)), crash_served|reflexivity].
  - exact (exec_stopped (Ids := string_ids) crash_worker next_run.1 next_run.2 next_exec).
  - exists next_store. split; [apply (serve_serves (Ids := string_ids)), next_served|reflexivity].
Qed.

Lemma outbox_durable_witness :
  outbox crash_store = [crash_row] ∧ outbox next_store = [] ∧
  (stored crash_row next_store ∨ delivered (Ids := string_ids) (Dig := plain_digests) crash_row (([] ++ crash_history) ++ next_run.1) ∨
   given_up (Ids := string_ids) (Dig := plain_digests) "me" crash_row (([] ++ crash_history) ++ next_run.1)).
Proof.
  split; [vm_compute; reflexivity|]. split; [vm_compute; reflexivity|].
  apply (outbox_durable (Ids := string_ids) (Dig := plain_digests) (Enums := proto_numbers) "me" fake_new _ _ crash_row
    fake_new_ok crash_sessions).
  right. exists 1%Z, Direct, "friend", "hello", 1000%N. split; [reflexivity|].
  apply (list_elem_of_lookup_2 _ 72). vm_compute. reflexivity.
Defined.
