(* ===== verification/Draining.v ===== *)
(** * Draining: retries empty the outbox

    Five passes of [retry_outbox] over the outbox that come late enough, on a
    store that does not fail, leave no row, and settle every message that was
    queued: each pass removes a row or raises its number of attempts, which
    stays below the limit. *)
From S2P Require Import Prelude Event Attachment Command Session GroupState StoreErrors SignalTypes.
From S2P Require Import Acknowledgment Effects Backend Repository Groups ProjectionState Outbox Storage Commands.
From S2P Require Import Durability.

Section Draining.
Context `{Ids : SignalIds} `{Dig : Digests} `{Enums : ProtoEnums}.
Context (local_aci : Aci).

Abbreviation keeps := (keeps local_aci).
Abbreviation settled := (settled local_aci).

(** ** Retries empty the outbox *)

(** [Q] holds of the store where [p] ends, if no operation of the store fails. *)
Fixpoint ending {A} (p : proc A) (Q : A → FakeState → Prop) (st : FakeState) : Prop :=
  match p with
  | Ret a => Q a st
  | Panic _ => True
  | Step o k => ∀ r st', faultless (answered o r) → served st (answered o r) st' → ending (k r) Q st'
  end.

Lemma ending_sound {A} (p : proc A) Q st t a st' :
  ending p Q st → exec p t (Done a) → serves st t st' → Forall faultless t → Q a st'.
Proof.
  intros Hp Hex. remember (Done a) as out eqn:E. revert st Hp E.
  induction Hex as [b|m|o k Hs|o k r t out Hex IH]; intros st Hp E Hsv Hf; simplify_eq/=; [done|].
  destruct Hsv as (st1&Hs&Hsv). apply Forall_cons in Hf as [Hr Hf]. eapply IH; [|done..]. by apply (Hp r).
Qed.

Lemma ending_mono {A} (p : proc A) (Q Q' : A → FakeState → Prop) st :
  (∀ a st, Q a st → Q' a st) → ending p Q st → ending p Q' st.
Proof. intros HQ. revert st. induction p as [a|o k IH|m]; intros st; simpl; [apply HQ| |done]. eauto. Qed.

Lemma ending_bind {A B} (p : proc A) (f : A → proc B) R Q st :
  ending p R st → (∀ a st, R a st → ending (f a) Q st) → ending (p ≫= f) Q st.
Proof. intros Hp Hf. revert st Hp. induction p as [a|o k IH|m]; intros st Hp; simpl in *; eauto. Qed.

Lemma ending_aside {A} (p : proc A) st : only_ops aside p → ending p (λ _ st', st' = st) st.
Proof.
  induction p as [a|o k IH|m]; simpl; [done| |done]. intros [Ho Hk] r st' _ Hs.
  apply aside_served in Hs as ->; [|done]. by apply IH.
Qed.

(** The row of an attempted message is removed, or put off with one attempt
    more, below the limit. *)
Definition attempted (m : ClientOutboxMessage) (st st' : FakeState) : Prop :=
  st' = (fake_complete_outbox_message (ob_id m) st).2 ∨
  ∃ at_, (ob_attempts m + 1 < MAX_OUTBOX_ATTEMPTS)%N ∧
    st' = (fake_defer_outbox_message (ob_id m) (ob_attempts m + 1) at_ st).2.

Lemma not_terminal m e :
  is_terminal m e = false →
  saturating_add u32_max (ob_attempts m) 1 = (ob_attempts m + 1)%N ∧ (ob_attempts m + 1 < MAX_OUTBOX_ATTEMPTS)%N.
Proof.
  unfold is_terminal, saturating_add, MAX_OUTBOX_ATTEMPTS, u32_max. intros H. apply orb_false_iff in H as [_ H].
  apply N.leb_gt in H. lia.
Qed.

Lemma finish_ending m res st : ending (finish_outbox_attempt m res) (λ _ st', attempted m st st') st.
Proof.
  assert (Hdone : ∀ (A : Type) (k : result unit SqliteStoreError → A),
    ending (r ← complete_outbox_message (ob_id m); Ret (k r)) (λ _ st', attempted m st st') st).
  { intros A k [[]|e] st' Hf Hs; [|done]. simpl in Hs. subst st'. by left. }
  unfold finish_outbox_attempt. destruct res as [sent|e]; [apply Hdone|].
  destruct (is_terminal m e) eqn:Et; [apply Hdone|]. destruct (not_terminal m e Et) as [Hn Hlt].
  intros now st1 _ Hs1. simpl in Hs1. subst st1. intros [[]|e'] st' Hf Hs; [|done]. simpl in Hs. subst st'.
  right. eexists. split; [done|]. by rewrite Hn.
Qed.

Lemma report_aside m e : only_ops aside (report_attempt m e).
Proof. unfold report_attempt, emit. solve_only_ops. Qed.

Lemma retry_one_ending m st : ending (retry_one local_aci true m) (λ _ st', attempted m st st') st.
Proof.
  unfold retry_one. cbn [outbox_message_is_attemptable orb negb].
  eapply ending_bind; [apply ending_aside, attempt_aside|]. intros res st1 ->.
  eapply ending_bind; [apply ending_aside, mark_aside|]. intros [] st1 ->.
  eapply ending_bind; [apply finish_ending|]. intros r st1 Ha.
  eapply ending_mono with (Q := λ _ st', st' = st1); [by intros ? ? ->|]. apply ending_aside.
  destruct r as [[]|e]; [|done]. destruct res as [|e]; [done|apply report_aside].
Qed.

(** A row that was tried once more. *)
Definition advanced (st : FakeState) (x : ClientOutboxMessage) : Prop :=
  ∃ m, m ∈ outbox st ∧ same_row x m ∧ ob_attempts x = (ob_attempts m + 1)%N ∧ (ob_attempts x < MAX_OUTBOX_ATTEMPTS)%N.

(** In a pass over [rest], every row is still to come or was tried once more. *)
Definition passing (st : FakeState) (rest : list ClientOutboxMessage) (st' : FakeState) : Prop :=
  fake_ok st' ∧ NoDup (map ob_id rest) ∧ rest ⊆ outbox st ∧
  ∀ x, x ∈ outbox st' → x ∈ rest ∨ (advanced st x ∧ ob_id x ∉ map ob_id rest).

Lemma passing_step st m rest st1 st2 : passing st (m :: rest) st1 → attempted m st1 st2 → passing st rest st2.
Proof.
  intros (Hok&Hnd&Hsub&Hrows) Ha. apply NoDup_cons in Hnd as [Hm Hnd].
  assert (Hother : ∀ x, x ∈ outbox st1 → ob_id x ≠ ob_id m → x ∈ rest ∨ (advanced st x ∧ ob_id x ∉ map ob_id rest)).
  { intros x Hx Hne. destruct (Hrows x Hx) as [[->|Hr]%elem_of_cons|[Had Hn]]; [done|by left|right]. split; [done|].
    simpl in Hn. set_solver. }
  assert (Hsub' : rest ⊆ outbox st) by (intros y Hy; apply Hsub; by right).
  destruct Ha as [->|(at_&Hlt&->)].
  - split; [by apply complete_ok|]. split; [done|]. split; [done|]. intros x [Hx Hne]%in_completed. by apply Hother.
  - split; [by apply defer_ok|]. split; [done|]. split; [done|]. intros x Hx.
    apply in_deferred in Hx as [[Hx Hne]|(x0&Hx&Hid&->)]; [by apply Hother| |done]. right.
    destruct (Hrows x0 Hx) as [[->|Hr]%elem_of_cons|[_ Hn]].
    + split; [|done]. exists m. split; [apply Hsub; by left|]. by split.
    + exfalso. apply Hm. rewrite <-Hid. by apply list_elem_of_fmap_2.
    + exfalso. apply Hn. simpl. rewrite Hid. by left.
Qed.

Lemma retry_all_ending st l st1 :
  passing st l st1 → ending (for_each l tt (λ _ m, retry_one local_aci true m)) (λ _ st', passing st [] st') st1.
Proof.
  revert st1. induction l as [|m l IH]; intros st1 Hp; [done|].
  eapply ending_bind; [apply retry_one_ending|]. intros [] st2 Ha. apply IH. by eapply passing_step.
Qed.

(** One pass of [retry_outbox] with the groups known, late enough for every
    row, on a store that does not fail. *)
Definition full_pass (st : FakeState) (t : list entry) (st' : FakeState) : Prop :=
  exec (retry_outbox local_aci true) t (Done tt) ∧ serves st t st' ∧ Forall faultless t ∧
  ∀ now, head t = Some (answered (Sig := backend_sig) OpWallClock now) → ∀ m, m ∈ outbox st → is_due now st m = true.

Lemma all_due now st : (∀ m, m ∈ outbox st → is_due now st m = true) → List.filter (is_due now st) (outbox st) = outbox st.
Proof.
  generalize (is_due now st). intros f. induction (outbox st) as [|m l IH]; intros Hf; simpl; [done|].
  rewrite (Hf m) by (by left). f_equal. apply IH. intros x Hx. apply Hf. by right.
Qed.

Lemma full_pass_advances st t st' : fake_ok st → full_pass st t st' → passing st [] st'.
Proof.
  intros Hok (Hex&Hs&Hf&Hdue). apply exec_done_inv in Hex as (now&t1&->&Hex).
  destruct Hs as (st1&Hs1&Hs). simpl in Hs1. subst st1. apply Forall_cons in Hf as [_ Hf].
  specialize (Hdue now eq_refl). eapply (ending_sound _ (λ _ st', passing st [] st') st); [|done..].
  intros [l|e] st1 Hr Hs1; [|done]. simpl in Hs1. unfold fake_due_outbox_messages in Hs1.
  rewrite (all_due now st Hdue) in Hs1. injection Hs1 as -> ->. apply retry_all_ending.
  split; [done|]. split; [apply Hok|]. split; [done|]. by left.
Qed.

(** [n] such passes, with the history of all of them. *)
Inductive passes : nat → FakeState → list entry → FakeState → Prop :=
| passes_none st : passes 0 st [] st
| passes_more n st t st1 u st2 : passes n st t st1 → full_pass st1 u st2 → passes (S n) st (t ++ u) st2.

Lemma passes_keep n st t st' :
  fake_ok st → passes n st t st' →
  keeps st t st' ∧ ∀ x, x ∈ outbox st' → (N.of_nat n <= ob_attempts x)%N ∧ (0 < n → (ob_attempts x < MAX_OUTBOX_ATTEMPTS)%N).
Proof.
  intros Hok. induction 1 as [st|n st t st1 u st2 Hp IH Hu].
  - split; [|intros x _; simpl; lia]. split; [done|].
    intros m [Hm|(id&kind&recipient&body&ts&_&Hin)]; [left; by exists m|set_solver].
  - destruct (IH Hok) as [Hk Hrows]. split.
    + destruct Hu as (Hex&Hs&_). eapply keeping_sound; [by apply retry_outbox_durable|done|by eapply exec_stopped|].
      by exists st2.
    + destruct (full_pass_advances _ _ _ (keeps_ok _ _ _ _ Hk) Hu) as (_&_&_&Had). intros x Hx.
      destruct (Had x Hx) as [Hin|[(m&Hm&_&Heq&Hlt) _]]; [by apply elem_of_nil in Hin|].
      destruct (Hrows m Hm) as [Hge _]. split; [lia|]. by intros _.
Qed.

(** C5. Every queued message is settled: with the groups known, a store that
    does not fail and the clock past every row's time, five passes over the
    outbox leave no row, and each message that was queued was accepted by the
    network or given up; whatever the network answers. *)
Theorem outbox_drains n st t st' :
  fake_ok st → passes n st t st' → 5 ≤ n → outbox st' = [] ∧ ∀ m, m ∈ outbox st → settled m t.
Proof.
  intros Hok Hp Hn. destruct (passes_keep n st t st' Hok Hp) as [[_ Hall] Hrows].
  assert (Hempty : outbox st' = []).
  { destruct (outbox st') as [|x l]; [done|]. destruct (Hrows x) as [Hge Hlt]; [by left|].
    unfold MAX_OUTBOX_ATTEMPTS in Hlt. lia. }
  split; [done|]. intros m Hm. destruct (Hall m) as [(x&Hx&_)|]; [by left| |done].
  rewrite Hempty in Hx. by apply elem_of_nil in Hx.
Qed.

(** ** Runs *)

(** The time at which a pass begins. *)
Definition pass_clock (t : list entry) : option N :=
  match t with
  | existT o r :: _ => match o return backend_resp o → option N with OpWallClock => Some | _ => λ _, None end r
  | [] => None
  end.

Lemma run_pass world st st' now :
  let r := run world (retry_outbox local_aci true) [] in
  r.2 = Done tt → serve st r.1 = Some st' → pass_clock r.1 = Some now →
  forallb (is_due now st) (outbox st) = true → full_pass st r.1 st'.
Proof.
  intros r Hr Hs Hc Hdue. destruct (serve_serves _ _ _ Hs) as [Hsv Hf]. split; [|split; [done|split; [done|]]].
  - rewrite <-Hr. apply run_exec.
  - intros now' Hh m Hm. destruct r.1 as [|e t]; [done|]. simpl in Hh. injection Hh as ->. simpl in Hc. simplify_eq.
    rewrite forallb_forall in Hdue. apply Hdue. by apply list_elem_of_In.
Qed.

End Draining.

(** *** A message the network never takes *)

(** The network refuses everything; pass [n] comes in hour [n]. *)
Definition refusing (n : N) (h : list (@entry (@backend_sig string_ids))) (o : @backend_op string_ids)
  : @backend_resp string_ids o :=
  match o return @backend_resp string_ids o with
  | OpWallClock => (3600000 * n)%N
  | OpSendMessage _ _ _ => Err "timeout"
  | o => calm_world (Ids := string_ids) h o
  end.

Definition refused_pass (n : N) (st : FakeState (Ids := string_ids)) :=
  run (Sig := @backend_sig string_ids) (store_world (Ids := string_ids) st (refusing n))
    (retry_outbox (Ids := string_ids) (Dig := plain_digests) "me" true) [].

Definition refused_store (n : N) (st : FakeState (Ids := string_ids)) : FakeState :=
  default st (serve st (refused_pass n st).1).

Definition queue0 := crash_store.
Definition queue1 := refused_store 1 queue0.
Definition queue2 := refused_store 2 queue1.
Definition queue3 := refused_store 3 queue2.
Definition queue4 := refused_store 4 queue3.
Definition queue5 := refused_store 5 queue4.

Definition refused_history :=
  (((([] ++ (refused_pass 1 queue0).1) ++ (refused_pass 2 queue1).1) ++ (refused_pass 3 queue2).1)
     ++ (refused_pass 4 queue3).1) ++ (refused_pass 5 queue4).1.

Lemma refused_full n st st' :
  (refused_pass n st).2 = Done tt → serve (Ids := string_ids) st (refused_pass n st).1 = Some st' →
  pass_clock (Ids := string_ids) (refused_pass n st).1 = Some (3600000 * n)%N →
  forallb (is_due (3600000 * n) st) (outbox st) = true →
  full_pass (Ids := string_ids) (Dig := plain_digests) "me" st (refused_pass n st).1 st'.
Proof. apply (run_pass (Ids := string_ids) (Dig := plain_digests) "me" (store_world (Ids := string_ids) st (refusing n))). Qed.

Lemma refused_passes :
  passes (Ids := string_ids) (Dig := plain_digests) "me" 5 queue0 refused_history queue5.
Proof.
  apply (passes_more _ 4 _ _ queue4); [|apply (refused_full 5 queue4 queue5); vm_compute; reflexivity].
  apply (passes_more _ 3 _ _ queue3); [|apply (refused_full 4 queue3 queue4); vm_compute; reflexivity].
  apply (passes_more _ 2 _ _ queue2); [|apply (refused_full 3 queue2 queue3); vm_compute; reflexivity].
  apply (passes_more _ 1 _ _ queue1); [|apply (refused_full 2 queue1 queue2); vm_compute; reflexivity].
  apply (passes_more _ 0 _ _ queue0); [|apply (refused_full 1 queue0 queue1); vm_compute; reflexivity].
  apply passes_none.
Qed.

Lemma outbox_drains_witness :
  map ob_attempts (outbox queue4) = [4%N] ∧ outbox queue5 = [] ∧
  ∀ m, m ∈ outbox queue0 → settled (Ids := string_ids) (Dig := plain_digests) "me" m refused_history.
Proof.
  split; [vm_compute; reflexivity|].
  apply (outbox_drains (Ids := string_ids) (Dig := plain_digests) "me" 5 queue0 refused_history queue5).
  - apply (maybe_ok (Ids := string_ids) (OpEnqueueClientMessage Direct "friend" "hello" 1000) fake_new);
      [right; vm_compute; reflexivity|apply fake_new_ok].
  - exact refused_passes.
  - lia.
Defined.
