(* ===== verification/Lifecycle.v ===== *)
(** * Lifecycle: the worker implements the account

    Theorems of [Worker]: seen from outside it is the machine of [Account], so
    that READY and RECOVERING alternate and agree with the ready flag and
    commands are handled in order; and it does not panic. *)
From S2P Require Import Prelude Event Attachment Command Session GroupState StoreErrors SignalTypes Media.
From S2P Require Import Acknowledgment Effects Backend Repository Groups ProjectionState Outbox Commands.
From S2P Require Import Qr Content Delivery Projecting Snapshots Tasks Worker Account Phases.

Section Lifecycle.
Context `{Ids : SignalIds} `{Dig : Digests} `{Enums : ProtoEnums}.

Abbreviation calm := (total_ops phase_op).

(** ** What is seen of a history *)

Definition labels_in (e : entry) : list Label :=
  match e with
  | existT o r =>
      match o return backend_resp o → list Label with
      | OpEmit ev => λ _, if is_session_event ev then [Announce (ev_kind ev)] else []
      | OpSelect _ => λ w, match w with WakeCommand (Some command) => [Receive command] | _ => [] end
      | OpTryRecv => λ w, match w with TryReceived command => [Receive command] | _ => [] end
      | OpTake command => λ _, [Handle command]
      | OpRefuse command => λ _, [Refuse command]
      | _ => λ _, []
      end r
  end.

Definition labels (h : list entry) : list Label := h ≫= labels_in.

(** The account that a state of the worker implements. *)
Definition account_of (s : Shared) : Account := mkAccount (phase (sh_session s)) (sh_deferred s).

(** The labels so far, and the state as the worker's updates made it. *)
Record View := mkView {
  v_labels : list Label;
  v_state : Shared;
}.

Definition view (s0 : Shared) (h : list entry) : View := mkView (labels h) (apply_updates s0 h).

Definition view_step (v : View) (e : entry) : View :=
  mkView (v_labels v ++ labels_in e) (match projT1 e with OpUpdate f => f (v_state v) | _ => v_state v end).

Lemma view_snoc s0 h e : view s0 (h ++ [e]) = view_step (view s0 h) e.
Proof. unfold view, view_step, labels, apply_updates. by rewrite bind_app, foldl_app, bind_singleton. Qed.

(** The simulation relation, with commands [l] on their way out of the queue. *)
Record simulated (l : list Command) (v : View) : Prop := {
  simulated_account :
    account_trace (v_labels v) (mkAccount (phase (sh_session (v_state v))) (l ++ sh_deferred (v_state v)));
  simulated_ready : sh_ready (v_state v) = is_ready (sh_session (v_state v));
}.

Abbreviation view_ok := (simulated []).

(** The same for the session. *)
Definition same_view (v v' : View) : Prop :=
  v_labels v' = v_labels v ∧ sh_session (v_state v') = sh_session (v_state v) ∧
  sh_ready (v_state v') = sh_ready (v_state v) ∧ sh_deferred (v_state v') = sh_deferred (v_state v).

Lemma same_view_trans v1 v2 v3 : same_view v1 v2 → same_view v2 v3 → same_view v1 v3.
Proof. unfold same_view. naive_solver congruence. Qed.

Lemma same_view_ok l v v' : same_view v v' → simulated l v → simulated l v'.
Proof. intros (Hl&Hs&Hf&Hd) [? ?]. split; rewrite ?Hl, ?Hs, ?Hf, ?Hd; done. Qed.

Lemma phase_step v o r : phase_op o → same_view v (view_step v (answered (Sig := backend_sig) o r)).
Proof.
  intros Ho. unfold same_view, view_step, answered. simpl.
  destruct o; simpl in *; rewrite ?app_nil_r; try done.
  by rewrite Ho, app_nil_r.
Qed.

(** Steps of the machine that change the labels. *)
Lemma simulated_step l l' v v' lab :
  simulated l v → v_labels v' = v_labels v ++ [lab] →
  account_step (mkAccount (phase (sh_session (v_state v))) (l ++ sh_deferred (v_state v))) lab
    (mkAccount (phase (sh_session (v_state v'))) (l' ++ sh_deferred (v_state v'))) →
  sh_ready (v_state v') = is_ready (sh_session (v_state v')) →
  simulated l' v'.
Proof. intros [Ht _] Hl Hstep Hr. split; [|done]. rewrite Hl. eauto with account. Qed.

(** ** The invariant of the worker *)

Section From.
Context (s0 : Shared).

(** The session, the ready flag and the deferred commands belong to the worker
    (C only reads the flag), and [select!] completes an enabled branch. *)
Definition worker_answers : assumption := λ h o,
  match o return backend_resp o → Prop with
  | OpUpdate _ => λ r,
      sh_session r = sh_session (apply_updates s0 h) ∧ sh_deferred r = sh_deferred (apply_updates s0 h)
  | OpSelect enabled => λ w, enabled w = true
  | _ => λ _, True
  end.

(** Where the worker waits the invariant holds, and it never panics. *)
Definition worker_spec : spec :=
  mkSpecification worker_answers (λ _ _, True) (λ _ h, view_ok (view s0 h)) (λ _ _, False).

Definition now (h : list entry) : Shared := v_state (view s0 h).

Lemma wp_update {A} f (k : Shared → proc A) Q h :
  (∀ r, sh_session r = sh_session (now h) → sh_deferred r = sh_deferred (now h) →
     wp worker_spec (k r) Q (h ++ [answered (Sig := backend_sig) (OpUpdate f) r])) →
  wp worker_spec (update f ≫= k) Q h.
Proof. intros Hk. split; [by intros ?|]. intros r [Hs Hd]. split; [done|]. by apply Hk. Qed.

Lemma wp_atomic {A} (o : backend_op) (k : Resp o → proc A) Q h :
  suspends o = false →
  (∀ r, wp worker_spec (k r) Q (h ++ [answered (Sig := backend_sig) o r])) →
  wp worker_spec (perform (o : op) ≫= k) Q h.
Proof. intros Hs Hk. split; [rewrite Hs; by intros ?|]. intros r _. split; [done|]. apply Hk. Qed.

(** A phase keeps the view. *)
Lemma wp_calm {A} (p : proc A) h :
  calm p → view_ok (view s0 h) →
  wp worker_spec p (λ _ h', same_view (view s0 h) (view s0 h')) h.
Proof.
  intros Hp Hh.
  assert (Hgen : ∀ h0, same_view (view s0 h) (view s0 h0) →
    wp worker_spec p (λ _ h', same_view (view s0 h) (view s0 h')) h0); [|by apply Hgen].
  induction p as [a|o k IH|m]; intros h0 Hs; [done| |done]. destruct Hp as [Ho Hp].
  split; [intros _; by eapply same_view_ok|]. intros r _. split; [done|]. apply IH; [apply Hp|].
  eapply same_view_trans; [exact Hs|]. rewrite view_snoc. by apply phase_step.
Qed.

Lemma wp_calm_call {A B} (p : proc A) (k : A → proc B) Q h :
  calm p → view_ok (view s0 h) →
  (∀ a h', same_view (view s0 h) (view s0 h') → view_ok (view s0 h') → wp worker_spec (k a) Q h') →
  wp worker_spec (p ≫= k) Q h.
Proof.
  intros Hp Hh Hk. eapply wp_call; [by apply wp_calm|]. intros a h' Hs. apply Hk; [done|exact (same_view_ok _ _ _ Hs Hh)].
Qed.

Lemma await_calm {A} (p : proc A) : calm p → calm (await_or_shutdown p).
Proof. intros Hp. split; [done|]. intros []; [done|]. apply (total_ops_until phase_op); [done|exact Hp]. Qed.

Lemma wp_phase_or_stop {A R} (stop : proc R) (p : proc A) (k : A → proc R) Q h :
  calm p → view_ok (view s0 h) → (∀ h', view_ok (view s0 h') → wp worker_spec stop Q h') →
  (∀ a h', same_view (view s0 h) (view s0 h') → view_ok (view s0 h') → wp worker_spec (k a) Q h') →
  wp worker_spec (phase_or_stop stop p k) Q h.
Proof.
  intros Hp Hh HQ Hk. unfold phase_or_stop. apply wp_calm_call; [by apply await_calm|done|].
  intros [a|] h' Hv Hok; [by apply Hk|by apply HQ].
Qed.

Lemma wp_loop {S A} turns (s : S) (body : S → proc (S + A)) (J : S → list entry → Prop) Q h :
  J s h → (∀ s h, J s h → Q None h) →
  (∀ s h, J s h → wp worker_spec (body s) (λ r h', match r with inl s => J s h' | inr a => Q (Some a) h' end) h) →
  wp worker_spec (loop turns s body) Q h.
Proof.
  intros HJ Hnone Hbody. revert s h HJ. induction turns as [|turns IH]; intros s h HJ; [by eapply Hnone|].
  cbn [loop]. eapply wp_call; [by apply Hbody|]. intros [s'|a] h' Hr; [by apply IH|done].
Qed.

(** ** Steps of the worker *)

(** The view is in order, and the session as it was. *)
Definition steady (h h' : list entry) : Prop :=
  view_ok (view s0 h') ∧ sh_session (now h') = sh_session (now h).

Lemma steady_refl h : view_ok (view s0 h) → steady h h.
Proof. done. Qed.

Lemma steady_same h h' : view_ok (view s0 h) → same_view (view s0 h) (view s0 h') → steady h h'.
Proof. intros Hh Hs. split; [by eapply same_view_ok|]. apply Hs. Qed.

Lemma steady_trans h1 h2 h3 : steady h1 h2 → steady h2 h3 → steady h1 h3.
Proof. intros [_ H1] [H2 H3]. split; [done|]. by rewrite H3. Qed.

Lemma wp_select {A} (enabled : Wake → bool) (k : Wake → proc A) Q h :
  view_ok (view s0 h) →
  (∀ w, enabled w = true → wp worker_spec (k w) Q (h ++ [answered (Sig := backend_sig) (OpSelect enabled) w])) →
  wp worker_spec (perform (OpSelect enabled) ≫= k) Q h.
Proof. intros Hh Hk. split; [done|]. intros w Hw. split; [done|]. by apply Hk. Qed.

Lemma select_steady enabled (w : Wake) h :
  view_ok (view s0 h) → (∀ c, w ≠ WakeCommand (Some c)) →
  steady h (h ++ [answered (Sig := backend_sig) (OpSelect enabled) w]).
Proof.
  intros Hh Hw. apply steady_same; [done|]. rewrite view_snoc. unfold view_step, same_view. simpl. split_and!; try done.
  destruct w as [| | |[c|]| | | | | | | | |]; simpl; try by rewrite app_nil_r. by destruct (Hw c).
Qed.

(** Between connections the session is not ready; while messages are
    dispatched it is. *)
Definition idle (h : list entry) : Prop := view_ok (view s0 h) ∧ phase (sh_session (now h)) ≠ Ready.
Definition active (h : list entry) : Prop := view_ok (view s0 h) ∧ phase (sh_session (now h)) = Ready.

Lemma idle_steady h h' : idle h → steady h h' → idle h'.
Proof. intros [_ Hp] [Hok Hs]. split; [done|]. by rewrite Hs. Qed.

(** A received command is deferred. *)
Lemma wp_defer {A} c (k : proc A) Q h h1 :
  idle h → view s0 h1 = mkView (v_labels (view s0 h) ++ [Receive c]) (v_state (view s0 h)) →
  (∀ h', steady h h' → wp worker_spec k Q h') →
  wp worker_spec (_ ← update (on_deferred (handle_recovery_command c)); k) Q h1.
Proof.
  intros [Hok Hp] Hv HQ. apply wp_update. intros r _ _. apply HQ. unfold steady, now. rewrite view_snoc, Hv. split; [|done].
  eapply (simulated_step [] [] _ _ (Receive c) Hok); simpl; [by rewrite app_nil_r| |apply Hok].
  destruct c; by constructor.
Qed.

Lemma select_command enabled c h :
  view s0 (h ++ [answered (Sig := backend_sig) (OpSelect enabled) (WakeCommand (Some c))]) =
    mkView (v_labels (view s0 h) ++ [Receive c]) (v_state (view s0 h)).
Proof. by rewrite view_snoc. Qed.

Lemma acknowledged_calm : calm acknowledged.
Proof. by split. Qed.

Lemma acknowledgment_phase_calm : calm acknowledgment_phase.
Proof. apply total_ops_bind; [apply process_acknowledgments_phase|done]. Qed.

(** ** Turns of a loop

    [J] holds between the turns. *)

Record stable (J : list entry → Prop) : Prop := {
  stable_ok h : J h → view_ok (view s0 h);
  stable_same h h' : J h → same_view (view s0 h) (view s0 h') → J h';
}.

Lemma steady_stable h0 : stable (steady h0).
Proof.
  split; [by intros h []|]. intros h h' Hh Hs. eapply steady_trans; [exact Hh|]. by apply steady_same; [apply Hh|].
Qed.

Section Turn.
Context (J : list entry → Prop) (HJ : stable J).

Definition turn_post {S C} (r : S + ControlFlow (result unit string) C) (h : list entry) : Prop :=
  match r with
  | inr (Break _) => view_ok (view s0 h)
  | _ => J h
  end.

Lemma turn_stop {S C} h (stop : proc unit) :
  calm stop → view_ok (view s0 h) → wp worker_spec (stop_with (S := S) (C := C) stop) turn_post h.
Proof. intros Hs Hh. by apply wp_calm_call. Qed.

(** Something calm, then the rest of the turn. *)
Lemma turn_calm {A S C} h (p : proc A) (k : A → proc (S + ControlFlow (result unit string) C)) :
  calm p → J h → (∀ a h', J h' → wp worker_spec (k a) turn_post h') →
  wp worker_spec (p ≫= k) turn_post h.
Proof.
  intros Hp Hh Hk. apply wp_calm_call; [done|by apply HJ|]. intros a h' Hs _. apply Hk. by eapply HJ.
Qed.

Lemma turn_phase {A S C} h (stop : proc unit) (p : proc A) (k : A → proc (S + ControlFlow (result unit string) C)) :
  calm p → calm stop → J h → (∀ a h', J h' → wp worker_spec (k a) turn_post h') →
  wp worker_spec (phase_or_stop (stop_with stop) p k) turn_post h.
Proof.
  intros Hp Hs Hh Hk. apply wp_phase_or_stop; [done|by apply HJ| |].
  - intros h' Hok. by apply turn_stop.
  - intros a h' Hv _. apply Hk. by eapply HJ.
Qed.

End Turn.

(** The branches that the waits of recovery and of a start have in common. *)
Lemma wait_branches {C} (stop : proc unit) (k : Wake → proc (unit + ControlFlow (result unit string) C)) enabled h0 h :
  calm stop → idle h0 → steady h0 h →
  (∀ w, match w with
        | WakeCommand None | WakeShutdown => k w = stop_with stop
        | WakeCommand (Some c) => k w = (_ ← update (on_deferred (handle_recovery_command c)); Ret (inl tt))
        | WakeAcknowledgments => k w = (_ ← acknowledged; phase_or_stop (stop_with stop) acknowledgment_phase (λ _, Ret (inl tt)))
        | WakeAcknowledgmentRetry => k w = (_ ← update (on_inbox ack_activate_retries); Ret (inl tt))
        | WakeAttachment (Some completed) =>
            k w = phase_or_stop (stop_with stop) (handle_attachment_completion completed) (λ _, Ret (inl tt))
        | w => k w = Ret (inl tt) ∨ ∃ c, k w = Ret (inr (Continue c))
        end) →
  wp worker_spec (wake ← perform (OpSelect enabled); k wake) (turn_post (steady h0)) h.
Proof.
  intros Hstop H0 Hh Hk. assert (HJ := steady_stable h0). apply wp_select; [apply Hh|]. intros w _. specialize (Hk w).
  set (h1 := h ++ [answered (Sig := backend_sig) (OpSelect enabled) w]).
  assert (Hw : (∀ c, w ≠ WakeCommand (Some c)) → steady h0 h1).
  { intros Hne. eapply steady_trans; [exact Hh|]. by apply select_steady; [apply Hh|]. }
  assert (Hret : (∀ c, w ≠ WakeCommand (Some c)) → k w = Ret (inl tt) ∨ (∃ c, k w = Ret (inr (Continue c))) →
    wp worker_spec (k w) (turn_post (steady h0)) h1).
  { intros Hne [->|[c ->]]; by apply Hw. }
  destruct w as [|started| |[c|]| | |[completed|]|receipt|received| |sync| |]; try (by apply Hret); rewrite Hk.
  - eapply wp_defer; [by eapply idle_steady|apply select_command|]. intros h' Hs. by eapply steady_trans.
  - apply turn_stop; [done|by apply Hw].
  - apply turn_calm; [done|apply acknowledged_calm|by apply Hw|]. intros _ h' Hs.
    by apply turn_phase; [|apply acknowledgment_phase_calm|..].
  - by apply turn_calm; [| |apply Hw|].
  - by apply turn_phase; [|apply attachment_completion_phase| |apply Hw|].
  - apply turn_stop; [done|by apply Hw].
Qed.

Lemma recovery_turn_wp h0 h : idle h0 → steady h0 h → wp worker_spec (recovery_turn tt) (turn_post (steady h0)) h.
Proof.
  intros H0 Hh. unfold recovery_turn. apply turn_calm; [apply steady_stable|done|done|]. intros running h1 H1.
  apply (wait_branches stop_attachments_and_drain_acknowledgments); [apply stop_waiting_phase|done|done|].
  intros [|started| |[c|]| | |[completed|]|receipt|received| |sync| |]; eauto.
Qed.

Lemma start_turn_wp h0 h : idle h0 → steady h0 h → wp worker_spec (start_turn tt) (turn_post (steady h0)) h.
Proof.
  intros H0 Hh. unfold start_turn. apply turn_calm; [apply steady_stable|done|done|]. intros s h1 H1.
  apply turn_calm; [apply steady_stable|done|done|]. intros running h2 H2.
  apply (wait_branches stop_receive_and_drain); [|done|done|].
  - apply total_ops_bind; [by repeat split|]. intros _. apply stop_waiting_phase.
  - intros [|started| |[c|]| | |[completed|]|receipt|received| |sync| |]; eauto.
Qed.

Lemma idle_stable : stable idle.
Proof. split; [by intros h []|]. intros h h' Hh Hs. eapply idle_steady; [done|]. by apply steady_same; [apply Hh|]. Qed.

Lemma active_stable : stable active.
Proof.
  split; [by intros h []|]. intros h h' [Hok Hp] Hs. split; [by eapply same_view_ok|].
  destruct Hs as (_&Hs&_). unfold now. by rewrite Hs.
Qed.

(** After a loop that hands on with [Continue]. *)
Definition flow_post {C} (J : list entry → Prop) (r : option (ControlFlow (result unit string) C)) (h : list entry) : Prop :=
  match r with
  | Some (Continue _) => J h
  | _ => view_ok (view s0 h)
  end.

Lemma drain_recovery_wp turns h :
  idle h → wp worker_spec (drain_recovery_commands turns) (λ _, steady h) h.
Proof.
  intros Hh. assert (Hgen : ∀ h0, steady h h0 → wp worker_spec (drain_recovery_commands turns) (λ _, steady h) h0);
    [|apply Hgen, steady_refl, Hh].
  induction turns as [|turns IH]; intros h0 Hs; [done|]. cbn [drain_recovery_commands].
  apply wp_atomic; [done|]. intros [command| |].
  - apply (wp_defer _ _ _ h0).
    + by eapply idle_steady.
    + by rewrite view_snoc.
    + intros h' Hs'. apply IH. by eapply steady_trans.
  - apply (stable_same _ (steady_stable h) _ _ Hs). rewrite view_snoc. unfold same_view, view_step. simpl. by rewrite ?app_nil_r.
  - apply (stable_same _ (steady_stable h) _ _ Hs). rewrite view_snoc. unfold same_view, view_step. simpl. by rewrite ?app_nil_r.
Qed.

(** An update of the session that keeps its phase. *)
Lemma session_update_view f h (r : Shared) :
  (∀ s, phase (f s) = phase s) → view_ok (view s0 h) →
  view_ok (view s0 (h ++ [answered (Sig := backend_sig) (OpUpdate (on_session f)) r])) ∧
  sh_session (now (h ++ [answered (Sig := backend_sig) (OpUpdate (on_session f)) r])) = f (sh_session (now h)).
Proof.
  intros Hf [? ?]. unfold now. rewrite view_snoc. split; [|done].
  split; simpl; rewrite ?app_nil_r, ?Hf; try done. unfold is_ready in *. by rewrite Hf.
Qed.

Lemma next_delay_wp h :
  view_ok (view s0 h) → phase (sh_session (now h)) = Recovering → wp worker_spec session_next_delay (λ _, idle) h.
Proof.
  intros Hh Hp. apply wp_update. intros r Hs _. rewrite Hs.
  destruct (session_update_view (λ session, default session (snd <$> next_recovery_delay session)) h r) as [Hok Hses].
  - intros s. unfold next_recovery_delay. by destruct (is_recovering s).
  - done.
  - assert (Hidle : idle (h ++ [answered (Sig := backend_sig) (OpUpdate (on_session (λ session, default session (snd <$> next_recovery_delay session)))) r])).
    { split; [done|]. rewrite Hses. unfold next_recovery_delay, is_recovering. by rewrite Hp. }
    unfold next_recovery_delay, is_recovering at 1. rewrite Hp. simpl. exact Hidle.
Qed.

Lemma wp_read {A} J (k : Shared → proc A) Q h :
  stable J → J h →
  (∀ s h', J h' → sh_session s = sh_session (now h') → sh_deferred s = sh_deferred (now h') → wp worker_spec (k s) Q h') →
  wp worker_spec (update id ≫= k) Q h.
Proof.
  intros HJ Hh Hk. apply wp_update. intros s Hs Hd.
  assert (Hv : same_view (view s0 h) (view s0 (h ++ [answered (Sig := backend_sig) (OpUpdate id) s]))).
  { rewrite view_snoc. by apply phase_step. }
  assert (Hv' := Hv). destruct Hv' as (_&Hs'&_&Hd').
  apply Hk; [by eapply HJ|..]; unfold now; by rewrite ?Hs', ?Hd'.
Qed.

(** A loop whose turns keep [J]. *)
Lemma wp_turns {S C} turns (s : S) (body : S → proc (S + ControlFlow (result unit string) C)) J h :
  stable J → J h → (∀ s h, J h → wp worker_spec (body s) (turn_post J) h) →
  wp worker_spec (loop turns s body) (flow_post J) h.
Proof.
  intros HJ Hh Hbody. apply (wp_loop _ _ _ (λ _, J)); [done| |].
  - intros _ h' Hh'. by apply HJ.
  - intros s' h' Hh'. eapply wp_mono; [|by apply Hbody]. by intros [?|[]] h''.
Qed.

Lemma turn_mono {S C} (J J' : list entry → Prop) (p : proc (S + ControlFlow (result unit string) C)) h :
  (∀ h', J h' → J' h') → wp worker_spec p (turn_post J) h → wp worker_spec p (turn_post J') h.
Proof. intros HJ. apply wp_mono. intros [?|[]] h'; simpl; auto. Qed.

Lemma wait_out_recovery_wp turns h : idle h → wp worker_spec (wait_out_recovery turns) (flow_post idle) h.
Proof.
  intros Hh. apply (wp_read idle); [apply idle_stable|done|]. intros s h1 H1 Hs _. rewrite Hs.
  unfold is_recovering. case_bool_decide as Hp; [|done]. cbn [negb].
  eapply wp_call; [by apply drain_recovery_wp|]. intros [[]|] h2 [Hok H2]; [|..].
  - apply wp_calm_call; [apply stop_waiting_phase|done|]. by intros _ h' _ ?.
  - eapply wp_call; [apply next_delay_wp; [done|by rewrite H2]|]. intros delay h3 H3.
    case_match; [done|]. apply wp_turns; [apply idle_stable|done|]. intros [] h' Hh'.
    eapply turn_mono, (recovery_turn_wp h'); [|done|apply steady_refl, Hh']. intros h''. by apply idle_steady.
  - done.
Qed.

Lemma receive_start_wp turns h : idle h → wp worker_spec (wait_for_receive_start turns) (flow_post idle) h.
Proof.
  intros Hh. apply wp_turns; [apply idle_stable|done|]. intros [] h' Hh'.
  eapply turn_mono, (start_turn_wp h'); [|done|apply steady_refl, Hh']. intros h''. by apply idle_steady.
Qed.

(** ** Becoming ready and recovering *)

Lemma become_ready_wp h : idle h → wp worker_spec become_ready (λ _, active) h.
Proof.
  intros [Hok Hp]. unfold become_ready, session_mark_ready. apply wp_bind, wp_update. intros s Hs _. rewrite Hs.
  assert (Hnr : is_ready (sh_session (now h)) = false) by (unfold is_ready; by case_bool_decide).
  unfold mark_ready at 1. rewrite Hnr. cbn [wp]. apply wp_update. intros r _ _. apply wp_update. intros r' _ _.
  split; [by intros ?|]. intros [] _. split; [done|]. cbn [wp]. unfold active, now. rewrite !view_snoc.
  assert (Hphase : phase (default (sh_session (now h)) (mark_ready (sh_session (now h)))) = Ready).
  { unfold mark_ready. by rewrite Hnr. }
  split; [|exact Hphase]. unfold now in Hphase, Hp. eapply (simulated_step [] [] _ _ (Announce EVENT_READY) Hok); simpl.
  - by rewrite !app_nil_r.
  - simpl in Hphase, Hp. rewrite Hphase. by constructor.
  - unfold is_ready. simpl in Hphase. by rewrite Hphase.
Qed.

Lemma startup_phase {A} (p : proc A) (k : A → proc (ControlFlow (result unit string) unit)) h :
  calm p → idle h → (∀ a h', idle h' → wp worker_spec (k a) (λ r, flow_post active (Some r)) h') →
  wp worker_spec (phase_or_stop (_ ← stop_attachments_and_drain_acknowledgments; Ret (Break (Ok tt))) p k)
    (λ r, flow_post active (Some r)) h.
Proof.
  intros Hp Hh Hk. apply wp_phase_or_stop; [done|apply Hh| |].
  - intros h' Hok. apply wp_calm_call; [apply stop_waiting_phase|done|]. by intros _ h'' _ ?.
  - intros a h' Hs _. apply Hk. by eapply idle_stable.
Qed.

Lemma startup_wp local_aci h :
  idle h → wp worker_spec (run_startup_phases local_aci) (λ r, flow_post active (Some r)) h.
Proof.
  intros Hh. assert (Hst := idle_stable). apply (wp_read idle); [done..|]. intros s h1 H1 Hs _.
  unfold is_ready. rewrite Hs. case_bool_decide as Hp; [by destruct H1|].
  apply startup_phase; [apply account_identity_phase|done|]. intros _ h2 H2.
  apply startup_phase; [apply contact_snapshot_phase|done|]. intros _ h3 H3.
  apply startup_phase; [apply group_snapshot_phase|done|]. intros snapshot h4 H4.
  apply wp_calm_call; [by destruct snapshot|apply H4|]. intros _ h5 H5 _.
  assert (H6 : idle h5) by (by eapply idle_stable).
  apply (wp_read idle); [done..|]. intros s' h6 H7 _ _.
  apply startup_phase; [apply load_unprojected_phase|done|]. intros _ h7 H8.
  apply startup_phase; [apply identity_changes_phase|done|]. intros _ h8 H9.
  apply (wp_read idle); [done..|]. intros s'' h9 H10 _ _.
  apply startup_phase; [apply retry_outbox_phase|done|]. intros _ h10 H11.
  apply startup_phase; [apply identity_changes_phase|done|]. intros _ h11 H12.
  eapply wp_call; [by apply become_ready_wp|]. by intros [] h' Hh'.
Qed.

(** ** Dispatching *)

Lemma wp_session {A} f (k : Shared → proc A) Q h :
  (∀ s, phase (f s) = phase s) → active h → (∀ r h', active h' → wp worker_spec (k r) Q h') →
  wp worker_spec (update (on_session f) ≫= k) Q h.
Proof.
  intros Hf [Hok Hp] Hk. apply wp_update. intros r _ _. apply Hk.
  destruct (session_update_view f h r Hf Hok) as [Hok' Hs]. split; [done|]. by rewrite Hs, Hf.
Qed.

Lemma note_content_phase b s : phase (note_group_content b s) = phase s.
Proof. unfold note_group_content. by case_match. Qed.

Abbreviation dispatched := (turn_post active).

Lemma stop_active_wp {C} d h : view_ok (view s0 h) → wp worker_spec (stop_active (C := C) d) dispatched h.
Proof. intros Hh. apply turn_stop; [apply stop_active_phase|done]. Qed.

Lemma active_phase {A C} d h (p : proc A) (k : A → proc (Dispatch + ControlFlow (result unit string) C)) :
  calm p → active h → (∀ a h', active h' → wp worker_spec (k a) dispatched h') →
  wp worker_spec (phase_or_stop (stop_active d) p k) dispatched h.
Proof. intros Hp Hh Hk. apply turn_phase; [apply active_stable|done|apply stop_active_phase|done|done]. Qed.

Lemma active_calm {A C} h (p : proc A) (k : A → proc (Dispatch + ControlFlow (result unit string) C)) :
  calm p → active h → (∀ a h', active h' → wp worker_spec (k a) dispatched h') → wp worker_spec (p ≫= k) dispatched h.
Proof. apply turn_calm, active_stable. Qed.

Lemma groups_snapshot_wp snapshot h : active h → wp worker_spec (groups_snapshot_done snapshot) (λ _, active) h.
Proof.
  intros Hh. destruct snapshot as [[]|e]; (apply wp_session; [done|done|]); intros r h' Hh'; [done|].
  eapply wp_mono; [|apply wp_calm; [done|apply Hh']]. intros a h'' Hs. by eapply active_stable.
Qed.

Lemma queue_drained_wp local_aci d authoritative dirty h :
  active h → wp worker_spec (queue_drained local_aci d authoritative dirty) dispatched h.
Proof.
  intros Hh. apply wp_session; [done|done|]. intros r h1 H1. cbv zeta.
  apply active_calm; [by destruct (contact_sync_start d)|done|]. intros _ h2 H2.
  apply active_calm; [by destruct (avatar_fetch_start d)|done|]. intros _ h3 H3.
  apply active_calm; [by destruct (negb _ && negb _)|done|]. intros _ h4 H4.
  destruct dirty; [|done]. apply active_phase; [apply group_snapshot_phase|done|]. intros snapshot h5 H5.
  eapply wp_call; [by apply groups_snapshot_wp|]. by intros [] h6 H6.
Qed.

Lemma dispatch_received_wp local_aci d ready authoritative dirty received h :
  active h → wp worker_spec (dispatch_received local_aci d ready authoritative dirty received) dispatched h.
Proof.
  intros Hh. destruct received as [[| |sender|content]|]; [..|done].
  - by apply queue_drained_wp.
  - by apply active_phase; [apply contact_snapshot_phase|..].
  - by apply active_calm.
  - apply wp_session; [apply note_content_phase|done|]. intros r h1 H1. destruct ready; [|done].
    apply active_calm; [done|done|]. intros _ h2 H2. by apply active_phase; [apply identity_changes_phase|..].
Qed.

Lemma finish_receipt_phase completion : calm (finish_receipt completion).
Proof.
  apply total_ops_bind; [done|]. intros s. cbv zeta. apply total_ops_bind; [|done].
  unfold finish_delivery_receipt_attempt. repeat case_match; simplify_eq/=; try done.
Qed.

Lemma dispatch_receipt_wp d completed h : active h → wp worker_spec (dispatch_receipt d completed) dispatched h.
Proof.
  intros Hh. destruct completed as [[completion|e]|]; [..|done].
  - apply active_calm; [apply finish_receipt_phase|done|]. intros recover h1 H1.
    apply active_calm; [done|done|]. intros s h2 H2. by repeat case_match.
  - apply active_calm; [done|done|]. intros _ h1 H1. by apply active_calm.
Qed.

Lemma retry_outbox_wp local_aci d authoritative h :
  active h → wp worker_spec (retry_outbox_phases local_aci d authoritative) dispatched h.
Proof.
  intros Hh. apply active_phase; [apply retry_outbox_phase|done|]. intros _ h1 H1.
  by apply active_phase; [apply identity_changes_phase|..].
Qed.

Lemma dispatch_group_sync_wp local_aci d synchronized h :
  active h → wp worker_spec (dispatch_group_sync local_aci d synchronized) dispatched h.
Proof.
  intros Hh. destruct synchronized as [[[]|e]|]; [..|done]; (apply wp_session; [done|done|]); intros r h1 H1.
  - apply active_calm; [done|done|]. intros _ h2 H2. by apply retry_outbox_wp.
  - apply active_calm; [done|done|]. intros _ h2 H2. by apply active_calm.
Qed.

(** A command on its way out of the queue. *)
Definition taking (c : Command) (h : list entry) : Prop :=
  simulated [c] (view s0 h) ∧ phase (sh_session (now h)) = Ready.

Lemma dispatch_attachment_wp d authoritative request_id attachment permit h :
  active h → wp worker_spec (dispatch_attachment d authoritative request_id attachment permit) dispatched h.
Proof.
  intros Hh. apply active_calm; [done|done|]. intros s h1 H1.
  repeat case_match; unfold with_attachments, emit, update; (apply active_calm; [solve_total_ops|done|]); intros claimed h2 H2; [done| |].
  - apply active_calm; [by destruct claimed|done|]. intros _ h3 H3. by apply active_calm.
  - by apply active_calm.
Qed.

Lemma interruptibly_phase local_aci c :
  (∀ id r f t d g p, c ≠ SendAttachment id r f t d g p) → calm (handle_command_interruptibly local_aci c).
Proof.
  intros Hne. apply total_ops_bind; [done|]. intros s. apply total_ops_bind; [|done].
  apply (total_ops_until phase_op); [done|]. by apply handle_command_phase.
Qed.

Lemma announce_leave_phase authoritative c : calm (announce_leave authoritative c).
Proof. unfold announce_leave, update. solve_total_ops. Qed.

Lemma handled_wp local_aci d authoritative c h :
  (∀ id r f t d g p, c ≠ SendAttachment id r f t d g p) → active h →
  wp worker_spec (_ ← announce_leave authoritative c;
                  interrupted ← handle_command_interruptibly local_aci c;
                  if (interrupted : bool) then stop_active d
                  else phase_or_stop (stop_active d) emit_identity_changes (λ _, Ret (inl d)))
    (turn_post (C := Dispatch * string) active) h.
Proof.
  intros Hne Hh. apply active_calm; [apply announce_leave_phase|done|]. intros _ h1 H1.
  apply active_calm; [by apply interruptibly_phase|done|]. intros [] h2 H2.
  - apply stop_active_wp, H2.
  - by apply active_phase; [apply identity_changes_phase|..].
Qed.

Lemma run_command_wp local_aci d authoritative c h :
  taking c h → wp worker_spec (run_command local_aci d authoritative c) dispatched h.
Proof.
  intros [Hok Hp]. apply wp_atomic; [done|]. intros [].
  assert (Ha : active (h ++ [answered (Sig := backend_sig) (OpTake c) ()])).
  { unfold active. unfold now in *. rewrite view_snoc. split; [|done].
    eapply (simulated_step [c] [] _ _ (Handle c) Hok); [done| |apply Hok]. simpl in *. rewrite Hp. constructor. }
  destruct c; first [by apply handled_wp|by apply dispatch_attachment_wp].
Qed.

(** The first deferred command, with the session ready. *)
Lemma dispatch_deferred_wp local_aci d authoritative h :
  active h →
  wp worker_spec (command ← pop_deferred; dispatch_command local_aci d true authoritative command) dispatched h.
Proof.
  intros [Hok Hp]. unfold pop_deferred. apply wp_bind, wp_update. intros s _ Hd. cbn [wp]. rewrite Hd.
  destruct (head (sh_deferred (now h))) as [c|] eqn:Hhead.
  - apply run_command_wp. unfold taking. unfold now in *. rewrite view_snoc. split; [|done].
    destruct Hok as [Ht Hr]. split; [|done]. simpl in *. rewrite app_nil_r.
    by destruct (sh_deferred (apply_updates s0 h)); simplify_eq/=.
  - apply stop_active_wp. rewrite view_snoc. eapply same_view_ok, Hok.
    unfold same_view, view_step. simpl. rewrite !app_nil_r. split_and!; try done.
    unfold now in Hhead. simpl in Hhead. by destruct (sh_deferred (apply_updates s0 h)).
Qed.

(** A command received with the session ready and none deferred. *)
Lemma dispatch_command_wp local_aci d authoritative enabled command h :
  active h → sh_deferred (now h) = [] →
  wp worker_spec (dispatch_command local_aci d true authoritative command) dispatched
    (h ++ [answered (Sig := backend_sig) (OpSelect enabled) (WakeCommand command)]).
Proof.
  intros [Hok Hp] Hd. destruct command as [c|].
  - apply run_command_wp. unfold taking. unfold now in *. rewrite select_command. split; [|done].
    eapply (simulated_step [] [c] _ _ (Receive c) Hok); [done| |apply Hok]. simpl in *. rewrite Hd. constructor.
  - apply stop_active_wp. by apply (select_steady enabled (WakeCommand None)).
Qed.

Lemma start_receipt_phase ready : calm (start_receipt ready).
Proof. unfold start_receipt, update. solve_total_ops. Qed.

Lemma next_replay_phase : calm next_replay.
Proof. unfold next_replay, update. solve_total_ops. Qed.

Lemma dispatch_wake_wp local_aci d authoritative dirty enabled wake h :
  active h → (∀ c, wake = WakeCommand c → sh_deferred (now h) = []) →
  wp worker_spec (dispatch_wake local_aci d true authoritative dirty wake) dispatched
    (h ++ [answered (Sig := backend_sig) (OpSelect enabled) wake]).
Proof.
  intros Hh Hc.
  assert (Hw : (∀ c, wake ≠ WakeCommand (Some c)) → active (h ++ [answered (Sig := backend_sig) (OpSelect enabled) wake])).
  { intros Hne. destruct Hh as [Hok Hp]. destruct (select_steady enabled wake h Hok Hne) as [Hok' Hs].
    split; [done|]. by rewrite Hs. }
  destruct wake as [|started| |command| | |[completed|]|receipt|received| |sync| |]; try (by apply Hw).
  - by apply dispatch_deferred_wp, Hw.
  - apply dispatch_command_wp; [done|by eapply Hc].
  - apply active_calm; [apply acknowledged_calm|by apply Hw|]. intros _ h1 H1.
    by apply active_phase; [apply acknowledgment_phase_calm|..].
  - by apply active_calm; [|apply Hw|].
  - by apply active_phase; [apply attachment_completion_phase|apply Hw|].
  - by apply dispatch_receipt_wp, Hw.
  - by apply dispatch_received_wp, Hw.
  - apply active_calm; [done|by apply Hw|]. intros _ h1 H1. by apply retry_outbox_wp.
  - by apply dispatch_group_sync_wp, Hw.
  - by apply active_calm; [|apply Hw|].
  - by apply stop_active_wp, Hw.
Qed.

Lemma dispatch_turn_wp local_aci d h : active h → wp worker_spec (dispatch_turn local_aci d) dispatched h.
Proof.
  intros Hh. assert (Hst := active_stable). apply (wp_read active); [done..|]. intros s h1 H1 Hs _.
  assert (Hready : is_ready (sh_session s) = true).
  { unfold is_ready. rewrite Hs. apply bool_decide_true, H1. }
  rewrite Hready. cbv zeta.
  apply active_calm; [by destruct (groups_authoritative (sh_session s))|done|]. intros _ h2 H2.
  apply active_calm; [apply next_replay_phase|done|]. intros [content|] h3 H3.
  { by apply active_phase; [apply project_content_phase|..]. }
  apply active_calm; [apply start_receipt_phase|done|]. intros _ h4 H4.
  apply (wp_read active); [done..|]. intros s' h5 H5 _ Hd.
  apply wp_calm_call; [done|apply H5|]. intros attachments h6 H6 Hok6.
  apply wp_calm_call; [done|done|]. intros receipts h7 H7 Hok7.
  assert (H8 : active h7) by (eapply active_stable; [eapply active_stable; [exact H5|exact H6]|exact H7]).
  apply wp_select; [done|]. intros wake Hwake. apply dispatch_wake_wp; [done|].
  intros c ->. destruct H6 as (_&_&_&H6), H7 as (_&_&_&H7). unfold now. rewrite H7, H6. fold (now h5).
  rewrite <-Hd. simpl in Hwake. by case_bool_decide.
Qed.

Lemma run_active_wp local_aci turns d h :
  active h → wp worker_spec (run_active_dispatch local_aci turns d) (flow_post active) h.
Proof. intros Hh. apply wp_turns; [apply active_stable|done|]. intros d' h'. apply dispatch_turn_wp. Qed.

(** ** Losing the connection *)

(** The ready flag is taken back before the session enters recovery. *)
Definition lowered (h : list entry) : Prop :=
  ∃ v, view_ok v ∧
    view s0 h = mkView (v_labels v) (on_ready (λ _, false) (v_state v)).

Lemma wp_lower {A} (k : proc A) Q h :
  view_ok (view s0 h) →
  (∀ h', lowered h' → (idle h → idle h') → wp worker_spec k Q h') →
  wp worker_spec (_ ← update (on_ready (λ _, false)); k) Q h.
Proof.
  intros Hok Hk. apply wp_update. intros r _ _.
  assert (Hv : view s0 (h ++ [answered (Sig := backend_sig) (OpUpdate (on_ready (λ _, false))) r]) =
    mkView (v_labels (view s0 h)) (on_ready (λ _, false) (v_state (view s0 h)))).
  { rewrite view_snoc. unfold view_step. simpl. by rewrite app_nil_r. }
  apply Hk; [by exists (view s0 h)|]. intros Hidle. eapply idle_stable; [exact Hidle|]. rewrite Hv.
  split_and!; try done. simpl. destruct Hidle as [[_ Hr] Hp]. simpl in *. rewrite Hr. unfold is_ready. by case_bool_decide.
Qed.

Lemma enter_recovery_wp e h : lowered h → wp worker_spec (enter_recovery_mode e) (λ _, idle) h.
Proof.
  intros (v&Hok&Hv). unfold enter_recovery_mode. apply wp_update. intros s Hs _. unfold now in Hs. rewrite Hv in Hs.
  set (h1 := h ++ [answered (Sig := backend_sig) (OpUpdate (on_session (λ session, (enter_recovery e session).2))) s]).
  assert (Hv1 : view s0 h1 = mkView (v_labels v)
    (on_session (λ session, (enter_recovery e session).2) (on_ready (λ _, false) (v_state v)))).
  { unfold h1. rewrite view_snoc, Hv. unfold view_step. simpl. by rewrite app_nil_r. }
  rewrite Hs. simpl. unfold is_recovering. case_bool_decide as Hp.
  - rewrite decide_False by done. cbn [wp]. unfold idle, now. rewrite Hv1. split; [|done]. destruct Hok as [Ht Hr]. split; simpl; [|done].
    by rewrite <-Hp.
  - rewrite decide_True by done.
    split; [by intros ?|]. intros [] _. split; [done|]. cbn [wp]. unfold idle, now. rewrite view_snoc, Hv1. split; [|done].
    by eapply (simulated_step [] [] v _ (Announce EVENT_RECOVERING) Hok); [|constructor|].
Qed.

(** Commands about to be taken one after the other. *)
Definition failing (l : list Command) (h : list entry) : Prop :=
  simulated l (view s0 h) ∧ phase (sh_session (now h)) ≠ Ready.

Lemma failing_same l h h' : failing l h → same_view (view s0 h) (view s0 h') → failing l h'.
Proof.
  intros [Hok Hp] Hs. split; [by eapply same_view_ok|]. destruct Hs as (_&Hs&_). unfold now. by rewrite Hs.
Qed.

(** No await inside, so nothing is asked of the history on the way. *)
Abbreviation quick := (total_ops (λ o, phase_op o ∧ suspends (o : op) = false)).

Lemma wp_quick {A} (p : proc A) h :
  quick p → wp worker_spec p (λ _ h', same_view (view s0 h) (view s0 h')) h.
Proof.
  revert h. induction p as [a|o k IH|m]; intros h Hp; [done| |done]. destruct Hp as [[Ho Hsus] Hp].
  split; [rewrite Hsus; by intros ?|]. intros r _. split; [done|].
  eapply wp_mono; [|apply IH, Hp]. intros a h' Hs. eapply same_view_trans; [|exact Hs]. rewrite view_snoc. by apply phase_step.
Qed.

Lemma failure_reported_quick c message :
  quick (event ← with_attachments (deferred_command_failure c message);
         match event with Some event => emit event | None => Ret tt end).
Proof.
  split; [done|]. intros s.
  change (quick (match (deferred_command_failure c message (sh_attachments s)).1 with
                 | Some event => emit event | None => Ret tt end)).
  destruct c; simpl; repeat case_match; simplify_eq; repeat split; done.
Qed.

Lemma fail_deferred_wp message h : idle h → wp worker_spec (fail_deferred_commands message) (λ _, idle) h.
Proof.
  intros Hh. unfold fail_deferred_commands. apply wp_update. intros s _ ->.
  apply (wp_for_each _ _ _ _ (λ _ l h, failing l h)).
  - destruct Hh as [[Ht Hr] Hp]. unfold failing, now. rewrite view_snoc. split; [|done]. split; [|done]. simpl in *.
    by rewrite !app_nil_r.
  - intros _ c l h1 [Hok Hp]. apply wp_atomic; [done|]. intros [].
    eapply wp_mono; [|apply wp_quick, failure_reported_quick]. intros a h2 Hs. eapply failing_same, Hs.
    unfold failing, now in *. rewrite view_snoc. split; [|done].
    by eapply (simulated_step (c :: l) l _ _ (Refuse c) Hok); [|constructor|apply Hok].
  - by intros _ h1 Hf.
Qed.

Lemma start_failed_wp e h :
  idle h → wp worker_spec (start_failed e) (λ r h', match r with inl _ => idle h' | inr _ => view_ok (view s0 h') end) h.
Proof.
  intros Hh. assert (Hst := idle_stable). unfold start_failed.
  apply wp_calm_call; [by repeat split|apply Hh|]. intros _ h1 Hs Hok. assert (H1 : idle h1) by (by eapply Hst).
  apply wp_lower; [done|]. intros h2 Hlow H2. destruct (rse_transient e); cbn [negb].
  - eapply wp_call; [by apply enter_recovery_wp|]. intros ? h3 H3.
    apply wp_calm_call; [done|apply H3|]. intros _ h4 H4 _. by eapply Hst.
  - eapply wp_call; [by apply fail_deferred_wp, H2|]. intros ? h3 H3.
    apply wp_calm_call; [apply stop_waiting_phase|apply H3|]. by intros _ h4 _ ?.
Qed.

Lemma connection_lost_wp group_sync e h :
  view_ok (view s0 h) → wp worker_spec (connection_lost group_sync e) (λ r h', idle h' ∧ r = inl tt) h.
Proof.
  intros Hok. apply wp_lower; [done|]. intros h1 Hlow _. eapply wp_call; [by apply enter_recovery_wp|]. intros ? h2 H2.
  apply wp_calm_call; [by apply stop_receive_phase|apply H2|]. intros _ h3 Hs3 H3.
  apply wp_calm_call; [done|done|]. intros _ h4 Hs4 _. split; [|done].
  eapply idle_stable; [eapply idle_stable; [exact H2|exact Hs3]|exact Hs4].
Qed.

(** A turn of the connection ends idle, or the worker ends. *)
Definition connect_post (r : option (unit + result unit string)) (h : list entry) : Prop :=
  match r with
  | Some (inl _) => idle h
  | _ => view_ok (view s0 h)
  end.

Lemma connect_wp local_aci turns h : idle h → wp worker_spec (connect local_aci turns) connect_post h.
Proof.
  intros Hh. assert (Hst := idle_stable). unfold connect.
  eapply wp_call; [by apply wait_out_recovery_wp|]. intros [[r|[]]|] h1 H1; [done| |done].
  apply wp_calm_call; [done|apply H1|]. intros _ h2 Hs2 _. assert (H2 : idle h2) by (by eapply Hst).
  eapply wp_call; [by apply receive_start_wp|]. intros [[r|[[]|e]]|] h3 H3; [done| | |done].
  - apply wp_calm_call; [done|apply H3|]. intros _ h4 Hs4 Hok4.
    apply wp_calm_call; [done|done|]. intros _ h5 Hs5 Hok5.
    apply wp_calm_call; [done|done|]. intros _ h6 Hs6 Hok6.
    assert (H6 : idle h6).
    { eapply Hst; [|exact Hs6]. eapply Hst; [|exact Hs5]. eapply Hst; [exact H3|exact Hs4]. }
    eapply wp_call; [by apply startup_wp|]. intros [r|[]] h7 H7; [done|].
    eapply wp_call; [by apply run_active_wp|]. intros [[r|[d e]]|] h8 H8; [done| |done].
    eapply wp_call; [apply connection_lost_wp, H8|]. by intros r h9 [H9 ->].
  - eapply wp_call; [by apply start_failed_wp|]. intros [[]|r] h4 H4; done.
Qed.

Lemma connection_run_wp local_aci turns inner h :
  idle h → wp worker_spec (connection_run local_aci turns inner) (λ _ h', view_ok (view s0 h')) h.
Proof.
  revert h. induction turns as [|turns IH]; intros h Hh; [apply Hh|]. cbn [connection_run].
  eapply wp_call; [by apply connect_wp|]. intros [[[]|r]|] h' Hh'; [by apply IH|done|done].
Qed.

(** ** From the start of the backend *)

Lemma initialize_phase : calm initialize_subsystems.
Proof. unfold initialize_subsystems. solve_total_ops. Qed.

Lemma open_store_phase path secret : calm (open_encrypted_store path secret).
Proof. apply total_ops_bind; [by apply await_calm|done]. Qed.

Lemma show_link_phase `{QrLibrary} url : calm (show_link url).
Proof.
  destruct url as [uri|]; [|done]. unfold show_link. destruct (qr_png_total (bytes_of uri)) as [[data|e] ->]; done.
Qed.

Lemma loop_phase {S A} turns (s : S) (body : S → proc (S + A)) : (∀ s, calm (body s)) → calm (loop turns s body).
Proof.
  intros Hb. revert s. induction turns as [|turns IH]; intros s; [done|]. cbn [loop].
  apply total_ops_bind; [done|]. by intros [].
Qed.

Lemma link_phase `{QrLibrary} turns registered : calm (load_or_link turns registered).
Proof.
  destruct registered; cbn [load_or_link].
  - apply total_ops_bind; [by apply (total_ops_until phase_op)|done].
  - apply loop_phase. intros finished. apply total_ops_bind; [done|].
    intros [[]|url|]; try done. apply total_ops_bind; [apply show_link_phase|done].
Qed.

Lemma command_loop_wp local_aci turns inner h :
  idle h → wp worker_spec (receive_and_command_loop local_aci turns inner) (λ _ h', view_ok (view s0 h')) h.
Proof.
  intros Hh. apply wp_calm_call; [apply await_calm, initialize_phase|apply Hh|]. intros [[[]|e]|] h1 Hs Hok; [|done|done].
  apply connection_run_wp. by eapply idle_stable.
Qed.

Lemma backend_wp `{QrLibrary} local_aci config turns inner h :
  idle h → wp worker_spec (run_backend local_aci config turns inner) (λ _ h', view_ok (view s0 h')) h.
Proof.
  intros Hh. apply wp_calm_call; [apply open_store_phase|apply Hh|]. intros [[]|e] h1 Hs1 H1; [|done|done].
  apply wp_calm_call; [by apply await_calm|done|]. intros [registered|] h2 Hs2 H2; [|done].
  apply wp_calm_call; [apply link_phase|done|]. intros [[[]|e]|] h3 Hs3 H3; [|done..].
  apply command_loop_wp. eapply idle_stable; [|exact Hs3]. eapply idle_stable; [|exact Hs2]. by eapply idle_stable.
Qed.

(** The state a worker starts from. *)
Definition fresh : Prop := sh_session s0 = session_default ∧ sh_deferred s0 = [] ∧ sh_ready s0 = false.

Lemma fresh_idle : fresh → idle [].
Proof. intros (Hs&Hd&Hr). unfold idle, now. simpl. rewrite Hs. split; [|done]. split; simpl; rewrite Hs, ?Hd, ?Hr; [constructor|done]. Qed.

Lemma backend_simulated `{QrLibrary} local_aci config turns inner t out :
  fresh → exec (run_backend local_aci config turns inner) t out → legal_trace worker_answers [] t →
  view_ok (view s0 t) ∧ ∀ m, out ≠ Panicked m.
Proof.
  intros Hf Hex Hl.
  destruct (wp_sound worker_spec _ _ [] t out (backend_wp local_aci config turns inner [] (fresh_idle Hf)) Hex Hl) as [_ Ho].
  by destruct out.
Qed.

End From.

(** C1. The worker implements the account machine: whatever the store, the
    network and C answer, at every await of the backend and at its end, the
    events READY and RECOVERING and the commands received, handled and refused
    so far are a trace of the machine [Account], which it leaves in the phase
    and with the queue the worker's own state has; the ready flag that C reads
    says whether that phase is ready; and the backend never panics.  (Assumed is
    only that no one else changes the worker's own session and deferred
    commands, and that [select!] completes an enabled branch.) *)
Theorem worker_refines_account `{QrLibrary} s0 local_aci config turns inner t out :
  fresh s0 → exec (run_backend local_aci config turns inner) t out → legal_trace (worker_answers s0) [] t →
  account_trace (labels t) (account_of (apply_updates s0 t)) ∧
  sh_ready (apply_updates s0 t) = is_ready (sh_session (apply_updates s0 t)) ∧
  ∀ m, out ≠ Panicked m.
Proof. intros Hf Hex Hl. by destruct (backend_simulated s0 _ _ _ _ _ _ Hf Hex Hl) as [[Ht Hr] Hp]. Qed.

(** C21. Commands are handled in the order in which C sent them, each at most
    once, across any number of lost connections; and those handled, refused or
    still deferred are all that were received, but for typing notices. *)
Theorem commands_in_order `{QrLibrary} s0 local_aci config turns inner t out :
  fresh s0 → exec (run_backend local_aci config turns inner) t out → legal_trace (worker_answers s0) [] t →
  let waiting := sh_deferred (apply_updates s0 t) in
  taken (labels t) ++ waiting `sublist_of` received (labels t) ∧
  kept (taken (labels t) ++ waiting) = kept (received (labels t)).
Proof.
  intros Hf Hex Hl. destruct (backend_simulated s0 _ _ _ _ _ _ Hf Hex Hl) as [[Ht _] _]. exact (account_in_order _ _ Ht).
Qed.

(** C22. READY and RECOVERING alternate, never twice the same, and at every
    await the ready flag that C reads says which of them came last. *)
Theorem session_events_alternate `{QrLibrary} s0 local_aci config turns inner t out :
  fresh s0 → exec (run_backend local_aci config turns inner) t out → legal_trace (worker_answers s0) [] t →
  alternating (announced (labels t)) ∧
  sh_ready (apply_updates s0 t) = bool_decide (last (announced (labels t)) = Some EVENT_READY).
Proof.
  intros Hf Hex Hl. destruct (backend_simulated s0 _ _ _ _ _ _ Hf Hex Hl) as [[Ht Hr] _].
  destruct (account_alternates _ _ Ht) as [Ha Hlast]. split; [done|]. simpl in *. rewrite Hr, Hlast.
  by destruct (phase (sh_session (apply_updates s0 t))) eqn:E; unfold is_ready; rewrite E.
Qed.

(** ** Runs *)

Definition selected_enabled (e : entry) : bool :=
  match e with
  | existT o r => match o return backend_resp o → bool with OpSelect enabled => enabled | _ => λ _, true end r
  end.

Lemma worker_world_legal {A} s0 world (p : proc A) h :
  forallb selected_enabled (run (Sig := backend_sig) (world_from s0 world) p h).1 = true →
  legal_trace (worker_answers s0) h (run (Sig := backend_sig) (world_from s0 world) p h).1.
Proof.
  revert h. induction p as [a|o k IH|m]; intros h; [done| |done]. simpl. intros [Hs Ht]%andb_true_iff.
  split; [by destruct o|by apply IH].
Qed.

End Lifecycle.

(** An account starts, handles a message, loses its connection, gets two
    commands meanwhile (a typing notice among them), reconnects, handles the
    deferred one, and is shut down. *)
#[local] Instance sample_qr : QrLibrary := {|
  qr_new := λ _, Err "too long";
  png_grayscale := λ _ _ _, Err "no memory";
|}.

Definition first_message : Command := SendMessage 1 "friend" "hello".
Definition second_message : Command := SendMessage 3 "friend" "still there?".

Definition session_answers (h : list (@entry (@backend_sig string_ids))) (o : @backend_op string_ids)
  : @backend_resp string_ids o :=
  match o return @backend_resp string_ids o with
  | OpSelect _ =>
      match length (filter (λ e, match projT1 e with OpSelect _ => true | _ => false end = true) h) with
      | 0 => WakeStarted (Some (Ok tt))
      | 1 => WakeCommand (Some first_message)
      | 2 => WakeReceived None
      | 3 => WakeSleep
      | 4 => WakeStarted (Some (Ok tt))
      | 5 => WakeDeferred
      | _ => WakeShutdown
      end
  | OpTryRecv =>
      match length (filter (λ e, match projT1 e with OpTryRecv => true | _ => false end = true) h) with
      | 0 => TryReceived (SetTyping 2 "friend" true)
      | 1 => TryReceived second_message
      | _ => TryEmpty
      end
  | o => calm_world (Ids := string_ids) h o
  end.

Definition sample_backend := run_backend (Ids := string_ids) (Dig := plain_digests) (Enums := proto_numbers)
  "me" (mkConfig "/store" "laptop" (mkPassphrase "secret")) 3 9.

Definition sample_session := run (Sig := @backend_sig string_ids)
  (world_from (Ids := string_ids) shared_default session_answers) sample_backend [].

Lemma sample_session_legal : legal_trace (worker_answers (Ids := string_ids) shared_default) [] sample_session.1.
Proof. apply worker_world_legal. vm_compute. reflexivity. Qed.

Lemma sample_session_exec : exec (Sig := @backend_sig string_ids) sample_backend sample_session.1 sample_session.2.
Proof. apply run_exec. Qed.

Lemma sample_session_fresh : fresh (shared_default (Ids := string_ids)).
Proof. done. Qed.

Lemma worker_refines_account_witness :
  labels (Ids := string_ids) sample_session.1 =
    [Announce EVENT_READY; Receive first_message; Handle first_message; Announce EVENT_RECOVERING;
     Receive (SetTyping 2 "friend" true); Receive second_message; Announce EVENT_READY; Handle second_message] ∧
  account_trace (labels (Ids := string_ids) sample_session.1)
    (account_of (apply_updates (Ids := string_ids) shared_default sample_session.1)).
Proof.
  split; [vm_compute; reflexivity|].
  exact (proj1 (worker_refines_account (Ids := string_ids) (Dig := plain_digests) (Enums := proto_numbers) shared_default
    "me" (mkConfig "/store" "laptop" (mkPassphrase "secret")) 3 9 _ _ sample_session_fresh sample_session_exec sample_session_legal)).
Defined.

Lemma commands_in_order_witness :
  taken (labels (Ids := string_ids) sample_session.1) = [first_message; second_message] ∧
  kept (taken (labels (Ids := string_ids) sample_session.1) ++
        sh_deferred (apply_updates (Ids := string_ids) shared_default sample_session.1)) =
    kept (received (labels (Ids := string_ids) sample_session.1)).
Proof.
  split; [vm_compute; reflexivity|].
  exact (proj2 (commands_in_order (Ids := string_ids) (Dig := plain_digests) (Enums := proto_numbers) shared_default
    "me" (mkConfig "/store" "laptop" (mkPassphrase "secret")) 3 9 _ _ sample_session_fresh sample_session_exec sample_session_legal)).
Defined.

Lemma session_events_alternate_witness :
  announced (labels (Ids := string_ids) sample_session.1) = [EVENT_READY; EVENT_RECOVERING; EVENT_READY] ∧
  alternating (announced (labels (Ids := string_ids) sample_session.1)).
Proof.
  split; [vm_compute; reflexivity|].
  exact (proj1 (session_events_alternate (Ids := string_ids) (Dig := plain_digests) (Enums := proto_numbers) shared_default
    "me" (mkConfig "/store" "laptop" (mkPassphrase "secret")) 3 9 _ _ sample_session_fresh sample_session_exec sample_session_legal)).
Defined.
