(* ===== verification/Teardown.v ===== *)
(** * Teardown: shutting an account down

    Ties the C interface ([Ffi]) to the end of its worker ([Worker]): once
    [signal_core_shutdown] has joined the worker thread, every submission is
    refused. *)
From S2P Require Import Prelude Event EventQueue Acknowledgment Attachment Command Session SignalTypes.
From S2P Require Import Effects Backend Qr Worker Ffi Boundary.

Section Teardown.
Context `{Ids : SignalIds} `{Dig : Digests} `{Enums : ProtoEnums} `{Hex : HexDecoding} `{Qrs : QrLibrary}.
Context `{Chan : CommandChannel} `{Laws : !CommandChannelLaws}.

(** A worker that ended has taken back the ready flag and closed the inbox. *)
Definition worker_closed (s : Shared) : Prop := sh_ready s = false ∧ ack_open (sh_inbox s) = false.

Lemma apply_updates_app s (t t' : list entry) : apply_updates s (t ++ t') = apply_updates (apply_updates s t) t'.
Proof. apply foldl_app. Qed.

Lemma ends_any {A} (p : proc A) : ends p (λ _ _, True).
Proof. eapply ends_mono; [|done]. apply (ends_only_ops (λ _, True)). by induction p. Qed.

(** The last lines of [run_worker], with what is reported. *)
Lemma worker_end (report : proc unit) :
  ends report (λ _ t, ∀ s, apply_updates s t = s) →
  ends (_ ← update (on_inbox ack_close); _ ← update (on_ready (λ _, false)); _ ← report; Ret true)
    (λ _ t, ∀ s, worker_closed (apply_updates s t)).
Proof.
  intros Hr. apply ends_perform. intros s1. apply ends_perform. intros s2. eapply ends_bind; [exact Hr|]. intros [] t Ht.
  apply ends_ret. intros s. rewrite app_nil_r. change (worker_closed (apply_updates (on_ready (λ _, false) (on_inbox ack_close s)) t)).
  by rewrite Ht.
Qed.

Lemma run_worker_ends local_aci config turns inner :
  ends (run_worker local_aci config turns inner) (λ ended t, ended = true → ∀ s, worker_closed (apply_updates s t)).
Proof.
  unfold run_worker. apply ends_perform. intros built. eapply ends_bind; [apply ends_any|]. intros result t _.
  assert (Hlift : ∀ p, ends p (λ (_ : bool) t', ∀ s, worker_closed (apply_updates s t')) →
    ends p (λ ended t', ended = true → ∀ s, worker_closed
      (apply_updates s (answered (Sig := backend_sig) OpBuildRuntime built :: t ++ t')))).
  { intros p Hp. eapply ends_mono; [exact Hp|]. intros b t' Ht' _ s.
    change (_ :: t ++ t') with ((answered (Sig := backend_sig) OpBuildRuntime built :: t) ++ t').
    rewrite apply_updates_app. apply Ht'. }
  destruct result as [[[[]|e]|]|]; try (apply Hlift, worker_end; first [by apply ends_ret|by apply ends_last]).
  by apply ends_ret.
Qed.

(** What the end of the worker leaves: a channel [ch] without its receiver, and
    the shared parts as its own state has them; a closed event queue takes no
    more events. *)
Definition worker_leaves (s : Shared) (ch : Channel) (c : SignalCore) : SignalCore :=
  mkCore ch (sh_inbox s) (core_shutdown c) (core_events c)
    (sh_ready s) (sh_attachments s) (core_join c).

(** C27. After [signal_core_shutdown] nothing can be submitted: once the worker
    thread is joined, every call that would queue a command or acknowledge a
    message is refused and changes nothing, and a further shutdown does not
    wait for a worker again. *)
Theorem shutdown_refuses_calls local_aci config turns inner t s0 ch core core' call :
  exec (run_worker local_aci config turns inner) t (Done true) → ch_open ch = false → core_join core = true →
  signal_core_shutdown (worker_leaves (apply_updates s0 t) ch) (Some core) = Some core' →
  (∀ request_id, call ≠ CallCancelAttachment request_id) →
  ((ffi_call call (Some core')).1 ≠ StatusOk ∧
   ∃ after, (ffi_call call (Some core')).2 = Some after ∧ same_core core' after) ∧
  ∀ ended ended', signal_core_shutdown ended (Some core') = signal_core_shutdown ended' (Some core').
Proof.
  intros Hrun Hch Hj Hdown Hcall.
  destruct (ends_sound _ _ _ _ (run_worker_ends local_aci config turns inner) Hrun eq_refl s0) as [_ Hack]. unfold signal_core_shutdown in Hdown. simpl in Hdown. rewrite Hj in Hdown.
  injection Hdown as <-. split; [|done]. rewrite live_call_eq. cbn [fst snd].
  match goal with |- context [live_call call ?c] => destruct (closed_refuses call c) as [Hst Hs]; [done..|] end.
  split; [exact Hst|]. eexists. split; [done|exact Hs].
Qed.

End Teardown.

(** ** Runs

    A worker whose runtime cannot be built, and a core shut down after it. *)

#[local] Instance no_hex : HexDecoding := {| hex_decode := λ _, None |}.
#[local] Instance no_qr : QrLibrary := {| qr_new := λ _, Err "too long"; png_grayscale := λ _ _ _, Err "no memory" |}.

Definition broken_world (h : list (@entry (@backend_sig string_ids))) (o : @backend_op string_ids)
  : @backend_resp string_ids o :=
  match o return @backend_resp string_ids o with
  | OpBuildRuntime => Err "too many open files"
  | o => calm_world (Ids := string_ids) h o
  end.

Definition broken_worker := run_worker (Ids := string_ids) (Dig := plain_digests) (Enums := proto_numbers)
  "me" (mkConfig "/store" "laptop" (mkPassphrase "secret")) 3 9.

Definition broken_run := run (Sig := @backend_sig string_ids) broken_world broken_worker [].

Lemma broken_run_exec : exec (Sig := @backend_sig string_ids) broken_worker broken_run.1 (Done true).
Proof. exact (run_exec (Sig := @backend_sig string_ids) broken_world broken_worker []). Qed.

Definition stopped_core : SignalCore :=
  default ready_core (signal_core_shutdown
    (worker_leaves (Ids := string_ids) (apply_updates (Ids := string_ids) shared_default broken_run.1)
       (mkListChannel 128 [] false)) (Some ready_core)).

Lemma shutdown_refuses_calls_witness :
  (ffi_call sample_call (Some ready_core)).1 = StatusOk ∧ (ffi_call sample_call (Some stopped_core)).1 ≠ StatusOk.
Proof.
  split; [vm_compute; reflexivity|].
  apply (shutdown_refuses_calls (Ids := string_ids) (Dig := plain_digests) (Enums := proto_numbers) (Chan := list_channel)
    "me" (mkConfig "/store" "laptop" (mkPassphrase "secret")) 3 9 broken_run.1 shared_default
    (mkListChannel 128 [] false) ready_core stopped_core sample_call).
  - exact broken_run_exec.
  - reflexivity.
  - reflexivity.
  - reflexivity.
  - discriminate.
Defined.
