(* ===== verification/Purple.v ===== *)
(** * Purple: what the C plugin calls

    The plugin under [src/] is written against libpurple and GLib and calls the
    Rust core through [include/signal_core.h].  Objects of libpurple are opaque
    handles.  A call is an operation in the sense of [Effects]: a query, which
    only reads; an action, during which libpurple may emit the one signal the
    plugin listens to, so that the answer comes with the conversations it was
    emitted for; or a call of the core.  Answers are arbitrary.  Logging is left
    out. *)
From S2P Require Import Prelude Event Ffi Effects.

(** ** Values *)

Abbreviation Account := N (only parsing).
Abbreviation Conversation := N (only parsing).
Abbreviation Buddy := N (only parsing).
Abbreviation Contact := N (only parsing).
Abbreviation Chat := N (only parsing).
Abbreviation Group := N (only parsing).
Abbreviation Xfer := N (only parsing).

Inductive ConversationType := ConvIm | ConvChat | ConvOther.

#[export] Instance ConversationType_eq_dec : EqDecision ConversationType.
Proof. solve_decision. Defined.

Inductive MessageFlag :=
  FlagSend | FlagRecv | FlagRemoteSend | FlagImages | FlagError | FlagNoLog | FlagInvisible.

#[export] Instance MessageFlag_eq_dec : EqDecision MessageFlag.
Proof. solve_decision. Defined.

(** A set of flags. *)
Abbreviation MessageFlags := (list MessageFlag) (only parsing).

Inductive MemberFlag := MemberNone | MemberOp.

(** A node of the buddy list. *)
Inductive BlistNode := NodeChat (chat : Chat) | NodeBuddy (buddy : Buddy) | NodeOther.

Inductive NotifyKind := NotifyInfo | NotifyWarning | NotifyError.
Inductive ErrorReason := ReasonOther | ReasonNetwork | ReasonAuthentication.
Inductive ConnectionState := StateConnecting | StateConnected.

(** The callbacks handed to timers. *)
Inductive TimerCallback := TimerRetryReads | TimerGroupSync.

(** Who opened a request or a notification: the linking code, or the connection. *)
Inductive Handle := HandleLinkQr | HandleConnection.

(** Text functions of GLib and libpurple. *)
Class GLib := {
  g_markup_escape_text : string → string;
  purple_markup_strip_html : string → string;
  g_path_get_basename : string → string;
  g_ascii_strcase_equal : string → string → bool;
  g_strerror : Z → string;
}.

(** ** Operations *)

Inductive query : Type → Type :=
| PrivacyCheck (account : Account) (who : string) : query bool
| UserIgnored (conv : Conversation) (who : string) : query bool
| HasFocus (conv : Conversation) : query bool
| ConvAccount (conv : Conversation) : query Account
| ConvType (conv : Conversation) : query ConversationType
| ConvName (conv : Conversation) : query (option string)
| HasLeft (conv : Conversation) : query bool
| ConvChatId (conv : Conversation) : query Z
| ConvNick (conv : Conversation) : query (option string)
| FindConversation (type : ConversationType) (name : string) (account : Account) : query (option Conversation)
| BlistNodes : query (list BlistNode)
| NodeBool (node : BlistNode) (key : string) : query bool
| NodeString (node : BlistNode) (key : string) : query (option string)
| ChatAccount (chat : Chat) : query Account
| ChatComponent (chat : Chat) (key : string) : query (option string)
| ChatName (chat : Chat) : query (option string)
| ChatGroup (chat : Chat) : query (option Group)
| GroupName (group : Group) : query (option string)
| FindGroup (name : string) : query (option Group)
| FirstChild (group : Group) : query bool
| FindBuddy (account : Account) (name : string) : query (option Buddy)
| FindBuddies (account : Account) (name : option string) : query (list Buddy)
| BuddyAccount (buddy : Buddy) : query Account
| BuddyName (buddy : Buddy) : query (option string)
| BuddyServerAlias (buddy : Buddy) : query (option string)
| BuddyGroup (buddy : Buddy) : query (option Group)
| BuddyContact (buddy : Buddy) : query Contact
| AccountUsername (account : Account) : query (option string)
| AccountAlias (account : Account) : query (option string)
| AccountString (account : Account) (key : string) : query (option string)
| AccountProtocolId (account : Account) : query (option string)
| Now : query Z
| ImageStored (id : Z) : query bool
| AllXfers : query (list Xfer)
| XferFilename (xfer : Xfer) : query (option string)
| XferSize (xfer : Xfer) : query N
| XferCanceled (xfer : Xfer) : query bool
| XferCompleted (xfer : Xfer) : query bool.

Inductive action : Type → Type :=
| ServGotIm (who message : string) (flags : MessageFlags) (time : Z) : action unit
| ServGotChatIn (id : Z) (who : string) (flags : MessageFlags) (message : string) (time : Z) : action unit
| ServGotJoinedChat (id : Z) (name : string) : action (option Conversation)
| ServGotChatLeft (id : Z) : action unit
| ServGotTyping (who : string) (timeout : N) : action unit
| ServGotTypingStopped (who : string) : action unit
| ConversationNew (account : Account) (name : string) : action (option Conversation)
| ImWrite (conv : Conversation) (who : option string) (message : string) (flags : MessageFlags) (time : Z) : action unit
| ChatWrite (conv : Conversation) (who message : string) (flags : MessageFlags) (time : Z) : action unit
| ConversationWrite (conv : Conversation) (who message : string) (flags : MessageFlags) (time : Z) : action unit
| SetTitle (conv : Conversation) (title : string) : action unit
| SetNick (conv : Conversation) (nick : string) : action unit
| ClearUsers (conv : Conversation) : action unit
| AddUsers (conv : Conversation) (users : list (string * MemberFlag)) : action unit
| BuddyNew (account : Account) (name : string) : action Buddy
| ChatNew (account : Account) (title : string) (components : list (string * string)) : action Chat
| BlistAddBuddy (buddy : Buddy) : action unit
| BlistAddContact (contact : Contact) : action unit
| BlistAddChat (chat : Chat) : action unit
| BlistRemoveBuddy (buddy : Buddy) : action unit
| BlistRemoveChat (chat : Chat) : action unit
| BlistRemoveGroup (group : Group) : action unit
| BlistAliasChat (chat : Chat) (alias : string) : action unit
| BlistServerAlias (buddy : Buddy) (alias : option string) : action unit
| NodeSetBool (node : BlistNode) (key : string) (value : bool) : action unit
| NodeSetString (node : BlistNode) (key value : string) : action unit
| UserStatus (account : Account) (who status : string) : action unit
| SetUserIcon (account : Account) (who : string) (icon : option (list byte)) (checksum : option string) : action unit
| SetNodeIcon (node : BlistNode) (icon : option (list byte)) : action unit
| Notify (kind : NotifyKind) (title : string) (primary secondary : option string) : action unit
| NotifyUserinfo (who : string) (pairs : list (string * string)) : action unit
| RequestLinkQr (image : list byte) (uri : string) : action unit
| RequestLeave (request : N) (primary : string) : action bool
| CloseRequests (handle : Handle) : action unit
| CloseNotifications : action unit
| ConnectionProgress (text : string) (step : N) : action unit
| SetConnectionState (state : ConnectionState) : action unit
| ConnectionError (reason : ErrorReason) (text : string) : action unit
| AccountDisconnect (account : Account) : action unit
| TimeoutAdd (milliseconds : N) (callback : TimerCallback) : action N
| TimeoutRemove (id : N) : action unit
| ImageAdd (data : list byte) (filename : string) : action Z
| ImageUnref (id : Z) : action unit.

Inductive core_op : Type → Type :=
| CoreCall (call : Call) : core_op SignalStatus
| CorePoll : core_op (Z * option SignalEvent)%type
| CoreEventFree (event : SignalEvent) : core_op unit
| CoreNew (config : SignalCoreConfig) : core_op SignalStatus
| CoreEventFd : core_op Z
| CoreAbiVersion : core_op N
| CoreShutdown : core_op unit
| CoreFree : core_op unit.

(** *** Transfers

    While libpurple works on a transfer it may call the functions the plugin
    has registered on it.  [XferNew] says whether there is a new transfer;
    transfers the plugin makes are numbered by it.  [AllXfers] is answered with
    the transfers of others. *)

Inductive XferType := XferSend | XferReceive.
Inductive XferEvent := XferInit | XferStart | XferEnd | XferDenied | XferCancel.

(** The registered functions that ran, and the conversations that were updated. *)
Abbreviation xfer_run := (list XferEvent * list Conversation)%type.

Inductive xfer_op : Type → Type :=
| XferNew (account : Account) (type : XferType) (who : string) : xfer_op bool
| XferRef (xfer : Xfer) : xfer_op unit
| XferSetFilename (xfer : Xfer) (filename : string) : xfer_op unit
| XferSetSize (xfer : Xfer) (size : N) : xfer_op unit
| XferSetBytesSent (xfer : Xfer) (size : N) : xfer_op unit
| XferUpdateProgress (xfer : Xfer) : xfer_op unit
| XferSetCompleted (xfer : Xfer) : xfer_op unit
| XferReportError (xfer : Xfer) (text : string) : xfer_op unit
| XferWriteFile (xfer : Xfer) (data : list byte) : xfer_op (bool * xfer_run)%type
| XferUnref (xfer : Xfer) : xfer_op (list Conversation)
| XferStartOp (xfer : Xfer) : xfer_op xfer_run
| XferEndOp (xfer : Xfer) : xfer_op xfer_run
| XferCancelLocal (xfer : Xfer) : xfer_op xfer_run
| XferCancelRemote (xfer : Xfer) : xfer_op xfer_run
| XferRequest (xfer : Xfer) : xfer_op xfer_run
| XferRequestAccepted (xfer : Xfer) (filename : string) : xfer_op xfer_run.

(** *** The system, libsecret, gdk-pixbuf and the GLib main loop

    Errors of the system are [errno] values. *)

Inductive sys_op : Type → Type :=
| SysOpen (path : string) : sys_op (result N Z)
| SysFstat (fd : N) : sys_op (result (bool * Z) Z)
| SysRead (fd : N) (count : N) : sys_op (result (list byte) Z)
| SysClose (fd : N) : sys_op unit
| GuessMimeType (basename : string) (header : list byte) : sys_op (option string)
| GetRandom (count : N) : sys_op (result (list byte) Z)
| Mkdir (path : string) : sys_op (result unit Z)
| Chmod (path : string) : sys_op (result unit Z)
| UserDir : sys_op string
| UuidRandom : sys_op string
| Canonicalize (path : string) : sys_op string
| Sha256Hex (text : string) : sys_op string
| Base64Encode (bytes : list byte) : sys_op string
| SetAccountString (account : Account) (key value : string) : sys_op unit
| SecretLookup (store_id store_path : string) : sys_op (result (option string) string)
| SecretStore (label secret store_id store_path : string) : sys_op (result unit string)
| LoaderNew (type : string) : sys_op bool
| LoaderWrite (data : list byte) : sys_op (bool * list (Z * Z))%type
| LoaderClose : sys_op (bool * list (Z * Z))%type
| LoaderSetSize (width height : Z) : sys_op unit
| LoaderPixbuf : sys_op bool
| PollSourceAttach (fd : Z) : sys_op bool
| PollSourceDestroy : sys_op unit
| SignalConnect : sys_op unit
| SignalsDisconnect : sys_op unit
| SetProtocolData (set : bool) : sys_op unit.

(** [Order n] chooses the order in which a hash table with [n] entries is
    walked. *)
Inductive purple_op : Type :=
| Query {A} (q : query A)
| Act {A} (a : action A)
| Core {A} (c : core_op A)
| Transfer {A} (x : xfer_op A)
| Sys {A} (s : sys_op A)
| Order (n : nat).

Definition purple_resp (o : purple_op) : Type :=
  match o with
  | @Query A _ => A
  | @Act A _ => A * list Conversation
  | @Core A _ => A
  | @Transfer A _ => A
  | @Sys A _ => A
  | Order _ => list nat
  end.

(** Nothing here is awaited: a call returns before the plugin goes on. *)
#[export] Instance purple_sig : EffectSig :=
  {| op := purple_op; Resp := purple_resp; suspends := λ _, false |}.

(** ** The order of a hash table *)

Definition insert_at {A} (n : nat) (x : A) (l : list A) : list A := take n l ++ x :: drop n l.

(** Every permutation of [l] is [reorder code l] for some [code]. *)
Fixpoint reorder {A} (code : list nat) (l : list A) : list A :=
  match l with
  | [] => []
  | x :: l => insert_at (default 0 (head code)) x (reorder (tail code) l)
  end.

Lemma insert_at_perm {A} n (x : A) l : insert_at n x l ≡ₚ x :: l.
Proof. unfold insert_at. rewrite <-Permutation_middle. by rewrite take_drop. Qed.

Lemma reorder_perm {A} code (l : list A) : reorder code l ≡ₚ l.
Proof. revert code. induction l as [|x l IH]; intros code; simpl; [done|]. rewrite insert_at_perm. by f_equiv. Qed.

Lemma reorder_complete {A} (l k : list A) : l ≡ₚ k → ∃ code, reorder code l = k.
Proof.
  revert k. induction l as [|x l IH]; intros k Hp.
  - apply Permutation_nil in Hp as ->. by exists [].
  - assert (Hx : x ∈ k) by (rewrite <-Hp; left). apply list_elem_of_split in Hx as (k1&k2&->).
    destruct (IH (k1 ++ k2)) as [code Hcode].
    { apply (Permutation_cons_inv (a := x)). by rewrite Hp, Permutation_middle. }
    exists (length k1 :: code). simpl. rewrite Hcode. unfold insert_at. by rewrite take_app_length, drop_app_length.
Qed.
