(* ===== verification/PurpleWorld.v ===== *)
(** * PurpleWorld: a world to run the plugin in

    Answers for every call, so that programs of the plugin can be run on
    examples: a libpurple without conversations and an empty buddy list, a
    system whose files are readable, a core that accepts every call.  What is
    polled from the core and read from files is a script. *)
From Stdlib Require Import Strings.Byte.
From S2P Require Import Prelude Event Ffi Effects Purple.

#[export] Instance plain_glib : GLib := {|
  g_markup_escape_text := λ s, s;
  purple_markup_strip_html := λ s, s;
  g_path_get_basename := λ s, s;
  g_ascii_strcase_equal := String.eqb;
  g_strerror := λ _, "error";
|}.

Definition plain_query {A} (q : query A) : A :=
  match q in query A return A with
  | PrivacyCheck _ _ => true
  | UserIgnored _ _ | HasFocus _ | HasLeft _ | NodeBool _ _ | FirstChild _ | ImageStored _ | XferCanceled _
  | XferCompleted _ => false
  | ConvAccount _ | ChatAccount _ | BuddyAccount _ => 1%N
  | BuddyContact _ => 0%N
  | XferSize _ => 0%N
  | ConvType _ => ConvOther
  | ConvName _ | ConvNick _ | NodeString _ _ | ChatComponent _ _ | ChatName _ | GroupName _ | BuddyName _ | BuddyServerAlias _
  | AccountUsername _ | AccountAlias _ | AccountString _ _ | AccountProtocolId _ | XferFilename _ => None
  | ConvChatId _ | Now => 0%Z
  | FindConversation _ _ _ | ChatGroup _ | FindGroup _ | FindBuddy _ _ | BuddyGroup _ => None
  | BlistNodes => []
  | FindBuddies _ _ | AllXfers => []
  end.

Definition plain_action {A} (a : action A) : A :=
  match a in action A return A with
  | ServGotJoinedChat _ _ | ConversationNew _ _ => None
  | BuddyNew _ _ | ChatNew _ _ _ | TimeoutAdd _ _ => 7%N
  | RequestLeave _ _ => true
  | ImageAdd _ _ => 0%Z
  | _ => tt
  end.

Definition plain_xfer {A} (x : xfer_op A) : A :=
  match x in xfer_op A return A with
  | XferNew _ _ _ => true
  | XferWriteFile _ _ => (true, ([], []))
  | XferUnref _ => []
  | XferStartOp _ | XferEndOp _ | XferCancelLocal _ | XferCancelRemote _ | XferRequest _ | XferRequestAccepted _ _ => ([], [])
  | _ => tt
  end.

(** How often an operation was called. *)
Definition is_poll (e : entry (Sig := purple_sig)) : bool :=
  match projT1 e with Core CorePoll => true | _ => false end.
Definition is_read (e : entry (Sig := purple_sig)) : bool :=
  match projT1 e with Sys (SysRead _ _) => true | _ => false end.
Definition count (p : entry (Sig := purple_sig) → bool) (h : list (entry (Sig := purple_sig))) : nat :=
  length (filter (λ e, p e = true) h).

Section Script.
Variables (polls : list (Z * option SignalEvent)) (reads : list (result (list byte) Z)).

Definition plain_core {A} (h : list (entry (Sig := purple_sig))) (c : core_op A) : A :=
  match c in core_op A return A with
  | CoreCall _ | CoreNew _ => StatusOk
  | CorePoll => default (0%Z, None) (polls !! count is_poll h)
  | CoreEventFree _ | CoreShutdown | CoreFree => tt
  | CoreEventFd => 5%Z
  | CoreAbiVersion => ABI_VERSION
  end.

Definition plain_sys {A} (h : list (entry (Sig := purple_sig))) (o : sys_op A) : A :=
  match o in sys_op A return A with
  | SysOpen _ => Ok 3%N
  | SysFstat _ => Ok (true, 4%Z)
  | SysRead _ _ => default (Ok []) (reads !! count is_read h)
  | SysClose _ | SetAccountString _ _ _ | LoaderSetSize _ _ | PollSourceDestroy | SignalConnect | SignalsDisconnect
  | SetProtocolData _ => tt
  | GuessMimeType _ _ => None
  | GetRandom n => Ok (replicate (N.to_nat n) x00)
  | Mkdir _ | Chmod _ => Ok tt
  | UserDir | UuidRandom => "home"
  | Canonicalize path => path
  | Sha256Hex text => text
  | Base64Encode _ => "key"
  | SecretLookup _ _ => Ok None
  | SecretStore _ _ _ _ => Ok tt
  | LoaderNew _ | LoaderPixbuf | PollSourceAttach _ => true
  | LoaderWrite _ | LoaderClose => (true, [(1%Z, 1%Z)])
  end.

Definition plain_world (h : list (entry (Sig := purple_sig))) (o : op (EffectSig := purple_sig)) : Resp (EffectSig := purple_sig) o :=
  match o as o return purple_resp o with
  | Query q => plain_query q
  | Act a => (plain_action a, [])
  | Core c => plain_core h c
  | Transfer x => plain_xfer x
  | Sys s => plain_sys h s
  | Order _ => []
  end.

End Script.
