(* ===== verification/Plugin.v ===== *)
(** * Plugin: the state of a connection of the C plugin

    Models [struct _SignalConnection] of [src/signal_purple.h] with the records
    of [src/signal_purple_internal.h] and [src/contact_sync.h], and the constructor [signal_connection_new].
    Hash tables are finite maps and sets.  A function of the plugin is a
    program ([plugin]) that passes the state along.  Counters that are only
    logged and the function pointers, which only tests replace, are left out.

    Undefined behaviour is [Panic]: so is going on with a walk of a hash table
    that was changed meanwhile other than through the iterator. *)
From S2P Require Import Prelude Event Ffi Effects Purple.

(** ** Records *)

(** [SignalContactSync]. *)
Record ContactSync := mkSync { sync_active : bool; sync_seen : gset string }.

(** The key of a [SignalPendingRead]; the value in the table is [eligible]. *)
Record ReadKey := mkRead { read_peer : string; read_chat : option string; read_timestamp : N }.

#[export] Instance ReadKey_eq_dec : EqDecision ReadKey.
Proof. solve_decision. Defined.

#[export] Program Instance ReadKey_countable : Countable ReadKey :=
  inj_countable (λ k, (read_peer k, read_chat k, read_timestamp k)) (λ '(p, c, t), Some (mkRead p c t)) _.
Next Obligation. by intros []. Qed.

Record ReadState := mkReads {
  pending_reads : gmap ReadKey bool;
  pending_read_retry_id : N;
  pending_read_limit_warned : bool;
}.

Record GroupTables := mkGroups {
  group_ids_by_key : gmap string N;
  group_keys_by_id : gmap N string;
  group_titles_by_key : gmap string string;
  group_members_by_key : gmap string (list (string * MemberFlag));
  active_group_keys : gset string;
  pending_group_joins : gset string;
  pending_group_leaves : gset string;
  next_group_id : N;
  group_sync : ContactSync;
  group_snapshot_complete : bool;
  group_sync_fallback_timer_id : N;
}.

(** [SignalGroupLeaveRequest]; the id stands for its address. *)
Record LeaveRequest := mkLeaveRequest { leave_id : N; leave_group_key : string; leave_title : string }.

(** [SignalOutgoingAttachment] in the memory of the plugin; [out_connected] is
    whether its connection is not null. *)
Record OutgoingContext := mkOutgoing {
  out_connected : bool;
  out_recipient : string;
  out_request_id : N;
  out_group : bool;
}.

(** What the [data] of a transfer points to. *)
Inductive XferData := DataOutgoing (context : N) | DataIncoming (bytes : list byte).

(** The transfers: the functions registered on each, its [data], the allocated contexts by address, and
    the two tables of the connection. *)
Record TransferState := mkTransfers {
  xfer_functions : gmap Xfer XferType;
  xfer_data : gmap Xfer XferData;
  contexts : gmap N OutgoingContext;
  next_address : N;
  outgoing_attachments : gmap N Xfer;
  outgoing_attachment_contexts : gset N;
}.

(** [core] and [poll_source] are whether the pointers are not null. *)
Record SignalConnection := mkConnection {
  conn_account : Account;
  conn_core : bool;
  conn_poll_source : bool;
  conn_reads : ReadState;
  conn_groups : GroupTables;
  conn_contact_sync : ContactSync;
  conn_identity_changes_seen : gset string;
  conn_pending_identity_changes : gset string;
  conn_transfers : TransferState;
  conn_leave_requests : list LeaveRequest;
  conn_link_qr : option (list byte);
  conn_local_aci : option string;
  conn_remote_profile_name : option string;
  conn_next_request_id : N;
  conn_closing : bool;
}.

Definition sync_init : ContactSync := mkSync false ∅.

(** [signal_connection_new]. *)
Definition signal_connection_new (account : Account) : SignalConnection :=
  mkConnection account false false (mkReads ∅ 0 false)
    (mkGroups ∅ ∅ ∅ ∅ ∅ ∅ ∅ 1 sync_init false 0)
    sync_init ∅ ∅ (mkTransfers ∅ ∅ ∅ 1 ∅ ∅) [] None None None 1 false.

(** ** Assignments to fields *)

Definition on_reads (f : ReadState → ReadState) (c : SignalConnection) : SignalConnection :=
  mkConnection (conn_account c) (conn_core c) (conn_poll_source c) (f (conn_reads c)) (conn_groups c)
    (conn_contact_sync c) (conn_identity_changes_seen c) (conn_pending_identity_changes c) (conn_transfers c)
    (conn_leave_requests c) (conn_link_qr c) (conn_local_aci c) (conn_remote_profile_name c)
    (conn_next_request_id c) (conn_closing c).

Definition on_groups (f : GroupTables → GroupTables) (c : SignalConnection) : SignalConnection :=
  mkConnection (conn_account c) (conn_core c) (conn_poll_source c) (conn_reads c) (f (conn_groups c))
    (conn_contact_sync c) (conn_identity_changes_seen c) (conn_pending_identity_changes c) (conn_transfers c)
    (conn_leave_requests c) (conn_link_qr c) (conn_local_aci c) (conn_remote_profile_name c)
    (conn_next_request_id c) (conn_closing c).

Definition on_contact_sync (f : ContactSync → ContactSync) (c : SignalConnection) : SignalConnection :=
  mkConnection (conn_account c) (conn_core c) (conn_poll_source c) (conn_reads c) (conn_groups c)
    (f (conn_contact_sync c)) (conn_identity_changes_seen c) (conn_pending_identity_changes c) (conn_transfers c)
    (conn_leave_requests c) (conn_link_qr c) (conn_local_aci c) (conn_remote_profile_name c)
    (conn_next_request_id c) (conn_closing c).

(** The two tables of identity changes: seen and pending. *)
Definition on_identities (f : gset string * gset string → gset string * gset string) (c : SignalConnection)
  : SignalConnection :=
  let r := f (conn_identity_changes_seen c, conn_pending_identity_changes c) in
  mkConnection (conn_account c) (conn_core c) (conn_poll_source c) (conn_reads c) (conn_groups c)
    (conn_contact_sync c) r.1 r.2 (conn_transfers c)
    (conn_leave_requests c) (conn_link_qr c) (conn_local_aci c) (conn_remote_profile_name c)
    (conn_next_request_id c) (conn_closing c).

Definition on_transfers (f : TransferState → TransferState) (c : SignalConnection) : SignalConnection :=
  mkConnection (conn_account c) (conn_core c) (conn_poll_source c) (conn_reads c) (conn_groups c)
    (conn_contact_sync c) (conn_identity_changes_seen c) (conn_pending_identity_changes c) (f (conn_transfers c))
    (conn_leave_requests c) (conn_link_qr c) (conn_local_aci c) (conn_remote_profile_name c)
    (conn_next_request_id c) (conn_closing c).

Definition on_leave_requests (f : list LeaveRequest → list LeaveRequest) (c : SignalConnection) : SignalConnection :=
  mkConnection (conn_account c) (conn_core c) (conn_poll_source c) (conn_reads c) (conn_groups c)
    (conn_contact_sync c) (conn_identity_changes_seen c) (conn_pending_identity_changes c) (conn_transfers c)
    (f (conn_leave_requests c)) (conn_link_qr c) (conn_local_aci c) (conn_remote_profile_name c)
    (conn_next_request_id c) (conn_closing c).

Definition set_link_qr (qr : option (list byte)) (c : SignalConnection) : SignalConnection :=
  mkConnection (conn_account c) (conn_core c) (conn_poll_source c) (conn_reads c) (conn_groups c)
    (conn_contact_sync c) (conn_identity_changes_seen c) (conn_pending_identity_changes c) (conn_transfers c)
    (conn_leave_requests c) qr (conn_local_aci c) (conn_remote_profile_name c)
    (conn_next_request_id c) (conn_closing c).

Definition set_identity (aci profile : option string) (c : SignalConnection) : SignalConnection :=
  mkConnection (conn_account c) (conn_core c) (conn_poll_source c) (conn_reads c) (conn_groups c)
    (conn_contact_sync c) (conn_identity_changes_seen c) (conn_pending_identity_changes c) (conn_transfers c)
    (conn_leave_requests c) (conn_link_qr c) aci profile
    (conn_next_request_id c) (conn_closing c).

Definition set_next_request_id (id : N) (c : SignalConnection) : SignalConnection :=
  mkConnection (conn_account c) (conn_core c) (conn_poll_source c) (conn_reads c) (conn_groups c)
    (conn_contact_sync c) (conn_identity_changes_seen c) (conn_pending_identity_changes c) (conn_transfers c)
    (conn_leave_requests c) (conn_link_qr c) (conn_local_aci c) (conn_remote_profile_name c)
    id (conn_closing c).

(** [core], [poll_source] and [closing]. *)
Definition set_life (core poll_source closing : bool) (c : SignalConnection) : SignalConnection :=
  mkConnection (conn_account c) core poll_source (conn_reads c) (conn_groups c)
    (conn_contact_sync c) (conn_identity_changes_seen c) (conn_pending_identity_changes c) (conn_transfers c)
    (conn_leave_requests c) (conn_link_qr c) (conn_local_aci c) (conn_remote_profile_name c)
    (conn_next_request_id c) closing.

(** Assignments to single fields of the groups. *)
Definition set_ids (ids : gmap string N) (keys : gmap N string) (next : N) (g : GroupTables) : GroupTables :=
  mkGroups ids keys (group_titles_by_key g) (group_members_by_key g) (active_group_keys g) (pending_group_joins g)
    (pending_group_leaves g) next (group_sync g) (group_snapshot_complete g) (group_sync_fallback_timer_id g).
Definition set_titles (titles : gmap string string) (g : GroupTables) : GroupTables :=
  mkGroups (group_ids_by_key g) (group_keys_by_id g) titles (group_members_by_key g) (active_group_keys g)
    (pending_group_joins g) (pending_group_leaves g) (next_group_id g) (group_sync g) (group_snapshot_complete g)
    (group_sync_fallback_timer_id g).
Definition set_members (members : gmap string (list (string * MemberFlag))) (g : GroupTables) : GroupTables :=
  mkGroups (group_ids_by_key g) (group_keys_by_id g) (group_titles_by_key g) members (active_group_keys g)
    (pending_group_joins g) (pending_group_leaves g) (next_group_id g) (group_sync g) (group_snapshot_complete g)
    (group_sync_fallback_timer_id g).
Definition set_active (active : gset string) (g : GroupTables) : GroupTables :=
  mkGroups (group_ids_by_key g) (group_keys_by_id g) (group_titles_by_key g) (group_members_by_key g) active
    (pending_group_joins g) (pending_group_leaves g) (next_group_id g) (group_sync g) (group_snapshot_complete g)
    (group_sync_fallback_timer_id g).
Definition set_joins (joins : gset string) (g : GroupTables) : GroupTables :=
  mkGroups (group_ids_by_key g) (group_keys_by_id g) (group_titles_by_key g) (group_members_by_key g)
    (active_group_keys g) joins (pending_group_leaves g) (next_group_id g) (group_sync g) (group_snapshot_complete g)
    (group_sync_fallback_timer_id g).
Definition set_leaves (leaves : gset string) (g : GroupTables) : GroupTables :=
  mkGroups (group_ids_by_key g) (group_keys_by_id g) (group_titles_by_key g) (group_members_by_key g)
    (active_group_keys g) (pending_group_joins g) leaves (next_group_id g) (group_sync g) (group_snapshot_complete g)
    (group_sync_fallback_timer_id g).
Definition set_group_sync (sync : ContactSync) (g : GroupTables) : GroupTables :=
  mkGroups (group_ids_by_key g) (group_keys_by_id g) (group_titles_by_key g) (group_members_by_key g)
    (active_group_keys g) (pending_group_joins g) (pending_group_leaves g) (next_group_id g) sync
    (group_snapshot_complete g) (group_sync_fallback_timer_id g).
Definition set_snapshot_complete (complete : bool) (g : GroupTables) : GroupTables :=
  mkGroups (group_ids_by_key g) (group_keys_by_id g) (group_titles_by_key g) (group_members_by_key g)
    (active_group_keys g) (pending_group_joins g) (pending_group_leaves g) (next_group_id g) (group_sync g)
    complete (group_sync_fallback_timer_id g).
Definition set_fallback_timer (timer : N) (g : GroupTables) : GroupTables :=
  mkGroups (group_ids_by_key g) (group_keys_by_id g) (group_titles_by_key g) (group_members_by_key g)
    (active_group_keys g) (pending_group_joins g) (pending_group_leaves g) (next_group_id g) (group_sync g)
    (group_snapshot_complete g) timer.

(** ** Programs *)

Definition plugin (A : Type) : Type := SignalConnection → proc (SignalConnection * A).

#[export] Instance plugin_ret : MRet plugin := λ A a s, Ret (s, a).
#[export] Instance plugin_bind : MBind plugin := λ A B f m s, proc_bind (λ r, f r.2 r.1) (m s).

Definition get : plugin SignalConnection := λ s, Ret (s, s).
Definition gets {A} (f : SignalConnection → A) : plugin A := λ s, Ret (s, f s).
Definition modify (f : SignalConnection → SignalConnection) : plugin unit := λ s, Ret (f s, tt).
Definition undefined {A} (why : string) : plugin A := λ _, Panic why.

(** One call. *)
Definition call (o : purple_op) : plugin (purple_resp o) :=
  λ s, Step (Sig := purple_sig) o (λ r, Ret (s, r)).
Definition ask {A} (q : query A) : plugin A := call (Query q).
Definition core {A} (c : core_op A) : plugin A := call (Core c).
Definition sys {A} (o : sys_op A) : plugin A := call (Sys o).

(** A call during which no signal reaches the plugin. *)
Definition act_quietly {A} (a : action A) : plugin A := r ← call (Act a); mret r.1.

(** [for x in l]. *)
Fixpoint each {A} (l : list A) (f : A → plugin unit) : plugin unit :=
  match l with
  | [] => mret tt
  | x :: l => _ ← f x; each l f
  end.

(** [if (b) { ... }]. *)
Definition when (b : bool) (m : plugin unit) : plugin unit := if b then m else mret tt.

(** [if (x != NULL) { ... }]. *)
Definition when_some {A} (o : option A) (f : A → plugin unit) : plugin unit :=
  match o with Some a => f a | None => mret tt end.

(** [connection->next_request_id++]. *)
Definition take_request_id : plugin N :=
  s ← get;
  _ ← modify (set_next_request_id (wrapping_add u64_max (conn_next_request_id s) 1));
  mret (conn_next_request_id s).

(** ** Walking a hash table

    [g_hash_table_iter_next] on a table whose keys are no longer those the
    iterator knows is undefined.  The body says what it did with the current
    key: nothing, [g_hash_table_iter_remove], or [break]. *)

Inductive Verdict := Keep | Remove | Stop.

Section Iteration.
Context {K : Type} `{Countable K}.
Variables (table : SignalConnection → gset K) (remove : K → SignalConnection → SignalConnection).
Variable body : K → plugin Verdict.

Definition iter_check (expected : gset K) : plugin unit :=
  s ← get; if decide (table s = expected) then mret tt else undefined "iterator of a changed hash table".

Fixpoint iter_loop (expected : gset K) (todo : list K) : plugin unit :=
  match todo with
  | [] => iter_check expected
  | k :: todo =>
      _ ← iter_check expected;
      verdict ← body k;
      match verdict with
      | Keep => iter_loop expected todo
      | Remove => _ ← iter_check expected; _ ← modify (remove k); iter_loop (expected ∖ {[k]}) todo
      | Stop => mret tt
      end
  end.

Definition iterate : plugin unit :=
  s ← get;
  order ← call (Order (size (table s)));
  iter_loop (table s) (reorder order (elements (table s))).

End Iteration.

(** ** Strings *)

(** [s != NULL && s[0] != '\0']. *)
Definition present (s : option string) : bool := is_some_and s (λ v, negb (is_empty v)).

(** The same as a pattern. *)
Definition filled (s : option string) : option string := non_empty s.

(** ** Traces *)

Abbreviation call_entry := (entry (Sig := purple_sig)).

(** A call of the core with its answer. *)
Definition core_result (e : call_entry) : option (Call * SignalStatus) :=
  match e with
  | existT o r =>
      match o as o return purple_resp o → option (Call * SignalStatus) with
      | Core c =>
          match c in core_op A return A → option (Call * SignalStatus) with
          | CoreCall call => λ status, Some (call, status)
          | _ => λ _, None
          end
      | _ => λ _, None
      end r
  end.

Definition core_calls (t : list call_entry) : list (Call * SignalStatus) := omap core_result t.

Lemma core_calls_app t t' : core_calls (t ++ t') = core_calls t ++ core_calls t'.
Proof. apply omap_app. Qed.

(** ** Reasoning

    [pends ub m s Q]: run from [s], [m] comes to its end with state, result and
    trace as [Q] says, or behaves in an undefined way if [ub] allows that. *)
Definition plugin_spec (ub : Prop) : spec (Sig := purple_sig) :=
  mkSpecification any_answer (λ _ _, True) (λ _ _, True) (λ _ _, ub).

Definition pends (ub : Prop) {A} (m : plugin A) (s : SignalConnection)
  (Q : SignalConnection → A → list call_entry → Prop) : Prop :=
  ∀ h, wp (plugin_spec ub) (m s) (λ r h', ∃ t, h' = h ++ t ∧ Q r.1 r.2 t) h.

(** *** Relations between the state before, the trace and the state after

    An invariant, a part of the state that stays the same and a restriction on
    the calls are all such relations; what holds of every step holds of the
    program. *)
Class TraceOrder (R : SignalConnection → list call_entry → SignalConnection → Prop) := {
  trace_refl s : R s [] s;
  trace_trans s t s' t' s'' : R s t s' → R s' t' s'' → R s (t ++ t') s'';
}.

Section Reasoning.
Variable ub : Prop.

Lemma pends_sound {A} (m : plugin A) s Q t out :
  pends ub m s Q → exec (m s) t out →
  match out with Done (s', a) => Q s' a t | Panicked _ => ub | Cancelled _ => False end.
Proof.
  intros Hm Hex. destruct (wp_sound _ _ _ [] t out (Hm []) Hex (any_answer_legal _ _)) as [_ Hout].
  destruct out as [[s' a]|o|why]; [destruct Hout as (t'&Heq&HQ); simpl in Heq; by subst| |exact Hout].
  clear Hm Hout. remember (Cancelled o) as out. induction Hex; simplify_eq/=; auto.
Qed.

Lemma pends_ret {A} (a : A) s (Q : SignalConnection → A → list call_entry → Prop) : Q s a [] → pends ub (mret a) s Q.
Proof. intros HQ h. exists []. by rewrite app_nil_r. Qed.

Lemma pends_mono {A} (m : plugin A) s (Q Q' : SignalConnection → A → list call_entry → Prop) :
  pends ub m s Q → (∀ s' a t, Q s' a t → Q' s' a t) → pends ub m s Q'.
Proof. intros Hm HQ h. eapply wp_mono; [|apply Hm]. intros [s' a] h' (t&->&Ht). eauto. Qed.

Lemma pends_bind {A B} (m : plugin A) (k : A → plugin B) s P Q :
  pends ub m s P → (∀ s' a t, P s' a t → pends ub (k a) s' (λ s'' b t', Q s'' b (t ++ t'))) → pends ub (m ≫= k) s Q.
Proof.
  intros Hm Hk h. apply (wp_call _ (m s) (λ r, k r.2 r.1) _ _ h (Hm h)). intros [s' a] h' (t&->&HP).
  eapply wp_mono; [|exact (Hk s' a t HP _)]. intros [s'' b] h'' (t'&->&HQ). exists (t ++ t'). by rewrite app_assoc.
Qed.

Lemma pends_get s Q : Q s s [] → pends ub get s Q.
Proof. intros HQ. by apply pends_ret. Qed.

Lemma pends_gets {A} (f : SignalConnection → A) s Q : Q s (f s) [] → pends ub (gets f) s Q.
Proof. intros HQ h. exists []. by rewrite app_nil_r. Qed.

Lemma pends_modify f s Q : Q (f s) tt [] → pends ub (modify f) s Q.
Proof. intros HQ h. exists []. by rewrite app_nil_r. Qed.

Lemma pends_undefined {A} why s Q : ub → pends ub (A := A) (undefined why) s Q.
Proof. by intros Hub h. Qed.

Lemma pends_call o s (Q : SignalConnection → purple_resp o → list call_entry → Prop) :
  (∀ r, Q s r [answered (Sig := purple_sig) o r]) → pends ub (call o) s Q.
Proof.
  intros HQ h. split; [done|]. intros r _. split; [done|]. exists [answered (Sig := purple_sig) o r]. split; [done|].
  apply HQ.
Qed.

Lemma pends_and {A} (m : plugin A) s (Q Q' : SignalConnection → A → list call_entry → Prop) :
  pends ub m s Q → pends ub m s Q' → pends ub m s (λ s' a t, Q s' a t ∧ Q' s' a t).
Proof.
  intros HQ HQ' h. eapply wp_mono; [|apply wp_and; [apply HQ|apply HQ']].
  intros [s' a] h' [(t&->&Ht) (t'&Heq&Ht')]. apply app_inv_head in Heq as <-. eauto.
Qed.

(** Following a program. *)

Lemma pends_get_bind {B} (k : SignalConnection → plugin B) s Q : pends ub (k s) s Q → pends ub (get ≫= k) s Q.
Proof. intros Hk h. apply (Hk h). Qed.

Lemma pends_gets_bind {A B} (f : SignalConnection → A) (k : A → plugin B) s Q :
  pends ub (k (f s)) s Q → pends ub (gets f ≫= k) s Q.
Proof. intros Hk h. apply (Hk h). Qed.

Lemma pends_modify_bind {B} f (k : unit → plugin B) s Q : pends ub (k tt) (f s) Q → pends ub (modify f ≫= k) s Q.
Proof. intros Hk h. apply (Hk h). Qed.

Lemma pends_ret_bind {A B} (a : A) (k : A → plugin B) s Q : pends ub (k a) s Q → pends ub (mret a ≫= k) s Q.
Proof. intros Hk h. apply (Hk h). Qed.

Lemma pends_call_bind {B} o (k : purple_resp o → plugin B) s Q :
  (∀ r, pends ub (k r) s (λ s' b t, Q s' b (answered (Sig := purple_sig) o r :: t))) → pends ub (call o ≫= k) s Q.
Proof.
  intros Hk. eapply pends_bind; [by apply (pends_call _ s (λ s' r t, s' = s ∧ t = [answered (Sig := purple_sig) o r]))|].
  intros ? r ? [-> ->]. apply Hk.
Qed.

Lemma pends_assoc {A B C} (m : plugin A) (f : A → plugin B) (k : B → plugin C) s Q :
  pends ub (m ≫= λ a, f a ≫= k) s Q → pends ub ((m ≫= f) ≫= k) s Q.
Proof.
  intros Hm h. specialize (Hm h). apply (wp_bind _ (m s) (λ r, (f r.2 ≫= k) r.1)) in Hm.
  apply (wp_bind _ ((m ≫= f) s) (λ r, k r.2 r.1)). apply (wp_bind _ (m s) (λ r, f r.2 r.1)).
  eapply wp_mono; [|exact Hm]. intros [s' a] h' Hwp. exact (proj1 (wp_bind _ (f a s') (λ r, k r.2 r.1) _ _) Hwp).
Qed.

Section Respects.
Context (R : SignalConnection → list call_entry → SignalConnection → Prop) `{!TraceOrder R}.

Definition respects {A} (m : plugin A) : Prop := ∀ s, pends ub m s (λ s' _ t, R s t s').

Lemma respects_mono (R' : SignalConnection → list call_entry → SignalConnection → Prop) {A} (m : plugin A) :
  (∀ s t s', R' s t s' → R s t s') → (∀ s, pends ub m s (λ s' _ t, R' s t s')) → respects m.
Proof. intros HR Hm s. eapply pends_mono; [apply Hm|]. intros s' ? t. apply HR. Qed.

Lemma respects_ret {A} (a : A) : respects (mret a).
Proof. intros s. apply pends_ret, trace_refl. Qed.

Lemma respects_bind {A B} (m : plugin A) (k : A → plugin B) :
  respects m → (∀ a, respects (k a)) → respects (m ≫= k).
Proof.
  intros Hm Hk s. eapply pends_bind; [apply Hm|]. intros s' a t Ht. eapply pends_mono; [apply Hk|].
  intros s'' b t' Ht'. exact (trace_trans _ _ _ _ _ Ht Ht').
Qed.

Lemma respects_get : respects get.
Proof. intros s. apply pends_get, trace_refl. Qed.

(** What was read may be used for the rest, as long as the rest is right when
    started from there. *)
Lemma respects_get_bind {B} (k : SignalConnection → plugin B) :
  (∀ s, pends ub (k s) s (λ s' _ t, R s t s')) → respects (get ≫= k).
Proof.
  intros Hk s. apply pends_get_bind, Hk.
Qed.

Lemma respects_gets {A} (f : SignalConnection → A) : respects (gets f).
Proof. intros s. apply pends_gets, trace_refl. Qed.

Lemma respects_modify f : (∀ s, R s [] (f s)) → respects (modify f).
Proof. intros Hf s. apply pends_modify, Hf. Qed.

Lemma respects_call o : (∀ s r, R s [answered (Sig := purple_sig) o r] s) → respects (call o).
Proof. intros Ho s. apply pends_call. intros r. apply Ho. Qed.

Lemma respects_each {A} (l : list A) f : (∀ x, respects (f x)) → respects (each l f).
Proof.
  intros Hf. induction l as [|x l IH]; simpl; [apply respects_ret|]. apply respects_bind; [apply Hf|]. intros _. exact IH.
Qed.

Lemma respects_when b m : respects m → respects (when b m).
Proof. intros Hm. destruct b; [exact Hm|apply respects_ret]. Qed.

Lemma respects_when_some {A} (o : option A) f : (∀ a, respects (f a)) → respects (when_some o f).
Proof. intros Hf. destruct o; [apply Hf|apply respects_ret]. Qed.

(** *** Walks *)

Section Walks.
Context {K : Type} `{Countable K}.
Context (table : SignalConnection → gset K) (remove : K → SignalConnection → SignalConnection) (body : K → plugin Verdict).

Lemma pends_iter_check expected s Q : table s = expected → Q s tt [] → pends ub (iter_check table expected) s Q.
Proof.
  intros Ht HQ. apply pends_get_bind. rewrite decide_True by done. by apply pends_ret.
Qed.

(** A walk whose body leaves the keys alone is defined. *)
Lemma respects_iterate :
  (∀ n s r, R s [answered (Sig := purple_sig) (Order n) r] s) →
  (∀ k s, pends ub (body k) s (λ s' v t, table s' = table s ∧ R s t s' ∧
     (v = Remove → table (remove k s') = table s' ∖ {[k]} ∧ R s' [] (remove k s')))) →
  respects (iterate table remove body).
Proof.
  intros Horder Hbody.
  assert (Hloop : ∀ todo s expected, table s = expected →
    pends ub (iter_loop table remove body expected todo) s (λ s' _ t, R s t s')).
  { induction todo as [|k todo IH]; intros s expected Ht; simpl.
    - apply pends_iter_check; [done|apply trace_refl].
    - eapply pends_bind; [by apply (pends_iter_check _ _ (λ s' _ t, s' = s ∧ t = []))|]. intros ? ? ? [-> ->].
      eapply pends_bind; [apply Hbody|]. intros s' v t (Ht'&HR&Hrem). destruct v; simpl.
      + eapply pends_mono; [apply IH; congruence|]. intros. by eapply trace_trans.
      + eapply pends_bind; [apply (pends_iter_check _ _ (λ s2 _ t, s2 = s' ∧ t = [])); [congruence|done]|].
        intros ? ? ? [-> ->]. destruct (Hrem eq_refl) as [Hk HRk].
        apply pends_modify_bind. eapply pends_mono; [apply IH; congruence|]. intros s2 ? t2 HR2. simpl.
        eapply trace_trans; [exact HR|]. change t2 with ([] ++ t2). by eapply trace_trans.
      + apply pends_ret. simpl. by rewrite app_nil_r. }
  intros s. apply pends_get_bind, pends_call_bind. intros order. eapply pends_mono; [by apply Hloop|]. intros s' ? t HR.
  exact (trace_trans _ _ _ _ _ (Horder _ _ _) HR).
Qed.

End Walks.
End Respects.
End Reasoning.

(** *** What is known apart from undefined behaviour *)

Lemma pends_any {A} (m : plugin A) s : pends True m s (λ _ _ _, True).
Proof.
  assert (Hp : ∀ (p : proc (SignalConnection * A)) h t0,
    wp (plugin_spec True) p (λ r h', ∃ t, h' = h ++ t ∧ True) (h ++ t0)).
  { induction p as [a|o k IH|why]; intros h t0; simpl; [eauto| |done].
    split; [done|]. intros r _. split; [done|]. rewrite <-app_assoc. apply IH. }
  intros h. specialize (Hp (m s) h []). by rewrite app_nil_r in Hp.
Qed.

Lemma pends_strengthen {A} (m : plugin A) s (Q Q' : SignalConnection → A → list call_entry → Prop) :
  pends False m s Q → pends True m s Q' → pends False m s (λ s' a t, Q s' a t ∧ Q' s' a t).
Proof.
  assert (Hp : ∀ (p : proc (SignalConnection * A)) h0 h,
    wp (plugin_spec False) p (λ r h', ∃ t, h' = h0 ++ t ∧ Q r.1 r.2 t) h →
    wp (plugin_spec True) p (λ r h', ∃ t, h' = h0 ++ t ∧ Q' r.1 r.2 t) h →
    wp (plugin_spec False) p (λ r h', ∃ t, h' = h0 ++ t ∧ Q r.1 r.2 t ∧ Q' r.1 r.2 t) h).
  { induction p as [a|o k IH|why]; intros h0 h; simpl; [| |done].
    - intros (t&->&Ht) (t'&Heq&Ht'). apply app_inv_head in Heq as <-. eauto.
    - intros [_ H] [_ H']. split; [done|]. intros r _. destruct (H r I) as [_ Hr], (H' r I) as [_ Hr']. auto. }
  intros HQ HQ' h. by apply Hp.
Qed.

Lemma pends_weaken {A} (m : plugin A) s (Q : SignalConnection → A → list call_entry → Prop) :
  pends False m s Q → pends True m s Q.
Proof.
  intros HQ h. specialize (HQ h). revert HQ. generalize (m s), h at 2 4. intros p.
  induction p as [a|o k IH|why]; intros h0; simpl; [done| |done].
  intros [_ H]. split; [done|]. intros r _. destruct (H r I) as [_ Hr]. auto.
Qed.

(** Whatever happens, the result is as [P] says. *)
Definition returns {A} (m : plugin A) (P : A → Prop) : Prop := ∀ s, pends True m s (λ _ a _, P a).

Lemma returns_ret {A} (a : A) (P : A → Prop) : P a → returns (mret a) P.
Proof. intros HP s. by apply pends_ret. Qed.

Lemma returns_bind_with {A B} (m : plugin A) (k : A → plugin B) P Q :
  returns m P → (∀ a, P a → returns (k a) Q) → returns (m ≫= k) Q.
Proof. intros Hm Hk s. eapply pends_bind; [apply Hm|]. intros s' a t HP. by apply Hk. Qed.

Lemma returns_bind {A B} (m : plugin A) (k : A → plugin B) P : (∀ a, returns (k a) P) → returns (m ≫= k) P.
Proof. intros Hk. apply returns_bind_with with (λ _, True); [intros s; apply pends_any|]. auto. Qed.

(** One step of a program. *)
Ltac pstep :=
  lazymatch goal with
  | |- pends _ (mret _ ≫= _) _ _ => apply pends_ret_bind
  | |- pends _ (get ≫= _) _ _ => apply pends_get_bind
  | |- pends _ (gets _ ≫= _) _ _ => apply pends_gets_bind
  | |- pends _ (modify _ ≫= _) _ _ => apply pends_modify_bind
  | |- pends _ (call _ ≫= _) _ _ => let r := fresh "r" in apply pends_call_bind; intros r
  | |- pends _ (ask _ ≫= _) _ _ => let r := fresh "r" in apply pends_call_bind; cbn [purple_resp]; intros r
  | |- pends _ (core _ ≫= _) _ _ => let r := fresh "r" in apply pends_call_bind; cbn [purple_resp]; intros r
  | |- pends _ (sys _ ≫= _) _ _ => let r := fresh "r" in apply pends_call_bind; cbn [purple_resp]; intros r
  | |- pends _ (act_quietly _ ≫= _) _ _ => unfold act_quietly; apply pends_assoc
  | |- pends _ ((_ ≫= _) ≫= _) _ _ => apply pends_assoc
  | |- pends _ (mret _) _ _ => apply pends_ret
  | |- pends _ get _ _ => apply pends_get
  | |- pends _ (modify _) _ _ => apply pends_modify
  | |- pends _ (call _) _ _ => let r := fresh "r" in apply pends_call; intros r
  | |- pends _ (ask _) _ _ => let r := fresh "r" in apply pends_call; cbn [purple_resp]; intros r
  | |- pends _ (core _) _ _ => let r := fresh "r" in apply pends_call; cbn [purple_resp]; intros r
  | |- pends _ (sys _) _ _ => let r := fresh "r" in apply pends_call; cbn [purple_resp]; intros r
  | |- pends _ (act_quietly _) _ _ => unfold act_quietly
  end; cbv beta.
