(* ===== verification/ReadReceipts.v ===== *)
(** * ReadReceipts: telling Signal what was read

    Models the pending reads of [src/connection.c]: a receipt is held until the
    conversation has the focus, sent through the core, kept while the core is
    not ready or its queue is full, and forgotten once it is accepted or
    rejected.  [act] is a call of libpurple with the handler of its
    conversation-updated signal, which flushes receipts. *)
From S2P Require Import Prelude Event Ffi Effects Purple PurpleWorld Plugin.

Definition SIGNAL_MAX_PENDING_READS : N := 4096.
Definition SIGNAL_PENDING_READ_RETRY_MILLISECONDS : N := 100.

(** [(event->flags & SIGNAL_EVENT_FLAG_OUTGOING) != 0], and the like. *)
Definition has_flag (flag : N) (event : Event) : bool := negb (N.land (ev_flags event) flag =? 0)%N.

(** The bytes of a C string that is handed to the core. *)
Definition c_arg (s : string) : option (list byte) := Some (bytes_of s).

Definition set_pending_reads (reads : gmap ReadKey bool) (r : ReadState) : ReadState :=
  mkReads reads (pending_read_retry_id r) (pending_read_limit_warned r).
Definition set_retry_id (id : N) (r : ReadState) : ReadState :=
  mkReads (pending_reads r) id (pending_read_limit_warned r).
Definition set_limit_warned (warned : bool) (r : ReadState) : ReadState :=
  mkReads (pending_reads r) (pending_read_retry_id r) warned.

(** The number of pending reads, and their keys. *)
Definition reads_size (s : SignalConnection) : N := N.of_nat (size (pending_reads (conn_reads s))).
Definition reads_table (s : SignalConnection) : gset ReadKey := dom (pending_reads (conn_reads s)).
Definition remove_read (k : ReadKey) : SignalConnection → SignalConnection :=
  on_reads (λ r, set_pending_reads (delete k (pending_reads r)) r).

Definition signal_send_read (read : ReadKey) : plugin SignalStatus :=
  s ← get;
  if negb (conn_core s) then mret NotReady
  else
    id ← take_request_id;
    core (CoreCall (CallMarkRead id (c_arg (read_peer read)) (read_timestamp read))).

Definition signal_pending_read_matches (read : ReadKey) (direct_peer group_key : option string) : bool :=
  match read_chat read with
  | Some chat => bool_decide (Some chat = group_key)
  | None => bool_decide (Some (read_peer read) = direct_peer)
  end.

(** The walk only sets [eligible] of the matching entries. *)
Definition signal_mark_pending_reads_eligible (direct_peer group_key : option string) : plugin unit :=
  modify (on_reads (λ r, set_pending_reads
    (map_imap (λ k eligible, Some (signal_pending_read_matches k direct_peer group_key || eligible)) (pending_reads r)) r)).

Definition signal_schedule_pending_read_retry : plugin unit :=
  s ← get;
  if (pending_read_retry_id (conn_reads s) =? 0)%N && negb (conn_closing s) && conn_core s
  then
    id ← act_quietly (TimeoutAdd SIGNAL_PENDING_READ_RETRY_MILLISECONDS TimerRetryReads);
    modify (on_reads (set_retry_id id))
  else mret tt.

(** One turn of the loop of [signal_flush_pending_reads]. *)
Definition flush_read (read : ReadKey) : plugin Verdict :=
  s ← get;
  if negb (default false (pending_reads (conn_reads s) !! read)) then mret Keep
  else
    status ← signal_send_read read;
    match status with
    | StatusOk => mret Remove
    | QueueFull => _ ← signal_schedule_pending_read_retry; mret Stop
    | NotReady => mret Stop
    | InvalidArgument | InternalError => mret Remove
    end.

(** [pending_read_limit_warned] is reset below the limit. *)
Definition forget_limit_warning : plugin unit :=
  s ← get;
  when (reads_size s <? SIGNAL_MAX_PENDING_READS)%N (modify (on_reads (set_limit_warned false))).

Definition signal_flush_pending_reads : plugin unit :=
  _ ← iterate reads_table remove_read flush_read;
  forget_limit_warning.

(** The timer of [signal_schedule_pending_read_retry]. *)
Definition signal_retry_pending_reads : plugin unit :=
  _ ← modify (on_reads (set_retry_id 0));
  s ← get;
  when (negb (conn_closing s) && conn_core s) signal_flush_pending_reads.

(** Once the key of the read is known. *)
Definition queue_read_key (conversation : option Conversation) (key : ReadKey) : plugin unit :=
  s ← get;
  let exists_ := bool_decide (is_Some (pending_reads (conn_reads s) !! key)) in
  focused ← match conversation with Some conv => ask (HasFocus conv) | None => mret false end;
  _ ← when focused
        (signal_mark_pending_reads_eligible
           (match read_chat key with None => Some (read_peer key) | Some _ => None end) (read_chat key));
  if exists_ then when focused signal_flush_pending_reads
  else
    s ← get;
    _ ← when (SIGNAL_MAX_PENDING_READS <=? reads_size s)%N signal_flush_pending_reads;
    s ← get;
    if (SIGNAL_MAX_PENDING_READS <=? reads_size s)%N then modify (on_reads (set_limit_warned true))
    else
      _ ← modify (on_reads (λ r, set_pending_reads (<[key := focused]> (pending_reads r)) r));
      when focused signal_flush_pending_reads.

Definition signal_queue_read (conversation : option Conversation) (event : Event) : plugin unit :=
  match ev_peer_id event with
  | Some peer =>
      if has_flag FLAG_OUTGOING event || (ev_timestamp_ms event =? 0)%N then mret tt
      else queue_read_key conversation (mkRead peer (ev_chat_id event) (ev_timestamp_ms event))
  | None => mret tt
  end.

Definition signal_queue_final_read (conversation : option Conversation) (event : Event) : plugin unit :=
  when (negb (ev_request_id event =? 0)%N) (signal_queue_read conversation event).

(** The handler of conversation-updated. *)
Definition signal_conversation_updated (conv : Conversation) : plugin unit :=
  s ← get;
  if conn_closing s then mret tt
  else
    focused ← ask (HasFocus conv);
    if negb focused then mret tt
    else
      account ← ask (ConvAccount conv);
      if negb (account =? conn_account s)%N then mret tt
      else
        type ← ask (ConvType conv);
        names ← match type with
                | ConvIm => name ← ask (ConvName conv); mret (name, None)
                | ConvChat =>
                    name ← ask (ConvName conv);
                    match name with
                    | None => mret (None, None)
                    | Some name =>
                        left ← ask (HasLeft conv);
                        s ← get;
                        mret (None, if negb left && bool_decide (is_Some (group_ids_by_key (conn_groups s) !! name))
                                    then Some name else None)
                    end
                | ConvOther => mret (None, None)
                end;
        _ ← signal_mark_pending_reads_eligible names.1 names.2;
        signal_flush_pending_reads.

(** A call of libpurple, with the signals it emitted. *)
Definition act {A} (a : action A) : plugin A :=
  r ← call (Act a);
  _ ← each r.2 signal_conversation_updated;
  mret r.1.

Definition signal_event_can_present (conversation : option Conversation) (event : Event) : plugin bool :=
  s ← get;
  if has_flag FLAG_OUTGOING event then mret true
  else
    let peer := default "" (ev_peer_id event) in
    match ev_chat_id event, conversation with
    | None, _ => ask (PrivacyCheck (conn_account s) peer)
    | Some _, None => mret true
    | Some _, Some conv => ignored ← ask (UserIgnored conv peer); mret (negb ignored)
    end.

(** ** Flushing *)

Definition settles (status : SignalStatus) : bool :=
  match status with QueueFull | NotReady => false | _ => true end.

(** The receipts the core was asked to send, with its answers. *)
Definition receipts (t : list call_entry) : list (option (list byte) * N * SignalStatus) :=
  omap (λ c, match c with (CallMarkRead _ peer timestamp, status) => Some (peer, timestamp, status) | _ => None end)
    (core_calls t).

Lemma receipts_app t t' : receipts (t ++ t') = receipts t ++ receipts t'.
Proof. unfold receipts. by rewrite core_calls_app, omap_app. Qed.

Definition receipt (p : ReadKey * SignalStatus) : option (list byte) * N * SignalStatus :=
  (c_arg (read_peer p.1), read_timestamp p.1, p.2).

(** What a walk over [todo] does to the pending reads: which receipts it sent
    with which answers, and what it left. *)
Inductive flushes (core : bool) : gmap ReadKey bool → list ReadKey → list (ReadKey * SignalStatus) →
  gmap ReadKey bool → Prop :=
| flushes_nil reads : flushes core reads [] [] reads
| flushes_skip reads k todo sent reads' :
    reads !! k ≠ Some true → flushes core reads todo sent reads' → flushes core reads (k :: todo) sent reads'
| flushes_settled reads k todo status sent reads' :
    reads !! k = Some true → settles status = true → flushes core (delete k reads) todo sent reads' →
    flushes core reads (k :: todo) ((k, status) :: sent) reads'
| flushes_stop reads k todo status :
    reads !! k = Some true → settles status = false → flushes core reads (k :: todo) [(k, status)] reads
| flushes_no_core reads todo : core = false → flushes core reads todo [] reads.

Abbreviation reads_of s := (pending_reads (conn_reads s)).

Lemma flush_read_spec k s :
  pends False (flush_read k) s (λ s' v t,
    reads_of s' = reads_of s ∧ conn_core s' = conn_core s ∧
    match reads_of s !! k with
    | Some true =>
        if conn_core s
        then ∃ status, receipts t = [receipt (k, status)] ∧ v = if settles status then Remove else Stop
        else receipts t = [] ∧ v = Stop
    | _ => receipts t = [] ∧ v = Keep
    end).
Proof.
  unfold flush_read. pstep. destruct (reads_of s !! k) as [[]|]; simpl; try (pstep; done).
  unfold signal_send_read. pstep. pstep. destruct (conn_core s) eqn:Ec; simpl; [|repeat pstep; done].
  unfold take_request_id. do 7 pstep.
  destruct r; try (pstep; eauto 6; done).
  unfold signal_schedule_pending_read_retry. pstep. pstep. simpl. rewrite Ec.
  destruct (_ && _ && _); repeat pstep; simpl; eauto 6.
Qed.

Lemma flush_loop_spec todo s expected :
  reads_table s = expected →
  pends False (iter_loop reads_table remove_read flush_read expected todo) s (λ s' _ t,
    ∃ sent, flushes (conn_core s) (reads_of s) todo sent (reads_of s') ∧ receipts t = receipt <$> sent).
Proof.
  revert s expected. induction todo as [|k todo IH]; intros s expected Ht; simpl.
  - apply pends_iter_check; [done|]. exists []. split; [constructor|done].
  - eapply pends_bind; [by apply (pends_iter_check _ _ _ _ (λ s' _ t, s' = s ∧ t = []))|]. intros ? ? ? [-> ->].
    eapply pends_bind; [apply flush_read_spec|]. intros s' v t (Hr&Hc&Hv).
    assert (Hs' : reads_table s' = expected) by (unfold reads_table; by rewrite Hr).
    assert (Hkeep : v = Keep → receipts t = [] → reads_of s !! k ≠ Some true →
      pends False (iter_loop reads_table remove_read flush_read expected todo) s' (λ s'' _ t', ∃ sent,
        flushes (conn_core s) (reads_of s) (k :: todo) sent (reads_of s'') ∧ receipts (t ++ t') = receipt <$> sent)).
    { intros _ Hnil Hk. eapply pends_mono; [by apply IH|]. intros s2 _ t2 (sent&Hf&Hrec). exists sent.
      rewrite receipts_app, Hnil. split; [|done]. apply flushes_skip; [done|]. by rewrite <-Hr, <-Hc. }
    destruct (reads_of s !! k) as [[]|] eqn:Ek.
    2,3: destruct Hv as [Hnil ->]; by apply Hkeep.
    destruct (conn_core s) eqn:Ec.
    2: { destruct Hv as [Hnil ->]. pstep. exists []. simpl; rewrite app_nil_r, Hnil, Hr. split; [by constructor|done]. }
    destruct Hv as (status&Hrec&->). destruct (settles status) eqn:Es.
    + eapply pends_bind; [by apply (pends_iter_check _ _ _ _ (λ s2 _ t, s2 = s' ∧ t = []))|]. intros ? ? ? [-> ->].
      pstep. eapply pends_mono.
      { apply IH. unfold reads_table. simpl. rewrite dom_delete_L, <-Hs'. done. }
      intros s2 _ t2 (sent&Hf&Hrec2). exists ((k, status) :: sent). simpl in *.
      rewrite receipts_app, Hrec, Hrec2. split; [|done]. apply flushes_settled; [done..|]. by rewrite <-Hr, <-Hc.
    + pstep. exists [(k, status)]. simpl. rewrite app_nil_r, Hrec, Hr. split; [by apply flushes_stop|done].
Qed.

(** The keys of receipts that need not be sent again. *)
Definition settled (sent : list (ReadKey * SignalStatus)) (k : ReadKey) : Prop :=
  ∃ status, (k, status) ∈ sent ∧ settles status = true.

Lemma flushes_sent core reads todo sent reads' :
  NoDup todo → flushes core reads todo sent reads' →
  NoDup sent.*1 ∧ ∀ k, k ∈ sent.*1 → k ∈ todo ∧ reads !! k = Some true.
Proof.
  intros Hnd Hf. induction Hf as [reads|reads k todo sent reads' Hk Hf IH|reads k todo status sent reads' Hk Hs Hf IH|
    reads k todo status Hk Hs|reads todo Hc]; try apply NoDup_cons in Hnd as [Hnk Hnd].
  - split; [constructor|]. by intros k ?%elem_of_nil.
  - destruct (IH Hnd) as [Hn Hin]. split; [done|]. intros k' [? ?]%Hin. split; [by right|done].
  - destruct (IH Hnd) as [Hn Hin]. split; simpl.
    + apply NoDup_cons. split; [|done]. intros [? ?]%Hin. done.
    + intros k' [->|[Hin' Hk']%Hin]%elem_of_cons; [split; [left|done]|]. split; [by right|].
      by apply lookup_delete_Some in Hk' as [_ ?].
  - split; [apply NoDup_singleton|]. intros k' ->%list_elem_of_singleton. split; [left|done].
  - split; [constructor|]. by intros k ?%elem_of_nil.
Qed.

Lemma flushes_left core reads todo sent reads' :
  NoDup todo → flushes core reads todo sent reads' →
  (∀ k, settled sent k → reads' !! k = None) ∧ (∀ k, ¬ settled sent k → reads' !! k = reads !! k).
Proof.
  intros Hnd Hf. induction Hf as [reads|reads k todo sent reads' Hk Hf IH|reads k todo status sent reads' Hk Hs Hf IH|
    reads k todo status Hk Hs|reads todo Hc]; try apply NoDup_cons in Hnd as [Hnk Hnd].
  - split; [|done]. by intros k (?&?%elem_of_nil&_).
  - by apply IH.
  - destruct (IH Hnd) as [Hgone Hrest].
    assert (Hk' : reads' !! k = None).
    { destruct (flushes_sent _ _ _ _ _ Hnd Hf) as [_ Hin]. rewrite Hrest; [by rewrite lookup_delete_eq|].
      intros (st&Hst&_). apply Hnk, (Hin k). by apply (list_elem_of_fmap_2 fst _ (k, st)). }
    split.
    + intros k' (st&[Heq|Hin]%elem_of_cons&Hst); [by simplify_eq|]. apply Hgone. by exists st.
    + intros k' Hnot. rewrite Hrest.
      * apply lookup_delete_ne. intros ->. apply Hnot. exists status. split; [left|done].
      * intros (st&Hin&Hst). apply Hnot. exists st. split; [by right|done].
  - split; [|done]. intros k' (st&Hin%list_elem_of_singleton&Hst). congruence.
  - split; [|done]. by intros k (?&?%elem_of_nil&_).
Qed.

(** Only the last receipt of a walk can be one to send again. *)
Lemma flushes_order core reads todo sent reads' pre k status post :
  flushes core reads todo sent reads' → sent = pre ++ (k, status) :: post → settles status = false → post = [].
Proof.
  intros Hf. revert pre. induction Hf as [reads|reads k' todo sent reads' Hk Hf IH|reads k' todo st sent reads' Hk Hs Hf IH|
    reads k' todo st Hk Hs|reads todo Hc]; intros pre Heq Hst.
  - by destruct pre.
  - by eapply IH.
  - destruct pre as [|p pre]; simplify_eq/=; [congruence|]. by eapply IH.
  - destruct pre as [|p [|]]; by simplify_eq/=.
  - by destruct pre.
Qed.

Lemma flushes_all core reads todo sent reads' :
  core = true → NoDup todo → flushes core reads todo sent reads' → Forall (λ p, settles p.2 = true) sent →
  ∀ k, k ∈ todo → reads' !! k ≠ Some true.
Proof.
  intros Hc Hnd Hf.
  induction Hf as [reads|reads k todo sent reads' Hk Hf IH|reads k todo status sent reads' Hk Hs Hf IH|
    reads k todo status Hk Hs|reads todo Hc']; try apply NoDup_cons in Hnd as [Hnk Hnd]; intros Hall k' Hin.
  - by apply elem_of_nil in Hin.
  - apply elem_of_cons in Hin as [->|Hin]; [|by apply IH].
    destruct (flushes_left _ _ _ _ _ Hnd Hf) as [_ Hrest]. rewrite Hrest; [done|].
    intros (st&Hst&_). apply Hnk. destruct (flushes_sent _ _ _ _ _ Hnd Hf) as [_ Hsent].
    by apply (Hsent k), (list_elem_of_fmap_2 fst _ (k, st)).
  - apply Forall_cons in Hall as [_ Hall]. apply elem_of_cons in Hin as [->|Hin]; [|by apply IH].
    assert (Hf' : flushes core reads (k :: todo) ((k, status) :: sent) reads') by (by constructor).
    assert (Hnd' : NoDup (k :: todo)) by (by constructor).
    destruct (flushes_left _ _ _ _ _ Hnd' Hf') as [Hgone _]. rewrite Hgone; [done|]. exists status. split; [left|done].
  - rewrite Forall_singleton in Hall. cbn in Hall.
    congruence.
  - congruence.
Qed.

(** C38. Read receipts are sent once: whatever the core answers, a flush ends,
    asks for each receipt at most once and only for messages marked as read;
    exactly those accepted or rejected by the core are forgotten, the others
    stay as they were; it goes on until the core is not ready or full, and if
    neither happens no receipt of a read message is left. *)
Theorem read_receipts_sent_once s t out :
  exec (signal_flush_pending_reads s) t out →
  ∃ s' sent, out = Done (s', tt) ∧ receipts t = receipt <$> sent ∧
    NoDup sent.*1 ∧ (∀ k, k ∈ sent.*1 → reads_of s !! k = Some true) ∧
    (∀ k, settled sent k → reads_of s' !! k = None) ∧ (∀ k, ¬ settled sent k → reads_of s' !! k = reads_of s !! k) ∧
    (∀ pre k status post, sent = pre ++ (k, status) :: post → settles status = false → post = []) ∧
    (conn_core s = true → Forall (λ p, settles p.2 = true) sent → ∀ k, reads_of s' !! k ≠ Some true).
Proof.
  intros Hex.
  assert (Hp : pends False signal_flush_pending_reads s (λ s' _ t, ∃ order sent,
    flushes (conn_core s) (reads_of s) (reorder order (elements (reads_table s))) sent (reads_of s') ∧
    receipts t = receipt <$> sent)).
  { unfold signal_flush_pending_reads, iterate. pstep. pstep. pstep. pstep. eapply pends_bind; [by apply flush_loop_spec|].
    intros s' _ t' (sent&Hf&Hr). unfold forget_limit_warning. pstep.
    destruct (_ <? _)%N; simpl; pstep; exists r, sent; simpl; by rewrite app_nil_r. }
  apply (pends_sound _ _ _ _ _ _ Hp) in Hex. destruct out as [[s' []]|o|m]; [|done..]. destruct Hex as (order&sent&Hf&Hr).
  assert (Hnd : NoDup (reorder order (elements (reads_table s)))) by (rewrite reorder_perm; apply NoDup_elements).
  destruct (flushes_sent _ _ _ _ _ Hnd Hf) as [Hn Hin]. destruct (flushes_left _ _ _ _ _ Hnd Hf) as [Hgone Hrest].
  exists s', sent. repeat split; [done..|by intros k [_ ?]%Hin|done|done| |].
  - intros pre k status post. by eapply flushes_order.
  - intros Hc Hall k Hk. apply (flushes_all _ _ _ _ _ Hc Hnd Hf Hall k); [|done].
    rewrite reorder_perm. apply elem_of_elements, elem_of_dom.
    destruct (decide (is_Some (reads_of s !! k))) as [|Hno]; [done|]. exfalso. apply Hno. rewrite <-Hrest; [by eexists|].
    intros Hset%Hgone. congruence.
Qed.

(** A message of a friend that was looked at. *)
Definition demo_reads : SignalConnection :=
  on_reads (set_pending_reads {[mkRead "friend" None 7 := true]}) (set_life true true false (signal_connection_new 1)).

Lemma read_receipts_sent_once_witness :
  let r := run (plain_world [] []) (signal_flush_pending_reads demo_reads) [] in
  receipts r.1 = [(Some (bytes_of "friend"), 7%N, StatusOk)] ∧
  ∃ s' sent, r.2 = Done (s', tt) ∧ receipts r.1 = receipt <$> sent ∧ NoDup sent.*1.
Proof.
  split; [vm_compute; reflexivity|].
  destruct (read_receipts_sent_once demo_reads _ _ (run_exec (plain_world [] []) (signal_flush_pending_reads demo_reads) []))
    as (s'&sent&Hout&Hr&Hn&_). exists s', sent. split_and!; [exact Hout|exact Hr|exact Hn].
Defined.
