(* ===== verification/BuddyList.v ===== *)
(** * BuddyList: keeping the buddy list in step with Signal

    Models [src/contact_sync.c], [src/blist_sync.c] and [src/group_sync.c].  A
    snapshot marks what it has seen; entries the plugin manages and a complete
    snapshot did not show are removed, entries the user made never are.  The
    buddy list itself belongs to libpurple.  A walk over its nodes is a list:
    the code reads the next node before it works on one. *)
From S2P Require Import Prelude Event Ffi Effects Purple Plugin ReadReceipts.

Definition SIGNAL_SYNCED_BUDDY_KEY : string := "signal-purple-synced-contact".
Definition SIGNAL_SYNCED_GROUP_KEY : string := "signal-purple-synced-group".
Definition SIGNAL_LEGACY_BUDDY_GROUP : string := "Signal".
Definition SIGNAL_LEGACY_CHAT_GROUP : string := "Signal groups".
Definition SIGNAL_GROUP_COMPONENT_KEY : string := "group-id".
Definition SIGNAL_LEGACY_GROUP_COMPONENT_KEY : string := "group-key".
Definition SIGNAL_SYNCED_GROUP_TITLE_KEY : string := "signal-purple-synced-group-title".

(** ** What a snapshot has seen *)

Definition signal_contact_sync_begin (sync : ContactSync) : ContactSync := mkSync true ∅.

Definition signal_contact_sync_mark (identifier : option string) (sync : ContactSync) : ContactSync :=
  match filled identifier with
  | Some id => if sync_active sync then mkSync true ({[id]} ∪ sync_seen sync) else sync
  | None => sync
  end.

Definition signal_contact_sync_should_remove (sync : ContactSync) (identifier : option string) : bool :=
  match filled identifier with
  | Some id => sync_active sync && negb (bool_decide (id ∈ sync_seen sync))
  | None => false
  end.

Definition signal_contact_sync_end (sync : ContactSync) : ContactSync := mkSync false ∅.

(** ** Buddies *)

Definition signal_blist_sync_is_managed (node : BlistNode) (key : string) : plugin bool := ask (NodeBool node key).

Definition signal_blist_sync_group_is (group : option Group) (name : string) : plugin bool :=
  match group with
  | None => mret false
  | Some group => n ← ask (GroupName group); mret (bool_decide (n = Some name))
  end.

Definition signal_blist_sync_remove_empty_legacy_group (legacy_name : string) : plugin unit :=
  group ← ask (FindGroup legacy_name);
  match group with
  | None => mret tt
  | Some group =>
      has_child ← ask (FirstChild group);
      when (negb has_child) (act (BlistRemoveGroup group))
  end.

Definition signal_blist_sync_remove_empty_legacy_buddy_group : plugin unit :=
  signal_blist_sync_remove_empty_legacy_group SIGNAL_LEGACY_BUDDY_GROUP.
Definition signal_blist_sync_remove_empty_legacy_chat_group : plugin unit :=
  signal_blist_sync_remove_empty_legacy_group SIGNAL_LEGACY_CHAT_GROUP.
Definition signal_blist_sync_is_legacy_buddy_group (group : option Group) : plugin bool :=
  signal_blist_sync_group_is group SIGNAL_LEGACY_BUDDY_GROUP.
Definition signal_blist_sync_is_legacy_chat_group (group : option Group) : plugin bool :=
  signal_blist_sync_group_is group SIGNAL_LEGACY_CHAT_GROUP.

Definition signal_blist_sync_add_buddy (buddy : Buddy) : plugin unit :=
  _ ← act (BlistAddBuddy buddy);
  act (NodeSetBool (NodeBuddy buddy) SIGNAL_SYNCED_BUDDY_KEY true).

(** The loop of [signal_blist_sync_find_buddy] with its three candidates:
    managed in the legacy group (which ends it), managed, and only in the
    legacy group. *)
Fixpoint choose_buddy (buddies : list Buddy) (managed unmanaged_legacy : option Buddy)
  : plugin (option Buddy * option Buddy * option Buddy) :=
  match buddies with
  | [] => mret (None, managed, unmanaged_legacy)
  | candidate :: buddies =>
      is_managed ← signal_blist_sync_is_managed (NodeBuddy candidate) SIGNAL_SYNCED_BUDDY_KEY;
      group ← ask (BuddyGroup candidate);
      is_legacy ← signal_blist_sync_group_is group SIGNAL_LEGACY_BUDDY_GROUP;
      if is_managed && is_legacy then mret (Some candidate, managed, unmanaged_legacy)
      else if is_managed && bool_decide (managed = None) then choose_buddy buddies (Some candidate) unmanaged_legacy
      else if negb is_managed && is_legacy && bool_decide (unmanaged_legacy = None)
           then choose_buddy buddies managed (Some candidate)
      else choose_buddy buddies managed unmanaged_legacy
  end.

Definition signal_blist_sync_find_buddy (account : Account) (name : option string) : plugin (option Buddy) :=
  match filled name with
  | None => mret None
  | Some name =>
      fallback ← ask (FindBuddy account name);
      buddies ← ask (FindBuddies account (Some name));
      found ← choose_buddy buddies None None;
      mret (match found with
            | (Some buddy, _, _) | (None, Some buddy, _) | (None, None, Some buddy) => Some buddy
            | (None, None, None) => fallback
            end)
  end.

Definition signal_blist_sync_migrate_buddy (buddy : Buddy) : plugin (option Buddy) :=
  legacy_group ← ask (BuddyGroup buddy);
  managed ← signal_blist_sync_is_managed (NodeBuddy buddy) SIGNAL_SYNCED_BUDDY_KEY;
  if negb managed then mret (Some buddy)
  else
    legacy ← signal_blist_sync_group_is legacy_group SIGNAL_LEGACY_BUDDY_GROUP;
    if negb legacy then mret (Some buddy)
    else
      account ← ask (BuddyAccount buddy);
      name ← ask (BuddyName buddy);
      contact ← ask (BuddyContact buddy);
      _ ← act (BlistAddContact contact);
      _ ← signal_blist_sync_remove_empty_legacy_buddy_group;
      signal_blist_sync_find_buddy account name.

Definition signal_blist_sync_adopt_legacy_buddy (account : Account) (name : string) : plugin (option Buddy) :=
  buddy ← signal_blist_sync_find_buddy account (Some name);
  match buddy with
  | None => mret None
  | Some buddy =>
      managed ← signal_blist_sync_is_managed (NodeBuddy buddy) SIGNAL_SYNCED_BUDDY_KEY;
      _ ← (if managed : bool then mret tt
           else
             owner ← ask (BuddyAccount buddy);
             if negb (owner =? account)%N then mret tt
             else
               group ← ask (BuddyGroup buddy);
               legacy ← signal_blist_sync_group_is group SIGNAL_LEGACY_BUDDY_GROUP;
               when legacy (act (NodeSetBool (NodeBuddy buddy) SIGNAL_SYNCED_BUDDY_KEY true)));
      signal_blist_sync_migrate_buddy buddy
  end.

(** ** Chats *)

Definition signal_blist_sync_add_chat (chat : Chat) : plugin unit :=
  _ ← act (BlistAddChat chat);
  act (NodeSetBool (NodeChat chat) SIGNAL_SYNCED_GROUP_KEY true).

Definition signal_blist_sync_migrate_chat (chat : Chat) : plugin unit :=
  legacy_group ← ask (ChatGroup chat);
  managed ← signal_blist_sync_is_managed (NodeChat chat) SIGNAL_SYNCED_GROUP_KEY;
  if negb managed then mret tt
  else
    legacy ← signal_blist_sync_group_is legacy_group SIGNAL_LEGACY_CHAT_GROUP;
    if negb legacy then mret tt
    else
      _ ← act (BlistAddChat chat);
      signal_blist_sync_remove_empty_legacy_chat_group.

Definition signal_chat_is_managed (chat : Chat) : plugin bool := ask (NodeBool (NodeChat chat) SIGNAL_SYNCED_GROUP_KEY).

Definition signal_group_sync_chat_id (chat : Chat) : plugin (option string) :=
  group_id ← ask (ChatComponent chat SIGNAL_GROUP_COMPONENT_KEY);
  match group_id with
  | Some id => mret (Some id)
  | None => ask (ChatComponent chat SIGNAL_LEGACY_GROUP_COMPONENT_KEY)
  end.

Definition signal_chat_matches (chat : Chat) (account : Account) (group_id : string) : plugin bool :=
  owner ← ask (ChatAccount chat);
  if negb (owner =? account)%N then mret false
  else id ← signal_group_sync_chat_id chat; mret (bool_decide (id = Some group_id)).

Fixpoint lookup_chat (nodes : list BlistNode) (account : Account) (group_id : string) (selected : option Chat)
  : plugin (option Chat) :=
  match nodes with
  | [] => mret selected
  | NodeChat candidate :: nodes =>
      matches ← signal_chat_matches candidate account group_id;
      if negb matches then lookup_chat nodes account group_id selected
      else
        match selected with
        | None => lookup_chat nodes account group_id (Some candidate)
        | Some chat =>
            managed ← signal_chat_is_managed chat;
            replace ← (if managed : bool then m ← signal_chat_is_managed candidate; mret (negb m) else mret false);
            lookup_chat nodes account group_id (if replace : bool then Some candidate else Some chat)
        end
  | _ :: nodes => lookup_chat nodes account group_id selected
  end.

Definition signal_group_sync_lookup_chat (account : Account) (group_id : string) : plugin (option Chat) :=
  if is_empty group_id then mret None
  else nodes ← ask BlistNodes; lookup_chat nodes account group_id None.

Definition signal_group_sync_lookup_conversation (account : Account) (group_id : option string)
  : plugin (option Conversation) :=
  match filled group_id with
  | None => mret None
  | Some group_id => ask (FindConversation ConvChat group_id account)
  end.

(** Removes a chat, and the legacy group with it if that is now empty. *)
Definition remove_chat (chat : Chat) : plugin unit :=
  group ← ask (ChatGroup chat);
  was_legacy ← signal_blist_sync_is_legacy_chat_group group;
  _ ← act (BlistRemoveChat chat);
  when was_legacy signal_blist_sync_remove_empty_legacy_chat_group.

Definition signal_group_sync_find_chat (account : Account) (group_id : string) : plugin (option Chat) :=
  if is_empty group_id then mret None
  else
    selected ← signal_group_sync_lookup_chat account group_id;
    nodes ← ask BlistNodes;
    _ ← each nodes (λ node,
          match node with
          | NodeChat candidate =>
              if bool_decide (Some candidate = selected) then mret tt
              else
                managed ← signal_chat_is_managed candidate;
                if negb managed then mret tt
                else matches ← signal_chat_matches candidate account group_id; when matches (remove_chat candidate)
          | _ => mret tt
          end);
    mret selected.

Definition signal_group_sync_remove_managed_chats (account : Account) (group_id : string) : plugin unit :=
  if is_empty group_id then mret tt
  else
    nodes ← ask BlistNodes;
    each nodes (λ node,
      match node with
      | NodeChat chat =>
          managed ← signal_chat_is_managed chat;
          if negb managed then mret tt
          else matches ← signal_chat_matches chat account group_id; when matches (remove_chat chat)
      | _ => mret tt
      end).

Definition signal_group_sync_update_title (chat : Chat) (group_id title : string) : plugin unit :=
  if is_empty group_id || is_empty title then mret tt
  else
    display_title ← ask (ChatName chat);
    previous_title ← ask (NodeString (NodeChat chat) SIGNAL_SYNCED_GROUP_TITLE_KEY);
    let follows :=
      match filled display_title with
      | None => true
      | Some display =>
          String.eqb display group_id ||
          match previous_title with Some previous => String.eqb display previous | None => String.eqb display title end
      end in
    _ ← when follows (act (BlistAliasChat chat title));
    act (NodeSetString (NodeChat chat) SIGNAL_SYNCED_GROUP_TITLE_KEY title).

(** ** Joins that wait for a snapshot *)

(** Whether the join is deferred, and the pending joins then. *)
Definition signal_group_sync_defer_join (pending : gset string) (snapshot_complete : bool) (group_id : string)
  : bool * gset string :=
  if is_empty group_id || snapshot_complete then (false, pending) else (true, {[group_id]} ∪ pending).

(** The pending joins of active groups, in the order of the walk, and what
    stays pending. *)
Definition signal_group_sync_take_active_joins (order : list nat) (pending active : gset string) (clear_unmatched : bool)
  : list string * gset string :=
  (filter (λ k, k ∈ active) (reorder order (elements pending)),
   if clear_unmatched then ∅ else pending ∖ active).
