(* ===== verification/PluginGroups.v ===== *)
(** * PluginGroups: contacts and groups of a connection

    Models the part of [src/connection.c] that keeps the tables of groups and
    applies snapshots of contacts and groups to the buddy list and the open
    conversations. *)
From S2P Require Import Prelude Event Ffi Effects Purple Plugin ReadReceipts BuddyList.

Abbreviation groups s := (conn_groups s).

(** ** The tables of groups *)

(** [signal_group_members] with [create]. *)
Definition create_group_members (group_key : string) : plugin unit :=
  modify (on_groups (λ g,
    match group_members_by_key g !! group_key with
    | Some _ => g
    | None => set_members (<[group_key := []]> (group_members_by_key g)) g
    end)).

Definition signal_group_id (group_key : string) (title : option string) : plugin N :=
  s ← get;
  id ← match group_ids_by_key (groups s) !! group_key with
       | Some id => mret id
       | None =>
           let id := next_group_id (groups s) in
           _ ← modify (on_groups (λ g, set_ids (<[group_key := id]> (group_ids_by_key g))
                                         (<[id := group_key]> (group_keys_by_id g)) (wrapping_add u32_max id 1) g));
           mret id
       end;
  _ ← when_some (filled title) (λ title,
        modify (on_groups (λ g, set_titles (<[group_key := title]> (group_titles_by_key g)) g)));
  mret id.

(** [(int)id]. *)
Definition guint_as_int (id : N) : Z :=
  if (id <? 2147483648)%N then Z.of_N id else (Z.of_N id - 4294967296)%Z.

Definition signal_group_title (s : SignalConnection) (group_key : string) : string :=
  default "Signal group" (filled (group_titles_by_key (groups s) !! group_key)).

(** [group_key] may be null. *)
Definition signal_group_is_active (s : SignalConnection) (group_key : option string) : bool :=
  group_snapshot_complete (groups s) && is_some_and group_key (λ k, bool_decide (k ∈ active_group_keys (groups s))).

Definition signal_group_can_send (s : SignalConnection) (group_key : option string) : bool :=
  signal_group_is_active s group_key &&
  is_some_and group_key (λ k, negb (bool_decide (k ∈ pending_group_leaves (groups s)))).

Definition signal_group_display_title (group_key : string) : plugin string :=
  s ← get;
  chat ← signal_group_sync_lookup_chat (conn_account s) group_key;
  title ← match chat with Some chat => ask (ChatName chat) | None => mret None end;
  s ← get;
  mret (match filled title with
        | Some title => if String.eqb title group_key then signal_group_title s group_key else title
        | None => signal_group_title s group_key
        end).

Definition signal_update_open_group_title (group_key : string) : plugin unit :=
  s ← get;
  conversation ← signal_group_sync_lookup_conversation (conn_account s) (Some group_key);
  when_some conversation (λ conv, title ← signal_group_display_title group_key; act (SetTitle conv title)).

(** The walk only removes entries. *)
Definition signal_remove_group_pending_reads (group_key : string) : plugin unit :=
  _ ← modify (on_reads (λ r, set_pending_reads
        (filter (λ p, read_chat p.1 ≠ Some group_key) (pending_reads r)) r));
  forget_limit_warning.

Definition signal_deactivate_group (group_key : string) (remove_saved_chat : bool) : plugin unit :=
  if is_empty group_key then mret tt
  else
    s ← get;
    let account := conn_account s in
    _ ← when_some (group_ids_by_key (groups s) !! group_key) (λ raw_id,
          conversation ← signal_group_sync_lookup_conversation account (Some group_key);
          _ ← when_some conversation (λ conv,
                left ← ask (HasLeft conv);
                when (negb left) (id ← ask (ConvChatId conv); act (ServGotChatLeft id)));
          modify (on_groups (λ g, set_ids (delete group_key (group_ids_by_key g)) (delete raw_id (group_keys_by_id g))
                                    (next_group_id g) g)));
    _ ← when remove_saved_chat (signal_group_sync_remove_managed_chats account group_key);
    _ ← modify (on_groups (λ g,
          set_members (delete group_key (group_members_by_key g))
            (set_titles (delete group_key (group_titles_by_key g))
              (set_leaves (pending_group_leaves g ∖ {[group_key]})
                (set_joins (pending_group_joins g ∖ {[group_key]})
                  (set_active (active_group_keys g ∖ {[group_key]}) g))))));
    signal_remove_group_pending_reads group_key.

(** ** Contacts *)

Definition signal_begin_contact_sync : plugin unit := modify (on_contact_sync signal_contact_sync_begin).

Definition signal_set_account_identity (event : Event) : plugin unit :=
  match filled (ev_peer_id event) with
  | None => mret tt
  | Some peer => modify (set_identity (Some peer) (filled (ev_title event)))
  end.

Definition signal_add_contact (event : Event) : plugin unit :=
  match filled (ev_peer_id event) with
  | None => mret tt
  | Some peer =>
      _ ← modify (on_contact_sync (signal_contact_sync_mark (Some peer)));
      s ← get;
      let account := conn_account s in
      found ← signal_blist_sync_adopt_legacy_buddy account peer;
      buddy ← match found with
              | Some buddy =>
                  managed ← ask (NodeBool (NodeBuddy buddy) SIGNAL_SYNCED_BUDDY_KEY);
                  mret (buddy, managed)
              | None =>
                  buddy ← act (BuddyNew account peer);
                  _ ← signal_blist_sync_add_buddy buddy;
                  mret (buddy, true)
              end;
      _ ← when buddy.2 (act (NodeSetBool (NodeBuddy buddy.1) SIGNAL_SYNCED_BUDDY_KEY true));
      let alias := if present (ev_title event) then ev_title event else ev_text event in
      _ ← act (BlistServerAlias buddy.1 (filled alias));
      act (UserStatus account peer "available")
  end.

Definition signal_end_contact_sync : plugin unit :=
  s ← get;
  if negb (sync_active (conn_contact_sync s)) then mret tt
  else
    buddies ← ask (FindBuddies (conn_account s) None);
    _ ← each buddies (λ buddy,
          managed ← ask (NodeBool (NodeBuddy buddy) SIGNAL_SYNCED_BUDDY_KEY);
          if negb managed then mret tt
          else
            name ← ask (BuddyName buddy);
            s ← get;
            if negb (signal_contact_sync_should_remove (conn_contact_sync s) name) then mret tt
            else
              group ← ask (BuddyGroup buddy);
              was_legacy ← signal_blist_sync_is_legacy_buddy_group group;
              _ ← act (BlistRemoveBuddy buddy);
              when was_legacy signal_blist_sync_remove_empty_legacy_buddy_group);
    modify (on_contact_sync signal_contact_sync_end).

(** ** Groups *)

Definition signal_begin_group_sync : plugin unit :=
  modify (on_groups (λ g,
    set_members ∅ (set_group_sync (signal_contact_sync_begin (group_sync g)) (set_snapshot_complete false g)))).

Definition signal_add_group (event : Event) : plugin unit :=
  match filled (ev_chat_id event) with
  | None => mret tt
  | Some group_key =>
      _ ← signal_group_id group_key (ev_title event);
      _ ← modify (on_groups (λ g, set_group_sync (signal_contact_sync_mark (Some group_key) (group_sync g)) g));
      s ← get;
      let account := conn_account s in
      found ← signal_group_sync_find_chat account group_key;
      managed ← match found with
                | Some chat =>
                    _ ← signal_blist_sync_migrate_chat chat;
                    ask (NodeBool (NodeChat chat) SIGNAL_SYNCED_GROUP_KEY)
                | None => mret false
                end;
      title ← gets (λ s, signal_group_title s group_key);
      _ ← create_group_members group_key;
      chat ← match found with
             | Some chat => mret (chat, managed)
             | None =>
                 chat ← act (ChatNew account title [(SIGNAL_GROUP_COMPONENT_KEY, group_key)]);
                 _ ← signal_blist_sync_add_chat chat;
                 mret (chat, true)
             end;
      _ ← when chat.2
            (_ ← act (NodeSetBool (NodeChat chat.1) SIGNAL_SYNCED_GROUP_KEY true);
             signal_group_sync_update_title chat.1 group_key title);
      signal_update_open_group_title group_key
  end.

Definition signal_add_group_member (event : Event) : plugin unit :=
  match filled (ev_chat_id event), filled (ev_peer_id event) with
  | Some group_key, Some peer =>
      _ ← create_group_members group_key;
      let member := (peer, if (ev_value event =? 0)%Z then MemberNone else MemberOp) in
      modify (on_groups (λ g, set_members
        (<[group_key := default [] (group_members_by_key g !! group_key) ++ [member]]> (group_members_by_key g)) g))
  | _, _ => mret tt
  end.

Definition signal_refresh_group_members (group_key : string) : plugin unit :=
  s ← get;
  conversation ← signal_group_sync_lookup_conversation (conn_account s) (Some group_key);
  when_some conversation (λ conv,
    left ← ask (HasLeft conv);
    if left : bool then mret tt
    else
      s ← get;
      _ ← when_some (conn_local_aci s) (λ aci, act (SetNick conv aci));
      _ ← act (ClearUsers conv);
      s ← get;
      _ ← match group_members_by_key (groups s) !! group_key with
          | Some (member :: members) => act (AddUsers conv (member :: members))
          | _ => mret tt
          end;
      title ← signal_group_display_title group_key;
      act (SetTitle conv title)).

Definition signal_open_group (group_key : string) (title : option string) : plugin (option Conversation) :=
  id ← signal_group_id group_key title;
  _ ← modify (on_groups (λ g, set_joins (pending_group_joins g ∖ {[group_key]}) g));
  s ← get;
  conversation ← signal_group_sync_lookup_conversation (conn_account s) (Some group_key);
  closed ← match conversation with Some conv => ask (HasLeft conv) | None => mret true end;
  conversation ← (if closed : bool then act (ServGotJoinedChat (guint_as_int id) group_key) else mret conversation);
  title ← signal_group_display_title group_key;
  _ ← when_some conversation (λ conv, act (SetTitle conv title));
  _ ← signal_refresh_group_members group_key;
  mret conversation.

(** The active keys in the order of a walk. *)
Definition walk (keys : gset string) : plugin (list string) :=
  order ← call (Order (size keys));
  mret (reorder order (elements keys)).

Definition members_table (s : SignalConnection) : gset string := dom (group_members_by_key (groups s)).

(** The walk over the groups with members that ends both kinds of snapshot. *)
Definition refresh_all_members : plugin unit :=
  iterate members_table (λ _ s, s) (λ group_key, _ ← signal_refresh_group_members group_key; mret Keep).

(** Opens the pending joins that are active now. *)
Definition open_active_joins (clear_unmatched : bool) : plugin unit :=
  s ← get;
  order ← call (Order (size (pending_group_joins (groups s))));
  let r := signal_group_sync_take_active_joins order (pending_group_joins (groups s)) (active_group_keys (groups s))
             clear_unmatched in
  _ ← modify (on_groups (set_joins r.2));
  each r.1 (λ group_key, _ ← signal_open_group group_key None; mret tt).

(** The chats of the buddy list that the snapshot did not show. *)
Definition remove_stale_chats : plugin unit :=
  s ← get;
  nodes ← ask BlistNodes;
  each nodes (λ node,
    match node with
    | NodeChat chat =>
        group_key ← signal_group_sync_chat_id chat;
        owner ← ask (ChatAccount chat);
        if negb (owner =? conn_account s)%N then mret tt
        else
          managed ← ask (NodeBool node SIGNAL_SYNCED_GROUP_KEY);
          if negb managed then mret tt
          else
            s ← get;
            when (signal_contact_sync_should_remove (group_sync (groups s)) group_key) (remove_chat chat)
    | _ => mret tt
    end).

(** [purple_timeout_remove] of the fallback timer. *)
Definition stop_fallback_timer : plugin unit :=
  s ← get;
  let timer := group_sync_fallback_timer_id (groups s) in
  when (negb (timer =? 0)%N)
    (_ ← act_quietly (TimeoutRemove timer); modify (on_groups (set_fallback_timer 0))).

(** The active groups become those the snapshot has seen. *)
Definition deactivate_stale_groups : plugin unit :=
  s ← get;
  active ← walk (active_group_keys (groups s));
  s ← get;
  let stale := filter (λ k, signal_contact_sync_should_remove (group_sync (groups s)) (Some k) = true) active in
  _ ← each stale (λ group_key, signal_deactivate_group group_key false);
  modify (on_groups (λ g, set_active (sync_seen (group_sync g)) g)).

Definition signal_end_group_sync (event : Event) : plugin unit :=
  s ← get;
  if negb (sync_active (group_sync (groups s))) then mret tt
  else if negb (ev_value event =? 0)%Z then
    _ ← stop_fallback_timer;
    _ ← deactivate_stale_groups;
    _ ← remove_stale_chats;
    _ ← modify (on_groups (λ g, set_group_sync (signal_contact_sync_end (group_sync g)) g));
    _ ← refresh_all_members;
    _ ← modify (on_groups (set_snapshot_complete true));
    open_active_joins true
  else
    _ ← modify (on_groups (λ g, set_active (active_group_keys g ∪ sync_seen (group_sync g)) g));
    _ ← modify (on_groups (λ g, set_group_sync (signal_contact_sync_end (group_sync g)) g));
    _ ← refresh_all_members;
    open_active_joins false.

(** The fallback timer. *)
Definition signal_group_sync_timeout : plugin unit :=
  _ ← modify (on_groups (set_fallback_timer 0));
  s ← get;
  when (negb (group_snapshot_complete (groups s)))
    (_ ← modify (on_groups (set_snapshot_complete true));
     _ ← iterate (λ s, pending_group_joins (groups s)) (λ _ s, s)
           (λ group_key, _ ← signal_open_group group_key None; mret Keep);
     modify (on_groups (set_joins ∅))).
