(* ===== verification/AttachmentFile.v ===== *)
(** * AttachmentFile: reading local files within a limit

    Models [src/attachment_file.c].  A file is opened once, must be regular,
    and is read through its descriptor up to the limit plus one byte.  The
    loops go on while the system reports an interrupted call, so they take a
    number of turns and [None] says that these are used up. *)
From S2P Require Import Prelude Event Ffi Effects Purple PurpleWorld Plugin.

Definition SIGNAL_ATTACHMENT_READ_CHUNK : N := 64 * 1024.
Definition G_MAXUINT : N := u32_max.
Definition EINTR : Z := 4.

(** The codes of [GIOError] that are set here; [FileErrno] is made from [errno]
    and the operation that failed. *)
Inductive FileError :=
| FileInvalidArgument
| FileErrno (error_number : Z) (operation : string)
| FileNotRegular
| FileTooLarge
| FileInvalidData.

Definition file_parameters_invalid (path : option string) (maximum_bytes : N) : bool :=
  negb (present path) || (maximum_bytes =? 0)%N || (G_MAXUINT <? maximum_bytes)%N.

(** [g_open] and [fstat] of both functions: the descriptor and the size of a
    regular file; any other outcome has closed the descriptor. *)
Definition open_regular (path : string) : plugin (result (N * Z) FileError) :=
  opened ← sys (SysOpen path);
  match opened with
  | Err open_error => mret (Err (FileErrno open_error "open"))
  | Ok descriptor =>
      metadata ← sys (SysFstat descriptor);
      match metadata with
      | Err stat_error => _ ← sys (SysClose descriptor); mret (Err (FileErrno stat_error "inspect"))
      | Ok (regular, size) =>
          if negb regular then _ ← sys (SysClose descriptor); mret (Err FileNotRegular)
          else mret (Ok (descriptor, size))
      end
  end.

(** The loop of [signal_read_bounded_file]. *)
Fixpoint read_loop (turns : nat) (descriptor maximum_bytes : N) (contents : list byte)
  : plugin (option (result (list byte) FileError)) :=
  match turns with
  | 0 => mret None
  | S turns =>
      let remaining := (maximum_bytes - len contents)%N in
      let requested := if (remaining <? SIGNAL_ATTACHMENT_READ_CHUNK)%N then (remaining + 1)%N
                       else SIGNAL_ATTACHMENT_READ_CHUNK in
      answer ← sys (SysRead descriptor requested);
      match answer with
      | Err read_error =>
          if (read_error =? EINTR)%Z then read_loop turns descriptor maximum_bytes contents
          else _ ← sys (SysClose descriptor); mret (Some (Err (FileErrno read_error "read")))
      | Ok [] =>
          _ ← sys (SysClose descriptor);
          mret (Some (if (len contents =? 0)%N then Err FileInvalidData else Ok contents))
      | Ok buffer =>
          if (remaining <? len buffer)%N then _ ← sys (SysClose descriptor); mret (Some (Err FileTooLarge))
          else read_loop turns descriptor maximum_bytes (contents ++ buffer)
      end
  end.

Definition signal_read_bounded_file (turns : nat) (path : option string) (maximum_bytes : N)
  : plugin (option (result (list byte) FileError)) :=
  if file_parameters_invalid path maximum_bytes then mret (Some (Err FileInvalidArgument))
  else
    opened ← open_regular (default "" path);
    match opened with
    | Err e => mret (Some (Err e))
    | Ok (descriptor, size) =>
        if (size <? 0)%Z || (Z.of_N maximum_bytes <? size)%Z
        then _ ← sys (SysClose descriptor); mret (Some (Err FileTooLarge))
        else read_loop turns descriptor maximum_bytes []
    end.

(** The read of the header; an error reads nothing. *)
Fixpoint read_header (turns : nat) (descriptor : N) : plugin (option (list byte)) :=
  match turns with
  | 0 => mret None
  | S turns =>
      answer ← sys (SysRead descriptor 512);
      match answer with
      | Err read_error => if (read_error =? EINTR)%Z then read_header turns descriptor else mret (Some [])
      | Ok header => mret (Some header)
      end
  end.

(** The size and the MIME type. *)
Definition signal_inspect_attachment_file `{GLib} (turns : nat) (path : option string) (maximum_bytes : N)
  : plugin (option (result (N * string) FileError)) :=
  if file_parameters_invalid path maximum_bytes then mret (Some (Err FileInvalidArgument))
  else
    let path := default "" path in
    opened ← open_regular path;
    match opened with
    | Err e => mret (Some (Err e))
    | Ok (descriptor, size) =>
        if (size <=? 0)%Z then _ ← sys (SysClose descriptor); mret (Some (Err FileInvalidData))
        else if (Z.of_N maximum_bytes <? size)%Z then _ ← sys (SysClose descriptor); mret (Some (Err FileTooLarge))
        else
          header ← read_header turns descriptor;
          match header with
          | None => mret None
          | Some header =>
              _ ← sys (SysClose descriptor);
              mime ← sys (GuessMimeType (g_path_get_basename path) header);
              mret (Some (Ok (Z.to_N size, default "application/octet-stream" mime)))
          end
    end.

(** ** Theorems *)

(** The answers to reads, and the descriptors opened and closed. *)
Definition sys_result (e : call_entry) : option {A & (sys_op A * A)%type} :=
  match e with
  | existT o r =>
      match o as o return purple_resp o → option {A & (sys_op A * A)%type} with
      | @Sys A s => λ r, Some (existT A (s, r))
      | _ => λ _, None
      end r
  end.

Definition read_answer (e : call_entry) : option (result (list byte) Z) :=
  match sys_result e with
  | Some (existT A (s, r)) =>
      match s in sys_op A return A → option (result (list byte) Z) with
      | SysRead _ _ => λ r, Some r
      | _ => λ _, None
      end r
  | None => None
  end.

Definition opened_fd (e : call_entry) : option N :=
  match sys_result e with
  | Some (existT A (s, r)) =>
      match s in sys_op A return A → option N with
      | SysOpen _ => λ r, ok r
      | _ => λ _, None
      end r
  | None => None
  end.

Definition closed_fd (e : call_entry) : option N :=
  match sys_result e with
  | Some (existT A (s, _)) => match s with SysClose fd => Some fd | _ => None end
  | None => None
  end.

Definition read_answers (t : list call_entry) : list (result (list byte) Z) := omap read_answer t.
Definition interrupted (r : result (list byte) Z) : bool :=
  match r with Err e => (e =? EINTR)%Z | Ok _ => false end.

(** The bytes of the reads that succeeded, in order. *)
Definition bytes_read (t : list call_entry) : list byte :=
  concat (omap ok (read_answers t)).

(** What has been opened has been closed, once. *)
Definition balanced (t : list call_entry) : Prop := omap closed_fd t = omap opened_fd t.

Definition interruptions (t : list call_entry) : nat := length (filter (λ r, interrupted r = true) (read_answers t)).

Lemma bytes_read_app t t' : bytes_read (t ++ t') = bytes_read t ++ bytes_read t'.
Proof. unfold bytes_read, read_answers. by rewrite !omap_app, concat_app. Qed.

Lemma interruptions_app t t' : interruptions (t ++ t') = interruptions t + interruptions t'.
Proof. unfold interruptions, read_answers. by rewrite omap_app, filter_app, length_app. Qed.

Lemma interruptions_read fd n a t :
  interruptions (answered (Sig := purple_sig) (Sys (SysRead fd n)) a :: t) = (if interrupted a then 1 else 0) + interruptions t.
Proof.
  unfold interruptions, read_answers. cbn [omap list_omap read_answer sys_result answered].
  rewrite filter_cons. by destruct (interrupted a).
Qed.

Lemma read_loop_spec turns fd maximum contents s :
  (len contents <= maximum)%N →
  pends False (read_loop turns fd maximum contents) s (λ s' r t,
    s' = s ∧ omap opened_fd t = [] ∧
    match r with
    | Some result =>
        omap closed_fd t = [fd] ∧
        ∀ c, result = Ok c → c = contents ++ bytes_read t ∧ (0 < len c <= maximum)%N
    | None => omap closed_fd t = [] ∧ (N.of_nat turns <= maximum - len contents + N.of_nat (interruptions t))%N
    end).
Proof.
  revert contents. induction turns as [|turns IH]; intros contents Hc; cbn [read_loop].
  { pstep. split_and!; [done..|]. simpl. lia. }
  pstep. destruct r as [[|b buffer]|e].
  - pstep. pstep. split_and!; [done..|]. intros c. destruct (N.eqb_spec (len contents) 0) as [|Hn]; [done|].
    intros [= <-]. unfold bytes_read. simpl. rewrite app_nil_r. split; [done|lia].
  - destruct (N.ltb_spec (maximum - len contents) (len (b :: buffer))) as [|Hb]; [by repeat pstep|].
    eapply pends_mono; [apply IH; autorewrite with signal in *; lia|].
    intros s' r t (->&Ho&Hr). split; [done|]. split; [done|]. destruct r as [result|].
    + destruct Hr as [Hcl Hr]. split; [done|]. intros c [-> Hlen]%Hr. unfold bytes_read. simpl.
      rewrite <-app_assoc in *. by split.
    + destruct Hr as [Hcl Hr]. split; [done|]. rewrite interruptions_read. cbn [interrupted].
      autorewrite with signal in *. lia.
  - destruct (Z.eqb_spec e EINTR) as [->|]; [|by repeat pstep].
    eapply pends_mono; [by apply IH|]. intros s' r t (->&Ho&Hr). split; [done|]. split; [done|].
    destruct r as [result|]; destruct Hr as [Hcl Hr]; (split; [done|]).
    + intros c. apply Hr.
    + rewrite interruptions_read. cbn [interrupted]. rewrite Z.eqb_refl. lia.
Qed.

Lemma open_regular_spec path s :
  pends False (open_regular path) s (λ s' r t,
    s' = s ∧ bytes_read t = [] ∧ interruptions t = 0 ∧
    match r with
    | Ok (fd, _) => omap opened_fd t = [fd] ∧ omap closed_fd t = []
    | Err _ => balanced t
    end).
Proof.
  unfold open_regular. pstep. destruct r as [fd|e]; [|by pstep]. pstep.
  destruct r as [[[] size]|e]; simpl; repeat pstep; done.
Qed.

(** Reading a local file is bounded and complete: whatever the system
    answers, the function has no undefined behaviour and closes exactly the
    descriptors it opened; a result is exactly the bytes the system gave, at
    least one and at most the limit; and the only way not to come to an end
    within [maximum + n] turns is that more than [n] reads were interrupted. *)
Theorem bounded_file_read_exact turns path maximum s t out :
  exec (signal_read_bounded_file turns path maximum s) t out →
  ∃ r, out = Done (s, r) ∧
    match r with
    | Some result =>
        balanced t ∧ ∀ contents, result = Ok contents → contents = bytes_read t ∧ (0 < len contents <= maximum)%N
    | None => (N.of_nat turns <= maximum + N.of_nat (interruptions t))%N
    end.
Proof.
  intros Hex.
  assert (Hp : pends False (signal_read_bounded_file turns path maximum) s (λ s' r t, s' = s ∧
    match r with
    | Some result =>
        balanced t ∧ ∀ contents, result = Ok contents → contents = bytes_read t ∧ (0 < len contents <= maximum)%N
    | None => (N.of_nat turns <= maximum + N.of_nat (interruptions t))%N
    end)).
  { unfold signal_read_bounded_file. destruct (file_parameters_invalid _ _); [by pstep|].
    eapply pends_bind; [apply open_regular_spec|]. intros s' r t' (->&Hb&Hi&Hr). destruct r as [[fd size]|e].
    - destruct Hr as [Ho Hc]. destruct (_ || _).
      + repeat pstep. split; [done|]. split; [|done]. unfold balanced. by rewrite !omap_app, Ho, Hc.
      + eapply pends_mono; [apply read_loop_spec; unfold len; simpl; lia|]. intros s' r t2 (->&Ho2&Hr2).
        split; [done|]. destruct r as [result|]; destruct Hr2 as [Hc2 Hr2].
        * split; [unfold balanced; by rewrite !omap_app, Ho, Hc, Ho2, Hc2|]. intros c [-> Hlen]%Hr2.
          rewrite bytes_read_app, Hb. by split.
        * rewrite interruptions_app. unfold len in Hr2. simpl in Hr2. lia.
    - pstep. split; [done|]. rewrite app_nil_r. by split. }
  apply (pends_sound _ _ _ _ _ _ Hp) in Hex. destruct out as [[s' r]|o|m]; [|done..]. destruct Hex as [-> Hr]. eauto.
Qed.

(** A file of two bytes, with a read that is interrupted. *)
Definition demo_file : list (result (list byte) Z) := [Ok [Byte.x61]; Err EINTR; Ok [Byte.x62]].

Lemma bounded_file_read_exact_witness :
  let r := run (plain_world [] demo_file) (signal_read_bounded_file 10 (Some "file") 4 (signal_connection_new 1)) [] in
  r.2 = Done (signal_connection_new 1, Some (Ok [Byte.x61; Byte.x62])) ∧ balanced r.1 ∧ bytes_read r.1 = [Byte.x61; Byte.x62].
Proof.
  split; [vm_compute; reflexivity|].
  destruct (bounded_file_read_exact 10 (Some "file") 4 (signal_connection_new 1) _ _
    (run_exec (plain_world [] demo_file) (signal_read_bounded_file 10 (Some "file") 4 (signal_connection_new 1)) []))
    as (r&Hout&Hr).
  assert (Heq : (run (plain_world [] demo_file) (signal_read_bounded_file 10 (Some "file") 4 (signal_connection_new 1)) []).2 =
    Done (signal_connection_new 1, Some (Ok [Byte.x61; Byte.x62]))) by (vm_compute; reflexivity).
  rewrite Heq in Hout. injection Hout as <-. destruct Hr as [Hb Hc]. split; [exact Hb|].
  destruct (Hc [Byte.x61; Byte.x62] eq_refl) as [Hbytes _]. by symmetry.
Defined.
