(* ===== verification/InlineImage.v ===== *)
(** * InlineImage: images shown inside a conversation

    Models the rest of [src/inline_image.c].  The decoder is gdk-pixbuf: it is
    fed in chunks and reports the dimensions it has read through a callback,
    whose calls are part of the answers. *)
From Stdlib Require Import Strings.Byte Strings.Ascii.
From S2P Require Import Prelude Event Media InlineGif Ffi Effects Purple PurpleWorld Plugin ReadReceipts.

Definition SIGNAL_INLINE_IMAGE_VALIDATION_CHUNK : nat := 4096.

(** A computation that may read outside its memory. *)
Definition defined {A} (o : option A) : plugin A :=
  match o with Some a => mret a | None => undefined "read outside an object" end.

Section InlineImage.
Context `{Gl : GLib}.

(** The type for the decoder; the outer [None] is a read out of bounds. *)
Definition signal_inline_image_type (mime_type : option string) (data : memory) (size : N) : option (option string) :=
  match mime_type, data with
  | Some mime, Some _ =>
      if (size =? 0)%N then Some None
      else
        jpeg ← (if g_ascii_strcase_equal mime "image/jpeg" then signal_inline_image_has_prefix data size JPEG_MAGIC
                else Some false);
        if jpeg : bool then Some (Some "jpeg")
        else
          png ← (if g_ascii_strcase_equal mime "image/png" then signal_inline_image_has_prefix data size PNG_MAGIC
                 else Some false);
          if png : bool then Some (Some "png")
          else
            gif ← (if g_ascii_strcase_equal mime "image/gif" then signal_inline_gif_is_bounded data size
                   else Some false);
            Some (if gif : bool then Some "gif" else None)
  | _, _ => Some None
  end.

(** [SignalInlineImageValidation]. *)
Record Validation := mkValidation { dimensions_seen : bool; dimensions_supported : bool }.

Definition signal_inline_image_size_prepared (v : Validation) (size : Z * Z) : plugin Validation :=
  let supported := signal_inline_image_dimensions_are_supported size.1 size.2 in
  _ ← when (negb supported) (sys (LoaderSetSize 1 1));
  mret (mkValidation true supported).

Fixpoint sizes_prepared (sizes : list (Z * Z)) (v : Validation) : plugin Validation :=
  match sizes with
  | [] => mret v
  | size :: sizes => v ← signal_inline_image_size_prepared v size; sizes_prepared sizes v
  end.

(** The loop of [signal_inline_image_is_supported]: whether it was complete. *)
Fixpoint write_chunks (fuel : nat) (rest : list byte) (v : Validation) : plugin (bool * Validation) :=
  match rest with
  | [] => mret (true, v)
  | _ =>
      match fuel with
      | 0 => undefined "no fuel"
      | S fuel =>
          r ← sys (LoaderWrite (take SIGNAL_INLINE_IMAGE_VALIDATION_CHUNK rest));
          v ← sizes_prepared r.2 v;
          if negb r.1 || (dimensions_seen v && negb (dimensions_supported v)) then mret (false, v)
          else write_chunks fuel (drop SIGNAL_INLINE_IMAGE_VALIDATION_CHUNK rest) v
      end
  end.

Definition signal_inline_image_is_supported (mime_type : option string) (data : memory) (size : N) : plugin bool :=
  if negb (signal_inline_image_size_is_supported size) then mret false
  else
    image_type ← defined (signal_inline_image_type mime_type data size);
    match image_type with
    | None => mret false
    | Some image_type =>
        loader ← sys (LoaderNew image_type);
        if negb loader then mret false
        else
          let bytes := take (N.to_nat size) (default [] data) in
          written ← write_chunks (length bytes) bytes (mkValidation false false);
          closed ← sys LoaderClose;
          v ← sizes_prepared closed.2 written.2;
          if negb (written.1 && closed.1 && dimensions_seen v && dimensions_supported v) then mret false
          else sys LoaderPixbuf
    end.

(** The text [<img id="n">]. *)
Definition quote : string := String "034"%char "".
Definition image_markup (id : Z) : string := "<img id=" +:+ quote +:+ pretty id +:+ quote +:+ ">".

Definition signal_inline_image_deliver_with_markup_writer (filename : string) (mime_type : option string)
  (data : memory) (size : N) (writer : string → MessageFlags → plugin unit) : plugin bool :=
  supported ← signal_inline_image_is_supported mime_type data size;
  if negb supported then mret false
  else
    image_id ← act (ImageAdd (take (N.to_nat size) (default [] data)) filename);
    if (image_id =? 0)%Z then mret false
    else
      _ ← writer (image_markup image_id) [FlagRecv; FlagImages];
      _ ← act (ImageUnref image_id);
      ask (ImageStored image_id).

Definition signal_inline_image_deliver_group (chat_id : Z) (sender filename : string) (mime_type : option string)
  (data : memory) (size : N) (timestamp : Z) : plugin bool :=
  if is_empty sender then mret false
  else
    signal_inline_image_deliver_with_markup_writer filename mime_type data size
      (λ markup flags, act (ServGotChatIn chat_id sender flags markup timestamp)).

Definition signal_inline_image_deliver_direct (sender filename : string) (mime_type : option string)
  (data : memory) (size : N) (timestamp : Z) : plugin bool :=
  if is_empty sender then mret false
  else
    signal_inline_image_deliver_with_markup_writer filename mime_type data size
      (λ markup flags, act (ServGotIm sender markup flags timestamp)).

(** ** Theorems *)

(** What the decoder was fed, and the dimensions it reported. *)
Definition loader_entry (e : call_entry) : list byte * list (Z * Z) :=
  match e with
  | existT o r =>
      match o as o return purple_resp o → list byte * list (Z * Z) with
      | Sys s =>
          match s in sys_op A return A → list byte * list (Z * Z) with
          | LoaderWrite data => λ r, (data, r.2)
          | LoaderClose => λ r, ([], r.2)
          | _ => λ _, ([], [])
          end
      | _ => λ _, ([], [])
      end r
  end.

Definition loader_bytes (t : list call_entry) : list byte := concat (map (λ e, (loader_entry e).1) t).
Definition loader_sizes (t : list call_entry) : list (Z * Z) := concat (map (λ e, (loader_entry e).2) t).

Lemma loader_bytes_app t t' : loader_bytes (t ++ t') = loader_bytes t ++ loader_bytes t'.
Proof. unfold loader_bytes. by rewrite map_app, concat_app. Qed.
Lemma loader_sizes_app t t' : loader_sizes (t ++ t') = loader_sizes t ++ loader_sizes t'.
Proof. unfold loader_sizes. by rewrite map_app, concat_app. Qed.

(** The validation after these dimensions. *)
Definition prepared (sizes : list (Z * Z)) (v : Validation) : Validation :=
  foldl (λ _ size, mkValidation true (signal_inline_image_dimensions_are_supported size.1 size.2)) v sizes.

Lemma prepared_app sizes sizes' v : prepared (sizes ++ sizes') v = prepared sizes' (prepared sizes v).
Proof. apply foldl_app. Qed.

Lemma prepared_supported sizes :
  dimensions_seen (prepared sizes (mkValidation false false)) = true →
  dimensions_supported (prepared sizes (mkValidation false false)) = true →
  ∃ width height, last sizes = Some (width, height) ∧ signal_inline_image_dimensions_are_supported width height = true.
Proof.
  destruct sizes as [|[w h] sizes _] using rev_ind; [done|]. rewrite prepared_app, last_snoc. simpl. eauto.
Qed.

Lemma sizes_prepared_spec sizes v s :
  pends False (sizes_prepared sizes v) s (λ s' r t,
    s' = s ∧ r = prepared sizes v ∧ loader_bytes t = [] ∧ loader_sizes t = []).
Proof.
  revert v. induction sizes as [|size sizes IH]; intros v; simpl; [by pstep|].
  unfold signal_inline_image_size_prepared. pstep.
  destruct (signal_inline_image_dimensions_are_supported _ _) eqn:E; simpl; repeat pstep;
    (eapply pends_mono; [apply IH|]); intros s' r0 t (->&->&Hb&Hs); simpl; rewrite ?E; done.
Qed.

Lemma write_chunks_spec fuel rest v s :
  length rest <= fuel →
  pends False (write_chunks fuel rest v) s (λ s' r t,
    s' = s ∧ r.2 = prepared (loader_sizes t) v ∧ loader_bytes t `prefix_of` rest ∧ (r.1 = true → loader_bytes t = rest)).
Proof.
  revert rest v. induction fuel as [|fuel IH]; intros [|b rest] v Hlen; cbn [write_chunks];
    try (simpl in Hlen; lia); try (pstep; by split_and!; [|done|apply prefix_nil|done]).
  set (chunk := take SIGNAL_INLINE_IMAGE_VALIDATION_CHUNK (b :: rest)).
  set (left := drop SIGNAL_INLINE_IMAGE_VALIDATION_CHUNK (b :: rest)).
  assert (Hsplit : b :: rest = chunk ++ left) by (unfold chunk, left; by rewrite take_drop). rewrite Hsplit.
  pstep. eapply pends_bind; [apply sizes_prepared_spec|]. intros s1 v1 t1 (->&->&Hb1&Hs1).
  assert (Hdata : ∀ t2, loader_bytes (answered (Sig := purple_sig) (Sys (LoaderWrite chunk)) r :: t1 ++ t2) = chunk ++ loader_bytes t2).
  { intros t2. change (loader_bytes (_ :: ?l)) with (chunk ++ loader_bytes l). by rewrite loader_bytes_app, Hb1. }
  assert (Hsizes : ∀ t2, loader_sizes (answered (Sig := purple_sig) (Sys (LoaderWrite chunk)) r :: t1 ++ t2) = r.2 ++ loader_sizes t2).
  { intros t2. change (loader_sizes (_ :: ?l)) with (r.2 ++ loader_sizes l). by rewrite loader_sizes_app, Hs1. }
  destruct (negb r.1 || _).
  - pstep. rewrite Hdata, Hsizes. split_and!; [done|by rewrite app_nil_r|apply prefix_app, prefix_nil|done].
  - eapply pends_mono; [apply IH|].
    + unfold left. rewrite length_drop. unfold SIGNAL_INLINE_IMAGE_VALIDATION_CHUNK. simpl in *. lia.
    + intros s2 r2 t2 (->&Hv&Hp&Hc). rewrite Hdata, Hsizes, prepared_app. split_and!; [done|done|by apply prefix_app|].
      intros Hr. by rewrite (Hc Hr).
Qed.

Lemma take_len (block : list byte) : take (N.to_nat (len block)) block = block.
Proof. apply take_ge. unfold len. lia. Qed.

(** No type check reads past the data. *)
Lemma image_type_defined mime block :
  ∃ o, signal_inline_image_type mime (Some block) (len block) = Some o.
Proof.
  unfold signal_inline_image_type. destruct mime as [mime|]; [|eauto]. destruct (len block =? 0)%N; [eauto|].
  assert (Hprefix : ∀ prefix, ∃ b, signal_inline_image_has_prefix (Some block) (len block) prefix = Some b).
  { intros prefix. simpl. destruct (len block <? len prefix)%N; eauto. }
  destruct (Hprefix JPEG_MAGIC) as [b1 E1], (Hprefix PNG_MAGIC) as [b2 E2].
  destruct (bounded_inline_gif_decides (take (N.to_nat (len block)) block)) as (b3&E3&_).
  rewrite <-is_bounded_data in E3 by lia. rewrite E1, E2, E3.
  repeat (case_match; simplify_eq/=; eauto).
Qed.

(** The type that is announced for the data is what the data begin with. *)
Inductive image_of_type (mime : string) (block : list byte) : string → Prop :=
| ImageJpeg : g_ascii_strcase_equal mime "image/jpeg" = true → bytes_start_with JPEG_MAGIC block = true →
    image_of_type mime block "jpeg"
| ImagePng : g_ascii_strcase_equal mime "image/png" = true → bytes_start_with PNG_MAGIC block = true →
    image_of_type mime block "png"
| ImageGif : g_ascii_strcase_equal mime "image/gif" = true → (∃ frames, inline_gif block frames) →
    image_of_type mime block "gif".

Lemma prefix_checked (c : bool) block prefix :
  (if c then signal_inline_image_has_prefix (Some block) (len block) prefix else Some false) = Some true →
  c = true ∧ bytes_start_with prefix block = true.
Proof. destruct c; [|done]. simpl. repeat case_match; naive_solver. Qed.

Lemma image_type_sound mime block type :
  signal_inline_image_type (Some mime) (Some block) (len block) = Some (Some type) → image_of_type mime block type.
Proof.
  unfold signal_inline_image_type. destruct (len block =? 0)%N; [done|].
  intros ([]&Hjpeg&H)%bind_Some; [injection H as <-; apply prefix_checked in Hjpeg as []; by constructor|].
  apply bind_Some in H as ([]&Hpng&H); [injection H as <-; apply prefix_checked in Hpng as []; by constructor|].
  apply bind_Some in H as ([]&Hgif&H); simpl in H; simplify_eq.
  destruct (g_ascii_strcase_equal mime "image/gif") eqn:Hmime; [|done]. constructor; [done|].
  rewrite is_bounded_data, take_len in Hgif by lia.
  destruct (bounded_inline_gif_decides block) as (b&Hb&Hiff). apply Hiff. congruence.
Qed.

(** What the calls of a check amount to. *)
Lemma check_trace type t1 r t2 t3 :
  loader_bytes (t2 ++ t3) = [] → loader_sizes (t2 ++ t3) = [] →
  let t := answered (Sig := purple_sig) (Sys (LoaderNew type)) true
    :: t1 ++ answered (Sig := purple_sig) (Sys LoaderClose) r :: t2 ++ t3 in
  loader_bytes t = loader_bytes t1 ∧ loader_sizes t = loader_sizes t1 ++ r.2.
Proof.
  intros Hb Hs t. split.
  - change (loader_bytes (t1 ++ [answered (Sig := purple_sig) (Sys LoaderClose) r] ++ t2 ++ t3) = loader_bytes t1).
    rewrite !(loader_bytes_app t1), loader_bytes_app, Hb. apply app_nil_r.
  - change (loader_sizes (t1 ++ [answered (Sig := purple_sig) (Sys LoaderClose) r] ++ t2 ++ t3) = loader_sizes t1 ++ r.2).
    rewrite !(loader_sizes_app t1), loader_sizes_app, Hs. f_equal. unfold loader_sizes. simpl. by rewrite !app_nil_r.
Qed.

Lemma is_supported_spec mime block s :
  pends False (signal_inline_image_is_supported mime (Some block) (len block)) s (λ s' accepted t,
    s' = s ∧ loader_bytes t `prefix_of` block ∧
    (accepted = true →
       (0 < len block <= SIGNAL_INLINE_IMAGE_MAX_BYTES)%N ∧ loader_bytes t = block ∧ (∃ name type, mime = Some name ∧ image_of_type name block type) ∧
       ∃ width height, last (loader_sizes t) = Some (width, height) ∧
         signal_inline_image_dimensions_are_supported width height = true)).
Proof.
  assert (Hno : ∀ P, loader_bytes [] `prefix_of` block ∧ (false = true → P)) by (intros; split; [apply prefix_nil|done]).
  unfold signal_inline_image_is_supported, signal_inline_image_size_is_supported.
  destruct (0 <? len block)%N eqn:Hpos; [|cbn [andb negb]; pstep; by split].
  destruct (len block <=? _)%N eqn:Hmax; cbn [andb negb]; [|pstep; by split].
  destruct (image_type_defined mime block) as [o Ho]. rewrite Ho. cbn [defined]. pstep.
  destruct o as [type|]; [|pstep; by split].
  destruct mime as [name|]; [|done]. apply image_type_sound in Ho.
  pstep. destruct r; simpl; [|pstep; by split].
  cbn [default]. rewrite take_len.
  eapply pends_bind; [by apply write_chunks_spec|]. intros s1 w t1 (->&Hv&Hp&Hc).
  pstep. eapply pends_bind; [apply sizes_prepared_spec|]. intros s2 v t2 (->&->&Hb2&Hs2).
  assert (Hquiet : ∀ t3, loader_bytes t3 = [] → loader_bytes (t2 ++ t3) = []) by (intros t3 H3; by rewrite loader_bytes_app, Hb2).
  assert (Hmute : ∀ t3, loader_sizes t3 = [] → loader_sizes (t2 ++ t3) = []) by (intros t3 H3; by rewrite loader_sizes_app, Hs2).
  destruct (negb _) eqn:Hok; pstep; (split; [done|]);
    (edestruct check_trace as [-> ->]; [by apply Hquiet|by apply Hmute|]); [done|].
  apply negb_false_iff in Hok. rewrite Hv, <-prepared_app in Hok. bool_prop. split; [done|]. intros _.
  split; [lia|]. split; [auto|]. split; [eauto|]. by apply prepared_supported.
Qed.


End InlineImage.

