(* ===== verification/Transfers.v ===== *)
(** * Transfers: files sent and received through libpurple

    Models [src/connection_transfers.c].  The [data] of a transfer points to an
    outgoing context in the memory of the plugin, to a received file, or is
    null.  Using or freeing a context that is not allocated is undefined.

    libpurple calls the functions registered on a transfer while it works on
    it: those for the end, the denial and the cancellation during any call, the
    start function also during a start, the init function also during a
    request. *)
From S2P Require Import Prelude Event Media InlineGif Ffi Effects Purple Plugin ReadReceipts BuddyList PluginGroups.
From S2P Require Import AttachmentFile InlineImage.

Definition SIGNAL_CORE_MAX_ATTACHMENT_BYTES : N := 25 * 1024 * 1024.

Abbreviation transfers s := (conn_transfers s).

(** ** Memory *)

Definition set_data (data : gmap Xfer XferData) (x : TransferState) : TransferState :=
  mkTransfers (xfer_functions x) data (contexts x) (next_address x) (outgoing_attachments x) (outgoing_attachment_contexts x).
Definition set_contexts (ctxs : gmap N OutgoingContext) (x : TransferState) : TransferState :=
  mkTransfers (xfer_functions x) (xfer_data x) ctxs (next_address x) (outgoing_attachments x) (outgoing_attachment_contexts x).
Definition set_outgoing (table : gmap N Xfer) (x : TransferState) : TransferState :=
  mkTransfers (xfer_functions x) (xfer_data x) (contexts x) (next_address x) table (outgoing_attachment_contexts x).
Definition set_registered (addresses : gset N) (x : TransferState) : TransferState :=
  mkTransfers (xfer_functions x) (xfer_data x) (contexts x) (next_address x) (outgoing_attachments x) addresses.

(** [xfer->data]. *)
Definition data_of (xfer : Xfer) : plugin (option XferData) := gets (λ s, xfer_data (transfers s) !! xfer).
Definition clear_data (xfer : Xfer) : plugin unit :=
  modify (on_transfers (λ x, set_data (delete xfer (xfer_data x)) x)).

(** Reads a context. *)
Definition deref (address : N) : plugin OutgoingContext :=
  s ← get;
  match contexts (transfers s) !! address with
  | Some context => mret context
  | None => undefined "use of a freed attachment context"
  end.

(** Assigns to the fields of a context. *)
Definition assign (address : N) (f : OutgoingContext → OutgoingContext) : plugin unit :=
  context ← deref address;
  modify (on_transfers (λ x, set_contexts (<[address := f context]> (contexts x)) x)).

Definition signal_outgoing_attachment_destroy (address : N) : plugin unit :=
  _ ← deref address;
  modify (on_transfers (λ x, set_contexts (delete address (contexts x)) x)).

(** The context behind the data of an outgoing transfer. *)
Definition outgoing_data (xfer : Xfer) : plugin (option N) :=
  data ← data_of xfer;
  match data with
  | None => mret None
  | Some (DataOutgoing address) => mret (Some address)
  | Some (DataIncoming _) => undefined "received file used as an attachment context"
  end.

(** The first of [xfers] whose data is the context loses it. *)
Fixpoint clear_first (xfers : list Xfer) (address : N) : plugin unit :=
  match xfers with
  | [] => mret tt
  | xfer :: xfers =>
      data ← data_of xfer;
      match data with
      | Some (DataOutgoing a) => if (a =? address)%N then clear_data xfer else clear_first xfers address
      | _ => clear_first xfers address
      end
  end.

(** [purple_xfers_get_all]: libpurple knows the transfers of the plugin and
    those of others, in some order. *)
Definition all_xfers : plugin (list Xfer) :=
  others ← ask AllXfers;
  s ← get;
  let xfers := elements (dom (xfer_data (transfers s))) ++ others in
  order ← call (Order (length xfers));
  mret (reorder order xfers).

Definition signal_outgoing_attachment_detach (address : N) : plugin unit :=
  xfers ← all_xfers;
  _ ← clear_first xfers address;
  _ ← assign address (λ c, mkOutgoing false (out_recipient c) (out_request_id c) (out_group c));
  signal_outgoing_attachment_destroy address.

(** ** Functions registered on transfers *)

(** [purple_xfer_unref].  libpurple keeps a reference until the functions for
    the end, the denial or the cancellation have run; when the last one goes
    the data is null and these functions do nothing. *)
Definition unref_xfer (xfer : Xfer) : plugin unit :=
  convs ← call (Transfer (XferUnref xfer));
  each convs signal_conversation_updated.

(** Removes an entry of [outgoing_attachments] and the reference it holds. *)
Definition remove_outgoing (request_id : N) : plugin unit :=
  s ← get;
  when_some (outgoing_attachments (transfers s) !! request_id) (λ xfer,
    _ ← modify (on_transfers (λ x, set_outgoing (delete request_id (outgoing_attachments x)) x));
    unref_xfer xfer).

Definition signal_outgoing_attachment_free (xfer : Xfer) : plugin unit :=
  data ← outgoing_data xfer;
  when_some data (λ address,
    _ ← clear_data xfer;
    attachment ← deref address;
    _ ← when (out_connected attachment)
          (_ ← modify (on_transfers (λ x, set_registered (outgoing_attachment_contexts x ∖ {[address]}) x));
           when (negb (out_request_id attachment =? 0)%N) (remove_outgoing (out_request_id attachment)));
    signal_outgoing_attachment_destroy address).

Definition signal_outgoing_attachment_cancel (xfer : Xfer) : plugin unit :=
  data ← outgoing_data xfer;
  _ ← when_some data (λ address,
        attachment ← deref address;
        s ← get;
        when (out_connected attachment && negb (conn_closing s) && negb (out_request_id attachment =? 0)%N)
          (_ ← core (CoreCall (CallCancelAttachment (out_request_id attachment))); mret tt));
  signal_outgoing_attachment_free xfer.

Definition signal_attachment_free (xfer : Xfer) : plugin unit :=
  data ← data_of xfer;
  match data with
  | None => mret tt
  | Some (DataIncoming _) => clear_data xfer
  | Some (DataOutgoing _) => undefined "attachment context used as a received file"
  end.

(** The functions for the end, the denial and the cancellation. *)
Definition final_function (xfer : Xfer) (event : XferEvent) : plugin unit :=
  s ← get;
  match xfer_functions (transfers s) !! xfer, event with
  | Some XferSend, (XferEnd | XferDenied) => signal_outgoing_attachment_free xfer
  | Some XferSend, XferCancel => signal_outgoing_attachment_cancel xfer
  | Some XferReceive, (XferEnd | XferDenied | XferCancel) => signal_attachment_free xfer
  | _, _ => mret tt
  end.

Definition run_final (xfer : Xfer) (r : xfer_run) : plugin unit :=
  _ ← each r.1 (final_function xfer);
  each r.2 signal_conversation_updated.

(** A call during which only these run. *)
Definition xfer_call (xfer : Xfer) (o : xfer_op xfer_run) : plugin unit :=
  r ← call (Transfer o);
  run_final xfer r.

Definition signal_attachment_start (xfer : Xfer) : plugin unit :=
  data ← data_of xfer;
  match data with
  | None => xfer_call xfer (XferCancelLocal xfer)
  | Some (DataOutgoing _) => undefined "attachment context used as a received file"
  | Some (DataIncoming bytes) =>
      r ← call (Transfer (XferWriteFile xfer bytes));
      _ ← run_final xfer r.2;
      if negb r.1 then mret tt
      else
        _ ← call (Transfer (XferUpdateProgress xfer));
        _ ← call (Transfer (XferSetCompleted xfer));
        xfer_call xfer (XferEndOp xfer)
  end.

Definition start_function (xfer : Xfer) (event : XferEvent) : plugin unit :=
  s ← get;
  match xfer_functions (transfers s) !! xfer, event with
  | Some XferReceive, XferStart => signal_attachment_start xfer
  | _, _ => final_function xfer event
  end.

(** [purple_xfer_start]. *)
Definition xfer_start (xfer : Xfer) : plugin unit :=
  r ← call (Transfer (XferStartOp xfer));
  _ ← each r.1 (start_function xfer);
  each r.2 signal_conversation_updated.

Definition signal_attachment_init (xfer : Xfer) : plugin unit := xfer_start xfer.

(** ** Sending *)

Section Sending.
Context `{Gl : GLib}.
Variable files : file_metadata.
Variable turns : nat.

Definition file_error_message (e : FileError) : string :=
  match e with
  | FileInvalidArgument => "Attachment file parameters are invalid"
  | FileErrno n operation => "Could not " +:+ operation +:+ " attachment file: " +:+ g_strerror n
  | FileNotRegular => "Attachment path is not a regular file"
  | FileTooLarge | FileInvalidData => "Signal attachments must be between 1 byte and 25 MiB"
  end.

(** [purple_xfer_error] and [purple_xfer_cancel_local]. *)
Definition refuse_xfer (xfer : Xfer) (message : string) : plugin unit :=
  _ ← call (Transfer (XferReportError xfer message));
  xfer_call xfer (XferCancelLocal xfer).

(** [g_hash_table_insert] drops the reference of an entry it replaces. *)
Definition insert_outgoing (request_id : N) (xfer : Xfer) : plugin unit :=
  s ← get;
  _ ← modify (on_transfers (λ x, set_outgoing (<[request_id := xfer]> (outgoing_attachments x)) x));
  when_some (outgoing_attachments (transfers s) !! request_id) unref_xfer.

Definition set_out_request_id (id : N) (c : OutgoingContext) : OutgoingContext :=
  mkOutgoing (out_connected c) (out_recipient c) id (out_group c).

(** From the start of the transfer on. *)
Definition submit_attachment (xfer : Xfer) (local_filename mime_type : string) : plugin unit :=
  _ ← call (Transfer (XferRef xfer));
  _ ← xfer_start xfer;
  data ← outgoing_data xfer;
  match data with
  | None => unref_xfer xfer
  | Some address =>
      attachment ← deref address;
      if negb (out_connected attachment) then undefined "null connection"
      else
        status ← core (CoreCall (CallSendFileAttachment files (out_request_id attachment)
                   (c_arg (out_recipient attachment)) (c_arg (g_path_get_basename local_filename)) (c_arg mime_type)
                   (c_arg local_filename) (out_group attachment)));
        match status with
        | StatusOk =>
            _ ← call (Transfer (XferRef xfer));
            _ ← insert_outgoing (out_request_id attachment) xfer;
            unref_xfer xfer
        | _ =>
            _ ← assign address (set_out_request_id 0);
            _ ← refuse_xfer xfer "The Signal attachment could not be queued";
            unref_xfer xfer
        end
  end.

(** If the turns are used up, the function is still reading. *)
Definition signal_outgoing_attachment_init (xfer : Xfer) : plugin unit :=
  data ← outgoing_data xfer;
  match data with
  | None => xfer_call xfer (XferCancelLocal xfer)
  | Some address =>
      attachment ← deref address;
      s ← get;
      if negb (out_connected attachment) || conn_closing s then xfer_call xfer (XferCancelLocal xfer)
      else if out_group attachment && negb (signal_group_can_send s (Some (out_recipient attachment)))
      then refuse_xfer xfer "This Signal group is no longer active"
      else
        local_filename ← ask (XferFilename xfer);
        inspected ← signal_inspect_attachment_file turns local_filename SIGNAL_CORE_MAX_ATTACHMENT_BYTES;
        match inspected with
        | None => mret tt
        | Some (Err e) => refuse_xfer xfer (file_error_message e)
        | Some (Ok (size, mime_type)) =>
            _ ← call (Transfer (XferSetSize xfer size));
            id ← take_request_id;
            _ ← assign address (set_out_request_id id);
            submit_attachment xfer (default "" local_filename) mime_type
        end
  end.

(** All functions a request may run. *)
Definition request_function (xfer : Xfer) (event : XferEvent) : plugin unit :=
  s ← get;
  match xfer_functions (transfers s) !! xfer, event with
  | Some XferSend, XferInit => signal_outgoing_attachment_init xfer
  | Some XferReceive, XferInit => signal_attachment_init xfer
  | _, _ => start_function xfer event
  end.

Definition xfer_request (xfer : Xfer) (o : xfer_op xfer_run) : plugin unit :=
  r ← call (Transfer o);
  _ ← each r.1 (request_function xfer);
  each r.2 signal_conversation_updated.

(** A new transfer with its functions and its data. *)
Definition register_xfer (type : XferType) (data : XferData) : plugin Xfer :=
  s ← get;
  let xfer := next_address (transfers s) in
  _ ← modify (on_transfers (λ x,
        mkTransfers (<[xfer := type]> (xfer_functions x)) (<[xfer := data]> (xfer_data x)) (contexts x) (xfer + 1)
          (outgoing_attachments x) (outgoing_attachment_contexts x)));
  mret xfer.

(** [g_new0(SignalOutgoingAttachment, 1)], added to the contexts of the
    connection. *)
Definition allocate_context (recipient : string) (group : bool) : plugin N :=
  s ← get;
  let address := next_address (transfers s) in
  _ ← modify (on_transfers (λ x,
        mkTransfers (xfer_functions x) (xfer_data x) (<[address := mkOutgoing true recipient 0 group]> (contexts x))
          (address + 1) (outgoing_attachments x) ({[address]} ∪ outgoing_attachment_contexts x)));
  mret address.

Definition signal_new_attachment_xfer (display_peer recipient : option string) (group : bool) : plugin (option Xfer) :=
  s ← get;
  match display_peer, recipient with
  | Some display_peer, Some recipient =>
      if conn_closing s then mret None
      else
        created ← call (Transfer (XferNew (conn_account s) XferSend display_peer));
        if negb created then mret None
        else
          address ← allocate_context recipient group;
          xfer ← register_xfer XferSend (DataOutgoing address);
          mret (Some xfer)
  | _, _ => mret None
  end.

Definition signal_can_receive_file (s : SignalConnection) (who : option string) : bool :=
  negb (conn_closing s) && present who.

(** [purple_xfer_request_accepted] with a file name, [purple_xfer_request]
    without. *)
Definition request_xfer (xfer : option Xfer) (filename : option string) : plugin unit :=
  when_some xfer (λ xfer,
    match filename with
    | Some filename => xfer_request xfer (XferRequestAccepted xfer filename)
    | None => xfer_request xfer (XferRequest xfer)
    end).

Definition signal_new_xfer (who : option string) : plugin (option Xfer) := signal_new_attachment_xfer who who false.

Definition signal_send_file (who filename : option string) : plugin unit :=
  xfer ← signal_new_xfer who;
  request_xfer xfer filename.

(** ** Outcomes the core reports *)

Definition find_outgoing (event : Event) : plugin (option Xfer) :=
  gets (λ s, if (ev_request_id event =? 0)%N then None else outgoing_attachments (transfers s) !! ev_request_id event).

Definition signal_outgoing_attachment_complete (event : Event) : plugin bool :=
  xfer ← find_outgoing event;
  match xfer with
  | None => mret false
  | Some xfer =>
      size ← ask (XferSize xfer);
      _ ← call (Transfer (XferSetBytesSent xfer size));
      _ ← call (Transfer (XferUpdateProgress xfer));
      _ ← call (Transfer (XferSetCompleted xfer));
      _ ← xfer_call xfer (XferEndOp xfer);
      mret true
  end.

Definition signal_outgoing_attachment_failed (event : Event) : plugin bool :=
  xfer ← find_outgoing event;
  match xfer with
  | None => mret false
  | Some xfer =>
      _ ← call (Transfer (XferReportError xfer (default "Signal attachment send failed" (ev_text event))));
      _ ← xfer_call xfer (XferCancelRemote xfer);
      mret true
  end.

(** ** Receiving *)

Definition MAX_RECEIVED_BYTES : N := 50 * 1024 * 1024.

(** [(time_t)(event->timestamp_ms / 1000)], or the time of the clock. *)
Definition event_time (event : Event) : plugin Z :=
  if (ev_timestamp_ms event =? 0)%N then ask Now else mret (Z.of_N (ev_timestamp_ms event / 1000)).

Definition attachment_filename (title : option string) : string :=
  let filename := g_path_get_basename (default "signal-attachment" (filled title)) in
  if String.eqb filename "." || String.eqb filename ".." || String.eqb filename "/" then "signal-attachment" else filename.

(** The transfer that is offered when the image could not be shown inline. *)
Definition offer_attachment (conversation : option Conversation) (peer filename : string) (event : Event) : plugin unit :=
  s ← get;
  created ← call (Transfer (XferNew (conn_account s) XferReceive peer));
  if negb created then
    _ ← act (Notify NotifyError "Signal attachment unavailable" (Some "Could not create a receive transfer")
               (Some "Restart Pidgin, then ask the sender to resend the attachment."));
    signal_queue_final_read conversation event
  else
    xfer ← register_xfer XferReceive (DataIncoming (ev_data event));
    _ ← call (Transfer (XferSetFilename xfer filename));
    _ ← call (Transfer (XferSetSize xfer (len (ev_data event))));
    _ ← xfer_request xfer (XferRequest xfer);
    signal_queue_final_read conversation event.

Definition signal_deliver_attachment (event : Event) : plugin bool :=
  match filled (ev_peer_id event) with
  | None => mret false
  | Some peer =>
      if bool_decide (ev_chat_id event = Some "") || (len (ev_data event) =? 0)%N
         || (MAX_RECEIVED_BYTES <? len (ev_data event))%N
      then mret false
      else
        conversation ← match ev_chat_id event with
                       | Some chat =>
                           _ ← modify (on_groups (λ g, set_active ({[chat]} ∪ active_group_keys g) g));
                           signal_open_group chat None
                       | None => mret None
                       end;
        can_present ← signal_event_can_present conversation event;
        if negb can_present then mret true
        else
          let filename := attachment_filename (ev_title event) in
          timestamp ← event_time event;
          let data := Some (ev_data event) in
          let size := len (ev_data event) in
          shown ← match ev_chat_id event with
                  | Some _ =>
                      match conversation with
                      | Some conv =>
                          chat_id ← ask (ConvChatId conv);
                          delivered ← signal_inline_image_deliver_group chat_id peer filename (ev_text event) data size timestamp;
                          mret (delivered, conversation)
                      | None => mret (false, conversation)
                      end
                  | None =>
                      delivered ← signal_inline_image_deliver_direct peer filename (ev_text event) data size timestamp;
                      s ← get;
                      conversation ← ask (FindConversation ConvIm peer (conn_account s));
                      mret (delivered, conversation)
                  end;
          _ ← (if shown.1 : bool then signal_queue_final_read shown.2 event
               else offer_attachment shown.2 peer filename event);
          mret true
  end.

End Sending.
