(* ===== verification/Adapter.v ===== *)
(** * Adapter: events of the core become libpurple calls

    Models the event side of [src/connection.c]: the handlers of the events,
    [signal_dispatch_event], and [signal_poll_backend], which polls the core,
    dispatches and acknowledges.  [src/util.c] supplies the message flags. *)
From S2P Require Import Prelude Event Media InlineGif Ffi Effects Purple Plugin ReadReceipts BuddyList PluginGroups.
From S2P Require Import AttachmentFile InlineImage Transfers.

Section Adapter.
Context `{Gl : GLib}.
Variable files : file_metadata.
Variable turns : nat.

Definition signal_message_flags (outgoing : bool) : MessageFlags :=
  if outgoing then [FlagSend; FlagRemoteSend] else [FlagRecv].

Definition notify (kind : NotifyKind) (title primary secondary : string) : plugin unit :=
  act (Notify kind title (Some primary) (Some secondary)).

(** ** Linking *)

Definition signal_show_link_qr (event : Event) : plugin unit :=
  _ ← act (CloseRequests HandleLinkQr);
  _ ← modify (set_link_qr (Some (ev_data event)));
  act (RequestLinkQr (ev_data event) (default "" (ev_text event))).

(** ** Messages *)

Definition signal_deliver_direct (event : Event) : plugin bool :=
  match filled (ev_peer_id event), ev_text event with
  | Some peer, Some text =>
      s ← get;
      let account := conn_account s in
      can_present ← signal_event_can_present None event;
      if negb can_present then mret true
      else
        found ← ask (FindConversation ConvIm peer account);
        conversation ← match found with Some conv => mret (Some conv) | None => act (ConversationNew account peer) end;
        let escaped := g_markup_escape_text text in
        timestamp ← event_time event;
        if negb (has_flag FLAG_OUTGOING event) then
          _ ← act (ServGotIm peer escaped (signal_message_flags false) timestamp);
          _ ← signal_queue_final_read conversation event;
          mret true
        else
          username ← ask (AccountUsername account);
          _ ← when_some conversation (λ conv, act (ImWrite conv username escaped (signal_message_flags true) timestamp));
          mret true
  | _, _ => mret false
  end.

Definition signal_deliver_group (event : Event) : plugin bool :=
  match filled (ev_chat_id event), filled (ev_peer_id event), ev_text event with
  | Some chat, Some peer, Some text =>
      _ ← modify (on_groups (λ g, set_active ({[chat]} ∪ active_group_keys g) g));
      conversation ← signal_open_group chat (ev_title event);
      can_present ← signal_event_can_present conversation event;
      if negb can_present then mret true
      else
        id ← signal_group_id chat (ev_title event);
        timestamp ← event_time event;
        _ ← act (ServGotChatIn (guint_as_int id) peer (signal_message_flags (has_flag FLAG_OUTGOING event))
                   (g_markup_escape_text text) timestamp);
        _ ← signal_queue_final_read conversation event;
        mret true
  | _, _, _ => mret false
  end.

(** ** Identities *)

Definition signal_identity_changed (event : Event) : plugin unit :=
  s ← get;
  match filled (ev_peer_id event) with
  | None => mret tt
  | Some peer =>
      if bool_decide (peer ∈ conn_identity_changes_seen s) then mret tt
      else
        _ ← modify (on_identities (λ i, ({[peer]} ∪ i.1, i.2)));
        if negb (ev_value event =? 0)%Z then
          _ ← modify (on_identities (λ i, (i.1, {[peer]} ∪ i.2)));
          notify NotifyWarning "Signal safety number changed" "Messages to a verified Signal contact are blocked"
            "Verify the contact through another channel, then right-click the buddy and choose “Accept changed Signal identity”."
        else
          _ ← notify NotifyInfo "Signal safety number changed" "Communication continued for an unverified contact"
                "Verify the safety number in an official Signal client before sharing sensitive information.";
          id ← take_request_id;
          _ ← core (CoreCall (CallDismissIdentity id (c_arg peer)));
          mret tt
  end.

Definition signal_identity_accepted (event : Event) : plugin unit :=
  match ev_peer_id event with
  | None => mret tt
  | Some peer =>
      _ ← modify (on_identities (λ i, (i.1 ∖ {[peer]}, i.2 ∖ {[peer]})));
      notify NotifyInfo "Signal identity accepted" "Messaging can continue"
        "The contact is now unverified until its safety number is verified again."
  end.

Definition signal_session_reset (event : Event) : plugin unit :=
  match ev_peer_id event with
  | None => mret tt
  | Some _ =>
      notify NotifyInfo "Signal session reset" "Session reset successfully"
        "A fresh Signal session will be established on the next message."
  end.

Definition signal_set_avatar (event : Event) : plugin unit :=
  s ← get;
  let account := conn_account s in
  let data_copy := if decide (ev_data event = []) then None else Some (ev_data event) in
  match filled (ev_peer_id event), filled (ev_chat_id event) with
  | Some peer, _ => act (SetUserIcon account peer data_copy (ev_title event))
  | None, Some chat_id =>
      chat ← signal_group_sync_lookup_chat account chat_id;
      when_some chat (λ chat, act (SetNodeIcon (NodeChat chat) data_copy))
  | None, None => mret tt
  end.

(** ** Leaving groups *)

Definition signal_group_leave_failed (event : Event) : plugin bool :=
  s ← get;
  match ev_chat_id event with
  | Some chat =>
      if bool_decide (chat ∈ pending_group_leaves (groups s)) then
        _ ← modify (on_groups (λ g, set_leaves (pending_group_leaves g ∖ {[chat]}) g));
        mret true
      else mret false
  | None => mret false
  end.

Definition signal_group_left (event : Event) : plugin unit :=
  match filled (ev_chat_id event) with
  | None => mret tt
  | Some chat =>
      title ← signal_group_display_title chat;
      _ ← signal_deactivate_group chat true;
      notify NotifyInfo "Signal group left" title "The group was left on Signal and removed from the chat list."
  end.

(** ** Dispatch *)

(** [SIGNAL_EVENT_READY]. *)
Definition on_ready : plugin unit :=
  _ ← act (CloseRequests HandleLinkQr);
  _ ← modify (set_link_qr None);
  _ ← act (ConnectionProgress "Signal messages synchronized" 2);
  _ ← act (SetConnectionState StateConnected);
  s ← get;
  _ ← when (negb (group_snapshot_complete (groups s)) && (group_sync_fallback_timer_id (groups s) =? 0)%N)
        (timer ← act_quietly (TimeoutAdd 15000 TimerGroupSync);
         modify (on_groups (set_fallback_timer timer)));
  signal_flush_pending_reads.

(** [SIGNAL_EVENT_RECOVERING]. *)
Definition on_recovering : plugin unit :=
  _ ← modify (on_groups (set_snapshot_complete false));
  stop_fallback_timer.

Definition on_typing (event : Event) : plugin unit :=
  when_some (ev_peer_id event) (λ peer,
    if negb (ev_value event =? 0)%Z then act (ServGotTyping peer 15) else act (ServGotTypingStopped peer)).

(** [SIGNAL_EVENT_ERROR]: whether the connection goes on. *)
Definition on_error (event : Event) : plugin bool :=
  if has_flag FLAG_FATAL event then
    _ ← act (ConnectionError ReasonOther (default "Signal backend failed" (ev_text event)));
    mret false
  else if has_flag FLAG_TRANSIENT event then mret true
  else
    leave_failed ← signal_group_leave_failed event;
    if leave_failed : bool then
      _ ← notify NotifyError "Could not leave Signal group" "The group was not removed"
            (default "Unknown error" (ev_text event));
      mret true
    else
      failed ← signal_outgoing_attachment_failed event;
      _ ← when (negb failed)
            (notify NotifyError "signal-purple" (default "Signal operation failed" (filled (ev_title event)))
               (default "" (ev_text event)));
      mret true.

(** A handler after which the event counts as accepted and the connection goes
    on. *)
Definition accepted {A} (m : plugin A) : plugin (bool * bool) := _ ← m; mret (true, true).
(** A projection, which says itself whether it was accepted. *)
Definition projected (m : plugin bool) : plugin (bool * bool) := ok ← m; mret (true, ok).

(** [signal_dispatch_event]: whether to go on, and [*accepted]. *)
Definition signal_dispatch_event (event : Event) : plugin (bool * bool) :=
  let kind_is k := (ev_kind event =? k)%N in
  if kind_is EVENT_LINK_QR then
    accepted (_ ← signal_show_link_qr event; act (ConnectionProgress "Waiting for your phone" 1))
  else if kind_is EVENT_READY then accepted on_ready
  else if kind_is EVENT_RECOVERING then accepted on_recovering
  else if kind_is EVENT_ACCOUNT then accepted (signal_set_account_identity event)
  else if kind_is EVENT_CONTACT_SYNC_BEGIN then accepted signal_begin_contact_sync
  else if kind_is EVENT_CONTACT then accepted (signal_add_contact event)
  else if kind_is EVENT_CONTACT_SYNC_END then accepted signal_end_contact_sync
  else if kind_is EVENT_GROUP_SYNC_BEGIN then accepted signal_begin_group_sync
  else if kind_is EVENT_GROUP then accepted (signal_add_group event)
  else if kind_is EVENT_GROUP_MEMBER then accepted (signal_add_group_member event)
  else if kind_is EVENT_GROUP_SYNC_END then accepted (signal_end_group_sync event)
  else if kind_is EVENT_MESSAGE then projected (signal_deliver_direct event)
  else if kind_is EVENT_GROUP_MESSAGE then projected (signal_deliver_group event)
  else if kind_is EVENT_GROUP_LEFT then accepted (signal_group_left event)
  else if kind_is EVENT_ATTACHMENT then projected (signal_deliver_attachment files turns event)
  else if kind_is EVENT_ATTACHMENT_SENT then accepted (signal_outgoing_attachment_complete event)
  else if kind_is EVENT_TYPING then accepted (on_typing event)
  else if kind_is EVENT_RECEIPT then mret (true, true)
  else if kind_is EVENT_IDENTITY_CHANGE then accepted (signal_identity_changed event)
  else if kind_is EVENT_IDENTITY_ACCEPTED then accepted (signal_identity_accepted event)
  else if kind_is EVENT_SESSION_RESET then accepted (signal_session_reset event)
  else if kind_is EVENT_AVATAR then accepted (signal_set_avatar event)
  else if kind_is EVENT_NOTICE_RESERVED then
    accepted (act (Notify NotifyInfo "signal-purple" (ev_title event) (ev_text event)))
  else if kind_is EVENT_ERROR then keep ← on_error event; mret (keep, keep)
  else if kind_is EVENT_DISCONNECTED then
    _ ← act (ConnectionError ReasonNetwork (default "Signal connection ended unexpectedly" (ev_text event)));
    mret (false, false)
  else mret (true, false).

(** ** Polling *)

(** The events a plugin acknowledges. *)
Definition acknowledges (event : SignalEvent) : bool :=
  negb (se_request_id event =? 0)%N &&
  ((se_kind event =? EVENT_MESSAGE)%N || (se_kind event =? EVENT_GROUP_MESSAGE)%N || (se_kind event =? EVENT_ATTACHMENT)%N).

Definition incompatible (event : SignalEvent) : bool :=
  negb (se_abi_version event =? ABI_VERSION)%N || (se_struct_size event <? repr_c_size SignalEvent_fields)%N.

Definition fail_connection (reason : ErrorReason) (text : string) : plugin bool :=
  _ ← act (ConnectionError reason text); mret false.

(** The loop of [signal_poll_backend]; the result is [G_SOURCE_CONTINUE]. *)
Fixpoint poll_loop (rounds : nat) (notifier_failed : bool) : plugin bool :=
  match rounds with
  | 0 => mret true
  | S rounds =>
      r ← core CorePoll;
      if (r.1 <? 0)%Z then fail_connection ReasonNetwork "Signal backend event channel disconnected unexpectedly"
      else if (r.1 =? 0)%Z then
        if notifier_failed
        then fail_connection ReasonNetwork "Signal backend event notifier disconnected unexpectedly"
        else mret true
      else
        match r.2 with
        | None => fail_connection ReasonOther "Signal backend returned an incompatible event"
        | Some event =>
            if incompatible event then
              _ ← core (CoreEventFree event);
              fail_connection ReasonOther "Signal backend returned an incompatible event"
            else
              keep ← signal_dispatch_event (c_view event);
              if negb keep.1 then _ ← core (CoreEventFree event); mret false
              else
                _ ← when (acknowledges event)
                      (_ ← core (CoreCall (CallAckMessage (se_request_id event))); mret tt);
                _ ← core (CoreEventFree event);
                poll_loop rounds notifier_failed
        end
  end.

Definition signal_poll_backend (notifier_failed : bool) : plugin bool :=
  s ← get;
  if conn_closing s || negb (conn_core s) then mret false else poll_loop 64 notifier_failed.

End Adapter.
