(* ===== verification/UserActions.v ===== *)
(** * UserActions: what the user and libpurple ask of the plugin

    Models the rest of [src/connection.c] (login, close, sending, leaving
    groups, the menu of a buddy-list node) and [src/util.c] (the place of the
    store and its passphrase).  Each function is the one registered in the
    protocol table of [src/plugin.c], for an account that has a connection;
    without one they return at once.  A node of another account belongs to
    another connection. *)
From S2P Require Import Prelude Event Media InlineGif Ffi Effects Purple Plugin ReadReceipts BuddyList PluginGroups.
From S2P Require Import AttachmentFile InlineImage Transfers Adapter.

(** Linux values of [errno]. *)
Definition ENOENT : Z := 2.
Definition EIO : Z := 5.
Definition E2BIG : Z := 7.
Definition EAGAIN : Z := 11.
Definition EINVAL : Z := 22.
Definition ENOTCONN : Z := 107.

Definition SIGNAL_PLUGIN_ID : string := "prpl-adrighem-signal".
Definition SIGNAL_STORE_ID_KEY : string := "store-id".
Definition SIGNAL_STORE_PATH_KEY : string := "store-path".
Definition SIGNAL_DEVICE_NAME_KEY : string := "device-name".

Definition signal_status_to_errno (status : SignalStatus) : Z :=
  match status with
  | StatusOk => 1
  | NotReady => - ENOTCONN
  | QueueFull => - EAGAIN
  | InvalidArgument => - EINVAL
  | InternalError => - EIO
  end.

Section UserActions.
Context `{Gl : GLib}.
Variable files : file_metadata.
Variable turns : nat.

(** ** Sending *)

Definition signal_plaintext_from_markup (markup : option string) : option string :=
  purple_markup_strip_html <$> markup.

Definition signal_send_im (who message : option string) : plugin Z :=
  s ← get;
  if conn_closing s then mret (- ENOTCONN)%Z
  else
    match filled who with
    | None => mret (- EINVAL)%Z
    | Some who =>
        if (MAX_RECIPIENT_BYTES <? str_len who)%N then mret (- EINVAL)%Z
        else
          match signal_plaintext_from_markup message with
          | None => mret (- EINVAL)%Z
          | Some plain =>
              if (MAX_MESSAGE_BYTES <? str_len plain)%N then mret (- E2BIG)%Z
              else
                let account := conn_account s in
                found ← ask (FindConversation ConvIm who account);
                _ ← match found with
                    | Some _ => mret tt
                    | None => _ ← act (ConversationNew account who); mret tt
                    end;
                id ← take_request_id;
                status ← core (CoreCall (CallSendMessage id (c_arg who) (c_arg plain)));
                mret (signal_status_to_errno status)
          end
    end.

(** [typing] is [state == PURPLE_TYPING]. *)
Definition signal_send_typing (who : option string) (typing : bool) : plugin unit :=
  s ← get;
  if conn_closing s then mret tt
  else
    id ← take_request_id;
    _ ← core (CoreCall (CallSetTyping id (bytes_of <$> who) (if typing then 1 else 0)%Z));
    mret tt.

(** [g_hash_table_lookup(group_keys_by_id, GINT_TO_POINTER(id))]. *)
Definition group_key_of_id (s : SignalConnection) (id : Z) : option string :=
  if (id <? 0)%Z then None else group_keys_by_id (groups s) !! Z.to_N id.

Definition signal_chat_send (id : Z) (message : option string) (flags : MessageFlags) : plugin Z :=
  s ← get;
  if conn_closing s then mret (- ENOTCONN)%Z
  else
    let group_key := group_key_of_id s id in
    let account := conn_account s in
    if negb (signal_group_can_send s group_key) then
      conversation ← signal_group_sync_lookup_conversation account group_key;
      _ ← when_some conversation (λ conv,
            now ← ask Now;
            act (ConversationWrite conv "" "This Signal group is currently unavailable or inactive."
                   [FlagError; FlagNoLog] now));
      mret (- ENOENT)%Z
    else
      conversation ← signal_group_sync_lookup_conversation account group_key;
      match conversation, group_key with
      | Some conv, Some key =>
          left ← ask (HasLeft conv);
          if left : bool then mret (- ENOENT)%Z
          else
            match signal_plaintext_from_markup message with
            | None => mret (- EINVAL)%Z
            | Some plain =>
                if (MAX_MESSAGE_BYTES <? str_len plain)%N then mret (- E2BIG)%Z
                else
                  id ← take_request_id;
                  status ← core (CoreCall (CallSendGroupMessage id (c_arg key) (c_arg plain)));
                  _ ← when (bool_decide (status = StatusOk) && negb (bool_decide (FlagInvisible ∈ flags)))
                        (nick ← ask (ConvNick conv);
                         when_some nick (λ nick,
                           now ← ask Now;
                           act (ChatWrite conv nick (default "" message) flags now)));
                  mret (signal_status_to_errno status)
            end
      | _, _ => mret (- ENOENT)%Z
      end.

Definition signal_chat_can_receive_file (s : SignalConnection) (id : Z) : bool :=
  negb (conn_closing s) && signal_group_can_send s (group_key_of_id s id).

Definition signal_chat_send_file (id : Z) (filename : option string) : plugin unit :=
  s ← get;
  if negb (signal_chat_can_receive_file s id) then mret tt
  else
    let group_key := group_key_of_id s id in
    xfer ← signal_new_attachment_xfer (signal_group_title s <$> group_key) group_key true;
    request_xfer files turns xfer filename.

(** ** Joining *)

(** The components of a chat as libpurple passes them. *)
Definition component_group_key (components : gmap string string) : option string :=
  match components !! SIGNAL_GROUP_COMPONENT_KEY with
  | Some key => Some key
  | None => components !! SIGNAL_LEGACY_GROUP_COMPONENT_KEY
  end.

Definition signal_chat_info_defaults (chat_name : option string) : gmap string string :=
  match filled chat_name with Some name => {[SIGNAL_GROUP_COMPONENT_KEY := name]} | None => ∅ end.

Definition signal_get_chat_name (components : option (gmap string string)) : string :=
  default "" (components ≫= component_group_key).

Definition signal_join_chat (components : option (gmap string string)) : plugin unit :=
  s ← get;
  if conn_closing s then mret tt
  else
    match filled (components ≫= component_group_key) with
    | None => mret tt
    | Some key =>
        if signal_group_is_active s (Some key) then _ ← signal_open_group key None; mret tt
        else
          let r := signal_group_sync_defer_join (pending_group_joins (groups s)) (group_snapshot_complete (groups s)) key in
          if r.1 then modify (on_groups (set_joins r.2))
          else if bool_decide (key ∈ pending_group_leaves (groups s)) then
            notify NotifyError "Signal group unavailable" "This Signal group is being left"
              "Wait for a pending leave to complete."
          else _ ← signal_open_group key None; mret tt
    end.

Definition signal_chat_leave (id : Z) : plugin unit := act (ServGotChatLeft id).

Definition signal_chat_buddy_alias (who : option string) : plugin (option string) :=
  s ← get;
  match who, conn_local_aci s with
  | Some who, Some aci =>
      if negb (String.eqb who aci) then mret None
      else
        alias ← ask (AccountAlias (conn_account s));
        mret (match filled alias with Some alias => Some alias | None => filled (conn_remote_profile_name s) end)
  | _, _ => mret None
  end.

(** [signal_get_info] of [plugin.c]; the alias is read twice, with nothing in
    between. *)
Definition signal_get_info (who : string) : plugin unit :=
  s ← get;
  buddy ← ask (FindBuddy (conn_account s) who);
  alias ← match buddy with Some buddy => ask (BuddyServerAlias buddy) | None => mret None end;
  act (NotifyUserinfo who
    ([("Signal identifier", who)] ++
     match alias with Some alias => [("Synced name", alias)] | None => [] end ++
     [("Safety number", "Not exposed by this build; verify sensitive chats in an official Signal client.")])).

(** ** Identities and sessions *)

(** The name of a buddy of this account; buddies of libpurple have one. *)
Definition own_buddy (node : BlistNode) : plugin (option string) :=
  s ← get;
  match node with
  | NodeBuddy buddy =>
      account ← ask (BuddyAccount buddy);
      if negb (account =? conn_account s)%N then mret None else ask (BuddyName buddy)
  | _ => mret None
  end.

Definition signal_accept_changed_identity (node : BlistNode) : plugin unit :=
  peer ← own_buddy node;
  s ← get;
  match peer with
  | None => mret tt
  | Some peer =>
      if conn_closing s || negb (bool_decide (peer ∈ conn_pending_identity_changes s)) then mret tt
      else
        id ← take_request_id;
        status ← core (CoreCall (CallAcceptIdentity id (c_arg peer)));
        when (negb (bool_decide (status = StatusOk)))
          (notify NotifyError "Could not accept Signal identity" "The request could not be queued"
             "Reconnect the account and try again.")
  end.

Definition signal_reset_session (node : BlistNode) : plugin unit :=
  peer ← own_buddy node;
  s ← get;
  match peer with
  | None => mret tt
  | Some peer =>
      if conn_closing s then mret tt
      else
        id ← take_request_id;
        status ← core (CoreCall (CallResetSession id (c_arg peer)));
        when (negb (bool_decide (status = StatusOk)))
          (notify NotifyError "Could not reset Signal session" "The request could not be queued"
             "Reconnect the account and try again.")
  end.

(** ** Leaving a group *)

Definition signal_group_leave_prompted (s : SignalConnection) (group_key : string) : bool :=
  existsb (λ r, String.eqb (leave_group_key r) group_key) (conn_leave_requests s).

(** The group of a chat node that can be left. *)
Definition leavable (s : SignalConnection) (group_key : option string) : option string :=
  match group_key with
  | Some key =>
      if negb (conn_closing s) && signal_group_is_active s (Some key)
         && negb (bool_decide (key ∈ pending_group_leaves (groups s))) && negb (signal_group_leave_prompted s key)
      then Some key else None
  | None => None
  end.

(** [g_ptr_array_remove] frees the request. *)
Definition signal_finish_group_leave_request (request : LeaveRequest) : plugin unit :=
  modify (on_leave_requests (filter (λ r, leave_id r ≠ leave_id request))).

(** The request a dialog was opened for. *)
Definition leave_request (id : N) : plugin LeaveRequest :=
  s ← get;
  match list_find (λ r, leave_id r = id) (conn_leave_requests s) with
  | Some (_, request) => mret request
  | None => undefined "use of a freed leave request"
  end.

Definition signal_cancel_group_leave (id : N) : plugin unit :=
  request ← leave_request id;
  signal_finish_group_leave_request request.

Definition signal_confirm_group_leave (id : N) : plugin unit :=
  request ← leave_request id;
  s ← get;
  let key := leave_group_key request in
  if conn_closing s || negb (signal_group_is_active s (Some key)) then
    _ ← when (negb (conn_closing s))
          (notify NotifyError "Signal group unavailable" "The group is no longer active"
             "Reconnect and check the Signal group list.");
    signal_finish_group_leave_request request
  else if bool_decide (key ∈ pending_group_leaves (groups s)) then signal_finish_group_leave_request request
  else
    request_id ← take_request_id;
    status ← core (CoreCall (CallLeaveGroup request_id (c_arg key)));
    _ ← (if bool_decide (status = StatusOk) then
           _ ← modify (on_groups (λ g, set_leaves ({[key]} ∪ pending_group_leaves g) g));
           notify NotifyInfo "Leaving Signal group" (leave_title request)
             "The chat will be removed after Signal confirms the leave."
         else
           notify NotifyError "Could not leave Signal group" "The request could not be queued"
             "Reconnect the account and try again.");
    signal_finish_group_leave_request request.

Definition signal_request_group_leave (node : BlistNode) : plugin unit :=
  match node with
  | NodeChat chat =>
      managed ← ask (NodeBool node SIGNAL_SYNCED_GROUP_KEY);
      if negb managed then mret tt
      else
        account ← ask (ChatAccount chat);
        s ← get;
        if negb (account =? conn_account s)%N then mret tt
        else
          group_key ← signal_group_sync_chat_id chat;
          match leavable s group_key with
          | None => mret tt
          | Some key =>
              name ← ask (ChatName chat);
              let title := default (signal_group_title s key) (filled name) in
              let request := mkLeaveRequest (next_address (transfers s)) key title in
              _ ← modify (on_transfers (λ x, mkTransfers (xfer_functions x) (xfer_data x) (contexts x)
                    (next_address x + 1) (outgoing_attachments x) (outgoing_attachment_contexts x)));
              _ ← modify (on_leave_requests (λ l, l ++ [request]));
              shown ← act (RequestLeave (leave_id request) ("Leave “" +:+ title +:+ "” on Signal?"));
              when (negb shown) (signal_finish_group_leave_request request)
          end
  | _ => mret tt
  end.

(** The entries of the menu of a node. *)
Inductive MenuEntry := MenuLeaveGroup | MenuAcceptIdentity | MenuResetSession.

Definition signal_blist_node_menu (node : BlistNode) : plugin (list MenuEntry) :=
  match node with
  | NodeChat chat =>
      account ← ask (ChatAccount chat);
      protocol ← ask (AccountProtocolId account);
      if negb (bool_decide (protocol = Some SIGNAL_PLUGIN_ID)) then mret []
      else
        managed ← ask (NodeBool node SIGNAL_SYNCED_GROUP_KEY);
        s ← get;
        if negb managed || negb (account =? conn_account s)%N then mret []
        else
          group_key ← signal_group_sync_chat_id chat;
          mret (match leavable s group_key with Some _ => [MenuLeaveGroup] | None => [] end)
  | NodeBuddy buddy =>
      account ← ask (BuddyAccount buddy);
      protocol ← ask (AccountProtocolId account);
      s ← get;
      if negb (bool_decide (protocol = Some SIGNAL_PLUGIN_ID)) || negb (account =? conn_account s)%N || conn_closing s
      then mret []
      else
        name ← ask (BuddyName buddy);
        mret ((if is_some_and name (λ n, bool_decide (n ∈ conn_pending_identity_changes s))
               then [MenuAcceptIdentity] else []) ++ [MenuResetSession])
  | NodeOther => mret []
  end.

(** ** The store of an account *)

Definition signal_store_id (account : Account) : plugin (option string) :=
  store_id ← ask (AccountString account SIGNAL_STORE_ID_KEY);
  match filled store_id with
  | Some id => mret (Some id)
  | None =>
      generated ← sys UuidRandom;
      _ ← sys (SetAccountString account SIGNAL_STORE_ID_KEY generated);
      ask (AccountString account SIGNAL_STORE_ID_KEY)
  end.

Definition path_too_long (path : string) : bool := (MAX_STORE_PATH_BYTES <? str_len path)%N.

(** The path, or the text of the error. *)
Definition signal_store_path (account : Account) : plugin (result string string) :=
  configured ← ask (AccountString account SIGNAL_STORE_PATH_KEY);
  match filled configured with
  | Some configured =>
      path ← sys (Canonicalize configured);
      mret (if path_too_long path then Err "Configured Signal store path exceeds 4096 bytes" else Ok path)
  | None =>
      store_id ← signal_store_id account;
      account_hash ← sys (Sha256Hex (default "" store_id));
      user_dir ← sys UserDir;
      let directory := user_dir +:+ "/signal-purple" in
      made ← sys (Mkdir directory);
      match made with
      | Err e => mret (Err ("Could not create Signal data directory '" +:+ directory +:+ "': " +:+ g_strerror e))
      | Ok _ =>
          secured ← sys (Chmod directory);
          match secured with
          | Err e => mret (Err ("Could not secure Signal data directory '" +:+ directory +:+ "': " +:+ g_strerror e))
          | Ok _ =>
              let path := directory +:+ "/" +:+ account_hash +:+ ".db3" in
              mret (if path_too_long path then Err "Generated Signal store path exceeds 4096 bytes" else Ok path)
          end
      end
  end.

(** Fills the 32 bytes of the key; [None] when the turns are used up. *)
Fixpoint fill_random (turns : nat) (bytes : list byte) : plugin (option (result (list byte) Z)) :=
  if (32 <=? len bytes)%N then mret (Some (Ok bytes))
  else
    match turns with
    | 0 => mret None
    | S turns =>
        answer ← sys (GetRandom (32 - len bytes));
        match answer with
        | Err e => if (e =? EINTR)%Z then fill_random turns bytes else mret (Some (Err e))
        | Ok [] => mret (Some (Err 0%Z))
        | Ok more => fill_random turns (bytes ++ more)
        end
    end.

Definition signal_generate_passphrase : plugin (option (result string string)) :=
  bytes ← fill_random turns [];
  match bytes with
  | None => mret None
  | Some (Err e) => mret (Some (Err ("Could not generate a database encryption key: " +:+ g_strerror e)))
  | Some (Ok bytes) => encoded ← sys (Base64Encode bytes); mret (Some (Ok encoded))
  end.

(** The passphrase that is stored, or a new one once it is stored; [None] when
    the turns are used up. *)
Definition signal_secret_get_or_create (account : Account) (store_path : string)
  : plugin (option (result string (option string))) :=
  username ← ask (AccountUsername account);
  store_id ← signal_store_id account;
  let store_id := default "" store_id in
  found ← sys (SecretLookup store_id store_path);
  match found with
  | Err e => mret (Some (Err (Some e)))
  | Ok (Some password) => mret (Some (Ok password))
  | Ok None =>
      generated ← signal_generate_passphrase;
      match generated with
      | None => mret None
      | Some (Err e) => mret (Some (Err (Some e)))
      | Some (Ok passphrase) =>
          stored ← sys (SecretStore ("signal-purple database for " +:+ default "signal" username) passphrase
                          store_id store_path);
          mret (Some (match stored with Ok _ => Ok passphrase | Err e => Err (Some e) end))
      end
  end.

(** ** Login *)

(** [connection_error] before there is a connection. *)
Definition login_error (reason : ErrorReason) (text : string) : plugin unit :=
  act_quietly (ConnectionError reason text).

(** [signal_connection_free]. *)
Definition signal_connection_free : plugin unit :=
  s ← get;
  _ ← when (conn_poll_source s) (sys PollSourceDestroy);
  let retry := pending_read_retry_id (conn_reads s) in
  _ ← when (negb (retry =? 0)%N)
        (_ ← act_quietly (TimeoutRemove retry); modify (on_reads (set_retry_id 0)));
  let fallback := group_sync_fallback_timer_id (groups s) in
  _ ← when (negb (fallback =? 0)%N)
        (_ ← act_quietly (TimeoutRemove fallback); modify (on_groups (set_fallback_timer 0)));
  _ ← when (conn_core s) (_ ← core CoreShutdown; core CoreFree);
  modify (set_life false false (conn_closing s)).

(** From [signal_core_new] on. *)
Definition start_core (store_path device_name passphrase : string) : plugin unit :=
  let config := mkCoreConfig 0 ABI_VERSION (repr_c_size SignalCoreConfig_fields)
                  (c_arg store_path) (c_arg device_name) (c_arg passphrase) in
  status ← core (CoreNew config);
  fd ← match status with
       | StatusOk =>
           _ ← modify (set_life true false false);
           event_fd ← core CoreEventFd;
           if (event_fd <? 0)%Z then
             _ ← core CoreFree;
             _ ← modify (set_life false false false);
             mret None
           else mret (Some event_fd)
       | _ => mret None
       end;
  match fd with
  | None =>
      _ ← signal_connection_free;
      login_error ReasonOther "Could not start the Signal backend"
  | Some event_fd =>
      _ ← sys (SetProtocolData true);
      _ ← sys SignalConnect;
      _ ← act (SetConnectionState StateConnecting);
      _ ← act (ConnectionProgress "Opening encrypted Signal store" 0);
      attached ← sys (PollSourceAttach event_fd);
      if attached : bool then s ← get; modify (set_life (conn_core s) true (conn_closing s))
      else act (ConnectionError ReasonOther "Could not attach the Signal backend event notifier")
  end.

(** The state before is that of no connection. *)
Definition signal_login (account : Account) : plugin unit :=
  version ← core CoreAbiVersion;
  if negb (version =? ABI_VERSION)%N then login_error ReasonOther "signal-purple backend ABI mismatch"
  else
    path ← signal_store_path account;
    match path with
    | Err e => login_error ReasonOther e
    | Ok store_path =>
        secret ← signal_secret_get_or_create account store_path;
        match secret with
        | None => mret tt
        | Some (Err e) =>
            login_error ReasonAuthentication (default "Could not load the Signal database key from libsecret" e)
        | Some (Ok passphrase) =>
            _ ← modify (λ _, signal_connection_new account);
            device_name ← ask (AccountString account SIGNAL_DEVICE_NAME_KEY);
            start_core store_path (default "signal-purple" device_name) passphrase
        end
    end.

(** ** Close *)

(** The transfers of [outgoing_attachments] that are still running are
    cancelled. *)
Definition cancel_active_transfers : plugin unit :=
  s ← get;
  order ← call (Order (size (outgoing_attachments (transfers s))));
  let active := reorder order (map_to_list (outgoing_attachments (transfers s))).*2 in
  _ ← each active (λ xfer, _ ← call (Transfer (XferRef xfer)); mret tt);
  _ ← each active (λ xfer,
        canceled ← ask (XferCanceled xfer);
        if canceled : bool then mret tt
        else
          completed ← ask (XferCompleted xfer);
          if completed : bool then mret tt else xfer_call xfer (XferCancelLocal xfer));
  each active unref_xfer.

(** The code removes a context through the iterator and then detaches it; the
    two do not depend on each other. *)
Definition detach_contexts : plugin unit :=
  iterate (λ s, outgoing_attachment_contexts (transfers s))
    (λ address, on_transfers (λ x, set_registered (outgoing_attachment_contexts x ∖ {[address]}) x))
    (λ address, _ ← signal_outgoing_attachment_detach address; mret Remove).

(** [g_hash_table_remove_all(outgoing_attachments)]. *)
Definition drop_outgoing : plugin unit :=
  s ← get;
  order ← call (Order (size (outgoing_attachments (transfers s))));
  each (reorder order (map_to_list (outgoing_attachments (transfers s))).*1) remove_outgoing.

(** The requests for leaving are freed with their array. *)
Definition signal_close : plugin unit :=
  s ← get;
  _ ← modify (set_life (conn_core s) (conn_poll_source s) true);
  _ ← sys (SetProtocolData false);
  _ ← sys SignalsDisconnect;
  _ ← act_quietly (CloseRequests HandleLinkQr);
  _ ← act_quietly (CloseRequests HandleConnection);
  _ ← act_quietly CloseNotifications;
  _ ← cancel_active_transfers;
  _ ← detach_contexts;
  _ ← drop_outgoing;
  _ ← signal_connection_free;
  modify (on_leave_requests (λ _, [])).

(** The button of the linking dialog. *)
Definition signal_link_cancel : plugin unit :=
  s ← get;
  when (negb (conn_closing s)) (act (AccountDisconnect (conn_account s))).

End UserActions.
