(* ===== verification/ProtocolTable.v ===== *)
(** * ProtocolTable: what the plugin tells libpurple about itself

    Models the answers of [src/plugin.c] that do not depend on a connection,
    and [signal_chat_info] of [connection.c], which describes what a chat is
    made of.  The functions of the protocol table that act on a connection are
    the calls of [PluginSystem]. *)
From S2P Require Import Prelude Event Media InlineGif Ffi Effects Purple PurpleWorld Plugin BuddyList UserActions.

Definition signal_list_icon : string := "signal-purple".

(** [PurpleStatusPrimitive], with the constants the plugin uses. *)
Inductive StatusPrimitive := StatusOffline | StatusAvailable.

(** [purple_status_type_new(primitive, NULL, name, user_settable)]. *)
Record StatusType := mkStatusType {
  status_primitive : StatusPrimitive;
  status_name : string;
  status_user_settable : bool;
}.

Definition signal_status_types : list StatusType :=
  [mkStatusType StatusAvailable "Connected" true; mkStatusType StatusOffline "Offline" true].

Definition signal_offline_message (_ : Buddy) : bool := true.

Definition signal_account_text_table : gmap string string := {["login_label" := "Local account label"]}.

(** [purple_account_option_string_new(text, key, default)]. *)
Record AccountOption := mkAccountOption {
  option_text : string;
  option_key : string;
  option_default : string;
}.

(** [signal_plugin_init], on the options of the table. *)
Definition signal_plugin_init (protocol_options : list AccountOption) : list AccountOption :=
  (protocol_options
     ++ [mkAccountOption "Linked device name" SIGNAL_DEVICE_NAME_KEY "signal-purple"])
     ++ [mkAccountOption "Encrypted store path (empty uses the Purple data directory)" SIGNAL_STORE_PATH_KEY ""].

(** [struct proto_chat_entry], whose other fields are zero. *)
Record ChatEntry := mkChatEntry {
  entry_label : string;
  entry_identifier : string;
  entry_required : bool;
}.

Definition signal_chat_info : list ChatEntry :=
  [mkChatEntry "Signal group identifier" SIGNAL_GROUP_COMPONENT_KEY true].

(** Components with every required entry name a group. *)
Lemma chat_info_sufficient (components : gmap string string) :
  (∀ e, e ∈ signal_chat_info → entry_required e = true → is_Some (components !! entry_identifier e)) →
  is_Some (component_group_key components).
Proof.
  intros H. destruct (H (mkChatEntry "Signal group identifier" SIGNAL_GROUP_COMPONENT_KEY true)) as [key Hk]; [by left|done|].
  exists key. unfold component_group_key. simpl in Hk. by rewrite Hk.
Qed.

(** The components libpurple keeps for a chat lead back to its name. *)
Lemma chat_name_roundtrip name :
  filled (Some name) = Some name → signal_get_chat_name (Some (signal_chat_info_defaults (Some name))) = name.
Proof.
  intros Hf. unfold signal_get_chat_name, signal_chat_info_defaults. rewrite Hf. simpl.
  unfold component_group_key. by rewrite lookup_singleton_eq.
Qed.
