(* ===== verification/PluginSafety.v ===== *)
(** * PluginSafety: what every function of the plugin keeps

    The invariant of a connection of the C plugin, and that no function breaks
    it or runs into undefined behaviour, whatever libpurple, the system and the
    core answer and whichever callbacks run meanwhile. *)
From S2P Require Import Prelude Event Media InlineGif Ffi Effects Purple Plugin ReadReceipts BuddyList PluginGroups.
From S2P Require Import AttachmentFile InlineImage Transfers Adapter UserActions.

(** ** Calls a handler makes

    Handlers neither poll nor free events, acknowledge, or manage the life of
    the core and what is attached to the connection. *)

(** The other calls, as they are made and answered. *)
Inductive LifeCall :=
| LifePoll (answer : Z * option SignalEvent)
| LifeAck (delivery_id : N)
| LifeEventFree (event : SignalEvent)
| LifeNew (config : SignalCoreConfig) (status : SignalStatus)
| LifeEventFd (fd : Z)
| LifeAbiVersion (version : N)
| LifeShutdown
| LifeFree
| LifeSourceAttach (fd : Z) (attached : bool)
| LifeSourceDestroy
| LifeSignalConnect
| LifeSignalsDisconnect
| LifeProtocolData (set : bool).

Definition life_call (e : call_entry) : option LifeCall :=
  match e with
  | existT o r =>
      match o as o return purple_resp o → option LifeCall with
      | Core c =>
          match c in core_op A return A → option LifeCall with
          | CoreCall (CallAckMessage id) => λ _, Some (LifeAck id)
          | CoreCall _ => λ _, None
          | CorePoll => λ r, Some (LifePoll r)
          | CoreEventFree event => λ _, Some (LifeEventFree event)
          | CoreNew config => λ status, Some (LifeNew config status)
          | CoreEventFd => λ fd, Some (LifeEventFd fd)
          | CoreAbiVersion => λ version, Some (LifeAbiVersion version)
          | CoreShutdown => λ _, Some LifeShutdown
          | CoreFree => λ _, Some LifeFree
          end
      | Sys o =>
          match o in sys_op A return A → option LifeCall with
          | PollSourceAttach fd => λ attached, Some (LifeSourceAttach fd attached)
          | PollSourceDestroy => λ _, Some LifeSourceDestroy
          | SignalConnect => λ _, Some LifeSignalConnect
          | SignalsDisconnect => λ _, Some LifeSignalsDisconnect
          | SetProtocolData set => λ _, Some (LifeProtocolData set)
          | _ => λ _, None
          end
      | _ => λ _, None
      end r
  end.

Definition life_calls (t : list call_entry) : list LifeCall := omap life_call t.

Lemma life_calls_app t t' : life_calls (t ++ t') = life_calls t ++ life_calls t'.
Proof. apply omap_app. Qed.

Definition handler_call (e : call_entry) : bool := bool_decide (life_call e = None).

Definition handler_trace (t : list call_entry) : Prop := Forall (λ e, handler_call e = true) t.

(** What only the user asks for.  The plugin itself sends receipts, cancels
    attachments and dismisses identities. *)
Definition user_call (call : Call) : bool :=
  match call with
  | CallMarkRead _ _ _ | CallCancelAttachment _ | CallDismissIdentity _ _ | CallAckMessage _ => false
  | _ => true
  end.

(** Most functions make no such call, either. *)
Definition inner_call (e : call_entry) : bool :=
  handler_call e && match core_result e with Some (call, _) => negb (user_call call) | None => true end.

Definition inner_trace (t : list call_entry) : Prop := Forall (λ e, inner_call e = true) t.

Lemma inner_trace_app t t' : inner_trace t → inner_trace t' → inner_trace (t ++ t').
Proof. intros. by apply Forall_app. Qed.

Lemma inner_handler t : inner_trace t → handler_trace t.
Proof. intros Ht. eapply Forall_impl; [exact Ht|]. by intros e [? _]%andb_true_iff. Qed.

Lemma handler_trace_app t t' : handler_trace t → handler_trace t' → handler_trace (t ++ t').
Proof. intros. by apply Forall_app. Qed.

Lemma handler_life_calls t : handler_trace t → life_calls t = [].
Proof. induction 1 as [|e t He _ IH]; [done|]. simpl. apply bool_decide_eq_true in He. by rewrite He. Qed.

(** ** Reads *)

Definition reads_ok (r : ReadState) : Prop := (N.of_nat (size (pending_reads r)) <= SIGNAL_MAX_PENDING_READS)%N.

(** Only the reads and the next request id may change, and the reads stay
    within their limit. *)
Definition reads_step (s : SignalConnection) (t : list call_entry) (s' : SignalConnection) : Prop :=
  inner_trace t ∧
  ∃ r n, s' = set_next_request_id n (on_reads (λ _, r) s) ∧ (reads_ok (conn_reads s) → reads_ok r).

#[export] Instance reads_step_order : TraceOrder reads_step.
Proof.
  split.
  - intros s. split; [constructor|]. exists (conn_reads s), (conn_next_request_id s). by destruct s.
  - intros s t s' t' s'' (Ht&r&n&->&Hr) (Ht'&r'&n'&->&Hr'). split; [by apply inner_trace_app|].
    exists r', n'. split; [by destruct s|]. intros H. by apply Hr', Hr.
Qed.

(** Proves that a program keeps a relation, by following it. *)
Create HintDb plugin discriminated.

Ltac respects_step :=
  lazymatch goal with
  | |- respects _ _ (_ ≫= _) => apply respects_bind; [apply _| |intros ?]
  | |- respects _ _ (mret _) => apply respects_ret; apply _
  | |- respects _ _ get => apply respects_get; apply _
  | |- respects _ _ (gets _) => apply respects_gets; apply _
  | |- respects _ _ (each _ _) => apply respects_each; [apply _|intros ?]
  | |- respects _ _ (when _ _) => apply respects_when; [apply _|]
  | |- respects _ _ (when_some _ _) => apply respects_when_some; [apply _|intros ?]
  | |- respects _ _ (match ?x with _ => _ end) => destruct x
  | |- respects _ _ _ => solve [auto with plugin nocore]
  end; cbv beta zeta.

Ltac solve_respects := repeat first [assumption | respects_step].

Section Generic.
Context (ub : Prop) (R : SignalConnection → list call_entry → SignalConnection → Prop) `{!TraceOrder R}.
Hypothesis Hcall : ∀ (o : purple_op) s r, inner_call (answered (Sig := purple_sig) o r) = true →
  R s [answered (Sig := purple_sig) o r] s.

Lemma respects_ask {A} (q : query A) : respects ub R (ask q).
Proof. apply respects_call. intros s r. by apply Hcall. Qed.
Lemma respects_sys {A} (o : sys_op A) :
  (∀ r, inner_call (answered (Sig := purple_sig) (Sys o) r) = true) → respects ub R (sys o).
Proof. intros Ho. apply respects_call. intros s r. by apply Hcall. Qed.
Lemma respects_transfer {A} (x : xfer_op A) : respects ub R (call (Transfer x)).
Proof. apply respects_call. intros s r. by apply Hcall. Qed.
Lemma respects_act_call {A} (a : action A) : respects ub R (call (Act a)).
Proof. apply respects_call. intros s r. by apply Hcall. Qed.
Lemma respects_order n : respects ub R (call (Order n)).
Proof. apply respects_call. intros s r. by apply Hcall. Qed.
Lemma respects_act_quietly {A} (a : action A) : respects ub R (act_quietly a).
Proof. apply respects_bind; [done|apply respects_act_call|]. intros r. by apply respects_ret. Qed.

End Generic.

Lemma reads_step_call o s r :
  inner_call (answered (Sig := purple_sig) o r) = true → reads_step s [answered (Sig := purple_sig) o r] s.
Proof.
  intros Ho. split; [by apply Forall_singleton|]. exists (conn_reads s), (conn_next_request_id s). by destruct s.
Qed.

#[export] Hint Resolve reads_step_call : plugin.
#[export] Hint Extern 3 (respects _ _ (ask _)) => apply respects_ask; by auto with plugin : plugin.
#[export] Hint Extern 3 (respects _ _ (sys _)) => apply respects_sys; [by auto with plugin|done] : plugin.
#[export] Hint Extern 3 (respects _ _ (call (Transfer _))) => apply respects_transfer; by auto with plugin : plugin.
#[export] Hint Extern 3 (respects _ _ (call (Order _))) => apply respects_order; by auto with plugin : plugin.
#[export] Hint Extern 3 (respects _ _ (act_quietly _)) => apply respects_act_quietly; [apply _|by auto with plugin] : plugin.

(** A change of the reads that keeps them within the limit. *)
Lemma reads_step_modify f : (∀ r, reads_ok r → reads_ok (f r)) → respects False reads_step (modify (on_reads f)).
Proof.
  intros Hf. apply respects_modify. intros s. split; [constructor|]. exists (f (conn_reads s)), (conn_next_request_id s).
  split; [by destruct s|apply Hf].
Qed.

Lemma take_request_id_reads : respects False reads_step take_request_id.
Proof.
  unfold take_request_id. apply respects_get_bind. intros s. pstep. pstep. split; [constructor|].
  eexists (conn_reads s), _. by destruct s.
Qed.
#[export] Hint Resolve take_request_id_reads : plugin.

Lemma core_call_reads call :
  (∀ id, call ≠ CallAckMessage id) → user_call call = false → respects False reads_step (core (CoreCall call)).
Proof.
  intros Hc Hu. apply respects_call. intros s r. apply reads_step_call. unfold inner_call. simpl. rewrite Hu.
  rewrite andb_true_r. apply bool_decide_eq_true_2. destruct call; try done. by destruct (Hc delivery_id).
Qed.
#[export] Hint Extern 3 (respects _ reads_step (core (CoreCall _))) => apply core_call_reads; done : plugin.

Lemma send_read_reads k : respects False reads_step (signal_send_read k).
Proof. unfold signal_send_read. solve_respects. Qed.
#[export] Hint Resolve send_read_reads : plugin.

Lemma schedule_reads : respects False reads_step signal_schedule_pending_read_retry.
Proof. unfold signal_schedule_pending_read_retry. solve_respects. by apply reads_step_modify. Qed.
#[export] Hint Resolve schedule_reads : plugin.

Lemma flush_read_reads k : respects False reads_step (flush_read k).
Proof. unfold flush_read. solve_respects. Qed.

Lemma forget_limit_warning_reads : respects False reads_step forget_limit_warning.
Proof. unfold forget_limit_warning. solve_respects. by apply reads_step_modify. Qed.
#[export] Hint Resolve forget_limit_warning_reads : plugin.

Lemma remove_read_step k s : reads_table (remove_read k s) = reads_table s ∖ {[k]} ∧ reads_step s [] (remove_read k s).
Proof.
  split; [apply dom_delete_L|]. split; [constructor|].
  exists (set_pending_reads (delete k (pending_reads (conn_reads s))) (conn_reads s)), (conn_next_request_id s).
  split; [by destruct s|]. unfold reads_ok. simpl. intros Hr. rewrite map_size_delete.
  case_match; unfold id; lia.
Qed.

Lemma flush_pending_reads_reads : respects False reads_step signal_flush_pending_reads.
Proof.
  unfold signal_flush_pending_reads. apply respects_bind; [apply _| |intros _; auto with plugin].
  apply respects_iterate; [apply _|intros; by apply reads_step_call|].
  intros k s. eapply pends_mono; [apply pends_and; [apply flush_read_spec|apply flush_read_reads]|].
  intros s' v t [(Hr&_) HR]. unfold reads_table at 1 2. rewrite Hr. split_and!; [done..|]. intros _. apply remove_read_step.
Qed.
#[export] Hint Resolve flush_pending_reads_reads : plugin.

Lemma mark_eligible_reads direct group : respects False reads_step (signal_mark_pending_reads_eligible direct group).
Proof.
  apply reads_step_modify. intros r Hr. unfold reads_ok in *. simpl.
  replace (size (map_imap _ _)) with (size (pending_reads r)); [done|].
  rewrite <-!size_dom. f_equal. apply set_eq. intros k. rewrite !elem_of_dom, map_lookup_imap.
  destruct (pending_reads r !! k); simpl; split; intros [? ?]; eauto; done.
Qed.
#[export] Hint Resolve mark_eligible_reads : plugin.

Lemma queue_read_key_reads conv key : respects False reads_step (queue_read_key conv key).
Proof.
  assert (Hadd : ∀ focused : bool, respects False reads_step (
    s ← get;
    if (SIGNAL_MAX_PENDING_READS <=? reads_size s)%N then modify (on_reads (set_limit_warned true))
    else
      _ ← modify (on_reads (λ r, set_pending_reads (<[key := focused]> (pending_reads r)) r));
      when focused signal_flush_pending_reads)); [|unfold queue_read_key; repeat first [apply Hadd | respects_step]].
  intros focused. apply respects_get_bind. intros s. destruct (N.leb_spec SIGNAL_MAX_PENDING_READS (reads_size s)).
  - pstep. split; [constructor|]. exists (set_limit_warned true (conn_reads s)), (conn_next_request_id s). split; [by destruct s|]. done.
  - pstep. eapply pends_mono; [by apply respects_when, flush_pending_reads_reads; apply _|].
    intros s' [] t (Ht&r&n&->&Hr). split; [done|]. exists r, n. split; [by destruct s|]. intros _. apply Hr.
    unfold reads_ok, reads_size in *. simpl. rewrite map_size_insert. case_match; unfold id; lia.
Qed.
#[export] Hint Resolve queue_read_key_reads : plugin.

Lemma queue_read_reads conv event : respects False reads_step (signal_queue_read conv event).
Proof. unfold signal_queue_read. solve_respects. Qed.
#[export] Hint Resolve queue_read_reads : plugin.

Lemma queue_final_read_reads conv event : respects False reads_step (signal_queue_final_read conv event).
Proof. unfold signal_queue_final_read. solve_respects. Qed.

Lemma conversation_updated_reads conv : respects False reads_step (signal_conversation_updated conv).
Proof. unfold signal_conversation_updated. solve_respects. Qed.
#[export] Hint Resolve queue_final_read_reads conversation_updated_reads : plugin.

Lemma act_reads {A} (a : action A) : respects False reads_step (act a).
Proof.
  unfold act. apply respects_bind; [apply _| |intros ?; solve_respects]. apply respects_act_call. auto with plugin.
Qed.
#[export] Hint Resolve act_reads : plugin.

Lemma event_can_present_reads conv event : respects False reads_step (signal_event_can_present conv event).
Proof. unfold signal_event_can_present. solve_respects. Qed.
#[export] Hint Resolve event_can_present_reads : plugin.

(** ** The buddy list *)

Ltac reads_only f := unfold f; solve_respects.

Lemma is_managed_reads node key : respects False reads_step (signal_blist_sync_is_managed node key).
Proof. reads_only signal_blist_sync_is_managed. Qed.
Lemma group_is_reads group name : respects False reads_step (signal_blist_sync_group_is group name).
Proof. reads_only signal_blist_sync_group_is. Qed.
Lemma remove_empty_reads name : respects False reads_step (signal_blist_sync_remove_empty_legacy_group name).
Proof. reads_only signal_blist_sync_remove_empty_legacy_group. Qed.
#[export] Hint Resolve is_managed_reads group_is_reads remove_empty_reads : plugin.
Lemma remove_empty_buddy_reads : respects False reads_step signal_blist_sync_remove_empty_legacy_buddy_group.
Proof. reads_only signal_blist_sync_remove_empty_legacy_buddy_group. Qed.
Lemma remove_empty_chat_reads : respects False reads_step signal_blist_sync_remove_empty_legacy_chat_group.
Proof. reads_only signal_blist_sync_remove_empty_legacy_chat_group. Qed.
Lemma legacy_buddy_reads group : respects False reads_step (signal_blist_sync_is_legacy_buddy_group group).
Proof. reads_only signal_blist_sync_is_legacy_buddy_group. Qed.
Lemma legacy_chat_reads group : respects False reads_step (signal_blist_sync_is_legacy_chat_group group).
Proof. reads_only signal_blist_sync_is_legacy_chat_group. Qed.
Lemma add_buddy_reads buddy : respects False reads_step (signal_blist_sync_add_buddy buddy).
Proof. reads_only signal_blist_sync_add_buddy. Qed.
Lemma add_chat_reads chat : respects False reads_step (signal_blist_sync_add_chat chat).
Proof. reads_only signal_blist_sync_add_chat. Qed.
Lemma choose_buddy_reads buddies m u : respects False reads_step (choose_buddy buddies m u).
Proof. revert m u. induction buddies as [|b l IH]; intros m u; simpl; solve_respects; apply IH. Qed.
#[export] Hint Resolve remove_empty_buddy_reads remove_empty_chat_reads legacy_buddy_reads legacy_chat_reads
  add_buddy_reads add_chat_reads choose_buddy_reads : plugin.
Lemma find_buddy_reads account name : respects False reads_step (signal_blist_sync_find_buddy account name).
Proof. reads_only signal_blist_sync_find_buddy. Qed.
#[export] Hint Resolve find_buddy_reads : plugin.
Lemma migrate_buddy_reads buddy : respects False reads_step (signal_blist_sync_migrate_buddy buddy).
Proof. reads_only signal_blist_sync_migrate_buddy. Qed.
#[export] Hint Resolve migrate_buddy_reads : plugin.
Lemma adopt_buddy_reads account name : respects False reads_step (signal_blist_sync_adopt_legacy_buddy account name).
Proof. reads_only signal_blist_sync_adopt_legacy_buddy. Qed.
Lemma migrate_chat_reads chat : respects False reads_step (signal_blist_sync_migrate_chat chat).
Proof. reads_only signal_blist_sync_migrate_chat. Qed.
Lemma chat_is_managed_reads chat : respects False reads_step (signal_chat_is_managed chat).
Proof. reads_only signal_chat_is_managed. Qed.
Lemma chat_id_reads chat : respects False reads_step (signal_group_sync_chat_id chat).
Proof. reads_only signal_group_sync_chat_id. Qed.
#[export] Hint Resolve adopt_buddy_reads migrate_chat_reads chat_is_managed_reads chat_id_reads : plugin.
Lemma chat_matches_reads chat account id : respects False reads_step (signal_chat_matches chat account id).
Proof. reads_only signal_chat_matches. Qed.
#[export] Hint Resolve chat_matches_reads : plugin.
Lemma lookup_chat_loop_reads nodes account id selected : respects False reads_step (lookup_chat nodes account id selected).
Proof. revert selected. induction nodes as [|[] nodes IH]; intros selected; simpl; solve_respects; apply IH. Qed.
#[export] Hint Resolve lookup_chat_loop_reads : plugin.
Lemma lookup_chat_reads account id : respects False reads_step (signal_group_sync_lookup_chat account id).
Proof. reads_only signal_group_sync_lookup_chat. Qed.
Lemma lookup_conversation_reads account id : respects False reads_step (signal_group_sync_lookup_conversation account id).
Proof. reads_only signal_group_sync_lookup_conversation. Qed.
Lemma remove_chat_reads chat : respects False reads_step (remove_chat chat).
Proof. reads_only remove_chat. Qed.
#[export] Hint Resolve lookup_chat_reads lookup_conversation_reads remove_chat_reads : plugin.
Lemma find_chat_reads account id : respects False reads_step (signal_group_sync_find_chat account id).
Proof. reads_only signal_group_sync_find_chat. Qed.
Lemma remove_managed_reads account id : respects False reads_step (signal_group_sync_remove_managed_chats account id).
Proof. reads_only signal_group_sync_remove_managed_chats. Qed.
Lemma update_title_reads chat id title : respects False reads_step (signal_group_sync_update_title chat id title).
Proof. reads_only signal_group_sync_update_title. Qed.
Lemma display_title_reads key : respects False reads_step (signal_group_display_title key).
Proof. reads_only signal_group_display_title. Qed.
#[export] Hint Resolve find_chat_reads remove_managed_reads update_title_reads display_title_reads : plugin.
Lemma update_open_title_reads key : respects False reads_step (signal_update_open_group_title key).
Proof. reads_only signal_update_open_group_title. Qed.
Lemma refresh_members_reads key : respects False reads_step (signal_refresh_group_members key).
Proof. reads_only signal_refresh_group_members. Qed.
Lemma remove_stale_chats_reads : respects False reads_step remove_stale_chats.
Proof. reads_only remove_stale_chats. Qed.
Lemma walk_reads keys : respects False reads_step (walk keys).
Proof. reads_only walk. Qed.
#[export] Hint Resolve update_open_title_reads refresh_members_reads remove_stale_chats_reads walk_reads : plugin.

(** ** Groups *)

Definition groups_ok (g : GroupTables) : Prop :=
  (∀ id k, group_keys_by_id g !! id = Some k → group_ids_by_key g !! k = Some id) ∧
  pending_group_leaves g ⊆ active_group_keys g ∧ ¬ ("" ∈ active_group_keys g) ∧ ¬ ("" ∈ sync_seen (group_sync g)).

Definition groups_step (s : SignalConnection) (t : list call_entry) (s' : SignalConnection) : Prop :=
  inner_trace t ∧
  ∃ r n g c, s' = set_next_request_id n (on_contact_sync (λ _, c) (on_groups (λ _, g) (on_reads (λ _, r) s))) ∧
    (reads_ok (conn_reads s) → reads_ok r) ∧ (groups_ok (conn_groups s) → groups_ok g).

#[export] Instance groups_step_order : TraceOrder groups_step.
Proof.
  split.
  - intros s. split; [constructor|].
    exists (conn_reads s), (conn_next_request_id s), (conn_groups s), (conn_contact_sync s). by destruct s.
  - intros s t s' t' s'' (Ht&r&n&g&c&->&Hr&Hg) (Ht'&r'&n'&g'&c'&->&Hr'&Hg'). split; [by apply inner_trace_app|].
    exists r', n', g', c'. split_and!; [by destruct s|intros H; by apply Hr', Hr|intros H; by apply Hg', Hg].
Qed.

Lemma reads_step_groups s t s' : reads_step s t s' → groups_step s t s'.
Proof.
  intros (Ht&r&n&->&Hr). split; [done|]. exists r, n, (conn_groups s), (conn_contact_sync s).
  split_and!; [by destruct s|done|done].
Qed.

Lemma groups_step_call o s r :
  inner_call (answered (Sig := purple_sig) o r) = true → groups_step s [answered (Sig := purple_sig) o r] s.
Proof. intros. by apply reads_step_groups, reads_step_call. Qed.
#[export] Hint Resolve groups_step_call : plugin.

Lemma lift_reads {A} (m : plugin A) : respects False reads_step m → respects False groups_step m.
Proof. apply respects_mono. exact reads_step_groups. Qed.
#[export] Hint Extern 4 (respects _ groups_step _) => apply lift_reads; solve [auto with plugin nocore] : plugin.

Lemma groups_step_modify f : (∀ g, groups_ok g → groups_ok (f g)) → respects False groups_step (modify (on_groups f)).
Proof.
  intros Hf. apply respects_modify. intros s. split; [constructor|].
  exists (conn_reads s), (conn_next_request_id s), (f (conn_groups s)), (conn_contact_sync s).
  split_and!; [by destruct s|done|apply Hf].
Qed.

Lemma contact_sync_modify f : respects False groups_step (modify (on_contact_sync f)).
Proof.
  apply respects_modify. intros s. split; [constructor|].
  exists (conn_reads s), (conn_next_request_id s), (conn_groups s), (f (conn_contact_sync s)).
  split_and!; [by destruct s|done|done].
Qed.
#[export] Hint Resolve contact_sync_modify : plugin.

(** Assignments that do not touch what [groups_ok] talks about. *)
#[export] Hint Extern 4 (respects _ groups_step (modify (on_groups _))) =>
  apply groups_step_modify; solve [intros [] (?&?&?&?); repeat split; simpl in *; set_solver] : plugin.

(** After [m], which only touches reads, the groups are the same. *)
Lemma pends_reads_then {A B} (m : plugin A) (k : A → plugin B) s Q :
  respects False reads_step m →
  (∀ s' a t, reads_step s t s' → pends False (k a) s' (λ s'' b t', Q s'' b (t ++ t'))) → pends False (m ≫= k) s Q.
Proof. intros Hm Hk. eapply pends_bind; [apply Hm|]. intros s' a t Ht. by apply Hk. Qed.

Lemma reads_step_keeps_groups s t s' : reads_step s t s' → conn_groups s' = conn_groups s.
Proof. by intros (_&r&n&->&_). Qed.

Lemma insert_id_ok g key :
  groups_ok g → group_ids_by_key g !! key = None →
  groups_ok (set_ids (<[key := next_group_id g]> (group_ids_by_key g)) (<[next_group_id g := key]> (group_keys_by_id g))
    (wrapping_add u32_max (next_group_id g) 1) g).
Proof.
  intros (Hid&Hrest) Hnew. split; [|done]. simpl. intros id k.
  destruct (decide (id = next_group_id g)) as [->|Hne].
  - rewrite lookup_insert_eq. intros [= <-]. by rewrite lookup_insert_eq.
  - rewrite lookup_insert_ne by done. intros Hk%Hid. rewrite lookup_insert_ne; [done|]. intros ->. congruence.
Qed.

Lemma group_id_groups key title : respects False groups_step (signal_group_id key title).
Proof.
  unfold signal_group_id. apply respects_get_bind. intros s.
  assert (Htitle : ∀ id : N, respects False groups_step
    (_ ← when_some (filled title) (λ title,
           modify (on_groups (λ g, set_titles (<[key := title]> (group_titles_by_key g)) g))); mret id))
    by (intros id; solve_respects).
  destruct (group_ids_by_key (groups s) !! key) as [id|] eqn:Ek; [pstep; apply Htitle|].
  pstep. pstep. pstep. eapply pends_mono; [apply Htitle|].
  intros s' id t (Ht&r&n&g&c&->&Hr&Hg). split; [done|]. exists r, n, g, c. split_and!; [by destruct s|done|].
  intros Hok. apply Hg. by apply insert_id_ok.
Qed.
#[export] Hint Resolve group_id_groups : plugin.

(** The groups without [key]. *)
Definition deactivated (key : string) (g : GroupTables) : GroupTables :=
  set_members (delete key (group_members_by_key g))
    (set_titles (delete key (group_titles_by_key g))
      (set_leaves (pending_group_leaves g ∖ {[key]})
        (set_joins (pending_group_joins g ∖ {[key]})
          (set_active (active_group_keys g ∖ {[key]})
            (match group_ids_by_key g !! key with
             | Some id => set_ids (delete key (group_ids_by_key g)) (delete id (group_keys_by_id g)) (next_group_id g) g
             | None => g
             end))))).

Lemma deactivated_ok key g : groups_ok g → groups_ok (deactivated key g).
Proof.
  intros (Hid&Hl&He&Hs). unfold deactivated.
  destruct (group_ids_by_key g !! key) as [id|] eqn:Ek; repeat split; simpl; try set_solver.
  intros id' k [Hne Hk]%lookup_delete_Some. rewrite lookup_delete_ne; [by apply Hid|]. intros ->.
  apply Hid in Hk. congruence.
Qed.

Lemma remove_reads_reads key : respects False reads_step (signal_remove_group_pending_reads key).
Proof.
  unfold signal_remove_group_pending_reads. apply respects_bind; [apply _| |intros _; auto with plugin].
  apply reads_step_modify. intros r Hr. unfold reads_ok in *. simpl.
  assert (size (filter (λ p : ReadKey * bool, read_chat p.1 ≠ Some key) (pending_reads r)) <= size (pending_reads r)); [|lia].
  rewrite <-!size_dom. apply subseteq_size, subseteq_dom, map_filter_subseteq.
Qed.
#[export] Hint Resolve remove_reads_reads : plugin.

(** What leaves only the reads and the groups changed. *)
Lemma pends_groups_reads {A} (m : plugin A) s f Q :
  respects False reads_step m →
  (∀ s' a t, reads_step (on_groups f s) t s' → Q s' a t) → pends False m (on_groups f s) Q.
Proof. intros Hm HQ. eapply pends_mono; [apply Hm|]. exact HQ. Qed.

(** Like [reads_step], with the groups as [f] makes them. *)
Definition groups_become (f : GroupTables → GroupTables) (s : SignalConnection) (t : list call_entry) (s' : SignalConnection)
  : Prop :=
  inner_trace t ∧
  ∃ r n, s' = set_next_request_id n (on_groups f (on_reads (λ _, r) s)) ∧ (reads_ok (conn_reads s) → reads_ok r).

Lemma groups_become_id s t s' : reads_step s t s' → groups_become (λ g, g) s t s'.
Proof. intros (Ht&r&n&->&Hr). split; [done|]. exists r, n. by destruct s. Qed.

Lemma groups_become_trans f f' s t s' t' s'' :
  groups_become f s t s' → groups_become f' s' t' s'' → groups_become (f' ∘ f) s (t ++ t') s''.
Proof.
  intros (Ht&r&n&->&Hr) (Ht'&r'&n'&->&Hr'). split; [by apply inner_trace_app|]. exists r', n'.
  split; [by destruct s|]. intros H. by apply Hr', Hr.
Qed.

Lemma groups_become_modify f s : groups_become f s [] (on_groups f s).
Proof. split; [constructor|]. exists (conn_reads s), (conn_next_request_id s). by destruct s. Qed.

Lemma groups_become_ext f f' s t s' :
  groups_become f s t s' → f (conn_groups s) = f' (conn_groups s) → groups_become f' s t s'.
Proof.
  intros (Ht&r&n&->&Hr) Heq. split; [done|]. exists r, n. split; [|done]. unfold on_groups. simpl. by rewrite Heq.
Qed.

Lemma groups_become_step f s t s' :
  (groups_ok (conn_groups s) → groups_ok (f (conn_groups s))) → groups_become f s t s' → groups_step s t s'.
Proof.
  intros Hf (Ht&r&n&->&Hr). split; [done|]. exists r, n, (f (conn_groups s)), (conn_contact_sync s).
  split_and!; [by destruct s|done|done].
Qed.

Lemma groups_become_groups f s t s' : groups_become f s t s' → conn_groups s' = f (conn_groups s).
Proof. by intros (_&r&n&->&_). Qed.

Lemma deactivate_spec key b s :
  key ≠ "" → pends False (signal_deactivate_group key b) s (λ s' _ t, groups_become (deactivated key) s t s').
Proof.
  intros Hkey. unfold signal_deactivate_group. destruct (is_empty key) eqn:Ee; [by destruct key|].
  pstep. cbv zeta. eapply pends_bind with (P := λ s' _ t, groups_become (λ g,
    match group_ids_by_key g !! key with
    | Some id => set_ids (delete key (group_ids_by_key g)) (delete id (group_keys_by_id g)) (next_group_id g) g
    | None => g
    end) s t s').
  - destruct (group_ids_by_key (groups s) !! key) as [id|] eqn:Ek; simpl.
    + eapply pends_reads_then; [solve_respects|]. intros s1 conv t1 H1. eapply pends_reads_then; [solve_respects|].
      intros s2 ? t2 H2. pstep. rewrite app_nil_r, <-(app_nil_r (t1 ++ t2)).
      eapply groups_become_ext; [eapply groups_become_trans; [|apply groups_become_modify]|].
      { apply groups_become_id. by eapply trace_trans. }
      simpl. by rewrite Ek.
    + pstep. eapply groups_become_ext; [apply groups_become_id, trace_refl|]. simpl. by rewrite Ek.
  - intros s1 ? t1 H1. eapply pends_reads_then; [solve_respects|]. intros s2 ? t2 H2. pstep.
    eapply pends_mono; [apply remove_reads_reads|]. intros s3 ? t3 H3.
    eapply groups_become_ext.
    { eapply groups_become_trans; [exact H1|]. eapply groups_become_trans; [exact (groups_become_id _ _ _ H2)|].
      change t3 with ([] ++ t3). eapply groups_become_trans; [apply groups_become_modify|exact (groups_become_id _ _ _ H3)]. }
    unfold deactivated, compose. by destruct (group_ids_by_key (groups s) !! key).
Qed.

Lemma deactivate_groups key b : respects False groups_step (signal_deactivate_group key b).
Proof.
  intros s. destruct (decide (key = "")) as [->|Hkey]; [apply pends_ret, trace_refl|].
  eapply pends_mono; [by apply deactivate_spec|]. intros s' ? t. apply groups_become_step, deactivated_ok.
Qed.
#[export] Hint Resolve deactivate_groups : plugin.

Lemma filled_Some o v : filled o = Some v → o = Some v ∧ v ≠ "".
Proof. destruct o as [w|]; [|done]. simpl. destruct w; simpl; [done|]. by intros [= <-]. Qed.

Lemma create_members_groups key : respects False groups_step (create_group_members key).
Proof.
  apply groups_step_modify. intros g Hg. by destruct (group_members_by_key g !! key).
Qed.
#[export] Hint Resolve create_members_groups : plugin.

Lemma mark_group_groups key :
  key ≠ "" →
  respects False groups_step (modify (on_groups (λ g, set_group_sync (signal_contact_sync_mark (Some key) (group_sync g)) g))).
Proof.
  intros Hkey. apply groups_step_modify. intros g (Hid&Hl&He&Hs). repeat split; try done. simpl.
  unfold signal_contact_sync_mark. destruct (filled _) as [k|] eqn:Ek; [|done]. apply filled_Some in Ek as [[= <-] _].
  destruct (sync_active _); [|done]. simpl. set_solver.
Qed.

Lemma activate_groups chat :
  chat ≠ "" → respects False groups_step (modify (on_groups (λ g, set_active ({[chat]} ∪ active_group_keys g) g))).
Proof. intros Hc. apply groups_step_modify. intros g (Hid&Hl&He&Hs). repeat split; simpl; set_solver. Qed.

(** Marks and activations of names that are not empty. *)
#[export] Hint Extern 4 (respects _ groups_step (modify _)) =>
  first [apply mark_group_groups | apply activate_groups]; by eapply filled_Some : plugin.

Lemma open_group_groups key title : respects False groups_step (signal_open_group key title).
Proof. unfold signal_open_group. solve_respects. Qed.
#[export] Hint Resolve open_group_groups : plugin.

Lemma add_contact_groups event : respects False groups_step (signal_add_contact event).
Proof. unfold signal_add_contact. solve_respects. Qed.
Lemma end_contact_sync_groups : respects False groups_step signal_end_contact_sync.
Proof. unfold signal_end_contact_sync. solve_respects. Qed.
Lemma begin_contact_sync_groups : respects False groups_step signal_begin_contact_sync.
Proof. unfold signal_begin_contact_sync. solve_respects. Qed.
Lemma begin_group_sync_groups : respects False groups_step signal_begin_group_sync.
Proof. unfold signal_begin_group_sync. solve_respects. Qed.

Lemma add_group_groups event : respects False groups_step (signal_add_group event).
Proof. unfold signal_add_group. destruct (filled (ev_chat_id event)) eqn:E; solve_respects. Qed.
Lemma add_group_member_groups event : respects False groups_step (signal_add_group_member event).
Proof. unfold signal_add_group_member. solve_respects. Qed.

Lemma stop_fallback_groups : respects False groups_step stop_fallback_timer.
Proof. unfold stop_fallback_timer. solve_respects. Qed.

Lemma refresh_all_groups : respects False reads_step refresh_all_members.
Proof.
  unfold refresh_all_members. apply respects_iterate; [apply _|intros; by apply reads_step_call|].
  intros key s. eapply pends_bind; [apply refresh_members_reads|]. intros s' ? t H. pstep. rewrite app_nil_r.
  unfold members_table. rewrite (reads_step_keeps_groups _ _ _ H). done.
Qed.
#[export] Hint Resolve add_contact_groups end_contact_sync_groups begin_contact_sync_groups begin_group_sync_groups
  add_group_groups add_group_member_groups stop_fallback_groups refresh_all_groups : plugin.

Lemma open_active_joins_groups clear : respects False groups_step (open_active_joins clear).
Proof. unfold open_active_joins. solve_respects. Qed.
#[export] Hint Resolve open_active_joins_groups : plugin.

(** *** The end of a snapshot *)

Lemma deactivate_each keys s :
  Forall (λ k, k ≠ "") keys →
  pends False (each keys (λ k, signal_deactivate_group k false)) s
    (λ s' _ t, groups_become (λ g, foldl (λ g k, deactivated k g) g keys) s t s').
Proof.
  intros Hkeys. revert s. induction Hkeys as [|k keys Hk Hkeys IH]; intros s; simpl.
  - pstep. apply groups_become_id, trace_refl.
  - eapply pends_bind; [by apply deactivate_spec|]. intros s' ? t H. eapply pends_mono; [apply IH|].
    intros s2 ? t2 H2. exact (groups_become_trans _ _ _ _ _ _ _ H H2).
Qed.

Lemma deactivated_fields k g :
  active_group_keys (deactivated k g) = active_group_keys g ∖ {[k]} ∧
  pending_group_leaves (deactivated k g) = pending_group_leaves g ∖ {[k]} ∧
  group_sync (deactivated k g) = group_sync g.
Proof. unfold deactivated. by destruct (group_ids_by_key g !! k). Qed.

Lemma deactivated_all keys g :
  let g' := foldl (λ g k, deactivated k g) g keys in
  active_group_keys g' = active_group_keys g ∖ list_to_set keys ∧
  pending_group_leaves g' = pending_group_leaves g ∖ list_to_set keys ∧
  group_sync g' = group_sync g ∧ (groups_ok g → groups_ok g').
Proof.
  revert g. induction keys as [|k keys IH]; intros g; simpl; [split_and!; try set_solver; done|].
  destruct (IH (deactivated k g)) as (Ha&Hl&Hs&Hok). destruct (deactivated_fields k g) as (Ha'&Hl'&Hs').
  rewrite Ha, Hl, Hs, Ha', Hl', Hs'. split_and!; [set_solver..|done|]. intros H. by apply Hok, deactivated_ok.
Qed.

Lemma walk_spec keys s : pends False (walk keys) s (λ s' l t, reads_step s t s' ∧ l ≡ₚ elements keys).
Proof. unfold walk. pstep. pstep. split; [by apply reads_step_call|apply reorder_perm]. Qed.

Lemma stop_fallback_spec s :
  pends False stop_fallback_timer s (λ s' _ t, groups_become (set_fallback_timer 0) s t s').
Proof.
  unfold stop_fallback_timer. pstep. cbv zeta. destruct (N.eqb_spec (group_sync_fallback_timer_id (groups s)) 0) as [E|]; simpl.
  - pstep. eapply groups_become_ext; [apply groups_become_id, trace_refl|]. destruct (conn_groups s). simpl in *. by rewrite E.
  - eapply pends_reads_then; [auto with plugin|]. intros s' ? t H. pstep.
    eapply groups_become_ext; [eapply groups_become_trans; [exact (groups_become_id _ _ _ H)|apply groups_become_modify]|done].
Qed.

(** The groups that stay are those the snapshot has seen. *)
Definition only_seen (g : GroupTables) : GroupTables := set_active (sync_seen (group_sync g)) g.

Lemma only_seen_ok g keys :
  groups_ok g → sync_active (group_sync g) = true →
  (∀ k, k ∈ active_group_keys g → k ∉ sync_seen (group_sync g) → k ∈ keys) →
  groups_ok (only_seen (foldl (λ g k, deactivated k g) g keys)).
Proof.
  intros Hg Hact Hkeys. destruct (deactivated_all keys g) as (Ha&Hl&Hs&Hok). destruct (Hok Hg) as (Hid&_&_&Hse).
  destruct Hg as (_&Hl0&_&_). repeat split; [exact Hid| |simpl; by rewrite Hs in *|exact Hse]. simpl. rewrite Hl, Hs.
  intros k [Hk Hn]%elem_of_difference. destruct (decide (k ∈ sync_seen (group_sync g))) as [|Hns]; [done|].
  exfalso. apply Hn, elem_of_list_to_set, Hkeys; [by apply Hl0|done].
Qed.

Lemma deactivate_stale_spec s :
  sync_active (group_sync (conn_groups s)) = true →
  pends False deactivate_stale_groups s (λ s' _ t, groups_step s t s').
Proof.
  intros Hact. unfold deactivate_stale_groups. pstep. eapply pends_bind; [apply walk_spec|].
  intros s1 active t1 [H1 Hperm]. pstep. cbv zeta. pose proof (reads_step_keeps_groups _ _ _ H1) as Hg1.
  set (stale := filter _ active). assert (Hne : Forall (λ k, k ≠ "") stale).
  { apply Forall_forall. intros k [Hk _]%list_elem_of_filter ->. done. }
  eapply pends_bind; [by apply deactivate_each|]. intros s2 ? t2 H2. pstep.
  pose proof (groups_become_trans _ _ _ _ _ _ _ (groups_become_id _ _ _ H1)
    (groups_become_trans _ _ _ _ _ _ _ H2 (groups_become_modify only_seen s2))) as H.
  eapply groups_become_step; [|exact H]. intros Hok. unfold compose. apply only_seen_ok; [done..|].
  intros k Hk Hns. apply list_elem_of_filter. rewrite Hg1, Hperm, elem_of_elements. split; [|done].
  destruct Hok as (_&_&He&_). destruct k; [done|]. unfold signal_contact_sync_should_remove. simpl.
  rewrite Hact. simpl. by rewrite bool_decide_eq_false_2.
Qed.

Lemma end_group_sync_groups event : respects False groups_step (signal_end_group_sync event).
Proof.
  unfold signal_end_group_sync. apply respects_get_bind. intros s.
  destruct (sync_active (group_sync (groups s))) eqn:Hact; simpl; [|apply pends_ret, trace_refl].
  destruct (negb (ev_value event =? 0)%Z).
  - eapply pends_bind; [apply stop_fallback_spec|]. intros s1 ? t1 H1.
    eapply pends_bind; [apply deactivate_stale_spec; by rewrite (groups_become_groups _ _ _ _ H1)|]. intros s2 ? t2 H2.
    assert (Hrest : respects False groups_step (
      _ ← remove_stale_chats;
      _ ← modify (on_groups (λ g, set_group_sync (signal_contact_sync_end (group_sync g)) g));
      _ ← refresh_all_members;
      _ ← modify (on_groups (set_snapshot_complete true));
      open_active_joins true)) by solve_respects.
    eapply pends_mono; [apply Hrest|]. intros s3 ? t3 H3.
    assert (H1' : groups_step s t1 s1) by (eapply groups_become_step; [|exact H1]; done).
    exact (trace_trans _ _ _ _ _ H1' (trace_trans _ _ _ _ _ H2 H3)).
  - assert (H : respects False groups_step (
      _ ← modify (on_groups (λ g, set_active (active_group_keys g ∪ sync_seen (group_sync g)) g));
      _ ← modify (on_groups (λ g, set_group_sync (signal_contact_sync_end (group_sync g)) g));
      _ ← refresh_all_members;
      open_active_joins false)) by solve_respects. apply H.
Qed.
#[export] Hint Resolve end_group_sync_groups : plugin.
