(* ===== verification/TransferSafety.v ===== *)
(** * TransferSafety: the memory of file transfers

    Every attachment context is reachable from exactly one transfer until it is
    freed, so no function uses a context after it was freed, none frees it
    twice, and none is lost; whichever functions libpurple calls on transfers,
    and whenever.  The invariant of the whole connection is here, too. *)
From S2P Require Import Prelude Event Media InlineGif Ffi Effects Purple Plugin ReadReceipts BuddyList PluginGroups.
From S2P Require Import AttachmentFile InlineImage Transfers Adapter UserActions PluginSafety.

(** ** The invariant *)

Record transfers_ok (x : TransferState) : Prop := mkTransfersOk {
  outgoing_allocated xfer a :
    xfer_data x !! xfer = Some (DataOutgoing a) → is_Some (contexts x !! a) ∧ xfer_functions x !! xfer = Some XferSend;
  incoming_functions xfer bytes :
    xfer_data x !! xfer = Some (DataIncoming bytes) → xfer_functions x !! xfer = Some XferReceive;
  one_owner xfer xfer' a :
    xfer_data x !! xfer = Some (DataOutgoing a) → xfer_data x !! xfer' = Some (DataOutgoing a) → xfer = xfer';
  context_owned a c :
    contexts x !! a = Some c →
    out_connected c = true ∧ a ∈ outgoing_attachment_contexts x ∧ ∃ xfer, xfer_data x !! xfer = Some (DataOutgoing a);
  registered_allocated a : a ∈ outgoing_attachment_contexts x → is_Some (contexts x !! a);
  xfers_known xfer : is_Some (xfer_functions x !! xfer) → (xfer < next_address x)%N;
  contexts_known a : is_Some (contexts x !! a) → (a < next_address x)%N;
}.

Definition requests_ok (s : SignalConnection) : Prop :=
  NoDup (leave_id <$> conn_leave_requests s) ∧ NoDup (leave_group_key <$> conn_leave_requests s) ∧
  Forall (λ r, (leave_id r < next_address (conn_transfers s))%N) (conn_leave_requests s).

Definition conn_ok (s : SignalConnection) : Prop :=
  reads_ok (conn_reads s) ∧ groups_ok (conn_groups s) ∧ transfers_ok (conn_transfers s) ∧
  conn_pending_identity_changes s ⊆ conn_identity_changes_seen s ∧ requests_ok s.

(** A new connection is right. *)
Lemma connection_new_ok account : conn_ok (signal_connection_new account).
Proof.
  assert (Hx : transfers_ok (conn_transfers (signal_connection_new account))).
  { split; simpl; try (by intros ? ? ?%lookup_empty_Some); try (by intros ? [? ?%lookup_empty_Some]).
    - by intros ? ? ? ?%lookup_empty_Some.
    - set_solver. }
  assert (Hr : requests_ok (signal_connection_new account)) by (split_and!; constructor).
  split_and!; [|split_and!|exact Hx|simpl; set_solver|exact Hr].
  - unfold reads_ok. simpl. rewrite map_size_empty. unfold SIGNAL_MAX_PENDING_READS. lia.
  - simpl. by intros ? ? ?%lookup_empty_Some.
  - simpl. set_solver.
  - simpl. set_solver.
  - simpl. set_solver.
Qed.

(** The account, the core, the event source and the closing flag. *)
Definition life (s : SignalConnection) : Account * bool * bool * bool :=
  (conn_account s, conn_core s, conn_poll_source s, conn_closing s).

(** A state that is right follows; transfers keep their functions. *)
Definition follows (s : SignalConnection) (t : list call_entry) (s' : SignalConnection) : Prop :=
  conn_ok s' ∧ handler_trace t ∧ life s' = life s ∧
  xfer_functions (conn_transfers s) ⊆ xfer_functions (conn_transfers s').

Lemma follows_trans s t s' t' s'' : follows s t s' → follows s' t' s'' → follows s (t ++ t') s''.
Proof.
  intros (_&Ht&Hl&Hf) (H&Ht'&Hl'&Hf'). split_and!; [done|by apply handler_trace_app|congruence|by etrans].
Qed.

Lemma follows_refl s : conn_ok s → follows s [] s.
Proof. intros. by split_and!; [|constructor|..]. Qed.

(** From a state that is right, [m] is defined and keeps it right. *)
Definition safe {A} (m : plugin A) : Prop := ∀ s, conn_ok s → pends False m s (λ s' _ t, follows s t s').

Lemma safe_respects {A} (m : plugin A) : respects False groups_step m → safe m.
Proof.
  intros Hm s Hs. eapply pends_mono; [apply Hm|]. intros s' ? t (Ht%inner_handler&r&n&g&c&->&Hr&Hg).
  destruct Hs as (H1&H2&H3&H4&H5). split_and!; [|done..]. unfold conn_ok. simpl. by split_and!; auto.
Qed.

Lemma safe_ret {A} (a : A) : safe (mret a).
Proof. intros s Hs. pstep. by apply follows_refl. Qed.

Lemma safe_seq {A B} (m : plugin A) (k : A → plugin B) : safe m → (∀ a, safe (k a)) → safe (m ≫= k).
Proof.
  intros Hm Hk s Hs. eapply pends_bind; [by apply Hm|]. intros s' a t H. eapply pends_mono; [apply Hk, H|].
  intros s'' b t' H'. exact (follows_trans _ _ _ _ _ H H').
Qed.

Lemma safe_get_bind {B} (k : SignalConnection → plugin B) :
  (∀ s, conn_ok s → pends False (k s) s (λ s' _ t, follows s t s')) → safe (get ≫= k).
Proof. intros Hk s Hs. apply pends_get_bind. by apply Hk. Qed.

Lemma safe_each {A} (l : list A) f : (∀ x, safe (f x)) → safe (each l f).
Proof. intros Hf. induction l as [|x l IH]; simpl; [apply safe_ret|]. apply safe_seq; [apply Hf|]. by intros _. Qed.

Lemma safe_when b m : safe m → safe (when b m).
Proof. intros Hm. destruct b; [exact Hm|apply safe_ret]. Qed.

Lemma safe_when_some {A} (o : option A) f : (∀ a, safe (f a)) → safe (when_some o f).
Proof. intros Hf. destruct o; [apply Hf|apply safe_ret]. Qed.

Create HintDb safe discriminated.

Ltac safe_step :=
  lazymatch goal with
  | |- safe (_ ≫= _) => apply safe_seq; [|intros ?]
  | |- safe (mret _) => apply safe_ret
  | |- safe get => apply safe_respects, respects_get; apply _
  | |- safe (gets _) => apply safe_respects, respects_gets; apply _
  | |- safe (each _ _) => apply safe_each; intros ?
  | |- safe (when _ _) => apply safe_when
  | |- safe (when_some _ _) => apply safe_when_some; intros ?
  | |- safe (match ?x with _ => _ end) => destruct x
  | |- safe _ => first [solve [auto with safe nocore] | apply safe_respects; solve [auto with plugin nocore]]
  end; cbv beta zeta.

Ltac solve_safe := repeat first [assumption | safe_step].

(** ** Transfers *)

(** Like [reads_step], with the transfers as [x]. *)
Definition xfers_to (x : TransferState) (s : SignalConnection) (t : list call_entry) (s' : SignalConnection) : Prop :=
  inner_trace t ∧
  ∃ r n, s' = set_next_request_id n (on_transfers (λ _, x) (on_reads (λ _, r) s)) ∧ (reads_ok (conn_reads s) → reads_ok r).

Lemma xfers_to_reads s t s' : reads_step s t s' → xfers_to (conn_transfers s) s t s'.
Proof. intros (Ht&r&n&->&Hr). split; [done|]. exists r, n. by destruct s. Qed.

Lemma xfers_to_trans x x' s t s' t' s'' : xfers_to x s t s' → xfers_to x' s' t' s'' → xfers_to x' s (t ++ t') s''.
Proof.
  intros (Ht&r&n&->&Hr) (Ht'&r'&n'&->&Hr'). split; [by apply inner_trace_app|]. exists r', n'.
  split; [by destruct s|]. intros H. by apply Hr', Hr.
Qed.

Lemma xfers_to_modify f s : xfers_to (f (conn_transfers s)) s [] (on_transfers f s).
Proof. split; [constructor|]. exists (conn_reads s), (conn_next_request_id s). by destruct s. Qed.

Lemma xfers_to_transfers x s t s' : xfers_to x s t s' → conn_transfers s' = x.
Proof. by intros (_&r&n&->&_). Qed.

Lemma xfers_to_ok x s t s' :
  conn_ok s → transfers_ok x → (next_address (conn_transfers s) <= next_address x)%N →
  xfer_functions (conn_transfers s) ⊆ xfer_functions x → xfers_to x s t s' → follows s t s'.
Proof.
  intros (H1&H2&H3&H4&Hn1&Hn2&Hf) Hx Hnext Hfun (Ht%inner_handler&r&n&->&Hr). split_and!; [|done..]. unfold conn_ok, requests_ok. simpl.
  split_and!; auto. eapply Forall_impl; [exact Hf|]. simpl. intros. lia.
Qed.

Lemma unref_reads xfer : respects False reads_step (unref_xfer xfer).
Proof. unfold unref_xfer. solve_respects. Qed.
#[export] Hint Resolve unref_reads : plugin.

Lemma pends_deref_bind {B} a c (k : OutgoingContext → plugin B) s Q :
  contexts (conn_transfers s) !! a = Some c → pends False (k c) s Q → pends False (deref a ≫= k) s Q.
Proof. intros Hc Hk. unfold deref. pstep. pstep. rewrite Hc. by pstep. Qed.

(** The transfers without the context [a] of [xfer]. *)
Definition freed (xfer a : N) (table : gmap N N) (x : TransferState) : TransferState :=
  mkTransfers (xfer_functions x) (delete xfer (xfer_data x)) (delete a (contexts x)) (next_address x) table
    (outgoing_attachment_contexts x ∖ {[a]}).

Lemma freed_ok xfer a table x :
  transfers_ok x → xfer_data x !! xfer = Some (DataOutgoing a) → transfers_ok (freed xfer a table x).
Proof.
  intros [Ha Hi Ho Hc Hr Hx Hn] Hd. split; simpl.
  - intros xfer' a' [Hne Hd']%lookup_delete_Some. destruct (Ha _ _ Hd') as [Hal Hf]. split; [|done].
    rewrite lookup_delete_ne; [done|]. intros <-. by destruct (Ho _ _ _ Hd Hd').
  - intros xfer' bytes [_ Hd']%lookup_delete_Some. by eapply Hi.
  - intros x1 x2 a' [_ H1]%lookup_delete_Some [_ H2]%lookup_delete_Some. by eapply Ho.
  - intros a' c [Hne Hc']%lookup_delete_Some. destruct (Hc _ _ Hc') as (Hcon&Hreg&xfer'&Hd'). split; [done|].
    split; [set_solver|]. exists xfer'. apply lookup_delete_Some. split; [|done]. intros <-. congruence.
  - intros a' [Hin Hne]%elem_of_difference. rewrite lookup_delete_ne; [by apply Hr|set_solver].
  - exact Hx.
  - intros a' [? [_ Hc']%lookup_delete_Some]. apply Hn. eauto.
Qed.

(** The outgoing transfers without the request [id]. *)
Definition without_outgoing (id : N) (x : TransferState) : TransferState :=
  set_outgoing (delete id (outgoing_attachments x)) x.

Lemma remove_outgoing_spec id s :
  pends False (remove_outgoing id) s (λ s' _ t, xfers_to (without_outgoing id (conn_transfers s)) s t s').
Proof.
  unfold remove_outgoing. pstep. destruct (outgoing_attachments (transfers s) !! id) as [xfer|] eqn:E; simpl.
  - pstep. eapply pends_mono; [apply unref_reads|]. intros s' ? t H.
    change t with ([] ++ t). eapply xfers_to_trans; [apply xfers_to_modify|]. exact (xfers_to_reads _ _ _ H).
  - pstep. unfold without_outgoing. rewrite delete_id by done.
    pose proof (xfers_to_reads s [] s (trace_refl s)) as H. by destruct (conn_transfers s).
Qed.

Lemma free_spec xfer s :
  transfers_ok (conn_transfers s) → xfer_functions (conn_transfers s) !! xfer = Some XferSend →
  pends False (signal_outgoing_attachment_free xfer) s (λ s' _ t,
    match xfer_data (conn_transfers s) !! xfer with
    | Some (DataOutgoing a) => ∃ table, xfers_to (freed xfer a table (conn_transfers s)) s t s'
    | _ => xfers_to (conn_transfers s) s t s'
    end).
Proof.
  intros Hok Hf. unfold signal_outgoing_attachment_free, outgoing_data, data_of. pstep. pstep.
  destruct (xfer_data (transfers s) !! xfer) as [[a|bytes]|] eqn:Ed; simpl.
  2: { apply (incoming_functions _ Hok) in Ed. congruence. }
  2: { pstep. simpl. pstep. apply xfers_to_reads, trace_refl. }
  destruct (outgoing_allocated _ Hok _ _ Ed) as [[c Hc] _]. destruct (context_owned _ Hok _ _ Hc) as (Hcon&_&_).
  pstep. simpl. unfold clear_data. pstep. eapply pends_deref_bind; [exact Hc|]. rewrite Hcon. simpl.
  pose (s1 := on_transfers (λ x, set_registered (outgoing_attachment_contexts x ∖ {[a]}) x)
                (on_transfers (λ x, set_data (delete xfer (xfer_data x)) x) s)).
  assert (H1 : xfers_to (conn_transfers s1) s [] s1).
  { split; [constructor|]. exists (conn_reads s), (conn_next_request_id s). by destruct s. }
  pstep. pstep. eapply pends_bind with (P := λ s' _ t, ∃ table, xfers_to (set_outgoing table (conn_transfers s1)) s1 t s').
  { destruct (negb _); simpl; [eapply pends_mono; [apply remove_outgoing_spec|]; by eexists|]. pstep.
    exists (outgoing_attachments (conn_transfers s1)). exact (xfers_to_reads s1 [] s1 (trace_refl s1)). }
  intros s2 ? t2 (table&H2). unfold signal_outgoing_attachment_destroy. eapply (pends_deref_bind a c).
  { rewrite (xfers_to_transfers _ _ _ _ H2). exact Hc. }
  pstep. rewrite app_nil_r. exists table. pose proof (xfers_to_trans _ _ _ _ _ _ _ H1 H2) as H12. simpl in H12.
  rewrite <-(app_nil_r t2). eapply xfers_to_trans; [exact H12|].
  pose proof (xfers_to_modify (λ x, set_contexts (delete a (contexts x)) x) s2) as H3.
  rewrite (xfers_to_transfers _ _ _ _ H2) in H3. exact H3.
Qed.

Lemma free_safe xfer s :
  conn_ok s → xfer_functions (conn_transfers s) !! xfer = Some XferSend →
  pends False (signal_outgoing_attachment_free xfer) s (λ s' _ t, follows s t s').
Proof.
  intros Hs Hf. pose proof Hs as (_&_&Hok&_). eapply pends_mono; [by apply free_spec|]. intros s' u t H. cbv beta in H.
  destruct (xfer_data (transfers s) !! xfer) as [[a|bytes]|] eqn:Ed.
  - destruct H as [table H]. eapply xfers_to_ok; [done|by apply freed_ok|done|done|exact H].
  - by eapply xfers_to_ok.
  - by eapply xfers_to_ok.
Qed.

Lemma pends_safe {A} (m : plugin A) s : conn_ok s → safe m → pends False m s (λ s' _ t, follows s t s').
Proof. intros Hs Hm. by apply Hm. Qed.

(** After a program that is safe, what was known of the functions still holds. *)
Lemma pends_follow {A B} (m : plugin A) (k : A → plugin B) s :
  pends False m s (λ s' _ t, follows s t s') →
  (∀ s' a t, follows s t s' → pends False (k a) s' (λ s'' _ t', follows s' t' s'')) →
  pends False (m ≫= k) s (λ s' _ t, follows s t s').
Proof.
  intros Hm Hk. eapply pends_bind; [exact Hm|]. intros s' a t H. eapply pends_mono; [exact (Hk _ _ _ H)|].
  intros s'' b t' H'. exact (follows_trans _ _ _ _ _ H H').
Qed.

Lemma follows_function s t s' xfer type :
  follows s t s' → xfer_functions (conn_transfers s) !! xfer = Some type →
  xfer_functions (conn_transfers s') !! xfer = Some type.
Proof. intros (_&_&_&Hf) H. by eapply lookup_weaken. Qed.

Lemma pends_reads_keep {A B} (m : plugin A) (k : A → plugin B) s :
  conn_ok s → respects False reads_step m →
  (∀ s' a t, follows s t s' → reads_step s t s' → pends False (k a) s' (λ s'' _ t', follows s' t' s'')) →
  pends False (m ≫= k) s (λ s' _ t, follows s t s').
Proof.
  intros Hs Hm Hk. eapply pends_bind; [apply pends_and; [apply safe_respects; [by apply lift_reads|done]|apply Hm]|].
  intros s' a t [H Hr]. eapply pends_mono; [by eapply Hk|]. intros s'' b t' H'. exact (follows_trans _ _ _ _ _ H H').
Qed.

Lemma pends_reads_follow {A B} (m : plugin A) (k : A → plugin B) s :
  conn_ok s → respects False reads_step m →
  (∀ s' a t, follows s t s' → conn_transfers s' = conn_transfers s → pends False (k a) s' (λ s'' _ t', follows s' t' s'')) →
  pends False (m ≫= k) s (λ s' _ t, follows s t s').
Proof. intros Hs Hm Hk. apply pends_reads_keep; [done..|]. intros s' a t H (_&r&n&->&_). by eapply Hk. Qed.

(** A call of the core. *)
Lemma core_call_safe call : (∀ id, call ≠ CallAckMessage id) → safe (core (CoreCall call)).
Proof.
  intros Hc s Hs. pstep. split_and!; [done| |done|done]. apply Forall_singleton, bool_decide_eq_true_2.
  destruct call; try done. by destruct (Hc delivery_id).
Qed.

#[export] Hint Extern 3 (safe (core (CoreCall _))) => apply core_call_safe; done : safe.

Lemma pends_core_follow {B} call (k : SignalStatus → plugin B) s :
  conn_ok s → (∀ id, call ≠ CallAckMessage id) →
  (∀ status, pends False (k status) s (λ s' _ t, follows s t s')) →
  pends False (core (CoreCall call) ≫= k) s (λ s' _ t, follows s t s').
Proof.
  intros Hs Hc Hk. pstep. eapply pends_mono; [apply Hk|]. intros s' b t (H&Ht&H'). split; [done|]. split; [|done].
  constructor; [|done]. apply bool_decide_eq_true_2. destruct call; try done. by destruct (Hc delivery_id).
Qed.

(** What the data of an outgoing transfer is. *)
Lemma pends_outgoing_data {B} xfer (k : option N → plugin B) s Q :
  transfers_ok (conn_transfers s) → xfer_functions (conn_transfers s) !! xfer = Some XferSend →
  (xfer_data (conn_transfers s) !! xfer = None → pends False (k None) s Q) →
  (∀ a c, xfer_data (conn_transfers s) !! xfer = Some (DataOutgoing a) → contexts (conn_transfers s) !! a = Some c →
     out_connected c = true → pends False (k (Some a)) s Q) →
  pends False (outgoing_data xfer ≫= k) s Q.
Proof.
  intros Hok Hf Hnone Hsome. unfold outgoing_data, data_of. pstep. pstep.
  destruct (xfer_data (transfers s) !! xfer) as [[a|bytes]|] eqn:Ed.
  - destruct (outgoing_allocated _ Hok _ _ Ed) as [[c Hc] _]. pstep. eapply Hsome; [done|exact Hc|].
    by apply (context_owned _ Hok a c).
  - apply (incoming_functions _ Hok) in Ed. congruence.
  - pstep. by apply Hnone.
Qed.

Lemma cancel_safe xfer s :
  conn_ok s → xfer_functions (conn_transfers s) !! xfer = Some XferSend →
  pends False (signal_outgoing_attachment_cancel xfer) s (λ s' _ t, follows s t s').
Proof.
  intros Hs Hf. pose proof Hs as (_&_&Hok&_). unfold signal_outgoing_attachment_cancel.
  apply pends_outgoing_data; [done..| |].
  - intros _. simpl. pstep. by apply free_safe.
  - intros a c Hd Hc _. simpl. apply pends_follow.
    + eapply pends_deref_bind; [exact Hc|]. pstep. apply safe_respects; [|done]. solve_respects.
    + intros s' ? t H. apply free_safe; [apply H|]. by eapply follows_function.
Qed.

Lemma clear_incoming_ok xfer bytes x :
  transfers_ok x → xfer_data x !! xfer = Some (DataIncoming bytes) → transfers_ok (set_data (delete xfer (xfer_data x)) x).
Proof.
  intros [Ha Hi Ho Hc Hr Hx Hn] Hd. split; simpl; [..|done|done|done].
  - intros xfer' a [_ Hd']%lookup_delete_Some. by apply Ha.
  - intros xfer' b [_ Hd']%lookup_delete_Some. by eapply Hi.
  - intros x1 x2 a [_ H1]%lookup_delete_Some [_ H2]%lookup_delete_Some. by eapply Ho.
  - intros a c (Hcon&Hreg&xfer'&Hd')%Hc. split; [done|]. split; [done|]. exists xfer'. apply lookup_delete_Some.
    split; [|done]. intros <-. congruence.
Qed.

Lemma attachment_free_safe xfer s :
  conn_ok s → xfer_functions (conn_transfers s) !! xfer = Some XferReceive →
  pends False (signal_attachment_free xfer) s (λ s' _ t, follows s t s').
Proof.
  intros Hs Hf. pose proof Hs as (_&_&Hok&_). unfold signal_attachment_free, data_of. pstep.
  destruct (xfer_data (transfers s) !! xfer) as [[a|bytes]|] eqn:Ed.
  - apply (outgoing_allocated _ Hok) in Ed as [_ ?]. congruence.
  - unfold clear_data. pstep. eapply xfers_to_ok; [done|by eapply clear_incoming_ok|done|done|apply (xfers_to_modify (λ x, set_data (delete xfer (xfer_data x)) x))].
  - pstep. by apply follows_refl.
Qed.

Lemma final_function_safe xfer event : safe (final_function xfer event).
Proof.
  unfold final_function. apply safe_get_bind. intros s Hs.
  destruct (xfer_functions (transfers s) !! xfer) as [[]|] eqn:Ef; [| |by apply safe_ret]; destruct event;
    first [by apply safe_ret|by apply free_safe|by apply cancel_safe|by apply attachment_free_safe].
Qed.
#[export] Hint Resolve final_function_safe : safe.

Lemma run_final_safe xfer r : safe (run_final xfer r).
Proof. unfold run_final. solve_safe. Qed.
#[export] Hint Resolve run_final_safe : safe.

Lemma xfer_call_safe xfer o : safe (xfer_call xfer o).
Proof. unfold xfer_call. solve_safe. Qed.
#[export] Hint Resolve xfer_call_safe : safe.

Lemma attachment_start_safe xfer s :
  conn_ok s → xfer_functions (conn_transfers s) !! xfer = Some XferReceive →
  pends False (signal_attachment_start xfer) s (λ s' _ t, follows s t s').
Proof.
  intros Hs Hf. pose proof Hs as (_&_&Hok&_). unfold signal_attachment_start, data_of. pstep.
  destruct (xfer_data (transfers s) !! xfer) as [[a|bytes]|] eqn:Ed.
  - apply (outgoing_allocated _ Hok) in Ed as [_ ?]. congruence.
  - apply pends_safe; [done|solve_safe].
  - by apply xfer_call_safe.
Qed.

Lemma start_function_safe xfer event : safe (start_function xfer event).
Proof.
  unfold start_function. apply safe_get_bind. intros s Hs.
  destruct (xfer_functions (transfers s) !! xfer) as [[]|] eqn:Ef; destruct event;
    first [by apply final_function_safe|by apply attachment_start_safe].
Qed.
#[export] Hint Resolve start_function_safe : safe.

Lemma xfer_start_safe xfer : safe (xfer_start xfer).
Proof. unfold xfer_start. solve_safe. Qed.
#[export] Hint Resolve xfer_start_safe : safe.

Lemma attachment_init_safe xfer : safe (signal_attachment_init xfer).
Proof. apply xfer_start_safe. Qed.

(** A change of the transfers that keeps them right. *)
Lemma follows_modify (f : TransferState → TransferState) s :
  conn_ok s → transfers_ok (f (conn_transfers s)) → (next_address (conn_transfers s) <= next_address (f (conn_transfers s)))%N →
  xfer_functions (conn_transfers s) ⊆ xfer_functions (f (conn_transfers s)) → follows s [] (on_transfers f s).
Proof. intros. eapply xfers_to_ok; [done..|apply xfers_to_modify]. Qed.

Lemma assign_ok a c f x :
  transfers_ok x → contexts x !! a = Some c → out_connected (f c) = out_connected c →
  transfers_ok (set_contexts (<[a := f c]> (contexts x)) x).
Proof.
  intros [Ha Hi Ho Hc Hr Hx Hn] Hac Hcon.
  assert (Hsome : ∀ a', is_Some (<[a := f c]> (contexts x) !! a') ↔ is_Some (contexts x !! a')).
  { intros a'. rewrite lookup_insert_is_Some. split; [intros [<-|[_ ?]]; eauto|]. destruct (decide (a = a')); eauto. }
  split; simpl; [|done|done| |intros; by apply Hsome, Hr|done|intros ? ?%Hsome; by apply Hn].
  - intros xfer' a' [? ?]%Ha. split; [by apply Hsome|done].
  - intros a' c' [[<- <-]|[_ Hc']]%lookup_insert_Some; [rewrite Hcon; by apply Hc|by apply Hc].
Qed.

Lemma assign_safe a c f s :
  conn_ok s → contexts (conn_transfers s) !! a = Some c → out_connected (f c) = out_connected c →
  pends False (assign a f) s (λ s' _ t, follows s t s').
Proof.
  intros Hs Hc Hcon. unfold assign. eapply pends_deref_bind; [exact Hc|]. pstep.
  apply (follows_modify (λ x, set_contexts (<[a := f c]> (contexts x)) x)); [done|apply assign_ok; [apply Hs|done..]|done|done].
Qed.

Lemma set_outgoing_ok table x : transfers_ok x → transfers_ok (set_outgoing table x).
Proof. by intros []. Qed.

Lemma insert_outgoing_safe id xfer : safe (insert_outgoing id xfer).
Proof.
  unfold insert_outgoing. apply safe_get_bind. intros s Hs. apply pends_follow.
  - pstep. apply (follows_modify (λ x, set_outgoing (<[id := xfer]> (outgoing_attachments x)) x)); [done|apply set_outgoing_ok, Hs|done..].
  - intros s' ? t H. apply pends_safe; [apply H|solve_safe].
Qed.

Lemma remove_outgoing_safe id : safe (remove_outgoing id).
Proof.
  intros s Hs. eapply pends_mono; [apply remove_outgoing_spec|]. intros s' u t H.
  eapply xfers_to_ok; [done|apply set_outgoing_ok, Hs|done|done|exact H].
Qed.
#[export] Hint Resolve attachment_init_safe insert_outgoing_safe remove_outgoing_safe : safe.

(** ** Files and images *)

Lemma open_regular_reads path : respects False reads_step (open_regular path).
Proof. unfold open_regular. solve_respects. Qed.
Lemma read_header_reads turns fd : respects False reads_step (read_header turns fd).
Proof. induction turns as [|turns IH]; simpl; solve_respects. Qed.
#[export] Hint Resolve open_regular_reads read_header_reads : plugin.
Lemma inspect_reads `{Gl : GLib} turns path limit : respects False reads_step (signal_inspect_attachment_file turns path limit).
Proof. unfold signal_inspect_attachment_file. solve_respects. Qed.
#[export] Hint Resolve inspect_reads : plugin.

Lemma sizes_prepared_reads sizes v : respects False reads_step (sizes_prepared sizes v).
Proof.
  revert v. induction sizes as [|size sizes IH]; intros v; simpl; [solve_respects|].
  unfold signal_inline_image_size_prepared. solve_respects; apply IH.
Qed.
#[export] Hint Resolve sizes_prepared_reads : plugin.

(** The chunks come to an end. *)
Lemma write_chunks_reads fuel rest v : length rest <= fuel → respects False reads_step (write_chunks fuel rest v).
Proof.
  revert rest v. induction fuel as [|fuel IH]; intros [|b rest] v Hlen; simpl in *; try lia; try solve_respects.
  apply IH. rewrite length_drop. lia.
Qed.

Lemma is_supported_reads `{Gl : GLib} mime block :
  respects False reads_step (signal_inline_image_is_supported mime (Some block) (len block)).
Proof.
  unfold signal_inline_image_is_supported. destruct (image_type_defined mime block) as [o ->].
  assert (Hw : ∀ v, respects False reads_step (write_chunks (length (take (N.to_nat (len block)) (default [] (Some block))))
    (take (N.to_nat (len block)) (default [] (Some block))) v)) by (intros; by apply write_chunks_reads).
  simpl in Hw |- *. repeat first [apply Hw|respects_step].
Qed.
#[export] Hint Resolve is_supported_reads : plugin.

Lemma deliver_image_reads `{Gl : GLib} filename mime block writer :
  (∀ markup flags, respects False reads_step (writer markup flags)) →
  respects False reads_step
    (signal_inline_image_deliver_with_markup_writer filename mime (Some block) (len block) writer).
Proof. intros Hw. unfold signal_inline_image_deliver_with_markup_writer. repeat first [apply Hw|respects_step]. Qed.
Lemma deliver_group_image_reads `{Gl : GLib} chat_id sender filename mime block timestamp :
  respects False reads_step (signal_inline_image_deliver_group chat_id sender filename mime (Some block) (len block) timestamp).
Proof. unfold signal_inline_image_deliver_group. respects_step; [solve_respects|]. apply deliver_image_reads. intros. auto with plugin. Qed.
Lemma deliver_direct_image_reads `{Gl : GLib} sender filename mime block timestamp :
  respects False reads_step (signal_inline_image_deliver_direct sender filename mime (Some block) (len block) timestamp).
Proof. unfold signal_inline_image_deliver_direct. respects_step; [solve_respects|]. apply deliver_image_reads. intros. auto with plugin. Qed.
#[export] Hint Resolve deliver_group_image_reads deliver_direct_image_reads : plugin.

(** ** New transfers *)

(** A transfer with a new context. *)
Definition with_outgoing (recipient : string) (group : bool) (x : TransferState) : TransferState :=
  let n := next_address x in
  mkTransfers (<[(n + 1)%N := XferSend]> (xfer_functions x)) (<[(n + 1)%N := DataOutgoing n]> (xfer_data x))
    (<[n := mkOutgoing true recipient 0 group]> (contexts x)) (n + 1 + 1) (outgoing_attachments x)
    ({[n]} ∪ outgoing_attachment_contexts x).

Lemma data_known x xfer : transfers_ok x → is_Some (xfer_data x !! xfer) → (xfer < next_address x)%N.
Proof.
  intros Hok [[a|bytes] Hd]; apply (xfers_known _ Hok).
  - apply (outgoing_allocated _ Hok) in Hd as [_ ?]. eauto.
  - apply (incoming_functions _ Hok) in Hd. eauto.
Qed.

Lemma fresh_function x xfer : transfers_ok x → (next_address x <= xfer)%N → xfer_functions x !! xfer = None.
Proof.
  intros Hok Hn. apply eq_None_not_Some. intros Hf%(xfers_known _ Hok). lia.
Qed.

Lemma with_outgoing_ok recipient group x : transfers_ok x → transfers_ok (with_outgoing recipient group x).
Proof.
  intros Hok. pose proof Hok as [Ha Hi Ho Hc Hr Hx Hn]. set (n := next_address x) in *.
  assert (Hd : ∀ xfer d, xfer_data x !! xfer = Some d → (xfer < n)%N) by (intros; apply data_known; eauto).
  assert (Hctx : ∀ a, is_Some (contexts x !! a) → a ≠ n) by (intros a H%Hn ->; fold n in H; lia).
  assert (Hfun : xfer_functions x !! (n + 1)%N = None) by (apply fresh_function; [done|unfold n; lia]).
  split; simpl; fold n.
  - intros xfer a [[<- [= <-]]|[Hne Hd']]%lookup_insert_Some; [by rewrite !lookup_insert_eq|].
    rewrite (lookup_insert_ne (xfer_functions x)) by done. destruct (Ha _ _ Hd') as [Hal ?]. split; [|done].
    rewrite lookup_insert_ne; [done|]. by apply not_eq_sym, Hctx.
  - intros xfer bytes [[<- [=]]|[Hne Hd']]%lookup_insert_Some. rewrite lookup_insert_ne by done. by eapply Hi.
  - intros x1 x2 a [[<- [= <-]]|[Hne1 H1]]%lookup_insert_Some [[<- H2]|[Hne2 H2]]%lookup_insert_Some; [done|..].
    + apply Ha in H2 as [H2%Hctx _]. done.
    + simplify_eq. apply Ha in H1 as [H1%Hctx _]. done.
    + by eapply Ho.
  - intros a c [[<- <-]|[Hne Hc']]%lookup_insert_Some.
    + split; [done|]. split; [set_solver|]. exists (n + 1)%N. by rewrite lookup_insert_eq.
    + destruct (Hc _ _ Hc') as (Hcon&Hreg&xfer&Hd'). split; [done|]. split; [set_solver|]. exists xfer.
      rewrite lookup_insert_ne; [done|]. apply Hd in Hd'. lia.
  - intros a [->%elem_of_singleton|Hin]%elem_of_union; [by rewrite lookup_insert_eq|].
    rewrite lookup_insert_ne; [by apply Hr|]. by apply not_eq_sym, Hctx, Hr.
  - intros xfer [<-|[_ Hf%Hx]]%lookup_insert_is_Some; [lia|]. fold n in Hf. lia.
  - intros a [<-|[_ Hc'%Hn]]%lookup_insert_is_Some; [lia|]. fold n in Hc'. lia.
Qed.

(** A transfer with a received file. *)
Definition with_incoming (bytes : list byte) (x : TransferState) : TransferState :=
  let n := next_address x in
  mkTransfers (<[n := XferReceive]> (xfer_functions x)) (<[n := DataIncoming bytes]> (xfer_data x))
    (contexts x) (n + 1) (outgoing_attachments x) (outgoing_attachment_contexts x).

Lemma with_incoming_ok bytes x : transfers_ok x → transfers_ok (with_incoming bytes x).
Proof.
  intros Hok. pose proof Hok as [Ha Hi Ho Hc Hr Hx Hn]. set (n := next_address x) in *.
  assert (Hd : ∀ xfer d, xfer_data x !! xfer = Some d → (xfer < n)%N) by (intros; apply data_known; eauto).
  split; simpl; fold n; [..|exact Hr| |].
  - intros xfer a [[<- [=]]|[Hne Hd']]%lookup_insert_Some. rewrite lookup_insert_ne by done. by apply Ha.
  - intros xfer b [[<- [= <-]]|[Hne Hd']]%lookup_insert_Some; [by rewrite lookup_insert_eq|].
    rewrite lookup_insert_ne by done. by eapply Hi.
  - intros x1 x2 a [[<- [=]]|[Hne1 H1]]%lookup_insert_Some [[<- [=]]|[Hne2 H2]]%lookup_insert_Some. by eapply Ho.
  - intros a c (Hcon&Hreg&xfer&Hd')%Hc. split; [done|]. split; [done|]. exists xfer.
    rewrite lookup_insert_ne; [done|]. apply Hd in Hd'. lia.
  - intros xfer [<-|[_ Hf%Hx]]%lookup_insert_is_Some; [lia|]. fold n in Hf. lia.
  - intros a Hc'%Hn. fold n in Hc'. lia.
Qed.

(** ** Sending *)

Section Sending.
Context `{Gl : GLib}.
Variables (files : file_metadata) (turns : nat).

Lemma refuse_xfer_safe xfer message : safe (refuse_xfer xfer message).
Proof. unfold refuse_xfer. solve_safe. Qed.
#[local] Hint Resolve refuse_xfer_safe : safe.

Lemma submit_attachment_safe xfer local_filename mime_type s :
  conn_ok s → xfer_functions (conn_transfers s) !! xfer = Some XferSend →
  pends False (submit_attachment files xfer local_filename mime_type) s (λ s' _ t, follows s t s').
Proof.
  intros Hs Hf. unfold submit_attachment. apply pends_follow; [apply safe_respects; [solve_respects|done]|].
  intros s1 u1 t1 H1. apply pends_follow; [apply xfer_start_safe, H1|]. intros s2 u2 t2 H2.
  pose proof H2 as (Hs2&_). pose proof Hs2 as (_&_&Hok&_). apply pends_outgoing_data; [done|by do 2 (eapply follows_function; [done|])|..].
  - intros _. apply safe_respects; [auto with plugin|done].
  - intros a c Hd Hc Hcon. eapply pends_deref_bind; [exact Hc|]. rewrite Hcon. simpl.
    apply pends_core_follow; [done..|]. intros status.
    assert (Hrefuse : pends False (_ ← assign a (set_out_request_id 0);
      _ ← refuse_xfer xfer "The Signal attachment could not be queued"; unref_xfer xfer) s2 (λ s3 _ t3, follows s2 t3 s3)).
    { apply pends_follow; [by eapply assign_safe|]. intros s4 ? t4 H4.
      apply pends_safe; [apply H4|solve_safe]. }
    destruct status; try exact Hrefuse. apply pends_safe; [done|solve_safe].
Qed.

Lemma outgoing_init_safe xfer s :
  conn_ok s → xfer_functions (conn_transfers s) !! xfer = Some XferSend →
  pends False (signal_outgoing_attachment_init files turns xfer) s (λ s' _ t, follows s t s').
Proof.
  intros Hs Hf. pose proof Hs as (_&_&Hok&_). unfold signal_outgoing_attachment_init.
  apply pends_outgoing_data; [done..|intros _; by apply xfer_call_safe|]. intros a c Hd Hc Hcon.
  eapply pends_deref_bind; [exact Hc|]. pstep. rewrite Hcon. simpl.
  destruct (conn_closing s); [by apply xfer_call_safe|]. destruct (_ && _); [by apply refuse_xfer_safe|].
  apply pends_reads_follow; [done|auto with plugin|]. intros s1 path t1 H1 Htr1.
  apply pends_reads_follow; [apply H1|auto with plugin|]. intros s2 inspected t2 H2 Htr2.
  destruct inspected as [[[size mime]|e]|]; [|apply refuse_xfer_safe, H2|apply pends_safe; [apply H2|solve_safe]].
  apply pends_reads_follow; [apply H2|auto with plugin|]. intros s3 u3 t3 H3 Htr3.
  apply pends_reads_follow; [apply H3|auto with plugin|]. intros s4 id t4 H4 Htr4.
  assert (Htr : conn_transfers s4 = conn_transfers s) by congruence.
  apply pends_follow; [eapply assign_safe; [apply H4|by rewrite Htr|done]|]. intros s5 ? t5 H5.
  apply submit_attachment_safe; [apply H5|]. eapply follows_function; [done|]. by rewrite Htr.
Qed.

Lemma request_function_safe xfer event : safe (request_function files turns xfer event).
Proof.
  unfold request_function. apply safe_get_bind. intros s Hs.
  destruct (xfer_functions (transfers s) !! xfer) as [[]|] eqn:Ef; destruct event;
    first [by apply start_function_safe|by apply outgoing_init_safe|by apply attachment_init_safe].
Qed.
#[local] Hint Resolve request_function_safe : safe.

Lemma xfer_request_safe xfer o : safe (xfer_request files turns xfer o).
Proof. unfold xfer_request. solve_safe. Qed.
#[local] Hint Resolve xfer_request_safe : safe.

Lemma request_xfer_safe xfer filename : safe (request_xfer files turns xfer filename).
Proof. unfold request_xfer. solve_safe. Qed.

Lemma new_attachment_xfer_safe peer recipient group : safe (signal_new_attachment_xfer peer recipient group).
Proof.
  unfold signal_new_attachment_xfer. apply safe_get_bind. intros s Hs.
  destruct peer as [peer|]; [|by apply safe_ret]. destruct recipient as [recipient|]; [|by apply safe_ret].
  destruct (conn_closing s); [by apply safe_ret|].
  apply pends_reads_follow; [done|auto with plugin|]. intros s1 created t1 H1 Htr1.
  destruct (negb created); [apply safe_ret, H1|].
  unfold allocate_context, register_xfer. repeat pstep.
  apply (follows_modify (with_outgoing recipient group) s1); [apply H1|apply with_outgoing_ok, H1|simpl; lia|].
  apply insert_subseteq, fresh_function; [apply H1|lia].
Qed.

Lemma register_incoming_safe bytes : safe (register_xfer XferReceive (DataIncoming bytes)).
Proof.
  unfold register_xfer. apply safe_get_bind. intros s Hs. repeat pstep.
  apply (follows_modify (with_incoming bytes) s); [done|apply with_incoming_ok, Hs|simpl; lia|].
  apply insert_subseteq, fresh_function; [apply Hs|lia].
Qed.
#[local] Hint Resolve request_xfer_safe new_attachment_xfer_safe register_incoming_safe : safe.

Lemma new_xfer_safe who : safe (signal_new_xfer who).
Proof. apply new_attachment_xfer_safe. Qed.
#[local] Hint Resolve new_xfer_safe : safe.
Lemma send_file_safe who filename : safe (signal_send_file files turns who filename).
Proof. unfold signal_send_file. solve_safe. Qed.
Lemma complete_safe event : safe (signal_outgoing_attachment_complete event).
Proof. unfold signal_outgoing_attachment_complete, find_outgoing. solve_safe. Qed.
Lemma failed_safe event : safe (signal_outgoing_attachment_failed event).
Proof. unfold signal_outgoing_attachment_failed, find_outgoing. solve_safe. Qed.
Lemma offer_safe conv peer filename event : safe (offer_attachment files turns conv peer filename event).
Proof. unfold offer_attachment. solve_safe. Qed.
#[local] Hint Resolve offer_safe : safe.

Lemma event_time_reads event : respects False reads_step (event_time event).
Proof. unfold event_time. solve_respects. Qed.
#[local] Hint Resolve event_time_reads : plugin.

Lemma deliver_attachment_safe event : safe (signal_deliver_attachment files turns event).
Proof.
  unfold signal_deliver_attachment. destruct (filled (ev_peer_id event)) as [peer|]; [|solve_safe].
  destruct (_ || _) eqn:E; [solve_safe|]. rewrite !orb_false_iff, bool_decide_eq_false in E. destruct E as [[E _] _].
  assert (Hopen : safe (match ev_chat_id event with
    | Some chat => _ ← modify (on_groups (λ g, set_active ({[chat]} ∪ active_group_keys g) g)); signal_open_group chat None
    | None => mret None
    end)).
  { destruct (ev_chat_id event) as [chat|]; [|solve_safe]. apply safe_seq; [|intros _; solve_safe].
    apply safe_respects, activate_groups. congruence. }
  repeat first [exact Hopen | safe_step].
Qed.

End Sending.

#[export] Hint Resolve request_function_safe request_xfer_safe new_attachment_xfer_safe new_xfer_safe send_file_safe complete_safe failed_safe
  deliver_attachment_safe : safe.
#[export] Hint Resolve event_time_reads : plugin.
