(* ===== verification/AdapterSafety.v ===== *)
(** * AdapterSafety: every event and every request is handled safely

    No handler of an event of the core and no function libpurple calls runs
    into undefined behaviour or breaks the invariant of the connection, for any
    event, malformed or not. *)
From S2P Require Import Prelude Event Media InlineGif Ffi Effects Purple Plugin ReadReceipts BuddyList PluginGroups.
From S2P Require Import AttachmentFile InlineImage Transfers Adapter UserActions PluginSafety TransferSafety.

(** ** Assignments *)

Lemma set_link_qr_safe qr : safe (modify (set_link_qr qr)).
Proof. intros s Hs. pstep. by split_and!; [destruct s|constructor|..]. Qed.

Lemma set_identity_safe aci profile : safe (modify (set_identity aci profile)).
Proof. intros s Hs. pstep. by split_and!; [destruct s|constructor|..]. Qed.

Lemma on_identities_follows f s :
  conn_ok s → (∀ i, i.2 ⊆ i.1 → (f i).2 ⊆ (f i).1) → follows s [] (on_identities f s).
Proof.
  intros (H1&H2&H3&H4&H5) Hf. split_and!; [|constructor|done|done]. unfold conn_ok. simpl.
  split_and!; try done. by apply (Hf (_, _)).
Qed.

Lemma on_identities_safe f :
  (∀ i, i.2 ⊆ i.1 → (f i).2 ⊆ (f i).1) → safe (modify (on_identities f)).
Proof. intros Hf s Hs. pstep. by apply on_identities_follows. Qed.

(** Two assignments in a row. *)
Lemma identities_bind_safe {A} f g (k : plugin A) :
  (∀ i, i.2 ⊆ i.1 → (g (f i)).2 ⊆ (g (f i)).1) → safe k →
  safe (_ ← modify (on_identities f); _ ← modify (on_identities g); k).
Proof.
  intros Hfg Hk s Hs. pstep. pstep. assert (H : follows s [] (on_identities g (on_identities f s))).
  { replace (on_identities g (on_identities f s)) with (on_identities (λ i, g (f i)) s); [by apply on_identities_follows|].
    unfold on_identities. simpl. by rewrite <-surjective_pairing. }
  eapply pends_mono; [apply Hk; exact (proj1 H)|]. intros s' a t H'. exact (follows_trans _ _ _ _ _ H H').
Qed.

#[export] Hint Resolve set_link_qr_safe set_identity_safe : safe.
#[export] Hint Extern 3 (safe (modify (on_identities _))) => apply on_identities_safe; intros [] ?; simpl in *; set_solver : safe.

(** ** Events *)

Tactic Notation "safe_by" reference(f) := unfold f; solve_safe.

Section Events.
Context `{Gl : GLib}.
Variables (files : file_metadata) (turns : nat).

Lemma notify_safe kind title primary secondary : safe (notify kind title primary secondary).
Proof. safe_by notify. Qed.
#[local] Hint Resolve notify_safe : safe.

Lemma show_link_qr_safe event : safe (signal_show_link_qr event).
Proof. safe_by signal_show_link_qr. Qed.
Lemma deliver_direct_safe event : safe (signal_deliver_direct event).
Proof. safe_by signal_deliver_direct. Qed.
Lemma deliver_group_safe event : safe (signal_deliver_group event).
Proof. unfold signal_deliver_group. destruct (filled (ev_chat_id event)) eqn:E; solve_safe. Qed.
Lemma identity_changed_safe event : safe (signal_identity_changed event).
Proof.
  unfold signal_identity_changed. apply safe_seq; [solve_safe|]. intros s.
  destruct (filled (ev_peer_id event)) as [peer|]; [|solve_safe]. destruct (bool_decide _); [solve_safe|].
  destruct (negb (ev_value event =? 0)%Z); [|solve_safe].
  apply identities_bind_safe; [intros [] ?; simpl in *; set_solver|solve_safe].
Qed.
Lemma identity_accepted_safe event : safe (signal_identity_accepted event).
Proof. safe_by signal_identity_accepted. Qed.
Lemma session_reset_safe event : safe (signal_session_reset event).
Proof. safe_by signal_session_reset. Qed.
Lemma set_avatar_safe event : safe (signal_set_avatar event).
Proof. safe_by signal_set_avatar. Qed.
Lemma leave_failed_safe event : safe (signal_group_leave_failed event).
Proof. safe_by signal_group_leave_failed. Qed.
Lemma group_left_safe event : safe (signal_group_left event).
Proof. safe_by signal_group_left. Qed.
Lemma on_ready_safe : safe on_ready.
Proof. safe_by on_ready. Qed.
Lemma on_recovering_safe : safe on_recovering.
Proof. safe_by on_recovering. Qed.
Lemma on_typing_safe event : safe (on_typing event).
Proof. safe_by on_typing. Qed.
Lemma set_account_identity_safe event : safe (signal_set_account_identity event).
Proof. safe_by signal_set_account_identity. Qed.
#[local] Hint Resolve leave_failed_safe : safe.
Lemma on_error_safe event : safe (on_error event).
Proof. safe_by on_error. Qed.
#[local] Hint Resolve show_link_qr_safe deliver_direct_safe deliver_group_safe identity_changed_safe identity_accepted_safe
  session_reset_safe set_avatar_safe group_left_safe on_ready_safe on_recovering_safe on_typing_safe
  set_account_identity_safe on_error_safe : safe.

Lemma accepted_safe {A} (m : plugin A) : safe m → safe (accepted m).
Proof. intros. safe_by accepted. Qed.
Lemma projected_safe m : safe m → safe (projected m).
Proof. intros. safe_by projected. Qed.

Lemma dispatch_safe event : safe (signal_dispatch_event files turns event).
Proof.
  unfold signal_dispatch_event. cbv zeta.
  repeat first [apply accepted_safe | apply projected_safe | safe_step].
Qed.

End Events.
#[export] Hint Resolve notify_safe dispatch_safe : safe.

(** ** Requests of the user *)

Section Requests.
Context `{Gl : GLib}.
Variables (files : file_metadata) (turns : nat).

Lemma send_im_safe who message : safe (signal_send_im who message).
Proof. safe_by signal_send_im. Qed.
Lemma send_typing_safe who typing : safe (signal_send_typing who typing).
Proof. safe_by signal_send_typing. Qed.
Lemma chat_send_safe id message flags : safe (signal_chat_send id message flags).
Proof. safe_by signal_chat_send. Qed.
Lemma chat_send_file_safe id filename : safe (signal_chat_send_file files turns id filename).
Proof. safe_by signal_chat_send_file. Qed.
Lemma join_chat_safe components : safe (signal_join_chat components).
Proof. safe_by signal_join_chat. Qed.
Lemma chat_leave_safe id : safe (signal_chat_leave id).
Proof. safe_by signal_chat_leave. Qed.
Lemma chat_buddy_alias_safe who : safe (signal_chat_buddy_alias who).
Proof. safe_by signal_chat_buddy_alias. Qed.

Lemma get_info_safe who : safe (signal_get_info who).
Proof. safe_by signal_get_info. Qed.

Lemma own_buddy_reads node : respects False reads_step (own_buddy node).
Proof. unfold own_buddy. solve_respects. Qed.
#[local] Hint Resolve own_buddy_reads : plugin.

Lemma accept_identity_safe node : safe (signal_accept_changed_identity node).
Proof. safe_by signal_accept_changed_identity. Qed.
Lemma reset_session_safe node : safe (signal_reset_session node).
Proof. safe_by signal_reset_session. Qed.
Lemma node_menu_safe node : safe (signal_blist_node_menu node).
Proof. safe_by signal_blist_node_menu. Qed.
Lemma link_cancel_safe : safe signal_link_cancel.
Proof. safe_by signal_link_cancel. Qed.

(** *** Leaving a group *)

Lemma filter_fmap_NoDup {A} (f : LeaveRequest → A) P `{!∀ r, Decision (P r)} l : NoDup (f <$> l) → NoDup (f <$> filter P l).
Proof. intros Hl. eapply sublist_NoDup; [exact Hl|]. apply fmap_sublist, sublist_filter. Qed.

Lemma finish_safe request : safe (signal_finish_group_leave_request request).
Proof.
  intros s Hs. unfold signal_finish_group_leave_request. pstep.
  destruct Hs as (H1&H2&H3&H4&Hn1&Hn2&Hf). split_and!; [|constructor|done|done]. unfold conn_ok, requests_ok. simpl.
  split_and!; [done..|by apply filter_fmap_NoDup|by apply filter_fmap_NoDup|].
  rewrite Forall_forall in *. intros r [_ Hr]%list_elem_of_filter. by apply Hf.
Qed.
#[local] Hint Resolve finish_safe : safe.

Lemma leave_request_safe id s :
  conn_ok s → id ∈ leave_id <$> conn_leave_requests s →
  pends False (leave_request id) s (λ s' r t, s' = s ∧ t = [] ∧ r ∈ conn_leave_requests s ∧ leave_id r = id).
Proof.
  intros _ (r&->&Hr)%list_elem_of_fmap. unfold leave_request. pstep.
  destruct (list_find_elem_of (λ r', leave_id r' = leave_id r) _ _ Hr eq_refl) as [[i r'] E]. rewrite E.
  pstep. apply list_find_Some in E as (E1&E2&_). split_and!; [done|done| |done]. by eapply list_elem_of_lookup_2.
Qed.

Lemma cancel_leave_safe id s :
  conn_ok s → id ∈ leave_id <$> conn_leave_requests s →
  pends False (signal_cancel_group_leave id) s (λ s' _ t, follows s t s').
Proof.
  intros Hs Hid. unfold signal_cancel_group_leave. eapply pends_bind; [by apply leave_request_safe|].
  intros ? r ? (->&->&_). by apply finish_safe.
Qed.

Lemma add_leave_safe key s :
  conn_ok s → key ∈ active_group_keys (conn_groups s) →
  follows s [] (on_groups (λ g, set_leaves ({[key]} ∪ pending_group_leaves g) g) s).
Proof.
  intros (H1&(Hid&Hl&He&Hsn)&H3&H4&H5) Hkey. split_and!; [|constructor|done|done]. unfold conn_ok, groups_ok. simpl.
  split_and!; try done. set_solver.
Qed.

Lemma confirm_leave_safe id s :
  conn_ok s → id ∈ leave_id <$> conn_leave_requests s →
  pends False (signal_confirm_group_leave id) s (λ s' _ t, follows s t s').
Proof.
  intros Hs Hid. unfold signal_confirm_group_leave. eapply pends_bind; [by apply leave_request_safe|].
  intros ? request ? (->&->&_). pstep. cbv zeta.
  destruct (conn_closing s || _) eqn:E; [apply pends_safe; [done|solve_safe]|].
  destruct (bool_decide _); [apply pends_safe; [done|solve_safe]|].
  assert (Hactive : leave_group_key request ∈ active_group_keys (conn_groups s)).
  { apply orb_false_iff in E as [_ E]. apply negb_false_iff in E. unfold signal_group_is_active in E. simpl in E.
    apply andb_true_iff in E as [_ E]. by apply bool_decide_eq_true in E. }
  apply pends_reads_keep; [done|auto with plugin|]. intros s1 request_id t1 H1 Hg1%reads_step_keeps_groups.
  apply pends_core_follow; [apply H1|done|]. intros status.
  apply pends_follow; [|intros s3 ? t3 H3; apply finish_safe, H3].
  destruct (bool_decide (status = StatusOk)); [|apply pends_safe; [apply H1|solve_safe]].
  apply pends_follow; [pstep; apply add_leave_safe; [apply H1|by rewrite Hg1]|].
  intros s3 ? t3 H3. apply notify_safe, H3.
Qed.

(** The request is new: its group has none yet. *)
Lemma add_request_follows key title s :
  conn_ok s → signal_group_leave_prompted s key = false →
  let request := mkLeaveRequest (next_address (conn_transfers s)) key title in
  follows s [] (on_leave_requests (λ l, l ++ [request]) (on_transfers (λ x, mkTransfers (xfer_functions x) (xfer_data x)
    (contexts x) (next_address x + 1) (outgoing_attachments x) (outgoing_attachment_contexts x)) s)).
Proof.
  intros (H1&H2&H3&H4&Hn1&Hn2&Hf) Hp request. split_and!; [|constructor|done|done]. unfold conn_ok, requests_ok. simpl.
  rewrite !fmap_app, Forall_app, Forall_singleton. rewrite Forall_forall in Hf.
  split_and!; [done|done| |done|apply NoDup_app|apply NoDup_app|rewrite Forall_forall|simpl; lia].
  - destruct H3 as [Ha Hi Ho Hc Hr Hx Hn]. split; simpl; try done.
    + intros xfer H%Hx. lia.
    + intros a H%Hn. lia.
  - split_and!; [done| |apply NoDup_singleton]. intros id (r&->&Hr%Hf)%list_elem_of_fmap Heq%list_elem_of_singleton.
    simpl in Heq. lia.
  - split_and!; [done| |apply NoDup_singleton]. intros k (r&->&Hr)%list_elem_of_fmap Heq%list_elem_of_singleton. simpl in Heq.
    apply not_true_iff_false in Hp. apply Hp, existsb_exists. exists r. split; [by apply list_elem_of_In|].
    by apply String.eqb_eq.
  - intros r Hr%Hf. lia.
Qed.

Lemma request_leave_safe node : safe (signal_request_group_leave node).
Proof.
  intros s0 Hs0. unfold signal_request_group_leave. destruct node as [chat|buddy|]; [|by apply safe_ret..].
  apply pends_reads_keep; [done|auto with plugin|]. intros s1 managed t1 [Hs1 _] _.
  destruct (negb managed); [by apply safe_ret|].
  apply pends_reads_keep; [done|auto with plugin|]. intros s account t2 [Hs _] _. pstep.
  destruct (negb _); [by apply safe_ret|].
  apply pends_reads_keep; [done|auto with plugin|]. intros s3 group_key t3 H3 Hr3.
  destruct (leavable s group_key) as [key|] eqn:El; [|apply safe_ret, H3].
  apply pends_reads_keep; [apply H3|auto with plugin|]. intros s4 name t4 H4 Hr4. cbv zeta.
  assert (Hp : signal_group_leave_prompted s4 key = false ∧ conn_transfers s4 = conn_transfers s).
  { destruct Hr3 as (_&r3&n3&->&_), Hr4 as (_&r4&n4&->&_). split; [|done].
    unfold leavable in El. repeat case_match; simplify_eq/=. apply andb_true_iff in H0 as [_ H0]. by apply negb_true_iff in H0. }
  destruct Hp as [Hp Htr]. rewrite <-Htr.
  pose proof (add_request_follows key (default (signal_group_title s key) (filled name)) s4 (proj1 H4) Hp) as H5.
  pstep. pstep. eapply pends_mono; [apply pends_safe; [exact (proj1 H5)|solve_safe]|].
  intros s' ? t H. exact (follows_trans _ _ _ _ _ H5 H).
Qed.

End Requests.
#[export] Hint Resolve send_im_safe send_typing_safe chat_send_safe chat_send_file_safe join_chat_safe chat_leave_safe
  chat_buddy_alias_safe get_info_safe accept_identity_safe reset_session_safe node_menu_safe link_cancel_safe request_leave_safe : safe.
