(* ===== verification/Polling.v ===== *)
(** * Polling: what one wake-up of the plugin does with the core

    [signal_poll_backend] polls at most 64 events.  Each is dispatched, then
    acknowledged if it is a projection with a delivery id, then freed; nothing
    else touches the queue of the core, and the connection stays right. *)
From S2P Require Import Prelude Event Media InlineGif Ffi Effects Purple PurpleWorld Plugin ReadReceipts BuddyList PluginGroups.
From S2P Require Import AttachmentFile InlineImage Transfers Adapter UserActions PluginSafety TransferSafety AdapterSafety.

(** ** Which events end the connection *)

Definition stops (event : Event) : bool :=
  ((ev_kind event =? EVENT_ERROR)%N && has_flag FLAG_FATAL event) || (ev_kind event =? EVENT_DISCONNECTED)%N.

Section Polling.
Context `{Gl : GLib}.
Variables (files : file_metadata) (turns : nat).

Lemma accepted_goes_on {A} (m : plugin A) (b : bool) : b = false → returns (accepted m) (λ r, r.1 = negb b).
Proof. intros ->. apply returns_bind. intros _. by apply returns_ret. Qed.
Lemma projected_goes_on m (b : bool) : b = false → returns (projected m) (λ r, r.1 = negb b).
Proof. intros ->. apply returns_bind. intros ok. by apply returns_ret. Qed.

Lemma on_error_goes_on event : returns (on_error event) (λ keep, keep = negb (has_flag FLAG_FATAL event)).
Proof.
  unfold on_error. destruct (has_flag FLAG_FATAL event); [apply returns_bind; intros; by apply returns_ret|].
  destruct (has_flag FLAG_TRANSIENT event); [by apply returns_ret|]. apply returns_bind. intros [].
  - apply returns_bind. intros _. by apply returns_ret.
  - apply returns_bind. intros failed. apply returns_bind. intros _. by apply returns_ret.
Qed.

Lemma dispatch_goes_on event : returns (signal_dispatch_event files turns event) (λ r, r.1 = negb (stops event)).
Proof.
  unfold signal_dispatch_event. cbv zeta.
  repeat match goal with
    | |- returns (if ?b then _ else _) _ => let E := fresh "E" in destruct b eqn:E; [apply N.eqb_eq in E|]
    | |- returns (accepted _) _ => apply accepted_goes_on; unfold stops
    | |- returns (projected _) _ => apply projected_goes_on; unfold stops
    end; try (match goal with E : ev_kind event = _ |- _ => by rewrite E end).
  - apply returns_ret. unfold stops. by rewrite E16.
  - eapply returns_bind_with; [apply on_error_goes_on|]. intros keep ->. apply returns_ret. unfold stops. rewrite E22. simpl.
    by rewrite orb_false_r.
  - apply returns_bind. intros _. apply returns_ret. unfold stops. by rewrite E23.
  - apply returns_ret. unfold stops. by rewrite E22, E23.
Qed.

(** ** One event *)

(** The calls for an event that is handled. *)
Definition handled_calls (polled : Z * SignalEvent) : list LifeCall :=
  LifePoll (polled.1, Some polled.2) ::
  (if acknowledges polled.2 then [LifeAck (se_request_id polled.2)] else []) ++ [LifeEventFree polled.2].

Definition goes_on (polled : Z * SignalEvent) : Prop :=
  (0 < polled.1)%Z ∧ incompatible polled.2 = false ∧ stops (c_view polled.2) = false.

(** The calls after the handled events, and whether the source stays attached. *)
Inductive poll_end (notifier_failed : bool) : list LifeCall → bool → Prop :=
| end_empty event : poll_end notifier_failed [LifePoll (0%Z, event)] (negb notifier_failed)
| end_failed result event : (result < 0)%Z → poll_end notifier_failed [LifePoll (result, event)] false
| end_null result : (0 < result)%Z → poll_end notifier_failed [LifePoll (result, None)] false
| end_stopped result event :
    (0 < result)%Z → incompatible event = true ∨ stops (c_view event) = true →
    poll_end notifier_failed [LifePoll (result, Some event); LifeEventFree event] false.

Definition polled_calls (rounds : nat) (notifier_failed : bool) (calls : list LifeCall) (keep : bool) : Prop :=
  ∃ handled, Forall goes_on handled ∧
    ((length handled = rounds ∧ calls = concat (map handled_calls handled) ∧ keep = true) ∨
     (length handled < rounds ∧
      ∃ tail, poll_end notifier_failed tail keep ∧ calls = concat (map handled_calls handled) ++ tail)).

(** A right state later in the same life of the connection. *)
Definition continues (s s' : SignalConnection) : Prop :=
  conn_ok s' ∧ life s' = life s ∧ xfer_functions (conn_transfers s) ⊆ xfer_functions (conn_transfers s').

Lemma continues_refl s : conn_ok s → continues s s.
Proof. by intros. Qed.

Lemma continues_trans s s' s'' : continues s s' → continues s' s'' → continues s s''.
Proof. intros (_&Hl&Hf) (H&Hl'&Hf'). split_and!; [done|congruence|by etrans]. Qed.

Lemma safe_quiet {A} (m : plugin A) s :
  conn_ok s → safe m → pends False m s (λ s' _ t, continues s s' ∧ life_calls t = []).
Proof.
  intros Hs Hm. eapply pends_mono; [by apply Hm|]. intros s' a t (H&Ht&Hl&Hf). by split; [|apply handler_life_calls].
Qed.

Lemma fail_connection_quiet reason text s :
  conn_ok s →
  pends False (fail_connection reason text) s (λ s' keep t, continues s s' ∧ life_calls t = [] ∧ keep = false).
Proof.
  intros Hs. eapply pends_bind; [apply safe_quiet; [done|solve_safe]|]. intros s' u t [H Ht]. pstep.
  by rewrite app_nil_r.
Qed.

Lemma dispatch_quiet event s :
  conn_ok s →
  pends False (signal_dispatch_event files turns event) s
    (λ s' r t, (continues s s' ∧ life_calls t = []) ∧ r.1 = negb (stops event)).
Proof.
  intros Hs. apply pends_strengthen; [apply safe_quiet; [done|apply dispatch_safe]|apply dispatch_goes_on].
Qed.

(** One more round. *)
Lemma polled_calls_cons polled rounds notifier_failed calls keep :
  goes_on polled → polled_calls rounds notifier_failed calls keep →
  polled_calls (S rounds) notifier_failed (handled_calls polled ++ calls) keep.
Proof.
  intros Hp (handled&Hh&H). exists (polled :: handled). split; [by constructor|].
  destruct H as [(<-&->&->)|(Hlen&tail&Hend&->)]; [left|right; split; [simpl; lia|]; exists tail]; simpl.
  - done.
  - split; [done|]. by rewrite !app_assoc.
Qed.

Lemma polled_calls_end rounds notifier_failed tail keep :
  poll_end notifier_failed tail keep → polled_calls (S rounds) notifier_failed tail keep.
Proof. intros Hend. exists []. split; [constructor|]. right. split; [simpl; lia|]. by exists tail. Qed.

Lemma poll_loop_spec rounds notifier_failed s :
  conn_ok s →
  pends False (poll_loop files turns rounds notifier_failed) s
    (λ s' keep t, continues s s' ∧ polled_calls rounds notifier_failed (life_calls t) keep).
Proof.
  revert s. induction rounds as [|rounds IH]; intros s Hs; cbn [poll_loop].
  { pstep. split; [by apply continues_refl|]. exists []. split; [constructor|by left]. }
  pstep. destruct r as [result polled]. cbn [fst snd]. destruct (Z.ltb_spec result 0) as [Hneg|Hnn].
  { eapply pends_mono; [by apply fail_connection_quiet|]. intros s' keep t (H&Ht&->). split; [done|]. simpl. rewrite Ht.
    by apply polled_calls_end, end_failed. }
  destruct (Z.eqb_spec result 0) as [->|Hnz].
  { assert (Hend := end_empty notifier_failed polled). destruct notifier_failed.
    - eapply pends_mono; [by apply fail_connection_quiet|]. intros s' keep t (H&Ht&->). split; [done|]. simpl. rewrite Ht.
      by apply polled_calls_end.
    - pstep. split; [by apply continues_refl|]. by apply polled_calls_end. }
  destruct polled as [event|].
  2: { eapply pends_mono; [by apply fail_connection_quiet|]. intros s' keep t (H&Ht&->). split; [done|]. simpl. rewrite Ht.
       apply polled_calls_end, end_null. lia. }
  destruct (incompatible event) eqn:Ei.
  { pstep. eapply pends_mono; [by apply fail_connection_quiet|]. intros s' keep t (H&Ht&->). split; [done|]. simpl. rewrite Ht.
    apply polled_calls_end, end_stopped; [lia|by left]. }
  eapply pends_bind; [by apply dispatch_quiet|]. intros s1 [keep acc] t1 ((H1&Ht1)&Hkeep). simpl in Hkeep. subst keep.
  cbn [fst]. destruct (stops (c_view event)) eqn:Es; simpl.
  { pstep. pstep. split; [done|]. rewrite life_calls_app, Ht1. simpl.
    apply polled_calls_end, end_stopped; [lia|by right]. }
  assert (Hp : goes_on (result, event)) by (split_and!; [simpl; lia|done|done]).
  destruct (acknowledges event) eqn:Ea; simpl; repeat pstep; (eapply pends_mono; [apply IH, H1|]).
  all: intros s2 keep t2 [H2 Hcalls]; split; [by eapply continues_trans|]; simpl; rewrite life_calls_app, Ht1; simpl.
  all: pose proof (polled_calls_cons _ _ _ _ _ Hp Hcalls) as H; unfold handled_calls in H; simpl in H; by rewrite Ea in H.
Qed.

Lemma poll_backend_spec notifier_failed s :
  conn_ok s →
  pends False (signal_poll_backend files turns notifier_failed) s (λ s' keep t, continues s s' ∧
    if conn_closing s || negb (conn_core s) then t = [] ∧ s' = s ∧ keep = false
    else polled_calls 64 notifier_failed (life_calls t) keep).
Proof.
  intros Hs. unfold signal_poll_backend. pstep. destruct (_ || _).
  - pstep. by split; [apply continues_refl|].
  - by apply poll_loop_spec.
Qed.


(** What follows the poll of an event that does not end the connection. *)
Lemma polled_first rounds notifier_failed result event calls keep :
  polled_calls rounds notifier_failed (LifePoll (result, Some event) :: calls) keep →
  (0 < result)%Z → incompatible event = false → stops (c_view event) = false →
  ∃ calls', LifePoll (result, Some event) :: calls = handled_calls (result, event) ++ calls'.
Proof.
  intros (handled&_&H) Hr Hi Hs. destruct handled as [|[z e] handled]; simpl in H.
  - destruct H as [(_&?&_)|(_&tail&Hend&Heq)]; [done|]. destruct Hend; simplify_eq; [lia|lia|]. naive_solver congruence.
  - destruct H as [(_&Heq&_)|(_&tail&_&Heq)]; injection Heq as -> -> ->; eexists; simpl; by rewrite <-?app_assoc.
Qed.

(** The adapter does nothing for an event and reports that it was not
    accepted. *)
Definition rejects (event : Event) : Prop :=
  ∀ s, signal_dispatch_event files turns event s = Ret (s, (true, false)).


End Polling.

(** ** Runs *)

Definition demo_connection : SignalConnection := set_life true true false (signal_connection_new 1).

Lemma demo_connection_ok : conn_ok demo_connection.
Proof. exact (connection_new_ok 1). Qed.

(** A message, and one without a text. *)
Definition demo_message (text : option string) : Event :=
  mkEvent EVENT_MESSAGE 0 12 1000 0 (Some "friend") None None text [].

(** As C gets it. *)
Definition demo_struct (text : option string) : SignalEvent :=
  default (mkSignalEvent 0 0 0 0 0 0 0 None None None None None 0) (OwnedEvent_new (demo_message text)).

Definition demo_world (text : option string) := plain_world [(1%Z, Some (demo_struct text))] [].

Definition demo_poll (text : option string) :=
  run (demo_world text) (signal_poll_backend (λ _, None) 5 false demo_connection) [].


