(* ===== verification/PluginClose.v ===== *)
(** * PluginClose: the end of a connection

    Closing a connection cancels its transfers, detaches every attachment
    context from the transfer that holds it, drops the table of transfers, the
    requests and the timers, and shuts the core down and frees it, in this
    order and once. *)
From S2P Require Import Prelude Event Media InlineGif Ffi Effects Purple PurpleWorld Plugin ReadReceipts BuddyList PluginGroups.
From S2P Require Import AttachmentFile InlineImage Transfers Adapter UserActions PluginSafety TransferSafety AdapterSafety.
From S2P Require Import Polling.

Lemma cancel_active_safe : safe cancel_active_transfers.
Proof. safe_by cancel_active_transfers. Qed.

(** ** Contexts *)

Lemma clear_first_spec xfers a xfer s :
  transfers_ok (conn_transfers s) → xfer ∈ xfers → xfer_data (conn_transfers s) !! xfer = Some (DataOutgoing a) →
  pends False (clear_first xfers a) s
    (λ s' _ t, t = [] ∧ s' = on_transfers (λ x, set_data (delete xfer (xfer_data x)) x) s).
Proof.
  intros Hok Hin Hd. induction xfers as [|xfer' xfers IH]; [by apply elem_of_nil in Hin|]. simpl. unfold data_of, clear_data. pstep.
  apply elem_of_cons in Hin as [<-|Hin].
  - rewrite Hd, N.eqb_refl. by pstep.
  - destruct (xfer_data (transfers s) !! xfer') as [[a'|bytes]|] eqn:Ed; [|by apply IH..].
    destruct (N.eqb_spec a' a) as [->|]; [|by apply IH].
    rewrite (one_owner _ Hok _ _ _ Ed Hd) in *. by pstep.
Qed.

(** The transfers after the context [a] of [xfer] is gone, but still registered. *)
Definition detached (xfer a : N) (x : TransferState) : TransferState :=
  mkTransfers (xfer_functions x) (delete xfer (xfer_data x)) (delete a (contexts x)) (next_address x)
    (outgoing_attachments x) (outgoing_attachment_contexts x).

Lemma detach_spec a c s :
  transfers_ok (conn_transfers s) → contexts (conn_transfers s) !! a = Some c →
  pends False (signal_outgoing_attachment_detach a) s (λ s' _ t,
    handler_trace t ∧ ∃ xfer, xfer_data (conn_transfers s) !! xfer = Some (DataOutgoing a) ∧
      s' = on_transfers (detached xfer a) s).
Proof.
  intros Hok Hc. destruct (context_owned _ Hok _ _ Hc) as (_&_&xfer&Hd).
  unfold signal_outgoing_attachment_detach, all_xfers. repeat pstep. intros.
  eapply pends_bind; [apply (clear_first_spec _ a xfer); [done| |done]|].
  { rewrite reorder_perm. apply elem_of_app. left. apply elem_of_elements, elem_of_dom. eauto. }
  intros s1 ? t1 [-> ->]. unfold assign, signal_outgoing_attachment_destroy. pstep.
  eapply pends_deref_bind; [exact Hc|]. pstep. eapply (pends_deref_bind a); [apply lookup_insert_eq|]. pstep.
  split; [by repeat constructor|]. exists xfer. split; [done|]. unfold on_transfers, detached. simpl.
  by rewrite delete_insert_eq.
Qed.

Abbreviation registered s := (outgoing_attachment_contexts (conn_transfers s)).

Lemma unregister_detached xfer a s :
  on_transfers (λ x, set_registered (outgoing_attachment_contexts x ∖ {[a]}) x) (on_transfers (detached xfer a) s) =
  on_transfers (λ x, freed xfer a (outgoing_attachments x) x) s.
Proof. done. Qed.

Lemma freed_follows xfer a s :
  conn_ok s → xfer_data (conn_transfers s) !! xfer = Some (DataOutgoing a) →
  follows s [] (on_transfers (λ x, freed xfer a (outgoing_attachments x) x) s).
Proof.
  intros Hs Hd. apply (follows_modify (λ x, freed xfer a (outgoing_attachments x) x)); [done|by apply freed_ok; [apply Hs|]|done|done].
Qed.

Lemma detach_loop_spec todo s :
  conn_ok s → NoDup todo → registered s = list_to_set todo →
  pends False (iter_loop (λ s, registered s)
      (λ address, on_transfers (λ x, set_registered (outgoing_attachment_contexts x ∖ {[address]}) x))
      (λ address, _ ← signal_outgoing_attachment_detach address; mret Remove) (registered s) todo) s
    (λ s' _ t, follows s t s' ∧ registered s' = ∅).
Proof.
  intros Hs Hnd. revert s Hs. induction Hnd as [|a todo Ha Hnd IH]; intros s Hs Hreg; cbn [iter_loop].
  { apply pends_iter_check; [done|]. by split; [apply follows_refl|]. }
  destruct (registered_allocated _ (proj1 (proj2 (proj2 Hs))) a) as [c Hc]; [rewrite Hreg; set_solver|].
  eapply pends_bind; [by apply (pends_iter_check _ _ _ _ (λ s' _ t, s' = s ∧ t = []))|]. intros ? ? ? [-> ->].
  pstep. eapply pends_bind; [by apply (detach_spec a c); [apply Hs|]|]. intros s1 ? t1 (Ht1&xfer&Hd&->). pstep.
  eapply pends_bind; [by apply (pends_iter_check _ _ _ _ (λ s' _ t, s' = on_transfers (detached xfer a) s ∧ t = []))|].
  intros ? ? ? [-> ->]. pstep. rewrite unregister_detached. pose proof (freed_follows xfer a s Hs Hd) as Hf.
  eapply pends_mono; [apply (IH _ (proj1 Hf))|].
  - simpl. rewrite Hreg. simpl. set_solver.
  - intros s' ? t [H Hr]. split; [|done]. simpl. destruct (follows_trans _ _ _ _ _ Hf H) as (H1&H2&H3).
    split; [done|]. split; [|done]. by apply handler_trace_app.
Qed.

Lemma detach_contexts_spec s :
  conn_ok s → pends False detach_contexts s (λ s' _ t, follows s t s' ∧ registered s' = ∅).
Proof.
  intros Hs. unfold detach_contexts, iterate. pstep. pstep.
  eapply pends_mono; [apply detach_loop_spec; [done|rewrite reorder_perm; apply NoDup_elements|]|].
  - apply set_eq. intros a. rewrite elem_of_list_to_set. by rewrite reorder_perm, elem_of_elements.
  - intros s' ? t [(H1&Ht&H2) Hr]. split; [|done]. split; [done|]. split; [by constructor|done].
Qed.

(** ** The table of transfers *)

Lemma drop_each_spec ids s :
  pends False (each ids remove_outgoing) s
    (λ s' _ t, xfers_to (foldl (λ x id, without_outgoing id x) (conn_transfers s) ids) s t s').
Proof.
  revert s. induction ids as [|id ids IH]; intros s; simpl; [pstep; apply xfers_to_reads, trace_refl|].
  eapply pends_bind; [apply remove_outgoing_spec|]. intros s1 ? t1 H1. eapply pends_mono; [apply IH|].
  intros s2 ? t2 H2. rewrite (xfers_to_transfers _ _ _ _ H1) in H2. exact (xfers_to_trans _ _ _ _ _ _ _ H1 H2).
Qed.

Lemma without_all ids x :
  ∃ table, foldl (λ x id, without_outgoing id x) x ids = set_outgoing table x ∧
    ∀ id, is_Some (table !! id) → is_Some (outgoing_attachments x !! id) ∧ id ∉ ids.
Proof.
  revert x. induction ids as [|id ids IH]; intros x; simpl.
  - exists (outgoing_attachments x). split; [by destruct x|]. set_solver.
  - destruct (IH (without_outgoing id x)) as (table&->&Ht). exists table. split; [done|].
    intros id' [[v Hv] Hid]%Ht. simpl in Hv. apply lookup_delete_Some in Hv as [Hne Hv]. split; [eauto|]. set_solver.
Qed.

Lemma drop_outgoing_spec s :
  conn_ok s →
  pends False drop_outgoing s (λ s' _ t, follows s t s' ∧ registered s' = registered s ∧
    outgoing_attachments (conn_transfers s') = ∅).
Proof.
  intros Hs. unfold drop_outgoing. pstep. pstep. eapply pends_mono; [apply drop_each_spec|]. intros s' ? t H.
  destruct (without_all (reorder r (map_to_list (outgoing_attachments (transfers s))).*1) (conn_transfers s))
    as (table&Heq&Ht). rewrite Heq in H. rewrite (xfers_to_transfers _ _ _ _ H).
  split; [|split; [done|]].
  - destruct (xfers_to_ok _ _ _ _ Hs (set_outgoing_ok table _ (proj1 (proj2 (proj2 Hs)))) (N.le_refl _) (reflexivity _) H)
      as (H1&H2&H3). split; [done|]. split; [by constructor|done].
  - simpl. apply map_eq. intros id. rewrite lookup_empty. apply eq_None_not_Some. intros [[xfer Hx] Hn]%Ht.
    apply Hn. rewrite reorder_perm, list_elem_of_fmap. exists (id, xfer). split; [done|]. by apply elem_of_map_to_list.
Qed.

(** ** The connection *)

Definition source_calls (s : SignalConnection) : list LifeCall := if conn_poll_source s then [LifeSourceDestroy] else [].
Definition core_ends (s : SignalConnection) : list LifeCall := if conn_core s then [LifeShutdown; LifeFree] else [].

Lemma connection_free_spec s :
  pends False signal_connection_free s (λ s' _ t,
    s' = set_life false false (conn_closing s)
           (on_groups (set_fallback_timer 0) (on_reads (set_retry_id 0) s)) ∧
    life_calls t = source_calls s ++ core_ends s).
Proof.
  unfold signal_connection_free, source_calls, core_ends. pstep. cbv zeta.
  destruct s as [account core source [reads retry warned] groups sync seen pending x leaves qr aci name next closing].
  destruct groups as [ids keys titles members active joins gleaves gnext gsync complete fallback]. simpl.
  destruct source, (N.eqb_spec retry 0) as [->|], (N.eqb_spec fallback 0) as [->|], core; simpl; by repeat pstep.
Qed.

(** Nothing of the connection is left. *)
Definition released (s : SignalConnection) : Prop :=
  contexts (conn_transfers s) = ∅ ∧ registered s = ∅ ∧ outgoing_attachments (conn_transfers s) = ∅ ∧
  (∀ xfer a, xfer_data (conn_transfers s) !! xfer ≠ Some (DataOutgoing a)) ∧
  conn_leave_requests s = [] ∧ pending_read_retry_id (conn_reads s) = 0%N ∧
  group_sync_fallback_timer_id (conn_groups s) = 0%N.

Definition close_calls (s : SignalConnection) : list LifeCall :=
  [LifeProtocolData false; LifeSignalsDisconnect] ++ source_calls s ++ core_ends s.

Lemma no_contexts_left x :
  transfers_ok x → outgoing_attachment_contexts x = ∅ →
  contexts x = ∅ ∧ ∀ xfer a, xfer_data x !! xfer ≠ Some (DataOutgoing a).
Proof.
  intros Hok Hr. assert (Hc : contexts x = ∅).
  { apply map_empty. intros a. apply eq_None_not_Some. intros [c Hc]. destruct (context_owned _ Hok _ _ Hc) as (_&Hin&_). set_solver. }
  split; [done|]. intros xfer a Hd. destruct (outgoing_allocated _ Hok _ _ Hd) as [[c Hc'] _]. by rewrite Hc in Hc'.
Qed.

Lemma set_closing_ok s : conn_ok s → conn_ok (set_life (conn_core s) (conn_poll_source s) true s).
Proof. done. Qed.

(** Cancelling, detaching and dropping together. *)
Lemma close_transfers_spec s (k : plugin unit) Q :
  conn_ok s →
  (∀ s' t, follows s t s' → registered s' = ∅ → outgoing_attachments (conn_transfers s') = ∅ →
     pends False k s' (λ s'' b t', Q s'' b (t ++ t'))) →
  pends False (_ ← cancel_active_transfers; _ ← detach_contexts; _ ← drop_outgoing; k) s Q.
Proof.
  intros Hs Hk. eapply pends_bind; [by apply cancel_active_safe|]. intros s1 u1 t1 H1.
  eapply pends_bind; [apply detach_contexts_spec, H1|]. intros s2 u2 t2 [H2 Hr2].
  eapply pends_bind; [apply drop_outgoing_spec, H2|]. intros s3 u3 t3 (H3&Hr3&Ho3).
  eapply pends_mono; [apply Hk; [exact (follows_trans _ _ _ _ _ H1 (follows_trans _ _ _ _ _ H2 H3))|congruence|done]|].
  intros s4 u4 t4 H4. by rewrite !app_assoc, <-(app_assoc t1) in *.
Qed.

Lemma close_spec s :
  conn_ok s →
  pends False signal_close s (λ s' _ t,
    conn_ok s' ∧ released s' ∧ life s' = (conn_account s, false, false, true) ∧ life_calls t = close_calls s).
Proof.
  intros Hs. unfold signal_close. repeat pstep. apply close_transfers_spec; [by apply set_closing_ok|].
  intros s1 t1 (Hs1&Ht1&Hl1&Hf1) Hr Ho. eapply pends_bind; [apply connection_free_spec|].
  intros s2 u t2 (->&Ht2). pstep. destruct (no_contexts_left _ (proj1 (proj2 (proj2 Hs1))) Hr) as [Hc Hd].
  destruct Hs1 as (R1&R2&R3&R4&_). unfold life in Hl1. simpl in Hl1. injection Hl1 as Ha Hcore Hpoll Hclosing.
  split_and!.
  - unfold conn_ok, requests_ok. simpl. split_and!; [done..|constructor|constructor|constructor].
  - unfold released. simpl. by split_and!.
  - unfold life. simpl. by rewrite Ha, Hclosing.
  - rewrite app_nil_r. simpl. rewrite !life_calls_app. simpl. rewrite (handler_life_calls t1), Ht2 by done. simpl.
    unfold close_calls, source_calls, core_ends. by rewrite Hpoll, Hcore.
Qed.


(** ** Runs *)

(** A connection with a file on its way. *)
Definition sending_connection : SignalConnection := on_transfers (with_outgoing "friend" false) demo_connection.

Lemma sending_connection_ok : conn_ok sending_connection.
Proof.
  apply (follows_modify (with_outgoing "friend" false) demo_connection); [apply demo_connection_ok| |simpl; lia|].
  - apply with_outgoing_ok. exact (proj1 (proj2 (proj2 demo_connection_ok))).
  - apply insert_subseteq, lookup_empty.
Qed.

