(* ===== verification/PluginLogin.v ===== *)
(** * PluginLogin: the start of a connection

    Logging in opens the store with a key that libsecret holds, starts the core
    once, and either leaves a connection that is right or frees the core. *)
From S2P Require Import Prelude Event Media InlineGif Ffi Effects Purple PurpleWorld Plugin ReadReceipts BuddyList PluginGroups.
From S2P Require Import AttachmentFile InlineImage Transfers Adapter UserActions PluginSafety TransferSafety AdapterSafety.
From S2P Require Import Polling PluginClose.

(** The key that a call shows libsecret to hold. *)
Definition stored_key (e : call_entry) : option string :=
  match sys_result e with
  | Some (existT A (s, r)) =>
      match s in sys_op A return A → option string with
      | SecretLookup _ _ => λ r, match r with Ok (Some key) => Some key | _ => None end
      | SecretStore _ key _ _ => λ r, match r with Ok _ => Some key | Err _ => None end
      | _ => λ _, None
      end r
  | None => None
  end.

Definition stored_keys (t : list call_entry) : list string := omap stored_key t.

Section Login.
Context `{Gl : GLib}.
Variable turns : nat.

Lemma store_id_reads account : respects False reads_step (signal_store_id account).
Proof. unfold signal_store_id. solve_respects. Qed.
#[local] Hint Resolve store_id_reads : plugin.
Lemma store_path_reads account : respects False reads_step (signal_store_path account).
Proof. unfold signal_store_path. solve_respects. Qed.
Lemma fill_random_reads n bytes : respects False reads_step (fill_random n bytes).
Proof. revert bytes. induction n as [|n IH]; intros bytes; simpl; solve_respects; apply IH. Qed.
#[local] Hint Resolve store_path_reads fill_random_reads : plugin.
Lemma generate_reads : respects False reads_step (signal_generate_passphrase turns).
Proof. unfold signal_generate_passphrase. solve_respects. Qed.
#[local] Hint Resolve generate_reads : plugin.
Lemma get_or_create_reads account path : respects False reads_step (signal_secret_get_or_create turns account path).
Proof. unfold signal_secret_get_or_create. solve_respects. Qed.

(** A key that is returned is stored. *)
Lemma get_or_create_stored account path s :
  pends True (signal_secret_get_or_create turns account path) s (λ _ r t,
    match r with Some (Ok key) => key ∈ stored_keys t | _ => True end).
Proof.
  unfold signal_secret_get_or_create. pstep. eapply pends_bind; [apply pends_any|]. intros s1 store_id t1 _. cbv zeta.
  pstep. destruct r0 as [[password|]|e].
  - pstep. unfold stored_keys. simpl. rewrite omap_app. apply elem_of_app. right. simpl. set_solver.
  - eapply pends_bind; [apply pends_any|]. intros s2 generated t2 _. destruct generated as [[key|e]|]; [|by pstep..].
    pstep. pstep. destruct r0 as [[]|e]; [|done]. unfold stored_keys. simpl. rewrite !omap_app. simpl. rewrite omap_app. set_solver.
  - by pstep.
Qed.

(** ** The core *)

Definition login_config (store_path device_name key : string) : SignalCoreConfig :=
  mkCoreConfig 0 ABI_VERSION (repr_c_size SignalCoreConfig_fields) (c_arg store_path) (c_arg device_name) (c_arg key).

(** The core runs and is attached to the connection. *)
Definition started (account : Account) (config : SignalCoreConfig) (s : SignalConnection) (calls : list LifeCall) : Prop :=
  ∃ fd attached, (0 <= fd)%Z ∧ conn_ok s ∧ life s = (account, true, attached, false) ∧
    calls = [LifeNew config StatusOk; LifeEventFd fd; LifeProtocolData true; LifeSignalConnect; LifeSourceAttach fd attached].

(** There is no core, or none any more. *)
Definition refused (account : Account) (config : SignalCoreConfig) (s : SignalConnection) (calls : list LifeCall) : Prop :=
  life s = (account, false, false, false) ∧
  ((∃ status, status ≠ StatusOk ∧ calls = [LifeNew config status]) ∨
   (∃ fd, (fd < 0)%Z ∧ calls = [LifeNew config StatusOk; LifeEventFd fd; LifeFree])).

Lemma give_up_spec account core :
  core = false →
  pends False (_ ← signal_connection_free; login_error ReasonOther "Could not start the Signal backend")
    (set_life core false false (signal_connection_new account))
    (λ s' _ t, life s' = (account, false, false, false) ∧ life_calls t = []).
Proof.
  intros ->. eapply pends_bind; [apply connection_free_spec|]. intros s' u t (->&Ht). unfold login_error. pstep.
  apply pends_call_bind. intros r. pstep. split; [done|]. rewrite life_calls_app, Ht. done.
Qed.

Lemma start_core_spec account store_path device_name key :
  let config := login_config store_path device_name key in
  pends False (start_core store_path device_name key) (signal_connection_new account)
    (λ s' _ t, started account config s' (life_calls t) ∨ refused account config s' (life_calls t)).
Proof.
  cbv zeta. unfold start_core. cbv zeta. pstep.
  assert (Hno : r ≠ StatusOk →
    pends False (_ ← signal_connection_free; login_error ReasonOther "Could not start the Signal backend")
      (signal_connection_new account) (λ s' _ t,
        started account (login_config store_path device_name key) s' (LifeNew (login_config store_path device_name key) r :: life_calls t) ∨
        refused account (login_config store_path device_name key) s' (LifeNew (login_config store_path device_name key) r :: life_calls t))).
  { intros Hr. eapply pends_mono; [by apply (give_up_spec account false)|]. intros s' u t [Hl ->]. right. split; [done|].
    left. eauto. }
  destruct r; [clear Hno|pstep; by apply Hno..].
  pstep. pstep. pstep. pstep. destruct (Z.ltb_spec r 0) as [Hneg|Hfd].
  { repeat pstep. eapply pends_mono; [by apply (give_up_spec account false)|]. intros s' u t [Hl Ht]. right. split; [done|].
    right. exists r. split; [done|]. simpl. by rewrite Ht. }
  pstep. pstep. pstep. set (s0 := set_life true false false (signal_connection_new account)).
  assert (Hs0 : conn_ok s0) by apply connection_new_ok.
  eapply pends_bind; [apply safe_quiet; [done|solve_safe]|]. intros s1 u1 t1 [H1 Ht1].
  eapply pends_bind; [apply safe_quiet; [apply H1|solve_safe]|]. intros s2 u2 t2 [H2 Ht2].
  pose proof (continues_trans _ _ _ H1 H2) as (Hs2&Hl2&_). pstep.
  assert (Hcalls : ∀ t3, life_calls t3 = [] → life_calls (t1 ++ t2 ++ answered (Sig := purple_sig) (Sys (PollSourceAttach r)) r2 :: t3) =
    [LifeSourceAttach r r2]).
  { intros t3 Ht3. rewrite !life_calls_app, Ht1, Ht2. simpl. by rewrite Ht3. }
  pose proof Hl2 as Hl. unfold life in Hl. simpl in Hl. injection Hl as Ha Hcore _ Hclosing. destruct r2.
  - pstep. pstep. left. exists r, true. split_and!; [done|done|unfold life; simpl; by rewrite Ha, Hcore, Hclosing|].
    simpl. by rewrite Hcalls.
  - eapply pends_mono; [apply safe_quiet; [done|solve_safe]|]. intros s3 u3 t3 [(Hs3&Hl3&_) Ht3]. left. exists r, false.
    split_and!; [done|done|by rewrite Hl3, Hl2|simpl; by rewrite Hcalls].
Qed.

Lemma store_path_bounded account :
  returns (signal_store_path account) (λ r, match r with Ok path => (str_len path <= MAX_STORE_PATH_BYTES)%N | Err _ => True end).
Proof.
  assert (Hlen : ∀ (text path : string), returns (mret (if path_too_long path then Err text else Ok path))
    (λ r : result string string, match r with Ok path => (str_len path <= MAX_STORE_PATH_BYTES)%N | Err _ => True end)).
  { intros text path. apply returns_ret. unfold path_too_long. by destruct (N.ltb_spec MAX_STORE_PATH_BYTES (str_len path)). }
  unfold signal_store_path. apply returns_bind. intros configured. destruct (filled configured).
  - apply returns_bind. intros path. apply Hlen.
  - do 4 (apply returns_bind; intros). destruct a2; [|by apply returns_ret]. apply returns_bind. intros secured.
    destruct secured; [apply Hlen|by apply returns_ret].
Qed.

Lemma login_error_spec reason text s :
  pends False (login_error reason text) s (λ s' _ t, s' = s ∧ life_calls t = [] ∧ stored_keys t = []).
Proof. unfold login_error. pstep. apply pends_call_bind. intros r. by pstep. Qed.

(** Either no core was made, or as [started] and [refused] say. *)
Definition login_outcome (account : Account) (s : SignalConnection) (t : list call_entry) : Prop :=
  ∃ version calls, life_calls t = LifeAbiVersion version :: calls ∧
    (calls = [] ∨
     version = ABI_VERSION ∧
     ∃ store_path device_name key, key ∈ stored_keys t ∧ (str_len store_path <= MAX_STORE_PATH_BYTES)%N ∧
       (started account (login_config store_path device_name key) s calls ∨
        refused account (login_config store_path device_name key) s calls)).

Lemma login_spec account s : pends False (signal_login turns account) s (λ s' _ t, login_outcome account s' t).
Proof.
  unfold signal_login. pstep. destruct (N.eqb_spec r ABI_VERSION) as [->|Hv]; simpl.
  2: { eapply pends_mono; [apply login_error_spec|]. intros s' u t (_&Ht&_). exists r, []. simpl. rewrite Ht. eauto. }
  eapply pends_bind; [apply pends_strengthen; [apply store_path_reads|apply store_path_bounded]|].
  intros s1 path t1 [(Ht1%inner_handler%handler_life_calls&_) Hpath]. destruct path as [store_path|e].
  2: { eapply pends_mono; [apply login_error_spec|]. intros s' u t (_&Ht&_). eexists _, []. simpl.
       rewrite life_calls_app, Ht1, Ht. eauto. }
  eapply pends_bind; [apply pends_strengthen; [apply get_or_create_reads|apply get_or_create_stored]|].
  intros s2 secret t2 [(Ht2%inner_handler%handler_life_calls&_) Hkey]. destruct secret as [[key|e]|].
  2: { eapply pends_mono; [apply login_error_spec|]. intros s' u t (_&Ht&_). eexists _, []. simpl.
       rewrite !life_calls_app, Ht1, Ht2, Ht. eauto. }
  2: { pstep. eexists _, []. simpl. rewrite !life_calls_app, Ht1, Ht2. eauto. }
  pstep. pstep. eapply pends_mono; [apply start_core_spec|]. intros s' u t H. cbv zeta in H.
  eexists _, (life_calls t). simpl. rewrite !life_calls_app, Ht1, Ht2. split; [done|]. right. split; [done|].
  exists store_path, (default "signal-purple" r), key. split_and!; [|done|exact H].
  unfold stored_keys in *. simpl. rewrite !omap_app. set_solver.
Qed.


End Login.

(** ** Runs *)

Definition demo_login := run (plain_world [] []) (signal_login 5 1 (signal_connection_new 0)) [].

