(* ===== verification/PluginSystem.v ===== *)
(** * PluginSystem: whole sessions of the plugin

    A session is a login followed by any calls in any order: wake-ups of the
    event source, timers, everything the user does, functions libpurple calls
    on transfers, and the signal for updated conversations. *)
From S2P Require Import Prelude Event Media InlineGif Ffi Effects Purple PurpleWorld Plugin ReadReceipts BuddyList PluginGroups.
From S2P Require Import AttachmentFile InlineImage Transfers Adapter UserActions PluginSafety TransferSafety AdapterSafety.
From S2P Require Import Polling PluginClose PluginLogin.

(** ** Timers *)

Lemma retry_safe : safe signal_retry_pending_reads.
Proof.
  unfold signal_retry_pending_reads. apply safe_seq; [|intros _; solve_safe].
  apply safe_respects, lift_reads. by apply reads_step_modify.
Qed.

(** Joins that wait for the snapshot, when the timer ends the wait. *)
Definition timeout_joins (s : SignalConnection) : gset string :=
  if group_snapshot_complete (conn_groups s) then ∅ else pending_group_joins (conn_groups s).

Lemma follows_groups f s :
  conn_ok s → (groups_ok (conn_groups s) → groups_ok (f (conn_groups s))) → follows s [] (on_groups f s).
Proof.
  intros (H1&H2&H3&H4&H5) Hf. split_and!; [|constructor|done|done]. unfold conn_ok. simpl. by split_and!; auto.
Qed.

Lemma timeout_safe s :
  conn_ok s → timeout_joins s = ∅ → pends False signal_group_sync_timeout s (λ s' _ t, follows s t s').
Proof.
  intros Hs Hj. unfold signal_group_sync_timeout, timeout_joins in *. pstep. pstep. simpl.
  destruct (group_snapshot_complete (conn_groups s)); simpl.
  { pstep. by apply (follows_groups (set_fallback_timer 0)). }
  pstep. unfold iterate. pstep. pstep. pstep. pstep. simpl. rewrite Hj, elements_empty. simpl.
  eapply pends_bind; [by apply (pends_iter_check _ _ _ _ (λ s' _ t, t = [] ∧
    s' = on_groups (set_snapshot_complete true) (on_groups (set_fallback_timer 0) s)))|].
  intros s' u t [-> ->]. pstep.
  destruct (follows_groups (λ g, set_joins ∅ (set_snapshot_complete true (set_fallback_timer 0 g))) s Hs) as (H1&_&H2); [done|].
  split; [exact H1|]. split; [by repeat constructor|exact H2].
Qed.

Lemma open_group_joins key title s :
  pends False (signal_open_group key title) s
    (λ s' _ _, pending_group_joins (conn_groups s') = pending_group_joins (conn_groups s) ∖ {[key]}).
Proof.
  unfold signal_open_group.
  eapply pends_bind with (P := λ s' _ _, pending_group_joins (conn_groups s') = pending_group_joins (conn_groups s)).
  { unfold signal_group_id. pstep. destruct (group_ids_by_key (groups s) !! key), (filled title); simpl; by repeat pstep. }
  intros s1 id t1 H1. pstep. rewrite <-H1.
  assert (Hr : ∀ id, respects False reads_step (
    s ← get;
    conversation ← signal_group_sync_lookup_conversation (conn_account s) (Some key);
    closed ← match conversation with Some conv => ask (HasLeft conv) | None => mret true end;
    conversation ← (if closed : bool then act (ServGotJoinedChat (guint_as_int id) key) else mret conversation);
    title ← signal_group_display_title key;
    _ ← when_some conversation (λ conv, act (SetTitle conv title));
    _ ← signal_refresh_group_members key;
    mret conversation)) by (intros; solve_respects).
  eapply pends_mono; [apply Hr|]. intros s' conv t (_&r&n&->&_). done.
Qed.

Lemma timeout_undefined s :
  timeout_joins s ≠ ∅ → pends True signal_group_sync_timeout s (λ _ _ _, False).
Proof.
  intros Hj. unfold signal_group_sync_timeout, timeout_joins in *. pstep. pstep. simpl.
  destruct (group_snapshot_complete (conn_groups s)); [done|]. simpl.
  pstep. unfold iterate. pstep. pstep. pstep. pstep. simpl.
  destruct (reorder r (elements (pending_group_joins (groups s)))) as [|key todo] eqn:E.
  { exfalso. apply Hj, leibniz_equiv, elements_empty_inv. pose proof (reorder_perm r (elements (pending_group_joins (groups s)))) as Hp.
    rewrite E in Hp. by apply Permutation_nil in Hp. }
  assert (Hin : key ∈ pending_group_joins (groups s)).
  { apply elem_of_elements. rewrite <-(reorder_perm r), E. left. }
  eapply pends_bind with (P := λ _ _ _, False); [|done]. cbn [iter_loop].
  eapply pends_bind; [by apply pends_iter_check with (Q := λ s' _ _, conn_groups s' = set_snapshot_complete true (set_fallback_timer 0 (conn_groups s)))|].
  intros s1 u1 t1 Hs1. pstep. eapply pends_bind; [apply pends_weaken, open_group_joins|]. intros s2 conv t2 H2. pstep.
  assert (Hne : pending_group_joins (groups s2) ≠ pending_group_joins (groups s)).
  { rewrite H2, Hs1. simpl. set_solver. }
  assert (Hcheck : ∀ Q, pends True (iter_check (λ s, pending_group_joins (groups s)) (pending_group_joins (groups s))) s2 Q).
  { intros Q. unfold iter_check. pstep. rewrite decide_False by done. by apply pends_undefined. }
  destruct todo; cbn [iter_loop]; [apply Hcheck|]. eapply pends_bind; [apply (Hcheck (λ _ _ _, False))|done].
Qed.

(** ** Calls *)

Inductive PluginCall :=
| OnPoll (notifier_failed : bool)
| OnReadRetry
| OnGroupSyncTimeout
| OnConversationUpdated (conv : Conversation)
| OnSendIm (who message : option string)
| OnSendTyping (who : option string) (typing : bool)
| OnSendFile (who filename : option string)
| OnNewXfer (who : option string)
| OnChatSend (id : Z) (message : option string) (flags : MessageFlags)
| OnChatSendFile (id : Z) (filename : option string)
| OnJoinChat (components : option (gmap string string))
| OnChatLeave (id : Z)
| OnChatBuddyAlias (who : option string)
| OnGetInfo (who : string)
| OnFindBlistChat (name : string)
| OnNodeMenu (node : BlistNode)
| OnAcceptIdentity (node : BlistNode)
| OnResetSession (node : BlistNode)
| OnRequestLeave (node : BlistNode)
| OnConfirmLeave (request : N)
| OnCancelLeave (request : N)
| OnLinkCancel
| OnXferFunction (xfer : Xfer) (event : XferEvent).

Definition ignore {A} (m : plugin A) : plugin unit := _ ← m; mret tt.

(** A dialog for leaving a group answers while its request exists; a timer
    fires while it is set. *)
Definition offered (c : PluginCall) (s : SignalConnection) : Prop :=
  match c with
  | OnConfirmLeave request | OnCancelLeave request => request ∈ leave_id <$> conn_leave_requests s
  | OnReadRetry => pending_read_retry_id (conn_reads s) ≠ 0%N
  | OnGroupSyncTimeout => group_sync_fallback_timer_id (conn_groups s) ≠ 0%N
  | _ => True
  end.

Section System.
Context `{Gl : GLib}.
Variables (files : file_metadata) (turns : nat).

Definition run_call (c : PluginCall) : plugin unit :=
  match c with
  | OnPoll notifier_failed => ignore (signal_poll_backend files turns notifier_failed)
  | OnReadRetry => signal_retry_pending_reads
  | OnGroupSyncTimeout => signal_group_sync_timeout
  | OnConversationUpdated conv => signal_conversation_updated conv
  | OnSendIm who message => ignore (signal_send_im who message)
  | OnSendTyping who typing => signal_send_typing who typing
  | OnSendFile who filename => signal_send_file files turns who filename
  | OnNewXfer who => ignore (signal_new_xfer who)
  | OnChatSend id message flags => ignore (signal_chat_send id message flags)
  | OnChatSendFile id filename => signal_chat_send_file files turns id filename
  | OnJoinChat components => signal_join_chat components
  | OnChatLeave id => signal_chat_leave id
  | OnChatBuddyAlias who => ignore (signal_chat_buddy_alias who)
  | OnGetInfo who => signal_get_info who
  | OnFindBlistChat name => s ← get; ignore (signal_group_sync_lookup_chat (conn_account s) name)
  | OnNodeMenu node => ignore (signal_blist_node_menu node)
  | OnAcceptIdentity node => signal_accept_changed_identity node
  | OnResetSession node => signal_reset_session node
  | OnRequestLeave node => signal_request_group_leave node
  | OnConfirmLeave request => signal_confirm_group_leave request
  | OnCancelLeave request => signal_cancel_group_leave request
  | OnLinkCancel => signal_link_cancel
  | OnXferFunction xfer event => request_function files turns xfer event
  end.

(** ** Sessions *)

Inductive session (account : Account) : SignalConnection → list call_entry → Prop :=
| session_login s0 t s :
    exec (signal_login turns account s0) t (Done (s, tt)) → conn_core s = true →
    (∃ config, LifeNew config StatusOk ∈ life_calls t) → session account s t
| session_call s t c t' s' :
    session account s t → offered c s → exec (run_call c s) t' (Done (s', tt)) → session account s' (t ++ t').

(** What the calls to the core say about events: polled, freed, acknowledged. *)
Definition polled_event (c : LifeCall) : option SignalEvent :=
  match c with LifePoll (result, Some event) => if (0 <? result)%Z then Some event else None | _ => None end.
Definition freed_event (c : LifeCall) : option SignalEvent :=
  match c with LifeEventFree event => Some event | _ => None end.
Definition acked_id (c : LifeCall) : option N := match c with LifeAck id => Some id | _ => None end.

(** Every polled event is freed once, and the acknowledged ids are those of
    the compatible projections. *)
Definition settled_events (calls : list LifeCall) : Prop :=
  omap freed_event calls = omap polled_event calls ∧
  omap acked_id calls =
    se_request_id <$> filter (λ e, acknowledges e && negb (incompatible e) = true) (omap polled_event calls).

Lemma settled_events_app calls calls' :
  settled_events calls → settled_events calls' → settled_events (calls ++ calls').
Proof. intros [H1 H2] [H3 H4]. split; rewrite !omap_app, ?filter_app, ?fmap_app; congruence. Qed.

Lemma acknowledges_goes_on event : acknowledges event = true → stops (c_view event) = false.
Proof.
  unfold acknowledges, stops. change (ev_kind (c_view event)) with (se_kind event). intros [_ H]%andb_true_iff.
  apply orb_true_iff in H as [[H|H]%orb_true_iff|H]; apply N.eqb_eq in H; by rewrite H.
Qed.

Lemma handled_settled polled : goes_on polled → settled_events (handled_calls polled).
Proof.
  destruct polled as [result event]. intros (Hr&Hi&Hs). simpl in *. apply Z.ltb_lt in Hr.
  unfold settled_events, handled_calls. simpl. rewrite Hr.
  destruct (acknowledges event) eqn:Ea; simpl; rewrite filter_cons, filter_nil, Ea, Hi; simpl; done.
Qed.

Lemma poll_end_settled notifier_failed tail keep : poll_end notifier_failed tail keep → settled_events tail.
Proof.
  intros Hend. destruct Hend as [[]| result [] Hr|result Hr|result event Hr Hstop]; unfold settled_events; simpl.
  - done.
  - done.
  - by rewrite (proj2 (Z.ltb_ge 0 result)) by lia.
  - done.
  - done.
  - rewrite (proj2 (Z.ltb_lt 0 result)) by lia. simpl. split; [done|]. rewrite filter_cons, filter_nil.
    destruct (acknowledges event) eqn:Ea, (incompatible event); simpl; try done.
    destruct Hstop as [|Hstop]; [done|]. by rewrite acknowledges_goes_on in Hstop.
Qed.

Lemma polled_settled rounds notifier_failed calls keep : polled_calls rounds notifier_failed calls keep → settled_events calls.
Proof.
  intros (handled&Hh&H). assert (Hs : settled_events (concat (map handled_calls handled))).
  { clear H. induction Hh as [|p handled Hp Hh IH]; [done|]. cbn [map concat].
    apply settled_events_app; [by apply handled_settled|done]. }
  destruct H as [(_&->&_)|(_&tail&Hend&->)]; [done|]. apply settled_events_app; [done|]. by eapply poll_end_settled.
Qed.

(** *** Every call *)

Lemma ignore_safe {A} (m : plugin A) : safe m → safe (ignore m).
Proof. intros. safe_by ignore. Qed.

(** What a call leaves behind. *)
Definition call_done (s s' : SignalConnection) (t : list call_entry) : Prop :=
  continues s s' ∧ settled_events (life_calls t).

Lemma follows_done s t s' : follows s t s' → call_done s s' t.
Proof. intros (H&Ht&Hl&Hf). split; [done|]. by rewrite (handler_life_calls t). Qed.

Lemma poll_call_spec notifier_failed s :
  conn_ok s → pends False (ignore (signal_poll_backend files turns notifier_failed)) s (λ s' _ t, call_done s s' t).
Proof.
  intros Hs. eapply pends_bind; [by apply poll_backend_spec|]. intros s' keep t [H Hc]. pstep. rewrite app_nil_r. split; [done|].
  destruct (_ || _); [by destruct Hc as (->&_)|by eapply polled_settled].
Qed.

Lemma run_call_safe c s :
  conn_ok s → offered c s → c ≠ OnGroupSyncTimeout ∨ timeout_joins s = ∅ →
  pends False (run_call c) s (λ s' _ t, call_done s s' t).
Proof.
  intros Hs Ho Hc. destruct c as [failed| | | | | | | | | | | | | | | | | | |request|request| |].
  1: by apply poll_call_spec.
  all: eapply pends_mono; [|intros s' u t H; exact (follows_done _ _ _ H)]; cbn [run_call].
  2: { apply timeout_safe; [done|]. by destruct Hc. }
  all: first [by apply confirm_leave_safe|by apply cancel_leave_safe|by apply retry_safe
             |apply pends_safe; [done|repeat first [safe_step|apply ignore_safe]]].
Qed.

(** *** Every session *)

Lemma session_invariant account s t :
  session account s t →
  conn_ok s ∧ (∃ source, life s = (account, true, source, false)) ∧ settled_events (life_calls t).
Proof.
  induction 1 as [s0 t s Hex Hcore [config Hnew]|s t c t' s' Hses (Hs&[source Hl]&Hev) Ho Hex].
  - apply (pends_sound _ _ _ _ _ _ (login_spec turns account s0)) in Hex as (version&calls&Ht&Hcalls).
    rewrite Ht in Hnew |- *. destruct Hcalls as [->|(->&path&name&key&_&_&Hcalls)].
    { apply elem_of_cons in Hnew as [[=]|Hnew]. by apply elem_of_nil in Hnew. }
    destruct Hcalls as [(fd&attached&Hfd&Hok&Hl&->)|(Hl&_)].
    + split; [done|]. split; [by exists attached|done].
    + unfold life in Hl. congruence.
  - assert (Hgo : c ≠ OnGroupSyncTimeout ∨ timeout_joins s = ∅).
    { destruct (decide (timeout_joins s = ∅)) as [|Hj]; [by right|left]. intros ->.
      exact (pends_sound _ _ _ _ _ _ (timeout_undefined s Hj) Hex). }
    apply (pends_sound _ _ _ _ _ _ (run_call_safe c s Hs Ho Hgo)) in Hex as [(Hs'&Hl'&_) Hev'].
    split; [done|]. split; [exists source; congruence|]. rewrite life_calls_app. by apply settled_events_app.
Qed.

(** C7. No session of the plugin runs into undefined behaviour: after a login
    and any calls whatever, with any events of the core and any answers of
    libpurple, the connection is right and belongs to its account, every
    further call comes to its end, and so does closing, which releases
    everything.  The only exception is the timer that gives up waiting for the
    group snapshot, while a join is pending. *)
Theorem plugin_sessions_defined account s t :
  session account s t →
  conn_ok s ∧ (∃ source, life s = (account, true, source, false)) ∧
  (∀ c t' out, offered c s → exec (run_call c s) t' out →
     (∃ s', out = Done (s', tt) ∧ continues s s') ∨ c = OnGroupSyncTimeout ∧ timeout_joins s ≠ ∅) ∧
  (∀ t' out, exec (signal_close s) t' out →
     ∃ s', out = Done (s', tt) ∧ released s' ∧ life_calls t' = close_calls s).
Proof.
  intros Hses. destruct (session_invariant _ _ _ Hses) as (Hs&Hl&_). split_and!; [done|done| |].
  - intros c t' out Ho Hex. destruct (decide (timeout_joins s = ∅)) as [Hj|Hj].
    + left. apply (pends_sound _ _ _ _ _ _ (run_call_safe c s Hs Ho (or_intror Hj))) in Hex.
      destruct out as [[s' []]|o|m]; [|done..]. destruct Hex. eauto.
    + destruct c; try (left; refine (_ (pends_sound _ _ _ _ _ _ (run_call_safe _ s Hs Ho (or_introl _)) Hex)); [|done];
        destruct out as [[s' []]|o|m]; [|done..]; intros []; by eauto). by right.
  - intros t' out Hex. apply (pends_sound _ _ _ _ _ _ (close_spec s Hs)) in Hex. destruct out as [[s' []]|o|m]; [|done..].
    destruct Hex as (_&Hr&_&Hc). eauto.
Qed.

(** In every session the events of the core are settled: each event that
    was polled has been freed exactly once, in order, and the delivery ids
    acknowledged are exactly those of the polled projections the plugin could
    read, in order and once for each. *)
Theorem session_events_settled account s t : session account s t → settled_events (life_calls t).
Proof. intros Hses. by destruct (session_invariant _ _ _ Hses) as (_&_&H). Qed.

(** C40. The timer that gives up waiting for the group snapshot is undefined
    whenever a join is pending: the walk over the pending joins goes on after
    opening the group has removed the join from the table it walks. *)
Theorem group_sync_timeout_undefined s t out :
  timeout_joins s ≠ ∅ → exec (signal_group_sync_timeout s) t out → ∃ why, out = Panicked why.
Proof.
  intros Hj Hex. apply (pends_sound _ _ _ _ _ _ (timeout_undefined s Hj)) in Hex. destruct out as [[s' u]|o|why]; [done..|eauto].
Qed.

End System.

(** ** Runs *)

(** The state at the end of a run. *)
Definition end_of {A} (r : list call_entry * outcome (SignalConnection * A)) : SignalConnection :=
  match r.2 with Done (s, _) => s | _ => signal_connection_new 0 end.

Definition logged_in : SignalConnection := end_of demo_login.

Lemma demo_session : session (λ _, None) 5 1 logged_in demo_login.1.
Proof.
  apply (session_login _ _ _ (signal_connection_new 0)); [|vm_compute; reflexivity|].
  - assert (Hout : demo_login.2 = Done (logged_in, tt)) by (vm_compute; reflexivity). rewrite <-Hout. apply run_exec.
  - exists (login_config "home/signal-purple/.db3" "signal-purple" "key"). vm_compute. right. left.
Qed.

Lemma plugin_sessions_defined_witness : conn_ok logged_in ∧ ∃ source, life logged_in = (1%N, true, source, false).
Proof. destruct (plugin_sessions_defined (λ _, None) 5 1 logged_in demo_login.1 demo_session) as (H1&H2&_). split; [exact H1|exact H2]. Defined.

(** A message arrives. *)
Definition demo_polled := run (demo_world (Some "hello")) (run_call (λ _, None) 5 (OnPoll false) logged_in) [].

Lemma demo_polled_session : session (λ _, None) 5 1 (end_of demo_polled) (demo_login.1 ++ demo_polled.1).
Proof.
  eapply (session_call _ _ _ _ _ (OnPoll false)); [exact demo_session|done|].
  assert (Hout : demo_polled.2 = Done (end_of demo_polled, tt)) by (vm_compute; reflexivity). rewrite <-Hout. apply run_exec.
Qed.

Lemma session_events_settled_witness :
  omap acked_id (life_calls (demo_login.1 ++ demo_polled.1)) = [12%N] ∧
  settled_events (life_calls (demo_login.1 ++ demo_polled.1)).
Proof.
  split; [vm_compute; reflexivity|].
  exact (session_events_settled (λ _, None) 5 1 _ _ demo_polled_session).
Defined.

(** A group that the user wants to join before the snapshot is there. *)
Definition joining : SignalConnection := on_groups (set_joins {["group"]}) demo_connection.

Lemma group_sync_timeout_undefined_witness :
  ∃ why, (run (plain_world [] []) (signal_group_sync_timeout joining) []).2 = Panicked why.
Proof.
  apply (group_sync_timeout_undefined joining (run (plain_world [] []) (signal_group_sync_timeout joining) []).1).
  - vm_compute. discriminate.
  - apply run_exec.
Defined.
