(* ===== verification/PluginGuards.v ===== *)
(** * PluginGuards: who may be sent to

    Sending to a group, sending it a file and leaving it reach the core only
    while the group is active in a complete snapshot and is not being left. *)
From S2P Require Import Prelude Event Media InlineGif Ffi Effects Purple PurpleWorld Plugin ReadReceipts BuddyList PluginGroups.
From S2P Require Import AttachmentFile InlineImage Transfers Adapter UserActions PluginSafety TransferSafety AdapterSafety.
From S2P Require Import Polling PluginClose PluginLogin PluginSystem.

(** The group that a call sends to or leaves. *)
Definition group_call (call : Call) : option (option (list byte)) :=
  match call with
  | CallSendGroupMessage _ key _ | CallLeaveGroup _ key => Some key
  | CallSendAttachment _ input true => Some (in_recipient input)
  | CallSendFileAttachment _ _ recipient _ _ _ true => Some recipient
  | _ => None
  end.

Lemma group_call_user call : user_call call = false → group_call call = None.
Proof. by destruct call. Qed.

Lemma group_call_inner e call status : inner_call e = true → core_result e = Some (call, status) → group_call call = None.
Proof. intros [_ He]%andb_true_iff Hr. rewrite Hr in He. by apply group_call_user, negb_true_iff. Qed.

(** A group operation in a trace is allowed in state [s]. *)
Definition allowed (s : SignalConnection) (e : call_entry) : Prop :=
  ∀ call status key, core_result e = Some (call, status) → group_call call = Some key →
    ∃ k, key = Some (bytes_of k) ∧ signal_group_can_send s (Some k) = true ∧ conn_closing s = false.

Lemma inner_allowed s e : inner_call e = true → allowed s e.
Proof.
  intros He call status key Hr Hg. rewrite (group_call_inner _ _ _ He Hr) in Hg. done.
Qed.

(** ** Transfers that go on

    The groups stay, no transfer gets other functions or data, and the contexts
    keep their recipients. *)
Definition kept_state (s s' : SignalConnection) : Prop :=
  conn_groups s' = conn_groups s ∧ conn_closing s' = conn_closing s ∧
  xfer_functions (conn_transfers s') = xfer_functions (conn_transfers s) ∧
  (∀ xfer d, xfer_data (conn_transfers s') !! xfer = Some d → xfer_data (conn_transfers s) !! xfer = Some d) ∧
  (∀ a c', contexts (conn_transfers s') !! a = Some c' →
     ∃ c, contexts (conn_transfers s) !! a = Some c ∧ out_recipient c' = out_recipient c ∧ out_group c' = out_group c).

Lemma kept_state_refl s : kept_state s s.
Proof. split_and!; eauto. Qed.

Lemma kept_state_trans s s' s'' : kept_state s s' → kept_state s' s'' → kept_state s s''.
Proof.
  intros (Hg&Hc&Hf&Hd&Hx) (Hg'&Hc'&Hf'&Hd'&Hx'). split_and!; [congruence..|auto|].
  intros a c'' (c'&(c&?&?&?)%Hx&?&?)%Hx'. exists c. split_and!; congruence.
Qed.

(** Without group operations, and with those that are allowed. *)
Definition kept (s : SignalConnection) (t : list call_entry) (s' : SignalConnection) : Prop := kept_state s s' ∧ inner_trace t.
Definition guarded (s : SignalConnection) (t : list call_entry) (s' : SignalConnection) : Prop :=
  kept_state s s' ∧ Forall (allowed s) t.
(** Only that there is nothing of the user in it. *)
Definition no_user_call (e : call_entry) : Prop :=
  ∀ call status, core_result e = Some (call, status) → user_call call = false.
Definition silent (s : SignalConnection) (t : list call_entry) (s' : SignalConnection) : Prop := Forall no_user_call t.

#[export] Instance kept_order : TraceOrder kept.
Proof.
  split.
  - intros s. split; [apply kept_state_refl|constructor].
  - intros s t s' t' s'' [H Ht] [H' Ht']. split; [by eapply kept_state_trans|by apply inner_trace_app].
Qed.

#[export] Instance silent_order : TraceOrder silent.
Proof. split; [intros s; constructor|]. intros s t s' t' s'' H H'. by apply Forall_app. Qed.

Lemma inner_silent t : inner_trace t → Forall no_user_call t.
Proof.
  intros Ht. eapply Forall_impl; [exact Ht|]. intros e [_ He]%andb_true_iff call status Hr. rewrite Hr in He.
  by apply negb_true_iff in He.
Qed.

Lemma kept_can_send s s' k : kept_state s s' → signal_group_can_send s' k = signal_group_can_send s k.
Proof. intros (Hg&_). unfold signal_group_can_send, signal_group_is_active. by rewrite Hg. Qed.

#[export] Instance guarded_order : TraceOrder guarded.
Proof.
  split.
  - intros s. split; [apply kept_state_refl|constructor].
  - intros s t s' t' s'' [H Ht] [H' Ht']. split; [by eapply kept_state_trans|].
    apply Forall_app. split; [done|]. eapply Forall_impl; [exact Ht'|]. intros e He call status key Hr Hk.
    destruct (He call status key Hr Hk) as (k&->&Hcan&Hcl). exists k.
    rewrite <-(kept_can_send s s') by done. destruct H as (_&<-&_). by split_and!.
Qed.

Lemma inner_trace_allowed s t : inner_trace t → Forall (allowed s) t.
Proof. intros Ht. eapply Forall_impl; [exact Ht|]. intros e. apply inner_allowed. Qed.

Lemma reads_kept {A} (m : plugin A) : respects False reads_step m → respects True kept m.
Proof.
  intros Hm s. eapply pends_mono; [apply pends_weaken, Hm|]. intros s' a t (Ht&r&n&->&_). split; [|done].
  split_and!; simpl; eauto.
Qed.

Lemma groups_silent {A} (m : plugin A) : respects False groups_step m → respects True silent m.
Proof. intros Hm s. eapply pends_mono; [apply pends_weaken, Hm|]. intros s' a t (Ht&_). by apply inner_silent. Qed.

Lemma kept_guarded {A} (m : plugin A) : respects True kept m → respects True guarded m.
Proof. intros Hm s. eapply pends_mono; [apply Hm|]. intros s' a t [H Ht]. split; [done|by apply inner_trace_allowed]. Qed.

Lemma kept_silent {A} (m : plugin A) : respects True kept m → respects True silent m.
Proof. intros Hm s. eapply pends_mono; [apply Hm|]. intros s' a t [_ Ht]. by apply inner_silent. Qed.

Lemma modify_silent f : respects True silent (modify f).
Proof. apply respects_modify. intros s. constructor. Qed.

Lemma undefined_respects {A} R why : respects True R (A := A) (undefined why).
Proof. intros s. by apply pends_undefined. Qed.

(** Assignments to the tables of transfers. *)
Lemma on_transfers_kept f :
  (∀ x, xfer_functions (f x) = xfer_functions x) →
  (∀ x xfer d, xfer_data (f x) !! xfer = Some d → xfer_data x !! xfer = Some d) →
  (∀ x a c', contexts (f x) !! a = Some c' →
     ∃ c, contexts x !! a = Some c ∧ out_recipient c' = out_recipient c ∧ out_group c' = out_group c) →
  respects True kept (modify (on_transfers f)).
Proof. intros Hf Hd Hc. apply respects_modify. intros s. split; [|constructor]. split_and!; simpl; auto. Qed.

Create HintDb guarded discriminated.
#[export] Hint Resolve undefined_respects : guarded.
#[export] Hint Extern 5 (respects _ kept _) => apply reads_kept; solve [auto with plugin nocore] : guarded.
#[export] Hint Extern 6 (respects _ guarded _) => apply kept_guarded; solve [auto with guarded nocore] : guarded.
#[export] Hint Resolve modify_silent : guarded.
#[export] Hint Extern 5 (respects _ silent _) => apply groups_silent; solve [auto with plugin nocore] : guarded.
#[export] Hint Extern 6 (respects _ silent _) => apply kept_silent; solve [auto with guarded nocore] : guarded.

Ltac guarded_step :=
  lazymatch goal with
  | |- respects _ _ (_ ≫= _) => apply respects_bind; [apply _| |intros ?]
  | |- respects _ _ (mret _) => apply respects_ret; apply _
  | |- respects _ _ get => apply respects_get; apply _
  | |- respects _ _ (gets _) => apply respects_gets; apply _
  | |- respects _ _ (each _ _) => apply respects_each; [apply _|intros ?]
  | |- respects _ _ (when _ _) => apply respects_when; [apply _|]
  | |- respects _ _ (when_some _ _) => apply respects_when_some; [apply _|intros ?]
  | |- respects _ _ (match ?x with _ => _ end) => destruct x
  | |- respects _ _ _ => solve [auto with guarded nocore]
  end; cbv beta zeta.
Tactic Notation "guarded_by" reference(f) := unfold f; repeat first [assumption | guarded_step].

Lemma data_of_kept xfer : respects True kept (data_of xfer).
Proof. guarded_by data_of. Qed.
Lemma clear_data_kept xfer : respects True kept (clear_data xfer).
Proof. apply on_transfers_kept; simpl; [done| |eauto]. intros x xfer' d Hd. by apply lookup_delete_Some in Hd as [_ Hd]. Qed.
Lemma deref_kept a : respects True kept (deref a).
Proof. guarded_by deref. Qed.
#[export] Hint Resolve data_of_kept clear_data_kept deref_kept : guarded.
Lemma outgoing_data_kept xfer : respects True kept (outgoing_data xfer).
Proof. guarded_by outgoing_data. Qed.
#[export] Hint Resolve outgoing_data_kept : guarded.

Lemma delete_context_kept a :
  respects True kept (modify (on_transfers (λ x, set_contexts (delete a (contexts x)) x))).
Proof. apply on_transfers_kept; simpl; [done|done|]. intros x a' c' Hc. apply lookup_delete_Some in Hc as [_ Hc]. eauto. Qed.
Lemma set_outgoing_kept (f : TransferState → gmap N Xfer) :
  respects True kept (modify (on_transfers (λ x, set_outgoing (f x) x))).
Proof. apply on_transfers_kept; simpl; eauto. Qed.
Lemma set_registered_kept (f : TransferState → gset N) :
  respects True kept (modify (on_transfers (λ x, set_registered (f x) x))).
Proof. apply on_transfers_kept; simpl; eauto. Qed.
#[export] Hint Resolve delete_context_kept : guarded.
#[export] Hint Extern 4 (respects _ kept (modify _)) =>
  first [apply (set_outgoing_kept (λ x, _)) | apply (set_registered_kept (λ x, _))] : guarded.

Lemma destroy_kept a : respects True kept (signal_outgoing_attachment_destroy a).
Proof. guarded_by signal_outgoing_attachment_destroy. Qed.
Lemma remove_outgoing_kept id : respects True kept (remove_outgoing id).
Proof. guarded_by remove_outgoing. Qed.
Lemma insert_outgoing_kept id xfer : respects True kept (insert_outgoing id xfer).
Proof. guarded_by insert_outgoing. Qed.
#[export] Hint Resolve destroy_kept remove_outgoing_kept insert_outgoing_kept : guarded.

Lemma free_kept xfer : respects True kept (signal_outgoing_attachment_free xfer).
Proof. guarded_by signal_outgoing_attachment_free. Qed.
#[export] Hint Resolve free_kept : guarded.
Lemma cancel_kept xfer : respects True kept (signal_outgoing_attachment_cancel xfer).
Proof. guarded_by signal_outgoing_attachment_cancel. Qed.
Lemma attachment_free_kept xfer : respects True kept (signal_attachment_free xfer).
Proof. guarded_by signal_attachment_free. Qed.
#[export] Hint Resolve cancel_kept attachment_free_kept : guarded.
Lemma final_function_kept xfer event : respects True kept (final_function xfer event).
Proof. guarded_by final_function. Qed.
#[export] Hint Resolve final_function_kept : guarded.
Lemma run_final_kept xfer r : respects True kept (run_final xfer r).
Proof. guarded_by run_final. Qed.
#[export] Hint Resolve run_final_kept : guarded.
Lemma xfer_call_kept xfer o : respects True kept (xfer_call xfer o).
Proof. guarded_by xfer_call. Qed.
#[export] Hint Resolve xfer_call_kept : guarded.
Lemma attachment_start_kept xfer : respects True kept (signal_attachment_start xfer).
Proof. guarded_by signal_attachment_start. Qed.
#[export] Hint Resolve attachment_start_kept : guarded.
Lemma start_function_kept xfer event : respects True kept (start_function xfer event).
Proof. guarded_by start_function. Qed.
#[export] Hint Resolve start_function_kept : guarded.
Lemma xfer_start_kept xfer : respects True kept (xfer_start xfer).
Proof. guarded_by xfer_start. Qed.
#[export] Hint Resolve xfer_start_kept : guarded.
Lemma attachment_init_kept xfer : respects True kept (signal_attachment_init xfer).
Proof. apply xfer_start_kept. Qed.
Lemma refuse_xfer_kept xfer message : respects True kept (refuse_xfer xfer message).
Proof. guarded_by refuse_xfer. Qed.
#[export] Hint Resolve attachment_init_kept refuse_xfer_kept : guarded.

Lemma assign_id_kept a id : respects True kept (assign a (set_out_request_id id)).
Proof.
  intros s. unfold assign, deref. pstep. pstep. destruct (contexts (transfers s) !! a) as [c|] eqn:E; [|by apply pends_undefined].
  pstep. pstep. split; [|constructor]. split_and!; simpl; [done..|].
  intros a' c' [[<- <-]|[_ Hc]]%lookup_insert_Some; eauto.
Qed.
#[export] Hint Resolve assign_id_kept : guarded.

(** The context of a transfer to a group is for one that can be sent to. *)
Definition sendable (xfer : Xfer) (s : SignalConnection) : Prop :=
  ∀ a c, xfer_data (conn_transfers s) !! xfer = Some (DataOutgoing a) → contexts (conn_transfers s) !! a = Some c →
    out_group c = true → signal_group_can_send s (Some (out_recipient c)) = true ∧ conn_closing s = false.

Lemma sendable_guarded xfer s t s' : guarded s t s' → sendable xfer s → sendable xfer s'.
Proof.
  intros [Hk _] Hs a c' Ha Hc' Hgroup. rewrite (kept_can_send s s') by done. destruct Hk as (_&Hc&_&Hd&Hx).
  apply Hd in Ha. apply Hx in Hc' as (c&Hcx&Hrec&Hgr). rewrite Hgr in Hgroup.
  rewrite Hrec, Hc. by apply (Hs a c).
Qed.

(** After a program that is guarded. *)
Lemma pends_guarded {A B} (m : plugin A) (k : A → plugin B) s :
  respects True guarded m →
  (∀ s' a t, guarded s t s' → pends True (k a) s' (λ s'' _ t', guarded s' t' s'')) →
  pends True (m ≫= k) s (λ s' _ t, guarded s t s').
Proof.
  intros Hm Hk. eapply pends_bind; [apply Hm|]. intros s' a t H. eapply pends_mono; [exact (Hk _ _ _ H)|].
  intros s'' b t' H'. exact (trace_trans _ _ _ _ _ H H').
Qed.

(** A group operation that is allowed. *)
Lemma pends_group_call {B} call (k : SignalStatus → plugin B) s :
  (∀ key, group_call call = Some key →
     ∃ k, key = Some (bytes_of k) ∧ signal_group_can_send s (Some k) = true ∧ conn_closing s = false) →
  (∀ status, pends True (k status) s (λ s' _ t, guarded s t s')) →
  pends True (core (CoreCall call) ≫= k) s (λ s' _ t, guarded s t s').
Proof.
  intros Hcall Hk. pstep. eapply pends_mono; [apply Hk|]. intros s' b t H.
  refine (trace_trans s [_] s t s' _ H). split; [apply kept_state_refl|]. apply Forall_singleton.
  intros c status key [= <- <-] Hkey. by apply Hcall.
Qed.

Section Guards.
Context `{Gl : GLib}.
Variables (files : file_metadata) (turns : nat).

Lemma submit_guarded xfer local_filename mime_type s :
  sendable xfer s → pends True (submit_attachment files xfer local_filename mime_type) s (λ s' _ t, guarded s t s').
Proof.
  intros Hs. unfold submit_attachment. apply pends_guarded; [auto with guarded|]. intros s1 u1 t1 H1.
  apply pends_guarded; [auto with guarded|]. intros s2 u2 t2 H2.
  assert (Hs2 : sendable xfer s2) by (do 2 (eapply sendable_guarded; [done|]); done).
  unfold outgoing_data, data_of. pstep. pstep.
  destruct (xfer_data (transfers s2) !! xfer) as [[a|bytes]|] eqn:Ed; [|by apply pends_undefined|pstep; apply kept_guarded, reads_kept, unref_reads].
  - pstep. unfold deref. pstep. pstep. destruct (contexts (transfers s2) !! a) as [c|] eqn:Ec; [|by apply pends_undefined].
    pstep. destruct (out_connected c); simpl; [|by apply pends_undefined].
    apply pends_group_call.
    + intros key. destruct (out_group c) eqn:Eg; [|done]. intros [= <-]. destruct (Hs2 a c Ed Ec Eg). eauto.
    + intros status. assert (Hrefuse : respects True guarded (_ ← assign a (set_out_request_id 0);
        _ ← refuse_xfer xfer "The Signal attachment could not be queued"; unref_xfer xfer)) by (repeat guarded_step).
      destruct status; try apply Hrefuse.
      assert (Hok : respects True guarded (_ ← call (Transfer (XferRef xfer)); _ ← insert_outgoing (out_request_id c) xfer;
        unref_xfer xfer)) by (repeat guarded_step). apply Hok.
Qed.

Lemma outgoing_init_guarded xfer : respects True guarded (signal_outgoing_attachment_init files turns xfer).
Proof.
  intros s. unfold signal_outgoing_attachment_init, outgoing_data, data_of. pstep. pstep.
  destruct (xfer_data (transfers s) !! xfer) as [[a|bytes]|] eqn:Ed; [|by apply pends_undefined|pstep; apply kept_guarded, xfer_call_kept].
  pstep. unfold deref. pstep. pstep. destruct (contexts (transfers s) !! a) as [c|] eqn:Ec; [|by apply pends_undefined].
  pstep. pstep. destruct (negb (out_connected c) || conn_closing s) eqn:Ecl; [apply kept_guarded, xfer_call_kept|].
  apply orb_false_iff in Ecl as [_ Ecl].
  destruct (out_group c && _) eqn:Eg; [apply kept_guarded, refuse_xfer_kept|].
  assert (Hs : sendable xfer s).
  { intros a' c' Ha Hc Hgr. assert (a' = a) as -> by congruence. assert (c' = c) as -> by congruence. split; [|done].
    rewrite Hgr in Eg. by apply negb_false_iff in Eg. }
  apply pends_guarded; [auto with guarded|]. intros s1 path t1 H1.
  apply pends_guarded; [auto with guarded|]. intros s2 inspected t2 H2.
  destruct inspected as [[[size mime]|e]|]; [|apply kept_guarded, refuse_xfer_kept|apply pends_ret, trace_refl].
  apply pends_guarded; [auto with guarded|]. intros s3 u3 t3 H3.
  apply pends_guarded; [auto with guarded|]. intros s4 id t4 H4.
  apply pends_guarded; [auto with guarded|]. intros s5 u5 t5 H5.
  apply submit_guarded. by do 5 (eapply sendable_guarded; [done|]).
Qed.
#[local] Hint Resolve outgoing_init_guarded : guarded.

Lemma request_function_guarded xfer event : respects True guarded (request_function files turns xfer event).
Proof. guarded_by request_function. Qed.
#[local] Hint Resolve request_function_guarded : guarded.
Lemma xfer_request_guarded xfer o : respects True guarded (xfer_request files turns xfer o).
Proof. guarded_by xfer_request. Qed.
#[local] Hint Resolve xfer_request_guarded : guarded.
Lemma request_xfer_guarded xfer filename : respects True guarded (request_xfer files turns xfer filename).
Proof. guarded_by request_xfer. Qed.

(** ** Events *)

(** Requests on a transfer that receives. *)
Lemma request_receive xfer events s :
  xfer_functions (conn_transfers s) !! xfer = Some XferReceive →
  pends True (each events (request_function files turns xfer)) s (λ s' _ t, kept s t s').
Proof.
  revert s. induction events as [|event events IH]; intros s Hf; cbn [each]; [apply pends_ret, trace_refl|].
  assert (Hev : pends True (request_function files turns xfer event) s (λ s' _ t, kept s t s')).
  { unfold request_function. pstep. rewrite Hf. destruct event; [apply attachment_init_kept|apply start_function_kept..]. }
  eapply pends_bind; [exact Hev|]. intros s1 u1 t1 [Hk1 Ht1]. eapply pends_mono; [apply IH|].
  - destruct Hk1 as (_&_&->&_). done.
  - intros s2 u2 t2 H2. exact (trace_trans s t1 s1 t2 s2 (conj Hk1 Ht1) H2).
Qed.

Lemma offer_silent conv peer filename event : respects True silent (offer_attachment files turns conv peer filename event).
Proof.
  unfold offer_attachment. apply respects_bind; [apply _|repeat guarded_step|]. intros s0.
  apply respects_bind; [apply _|auto with guarded|]. intros created. destruct (negb created); [repeat guarded_step|].
  intros s. unfold register_xfer. repeat pstep. unfold xfer_request. repeat pstep. eapply pends_bind; [apply request_receive; simpl; by rewrite lookup_insert_eq|].
  intros s1 u1 t1 [_ Ht1].
  assert (Hrest : respects True silent (_ ← each r1.2 signal_conversation_updated; signal_queue_final_read conv event))
    by repeat guarded_step.
  eapply pends_mono; [apply Hrest|]. intros s2 u2 t2 H2. do 3 (constructor; [done|]).
  apply Forall_app. split; [by apply inner_silent|done].
Qed.
#[local] Hint Resolve offer_silent : guarded.

Lemma deliver_attachment_silent event : respects True silent (signal_deliver_attachment files turns event).
Proof. guarded_by signal_deliver_attachment. Qed.
Lemma complete_silent event : respects True silent (signal_outgoing_attachment_complete event).
Proof. guarded_by signal_outgoing_attachment_complete. unfold find_outgoing. guarded_step. Qed.
Lemma failed_silent event : respects True silent (signal_outgoing_attachment_failed event).
Proof. guarded_by signal_outgoing_attachment_failed. unfold find_outgoing. guarded_step. Qed.
Lemma notify_silent kind title primary secondary : respects True silent (notify kind title primary secondary).
Proof. guarded_by notify. Qed.
#[local] Hint Resolve deliver_attachment_silent complete_silent failed_silent notify_silent : guarded.

Lemma show_link_qr_silent event : respects True silent (signal_show_link_qr event).
Proof. guarded_by signal_show_link_qr. Qed.
Lemma deliver_direct_silent event : respects True silent (signal_deliver_direct event).
Proof. guarded_by signal_deliver_direct. Qed.
Lemma deliver_group_silent event : respects True silent (signal_deliver_group event).
Proof. guarded_by signal_deliver_group. Qed.
Lemma identity_changed_silent event : respects True silent (signal_identity_changed event).
Proof. guarded_by signal_identity_changed. Qed.
Lemma identity_accepted_silent event : respects True silent (signal_identity_accepted event).
Proof. guarded_by signal_identity_accepted. Qed.
Lemma session_reset_silent event : respects True silent (signal_session_reset event).
Proof. guarded_by signal_session_reset. Qed.
Lemma set_avatar_silent event : respects True silent (signal_set_avatar event).
Proof. guarded_by signal_set_avatar. Qed.
Lemma leave_failed_silent event : respects True silent (signal_group_leave_failed event).
Proof. guarded_by signal_group_leave_failed. Qed.
Lemma group_left_silent event : respects True silent (signal_group_left event).
Proof. guarded_by signal_group_left. Qed.
Lemma set_account_identity_silent event : respects True silent (signal_set_account_identity event).
Proof. guarded_by signal_set_account_identity. Qed.
Lemma on_ready_silent : respects True silent on_ready.
Proof. guarded_by on_ready. Qed.
Lemma on_recovering_silent : respects True silent on_recovering.
Proof. guarded_by on_recovering. Qed.
Lemma on_typing_silent event : respects True silent (on_typing event).
Proof. guarded_by on_typing. Qed.
#[local] Hint Resolve leave_failed_silent : guarded.
Lemma on_error_silent event : respects True silent (on_error event).
Proof. guarded_by on_error. Qed.
#[local] Hint Resolve show_link_qr_silent deliver_direct_silent deliver_group_silent identity_changed_silent
  identity_accepted_silent session_reset_silent set_avatar_silent group_left_silent
  set_account_identity_silent on_ready_silent on_recovering_silent on_typing_silent on_error_silent : guarded.

Lemma dispatch_silent event : respects True silent (signal_dispatch_event files turns event).
Proof.
  unfold signal_dispatch_event. cbv zeta.
  repeat first [guarded_step | progress unfold accepted | progress unfold projected].
Qed.
#[local] Hint Resolve dispatch_silent : guarded.

Lemma call_silent o : (∀ r, no_user_call (answered (Sig := purple_sig) o r)) → respects True silent (call o).
Proof. intros Ho. apply respects_call. intros s r. by apply Forall_singleton. Qed.

Lemma poll_silent notifier_failed : respects True silent (signal_poll_backend files turns notifier_failed).
Proof.
  assert (Hpoll : respects True silent (core CorePoll)) by by apply call_silent.
  assert (Hfree : ∀ e, respects True silent (core (CoreEventFree e))) by (intros; by apply call_silent).
  assert (Hack : ∀ id, respects True silent (core (CoreCall (CallAckMessage id)))).
  { intros id. apply call_silent. by intros r call status [= <- <-]. }
  assert (Hloop : ∀ n, respects True silent (poll_loop files turns n notifier_failed)).
  { induction n as [|n IH]; cbn [poll_loop]; [repeat guarded_step|]. unfold fail_connection.
    repeat first [apply Hpoll|apply Hfree|apply Hack|apply IH|guarded_step]. }
  unfold signal_poll_backend. repeat first [apply Hloop|guarded_step].
Qed.

(** ** Requests of the user *)

Lemma silent_allowed {A} (m : plugin A) s :
  respects True silent m → pends True m s (λ _ _ t, Forall (allowed s) t).
Proof.
  intros Hm. eapply pends_mono; [apply Hm|]. intros s' a t Ht. eapply Forall_impl; [exact Ht|].
  intros e He call status key Hr Hk. rewrite (group_call_user call (He call status Hr)) in Hk. done.
Qed.

(** The groups stay as they are. *)
Definition same_groups (s : SignalConnection) (t : list call_entry) (s' : SignalConnection) : Prop :=
  conn_groups s' = conn_groups s ∧ conn_closing s' = conn_closing s ∧ Forall (allowed s) t.

Lemma allowed_same s s' e :
  conn_groups s' = conn_groups s → conn_closing s' = conn_closing s → allowed s' e → allowed s e.
Proof.
  intros Hg Hc He call status key Hr Hk. destruct (He call status key Hr Hk) as (k&->&Hcan&Hcl). exists k.
  unfold signal_group_can_send, signal_group_is_active in *. by rewrite <-Hg, <-Hc.
Qed.

Lemma guarded_same {A} (m : plugin A) s : respects True guarded m → pends True m s (λ s' _ t, same_groups s t s').
Proof. intros Hm. eapply pends_mono; [apply Hm|]. by intros s' a t [(Hg&Hc&_) Ht]. Qed.

(** The rest of a program after a part that keeps the groups. *)
Lemma pends_same_groups {A B} (m : plugin A) (k : A → plugin B) s :
  pends True m s (λ s' _ t, same_groups s t s') →
  (∀ s' a t, same_groups s t s' → pends True (k a) s' (λ _ _ t', Forall (allowed s') t')) →
  pends True (m ≫= k) s (λ _ _ t, Forall (allowed s) t).
Proof.
  intros Hm Hk. eapply pends_bind; [exact Hm|]. intros s' a t H. eapply pends_mono; [exact (Hk _ _ _ H)|].
  intros s'' b t' Ht'. destruct H as (Hg&Hc&Ht). apply Forall_app. split; [done|].
  eapply Forall_impl; [exact Ht'|]. intros e. by apply allowed_same.
Qed.

Lemma new_attachment_same peer recipient group s :
  pends True (signal_new_attachment_xfer peer recipient group) s (λ s' _ t, same_groups s t s').
Proof.
  assert (Hrefl : same_groups s [] s) by (split_and!; [done..|constructor]).
  unfold signal_new_attachment_xfer, allocate_context, register_xfer. pstep.
  destruct peer, recipient; try by pstep. destruct (conn_closing s); [by pstep|].
  pstep. destruct r; cbn [negb]; repeat pstep; (split; [done|split; [done|]]); apply Forall_singleton; by intros ? ? ? [=].
Qed.

Lemma send_file_allowed who filename s :
  pends True (signal_send_file files turns who filename) s (λ _ _ t, Forall (allowed s) t).
Proof.
  unfold signal_send_file, signal_new_xfer. apply pends_same_groups; [apply new_attachment_same|]. intros s1 xfer t1 H1.
  eapply pends_mono; [apply guarded_same, request_xfer_guarded|]. by intros s' u t (_&_&Ht).
Qed.

Lemma chat_send_file_allowed id filename s :
  pends True (signal_chat_send_file files turns id filename) s (λ _ _ t, Forall (allowed s) t).
Proof.
  unfold signal_chat_send_file. pstep. destruct (negb _); [by pstep|]. cbv zeta.
  apply pends_same_groups; [apply new_attachment_same|]. intros s1 xfer t1 H1.
  eapply pends_mono; [apply guarded_same, request_xfer_guarded|]. by intros s' u t (_&_&Ht).
Qed.

(** ** Every call *)

Lemma iterate_silent {K} `{Countable K} (table : SignalConnection → gset K) remove body :
  (∀ k, respects True silent (body k)) → respects True silent (iterate table remove body).
Proof.
  intros Hbody. assert (Hcheck : ∀ e, respects True silent (iter_check table e)).
  { intros e. unfold iter_check. repeat guarded_step. }
  assert (Hloop : ∀ todo e, respects True silent (iter_loop table remove body e todo)).
  { induction todo as [|k todo IH]; intros e; cbn [iter_loop]; repeat first [apply Hcheck|apply Hbody|apply IH|guarded_step]. }
  unfold iterate. repeat first [apply Hloop|guarded_step].
Qed.

Lemma timeout_silent : respects True silent signal_group_sync_timeout.
Proof.
  unfold signal_group_sync_timeout. repeat first [apply iterate_silent; intros ?|guarded_step].
Qed.

Lemma leave_request_silent id : respects True silent (leave_request id).
Proof. guarded_by leave_request. Qed.
Lemma finish_silent request : respects True silent (signal_finish_group_leave_request request).
Proof. apply modify_silent. Qed.
Lemma retry_silent : respects True silent signal_retry_pending_reads.
Proof. guarded_by signal_retry_pending_reads. Qed.
#[local] Hint Resolve leave_request_silent finish_silent : guarded.
Lemma own_buddy_silent node : respects True silent (own_buddy node).
Proof. guarded_by own_buddy. Qed.
#[local] Hint Resolve own_buddy_silent : guarded.

(** ** Requests

    A call of the user that asks the core for something asks once, for what
    the user wants. *)
Definition user_calls (t : list call_entry) : list (Call * SignalStatus) := filter (λ p, user_call p.1 = true) (core_calls t).

Lemma user_calls_app t t' : user_calls (t ++ t') = user_calls t ++ user_calls t'.
Proof. unfold user_calls. by rewrite core_calls_app, filter_app. Qed.

Lemma user_calls_cons e t :
  user_calls (e :: t) =
  match core_result e with
  | Some (call, status) => if user_call call then (call, status) :: user_calls t else user_calls t
  | None => user_calls t
  end.
Proof.
  unfold user_calls, core_calls. cbn [omap list_omap]. destruct (core_result e) as [[call status]|]; [|done].
  rewrite filter_cons. simpl. by destruct (user_call call).
Qed.

Lemma silent_user_calls t : Forall no_user_call t → user_calls t = [].
Proof.
  induction 1 as [|e t He _ IH]; [done|]. rewrite user_calls_cons.
  destruct (core_result e) as [[call status]|] eqn:E; [|done]. by rewrite (He call status E).
Qed.

Definition requests (P : Call → Prop) (t : list call_entry) : Prop :=
  user_calls t = [] ∨ ∃ call status, user_calls t = [(call, status)] ∧ P call.

Lemma silent_requests {A} (m : plugin A) s P : respects True silent m → pends True m s (λ _ _ t, requests P t).
Proof. intros Hm. eapply pends_mono; [apply Hm|]. intros s' a t Ht. left. by apply silent_user_calls. Qed.

(** The part before the request. *)
Lemma requests_reads {A B} (m : plugin A) (k : A → plugin B) s P :
  respects False reads_step m →
  (∀ s' a t, reads_step s t s' → pends True (k a) s' (λ _ _ t', requests P t')) →
  pends True (m ≫= k) s (λ _ _ t, requests P t).
Proof.
  intros Hm Hk. eapply pends_bind; [apply pends_weaken, Hm|]. intros s' a t Ht. eapply pends_mono; [exact (Hk _ _ _ Ht)|].
  intros s'' b t' Hr. unfold requests. destruct Ht as (Ht&_). rewrite user_calls_app.
  by rewrite (silent_user_calls t) by by apply inner_silent.
Qed.

(** The request. *)
Lemma requests_call {B} call (k : SignalStatus → plugin B) s (P : Call → Prop) :
  P call → (∀ status, respects True silent (k status)) → pends True (core (CoreCall call) ≫= k) s (λ _ _ t, requests P t).
Proof.
  intros HP Hk. pstep. eapply pends_mono; [apply Hk|]. intros s' b t Ht. unfold requests. rewrite user_calls_cons. simpl.
  rewrite (silent_user_calls t) by done. destruct (user_call call); [right; by eexists _, _|by left].
Qed.

(** What a call asks the core for; files apart. *)
Definition asked (c : PluginCall) (s : SignalConnection) (call : Call) : Prop :=
  match c with
  | OnSendIm who message => ∃ id peer plain,
      filled who = Some peer ∧ signal_plaintext_from_markup message = Some plain ∧
      (str_len plain <= MAX_MESSAGE_BYTES)%N ∧ call = CallSendMessage id (c_arg peer) (c_arg plain)
  | OnSendTyping who typing => ∃ id, call = CallSetTyping id (bytes_of <$> who) (if typing then 1 else 0)%Z
  | OnChatSend chat message _ => ∃ id key plain,
      group_key_of_id s chat = Some key ∧ signal_group_can_send s (Some key) = true ∧ conn_closing s = false ∧
      signal_plaintext_from_markup message = Some plain ∧ (str_len plain <= MAX_MESSAGE_BYTES)%N ∧
      call = CallSendGroupMessage id (c_arg key) (c_arg plain)
  | OnAcceptIdentity _ => ∃ id peer,
      peer ∈ conn_pending_identity_changes s ∧ conn_closing s = false ∧ call = CallAcceptIdentity id (c_arg peer)
  | OnResetSession _ => ∃ id peer, conn_closing s = false ∧ call = CallResetSession id (c_arg peer)
  | OnConfirmLeave request => ∃ id r,
      r ∈ conn_leave_requests s ∧ leave_id r = request ∧ conn_closing s = false ∧
      signal_group_can_send s (Some (leave_group_key r)) = true ∧ call = CallLeaveGroup id (c_arg (leave_group_key r))
  | _ => False
  end.

Lemma send_im_requests who message s :
  pends True (signal_send_im who message) s (λ _ _ t, requests (asked (OnSendIm who message) s) t).
Proof.
  unfold signal_send_im. pstep. destruct (conn_closing s); [by pstep; left|].
  destruct (filled who) as [peer|] eqn:Ew; [|by pstep; left]. destruct (_ <? _)%N; [by pstep; left|].
  destruct (signal_plaintext_from_markup message) as [plain|] eqn:Em; [|by pstep; left].
  destruct (N.ltb_spec MAX_MESSAGE_BYTES (str_len plain)); [by pstep; left|]. cbv zeta.
  apply requests_reads; [auto with plugin|]. intros s1 found t1 _.
  apply requests_reads; [solve_respects|]. intros s2 u2 t2 _.
  apply requests_reads; [auto with plugin|]. intros s3 id t3 _.
  apply requests_call; [by exists id, peer, plain|]. intros status. repeat guarded_step.
Qed.

Lemma send_typing_requests who typing s :
  pends True (signal_send_typing who typing) s (λ _ _ t, requests (asked (OnSendTyping who typing) s) t).
Proof.
  unfold signal_send_typing. pstep. destruct (conn_closing s); [by pstep; left|].
  apply requests_reads; [auto with plugin|]. intros s1 id t1 _.
  apply requests_call; [by exists id|]. intros status. repeat guarded_step.
Qed.

Lemma chat_send_requests chat message flags s :
  pends True (signal_chat_send chat message flags) s (λ _ _ t, requests (asked (OnChatSend chat message flags) s) t).
Proof.
  unfold signal_chat_send. pstep. destruct (conn_closing s) eqn:Ecl; [by pstep; left|]. cbv zeta.
  destruct (signal_group_can_send s (group_key_of_id s chat)) eqn:Ecan; simpl; [|apply silent_requests; repeat guarded_step].
  apply requests_reads; [auto with plugin|]. intros s1 conv t1 _.
  destruct conv as [conv|]; [|by pstep; left]. destruct (group_key_of_id s chat) as [key|] eqn:Ek; [|by pstep; left].
  apply requests_reads; [auto with plugin|]. intros s2 left t2 _. destruct left; [by pstep; left|].
  destruct (signal_plaintext_from_markup message) as [plain|] eqn:Em; [|by pstep; left].
  destruct (N.ltb_spec MAX_MESSAGE_BYTES (str_len plain)); [by pstep; left|].
  apply requests_reads; [auto with plugin|]. intros s3 id t3 _.
  apply requests_call; [by exists id, key, plain|]. intros status. repeat guarded_step.
Qed.

Lemma accept_identity_requests node s :
  pends True (signal_accept_changed_identity node) s (λ _ _ t, requests (asked (OnAcceptIdentity node) s) t).
Proof.
  unfold signal_accept_changed_identity. apply requests_reads; [unfold own_buddy; solve_respects|].
  intros s1 peer t1 (_&r&n&->&_). pstep. destruct peer as [peer|]; [|by pstep; left]. simpl.
  destruct (conn_closing s) eqn:Ecl; simpl; [by pstep; left|]. destruct (bool_decide _) eqn:Ep; simpl; [|by pstep; left].
  apply bool_decide_eq_true in Ep. apply requests_reads; [auto with plugin|]. intros s2 id t2 _.
  apply requests_call; [by exists id, peer|]. intros status. repeat guarded_step.
Qed.

Lemma reset_session_requests node s :
  pends True (signal_reset_session node) s (λ _ _ t, requests (asked (OnResetSession node) s) t).
Proof.
  unfold signal_reset_session. apply requests_reads; [unfold own_buddy; solve_respects|].
  intros s1 peer t1 (_&r&n&->&_). pstep. destruct peer as [peer|]; [|by pstep; left]. simpl.
  destruct (conn_closing s) eqn:Ecl; [by pstep; left|]. apply requests_reads; [auto with plugin|]. intros s2 id t2 _.
  apply requests_call; [by exists id, peer|]. intros status. repeat guarded_step.
Qed.

Lemma confirm_leave_requests request s :
  pends True (signal_confirm_group_leave request) s (λ _ _ t, requests (asked (OnConfirmLeave request) s) t).
Proof.
  unfold signal_confirm_group_leave, leave_request. pstep. pstep.
  destruct (list_find _ _) as [[i r]|] eqn:Er; [|by apply pends_undefined]. pstep. pstep. cbv zeta.
  apply list_find_Some in Er as (Er&Hid&_). apply list_elem_of_lookup_2 in Er.
  destruct (conn_closing s || _) eqn:E; [apply silent_requests; repeat guarded_step|].
  destruct (bool_decide (leave_group_key r ∈ _)) eqn:El; [apply silent_requests; repeat guarded_step|].
  apply orb_false_iff in E as [Ecl Eact]. apply negb_false_iff in Eact.
  apply requests_reads; [auto with plugin|]. intros s1 id t1 _. apply requests_call.
  - exists id, r. split_and!; [done..| |done]. unfold signal_group_can_send. rewrite Eact. simpl. by rewrite El.
  - intros status. repeat guarded_step.
Qed.

(** *** Files *)

Definition sends_file (call : Call) : bool := match call with CallSendFileAttachment _ _ _ _ _ _ _ => true | _ => false end.

Definition files_only (s : SignalConnection) (t : list call_entry) (s' : SignalConnection) : Prop :=
  Forall (λ p, sends_file p.1 = true) (user_calls t).

#[local] Instance files_only_order : TraceOrder files_only.
Proof.
  split; [intros s; constructor|]. intros s t s' t' s'' H H'. unfold files_only in *. rewrite user_calls_app. by apply Forall_app.
Qed.

Lemma silent_files {A} (m : plugin A) : respects True silent m → respects True files_only m.
Proof.
  intros Hm s. eapply pends_mono; [apply Hm|]. intros s' a t Ht. unfold files_only. by rewrite (silent_user_calls t Ht).
Qed.
#[local] Hint Extern 7 (respects _ files_only _) => apply silent_files; solve [auto with guarded nocore] : guarded.

Lemma send_file_call id recipient filename mime path group :
  respects True files_only (core (CoreCall (CallSendFileAttachment files id recipient filename mime path group))).
Proof. apply respects_call. intros s r. unfold files_only. rewrite user_calls_cons. by repeat constructor. Qed.
#[local] Hint Resolve send_file_call : guarded.

Lemma submit_files xfer path mime : respects True files_only (submit_attachment files xfer path mime).
Proof. guarded_by submit_attachment. Qed.
#[local] Hint Resolve submit_files : guarded.
Lemma outgoing_init_files xfer : respects True files_only (signal_outgoing_attachment_init files turns xfer).
Proof. guarded_by signal_outgoing_attachment_init. Qed.
#[local] Hint Resolve outgoing_init_files : guarded.
Lemma request_function_files xfer event : respects True files_only (request_function files turns xfer event).
Proof. guarded_by request_function. Qed.
#[local] Hint Resolve request_function_files : guarded.
Lemma xfer_request_files xfer o : respects True files_only (xfer_request files turns xfer o).
Proof. guarded_by xfer_request. Qed.
#[local] Hint Resolve xfer_request_files : guarded.
Lemma request_xfer_files xfer filename : respects True files_only (request_xfer files turns xfer filename).
Proof. guarded_by request_xfer. Qed.
Lemma new_attachment_silent peer recipient group : respects True silent (signal_new_attachment_xfer peer recipient group).
Proof. guarded_by signal_new_attachment_xfer; unfold allocate_context, register_xfer; repeat guarded_step. Qed.
#[local] Hint Resolve request_xfer_files new_attachment_silent : guarded.
Lemma send_file_files who filename : respects True files_only (signal_send_file files turns who filename).
Proof. guarded_by signal_send_file. unfold signal_new_xfer. repeat guarded_step. Qed.
Lemma chat_send_file_files id filename : respects True files_only (signal_chat_send_file files turns id filename).
Proof. guarded_by signal_chat_send_file. Qed.

(** ** Every call *)

Definition file_call (c : PluginCall) : bool :=
  match c with OnSendFile _ _ | OnChatSendFile _ _ | OnXferFunction _ _ => true | _ => false end.

(** What the calls of the core in a trace are for. *)
Definition on_request (c : PluginCall) (s : SignalConnection) (t : list call_entry) : Prop :=
  if file_call c then Forall (λ p, sends_file p.1 = true) (user_calls t) else requests (asked c s) t.

Lemma ignore_requests {A} (m : plugin A) s P :
  pends True m s (λ _ _ t, requests P t) → pends True (ignore m) s (λ _ _ t, requests P t).
Proof. intros Hm. eapply pends_bind; [exact Hm|]. intros s' a t Ht. pstep. by rewrite app_nil_r. Qed.

Lemma run_call_requests c s : pends True (run_call files turns c) s (λ _ _ t, on_request c s t).
Proof.
  unfold on_request. destruct c; cbn [run_call file_call].
  all: first
    [ apply ignore_requests, silent_requests, poll_silent | apply silent_requests, retry_silent
    | apply silent_requests, timeout_silent | apply ignore_requests, send_im_requests | apply send_typing_requests
    | apply send_file_files | apply chat_send_file_files | apply request_function_files
    | apply ignore_requests, chat_send_requests | apply accept_identity_requests | apply reset_session_requests
    | apply confirm_leave_requests | idtac ].
  all: apply silent_requests; unfold ignore, signal_new_xfer, signal_join_chat, signal_chat_leave,
    signal_chat_buddy_alias, signal_get_info, signal_blist_node_menu, signal_request_group_leave, signal_cancel_group_leave,
    signal_link_cancel; repeat guarded_step.
Qed.

(** Requests are allowed. *)
Lemma asked_allowed c s call key :
  asked c s call → group_call call = Some key →
  ∃ k, key = Some (bytes_of k) ∧ signal_group_can_send s (Some k) = true ∧ conn_closing s = false.
Proof. destruct c; simpl; intros H Hg; try done; destruct_and?; naive_solver. Qed.

Lemma user_calls_allowed s t :
  (∀ call status key, (call, status) ∈ user_calls t → group_call call = Some key →
     ∃ k, key = Some (bytes_of k) ∧ signal_group_can_send s (Some k) = true ∧ conn_closing s = false) → Forall (allowed s) t.
Proof.
  intros H. apply Forall_forall. intros e He call status key Hr Hk. apply (H call status key); [|done].
  apply list_elem_of_filter. split; [by destruct call|]. apply list_elem_of_omap. eauto.
Qed.

Lemma requests_allowed c s t : requests (asked c s) t → Forall (allowed s) t.
Proof.
  intros Hr. apply user_calls_allowed. intros call status key Hin Hk.
  destruct Hr as [Hn|(call'&status'&Heq&Ha)]; [rewrite Hn in Hin; by apply elem_of_nil in Hin|].
  rewrite Heq in Hin. apply list_elem_of_singleton in Hin as [= -> ->]. by eapply asked_allowed.
Qed.

Lemma run_call_allowed c s : pends True (run_call files turns c) s (λ _ _ t, Forall (allowed s) t).
Proof.
  destruct (file_call c) eqn:Ef.
  - destruct c; try done; cbn [run_call]; [apply send_file_allowed|apply chat_send_file_allowed|].
    eapply pends_mono; [apply guarded_same, request_function_guarded|]. by intros s' u t (_&_&Ht).
  - eapply pends_mono; [apply run_call_requests|]. intros s' u t Hr. unfold on_request in Hr. rewrite Ef in Hr.
    by eapply requests_allowed.
Qed.

(** C14. The plugin asks the core to send a group a message or a file, or to
    leave it, only while the group is active in a complete snapshot, is not
    being left already and the connection is open: whichever call is made and
    whatever happens during it, each such request in its trace names a group
    for which this held when the call was made. *)
Theorem group_requests_guarded c s t s' :
  exec (run_call files turns c s) t (Done (s', tt)) → Forall (allowed s) t.
Proof. intros Hex. exact (pends_sound _ _ _ _ _ _ (run_call_allowed c s) Hex). Qed.


End Guards.

(** ** Runs *)

(** The user has asked to leave a group. *)
Definition leaving : SignalConnection :=
  on_leave_requests (λ _, [mkLeaveRequest 3 "group" "Group"])
    (on_groups (λ g, set_snapshot_complete true (set_active {["group"]} g)) demo_connection).

Definition demo_leave := run (plain_world [] []) (run_call (λ _, None) 5 (OnConfirmLeave 3) leaving) [].

Lemma demo_leave_exec : exec (run_call (λ _, None) 5 (OnConfirmLeave 3) leaving) demo_leave.1 (Done (end_of demo_leave, tt)).
Proof.
  assert (Hout : demo_leave.2 = Done (end_of demo_leave, tt)) by (vm_compute; reflexivity). rewrite <-Hout. apply run_exec.
Qed.

Lemma group_requests_guarded_witness :
  user_calls demo_leave.1 = [(CallLeaveGroup 1 (c_arg "group"), StatusOk)] ∧ Forall (allowed leaving) demo_leave.1.
Proof.
  split; [vm_compute; reflexivity|].
  exact (group_requests_guarded (λ _, None) 5 (OnConfirmLeave 3) leaving _ _ demo_leave_exec).
Defined.

