(* ===== verification/PluginSnapshot.v ===== *)
(** * PluginSnapshot: the group snapshot of the core becomes the groups of the plugin

    The core sends a snapshot as an event that begins it, an event for each
    group and each member, and an event that ends it.  When the plugin has
    handled them its active groups are exactly those of the snapshot. *)
From S2P Require Import Prelude Event Media InlineGif Ffi Effects Purple PurpleWorld Plugin ReadReceipts BuddyList PluginGroups.
From S2P Require Import AttachmentFile InlineImage Transfers Adapter UserActions PluginSafety TransferSafety AdapterSafety.
From S2P Require Import Polling PluginClose PluginLogin PluginSystem PluginGuards.

(** ** What leaves the snapshot alone *)

Definition same_sync (s : SignalConnection) (t : list call_entry) (s' : SignalConnection) : Prop :=
  group_sync (conn_groups s') = group_sync (conn_groups s).

#[local] Instance same_sync_order : TraceOrder same_sync.
Proof. split; [done|]. intros s t s' t' s'' H H'. unfold same_sync in *. congruence. Qed.

Lemma reads_same_sync {A} (m : plugin A) : respects False reads_step m → respects True same_sync m.
Proof.
  intros Hm s. eapply pends_mono; [apply pends_weaken, Hm|]. intros s' a t H. unfold same_sync.
  by rewrite (reads_step_keeps_groups _ _ _ H).
Qed.

Lemma guarded_same_sync {A} (m : plugin A) : respects True guarded m → respects True same_sync m.
Proof. intros Hm s. eapply pends_mono; [apply Hm|]. intros s' a t [(Hg&_) _]. unfold same_sync. by rewrite Hg. Qed.

Lemma modify_same_sync f : (∀ s, group_sync (conn_groups (f s)) = group_sync (conn_groups s)) → respects True same_sync (modify f).
Proof. intros Hf. apply respects_modify. intros s. apply Hf. Qed.

#[local] Hint Extern 5 (respects _ same_sync _) => apply reads_same_sync; solve [auto with plugin nocore] : guarded.
#[local] Hint Extern 6 (respects _ same_sync _) => apply guarded_same_sync; solve [auto with guarded nocore] : guarded.
#[local] Hint Extern 4 (respects _ same_sync (modify _)) => apply modify_same_sync; intros []; reflexivity : guarded.

Lemma group_id_sync key title : respects True same_sync (signal_group_id key title).
Proof. guarded_by signal_group_id. Qed.
Lemma create_members_sync key : respects True same_sync (create_group_members key).
Proof. apply modify_same_sync. intros s. simpl. by destruct (group_members_by_key _ !! key). Qed.
#[local] Hint Resolve group_id_sync create_members_sync : guarded.
Lemma open_group_sync key title : respects True same_sync (signal_open_group key title).
Proof. guarded_by signal_open_group. Qed.
Lemma deactivate_sync key b : respects True same_sync (signal_deactivate_group key b).
Proof. guarded_by signal_deactivate_group. Qed.
#[local] Hint Resolve open_group_sync deactivate_sync : guarded.
Lemma stop_fallback_sync : respects True same_sync stop_fallback_timer.
Proof. guarded_by stop_fallback_timer. Qed.
Lemma add_group_member_sync event : respects True same_sync (signal_add_group_member event).
Proof. guarded_by signal_add_group_member. Qed.
Lemma add_contact_sync event : respects True same_sync (signal_add_contact event).
Proof. guarded_by signal_add_contact. Qed.
Lemma end_contact_sync_sync : respects True same_sync signal_end_contact_sync.
Proof. guarded_by signal_end_contact_sync. Qed.
Lemma begin_contact_sync_sync : respects True same_sync signal_begin_contact_sync.
Proof. guarded_by signal_begin_contact_sync. Qed.
#[local] Hint Resolve stop_fallback_sync add_group_member_sync add_contact_sync end_contact_sync_sync begin_contact_sync_sync : guarded.

Section Handlers.
Context `{Gl : GLib}.
Variables (files : file_metadata) (turns : nat).

Lemma register_xfer_sync type data : respects True same_sync (register_xfer type data).
Proof. guarded_by register_xfer. Qed.
Lemma xfer_request_sync xfer o : respects True same_sync (xfer_request files turns xfer o).
Proof. apply guarded_same_sync, xfer_request_guarded. Qed.
#[local] Hint Resolve register_xfer_sync xfer_request_sync : guarded.
Lemma offer_sync conv peer filename event : respects True same_sync (offer_attachment files turns conv peer filename event).
Proof. guarded_by offer_attachment. Qed.
#[local] Hint Resolve offer_sync : guarded.
Lemma deliver_attachment_sync event : respects True same_sync (signal_deliver_attachment files turns event).
Proof. guarded_by signal_deliver_attachment. Qed.
Lemma find_outgoing_sync event : respects True same_sync (find_outgoing event).
Proof. guarded_by find_outgoing. Qed.
#[local] Hint Resolve find_outgoing_sync : guarded.
Lemma complete_sync event : respects True same_sync (signal_outgoing_attachment_complete event).
Proof. guarded_by signal_outgoing_attachment_complete. Qed.
Lemma failed_sync event : respects True same_sync (signal_outgoing_attachment_failed event).
Proof. guarded_by signal_outgoing_attachment_failed. Qed.
Lemma notify_sync kind title primary secondary : respects True same_sync (notify kind title primary secondary).
Proof. guarded_by notify. Qed.
#[local] Hint Resolve deliver_attachment_sync complete_sync failed_sync notify_sync : guarded.
Lemma show_link_qr_sync event : respects True same_sync (signal_show_link_qr event).
Proof. guarded_by signal_show_link_qr. Qed.
Lemma deliver_direct_sync event : respects True same_sync (signal_deliver_direct event).
Proof. guarded_by signal_deliver_direct. Qed.
Lemma deliver_group_sync event : respects True same_sync (signal_deliver_group event).
Proof. guarded_by signal_deliver_group. Qed.
Lemma identity_changed_sync event : respects True same_sync (signal_identity_changed event).
Proof. guarded_by signal_identity_changed. Qed.
Lemma identity_accepted_sync event : respects True same_sync (signal_identity_accepted event).
Proof. guarded_by signal_identity_accepted. Qed.
Lemma session_reset_sync event : respects True same_sync (signal_session_reset event).
Proof. guarded_by signal_session_reset. Qed.
Lemma set_avatar_sync event : respects True same_sync (signal_set_avatar event).
Proof. guarded_by signal_set_avatar. Qed.
Lemma leave_failed_sync event : respects True same_sync (signal_group_leave_failed event).
Proof. guarded_by signal_group_leave_failed. Qed.
Lemma group_left_sync event : respects True same_sync (signal_group_left event).
Proof. guarded_by signal_group_left. Qed.
Lemma set_account_identity_sync event : respects True same_sync (signal_set_account_identity event).
Proof. guarded_by signal_set_account_identity. Qed.
Lemma on_ready_sync : respects True same_sync on_ready.
Proof. guarded_by on_ready. Qed.
Lemma on_recovering_sync : respects True same_sync on_recovering.
Proof. guarded_by on_recovering. Qed.
Lemma on_typing_sync event : respects True same_sync (on_typing event).
Proof. guarded_by on_typing. Qed.
#[local] Hint Resolve leave_failed_sync : guarded.
Lemma on_error_sync event : respects True same_sync (on_error event).
Proof. guarded_by on_error. Qed.
#[local] Hint Resolve show_link_qr_sync deliver_direct_sync deliver_group_sync identity_changed_sync identity_accepted_sync
  session_reset_sync set_avatar_sync group_left_sync set_account_identity_sync on_ready_sync on_recovering_sync
  on_typing_sync on_error_sync : guarded.

(** Events other than those of the snapshot. *)
Lemma dispatch_sync event :
  ev_kind event ≠ EVENT_GROUP_SYNC_BEGIN → ev_kind event ≠ EVENT_GROUP → ev_kind event ≠ EVENT_GROUP_SYNC_END →
  respects True same_sync (signal_dispatch_event files turns event).
Proof.
  intros H1%N.eqb_neq H2%N.eqb_neq H3%N.eqb_neq. unfold signal_dispatch_event. cbv zeta. rewrite H1, H2, H3.
  repeat first [guarded_step | progress unfold accepted | progress unfold projected].
Qed.

End Handlers.

(** ** The end of a snapshot *)

Definition gview (s : SignalConnection) : gset string * ContactSync * bool :=
  (active_group_keys (conn_groups s), group_sync (conn_groups s), group_snapshot_complete (conn_groups s)).

Definition same_view (s : SignalConnection) (t : list call_entry) (s' : SignalConnection) : Prop := gview s' = gview s.

#[local] Instance same_view_order : TraceOrder same_view.
Proof. split; [done|]. intros s t s' t' s'' H H'. unfold same_view in *. congruence. Qed.

Lemma reads_same_view {A} (m : plugin A) : respects False reads_step m → respects True same_view m.
Proof.
  intros Hm s. eapply pends_mono; [apply pends_weaken, Hm|]. intros s' a t H. unfold same_view, gview.
  by rewrite (reads_step_keeps_groups _ _ _ H).
Qed.

#[local] Hint Extern 5 (respects _ same_view _) => apply reads_same_view; solve [auto with plugin nocore] : guarded.
#[local] Hint Extern 4 (respects _ same_view (modify _)) =>
  apply respects_modify; intros []; reflexivity : guarded.

Lemma open_group_view key title : respects True same_view (signal_open_group key title).
Proof.
  assert (Hid : respects True same_view (signal_group_id key title)) by (guarded_by signal_group_id).
  unfold signal_open_group. repeat first [apply Hid|guarded_step].
Qed.
#[local] Hint Resolve open_group_view : guarded.
Lemma open_active_joins_view clear : respects True same_view (open_active_joins clear).
Proof. guarded_by open_active_joins. Qed.

Lemma deactivate_stale_view s :
  pends True deactivate_stale_groups s (λ s' _ _,
    active_group_keys (conn_groups s') = sync_seen (group_sync (conn_groups s)) ∧
    group_sync (conn_groups s') = group_sync (conn_groups s)).
Proof.
  unfold deactivate_stale_groups. pstep. eapply pends_bind; [apply pends_weaken, walk_spec|].
  intros s1 active t1 [H1 _]. pstep. cbv zeta. pose proof (reads_step_keeps_groups _ _ _ H1) as Hg1.
  set (stale := filter _ active). assert (Hne : Forall (λ k, k ≠ "") stale).
  { apply Forall_forall. intros k [Hk _]%list_elem_of_filter ->. done. }
  eapply pends_bind; [by apply pends_weaken, deactivate_each|]. intros s2 u t2 H2%groups_become_groups. pstep.
  destruct (deactivated_all stale (conn_groups s1)) as (_&_&Hs&_). simpl. by rewrite H2, Hs, Hg1.
Qed.

Lemma end_group_sync_view event s :
  sync_active (group_sync (conn_groups s)) = true → ev_value event ≠ 0%Z →
  pends True (signal_end_group_sync event) s (λ s' _ _,
    gview s' = (sync_seen (group_sync (conn_groups s)), mkSync false ∅, true)).
Proof.
  intros Hact Hv. unfold signal_end_group_sync. pstep. rewrite Hact. apply Z.eqb_neq in Hv. rewrite Hv. simpl.
  eapply pends_bind; [apply stop_fallback_sync|]. intros s1 u1 t1 H1.
  eapply pends_bind; [apply deactivate_stale_view|]. intros s2 u2 t2 [Ha2 Hs2].
  eapply pends_bind; [apply reads_same_view, remove_stale_chats_reads|]. intros s3 u3 t3 H3. pstep.
  eapply pends_bind; [apply reads_same_view, refresh_all_groups|]. intros s4 u4 t4 H4. pstep.
  eapply pends_mono; [apply open_active_joins_view|]. intros s5 u5 t5 H5.
  unfold same_sync, same_view, gview in *. simpl in *. injection H3 as Ha3 Hs3 _. injection H4 as Ha4 Hs4 _. rewrite H5.
  rewrite Ha4, Ha3, Ha2, Hs4. by rewrite <-H1.
Qed.

(** ** Each event of a snapshot *)

Lemma add_group_spec event s :
  pends True (signal_add_group event) s (λ s' _ _,
    group_sync (conn_groups s') =
      match filled (ev_chat_id event) with
      | Some key => signal_contact_sync_mark (Some key) (group_sync (conn_groups s))
      | None => group_sync (conn_groups s)
      end).
Proof.
  unfold signal_add_group. destruct (filled (ev_chat_id event)) as [key|]; [|by pstep].
  eapply pends_bind; [apply group_id_sync|]. intros s1 id t1 H1. pstep.
  match goal with |- pends _ ?m ?s2 _ =>
    assert (Hrest : respects True same_sync m) by (cbv zeta; repeat guarded_step); eapply pends_mono; [apply Hrest|] end.
  intros s2 u t2 H2. unfold same_sync in *. rewrite H2. simpl. by rewrite H1.
Qed.

(** ** Whole snapshots *)

Section Snapshot.
Context `{Gl : GLib}.
Variables (files : file_metadata) (turns : nat).

Definition dispatch_all (events : list Event) : plugin unit :=
  each events (λ event, ignore (signal_dispatch_event files turns event)).

(** The groups of a snapshot. *)
Definition snapshot_key (event : Event) : option string :=
  if (ev_kind event =? EVENT_GROUP)%N then filled (ev_chat_id event) else None.

(** A snapshot in a stream of events: no other begins or ends in between. *)
Definition snapshot_events (complete : Z) (body : list Event) (events : list Event) : Prop :=
  ∃ first last, events = first :: body ++ [last] ∧ ev_kind first = EVENT_GROUP_SYNC_BEGIN ∧
    ev_kind last = EVENT_GROUP_SYNC_END ∧ ev_value last = complete ∧
    Forall (λ e, ev_kind e ≠ EVENT_GROUP_SYNC_BEGIN ∧ ev_kind e ≠ EVENT_GROUP_SYNC_END) body.

Lemma ignore_accepted {A} (m : plugin A) s Q :
  pends True m s (λ s' _ _, Q s') → pends True (ignore (accepted m)) s (λ s' _ _, Q s').
Proof. intros Hm. unfold ignore, accepted. pstep. eapply pends_bind; [exact Hm|]. intros s' a t H. pstep. by pstep. Qed.

Lemma begin_sync event s :
  ev_kind event = EVENT_GROUP_SYNC_BEGIN →
  pends True (ignore (signal_dispatch_event files turns event)) s (λ s' _ _, group_sync (conn_groups s') = mkSync true ∅).
Proof.
  intros Hk. unfold signal_dispatch_event. rewrite Hk. cbn. apply ignore_accepted. unfold signal_begin_group_sync. by pstep.
Qed.

Lemma body_sync event s seen :
  ev_kind event ≠ EVENT_GROUP_SYNC_BEGIN → ev_kind event ≠ EVENT_GROUP_SYNC_END →
  group_sync (conn_groups s) = mkSync true seen →
  pends True (ignore (signal_dispatch_event files turns event)) s (λ s' _ _,
    group_sync (conn_groups s') = mkSync true (list_to_set (option_list (snapshot_key event)) ∪ seen)).
Proof.
  intros Hb He Hs. unfold snapshot_key. destruct (N.eqb_spec (ev_kind event) EVENT_GROUP) as [Hk|Hk].
  - unfold signal_dispatch_event. rewrite Hk. cbn -[list_to_set]. apply ignore_accepted.
    eapply pends_mono; [apply add_group_spec|]. intros s' u t ->. destruct (filled (ev_chat_id event)) as [key|] eqn:Ef.
    + unfold signal_contact_sync_mark. apply filled_Some in Ef as [_ Hne]. destruct key; [done|]. simpl. rewrite Hs. simpl.
      f_equal. set_solver.
    + rewrite Hs. f_equal. set_solver.
  - eapply pends_bind; [by apply dispatch_sync|]. intros s' r t H. pstep. rewrite H, Hs. f_equal. set_solver.
Qed.

Lemma body_all_sync body last s seen Q :
  Forall (λ e, ev_kind e ≠ EVENT_GROUP_SYNC_BEGIN ∧ ev_kind e ≠ EVENT_GROUP_SYNC_END) body →
  group_sync (conn_groups s) = mkSync true seen →
  (∀ s', group_sync (conn_groups s') = mkSync true (list_to_set (omap snapshot_key body) ∪ seen) →
     pends True (dispatch_all [last]) s' (λ s'' _ _, Q s'')) →
  pends True (dispatch_all (body ++ [last])) s (λ s' _ _, Q s').
Proof.
  intros Hbody Hs HQ. revert s seen Hs HQ. induction Hbody as [|e body [Hb He] _ IH]; intros s seen Hs HQ.
  - apply HQ. rewrite Hs. f_equal. set_solver.
  - simpl. eapply pends_bind; [by apply (body_sync e s seen)|]. intros s1 u1 t1 H1. cbv beta in H1. eapply IH; [by rewrite H1|].
    intros s2 H2. apply HQ. rewrite H2. f_equal. simpl. destruct (snapshot_key e); simpl; set_solver.
Qed.

Lemma dispatch_all_safe events : safe (dispatch_all events).
Proof. unfold dispatch_all. apply safe_each. intros event. apply ignore_safe. auto with safe. Qed.

Lemma snapshot_view complete body events s :
  snapshot_events complete body events → complete ≠ 0%Z →
  pends True (dispatch_all events) s (λ s' _ _, gview s' = (list_to_set (omap snapshot_key body), mkSync false ∅, true)).
Proof.
  intros (first&last&->&Hfirst&Hlast&Hvalue&Hbody) Hc. simpl.
  eapply pends_bind; [by apply begin_sync|]. intros s1 u1 t1 H1. cbv beta in H1.
  apply (body_all_sync _ _ _ ∅ _ Hbody); [done|]. intros s2 Hs. unfold dispatch_all. simpl.
  eapply pends_bind with (P := λ s' _ _, gview s' = (list_to_set (omap snapshot_key body), mkSync false ∅, true));
    [|intros s3 u3 t3 H3; by pstep].
  unfold signal_dispatch_event. rewrite Hlast. cbn -[gview]. apply ignore_accepted.
  eapply pends_mono; [apply end_group_sync_view; [by rewrite Hs|by rewrite Hvalue]|]. intros s3 u3 t3 ->.
  rewrite Hs. simpl. do 3 f_equal. set_solver.
Qed.

(** A complete group snapshot of the core becomes the groups of the
    plugin: after the event that begins it, the events of its groups with any
    other events in between, and the event that ends it, whatever was known
    before, the active groups are exactly those of the snapshot, the snapshot
    counts as complete, and only active groups are still being left. *)
Theorem group_snapshot_adopted complete body events s t out :
  conn_ok s → snapshot_events complete body events → complete ≠ 0%Z → exec (dispatch_all events s) t out →
  ∃ s', out = Done (s', tt) ∧ conn_ok s' ∧
    active_group_keys (conn_groups s') = list_to_set (omap snapshot_key body) ∧
    group_snapshot_complete (conn_groups s') = true ∧ sync_active (group_sync (conn_groups s')) = false ∧
    pending_group_leaves (conn_groups s') ⊆ active_group_keys (conn_groups s').
Proof.
  intros Hs Hev Hc Hex.
  pose proof (pends_strengthen _ _ _ _ (dispatch_all_safe events s Hs) (snapshot_view _ _ _ s Hev Hc)) as Hp.
  apply (pends_sound _ _ _ _ _ _ Hp) in Hex. destruct out as [[s' []]|o|m]; [|done..]. destruct Hex as [(Hs'&_) Hv].
  unfold gview in Hv. injection Hv as Ha Hsync Hcomplete. exists s'. split_and!; [done..|by rewrite Hsync|].
  by destruct Hs' as (_&(_&Hl&_)&_).
Qed.

End Snapshot.

(** ** Runs *)

Definition demo_group (key : string) : Event := mkEvent EVENT_GROUP 0 0 0 0 None (Some key) (Some "Group") None [].

Definition demo_snapshot : list Event :=
  plain_event EVENT_GROUP_SYNC_BEGIN :: [demo_group "a"; demo_message (Some "hello"); demo_group "b"] ++
  [mkEvent EVENT_GROUP_SYNC_END 0 0 0 1 None None None None []].

Lemma demo_snapshot_events :
  snapshot_events 1 [demo_group "a"; demo_message (Some "hello"); demo_group "b"] demo_snapshot.
Proof. eexists _, _. split_and!; [done..|]. by repeat constructor. Qed.

Lemma group_snapshot_adopted_witness :
  ∃ s', (run (plain_world [] []) (dispatch_all (λ _, None) 5 demo_snapshot demo_connection) []).2 = Done (s', tt) ∧
    active_group_keys (conn_groups s') = {["a"; "b"]}.
Proof.
  destruct (group_snapshot_adopted (λ _, None) 5 1 _ _ demo_connection _ _ demo_connection_ok demo_snapshot_events
    ltac:(done) (run_exec (plain_world [] []) (dispatch_all (λ _, None) 5 demo_snapshot demo_connection) []))
    as (s'&Hout&_&Ha&_).
  exists s'. split; [exact Hout|]. rewrite Ha. vm_compute. reflexivity.
Defined.
