(* ===== verification/GroupsEndToEnd.v ===== *)
(** * GroupsEndToEnd: from the groups of the store to the groups of the plugin

    The snapshot the worker emits, as C reads it, handled by the plugin. *)
From S2P Require Import Prelude Event EventQueue Acknowledgment Attachment Command Session GroupState StoreErrors SignalTypes.
From S2P Require Import Media InlineGif ProjectionState Ffi Effects Backend Repository Groups Outbox Commands Delivery Snapshots.
From S2P Require Import Purple PurpleWorld Plugin ReadReceipts BuddyList PluginGroups AttachmentFile InlineImage Transfers Adapter UserActions.
From S2P Require Import PluginSafety TransferSafety AdapterSafety Polling PluginClose PluginLogin PluginSystem PluginGuards PluginSnapshot.

Section GroupsEndToEnd.
Context `{Ids : SignalIds} `{Dig : Digests} `{Gl : GLib}.
Variables (files : file_metadata) (turns : nat).

(** The key under which the plugin knows a group of the store. *)
Definition plugin_key (kg : list byte * SignalTypes.Group) : option string := filled (Some (replace_nul (group_identifier kg.1))).

Lemma records_kinds x :
  Forall (λ e, ev_kind e ≠ EVENT_GROUP_SYNC_BEGIN ∧ ev_kind e ≠ EVENT_GROUP_SYNC_END) (sanitize <$> group_records x).
Proof.
  unfold group_records. rewrite fmap_cons, fmap_app. constructor; [done|]. apply Forall_app. split.
  - destruct x.2; by repeat constructor.
  - apply Forall_fmap, Forall_fmap, Forall_forall. done.
Qed.

Lemma records_keys x : omap snapshot_key (sanitize <$> group_records x) = option_list (plugin_key x.1).
Proof.
  unfold group_records, plugin_key. rewrite fmap_cons, fmap_app. cbn [omap list_omap].
  assert (Hrest : omap snapshot_key ((sanitize <$> match x.2 with
      | Some avatar => [group_avatar_event (group_identifier x.1.1) avatar] | None => [] end) ++
    (sanitize <$> (group_member_event (group_identifier x.1.1) <$> gr_members x.1.2))) = []).
  { rewrite omap_app. destruct x.2; simpl; induction (gr_members x.1.2); done. }
  rewrite Hrest. unfold snapshot_key. cbn. by case_match.
Qed.

Lemma snapshot_keys shown :
  omap snapshot_key (sanitize <$> (shown ≫= group_records)) = omap plugin_key shown.*1.
Proof.
  induction shown as [|x shown IH]; [done|]. rewrite bind_cons, fmap_app, omap_app, IH, records_keys. simpl.
  by destruct (plugin_key x.1).
Qed.

Lemma snapshot_stream shown :
  snapshot_events 1 (sanitize <$> (shown ≫= group_records))
    (sanitize <$> plain_event EVENT_GROUP_SYNC_BEGIN :: (shown ≫= group_records) ++ [group_sync_end true]).
Proof.
  eexists _, _. rewrite fmap_cons, fmap_app. split; [done|]. split_and!; [done..|].
  induction shown as [|x shown IH]; [constructor|]. rewrite bind_cons, fmap_app. apply Forall_app. split; [apply records_kinds|done].
Qed.

(** C10. The groups of the store become the groups of the plugin: when the
    worker emits an authoritative snapshot and the plugin handles its events,
    as C reads them, then the active groups of the plugin are exactly those
    groups of the store that have the local account as a member and were not
    seen leaving. *)
Theorem groups_end_to_end local_aci t s t' out :
  exec (emit_group_snapshot local_aci true) t (Done (Ok tt)) → conn_ok s →
  exec (dispatch_all files turns (sanitize <$> events t) s) t' out →
  ∃ stream groups shown s',
    answered (Sig := backend_sig) OpGroups (Ok stream) ∈ t ∧ collect stream = Ok groups ∧ shown `sublist_of` groups ∧
    (∀ kg, kg ∈ shown → group_shown local_aci kg t) ∧
    (∀ kg, kg ∈ groups → kg ∉ shown → group_hidden local_aci kg t) ∧
    out = Done (s', tt) ∧ conn_ok s' ∧ group_snapshot_complete (conn_groups s') = true ∧
    active_group_keys (conn_groups s') = list_to_set (omap plugin_key shown).
Proof.
  intros Hrust Hs Hex. destruct (emit_group_snapshot_spec _ _ _ _ Hrust) as (stream&groups&shown&Hop&Hcol&Hev&Hsub&Hsh&Hhid).
  rewrite Hev in Hex.
  pose proof (pends_strengthen _ _ _ _ (dispatch_all_safe files turns _ s Hs)
    (snapshot_view files turns _ _ _ s (snapshot_stream shown) ltac:(done))) as Hp.
  apply (pends_sound _ _ _ _ _ _ Hp) in Hex. destruct out as [[s' []]|o|m]; [|done..]. destruct Hex as [(Hs'&_) Hv].
  unfold gview in Hv. injection Hv as Ha _ Hc. exists stream, groups, shown.*1, s'. split_and!; try done.
  by rewrite Ha, snapshot_keys.
Qed.

End GroupsEndToEnd.

(** ** A run *)

Definition demo_emitted :=
  run (Sig := @backend_sig string_ids) sample_world
    (emit_group_snapshot (Ids := string_ids) (Dig := plain_digests) "me" true) [].

Definition demo_handled :=
  run (Sig := purple_sig) (plain_world [] [])
    (dispatch_all (λ _, None) 5 (sanitize <$> events (Ids := string_ids) demo_emitted.1) demo_connection) [].

Lemma demo_emitted_exec :
  exec (Sig := @backend_sig string_ids) (emit_group_snapshot (Ids := string_ids) (Dig := plain_digests) "me" true)
    demo_emitted.1 (Done (Ok tt)).
Proof.
  assert (Hout : demo_emitted.2 = Done (Ok tt)) by (vm_compute; reflexivity). rewrite <-Hout. apply run_exec.
Qed.

Lemma groups_end_to_end_witness :
  ∃ s', demo_handled.2 = Done (s', tt) ∧ conn_ok s' ∧ group_snapshot_complete (conn_groups s') = true.
Proof.
  destruct (groups_end_to_end (Ids := string_ids) (Dig := plain_digests) (λ _, None) 5 "me" demo_emitted.1 demo_connection
    _ _ demo_emitted_exec demo_connection_ok
    (run_exec (Sig := purple_sig) (plain_world [] [])
       (dispatch_all (λ _, None) 5 (sanitize <$> events (Ids := string_ids) demo_emitted.1) demo_connection) []))
    as (stream&groups&shown&s'&_&_&_&_&_&Hout&Hs&Hc&_).
  exists s'. split_and!; [exact Hout|exact Hs|exact Hc].
Defined.
