(* ===== verification/PluginCore.v ===== *)
(** * PluginCore: the plugin and the core together

    The answers the plugin gets are those of the functions of the core
    ([Ffi]), while the worker goes on emitting events.  What the worker emits
    is what the plugin handles. *)
From S2P Require Import Prelude Event EventQueue Acknowledgment Attachment Media InlineGif Ffi Boundary Effects Purple PurpleWorld Plugin.
From S2P Require Import ReadReceipts BuddyList PluginGroups AttachmentFile InlineImage Transfers Adapter UserActions.
From S2P Require Import PluginSafety TransferSafety AdapterSafety Polling PluginClose PluginLogin PluginSystem.

#[local] Instance SignalEvent_eq_dec : EqDecision SignalEvent.
Proof. solve_decision. Defined.

Section PluginCore.
Context `{Gl : GLib} `{Chan : CommandChannel} `{Hex : HexDecoding}.
Variables (files : file_metadata) (turns : nat).

Abbreviation queue core := (q_channel (core_events core)).
Abbreviation poisoned core := (q_receiver_poisoned (core_events core)).

(** The calls of a trace on a core, which the worker may use in between; with
    the events the worker emits. *)
Inductive served : SignalCore → list call_entry → list Event → SignalCore → Prop :=
| served_done core : served core [] [] core
| served_worker core core1 new t emitted core' :
    queue core1 = queue core ++ new → poisoned core1 = poisoned core →
    served core1 t emitted core' → served core t (new ++ emitted) core'
| served_poll core e reads r core1 t emitted core' :
    life_call e = Some (LifePoll r) → signal_core_poll_event reads (Some core) true = Some (r, Some core1) →
    served core1 t emitted core' → served core (e :: t) emitted core'
| served_call core e call status core1 t emitted core' :
    core_result e = Some (call, status) → ffi_call call (Some core) = (status, Some core1) →
    served core1 t emitted core' → served core (e :: t) emitted core'
| served_other core e t emitted core' :
    core_result e = None → (∀ r, life_call e ≠ Some (LifePoll r)) →
    served core t emitted core' → served core (e :: t) emitted core'.

(** No call but a poll touches the events. *)
Lemma ffi_call_events call core status core' :
  ffi_call call (Some core) = (status, Some core') → core_events core' = core_events core.
Proof.
  destruct call; cbn [ffi_call]; unfold signal_core_send_message, signal_core_send_group_message, signal_core_leave_group,
    send_attachment, send_file_attachment, signal_core_cancel_attachment, signal_core_set_typing, signal_core_ack_message,
    signal_core_accept_identity, signal_core_dismiss_identity, signal_core_reset_session, signal_core_mark_read,
    on_core, status_try, queue_attachment, queue_command, queue_control_command;
    cbv zeta; repeat case_match; intros; by simplify_eq/=.
Qed.

(** What a poll that reports an event returns is readable, and is the oldest
    event. *)
Lemma poll_event_queue reads core r core' :
  poisoned core = false → signal_core_poll_event reads (Some core) true = Some (r, Some core') →
  poisoned core' = false ∧
  match polled_event (LifePoll r) with
  | Some event => incompatible event = false ∧ sanitize <$> queue core = c_view event :: (sanitize <$> queue core')
  | None => queue core' = queue core
  end.
Proof.
  intros Hp Hr. split.
  { unfold signal_core_poll_event, poll in Hr. simpl in Hr. rewrite Hp in Hr.
    destruct (queue core); [destruct (drain_notification _ _); [|done]|]; simpl in Hr;
      repeat case_match; by simplify_eq/=. }
  pose proof (poll_event_spec _ _ _ Hp Hr) as H. destruct (queue core) as [|e rest].
  - destruct H as [H1 H2]. simpl in H1, H2. injection H2 as H2. subst r. simpl. by destruct (q_sender_alive _).
  - destruct H as (event&core1&[= -> ->]&Hview&Habi&Hsize&Hq). simpl. unfold incompatible. rewrite Habi, Hsize, Hview, Hq. done.
Qed.

(** The events a plugin acknowledges, as the core sees them. *)
Definition is_projection (e : Event) : bool :=
  negb (ev_request_id e =? 0)%N &&
  ((ev_kind e =? EVENT_MESSAGE)%N || (ev_kind e =? EVENT_GROUP_MESSAGE)%N || (ev_kind e =? EVENT_ATTACHMENT)%N).

Lemma acknowledges_view event : acknowledges event = is_projection (c_view event).
Proof. done. Qed.

Lemma core_result_unpolled e call status :
  core_result e = Some (call, status) → omap polled_event (option_list (life_call e)) = [].
Proof. destruct e as [[A q|A a|A c|A x|A o|n] r]; simpl; try done. destruct c as [c| | | | | | |]; try done. by destruct c. Qed.

Lemma life_calls_cons e t : life_calls (e :: t) = option_list (life_call e) ++ life_calls t.
Proof. unfold life_calls. simpl. by destruct (life_call e). Qed.

Lemma served_stream core t emitted core' :
  served core t emitted core' → poisoned core = false →
  poisoned core' = false ∧ Forall (λ e, incompatible e = false) (omap polled_event (life_calls t)) ∧
  sanitize <$> queue core ++ emitted = (c_view <$> omap polled_event (life_calls t)) ++ (sanitize <$> queue core').
Proof.
  induction 1 as [core|core core1 new t emitted core' Hq Hp _ IH|core e reads r core1 t emitted core' He Hr _ IH
                 |core e call status core1 t emitted core' He Hc _ IH|core e t emitted core' He Hn _ IH]; intros Hpo.
  - by rewrite app_nil_r.
  - rewrite Hp in IH. specialize (IH Hpo). by rewrite Hq, <-app_assoc in IH.
  - destruct (poll_event_queue _ _ _ _ Hpo Hr) as [Hpo1 Hev]. destruct (IH Hpo1) as (H1&H2&H3). split; [done|].
    unfold life_calls. simpl. rewrite He. simpl. fold (life_calls t). rewrite fmap_app in *.
    destruct (polled_event (LifePoll r)) as [event|] eqn:E; simpl in E; rewrite ?E.
    + destruct Hev as [Hi Hq]. split; [by constructor|]. rewrite Hq. simpl. by rewrite H3.
    + split; [done|]. by rewrite <-Hev.
  - apply ffi_call_events in Hc. rewrite <-Hc in *. destruct (IH Hpo) as (H1&H2&H3). split; [done|].
    rewrite life_calls_cons, omap_app, (core_result_unpolled _ _ _ He). done.
  - destruct (IH Hpo) as (H1&H2&H3). split; [done|]. unfold life_calls. simpl.
    destruct (life_call e) as [c|] eqn:E; [|done]. simpl. destruct c; try done. by destruct (Hn answer).
Qed.


(** ** Serving a trace by computation *)

Fixpoint serve (reads : list read_result) (core : SignalCore) (t : list call_entry) : option SignalCore :=
  match t with
  | [] => Some core
  | e :: t =>
      match life_call e with
      | Some (LifePoll r) =>
          match signal_core_poll_event reads (Some core) true with
          | Some (r', Some core1) => if decide (r' = r) then serve reads core1 t else None
          | _ => None
          end
      | _ =>
          match core_result e with
          | Some (call, status) =>
              match ffi_call call (Some core) with
              | (status', Some core1) => if decide (status' = status) then serve reads core1 t else None
              | _ => None
              end
          | None => serve reads core t
          end
      end
  end.

Lemma serve_sound reads core t core' : serve reads core t = Some core' → served core t [] core'.
Proof.
  revert core. induction t as [|e t IH]; intros core H; simpl in H; [injection H as <-; constructor|].
  assert (Hother : match core_result e with
    | Some (call, status) =>
        match ffi_call call (Some core) with
        | (status', Some core1) => if decide (status' = status) then serve reads core1 t else None
        | _ => None
        end
    | None => serve reads core t
    end = Some core' → (∀ r, life_call e ≠ Some (LifePoll r)) → served core (e :: t) [] core').
  { intros Ho Hn. destruct (core_result e) as [[call status]|] eqn:Er.
    - destruct (ffi_call call (Some core)) as [status' [core1|]] eqn:Ef; [|done]. case_decide; [|done]. subst status'.
      eapply served_call; [done..|]. by apply IH.
    - apply served_other; [done..|]. by apply IH. }
  destruct (life_call e) as [[r| | | | | | | | | | | |]|] eqn:El; try (by apply Hother).
  destruct (signal_core_poll_event reads (Some core) true) as [[r' [core1|]]|] eqn:Ep; [|done..].
  case_decide; [|done]. subst r'. eapply served_poll; [done..|]. by apply IH.
Qed.

End PluginCore.

(** ** A run *)

(** The worker has emitted the message. *)
Definition emitting_core : SignalCore := set_events (set_channel [demo_message (Some "hello")] (core_events ready_core)) ready_core.

#[local] Instance demo_hex : HexDecoding := {| hex_decode := λ s, Some (take 32 (bytes_of s)) |}.

Definition served_core : SignalCore := default ready_core (serve [ReadStop] emitting_core (demo_login.1 ++ demo_polled.1)).

Lemma demo_served : served ready_core (demo_login.1 ++ demo_polled.1) [demo_message (Some "hello")] served_core.
Proof.
  apply (served_worker ready_core emitting_core [demo_message (Some "hello")] _ []); [reflexivity..|].
  apply (serve_sound [ReadStop]). vm_compute. reflexivity.
Qed.

